(* ===== verification/_CoqProject ===== *)
-Q . S2P
Prelude.v
Monad.v
Paths.v
Glob.v
Perm.v
FsPolicy.v
FsCache.v
Vfs.v
VaultRetention.v
ShareScope.v
SharePolicy.v
ShareTokens.v
ShareStore.v
ShareManager.v
ShareSteps.v
ShareLifecycle.v
TargetResolver.v
UploadModel.v
UploadSteps.v
UploadLifecycle.v
AuthModel.v
AuthSteps.v
AuthLifecycle.v
AuthRuns.v
SyncModel.v
SyncPlanner.v
HttpRange.v
S3Policy.v
PriceBudget.v
WsLimits.v
