(* ===== verification/Prelude.v ===== *)
(** * Vaulthalla: a verified model of the daemon's core logic

    Vaulthalla is a C++ daemon that serves encrypted vaults of files over FUSE,
    a websocket console, an HTTP preview and download server and an S3 gateway,
    shares parts of them through links, and synchronises cloud vaults with S3
    providers.  This library models the decisions of the daemon (sources under
    src/core/src and src/core/include) and proves what they promise.  I/O,
    databases, sockets and cryptographic libraries stay outside; where a decision
    reads them, they are the parameters of an interface.

    ** Parts and files

    - [Prelude]: byte strings and their notations, boolean equality, results with
      their bind notation, decimal text, the shared lemmas and tactics.
    - [Paths]: std::filesystem's lexical normalisation, on lists of file names.
    - [Monad]: state and exceptions, for the code that changes tables, a disk or a
      cache and may throw; [ensures] follows a relation through a program, [hoare] is a
      triple with a postcondition for each way it ends.
    - [Glob] (rbac/fs/glob): the tokenizer and the matcher of override patterns.
    - [Perm] (rbac/permission): permission sets, module packing, flags, the
      templates of vault filesystem permissions, overrides.
    - [FsPolicy] (rbac/fs/policy/Evaluator.cpp, rbac/fs/Visibility.cpp,
      rbac/resolver): who may do what to which path.  The class [FsEnv] is what
      the storage manager, the entry cache and the account index offer;
      [FsEnvOk] states what the listing filter relies on.
    - [FsCache] (fs/cache/Registry.cpp): the entry cache with its indexes by inode,
      path and id, on a heap of shared entries; the class [FsDb] is its queries.
    - [Vfs], [VaultRetention] (vault/Retention.cpp, db/query/vault/Deletion.cpp,
      vault/model/Deletion.cpp): deleted vaults.  [Vfs] is a disk with links and the
      guarded removal of a directory; [VaultRetention] has the tables, the queries as
      functions on them, the purge and the pass in [Monad]; the class [Outside] is the
      object store, the stop flag, failing transactions, faults of the file system and the
      storage manager.
    - [ShareScope], [SharePolicy], [ShareTokens] (share/, rbac/fs/policy/Share.cpp):
      what a share link opens, what its principal may do (by the evaluator of
      [FsPolicy] on a role made from the grant), its tokens, lifetimes and the
      attempt limiter.
    - [ShareStore], [ShareManager], [ShareSteps], [ShareLifecycle] (share/Manager.cpp,
      share/PrincipalResolver.cpp, share/Policy.cpp, db/query/share): shared links as their
      managers and the public use them.  [ShareStore] has the tables and the queries,
      [ShareManager] the operations in [Monad] and the interface [ShareAuthorizer] with the
      default authorizer over [FsPolicy]; [ShareSteps] is the step relation of the tables, its
      invariant and every operation's footprint (the changes it makes and what it asks the
      outside, hence the times the clock said during a call); [ShareLifecycle] has the theorems.  Clocks,
      draws, failing transactions and the tables of other parts are the class [Outside].
    - [TargetResolver] (share/TargetResolver.cpp): from a requested path to an entry of
      the share; the class [TargetEntryProvider] is the entry queries.
    - [UploadModel], [UploadSteps], [UploadLifecycle] (protocols/http/upload/Coordinator.cpp,
      upload/staging, the PUT of protocols/http/Session.cpp): uploads.  [UploadModel] has
      the sessions on a heap, staging files as names of inodes, streams, and the operations
      over [ShareManager] and [TargetResolver]; the class [UploadOutside] is the disk, the
      clock, the engines and the filesystem, [Staging] the build's staging directory.
      [UploadSteps] has triples for the operations, the invariant and each operation's part
      in keeping it; [UploadLifecycle] has the runs and the theorems.
    - [AuthModel], [AuthSteps], [AuthLifecycle], [AuthRuns] (auth/session, auth/model,
      auth/Manager.cpp, db/query/auth, protocols/ws/Session.cpp, ConnectionLifecycleManager.cpp,
      the gate of Router.cpp, handler/Auth.cpp, handler/share/Sessions.cpp): sign-in and the life
      of sessions.  [AuthModel] has the sessions on a heap, their tokens, the manager's indexes,
      the refresh token table and every operation; the class [AuthOutside] is the token library,
      password hashes, clocks, draws and failing transactions, [AuthOutsideOk] what is relied on.
      [AuthSteps] has the invariant and a triple for each operation on a session,
      [AuthLifecycle] the relation of steps, [AuthRuns] the theorems and a small installation.
    - [SyncModel], [SyncPlanner] (sync/): versions of a file, conflicts, policies,
      and the plan of one pass with its preflight and request estimate.  The state
      of a pass is threaded explicitly, as Planner.cpp and Cloud.cpp change it.
    - [HttpRange] (protocols/http/Range.cpp, handler/Common.cpp, parts of
      protocols/s3/Router.cpp): byte ranges and the representation server.
    - [S3Policy] (rbac/s3/policy, db/query/s3/Gateway.cpp): what a gateway
      credential may do; the class [GatewayDb] is its SQL queries.  It calls the
      evaluator and [has] of [FsPolicy].
    - [PriceBudget] (storage/s3/pricing/PriceBudget.cpp): cost limits of the S3
      providers.  A transaction is a function of the tables that fails or returns new
      ones; the class [Server] fails transactions and has the clock, [Calendar] is the
      database's days and months.
    - [WsLimits] (protocols/ws): connection slots as a step relation over the
      threads' atomic operations, the bounded refusal log, and the request limits,
      which use the limiter of [ShareTokens].

    A definition has the name of the function it models, or that name with a
    prefix where two files use one name.

    ** What the theorems show

    - Policy: [evaluate] implements a declarative policy (the first role that
      decides, its best override, else its base permissions); allowed decisions
      have a reason in the data; the best override is the first of the highest
      score; an untouched subtree is decided uniformly, hence the listing shortcut
      returns exactly the children a per-entry filter keeps; an override on a share
      permission reaches every action (a defect of the code).
    - Patterns: the matcher decides the language of the pattern; the tokenizer
      accepts exactly the valid texts; the subtree test is conservative on
      normalised paths, and a remark shows where it is not.
    - Entry cache: every operation keeps the indexes consistent; listing ends on any
      graph and returns exactly what is reachable; a cached entry has one path; an
      evicted vault leaves nothing; sizes changed in place escape the used-bytes count.
    - Deleted vaults: every sequence of operations keeps the tables well formed and
      moves a deletion along its states; a pass leaves live vaults, their keys and
      their directories alone, however a removal fails, sends requests only for what was decided, within a
      budget, and loses no purge; key copies last as long as promised; the removal of
      a directory is confined whatever the links on the disk and wherever it breaks off.
    - Permissions: packing and flags round-trip within the mask's width.
    - Shares: containment is a prefix of path components of normalised paths,
      authorised and allowed requests stay inside the root and the granted
      operations, a directory share allows exactly its grant; tokens parse exactly
      what is generated, redaction hides the secret, hash domains never mix, the
      limiter keeps its budget and its table bounded.
    - Shared links: every history of requests keeps the tables well formed and their audit
      events; a revoked link stays closed, a new token is the drawn one and ends the old sessions;
      a principal stands for rows in force at a time the clock said during the call and a verified
      recipient, an e-mail code proves its address once, in time and in its link's session,
      a download limit bounds what is granted; an authorisation is the grant's and the policy's;
      running uploads escape the upload limits, and an update ignores the existing link (two
      defects of the code); a resolved target is inside the share, share-relative paths
      round-trip, a listed child resolves as its path does.
    - Uploads: whatever the order of creations, chunks, failures, commits, cancellations and
      expiries, a committed file is exactly the bytes sent for it; a PUT answered with success
      stored its body; sessions answer to their owner alone, told by the ids, and expire exactly
      when they should;
      a short body is not recorded as failed (documentation and code differ).
    - Sessions: over every run a session that acts as a user holds a refresh token on which
      that user's password was verified; a revoked session is refused until the next sign-in on
      it; the router runs a command only where the session's mode permits it; two anonymous tabs
      reach a null pointer, a tab changes its user, a signed-out token comes back (three defects
      of the code, as runs).
    - Sync: under the ask policy a file whose sides differ in size or known hash is
      never overwritten where it changed, deletions
      are justified by the policy, a plan that is carried out converges, one action
      per key, exact preflight and request counts; a same-size change that escapes
      the ask policy (a difference between documentation and code).
    - Serving: the range parser is exact, a response never leaves the
      representation and its Content-Range names the bytes it sends.
    - Gateway: a credential never widens its principal; per-vault rules win.
    - Budgets: an enforced limit holds along every sequence of preflights, commits
      within the reservation, releases and expirations; a preflight reserves exactly
      what it allows; an override is used once, in time, for its vault, run and policies; the reported check is the
      worst one; amounts survive their texts; summaries of notifications merge; a
      commit after its reservation expired is not counted (a defect of the code).
    - Limits: the slot counter is the number of connections under every
      interleaving; the refusal log loses no refusal and warns a bounded number of
      times per window; failed logins lock out after ten a minute, thirty a
      quarter hour.

    ** Bounds and recursion

    Most recursions are structural (on the text, the token list, the list of roles or
    of keys).  [to_string] has twenty digits, enough for every 64-bit integer
    ([to_string_spec]).  The cache's listing has fuel for every child edge, enough by
    [listDir_ends]; an upstream purge has eleven rounds, enough for its budget of ten
    list requests by [upstream_purge_bounded]; a disk lookup follows forty links, the
    system's own limit.  Integers of fixed
    width are Z with the wrap-around written out where the code can reach it;
    counters that only a run of 2^64 increments would overflow are unbounded.
    The limiter's table bound is the code's 4096.  Times are integers of the
    clock's unit; overflow of clock arithmetic is not modelled.

    ** Not modelled

    Storage engines, encryption, FUSE callbacks, the execution of sync plans and
    of recovery, provider clients and price estimates, SQL and row decoding, socket and
    JSON handling, shell commands, mail, previews, statistics, configuration and
    platform code.  They are I/O or calls of libraries, or wait for a later step
    of the plan: registration and password changes, the principals of device HTTP connections,
    the replacement of a file's content by one PUT, budget trends, upstream leases and names, device pairing,
    notification state.  Requests to the share manager are
    served one after the other; concurrent requests interleave in the code between the
    transactions, which the model does not show.  An operation on uploads, and a chunk of a body, is one step;
    an exception inside a PUT fails its stream in the same step; upload ids, drawn as UUIDs, do
    not repeat; nobody else touches the staging files.  An event of a session (a message, a
    request, a sweep) is one step too; the id of a token is the id of no session (UUIDs); a text that
    is no UUID is no row.  Lengths of database columns are not checked. *)
From Stdlib Require Export Ascii String ZArith Lia.
From stdpp Require Export base decidable option list gmap strings.

(** ** Strings

    A [std::string] is a list of bytes.  Indices into it are suffixes of the
    list, so the list lemmas apply to the code's string arithmetic directly. *)
Notation str := (list Ascii.ascii).

Definition lit (s : string) : str := list_ascii_of_string s.
Arguments lit s%_string : simpl never.

Declare Scope vh_scope.
Delimit Scope vh_scope with vh.
Open Scope vh_scope.
Open Scope bool_scope.

Notation "'$' s" := (lit s%string) (at level 1, s at level 0, format "'$' s") : vh_scope.

Definition slash : Ascii.ascii := "/"%char.
Definition dot : Ascii.ascii := "."%char.

(** Boolean equality of any decidable type: the code's [==]. *)
Definition eqb {A} `{EqDecision A} (x y : A) : bool := bool_decide (x = y).
Infix "==" := eqb (at level 70, no associativity) : vh_scope.
Notation "x '!==' y" := (negb (eqb x y)) (at level 70, no associativity) : vh_scope.

Lemma eqb_eq {A} `{EqDecision A} (x y : A) : (x == y) = true <-> x = y.
Proof. unfold eqb. apply bool_decide_eq_true. Qed.

Lemma eqb_neq {A} `{EqDecision A} (x y : A) : (x == y) = false <-> x <> y.
Proof. unfold eqb. apply bool_decide_eq_false. Qed.

Lemma eqb_refl {A} `{EqDecision A} (x : A) : (x == x) = true.
Proof. by apply eqb_eq. Qed.

(** [s.starts_with(p)] and [s.substr(p.size())] at once: the rest of [s] after
    the prefix [p], when [p] is a prefix. *)
Fixpoint strip_prefix (p s : str) : option str :=
  match p, s with
  | [], _ => Some s
  | _ :: _, [] => None
  | a :: p', b :: s' => if a == b then strip_prefix p' s' else None
  end.

Definition starts_with (s p : str) : bool :=
  match strip_prefix p s with Some _ => true | None => false end.

Definition front (s : str) : option Ascii.ascii := head s.
Definition back (s : str) : option Ascii.ascii := last s.
Definition is_empty {A} (s : list A) : bool := match s with [] => true | _ => false end.

(** [s.find_last_of(c)] as the text before and after the last [c]. *)
Fixpoint split_last (c : Ascii.ascii) (s : str) : option (str * str) :=
  match s with
  | [] => None
  | x :: s' =>
      match split_last c s' with
      | Some (a, b) => Some (x :: a, b)
      | None => if x == c then Some ([], s') else None
      end
  end.

(** The fields of a string between the separators [c], empty ones kept ([cur] is
    the reversed beginning of the current field). *)
Fixpoint fields (c : Ascii.ascii) (s : str) (cur : str) : list str :=
  match s with
  | [] => [rev cur]
  | x :: s' => if x == c then rev cur :: fields c s' [] else fields c s' (x :: cur)
  end.

(** Character classes of the C locale. *)
Definition in_chars (lo hi : Ascii.ascii) (c : Ascii.ascii) : bool :=
  (Ascii.nat_of_ascii lo <=? Ascii.nat_of_ascii c)%nat && (Ascii.nat_of_ascii c <=? Ascii.nat_of_ascii hi)%nat.
Definition is_digit := in_chars "0" "9".
Definition is_space (c : Ascii.ascii) : bool := (c == " "%char) || in_chars "009" "013" c.
Definition is_alnum (c : Ascii.ascii) : bool := in_chars "0" "9" c || in_chars "A" "Z" c || in_chars "a" "z" c.
Definition tolower (c : Ascii.ascii) : Ascii.ascii :=
  if in_chars "A" "Z" c then Ascii.ascii_of_nat (Ascii.nat_of_ascii c + 32) else c.

(** Drop the characters of [f] at the front, and at both ends. *)
Fixpoint drop_while (f : Ascii.ascii -> bool) (s : str) : str :=
  match s with c :: s' => if f c then drop_while f s' else s | [] => [] end.
Definition trim_by (f : Ascii.ascii -> bool) (s : str) : str :=
  rev (drop_while f (rev (drop_while f s))).

(** [s.find(c)]: the text before and after the first [c]. *)
Fixpoint split_first (c : Ascii.ascii) (s : str) : option (str * str) :=
  match s with
  | [] => None
  | x :: s' =>
      if x == c then Some ([], s')
      else match split_first c s' with Some (a, b) => Some (x :: a, b) | None => None end
  end.

(** Decimal text: the value of a digit string, and [std::to_string] of an
    unsigned integer of at most 20 digits (every [uint64_t]). *)
Definition digit_value (c : Ascii.ascii) : Z := Z.of_nat (Ascii.nat_of_ascii c) - 48.
Definition decimal_value (s : str) : Z := fold_left (fun acc c => 10 * acc + digit_value c)%Z s 0%Z.
Definition digit_char (d : Z) : Ascii.ascii := Ascii.ascii_of_nat (Z.to_nat (48 + d)).
Fixpoint decimal (fuel : nat) (n : Z) (acc : str) : str :=
  match fuel with
  | O => acc
  | S fuel' =>
      let acc' := digit_char (n mod 10) :: acc in
      if n <? 10 then acc' else decimal fuel' (n / 10) acc'
  end%Z.
Definition to_string (n : Z) : str := decimal 20 n [].

(** ** Results: a value or a thrown exception carrying its message. *)
Inductive result (E A : Type) : Type :=
| Ok (a : A)
| Err (e : E).
Arguments Ok {E A} a.
Arguments Err {E A} e.

Definition rbind {E A B} (m : result E A) (f : A -> result E B) : result E B :=
  match m with Ok a => f a | Err e => Err e end.
Notation "'let?' x := m 'in' k" := (rbind m (fun x => k))
  (at level 200, x name, m at level 100, k at level 200) : vh_scope.
Notation "'let?' ' p := m 'in' k" := (rbind m (fun x => match x with p => k end))
  (at level 200, p pattern, m at level 100, k at level 200) : vh_scope.
Notation "'check' b 'else' e 'in' k" := (if b then k else Err e)
  (at level 200, b at level 100, e at level 100, k at level 200) : vh_scope.

Definition is_ok {E A} (m : result E A) : bool := match m with Ok _ => true | Err _ => false end.

Lemma rbind_Ok {E A B} (m : result E A) (f : A -> result E B) b :
  rbind m f = Ok b <-> exists a, m = Ok a /\ f a = Ok b.
Proof. destruct m; simpl; naive_solver. Qed.

Lemma rbind_Err {E A B} (m : result E A) (f : A -> result E B) e :
  rbind m f = Err e <-> m = Err e \/ exists a, m = Ok a /\ f a = Err e.
Proof. destruct m; simpl; naive_solver. Qed.

(** ** Automation *)
Create HintDb vh.

(** Split every boolean connective of the context into propositions. *)
Ltac bsimpl :=
  repeat match goal with
  | H : context [andb _ _ = true] |- _ => rewrite andb_true_iff in H
  | H : context [andb _ _ = false] |- _ => rewrite andb_false_iff in H
  | H : context [orb _ _ = true] |- _ => rewrite orb_true_iff in H
  | H : context [orb _ _ = false] |- _ => rewrite orb_false_iff in H
  | H : context [negb _ = true] |- _ => rewrite negb_true_iff in H
  | H : context [negb _ = false] |- _ => rewrite negb_false_iff in H
  | H : context [eqb _ _ = true] |- _ => rewrite eqb_eq in H
  | H : context [eqb _ _ = false] |- _ => rewrite eqb_neq in H
  | H : context [bool_decide _ = true] |- _ => rewrite bool_decide_eq_true in H
  | H : context [bool_decide _ = false] |- _ => rewrite bool_decide_eq_false in H
  | H : context [Z.leb _ _ = true] |- _ => rewrite Z.leb_le in H
  | H : context [Z.leb _ _ = false] |- _ => rewrite Z.leb_gt in H
  | H : context [Z.ltb _ _ = true] |- _ => rewrite Z.ltb_lt in H
  | H : context [Z.ltb _ _ = false] |- _ => rewrite Z.ltb_ge in H
  | H : context [Z.eqb _ _ = true] |- _ => rewrite Z.eqb_eq in H
  | H : context [Z.eqb _ _ = false] |- _ => rewrite Z.eqb_neq in H
  | H : context [Z.gtb _ _] |- _ => rewrite Z.gtb_ltb in H
  | H : context [Z.geb _ _] |- _ => rewrite Z.geb_leb in H
  | H : _ /\ _ |- _ => destruct H
  end.

(** Case analysis on the scrutinee of the first [if]/[match] of the goal. *)
Ltac case_if :=
  match goal with
  | |- context [if ?b then _ else _] => let E := fresh "E" in destruct b eqn:E
  end.
Ltac case_if_in H :=
  match type of H with
  | context [if ?b then _ else _] => let E := fresh "E" in destruct b eqn:E
  end.

(** ** Generic lemmas *)
Lemma strip_prefix_spec p s r : strip_prefix p s = Some r <-> s = p ++ r.
Proof.
  revert s; induction p as [|a p IH]; intros [|b s]; simpl; try naive_solver.
  case_if; bsimpl; [rewrite IH|]; naive_solver.
Qed.

Lemma strip_prefix_app p r : strip_prefix p (p ++ r) = Some r.
Proof. by apply strip_prefix_spec. Qed.

Lemma starts_with_spec s p : starts_with s p = true <-> exists r, s = p ++ r.
Proof.
  unfold starts_with. destruct (strip_prefix p s) as [r|] eqn:E.
  - apply strip_prefix_spec in E. naive_solver.
  - split; [done|]. intros [r ->]. by rewrite strip_prefix_app in E.
Qed.

Lemma starts_with_app p r : starts_with (p ++ r) p = true.
Proof. apply starts_with_spec. eauto. Qed.

Lemma starts_with_refl p : starts_with p p = true.
Proof. apply starts_with_spec. exists []. by rewrite app_nil_r. Qed.

Lemma is_empty_true {A} (s : list A) : is_empty s = true <-> s = [].
Proof. destruct s; naive_solver. Qed.

(** Two prefixes of one list are comparable. *)
Lemma prefixes_comparable (a b r q : str) :
  a ++ r = b ++ q -> starts_with a b = true \/ starts_with b a = true.
Proof.
  rewrite !starts_with_spec. intros H.
  destruct (app_eq_inv _ _ _ _ H) as [[k [-> _]]|[k [-> _]]]; eauto.
Qed.

Lemma split_last_spec c s a b : split_last c s = Some (a, b) ->
  s = a ++ c :: b /\ c ∉ b.
Proof.
  revert a b; induction s as [|x s IH]; intros a b; simpl; [done|].
  destruct (split_last c s) as [[a' b']|] eqn:E.
  - intros [= <- <-]. destruct (IH _ _ eq_refl) as [-> ?]. done.
  - case_if; [|done]. intros [= <- <-]. bsimpl. subst. split; [done|].
    clear IH. induction s as [|y s IHs]; [set_solver|]. simpl in E.
    destruct (split_last c s) as [[? ?]|]; [done|].
    case_if_in E; [done|]. bsimpl. set_solver.
Qed.

#[export] Hint Resolve starts_with_app starts_with_refl : vh.
#[export] Hint Rewrite @eqb_refl strip_prefix_app : vh.

(** ** Decimal text *)
Definition digits_to (acc : Z) (s : str) : Z := fold_left (fun a c => 10 * a + digit_value c)%Z s acc.

Lemma digits_to_app acc s t : digits_to acc (s ++ t) = digits_to (digits_to acc s) t.
Proof. apply fold_left_app. Qed.

Lemma digit_char_spec d : (0 <= d < 10)%Z ->
  is_digit (digit_char d) = true /\ digit_value (digit_char d) = d.
Proof.
  intros H. assert (d = 0 \/ d = 1 \/ d = 2 \/ d = 3 \/ d = 4 \/ d = 5 \/ d = 6 \/ d = 7 \/ d = 8 \/ d = 9)%Z as Hd by lia.
  destruct_or! Hd; subst; by vm_compute.
Qed.

Lemma decimal_spec fuel n acc : (0 <= n < 10 ^ Z.of_nat fuel)%Z -> fuel <> O ->
  exists ds, decimal fuel n acc = ds ++ acc /\ ds <> [] /\ forallb is_digit ds = true /\ digits_to 0 ds = n.
Proof.
  revert n acc; induction fuel as [|fuel IH]; intros n acc Hn Hf; [done|].
  cbn [decimal]. cbv zeta.
  pose proof (Z.mod_pos_bound n 10 ltac:(lia)) as Hm. destruct (digit_char_spec _ Hm) as [Hd Hv].
  rewrite Nat2Z.inj_succ, Z.pow_succ_r in Hn by lia.
  destruct (Z.ltb_spec n 10) as [Hlt|Hge].
  - exists [digit_char (n mod 10)]. split_and!; [done|done|cbn [forallb]; by rewrite Hd|].
    unfold digits_to. cbn [fold_left]. rewrite Hv, Z.mod_small by lia. lia.
  - assert (Hq : (0 <= n / 10 < 10 ^ Z.of_nat fuel)%Z).
    { split; [apply Z.div_pos; lia|]. apply Z.div_lt_upper_bound; lia. }
    destruct fuel as [|fuel']; [change (10 ^ Z.of_nat 0)%Z with 1%Z in Hn; lia|].
    destruct (IH _ (digit_char (n mod 10) :: acc) Hq ltac:(done)) as (ds & -> & Hne & Hds & Hval).
    exists (ds ++ [digit_char (n mod 10)]). split_and!.
    + by rewrite <- app_assoc.
    + by destruct ds.
    + rewrite forallb_app, Hds. cbn [forallb]. by rewrite Hd.
    + rewrite digits_to_app, Hval. unfold digits_to. cbn [fold_left]. rewrite Hv.
      pose proof (Z.div_mod n 10 ltac:(lia)). lia.
Qed.

(** [to_string] prints digits only and [decimal_value] reads them back. *)
Lemma to_string_spec n : (0 <= n < 2 ^ 64)%Z ->
  to_string n <> [] /\ forallb is_digit (to_string n) = true /\ decimal_value (to_string n) = n.
Proof.
  intros Hn. destruct (decimal_spec 20 n []) as (ds & Hds & ? & ? & ?); [|done|].
  - change (10 ^ Z.of_nat 20)%Z with 100000000000000000000%Z. lia.
  - unfold to_string. rewrite Hds, app_nil_r. done.
Qed.

Lemma split_first_app c s t : c ∉ s -> split_first c (s ++ c :: t) = Some (s, t).
Proof.
  induction s as [|x s IH]; simpl; intros Hc; [by rewrite eqb_refl|].
  rewrite IH by set_solver. by rewrite (proj2 (eqb_neq x c)) by set_solver.
Qed.

Lemma split_first_None c s : c ∉ s -> split_first c s = None.
Proof.
  induction s as [|x s IH]; simpl; intros Hc; [done|].
  rewrite IH by set_solver. by rewrite (proj2 (eqb_neq x c)) by set_solver.
Qed.

Lemma forallb_not_elem (f : Ascii.ascii -> bool) s c : forallb f s = true -> f c = false -> c ∉ s.
Proof. rewrite forallb_forall. intros Hf Hc Hin%list_elem_of_In%Hf. congruence. Qed.

Lemma drop_while_id f s : match s with c :: _ => f c = false | [] => True end -> drop_while f s = s.
Proof. destruct s as [|c s]; simpl; [done|]. by intros ->. Qed.

Lemma trim_by_id f s :
  match s with c :: _ => f c = false | [] => True end ->
  match rev s with c :: _ => f c = false | [] => True end -> trim_by f s = s.
Proof. intros H1 H2. unfold trim_by. rewrite (drop_while_id f s H1), (drop_while_id f _ H2). apply rev_involutive. Qed.

Lemma drop_while_split f s : exists s1, s = s1 ++ drop_while f s /\
  match drop_while f s with c :: _ => f c = false | [] => True end.
Proof.
  induction s as [|c s [s1 [IH1 IH2]]]; simpl; [by exists []|]. destruct (f c) eqn:Ec; [|by exists []].
  exists (c :: s1). simpl. split; [by f_equal|done].
Qed.
Lemma trim_by_idemp f s : trim_by f (trim_by f s) = trim_by f s.
Proof.
  unfold trim_by at 2 3. set (t := drop_while f s). destruct (drop_while_split f (rev t)) as [s1 [E1 E2]].
  set (u := drop_while f (rev t)) in *. apply trim_by_id; [|by rewrite rev_involutive].
  assert (t = rev u ++ rev s1) as Et by (rewrite <- rev_app_distr, <- E1; by rewrite rev_involutive).
  destruct (drop_while_split f s) as [_ [_ Ht]]. fold t in Ht. rewrite Et in Ht. by destruct (rev u).
Qed.

(** Text with no character of [f] is not trimmed. *)
Lemma trim_by_none f g s : forallb g s = true -> (forall c, g c = true -> f c = false) -> trim_by f s = s.
Proof.
  intros Hs Hg. apply trim_by_id.
  - destruct s; simpl in *; [done|]. bsimpl. auto.
  - destruct (rev s) as [|c r] eqn:Er; [done|]. apply Hg.
    rewrite forallb_forall in Hs. apply Hs, in_rev. rewrite Er. by left.
Qed.
