(* ===== verification/Monad.v ===== *)
(** * State and exceptions

    The monad of code that changes a state and may throw: a computation returns a
    value or an exception together with the state reached so far, so what was done
    before a throw stays done, as in C++.  [let! x := m in k] and [m ;; k] sequence. *)
From S2P Require Import Prelude.

Section StateError.
Context {S E : Type}.

Definition M (A : Type) : Type := S -> result E A * S.
Definition ret {A} (a : A) : M A := fun s => (Ok a, s).
Definition throw {A} (e : E) : M A := fun s => (Err e, s).
Definition bind {A B} (m : M A) (k : A -> M B) : M B :=
  fun s => match m s with (Ok a, s') => k a s' | (Err e, s') => (Err e, s') end.
Definition get : M S := fun s => (Ok s, s).
Definition modify (f : S -> S) : M unit := fun s => (Ok tt, f s).
(** [try { m } catch (const std::exception&) { h }] *)
Definition handle {A} (m : M A) (h : E -> M A) : M A :=
  fun s => match m s with (Ok b, s') => (Ok b, s') | (Err e, s') => h e s' end.
Definition catch {A} (m : M A) (a : A) : M A := handle m (fun _ => ret a).
(** A computation that reads the state only. *)
Definition reads {A} (f : S -> result E A) : M A := fun s => (f s, s).
(** A transaction: it changes the state or throws and leaves it. *)
Definition atomic {A} (f : S -> result E (A * S)) : M A :=
  fun s => match f s with Ok (a, s') => (Ok a, s') | Err e => (Err e, s) end.
Fixpoint for_each {A} (l : list A) (f : A -> M unit) : M unit :=
  match l with [] => ret tt | x :: l' => bind (f x) (fun _ => for_each l' f) end.

Lemma bind_ok {A B} (m : M A) (k : A -> M B) s b t : bind m k s = (Ok b, t) ->
  exists a u, m s = (Ok a, u) /\ k a u = (Ok b, t).
Proof. unfold bind. destruct (m s) as [[a|] u]; [eauto|done]. Qed.
(** Running a computation whose first part is known to return. *)
Lemma bind_run {A B} (m : M A) (k : A -> M B) s a s' : m s = (Ok a, s') -> bind m k s = k a s'.
Proof. unfold bind. by intros ->. Qed.
End StateError.
Arguments M S E A : clear implicits.

Notation "'let!' x := m 'in' k" := (bind m (fun x => k))
  (at level 200, x name, m at level 100, k at level 200) : vh_scope.
Notation "m ;; k" := (bind m (fun _ => k)) (at level 100, k at level 200, right associativity) : vh_scope.

(** ** Properties of every end state

    [ensures R m]: whether [m] returns or throws, it relates the states before and
    after; a reflexive and transitive relation follows the program's structure. *)
Section Ensures.
Context {S E : Type} (R : S -> S -> Prop) `{!PreOrder R}.

Definition ensures {A} (m : M S E A) : Prop := forall s, R s (m s).2.

Lemma ensures_ret {A} (a : A) : ensures (ret a).
Proof. intros s. reflexivity. Qed.
Lemma ensures_throw {A} (e : E) : ensures (throw (A := A) e).
Proof. intros s. reflexivity. Qed.
Lemma ensures_reads {A} (f : S -> result E A) : ensures (reads f).
Proof. intros s. reflexivity. Qed.
Lemma ensures_get : ensures get.
Proof. intros s. reflexivity. Qed.
Lemma ensures_bind {A B} (m : M S E A) (k : A -> M S E B) : ensures m -> (forall a, ensures (k a)) -> ensures (bind m k).
Proof.
  intros Hm Hk s. specialize (Hm s). unfold bind. destruct (m s) as [[a|e] t]; simpl in *; [|done].
  transitivity t; [done|apply Hk].
Qed.
Lemma ensures_handle {A} (m : M S E A) (h : E -> M S E A) : ensures m -> (forall e, ensures (h e)) -> ensures (handle m h).
Proof.
  intros Hm Hh s. specialize (Hm s). unfold handle. destruct (m s) as [[a|e] t]; simpl in *; [done|].
  transitivity t; [done|apply Hh].
Qed.
Lemma ensures_for_each {A} (l : list A) (f : A -> M S E unit) : (forall x, ensures (f x)) -> ensures (for_each l f).
Proof. intros Hf. induction l; simpl; [apply ensures_ret|by apply ensures_bind]. Qed.
End Ensures.

(** ** Triples: what holds after a computation that returns, and after one that throws *)
Section Hoare.
Context {S E : Type}.
Definition hoare {A} (P : S -> Prop) (m : M S E A) (Q : A -> S -> Prop) (R : S -> Prop) : Prop :=
  forall s, P s -> match m s with (Ok a, s') => Q a s' | (Err _, s') => R s' end.

Lemma hoare_bind {A B} P (m : M S E A) (k : A -> M S E B) Q T R :
  hoare P m Q R -> (forall a, hoare (Q a) (k a) T R) -> hoare P (bind m k) T R.
Proof. intros Hm Hk s Hs. specialize (Hm s Hs). unfold bind. destruct (m s) as [[a|e] s']; [by apply Hk|done]. Qed.
Lemma hoare_ret {A} (a : A) (Q : A -> S -> Prop) R : hoare (Q a) (ret a) Q R.
Proof. by intros s. Qed.
Lemma hoare_throw {A} (e : E) (Q : A -> S -> Prop) R : hoare R (throw e) Q R.
Proof. by intros s. Qed.
Lemma hoare_handle {A} P (m : M S E A) h Q X R : hoare P m Q X -> (forall e, hoare X (h e) Q R) -> hoare P (handle m h) Q R.
Proof. intros Hm Hh s Hs. specialize (Hm s Hs). unfold handle. destruct (m s) as [[a|e] s']; [done|by apply Hh]. Qed.
Lemma hoare_conseq {A} (P P' : S -> Prop) (m : M S E A) (Q Q' : A -> S -> Prop) (R R' : S -> Prop) :
  hoare P' m Q' R' -> (forall s, P s -> P' s) -> (forall a s, Q' a s -> Q a s) -> (forall s, R' s -> R s) -> hoare P m Q R.
Proof. intros Hm HP HQ HR s Hs. specialize (Hm s (HP s Hs)). destruct (m s) as [[a|e] s']; auto. Qed.
Lemma hoare_modify (f : S -> S) Q R : hoare (fun s => Q tt (f s)) (modify f) Q R.
Proof. by intros s. Qed.
Lemma hoare_reads {A} (f : S -> result E A) (P : S -> Prop) :
  hoare P (reads f) (fun a s => P s /\ f s = Ok a) P.
Proof. intros s Hs. simpl. by destruct (f s). Qed.
Lemma hoare_get P R : hoare P get (fun a s => P s /\ a = s) R.
Proof. by intros s. Qed.
Lemma hoare_for_each {A} (l : list A) (f : A -> M S E unit) P R :
  (forall x, x ∈ l -> hoare P (f x) (fun _ => P) R) -> hoare P (for_each l f) (fun _ => P) R.
Proof.
  induction l as [|x l IH]; intros Hf; simpl; [apply (hoare_ret tt (fun _ => P))|].
  eapply hoare_bind; [apply Hf; set_solver|]. intros ?. apply IH. set_solver.
Qed.
Lemma hoare_pre {A} P P' (m : M S E A) Q R : hoare P' m Q R -> (forall s, P s -> P' s) -> hoare P m Q R.
Proof. intros Hm HP. by eapply hoare_conseq. Qed.
Lemma hoare_err {A} P (m : M S E A) Q R R' : hoare P m Q R' -> (forall s, R' s -> R s) -> hoare P m Q R.
Proof. intros Hm HR. by eapply hoare_conseq. Qed.
Lemma hoare_fact {A} (C : Prop) P (m : M S E A) Q R : (C -> hoare P m Q R) -> hoare (fun s => P s /\ C) m Q R.
Proof. intros Hm s [Hs HC]. by apply Hm. Qed.
End Hoare.
