(* ===== verification/Paths.v ===== *)
(** * Paths: lexical normalisation of POSIX paths

    [std::filesystem::path::lexically_normal], the library call every path the
    policy code looks at goes through first, with the other path operations the
    entry cache uses.  The normal form is computed on the
    list of file names, as a stack: a name pushes, [..] pops the name before it
    (and, at the root, disappears), [.] disappears.  A removed last component
    leaves the directory separator before it in place, which [trail] records. *)
From S2P Require Import Prelude.

(** The non-empty file names of a path: repeated separators count once. *)
Definition file_names (p : str) : list str :=
  base.filter (fun c : str => is_empty c = false) (fields slash p []).

Definition lex_step (rooted : bool) (st : list str * bool) (c : str) : list str * bool :=
  let '(stk, trail) := st in
  if c == $"." then (stk, true)
  else if c == $".." then
    match stk with
    | top :: stk' => if top == $".." then (c :: stk, false) else (stk', true)
    | [] => if rooted then ([], trail) else ([c], false)
    end
  else (c :: stk, false).

Fixpoint join_slash (l : list str) : str :=
  match l with
  | [] => []
  | [x] => x
  | x :: l' => x ++ slash :: join_slash l'
  end.

Definition ends_with_slash (p : str) : bool :=
  match back p with Some c => c == slash | None => false end.

(** [path.lexically_normal().generic_string()] *)
Definition lexically_normal (p : str) : str :=
  if is_empty p then []
  else
    let rooted := starts_with p $"/" in
    let '(stk, trail) := foldl (lex_step rooted) ([], false) (file_names p) in
    match stk with
    | [] => if rooted then $"/" else $"."
    | top :: _ =>
        (if rooted then $"/" else []) ++ join_slash (rev stk) ++
        (if (trail || ends_with_slash p) && (top !== $"..") then $"/" else [])
    end.

(** The renderings of the standard's own examples. *)
Example lexically_normal_examples :
  lexically_normal $"/a/./b/../c" = $"/a/c" /\ lexically_normal $"/a/b/.." = $"/a/" /\
  lexically_normal $"/../x" = $"/x" /\ lexically_normal $"foo/./bar/.." = $"foo/" /\
  lexically_normal $"foo/.." = $"." /\ lexically_normal $"//a//b/" = $"/a/b/" /\
  lexically_normal $"../.." = $"../.." /\ lexically_normal $"/" = $"/".
Proof. by vm_compute. Qed.

(** ** The other path operations of the standard library *)

(** [dir / name] for a relative [name]: a separator unless the directory already
    ends with one; and the whole operator, where an absolute right side wins. *)
Definition path_join (dir name : str) : str :=
  if ends_with_slash dir || is_empty dir then dir ++ name else dir ++ $"/" ++ name.
Definition path_div (a b : str) : str := if starts_with b $"/" then b else path_join a b.

(** Two paths are equal when their elements are, hence when their texts with the
    repeated separators collapsed are; [collapse] is the key of a map of paths. *)
Fixpoint collapse (p : str) : str :=
  match p with
  | c :: (d :: _) as p' => if (c == slash) && (d == slash) then collapse p' else c :: collapse p'
  | _ => p
  end.
Definition path_eq (a b : str) : bool := collapse a == collapse b.

(** [begin() .. end()]: the root directory, the names, and an empty name after a
    final separator. *)
Definition elements (p : str) : list str :=
  let names := file_names p in
  (if starts_with p $"/" then [$"/"] else []) ++ names ++
  (if ends_with_slash p && negb (is_empty names) then [[]] else []).

Fixpoint mismatch (a b : list str) : list str * list str :=
  match a, b with
  | x :: a', y :: b' => if x == y then mismatch a' b' else (a, b)
  | _, _ => (a, b)
  end.

(** How many levels the elements go down. *)
Definition level_step (n : Z) (c : str) : Z :=
  if c == $".." then n - 1 else if negb (is_empty c) && (c !== $".") then n + 1 else n.

Definition lexically_relative (p base : str) : str :=
  if xorb (starts_with p $"/") (starts_with base $"/") then []
  else
    let '(a, b) := mismatch (elements p) (elements base) in
    if is_empty a && is_empty b then $"."
    else
      let n := foldl level_step 0%Z b in
      if (n =? 0)%Z && match a with [] => true | x :: _ => is_empty x end then $"."
      else if (0 <=? n)%Z then foldl path_div (foldl path_div [] (replicate (Z.to_nat n) $"..")) a
      else [].

(** fs/model/Path.hpp *)
Definition makeAbsolute (path : str) : str :=
  if is_empty path then $"/"
  else if starts_with path $"/" then lexically_normal path
  else path_div $"/" (lexically_normal path).

Example path_operation_examples :
  path_div $"/a" $"b" = $"/a/b" /\ path_div $"/" $"b" = $"/b" /\ path_div $"/a" $"/b" = $"/b" /\
  path_eq $"/a//b" $"/a/b" = true /\ path_eq $"/a/b/" $"/a/b" = false /\
  lexically_relative $"/a/d" $"/a/b/c" = $"../../d" /\ lexically_relative $"/a/b/c" $"/a" = $"b/c" /\
  lexically_relative $"/a/b/c" $"/a/b/c/x/y" = $"../.." /\ lexically_relative $"a/b" $"a/b" = $"." /\
  lexically_relative $"a/b" $"/a/b" = [] /\
  makeAbsolute $"x/../y" = $"/y" /\ makeAbsolute [] = $"/" /\ makeAbsolute $"/a//b/." = $"/a/b/".
Proof. by vm_compute. Qed.

(** ** Fields and joins *)
Lemma fields_app c s t cur :
  c ∉ s -> fields c (s ++ c :: t) cur = (rev cur ++ s) :: fields c t [].
Proof.
  revert cur; induction s as [|x s IH]; intros cur H; simpl.
  - by rewrite eqb_refl, app_nil_r.
  - assert (x <> c) by set_solver.
    replace (x == c) with false by (symmetry; by apply eqb_neq).
    rewrite IH by set_solver. simpl. by rewrite <- app_assoc.
Qed.

Lemma fields_nosep c s cur : c ∉ s -> fields c s cur = [rev cur ++ s].
Proof.
  revert cur; induction s as [|x s IH]; intros cur H; simpl.
  - by rewrite app_nil_r.
  - assert (x <> c) by set_solver.
    replace (x == c) with false by (symmetry; by apply eqb_neq).
    rewrite IH by set_solver. simpl. by rewrite <- app_assoc.
Qed.

Lemma fields_no_sep c s cur x : c ∉ cur -> x ∈ fields c s cur -> c ∉ x.
Proof.
  revert cur; induction s as [|y s IH]; intros cur Hc; simpl.
  - rewrite list_elem_of_singleton. intros ->. rewrite list_elem_of_In, <- in_rev, <- list_elem_of_In. done.
  - case_if; bsimpl.
    + rewrite elem_of_cons. intros [->|Hx].
      * intros Hin. apply Hc. apply list_elem_of_In. apply in_rev. by apply list_elem_of_In.
      * apply (IH []); [set_solver|done].
    + apply IH. set_solver.
Qed.

Lemma file_names_nonempty p x : x ∈ file_names p -> x <> [].
Proof. unfold file_names. rewrite list_elem_of_filter. intros [H _] ->. done. Qed.

Lemma file_names_no_slash p x : x ∈ file_names p -> slash ∉ x.
Proof.
  unfold file_names. rewrite list_elem_of_filter. intros [_ H].
  eapply fields_no_sep; [|exact H]. set_solver.
Qed.

(** ** The stack never holds [.], and [..] only below the root of a relative path *)
Definition plain (c : str) : Prop := c <> [] /\ c <> $"." /\ c <> $".." /\ slash ∉ c.

Lemma lex_step_plain st c :
  Forall plain st.1 -> c <> [] -> slash ∉ c -> Forall plain (lex_step true st c).1.
Proof.
  destruct st as [stk trail]; simpl. intros H Hne Hs. unfold lex_step.
  destruct (c == $".") eqn:E1; [exact H|]. destruct (c == $"..") eqn:E2; bsimpl; simpl.
  - destruct stk as [|top stk']; simpl; [done|].
    apply Forall_cons in H as [(_ & _ & Htop & _) Hstk].
    destruct (top == $"..") eqn:E3; bsimpl; [by destruct Htop|exact Hstk].
  - constructor; [|done]. repeat split; done.
Qed.

Lemma lex_fold_plain l st :
  Forall plain st.1 -> Forall (fun c => c <> [] /\ slash ∉ c) l ->
  Forall plain (foldl (lex_step true) st l).1.
Proof.
  revert st; induction l as [|c l IH]; intros st Hst Hl; simpl; [done|].
  apply Forall_cons in Hl as [[? ?] Hl]. apply IH; [|done]. by apply lex_step_plain.
Qed.

(** A rooted path normalises to a rooted path. *)
Lemma lexically_normal_rooted p :
  starts_with p $"/" = true -> exists r, lexically_normal p = slash :: r.
Proof.
  intros H. unfold lexically_normal.
  destruct p as [|c p]; [done|]. simpl is_empty. cbv iota. rewrite H.
  destruct (foldl _ _ _) as [[|top stk] trail]; [eauto|].
  simpl app. eauto.
Qed.

(** ** Joining a name to a normal directory *)
Lemma fields_app_all c s t cur :
  fields c (s ++ c :: t) cur = fields c s cur ++ fields c t [].
Proof.
  revert cur; induction s as [|x s IH]; intros cur; simpl; [by rewrite eqb_refl|].
  case_if; simpl; by rewrite IH.
Qed.

Lemma file_names_join d n :
  plain n -> file_names (d ++ slash :: n) = file_names d ++ [n].
Proof.
  intros (Hne & _ & _ & Hs). unfold file_names.
  rewrite fields_app_all, filter_app, (fields_nosep slash n) by done.
  f_equal. destruct n; [done|reflexivity].
Qed.

Lemma lex_step_plain_name rooted st n : plain n -> lex_step rooted st n = (n :: st.1, false).
Proof.
  intros (_ & H1 & H2 & _). destruct st as [stk trail]. unfold lex_step.
  replace (n == $".") with false by (symmetry; by apply eqb_neq).
  by replace (n == $"..") with false by (symmetry; by apply eqb_neq).
Qed.

Lemma join_slash_snoc l n : l <> [] -> join_slash (l ++ [n]) = join_slash l ++ slash :: n.
Proof.
  induction l as [|x l IH]; [done|]. intros _. destruct l as [|y l]; [done|].
  change (join_slash ((x :: y :: l) ++ [n])) with (x ++ slash :: join_slash ((y :: l) ++ [n])).
  rewrite IH by done. change (join_slash (x :: y :: l)) with (x ++ slash :: join_slash (y :: l)).
  by rewrite <- app_assoc.
Qed.

Lemma ends_with_slash_snoc d n : plain n -> ends_with_slash (d ++ slash :: n) = false.
Proof.
  intros (Hne & _ & _ & Hs). unfold ends_with_slash, back.
  destruct (exists_last Hne) as (n' & c & ->).
  change (d ++ slash :: n' ++ [c]) with (d ++ (slash :: n') ++ [c]).
  rewrite app_assoc, last_snoc. apply eqb_neq. set_solver.
Qed.

(** A directory text as the entry tree stores it: the root, or a rooted normal
    path without a trailing separator. *)
Definition normal_dir (d : str) : Prop :=
  d = $"/" \/
  (starts_with d $"/" = true /\ ends_with_slash d = false /\ lexically_normal d = d).

Lemma lexically_normal_child d n :
  normal_dir d -> plain n ->
  lexically_normal (if d == $"/" then d ++ n else d ++ slash :: n) =
  (if d == $"/" then d else d ++ $"/") ++ n.
Proof.
  intros [->|(Hr & Hs & Hn)] Hp.
  - change (if $"/" == $"/" then ?a else ?b) with a.
    change ($"/" ++ n) with ([] ++ slash :: n). unfold lexically_normal.
    rewrite file_names_join, (ends_with_slash_snoc [] n) by done.
    change (starts_with ([] ++ slash :: n) $"/") with true.
    change (foldl ?f ?a (file_names [] ++ [n])) with (f a n).
    rewrite lex_step_plain_name by done. simpl. by rewrite app_nil_r.
  - assert (d == $"/" = false) as -> by (apply eqb_neq; intros ->; by vm_compute in Hs).
    cbv iota. unfold lexically_normal in Hn |- *.
    destruct d as [|c d']; [done|]. set (d := c :: d') in *.
    replace (is_empty (d ++ slash :: n)) with false by done.
    assert (starts_with (d ++ slash :: n) $"/" = true) as Hr'.
    { apply starts_with_spec in Hr as [r ->]. by apply starts_with_spec; exists (r ++ slash :: n); rewrite app_assoc. }
    rewrite Hr', file_names_join, foldl_app by done. simpl is_empty in Hn. cbv iota in Hn. rewrite Hr in Hn.
    destruct (foldl (lex_step true) ([], false) (file_names d)) as [stk trail] eqn:Ef.
    change (foldl (lex_step true) (stk, trail) [n]) with (lex_step true (stk, trail) n).
    rewrite lex_step_plain_name by done. cbn [fst rev]. rewrite ends_with_slash_snoc by done.
    destruct stk as [|top stk]; [by rewrite <- Hn in Hs; vm_compute in Hs|].
    rewrite Hs, orb_false_r in Hn.
    destruct (trail && (top !== $"..")) eqn:Et.
    { exfalso. revert Hs. rewrite <- Hn. unfold ends_with_slash, back.
      change (lit "/") with [slash]. by rewrite !app_assoc, last_snoc. }
    simpl orb. cbv iota. simpl andb.
    rewrite app_nil_r in Hn |- *. rewrite <- Hn at 1.
    rewrite join_slash_snoc by (intros Hnil; apply (f_equal length) in Hnil; rewrite length_rev in Hnil; done).
    by rewrite <- !app_assoc.
Qed.

(** ** Collapsed paths: the keys of maps of paths *)
Lemma collapse_cons c p : exists q, collapse (c :: p) = c :: q.
Proof.
  revert c; induction p as [|d p IH]; intros c; simpl; [eauto|]. case_if; [|eauto].
  bsimpl. subst. apply IH.
Qed.

Lemma fields_slash_names p cur :
  base.filter (fun c : str => is_empty c = false) (fields slash (slash :: p) cur) =
  base.filter (fun c : str => is_empty c = false) [rev cur] ++ file_names (slash :: p).
Proof.
  unfold file_names. cbn [fields]. rewrite !eqb_refl, !filter_cons, filter_nil. cbn. by case_decide.
Qed.

Lemma collapse_names p cur :
  base.filter (fun c : str => is_empty c = false) (fields slash (collapse p) cur) =
  base.filter (fun c : str => is_empty c = false) (fields slash p cur).
Proof.
  revert cur; induction p as [|c p IH]; intros cur; [done|]. destruct p as [|d p]; [done|].
  change (collapse (c :: d :: p)) with
    (if (c == slash) && (d == slash) then collapse (d :: p) else c :: collapse (d :: p)).
  destruct ((c == slash) && (d == slash)) eqn:E; bsimpl.
  - subst. by rewrite IH, !fields_slash_names.
  - change (fields slash (c :: ?x) cur) with (if c == slash then rev cur :: fields slash x [] else fields slash x (c :: cur)).
    case_if; [|apply IH]. by rewrite !filter_cons, IH.
Qed.

Lemma collapse_ends p : ends_with_slash (collapse p) = ends_with_slash p.
Proof.
  unfold ends_with_slash, back. induction p as [|c p IH]; [done|]. destruct p as [|d p]; [done|].
  change (collapse (c :: d :: p)) with
    (if (c == slash) && (d == slash) then collapse (d :: p) else c :: collapse (d :: p)).
  rewrite (last_cons_cons c d). case_if; [done|]. destruct (collapse_cons d p) as [q Hq]. rewrite Hq in *.
  by rewrite last_cons_cons.
Qed.

Lemma collapse_starts p : starts_with (collapse p) $"/" = starts_with p $"/".
Proof. destruct p as [|c p]; [done|]. destruct (collapse_cons c p) as [q ->]. unfold starts_with. change $"/" with [slash]. cbn [strip_prefix]. by destruct (slash == c). Qed.

(** A path and its collapsed text have one normal form. *)
Lemma lexically_normal_collapse p : lexically_normal (collapse p) = lexically_normal p.
Proof.
  unfold lexically_normal. rewrite collapse_starts, collapse_ends.
  replace (file_names (collapse p)) with (file_names p) by (symmetry; apply collapse_names).
  destruct p as [|c p]; [done|]. by destruct (collapse_cons c p) as [q ->].
Qed.

Lemma makeAbsolute_collapse p : makeAbsolute (collapse p) = makeAbsolute p.
Proof.
  unfold makeAbsolute. rewrite collapse_starts, lexically_normal_collapse.
  destruct p as [|c p]; [done|]. by destruct (collapse_cons c p) as [q ->].
Qed.
