(* ===== verification/Glob.v ===== *)
(** * Glob: the override patterns of the filesystem policy

    [rbac/fs/glob]: the tokenizer ([Tokenizer.cpp]) and the matcher
    ([Matcher.cpp]).  Positions in the pattern and in the path are the token list
    and the path text that remain. *)
From S2P Require Import Prelude Paths.

(** ** Tokens *)
Inductive TokenType := Literal | Star | DoubleStar | Question | Slash.

#[export] Instance TokenType_eq : EqDecision TokenType.
Proof. solve_decision. Defined.

Record Token := mkToken { type : TokenType; value : str }.
Record Pattern := mkPattern { source : str; tokens : list Token }.

(** ** Tokenizer *)
Definition star_c : Ascii.ascii := "*"%char.
Definition question_c : Ascii.ascii := "?"%char.
Definition backslash_c : Ascii.ascii := "\"%char.

Inductive GlobError :=
| EmptyPattern
| NotVaultAbsolute
| EscapeAt (index : nat)
| StarRun (length : nat).

Definition isSpecial (c : Ascii.ascii) : bool := (c == star_c) || (c == question_c) || (c == slash).

Definition pushLiteralIfNeeded (buffer : str) (rest : list Token) : list Token :=
  if is_empty buffer then rest else mkToken Literal buffer :: rest.

(** The stars that follow: the inner loop of [validate]. *)
Fixpoint star_run (s : str) : nat :=
  match s with
  | c :: s' => if c == star_c then S (star_run s') else 0
  | [] => 0
  end.

(** The loop of [validate]; [skip] characters were consumed by the inner loop. *)
Fixpoint validate_from (i skip : nat) (s : str) : result GlobError unit :=
  match s, skip with
  | [], _ => Ok tt
  | _ :: s', S k => validate_from (S i) k s'
  | c :: s', 0 =>
      if c == backslash_c then Err (EscapeAt i)
      else if c == star_c then
        let extra := star_run s' in
        if (2 <? S extra)%nat then Err (StarRun (S extra)) else validate_from (S i) extra s'
      else validate_from (S i) 0 s'
  end.

Definition validate (pattern : str) : result GlobError unit :=
  match pattern with
  | [] => Err EmptyPattern
  | c :: _ => if c == slash then validate_from 0 0 pattern else Err NotVaultAbsolute
  end.

Definition isValid (pattern : str) : bool := is_ok (validate pattern).

Fixpoint tokenize (s buffer : str) : list Token :=
  match s with
  | [] => pushLiteralIfNeeded buffer []
  | c :: s' =>
      if negb (isSpecial c) then tokenize s' (buffer ++ [c])
      else pushLiteralIfNeeded buffer
        (if c == slash then mkToken Slash $"/" :: tokenize s' []
         else if c == question_c then mkToken Question $"?" :: tokenize s' []
         else match s' with
              | c2 :: s'' =>
                  if c2 == star_c then mkToken DoubleStar $"**" :: tokenize s'' []
                  else mkToken Star $"*" :: tokenize s' []
              | [] => mkToken Star $"*" :: tokenize s' []
              end)
  end.

Definition parse (pattern : str) : result GlobError Pattern :=
  let? _ := validate pattern in Ok (mkPattern pattern (tokenize pattern [])).

(** ** Matcher *)

(** [*]: at least one character, up to the next separator. *)
Definition star_loop (k : str -> bool) : str -> bool :=
  fix loop (path : str) : bool :=
    match path with
    | [] => false
    | c :: path' => if c == slash then false else k path' || loop path'
    end.

(** [**/], one or more segments: resume after any separator. *)
Definition segment_loop (k : str -> bool) : str -> bool :=
  fix loop (path : str) : bool :=
    match path with
    | [] => false
    | c :: path' => ((c == slash) && k path') || loop path'
    end.

(** [**]: resume anywhere, the end included. *)
Definition any_loop (k : str -> bool) : str -> bool :=
  fix loop (path : str) : bool :=
    k path || match path with [] => false | _ :: path' => loop path' end.

Fixpoint matchRecursive (ts : list Token) (path : str) : bool :=
  match ts with
  | [] => is_empty path
  | token :: rest =>
      match type token with
      | Literal =>
          match strip_prefix (value token) path with
          | Some path' => matchRecursive rest path'
          | None => false
          end
      | Slash =>
          match path with
          | c :: path' => if c == slash then matchRecursive rest path' else false
          | [] => false
          end
      | Question =>
          match path with
          | c :: path' => if c == slash then false else matchRecursive rest path'
          | [] => false
          end
      | Star => star_loop (matchRecursive rest) path
      | DoubleStar =>
          match rest with
          | next :: rest2 =>
              if type next == Slash
              then matchRecursive rest2 path || segment_loop (matchRecursive rest2) path
              else any_loop (matchRecursive rest) path
          | [] => any_loop (matchRecursive rest) path
          end
      end
  end.

Definition isWildcardToken (t : Token) : bool :=
  (type t == Star) || (type t == DoubleStar) || (type t == Question).

Fixpoint literal_run (ts : list Token) : str :=
  match ts with
  | [] => []
  | t :: ts' => if isWildcardToken t then [] else value t ++ literal_run ts'
  end.

Definition literalTraversalPrefix (p : Pattern) : str :=
  let prefix := literal_run (tokens p) in if is_empty prefix then $"/" else prefix.

Definition isAncestorOrSelf (ancestor path : str) : bool :=
  if ancestor == $"/" then match front path with Some c => c == slash | None => false end
  else match strip_prefix ancestor path with
       | None => false
       | Some [] => true
       | Some (c :: _) => c == slash
       end.

Definition isStrictAncestor (ancestor path : str) : bool :=
  (ancestor !== path) && isAncestorOrSelf ancestor path.

(** [while (path.size() > 1 && path.back() == '/') path.pop_back()], on the
    reversed path. *)
Fixpoint pop_trailing_slashes (r : str) : str :=
  match r with
  | c :: ((_ :: _) as r') => if c == slash then pop_trailing_slashes r' else r
  | _ => r
  end.

Definition parentDirectory (path : str) : str :=
  if is_empty path || (path == $"/") then $"/"
  else match split_last slash (rev (pop_trailing_slashes (rev path))) with
       | None | Some ([], _) => $"/"
       | Some (parent, _) => parent
       end.

Definition normalizePath (path : str) : str := lexically_normal path.

Definition is_rooted (path : str) : bool :=
  match front path with Some c => c == slash | None => false end.

Definition validatePath (path : str) : bool := is_rooted (normalizePath path).

Definition matches (p : Pattern) (path : str) : bool :=
  let normalized := normalizePath path in
  if negb (is_rooted normalized) then false else matchRecursive (tokens p) normalized.

Definition pop_back_slash (s : str) : str :=
  if (s !== $"/") && ends_with_slash s then rev (tail (rev s)) else s.

Definition requiresTraversalThrough (p : Pattern) (directory : str) : bool :=
  let dir := normalizePath directory in
  if negb (is_rooted dir) then false
  else if matches p directory then false
  else
    let prefix := literalTraversalPrefix p in
    if negb (isAncestorOrSelf dir prefix) then false
    else if isStrictAncestor dir prefix then true
    else if negb (is_empty prefix) && ends_with_slash prefix then true
    else (dir == pop_back_slash prefix) || (dir == parentDirectory prefix).

Definition within_dir (dir : str) : str := if dir == $"/" then dir else dir ++ $"/".

Definition mayMatchWithin (p : Pattern) (directory : str) : bool :=
  let dir := normalizePath directory in
  if negb (is_rooted dir) then false
  else if matches p directory || requiresTraversalThrough p directory then true
  else if negb (existsb isWildcardToken (tokens p)) then false
  else
    let prefix := literalTraversalPrefix p in
    let within := within_dir dir in
    starts_with within prefix || starts_with prefix within.

(** The overloads on the pattern text: parse, then match. *)
Definition matches_text (pattern path : str) : result GlobError bool :=
  let? p := parse pattern in Ok (matches p path).
Definition requiresTraversalThrough_text (pattern directory : str) : result GlobError bool :=
  let? p := parse pattern in Ok (requiresTraversalThrough p directory).

Definition make (text : str) : result GlobError Pattern := parse text.

Example glob_examples :
  matches_text $"/docs/*.txt" $"/docs/a.txt" = Ok true /\
  matches_text $"/docs/*.txt" $"/docs/x/a.txt" = Ok false /\
  matches_text $"/**/secret" $"/secret" = Ok true /\
  matches_text $"/**/secret" $"/a/b/secret" = Ok true /\
  matches_text $"/**/secret" $"/a/bsecret" = Ok false /\
  matches_text $"docs" $"/docs" = Err NotVaultAbsolute /\
  matches_text $"/a***b" $"/a" = Err (StarRun 3) /\
  matches_text $"/a\b" $"/a" = Err (EscapeAt 2) /\
  requiresTraversalThrough_text $"/docs/*.txt" $"/docs" = Ok true /\
  parentDirectory $"/a/b//" = $"/a".
Proof. by vm_compute. Qed.

(** ** The language of a pattern

    What each token stands for, independently of the search the matcher makes:
    a [*] is a non-empty piece of one segment, [**/] any number of whole
    segments, any other [**] any text. *)
Definition starts_segment (ts : list Token) : bool :=
  match ts with n :: _ => type n == Slash | [] => false end.

Definition whole_segments (u : str) : Prop := u = [] \/ exists v, u = v ++ [slash].

Inductive globs : list Token -> str -> Prop :=
| globs_nil : globs [] []
| globs_literal t ts s : type t = Literal -> globs ts s -> globs (t :: ts) (value t ++ s)
| globs_slash t ts s : type t = Slash -> globs ts s -> globs (t :: ts) (slash :: s)
| globs_question t ts c s :
    type t = Question -> c <> slash -> globs ts s -> globs (t :: ts) (c :: s)
| globs_star t ts u s :
    type t = Star -> u <> [] -> slash ∉ u -> globs ts s -> globs (t :: ts) (u ++ s)
| globs_segments t n ts u s :
    type t = DoubleStar -> type n = Slash -> whole_segments u ->
    globs ts s -> globs (t :: n :: ts) (u ++ s)
| globs_any t ts u s :
    type t = DoubleStar -> starts_segment ts = false -> globs ts s -> globs (t :: ts) (u ++ s).

#[export] Hint Constructors globs : vh.

(** Token lists as the tokenizer makes them. *)
Definition token_text (t : Token) : str :=
  match type t with
  | Slash => $"/" | Question => $"?" | Star => $"*" | DoubleStar => $"**" | Literal => value t
  end.
Definition wf_token (t : Token) : Prop :=
  value t = token_text t /\
  (type t = Literal -> value t <> [] /\ Forall (fun c => isSpecial c = false) (value t)).
Definition wf_pattern (p : Pattern) : Prop := Forall wf_token (tokens p).

(** *** The search loops find exactly the splits they look for *)
Lemma star_loop_spec k path :
  star_loop k path = true <->
  exists u s, path = u ++ s /\ u <> [] /\ slash ∉ u /\ k s = true.
Proof.
  induction path as [|c path IH]; simpl.
  - split; [done|]. intros ([|] & ? & ? & ? & _); done.
  - case_if; bsimpl.
    + split; [done|]. intros ([|x u] & s & He & ? & Hu & _); simplify_eq/=. set_solver.
    + rewrite orb_true_iff, IH. split.
      * intros [Hk|(u & s & -> & ? & ? & ?)].
        -- exists [c], path. set_solver.
        -- exists (c :: u), s. set_solver.
      * intros ([|x u] & s & He & ? & Hu & ?); simplify_eq/=.
        destruct u as [|y u]; [by left|]. right. exists (y :: u), s. set_solver.
Qed.

Lemma segment_loop_spec k path :
  segment_loop k path = true <->
  exists v s, path = v ++ slash :: s /\ k s = true.
Proof.
  induction path as [|c path IH]; simpl.
  - split; [done|]. intros ([|] & ? & ? & _); done.
  - rewrite orb_true_iff, andb_true_iff, eqb_eq, IH. split.
    + intros [[-> Hk]|(v & s & -> & ?)]; [by exists [], path|by exists (c :: v), s].
    + intros ([|x v] & s & He & ?); simplify_eq/=; [by left|]. right. by exists v, s.
Qed.

Lemma any_loop_spec k path :
  any_loop k path = true <-> exists u s, path = u ++ s /\ k s = true.
Proof.
  induction path as [|c path IH]; simpl; rewrite orb_true_iff; [|rewrite IH]; split.
  - intros [?|?]; [|done]. by exists [], [].
  - intros ([|] & s & He & ?); simplify_eq/=; by left.
  - intros [?|(u & s & -> & ?)]; [by exists [], (c :: path)|by exists (c :: u), s].
  - intros ([|x u] & s & He & ?); simplify_eq/=; [by left|]. right. by exists u, s.
Qed.

Lemma matchRecursive_double_star t rest path :
  type t = DoubleStar ->
  matchRecursive (t :: rest) path =
  match rest with
  | next :: rest2 =>
      if type next == Slash
      then matchRecursive rest2 path || segment_loop (matchRecursive rest2) path
      else any_loop (matchRecursive rest) path
  | [] => any_loop (matchRecursive rest) path
  end.
Proof. intros Ht. simpl. by rewrite Ht. Qed.

Lemma segments_loop_spec k path :
  (k path || segment_loop k path) = true <->
  exists u s, path = u ++ s /\ whole_segments u /\ k s = true.
Proof.
  rewrite orb_true_iff, segment_loop_spec. unfold whole_segments. split.
  - intros [Hk|(v & s & -> & ?)]; [exists [], path; auto|].
    exists (v ++ [slash]), s. rewrite <- app_assoc. eauto.
  - intros (u & s & -> & [->|[v ->]] & ?); [by left|]. right. exists v, s.
    by rewrite <- app_assoc.
Qed.

Lemma matchRecursive_sound ts path : matchRecursive ts path = true -> globs ts path.
Proof.
  revert path. induction ts as [ts IH] using (induction_ltof1 _ length).
  unfold ltof in IH. intros path. destruct ts as [|t rest]; simpl.
  { rewrite is_empty_true. intros ->. constructor. }
  destruct (type t) eqn:Ht.
  - destruct (strip_prefix _ _) eqn:E; [|done]. apply strip_prefix_spec in E as ->.
    intros H. apply globs_literal; [done|]. apply IH; [simpl; lia|done].
  - rewrite star_loop_spec. intros (u & s & -> & ? & ? & ?).
    apply globs_star; try done. apply IH; [simpl; lia|done].
  - destruct rest as [|n rest2].
    + rewrite any_loop_spec. intros (u & s & -> & H). apply globs_any; try done.
      apply IH; [simpl; lia|done].
    + case_if; bsimpl.
      * rewrite segments_loop_spec. intros (u & s & -> & ? & ?).
        apply globs_segments; try done. apply IH; [simpl; lia|done].
      * rewrite any_loop_spec. intros (u & s & -> & H). apply globs_any; [done| |].
        { simpl. by apply eqb_neq. }
        apply IH; [simpl; lia|done].
  - destruct path as [|c path]; [done|]. case_if; [done|]. bsimpl.
    intros H. apply globs_question; try done. apply IH; [simpl; lia|done].
  - destruct path as [|c path]; [done|]. case_if; [|done]. bsimpl. subst c.
    intros H. apply globs_slash; try done. apply IH; [simpl; lia|done].
Qed.

Lemma matchRecursive_complete ts path : globs ts path -> matchRecursive ts path = true.
Proof.
  induction 1 as [|t ts s Ht Hg IH|t ts s Ht Hg IH|t ts c s Ht Hc Hg IH|t ts u s Ht Hu Hs Hg IH
    |t n ts u s Ht Hn Hw Hg IH|t ts u s Ht Hn Hg IH]; simpl; rewrite ?Ht.
  - done.
  - by rewrite strip_prefix_app.
  - done.
  - case_if; bsimpl; done.
  - apply star_loop_spec. eauto 6.
  - rewrite Hn, eqb_refl. apply segments_loop_spec. eauto 6.
  - destruct ts as [|n ts].
    + apply any_loop_spec. eauto.
    + simpl in Hn. rewrite Hn. apply any_loop_spec. eauto.
Qed.

(** *** The tokenizer *)
Lemma tokenize_text s buffer : concat (map value (tokenize s buffer)) = buffer ++ s.
Proof.
  assert (Hpush : forall b rest, concat (map value (pushLiteralIfNeeded b rest)) =
                                 b ++ concat (map value rest)).
  { intros [|x b] rest; reflexivity. }
  revert buffer. induction s as [s IH] using (induction_ltof1 _ length). unfold ltof in IH.
  intros buffer. destruct s as [|c s]; simpl; [apply Hpush|].
  destruct (isSpecial c) eqn:Hsp; simpl.
  - rewrite Hpush. f_equal.
    destruct (c == slash) eqn:E1; [bsimpl; subst; simpl; by rewrite IH by (simpl; lia)|].
    destruct (c == question_c) eqn:E2; [bsimpl; subst; simpl; by rewrite IH by (simpl; lia)|].
    assert (c = star_c) as ->.
    { unfold isSpecial in Hsp. rewrite E1, E2 in Hsp. by bsimpl; destruct Hsp as [[?|?]|?]; bsimpl. }
    destruct s as [|c2 s]; [done|].
    destruct (c2 == star_c) eqn:E3; cbn [map value List.concat].
    + bsimpl. subst. by rewrite IH by (simpl; lia).
    + by rewrite IH by (simpl; lia).
  - rewrite IH by (simpl; lia). by rewrite <- app_assoc.
Qed.

Lemma tokenize_wf s buffer :
  Forall (fun c => isSpecial c = false) buffer -> Forall wf_token (tokenize s buffer).
Proof.
  assert (Hpush : forall b rest, Forall (fun c => isSpecial c = false) b -> Forall wf_token rest ->
                    Forall wf_token (pushLiteralIfNeeded b rest)).
  { intros [|x b] rest Hb Hr; [done|]. constructor; [|done]. by split. }
  revert buffer. induction s as [s IH] using (induction_ltof1 _ length). unfold ltof in IH.
  intros buffer Hb. destruct s as [|c s]; simpl; [by apply Hpush|].
  destruct (isSpecial c) eqn:Hsp; simpl.
  - apply Hpush; [done|].
    repeat case_if; try destruct s; repeat case_if; constructor; try (by split);
      apply IH; simpl; try lia; done.
  - apply IH; [simpl; lia|]. apply Forall_app. by split; [|constructor].
Qed.

Lemma parse_Ok p c : parse p = Ok c <-> validate p = Ok tt /\ c = mkPattern p (tokenize p []).
Proof.
  unfold parse. rewrite rbind_Ok. split.
  - intros ([] & ? & [= ->]). done.
  - intros [? ->]. by exists tt.
Qed.

Lemma parse_wf p c : parse p = Ok c -> wf_pattern c.
Proof. intros [_ ->]%parse_Ok. apply tokenize_wf. constructor. Qed.

Lemma is_rooted_spec s : is_rooted s = true <-> exists r, s = slash :: r.
Proof.
  unfold is_rooted, front. destruct s as [|c s]; simpl; [naive_solver|].
  rewrite eqb_eq. naive_solver.
Qed.

Lemma matches_spec p path :
  matches p path = true <->
  is_rooted (normalizePath path) = true /\ globs (tokens p) (normalizePath path).
Proof.
  unfold matches. case_if; bsimpl.
  - split; [done|]. intros [H _]. congruence.
  - split; [|intros [_ ?]; by apply matchRecursive_complete].
    intros ?. split; [done|]. by apply matchRecursive_sound.
Qed.

(** *** Literal prefixes *)
Lemma wf_slash_value t : wf_token t -> type t = Slash -> value t = $"/".
Proof. intros [H _] Ht. rewrite H. unfold token_text. by rewrite Ht. Qed.

(** Every matched path starts with the text before the first wildcard. *)
Lemma globs_literal_run ts s :
  Forall wf_token ts -> globs ts s -> exists r, s = literal_run ts ++ r.
Proof.
  intros Hwf Hg. revert Hwf.
  induction Hg as [|t ts s Ht Hg IH|t ts s Ht Hg IH|t ts c s Ht Hc Hg IH|t ts u s Ht Hu Hs Hg IH
    |t n ts u s Ht Hn Hw Hg IH|t ts u s Ht Hn Hg IH]; simpl; unfold isWildcardToken;
    rewrite ?Ht; simpl; try (intros _; eexists; reflexivity).
  - intros [_ Hts]%Forall_cons. destruct (IH Hts) as [r ->]. exists r. by rewrite app_assoc.
  - intros [Hw Hts]%Forall_cons. rewrite (wf_slash_value _ Hw Ht).
    destruct (IH Hts) as [r ->]. by exists r.
Qed.

(** Without wildcards the pattern denotes its own text. *)
Lemma globs_no_wildcard ts s :
  Forall wf_token ts -> existsb isWildcardToken ts = false ->
  globs ts s <-> s = literal_run ts.
Proof.
  revert s; induction ts as [|t ts IH]; intros s Hwf; simpl.
  - intros _. split; [by inversion 1|intros ->; constructor].
  - apply Forall_cons in Hwf as [Hw Hts]. intros Hex. apply orb_false_iff in Hex as [Ht Hex].
    rewrite Ht. unfold isWildcardToken in Ht.
    destruct (type t) eqn:Et; try (by vm_compute in Ht); split.
    + inversion 1; subst; try congruence. f_equal. by apply IH.
    + intros ->. constructor; [done|]. by apply IH.
    + inversion 1; subst; try congruence. rewrite (wf_slash_value t) by done. simpl.
      f_equal. by apply IH.
    + intros ->. rewrite (wf_slash_value t) by done. constructor; [done|]. by apply IH.
Qed.

Lemma isAncestorOrSelf_spec a p :
  isAncestorOrSelf a p = true <->
  (a = $"/" /\ is_rooted p = true) \/ (a <> $"/" /\ (p = a \/ exists r, p = a ++ slash :: r)).
Proof.
  unfold isAncestorOrSelf. case_if; bsimpl; [unfold is_rooted; naive_solver|].
  destruct (strip_prefix a p) as [r|] eqn:Es.
  - apply strip_prefix_spec in Es as ->. destruct r as [|c r].
    + rewrite app_nil_r. naive_solver.
    + rewrite eqb_eq. split; [intros ->; right; eauto|].
      intros [[? _]|[_ [H|[r' H]]]]; [done| |].
      * apply (f_equal length) in H. rewrite length_app in H. simpl in H. lia.
      * apply app_inv_head in H. by injection H.
  - split; [done|]. intros [[? _]|[_ [->|[r ->]]]]; [done| |].
    + rewrite <- (app_nil_r a) in Es at 2. by rewrite strip_prefix_app in Es.
    + by rewrite strip_prefix_app in Es.
Qed.

(** An entry of the subtree: the directory itself or a path below it. *)
Definition in_subtree (dir path : str) : Prop :=
  path = dir \/ starts_with path (within_dir dir) = true.

Lemma in_subtree_prefix dir path :
  in_subtree dir path -> path <> dir -> is_rooted dir = true ->
  isAncestorOrSelf dir path = true.
Proof.
  intros [->|H] Hne Hr; [done|]. apply isAncestorOrSelf_spec.
  apply starts_with_spec in H as [r ->]. unfold within_dir in *. case_if; bsimpl.
  - subst. left. split; [done|]. by apply is_rooted_spec; eauto.
  - right. split; [done|]. right. exists r. by rewrite <- app_assoc.
Qed.

Lemma ancestor_trans a b c :
  isAncestorOrSelf a b = true -> b <> a -> isAncestorOrSelf b c = true ->
  isAncestorOrSelf a c = true /\ isStrictAncestor a c = true.
Proof.
  intros Hab Hne Hbc.
  assert (isAncestorOrSelf a c = true /\ a <> c) as [Hac Hne'].
  { apply isAncestorOrSelf_spec in Hab as [[-> Hb]|[Ha [?|[r ->]]]]; [|done|].
    - apply isAncestorOrSelf_spec in Hbc as [[-> _]|[_ Hc]]; [done|].
      apply is_rooted_spec in Hb as [b' ->]. split.
      + apply isAncestorOrSelf_spec. left. split; [done|].
        apply is_rooted_spec. destruct Hc as [->|[r ->]]; simpl; eauto.
      + destruct Hc as [->|[r ->]]; [congruence|]. intros H. vm_compute in H. by destruct b'.
    - apply isAncestorOrSelf_spec in Hbc as [[Hb Hc]|[_ Hc]].
      + destruct a as [|x a].
        * apply is_rooted_spec in Hc as [c' ->]. split; [|done].
          apply isAncestorOrSelf_spec. right. split; [done|]. by right; exists c'.
        * exfalso. apply (f_equal length) in Hb. rewrite length_app in Hb. simpl in Hb. lia.
      + split.
        * apply isAncestorOrSelf_spec. right. split; [done|]. right.
          destruct Hc as [->|[r' ->]]; [eauto|]. exists (r ++ slash :: r'). by rewrite <- app_assoc.
        * intros ->. destruct Hc as [H|[r' H]]; apply (f_equal length) in H;
            rewrite ?length_app in H; simpl in H; rewrite ?length_app in H; lia. }
  split; [done|]. unfold isStrictAncestor. rewrite Hac, andb_true_r.
  by apply negb_true_iff, eqb_neq.
Qed.

Lemma literal_run_wildcard_prefix p r path dir :
  path = literal_run (tokens p) ++ r -> is_rooted path = true ->
  starts_with path (within_dir dir) = true ->
  starts_with (within_dir dir) (literalTraversalPrefix p) = true \/
  starts_with (literalTraversalPrefix p) (within_dir dir) = true.
Proof.
  unfold literalTraversalPrefix. intros -> Hr H. apply starts_with_spec in H as [q Hq].
  destruct (literal_run (tokens p)) as [|c l] eqn:El; simpl is_empty; cbv iota.
  - apply is_rooted_spec in Hr as [r' Hr']. simpl in Hq, Hr'. subst r.
    left. apply starts_with_spec. unfold within_dir in *. case_if; bsimpl.
    + subst. by exists [].
    + destruct dir as [|d dir]; simpl in Hq; [by exists []|].
      injection Hq as <- Hq. by exists (dir ++ $"/").
  - destruct (prefixes_comparable _ _ _ _ Hq); auto.
Qed.

(** A traversal needed through an entry of the subtree is noticed at its top. *)
Lemma traversal_mayMatchWithin p directory path :
  is_rooted (normalizePath directory) = true ->
  in_subtree (normalizePath directory) (normalizePath path) ->
  requiresTraversalThrough p path = true -> mayMatchWithin p directory = true.
Proof.
  intros Hr Hin Ht. unfold mayMatchWithin. rewrite Hr. simpl.
  destruct (matches p directory) eqn:Em; [done|]. simpl.
  assert (requiresTraversalThrough p directory = true) as ->; [|done].
  destruct (decide (normalizePath path = normalizePath directory)) as [He|Hne].
  { unfold requiresTraversalThrough, matches in *. by rewrite <- He. }
  pose proof (in_subtree_prefix _ _ Hin Hne Hr) as Hdp.
  unfold requiresTraversalThrough in Ht |- *. rewrite Hr, Em. simpl.
  destruct (is_rooted (normalizePath path)) eqn:Hrp; [|done]. simpl in Ht.
  destruct (matches p path); [done|].
  destruct (isAncestorOrSelf (normalizePath path) (literalTraversalPrefix p)) eqn:Hpp; [|done].
  destruct (ancestor_trans _ _ _ Hdp Hne Hpp) as [Hd Hs]. by rewrite Hd, Hs.
Qed.

(** *** Validation *)
Definition triple_star (s : str) : Prop :=
  exists a b, s = a ++ star_c :: star_c :: star_c :: b.

Lemma triple_star_nil : ~ triple_star [].
Proof. intros ([|] & b & H); done. Qed.

Lemma triple_star_cons c s :
  triple_star (c :: s) <-> (c = star_c /\ exists b, s = star_c :: star_c :: b) \/ triple_star s.
Proof.
  split.
  - intros ([|x a] & b & [= -> ->]); [left; eauto|right; by exists a, b].
  - intros [[-> [b ->]]|(a & b & ->)]; [by exists [], b|by exists (c :: a), b].
Qed.

Lemma star_run_spec s : (star_run s <= 1)%nat <-> ~ exists b, s = star_c :: star_c :: b.
Proof.
  destruct s as [|c [|d s]]; simpl; repeat case_if; bsimpl; subst; split; intros H;
    try lia; try (intros [b Hb]; simplify_eq); try done; exfalso; eauto.
Qed.

Lemma star_run_high s : (1 < star_run s)%nat -> exists b, s = star_c :: star_c :: b.
Proof.
  destruct s as [|c [|d s]]; simpl; repeat case_if; bsimpl; subst; try lia. eauto.
Qed.

Definition well_formed_text (s : str) : Prop := backslash_c ∉ s /\ ~ triple_star s.

Lemma well_formed_text_cons c s :
  well_formed_text (c :: s) <->
  c <> backslash_c /\ well_formed_text s /\ (c = star_c -> (star_run s <= 1)%nat).
Proof.
  unfold well_formed_text. rewrite triple_star_cons, star_run_spec. set_solver.
Qed.

Lemma validate_from_spec s :
  (forall i, validate_from i 0 s = Ok tt <-> well_formed_text s) /\
  (forall i, (star_run s <= 1)%nat -> validate_from i (star_run s) s = Ok tt <-> well_formed_text s).
Proof.
  induction s as [|c s [IH0 IHr]].
  { split; intros; simpl; split; try done; intros _; (split; [set_solver|apply triple_star_nil]). }
  assert (H0 : forall i, validate_from i 0 (c :: s) = Ok tt <-> well_formed_text (c :: s)).
  { intros i. rewrite well_formed_text_cons. simpl.
    destruct (c == backslash_c) eqn:Eb; bsimpl; [naive_solver|].
    destruct (c == star_c) eqn:Es; bsimpl; [|rewrite IH0; naive_solver].
    destruct (Nat.ltb_spec 2 (S (star_run s))).
    - split; [done|]. intros (_ & _ & H'). specialize (H' Es). lia.
    - rewrite IHr by lia. naive_solver lia. }
  split; [exact H0|]. intros i. simpl star_run. destruct (c == star_c) eqn:Es; [|auto].
  intros Hle. bsimpl. subst. assert (star_run s = 0%nat) as -> by lia.
  rewrite well_formed_text_cons. simpl validate_from. rewrite IH0.
  split; [|naive_solver]. intros ?. repeat split; [by vm_compute|apply H..|lia].
Qed.

Lemma validate_Ok p :
  validate p = Ok tt <-> is_rooted p = true /\ well_formed_text p.
Proof.
  unfold validate, is_rooted, front. destruct p as [|c p]; [simpl; intuition congruence|].
  change (head (c :: p)) with (Some c).
  destruct (c == slash) eqn:E; [|intuition congruence].
  rewrite (proj1 (validate_from_spec (c :: p))). tauto.
Qed.

(** ** Properties *)

(** The tokenizer accepts exactly the vault-absolute texts without a
    backslash and without a run of three stars, and loses nothing: the texts of
    the tokens of an accepted pattern concatenate to the pattern, and every
    token carries the text of its type (literals non-empty, without special
    characters). *)
Theorem parse_exact p :
  (isValid p = true <-> is_rooted p = true /\ backslash_c ∉ p /\ ~ triple_star p) /\
  (isValid p = true <-> exists c, parse p = Ok c) /\
  (forall c, parse p = Ok c ->
     source c = p /\ concat (map value (tokens c)) = p /\ wf_pattern c).
Proof.
  assert (Hv : isValid p = true <-> validate p = Ok tt).
  { unfold isValid. destruct (validate p) as [[]|]; simpl; naive_solver. }
  rewrite Hv. split_and!.
  - apply validate_Ok.
  - setoid_rewrite parse_Ok. naive_solver.
  - intros c Hc. pose proof (parse_wf _ _ Hc). apply parse_Ok in Hc as [_ ->].
    split_and!; [done|apply tokenize_text|done].
Qed.

(** C38. The backtracking matcher decides the language of the pattern: on a
    compiled pattern, [matches] is true exactly for the paths whose lexical
    normal form is rooted and belongs to [globs]; in particular the matcher
    neither misses a split nor invents one. *)
Theorem matches_language text p path :
  parse text = Ok p ->
  matches p path = true <->
  is_rooted (normalizePath path) = true /\ globs (tokens p) (normalizePath path).
Proof. intros _. apply matches_spec. Qed.

Lemma matches_language_witness :
  exists p, parse $"/docs/**/a?.txt" = Ok p /\
  (matches p $"/docs/x/y/a1.txt" = true <->
   is_rooted (normalizePath $"/docs/x/y/a1.txt") = true /\
   globs (tokens p) (normalizePath $"/docs/x/y/a1.txt")).
Proof.
  exists (mkPattern $"/docs/**/a?.txt" (tokenize $"/docs/**/a?.txt" [])).
  split; [vm_compute; reflexivity|].
  apply (matches_language $"/docs/**/a?.txt"). vm_compute. reflexivity.
Defined.

(** A pattern without wildcards denotes one path: it matches its own text
    and nothing else, and a directory must be traversed for it exactly when it
    is a strict ancestor of that path. *)
Theorem literal_pattern_exact text p path :
  parse text = Ok p -> existsb isWildcardToken (tokens p) = false ->
  (matches p path = true <-> normalizePath path = text) /\
  (requiresTraversalThrough p path = true <->
   is_rooted (normalizePath path) = true /\ isStrictAncestor (normalizePath path) text = true).
Proof.
  intros Hp Hw. pose proof (parse_wf _ _ Hp) as Hwf. apply parse_Ok in Hp as [Hv Hpe].
  assert (Hrun : literal_run (tokens p) = text).
  { subst p. simpl in *. rewrite <- (app_nil_l text) at 2. rewrite <- tokenize_text.
    clear Hv Hwf. induction (tokenize text []) as [|t ts IH]; [done|]. simpl in *.
    apply orb_false_iff in Hw as [-> Hw]. simpl. by rewrite IH. }
  apply validate_Ok in Hv as [Hroot _].
  assert (Hm : forall q, matches p q = true <-> normalizePath q = text).
  { intros q. rewrite matches_spec, globs_no_wildcard, Hrun by done. naive_solver. }
  split; [apply Hm|].
  assert (literalTraversalPrefix p = text) as Hpre.
  { unfold literalTraversalPrefix. rewrite Hrun. by destruct text. }
  unfold requiresTraversalThrough. rewrite Hpre.
  destruct (is_rooted (normalizePath path)) eqn:Hr; simpl; [|naive_solver].
  destruct (matches p path) eqn:Em.
  { apply Hm in Em. unfold isStrictAncestor. rewrite Em, eqb_refl. naive_solver. }
  assert (normalizePath path <> text) as Hne by (intros ?%Hm; congruence).
  assert (isStrictAncestor (normalizePath path) text = isAncestorOrSelf (normalizePath path) text) as ->.
  { unfold isStrictAncestor. by replace (normalizePath path == text) with false by (symmetry; by apply eqb_neq). }
  destruct (isAncestorOrSelf _ _); simpl; naive_solver.
Qed.

Lemma literal_pattern_exact_witness :
  exists p, parse $"/docs/a" = Ok p /\
  (matches p $"/docs/./a" = true <-> normalizePath $"/docs/./a" = $"/docs/a").
Proof.
  exists (mkPattern $"/docs/a" (tokenize $"/docs/a" [])).
  split; [vm_compute; reflexivity|].
  apply (literal_pattern_exact $"/docs/a"); vm_compute; reflexivity.
Defined.

(** A pattern that matches in a subtree may match within it. *)
Lemma mayMatchWithin_covers p directory path :
  wf_pattern p ->
  in_subtree (normalizePath directory) (normalizePath path) ->
  is_rooted (normalizePath directory) = true ->
  matches p path = true -> mayMatchWithin p directory = true.
Proof.
  intros Hwf Hin Hr Hm. unfold mayMatchWithin. rewrite Hr. simpl.
  destruct (matches p directory) eqn:Ed; [done|].
  destruct (requiresTraversalThrough p directory) eqn:Et; [done|]. simpl.
  apply matches_spec in Hm as [Hrp Hg].
  destruct (globs_literal_run _ _ Hwf Hg) as [r Hrun].
  assert (normalizePath path <> normalizePath directory) as Hne.
  { intros He. revert Ed. unfold matches. rewrite Hr, <- He. simpl.
    by rewrite matchRecursive_complete. }
  pose proof (in_subtree_prefix _ _ Hin Hne Hr) as Hanc.
  destruct Hin as [?|Hin]; [done|].
  destruct (existsb isWildcardToken (tokens p)) eqn:Ew; simpl.
  - apply orb_true_iff. by eapply literal_run_wildcard_prefix.
  - exfalso. apply globs_no_wildcard in Hg; [|done|done].
    assert (literalTraversalPrefix p = normalizePath path) as Hpre.
    { unfold literalTraversalPrefix. rewrite <- Hg. apply is_rooted_spec in Hrp as [? ->]. done. }
    revert Et. unfold requiresTraversalThrough. rewrite Hr, Ed, Hpre, Hanc. simpl.
    unfold isStrictAncestor. rewrite Hanc.
    by replace (normalizePath directory == normalizePath path) with false
      by (symmetry; apply eqb_neq; congruence).
Qed.

(** [mayMatchWithin] is conservative: when a compiled pattern matches the
    directory itself or any path below it, the answer is true, so a false answer
    proves that no entry of that subtree is matched. *)
Theorem mayMatchWithin_conservative p directory path :
  wf_pattern p ->
  in_subtree (normalizePath directory) (normalizePath path) ->
  is_rooted (normalizePath directory) = true ->
  matches p path = true -> mayMatchWithin p directory = true.
Proof. apply mayMatchWithin_covers. Qed.

Lemma mayMatchWithin_conservative_witness :
  exists p, parse $"/**/secret.txt" = Ok p /\ mayMatchWithin p $"/docs" = true.
Proof.
  exists (mkPattern $"/**/secret.txt" (tokenize $"/**/secret.txt" [])).
  split; [vm_compute; reflexivity|].
  apply (mayMatchWithin_conservative _ $"/docs" $"/docs/x/secret.txt").
  - apply (parse_wf $"/**/secret.txt"). vm_compute. reflexivity.
  - right. vm_compute. reflexivity.
  - vm_compute. reflexivity.
  - vm_compute. reflexivity.
Defined.

(** The precondition on the directory is needed: a directory text that keeps a
    trailing separator after normalisation loses the literal patterns below it. *)
Remark mayMatchWithin_trailing_separator :
  exists p, parse $"/docs/x" = Ok p /\ mayMatchWithin p $"/docs/" = false /\
  matches p $"/docs/x" = true.
Proof.
  exists (mkPattern $"/docs/x" (tokenize $"/docs/x" [])). by vm_compute.
Qed.
