(* ===== verification/Perm.v ===== *)
(** * Permissions: bit sets, packed modules and the vault filesystem permissions

    [rbac/permission/template] ([Set], [ModuleSet], [Module]) and
    [rbac/permission/vault] ([Files], [Directories], [Share], [Filesystem],
    [Override]).  A set is an unsigned mask of a fixed width, a module packs
    several sets at successive offsets of a wider mask, and a flag of the command
    line grants or revokes one bit. *)
From S2P Require Import Prelude Glob.
Local Open Scope Z_scope.

(** ** Enumerations of permissions: [PermissionTraits<Enum>] *)
Class PermissionTraits (E : Type) := {
  enum_value : E -> Z;
  entries : list (E * str)
}.

(** What the templates rely on: distinct entries with distinct bits below the
    width, and distinct slugs. *)
Class PermissionTraitsOk (E : Type) `{EqDecision E} `{PermissionTraits E} (width : Z) := {
  enum_bits : exists bit, (forall e, e ∈ map fst entries -> enum_value e = 2 ^ bit e /\ 0 <= bit e < width) /\
              (forall e e', e ∈ map fst entries -> e' ∈ map fst entries -> bit e = bit e' -> e = e');
  slugs_nodup : NoDup (map snd entries)
}.

(** *** [Set<Enum, Mask>]: the mask and its operations *)
Section MaskSet.
Context {E : Type} `{EqDecision E} `{PermissionTraits E}.
Variable width : Z.

Definition wrap (z : Z) : Z := z mod 2 ^ width.

Definition has (permissions : Z) (perm : E) : bool :=
  negb (Z.land permissions (enum_value perm) =? 0).
Definition grant (permissions : Z) (perm : E) : Z := Z.lor permissions (enum_value perm).
Definition revoke (permissions : Z) (perm : E) : Z :=
  Z.land permissions (wrap (Z.lnot (enum_value perm))).

Definition toBitString (permissions : Z) : str :=
  map (fun i => if Z.testbit permissions (width - 1 - Z.of_nat i) then "1"%char else "0"%char)
      (seq 0 (Z.to_nat width)).

Definition findEntry (slug : str) : option E :=
  match List.find (fun '(_, s) => s == slug) entries with Some (e, _) => Some e | None => None end.

Inductive FlagOperation := Grant | Revoke.
Record FlagBinding := mkBinding { flag : str; permission : E; operation : FlagOperation; slug : str }.

Definition ALLOW_FLAG_ALIAS : str := $"allow".
Definition DENY_FLAG_ALIAS : str := $"deny".

Definition basePrefix (flagPrefix : str) : str := $"--" ++ flagPrefix ++ $"-".
Definition allowFullPrefix (flagPrefix : str) : str :=
  $"--" ++ ALLOW_FLAG_ALIAS ++ $"-" ++ flagPrefix ++ $"-".
Definition denyFullPrefix (flagPrefix : str) : str :=
  $"--" ++ DENY_FLAG_ALIAS ++ $"-" ++ flagPrefix ++ $"-".

Definition getFlagBindings (flagPrefix : str) : list FlagBinding :=
  flat_map (fun '(value, s) =>
    [ mkBinding (basePrefix flagPrefix ++ s) value Grant s;
      mkBinding (allowFullPrefix flagPrefix ++ s) value Grant s;
      mkBinding (denyFullPrefix flagPrefix ++ s) value Revoke s ]) entries.

Definition getFlags (flagPrefix : str) : list str := map flag (getFlagBindings flagPrefix).

(** [Set::applyFlag]: the first binding that spells the flag decides. *)
Definition applyFlag (flagPrefix : str) (permissions : Z) (f : str) : Z * bool :=
  match List.find (fun b => flag b == f) (getFlagBindings flagPrefix) with
  | Some b =>
      (match operation b with
       | Grant => grant permissions (permission b)
       | Revoke => revoke permissions (permission b)
       end, true)
  | None => (permissions, false)
  end.

(** [toFlagsString], before the flags are joined with spaces. *)
Definition toFlags (flagPrefix : str) (permissions : Z) : list str :=
  map (fun '(value, s) =>
    (if has permissions value then allowFullPrefix flagPrefix else denyFullPrefix flagPrefix) ++ s)
    entries.

Definition applyFlags (flagPrefix : str) (permissions : Z) (fs : list str) : Z :=
  foldl (fun p f => fst (applyFlag flagPrefix p f)) permissions fs.
End MaskSet.
Arguments FlagBinding : clear implicits.

(** *** [Module<Mask>]: packing sets into one mask *)
Inductive ModuleError := BitWidthExceeds.

Section Module_.
Variable bitWidth : Z.

(** [append]: the set's bits at the current offset, or the width error. *)
Definition append (st : Z * Z) (set : Z * Z) : result ModuleError (Z * Z) :=
  let '(dstMask, offset) := st in
  let '(setBits, raw) := set in
  if bitWidth <? offset + setBits then Err BitWidthExceeds
  else Ok (Z.lor dstMask (wrap bitWidth (Z.shiftl raw offset)), offset + setBits).

Fixpoint appends (st : Z * Z) (sets : list (Z * Z)) : result ModuleError (Z * Z) :=
  match sets with
  | [] => Ok st
  | s :: sets' => let? st' := append st s in appends st' sets'
  end.

Definition pack (sets : list (Z * Z)) : result ModuleError Z :=
  let? '(mask, _) := appends (0, 0) sets in Ok mask.

Definition fieldMask (setBits : Z) : Z :=
  if bitWidth <=? setBits then Z.ones bitWidth else Z.shiftl 1 setBits - 1.

Definition extract (srcMask offset setBits : Z) : result ModuleError (Z * Z) :=
  if bitWidth <? offset + setBits then Err BitWidthExceeds
  else Ok (wrap setBits (Z.land (Z.shiftr srcMask offset) (fieldMask setBits)), offset + setBits).

Fixpoint extracts (srcMask offset : Z) (widths : list Z) : result ModuleError (list Z) :=
  match widths with
  | [] => Ok []
  | w :: widths' =>
      let? '(value, offset') := extract srcMask offset w in
      let? values := extracts srcMask offset' widths' in
      Ok (value :: values)
  end.

Definition unpack (srcMask : Z) (widths : list Z) : result ModuleError (list Z) :=
  extracts srcMask 0 widths.
End Module_.

(** ** Vault filesystem permissions *)
Inductive FilePermissions :=
| FPreview | FUpload | FDownload | FOverwrite | FRename | FDelete | FMove | FCopy.
Inductive DirectoryPermissions :=
| DList | DUpload | DDownload | DTouch | DDelete | DRename | DMove | DCopy.
Inductive SharePermissions := SInternal | SPublic | SPublicWithValidation.

#[export] Instance FilePermissions_eq : EqDecision FilePermissions.
Proof. solve_decision. Defined.
#[export] Instance DirectoryPermissions_eq : EqDecision DirectoryPermissions.
Proof. solve_decision. Defined.
#[export] Instance SharePermissions_eq : EqDecision SharePermissions.
Proof. solve_decision. Defined.

#[export] Instance FilePermissions_traits : PermissionTraits FilePermissions := {
  enum_value e := match e with
    | FPreview => 1 | FUpload => 2 | FDownload => 4 | FOverwrite => 8
    | FRename => 16 | FDelete => 32 | FMove => 64 | FCopy => 128 end;
  entries := [(FPreview, $"preview"); (FUpload, $"upload"); (FDownload, $"download");
    (FOverwrite, $"overwrite"); (FRename, $"rename"); (FDelete, $"delete");
    (FMove, $"move"); (FCopy, $"copy")]
}.

#[export] Instance DirectoryPermissions_traits : PermissionTraits DirectoryPermissions := {
  enum_value e := match e with
    | DList => 1 | DUpload => 2 | DDownload => 4 | DTouch => 8
    | DDelete => 16 | DRename => 32 | DMove => 64 | DCopy => 128 end;
  entries := [(DList, $"list"); (DUpload, $"upload"); (DDownload, $"download");
    (DTouch, $"touch"); (DDelete, $"delete"); (DRename, $"rename");
    (DMove, $"move"); (DCopy, $"copy")]
}.

#[export] Instance SharePermissions_traits : PermissionTraits SharePermissions := {
  enum_value e := match e with SInternal => 1 | SPublic => 2 | SPublicWithValidation => 4 end;
  entries := [(SInternal, $"internal"); (SPublic, $"public");
    (SPublicWithValidation, $"public_with_val")]
}.

(** [Files] and [Directories]: the own set (16 bits) and the share set (8 bits). *)
Record Files := mkFiles { f_permissions : Z; f_share : Z }.
Record Directories := mkDirectories { d_permissions : Z; d_share : Z }.

Definition Files_toMask (f : Files) : result ModuleError Z :=
  pack 32 [(16, f_permissions f); (8, f_share f)].
Definition Files_fromMask (mask : Z) : result ModuleError Files :=
  let? vs := unpack 32 mask [16; 8] in
  match vs with [p; s] => Ok (mkFiles p s) | _ => Err BitWidthExceeds end.
Definition Directories_toMask (d : Directories) : result ModuleError Z :=
  pack 32 [(16, d_permissions d); (8, d_share d)].
Definition Directories_fromMask (mask : Z) : result ModuleError Directories :=
  let? vs := unpack 32 mask [16; 8] in
  match vs with [p; s] => Ok (mkDirectories p s) | _ => Err BitWidthExceeds end.

Definition grant_all {E} `{PermissionTraits E} (l : list E) : Z := foldl grant 0 l.

(** The share presets. *)
Definition Share_None : Z := 0.
Definition Share_InternalOnly : Z := grant_all [SInternal].
Definition Share_PublicOnly : Z := grant_all [SPublic].
Definition Share_PublicValidatedOnly : Z := grant_all [SPublicWithValidation].
Definition Share_InternalAndPublic : Z := grant_all [SInternal; SPublic].
Definition Share_InternalAndValidatedPublic : Z := grant_all [SInternal; SPublicWithValidation].
Definition Share_PublicAll : Z := grant_all [SPublic; SPublicWithValidation].
Definition Share_Full : Z := grant_all [SInternal; SPublic; SPublicWithValidation].

(** The file presets. *)
Definition Files_None := mkFiles 0 Share_None.
Definition Files_PreviewOnly := mkFiles (grant_all [FPreview]) Share_None.
Definition Files_DownloadOnly := mkFiles (grant_all [FPreview; FDownload]) Share_None.
Definition Files_ReadOnly := mkFiles (grant_all [FPreview; FDownload; FCopy]) Share_InternalOnly.
Definition Files_Contributor :=
  mkFiles (grant_all [FPreview; FUpload; FDownload; FOverwrite; FCopy]) Share_InternalOnly.
Definition Files_Editor :=
  mkFiles (grant_all [FPreview; FUpload; FDownload; FOverwrite; FRename; FMove; FCopy])
    Share_InternalAndValidatedPublic.
Definition Files_Manager :=
  mkFiles (grant_all [FPreview; FUpload; FDownload; FOverwrite; FRename; FDelete; FMove; FCopy])
    Share_InternalAndValidatedPublic.
Definition Files_Full := mkFiles (grant_all (map fst (@entries FilePermissions _))) Share_Full.

(** The directory presets. *)
Definition Directories_None := mkDirectories 0 Share_None.
Definition Directories_ListOnly := mkDirectories (grant_all [DList]) Share_None.
Definition Directories_DownloadOnly := mkDirectories (grant_all [DList; DDownload]) Share_None.
Definition Directories_ReadOnly := mkDirectories (grant_all [DList; DDownload; DCopy]) Share_InternalOnly.
Definition Directories_Contributor :=
  mkDirectories (grant_all [DList; DUpload; DDownload; DTouch; DCopy]) Share_InternalOnly.
Definition Directories_Editor :=
  mkDirectories (grant_all [DList; DUpload; DDownload; DTouch; DRename; DMove; DCopy])
    Share_InternalAndValidatedPublic.
Definition Directories_Manager :=
  mkDirectories (grant_all [DList; DUpload; DDownload; DTouch; DDelete; DRename; DMove; DCopy])
    Share_InternalAndValidatedPublic.
Definition Directories_Full :=
  mkDirectories (grant_all (map fst (@entries DirectoryPermissions _))) Share_Full.

(** [resolveFromQualifiedName]: the permission a qualified name ends with. *)
Definition last_component (qualifiedName : str) : str :=
  match split_last dot qualifiedName with Some (_, b) => b | None => qualifiedName end.

Definition Files_resolveFromQualifiedName (qualifiedName : str) : option FilePermissions :=
  if negb (starts_with qualifiedName $"vault.fs.files") then None
  else
    let entry := last_component qualifiedName in
    if entry == $"preview" then Some FPreview else if entry == $"upload" then Some FUpload
    else if entry == $"download" then Some FDownload else if entry == $"overwrite" then Some FOverwrite
    else if entry == $"rename" then Some FRename else if entry == $"delete" then Some FDelete
    else if entry == $"move" then Some FMove else if entry == $"copy" then Some FCopy
    else None.

Definition Directories_resolveFromQualifiedName (qualifiedName : str) : option DirectoryPermissions :=
  if negb (starts_with qualifiedName $"vault.fs.directories") then None
  else
    let entry := last_component qualifiedName in
    if entry == $"list" then Some DList else if entry == $"upload" then Some DUpload
    else if entry == $"download" then Some DDownload else if entry == $"touch" then Some DTouch
    else if entry == $"delete" then Some DDelete else if entry == $"rename" then Some DRename
    else if entry == $"move" then Some DMove else if entry == $"copy" then Some DCopy
    else None.

(** ** Overrides *)
Inductive OverrideOpt := ALLOW | DENY.
#[export] Instance OverrideOpt_eq : EqDecision OverrideOpt.
Proof. solve_decision. Defined.

(** The part of [Override] the evaluator reads: the permission by its qualified
    name, the effect, the switch and the compiled pattern. *)
Record Override := mkOverride {
  qualified_name : str; effect : OverrideOpt; enabled : bool; pattern : Pattern }.

Record Filesystem := mkFilesystem {
  files : Files; directories : Directories; overrides : list Override }.

Definition Filesystem_None := mkFilesystem Files_None Directories_None [].
Definition Filesystem_BrowseOnly := mkFilesystem Files_PreviewOnly Directories_ListOnly [].
Definition Filesystem_ReadOnly := mkFilesystem Files_ReadOnly Directories_ReadOnly [].
Definition Filesystem_DownloadOnly := mkFilesystem Files_DownloadOnly Directories_DownloadOnly [].
Definition Filesystem_Contributor := mkFilesystem Files_Contributor Directories_Contributor [].
Definition Filesystem_Editor := mkFilesystem Files_Editor Directories_Editor [].
Definition Filesystem_Manager := mkFilesystem Files_Manager Directories_Manager [].
Definition Filesystem_Full := mkFilesystem Files_Full Directories_Full [].
Definition Filesystem_NoSharing :=
  mkFilesystem (mkFiles (f_permissions Files_Full) Share_None)
    (mkDirectories (d_permissions Directories_Full) Share_None) [].

(** ** Bits of a set *)
Section MaskSetFacts.
Context {E : Type} `{EqDecision E} `{PermissionTraits E}.
Variable width : Z.
Hypothesis width_nonneg : 0 <= width.

Definition in_range (p : Z) : Prop := 0 <= p < 2 ^ width.

Lemma in_range_bits p : 0 <= p -> in_range p <-> forall i, width <= i -> Z.testbit p i = false.
Proof.
  intros Hp. unfold in_range. split.
  - intros [_ Hlt] i Hi. destruct (Z.eq_dec p 0) as [->|]; [apply Z.bits_0|].
    apply Z.bits_above_log2; [lia|]. apply Z.log2_lt_pow2 in Hlt; lia.
  - intros Hb. split; [done|]. destruct (Z.lt_ge_cases p (2 ^ width)) as [|Hge]; [done|].
    assert (0 < p) by (pose proof (Z.pow_pos_nonneg 2 width); lia).
    assert (width <= Z.log2 p) as Hl by (apply Z.log2_le_pow2; lia).
    specialize (Hb _ Hl). rewrite Z.bit_log2 in Hb by done. done.
Qed.

Lemma wrap_bits p i : 0 <= i -> Z.testbit (wrap width p) i = (i <? width) && Z.testbit p i.
Proof.
  intros Hi. unfold wrap. destruct (Z.ltb_spec i width).
  - by rewrite Z.mod_pow2_bits_low.
  - by rewrite Z.mod_pow2_bits_high by lia.
Qed.

Lemma wrap_small p : in_range p -> wrap width p = p.
Proof. intros ?. by apply Z.mod_small. Qed.

Context (bit : E -> Z).
Variable known : E -> Prop.
Hypothesis known_bit : forall e, known e -> enum_value e = 2 ^ bit e /\ 0 <= bit e < width.

Lemma has_bit p e : known e -> has p e = Z.testbit p (bit e).
Proof.
  intros [He Hb]%known_bit. unfold has. rewrite He.
  destruct (Z.testbit p (bit e)) eqn:Et.
  - apply negb_true_iff, Z.eqb_neq. intros Hz.
    apply (f_equal (fun z => Z.testbit z (bit e))) in Hz.
    rewrite Z.land_spec, Et, Z.pow2_bits_true, Z.bits_0 in Hz by lia. done.
  - apply negb_false_iff, Z.eqb_eq. apply Z.bits_inj'. intros i Hi.
    rewrite Z.land_spec, Z.pow2_bits_eqb, Z.bits_0 by lia.
    destruct (Z.eqb_spec (bit e) i) as [<-|]; [by rewrite Et|by rewrite andb_false_r].
Qed.

Lemma grant_bits p e i : known e -> 0 <= i ->
  Z.testbit (grant p e) i = Z.testbit p i || (bit e =? i).
Proof.
  intros [He Hb]%known_bit Hi. unfold grant. rewrite He, Z.lor_spec, Z.pow2_bits_eqb by lia. done.
Qed.

Lemma revoke_bits p e i : in_range p -> known e -> 0 <= i ->
  Z.testbit (revoke width p e) i = Z.testbit p i && negb (bit e =? i).
Proof.
  intros Hp [He Hb]%known_bit Hi. unfold revoke.
  rewrite Z.land_spec, wrap_bits, Z.lnot_spec, He, Z.pow2_bits_eqb by lia.
  destruct (Z.ltb_spec i width); [done|].
  assert (Z.testbit p i = false) as ->; [|done].
  apply in_range_bits; [apply Hp|apply Hp|done].
Qed.

Lemma grant_range p e : in_range p -> known e -> in_range (grant p e).
Proof.
  intros Hp Hk. pose proof (known_bit e Hk) as [He Hb].
  assert (0 <= grant p e).
  { unfold grant. rewrite He. apply Z.lor_nonneg. split; [apply Hp|]. apply Z.pow_nonneg. lia. }
  apply in_range_bits; [done|]. intros i Hi. rewrite grant_bits by (done || lia).
  rewrite (proj1 (in_range_bits p ltac:(apply Hp)) Hp i Hi).
  apply Z.eqb_neq. lia.
Qed.

Lemma revoke_range p e : in_range p -> known e -> in_range (revoke width p e).
Proof.
  intros Hp Hk. assert (0 <= revoke width p e).
  { unfold revoke. apply Z.land_nonneg. left. apply Hp. }
  apply in_range_bits; [done|]. intros i Hi. rewrite revoke_bits by (done || lia).
  by rewrite (proj1 (in_range_bits p ltac:(apply Hp)) Hp i Hi).
Qed.
End MaskSetFacts.

(** ** Packing

    The value a list of sets packs to, independently of the bit operations. *)
Fixpoint packed_value (sets : list (Z * Z)) : Z :=
  match sets with [] => 0 | (w, r) :: sets' => r + 2 ^ w * packed_value sets' end.
Fixpoint total_width (widths : list Z) : Z :=
  match widths with [] => 0 | w :: ws => w + total_width ws end.
Definition fits (set : Z * Z) : Prop := 0 <= fst set /\ in_range (fst set) (snd set).

Lemma packed_value_range sets :
  Forall fits sets -> in_range (total_width (map fst sets)) (packed_value sets) /\
  0 <= total_width (map fst sets).
Proof.
  induction 1 as [|[w r] sets [Hw Hr] _ [IH IHw]]; simpl in *; [by split|].
  split; [|lia]. unfold in_range in *. rewrite Z.pow_add_r by lia. nia.
Qed.

Lemma lor_shiftl_add d r o : 0 <= o -> in_range o d -> 0 <= r -> Z.lor d (Z.shiftl r o) = d + 2 ^ o * r.
Proof.
  intros Ho Hd Hr. rewrite Z.shiftl_mul_pow2 by done.
  rewrite <- Z.lxor_lor, <- Z.add_nocarry_lxor; [lia| |].
  all: apply Z.bits_inj'; intros i Hi; rewrite Z.land_spec, Z.bits_0.
  all: destruct (Z.lt_ge_cases i o).
  all: try (rewrite Z.mul_pow2_bits_low by lia; by rewrite andb_false_r).
  all: by rewrite (proj1 (in_range_bits o Ho d ltac:(apply Hd)) Hd i) by lia.
Qed.

Lemma appends_spec W sets d o :
  0 <= o -> in_range o d -> Forall fits sets ->
  appends W (d, o) sets =
  if W <? o + total_width (map fst sets) then
    (if existsb (fun _ => true) sets then Err BitWidthExceeds else Ok (d, o))
  else Ok (d + 2 ^ o * packed_value sets, o + total_width (map fst sets)).
Proof.
  revert d o. induction sets as [|[w r] sets IH]; intros d o Ho Hd Hf; simpl.
  { rewrite Z.mul_0_r, !Z.add_0_r. by destruct (W <? o). }
  apply Forall_cons in Hf as [[Hw Hr] Hf]. simpl in Hw, Hr.
  destruct (packed_value_range _ Hf) as [Hpv Htw].
  assert (HrW : in_range (o + w) (Z.shiftl r o)).
  { rewrite Z.shiftl_mul_pow2 by done. unfold in_range in *. rewrite Z.pow_add_r by lia.
    pose proof (Z.pow_pos_nonneg 2 o). nia. }
  destruct (Z.ltb_spec W (o + w)) as [Hlt|Hge]; simpl.
  { rewrite (proj2 (Z.ltb_lt _ _)) by lia. done. }
  rewrite wrap_small; [|unfold in_range in *; pose proof (Z.pow_le_mono_r 2 (o + w) W); lia].
  rewrite lor_shiftl_add by (done || apply Hr). rewrite IH; [|lia| |done].
  - rewrite Z.add_assoc. destruct (Z.ltb_spec W (o + w + total_width (map fst sets))) as [Hlt|].
    + destruct sets; [simpl in Hlt; lia|done].
    + f_equal. f_equal. rewrite Z.pow_add_r by lia. lia.
  - unfold in_range in *. rewrite Z.pow_add_r by lia. pose proof (Z.pow_pos_nonneg 2 o). nia.
Qed.

Lemma extract_spec W src o w :
  0 <= o -> 0 <= w -> o + w <= W ->
  extract W src o w = Ok ((src / 2 ^ o) mod 2 ^ w, o + w).
Proof.
  intros Ho Hw Hle. unfold extract. rewrite (proj2 (Z.ltb_ge _ _)) by lia.
  do 2 f_equal. rewrite Z.shiftr_div_pow2 by done. unfold fieldMask, wrap.
  destruct (Z.leb_spec W w).
  - assert (w = W) as -> by lia. rewrite Z.land_ones by lia. apply Z.mod_mod.
    pose proof (Z.pow_pos_nonneg 2 W). lia.
  - rewrite Z.shiftl_1_l.
    replace (2 ^ w - 1) with (Z.ones w) by (rewrite Z.ones_equiv; lia).
    rewrite Z.land_ones by lia. apply Z.mod_mod. pose proof (Z.pow_pos_nonneg 2 w). lia.
Qed.

Lemma extracts_packed W sets d o :
  0 <= o -> in_range o d -> Forall fits sets -> o + total_width (map fst sets) <= W ->
  extracts W (d + 2 ^ o * packed_value sets) o (map fst sets) = Ok (map snd sets).
Proof.
  revert d o. induction sets as [|[w r] sets IH]; intros d o Ho Hd Hf Hle; simpl; [done|].
  apply Forall_cons in Hf as [[Hw Hr] Hf]. simpl in Hw, Hr, Hle.
  destruct (packed_value_range _ Hf) as [_ Htw].
  rewrite extract_spec by lia. simpl.
  replace (d + 2 ^ o * (r + 2 ^ w * packed_value sets))
    with ((d + 2 ^ o * r) + 2 ^ (o + w) * packed_value sets) by (rewrite Z.pow_add_r by lia; lia).
  rewrite IH; [|lia| |done|lia].
  - simpl. do 2 f_equal.
    assert ((d + 2 ^ o * r + 2 ^ (o + w) * packed_value sets) / 2 ^ o =
            r + packed_value sets * 2 ^ w) as ->.
    { pose proof (Z.pow_pos_nonneg 2 o). rewrite Z.pow_add_r by lia.
      replace (d + 2 ^ o * r + 2 ^ o * 2 ^ w * packed_value sets)
        with (d + (r + packed_value sets * 2 ^ w) * 2 ^ o) by lia.
      rewrite Z.div_add, (Z.div_small d) by (apply Hd || lia). lia. }
    rewrite Z.mod_add by (pose proof (Z.pow_pos_nonneg 2 w); lia).
    by apply Z.mod_small.
  - unfold in_range in *. rewrite Z.pow_add_r by lia. pose proof (Z.pow_pos_nonneg 2 o). nia.
Qed.

(** ** Flags *)
Section Flags.
Context {E : Type} `{EqDecision E} `{PermissionTraits E}.
Variables (width : Z) (prefix : str).
Hypothesis width_nonneg : 0 <= width.
Context (bit : E -> Z).
Hypothesis entry_bits : forall e, e ∈ map fst entries -> enum_value e = 2 ^ bit e /\ 0 <= bit e < width.
(** No two spellings of the set's flags coincide. *)
Hypothesis flags_distinct : NoDup (getFlags (E := E) prefix).

Lemma find_binding b :
  b ∈ getFlagBindings (E := E) prefix ->
  List.find (fun b' => flag b' == flag b) (getFlagBindings prefix) = Some b.
Proof.
  unfold getFlags in flags_distinct. revert flags_distinct.
  induction (getFlagBindings prefix) as [|x l IH]; simpl; [set_solver|].
  intros [Hx Hnd]%NoDup_cons [->|Hin]%elem_of_cons; [by rewrite eqb_refl|].
  destruct (flag x == flag b) eqn:Eq; bsimpl; [|by apply IH].
  exfalso. apply Hx. rewrite Eq. apply list_elem_of_fmap. eauto.
Qed.

Lemma applyFlag_binding p b :
  b ∈ getFlagBindings (E := E) prefix ->
  applyFlag width prefix p (flag b) =
  (match operation b with
   | Grant => grant p (permission b) | Revoke => revoke width p (permission b) end, true).
Proof. intros Hb. unfold applyFlag. by rewrite find_binding. Qed.

Lemma binding_of_entry e s :
  (e, s) ∈ entries ->
  mkBinding (basePrefix prefix ++ s) e Grant s ∈ getFlagBindings prefix /\
  mkBinding (allowFullPrefix prefix ++ s) e Grant s ∈ getFlagBindings prefix /\
  mkBinding (denyFullPrefix prefix ++ s) e Revoke s ∈ getFlagBindings prefix.
Proof.
  intros Hin. unfold getFlagBindings. split_and!; apply list_elem_of_In, in_flat_map;
    exists (e, s); (split; [by apply list_elem_of_In|simpl; tauto]).
Qed.

Lemma entry_known e s : (e, s) ∈ entries -> e ∈ map fst entries.
Proof. intros H'. apply list_elem_of_fmap. by exists (e, s). Qed.

(** One printed flag sets its bit to the printed value and nothing else. *)
Lemma applyFlag_printed p m e s i :
  in_range width p -> (e, s) ∈ entries -> 0 <= i ->
  let p' := fst (applyFlag width prefix p
    ((if has m e then allowFullPrefix prefix else denyFullPrefix prefix) ++ s)) in
  in_range width p' /\
  Z.testbit p' i = if bit e =? i then Z.testbit m i else Z.testbit p i.
Proof.
  intros Hp Hin Hi. destruct (binding_of_entry _ _ Hin) as (_ & Ha & Hd).
  pose proof (entry_known _ _ Hin) as Hk.
  rewrite (has_bit width bit (fun e => e ∈ map fst entries)) by done.
  destruct (Z.testbit m (bit e)) eqn:Em.
  - pose proof (applyFlag_binding p _ Ha) as Hf. cbn [flag operation permission] in Hf.
    rewrite Hf. simpl. split; [by apply (grant_range width width_nonneg bit (fun e => e ∈ map fst entries))|].
    rewrite (grant_bits width bit (fun e => e ∈ map fst entries)) by done. destruct (Z.eqb_spec (bit e) i) as [<-|]; [by rewrite orb_true_r|by rewrite orb_false_r].
  - pose proof (applyFlag_binding p _ Hd) as Hf. cbn [flag operation permission] in Hf.
    rewrite Hf. simpl. split; [by apply (revoke_range width width_nonneg bit (fun e => e ∈ map fst entries))|].
    rewrite (revoke_bits width width_nonneg bit (fun e => e ∈ map fst entries)) by done. destruct (Z.eqb_spec (bit e) i) as [<-|]; [by rewrite andb_false_r|by rewrite andb_true_r].
Qed.

Lemma applyFlags_printed l p m i :
  in_range width p -> (forall x, x ∈ l -> x ∈ entries) -> 0 <= i ->
  let p' := applyFlags width prefix p (map (fun '(e, s) =>
    (if has m e then allowFullPrefix prefix else denyFullPrefix prefix) ++ s) l) in
  in_range width p' /\
  Z.testbit p' i = if existsb (fun '(e, _) => bit e =? i) l then Z.testbit m i else Z.testbit p i.
Proof.
  intros Hp Hl Hi. revert p Hp. induction l as [|[e s] l IH]; intros p Hp; simpl; [done|].
  assert ((e, s) ∈ entries) as Hin by (apply Hl; set_solver).
  destruct (applyFlag_printed p m e s i Hp Hin Hi) as [Hr Hb].
  destruct (IH ltac:(intros; apply Hl; set_solver) _ Hr) as [Hr' Hb'].
  split; [exact Hr'|]. unfold applyFlags in *. rewrite Hb', Hb.
  by destruct (bit e =? i), (existsb _ l).
Qed.
End Flags.

#[export] Instance FilePermissions_ok : PermissionTraitsOk FilePermissions 16.
Proof.
  split; [|by apply (bool_decide_unpack _); vm_compute].
  exists (fun e => match e with FPreview => 0 | FUpload => 1 | FDownload => 2 | FOverwrite => 3
    | FRename => 4 | FDelete => 5 | FMove => 6 | FCopy => 7 end).
  split; [|by intros [] [] _ _ ?].
  by intros [] _.
Qed.

#[export] Instance DirectoryPermissions_ok : PermissionTraitsOk DirectoryPermissions 16.
Proof.
  split; [|by apply (bool_decide_unpack _); vm_compute].
  exists (fun e => match e with DList => 0 | DUpload => 1 | DDownload => 2 | DTouch => 3
    | DDelete => 4 | DRename => 5 | DMove => 6 | DCopy => 7 end).
  split; [|by intros [] [] _ _ ?].
  by intros [] _.
Qed.

#[export] Instance SharePermissions_ok : PermissionTraitsOk SharePermissions 8.
Proof.
  split; [|by apply (bool_decide_unpack _); vm_compute].
  exists (fun e => match e with SInternal => 0 | SPublic => 1 | SPublicWithValidation => 2 end).
  split; [|by intros [] [] _ _ ?].
  by intros [] _.
Qed.

(** ** Properties *)

(** Packing and unpacking a module are inverse to each other, on every list
    of sets that fits: [pack] succeeds exactly when the widths add up to at most
    the mask's width (otherwise it throws the width error), and [unpack] of the
    packed mask returns every set unchanged. *)
Theorem module_pack_unpack W sets :
  Forall fits sets -> sets <> [] ->
  (W < total_width (map fst sets) -> pack W sets = Err BitWidthExceeds) /\
  (total_width (map fst sets) <= W ->
   exists mask, pack W sets = Ok mask /\ in_range (total_width (map fst sets)) mask /\
                unpack W mask (map fst sets) = Ok (map snd sets)).
Proof.
  intros Hf Hne. assert (in_range 0 0) as H0 by (unfold in_range; lia).
  unfold pack, unpack. rewrite appends_spec by (done || lia). rewrite Z.add_0_l. split; intros Hle.
  - rewrite (proj2 (Z.ltb_lt _ _)) by done. by destruct sets.
  - rewrite (proj2 (Z.ltb_ge _ _)) by done. eexists. split; [reflexivity|].
    pose proof (extracts_packed W sets 0 0 ltac:(lia) H0 Hf ltac:(lia)) as Hx.
    rewrite Z.pow_0_r, Z.mul_1_l, Z.add_0_l in *.
    split; [by apply packed_value_range|done].
Qed.

Lemma module_pack_unpack_witness :
  Files_toMask Files_Editor = Ok (Z.lor 223 (Z.shiftl 5 16)) /\
  exists mask, pack 32 [(16, 223); (8, 5)] = Ok mask /\ in_range 24 mask /\
               unpack 32 mask [16; 8] = Ok [223; 5].
Proof.
  split; [vm_compute; reflexivity|].
  apply (module_pack_unpack 32 [(16, 223); (8, 5)]).
  - repeat constructor; vm_compute; congruence.
  - discriminate.
  - vm_compute. congruence.
Defined.

(** Printing and applying flags round-trips: applying every flag that
    [toFlagsString] prints for a set to any other set of the same kind makes the
    two agree on every permission of the enumeration, whatever bits were set
    before, and leaves the bits outside the enumeration as they were. *)
Theorem flags_roundtrip {E} `{EqDecision E} `{PermissionTraits E} width prefix
  `{!PermissionTraitsOk E width} start m :
  0 <= width -> NoDup (getFlags (E := E) prefix) -> in_range width start ->
  let result := applyFlags (E := E) width prefix start (toFlags (E := E) prefix m) in
  (forall e : E, e ∈ map fst entries -> has result e = has m e) /\
  (forall i, 0 <= i -> (forall e : E, e ∈ map fst entries -> enum_value e <> 2 ^ i) ->
     Z.testbit result i = Z.testbit start i).
Proof.
  intros Hw Hnd Hs result. destruct enum_bits as (bit & Hbit & _).
  assert (Hall : forall i, 0 <= i -> Z.testbit result i =
    if existsb (fun '(e, _) => bit e =? i) entries then Z.testbit m i else Z.testbit start i).
  { intros i Hi. by apply (applyFlags_printed width prefix Hw bit Hbit Hnd entries start m i). }
  split.
  - intros e He. pose proof (Hbit e He) as [_ Hr].
    rewrite !(has_bit width bit (fun e => e ∈ map fst entries)) by done.
    rewrite Hall by lia. rewrite (proj2 (existsb_exists _ _)); [done|].
    apply list_elem_of_fmap in He as ([e' s] & -> & Hin).
    exists (e', s). split; [by apply list_elem_of_In|]. by apply Z.eqb_refl.
  - intros i Hi Hno. rewrite Hall by done.
    destruct (existsb _ _) eqn:Ex; [|done]. exfalso.
    apply existsb_exists in Ex as ([e s] & Hin & He). apply Z.eqb_eq in He as <-.
    apply list_elem_of_In, entry_known in Hin. by apply (Hno e), Hbit.
Qed.

Lemma flags_roundtrip_witness :
  has (applyFlags (E := FilePermissions) 16 $"files" 224 (toFlags (E := FilePermissions) $"files" 5)) FDownload = true /\
  (forall e : FilePermissions, e ∈ map fst entries ->
   has (applyFlags (E := FilePermissions) 16 $"files" 224 (toFlags (E := FilePermissions) $"files" 5)) e = has 5 e).
Proof.
  split; [vm_compute; reflexivity|].
  apply (flags_roundtrip (E := FilePermissions) 16 $"files" 224 5).
  - vm_compute. congruence.
  - apply (bool_decide_unpack _). vm_compute. exact I.
  - vm_compute. split; congruence.
Defined.
