(* ===== verification/FsPolicy.v ===== *)
(** * Filesystem policy: who may do what to which path of a vault

    [rbac/fs/policy/Evaluator.cpp] (the decision for one request), the vault
    scope rule of [rbac/resolver/VaultScope.hpp], the entry check of
    [rbac/resolver/Vault.hpp] and the listing filter of [rbac/fs/Visibility.cpp].
    The storage manager, the entry cache and the account index are the interface
    [FsEnv]; the client code here is proved against it. *)
From S2P Require Import Prelude Paths Glob Perm.
Local Open Scope Z_scope.

Inductive FilesystemAction :=
| Preview | List_ | Write | Read | Touch | Overwrite | Rename | Delete | Move | Copy
| ShareInternal | SharePublic | SharePublicValidated | Lookup | Link.

#[export] Instance FilesystemAction_eq : EqDecision FilesystemAction.
Proof. solve_decision. Defined.

Inductive Reason :=
| Allowed | MissingPath | MissingEntry | MissingPathAndEntry | MissingUser
| InvalidActionForEntryType | DeniedByOverride | AllowedByOverride
| DeniedByBasePermissions | AllowedByBasePermissions | StorageEngineNotFound
| UnableToResolvePaths | LowRiskOpRequiredForOverrideTraversal | EntryVaultMismatch.

Record Decision := mkDecision {
  allowed : bool; reason : Reason; evaluated_path : option str;
  matched_override : option str; override_effect : option OverrideOpt }.

Definition denied (r : Reason) (path : option str) : Decision := mkDecision false r path None None.

(** [reasonToString] *)
Definition fs_reasonToString (r : Reason) : str :=
  match r with
  | Allowed => $"Allowed" | MissingPath => $"MissingPath" | MissingEntry => $"MissingEntry"
  | MissingPathAndEntry => $"MissingPathAndEntry" | MissingUser => $"MissingUser"
  | InvalidActionForEntryType => $"InvalidActionForEntryType" | DeniedByOverride => $"DeniedByOverride"
  | AllowedByOverride => $"AllowedByOverride" | DeniedByBasePermissions => $"DeniedByBasePermissions"
  | AllowedByBasePermissions => $"AllowedByBasePermissions" | StorageEngineNotFound => $"StorageEngineNotFound"
  | UnableToResolvePaths => $"UnableToResolvePaths"
  | LowRiskOpRequiredForOverrideTraversal => $"LowRiskOpRequiredForOverrideTraversal"
  | EntryVaultMismatch => $"EntryVaultMismatch"
  end.

(** ** The evaluator's tables *)
Definition directoryPermissionForAction (action : FilesystemAction) : option DirectoryPermissions :=
  match action with
  | List_ => Some DList | Write => Some DUpload | Read => Some DDownload | Rename => Some DRename
  | Delete => Some DDelete | Move => Some DMove | Copy => Some DCopy | Touch => Some DTouch
  | Link => Some DTouch | Lookup => Some DList
  | Preview | Overwrite | ShareInternal | SharePublic | SharePublicValidated => None
  end.

Definition filePermissionForAction (action : FilesystemAction) : option FilePermissions :=
  match action with
  | Preview => Some FPreview | Write => Some FUpload | Read => Some FDownload
  | Overwrite => Some FOverwrite | Rename => Some FRename | Delete => Some FDelete
  | Move => Some FMove | Copy => Some FCopy | Lookup => Some FPreview
  | ShareInternal | SharePublic | SharePublicValidated | List_ | Touch | Link => None
  end.

Definition requiresExistingEntry (action : FilesystemAction) : bool :=
  match action with Touch | Write | Link => false | _ => true end.

Definition inferIsDirectoryForMissingEntry (action : FilesystemAction) : bool :=
  match action with Touch | Link => true | _ => false end.

Definition isValidForFile (action : FilesystemAction) : bool :=
  match action with List_ | Touch | Link => false | _ => true end.

Definition isValidForDirectory (action : FilesystemAction) : bool :=
  match action with Preview | Overwrite => false | _ => true end.

Definition allowedByBase (perms : Filesystem) (isDir : bool) (action : FilesystemAction) : bool :=
  if isDir then
    let d := directories perms in
    let can p := has (d_permissions d) p in
    let share p := has (d_share d) p in
    match action with
    | List_ => can DList | Write => can DUpload | Read => can DDownload | Touch => can DTouch
    | Link => can DTouch | Rename => can DRename | Delete => can DDelete | Move => can DMove
    | Copy => can DCopy | ShareInternal => share SInternal | SharePublic => share SPublic
    | SharePublicValidated => share SPublicWithValidation | Lookup => can DList
    | Preview | Overwrite => false
    end
  else
    let f := files perms in
    let can p := has (f_permissions f) p in
    let share p := has (f_share f) p in
    match action with
    | Preview => can FPreview | Write => can FUpload | Read => can FDownload
    | Overwrite => can FOverwrite | Rename => can FRename | Delete => can FDelete
    | Move => can FMove | Copy => can FCopy | ShareInternal => share SInternal
    | SharePublic => share SPublic | SharePublicValidated => share SPublicWithValidation
    | Lookup => can FPreview
    | List_ | Touch | Link => false
    end.

(** ** Overrides *)
Fixpoint scoreTokens (ts : list Token) : nat :=
  match ts with
  | [] => 0
  | t :: ts' =>
      (match type t with
       | Literal => 10 + length (value t) | Slash => 1 | Question => 2 | Star | DoubleStar => 0
       end + scoreTokens ts')%nat
  end.
Definition scorePattern (p : Pattern) : nat := scoreTokens (tokens p).

Definition overrideEffect (o : Override) : option OverrideOpt :=
  if enabled o then Some (effect o) else None.

(** The two permission filters of [findBestOverride]: a file or directory
    permission must be the one the action asks for; a name that is neither
    passes both. *)
Definition fileFilter (o : Override) (action : FilesystemAction) : bool :=
  match Files_resolveFromQualifiedName (qualified_name o) with
  | Some f => filePermissionForAction action == Some f
  | None => true
  end.
Definition directoryFilter (o : Override) (action : FilesystemAction) : bool :=
  match Directories_resolveFromQualifiedName (qualified_name o) with
  | Some d => directoryPermissionForAction action == Some d
  | None => true
  end.

Fixpoint findBest (overrides : list Override) (path : str) (action : FilesystemAction)
  (best : option Override) (bestScore : nat) : option Override :=
  match overrides with
  | [] => best
  | o :: os =>
      if negb (enabled o) then findBest os path action best bestScore
      else if negb (fileFilter o action) then findBest os path action best bestScore
      else if negb (directoryFilter o action) then findBest os path action best bestScore
      else if negb (matches (pattern o) path) then findBest os path action best bestScore
      else
        let score := scorePattern (pattern o) in
        match best with
        | None => findBest os path action (Some o) score
        | Some _ =>
            if (bestScore <? score)%nat then findBest os path action (Some o) score
            else findBest os path action best bestScore
        end
  end.

Definition findBestOverride (overrides : list Override) (path : str) (action : FilesystemAction) : option Override :=
  findBest overrides path action None 0.

Record StageResult := mkStage {
  matched : bool; s_allowed : option bool; s_reason : Reason;
  matchedOverride : option str; s_effect : option OverrideOpt }.

Definition no_stage : StageResult := mkStage false None DeniedByBasePermissions None None.

Definition resolveOverrides (overrides : list Override) (absolutePath : str)
  (action : FilesystemAction) : StageResult :=
  match findBestOverride overrides absolutePath action with
  | Some best =>
      match overrideEffect best with
      | Some ALLOW => mkStage true (Some true) AllowedByOverride (Some (source (pattern best))) (Some ALLOW)
      | Some DENY => mkStage true (Some false) DeniedByOverride (Some (source (pattern best))) (Some DENY)
      | None => no_stage
      end
  | None => no_stage
  end.

Definition anyRequiresTraversalThrough (overrides : list Override) (absolutePath : str) : bool :=
  existsb (fun o => enabled o && (effect o == ALLOW) &&
                    Glob.requiresTraversalThrough (pattern o) absolutePath) overrides.

Definition isDirectoryListOverride (o : Override) : bool :=
  Directories_resolveFromQualifiedName (qualified_name o) == Some DList.

Definition allowsDirectoryListTraversalThrough (overrides : list Override) (directory : str) : bool :=
  existsb (fun o => enabled o && (effect o == ALLOW) && isDirectoryListOverride o &&
                    Glob.requiresTraversalThrough (pattern o) directory) overrides.

Definition overridesMayAffectListing (perms : Filesystem) (directory : str) : bool :=
  existsb (fun o => enabled o && mayMatchWithin (pattern o) directory) (overrides perms).

(** ** One stage: the best override, else the base permissions *)
Record Target := mkTarget { vaultPath : str; exists_ : bool; isDir : bool }.

Definition resolve (perms : Filesystem) (target : Target) (a : FilesystemAction) : StageResult :=
  let ov := resolveOverrides (overrides perms) (vaultPath target) a in
  if matched ov then ov
  else
    let ok := allowedByBase perms (isDir target) a in
    mkStage true (Some ok) (if ok then AllowedByBasePermissions else DeniedByBasePermissions) None None.

Definition resolveStage (perms : Filesystem) (target : Target) (action : FilesystemAction) : StageResult :=
  let stage := resolve perms target action in
  if (action == Lookup) && negb (isDir target) && exists_ target &&
     match s_allowed stage with Some b => negb b | None => false end
  then
    let read := resolve perms target Read in
    if default false (s_allowed read) then read else stage
  else stage.

(** What [evaluate] returns from a stage that decided: a denied Lookup (only in
    the vault-role stages) or List is let through when an allow override below
    needs the traversal. *)
Definition settle (lookup_traversal : bool) (perms : Filesystem) (target : Target)
  (action : FilesystemAction) (stage : StageResult) : Decision :=
  let ok := default false (s_allowed stage) in
  if negb ok && (action == Lookup) && lookup_traversal &&
     anyRequiresTraversalThrough (overrides perms) (vaultPath target)
  then mkDecision true LowRiskOpRequiredForOverrideTraversal (Some (vaultPath target)) None None
  else if negb ok && (action == List_) &&
     allowsDirectoryListTraversalThrough (overrides perms) (vaultPath target)
  then mkDecision true LowRiskOpRequiredForOverrideTraversal (Some (vaultPath target)) None None
  else mkDecision ok (s_reason stage) (Some (vaultPath target)) (matchedOverride stage) (s_effect stage).

Definition decided (stage : StageResult) : bool :=
  matched stage && match s_allowed stage with Some _ => true | None => false end.

(** ** [evaluate] for permissions and a target already resolved *)
Record ResolvedRequest := mkResolved {
  r_action : FilesystemAction; r_vaultPath : str; r_exists : bool; r_isDirectory : bool }.

Definition validFor (isDirectory : bool) (action : FilesystemAction) : bool :=
  if isDirectory then isValidForDirectory action else isValidForFile action.

Definition evaluateResolved (perms : Filesystem) (req : ResolvedRequest) : Decision :=
  if is_empty (r_vaultPath req) then denied MissingPath None
  else if negb (r_exists req) && requiresExistingEntry (r_action req) then
    denied MissingEntry (Some (r_vaultPath req))
  else if negb (validFor (r_isDirectory req) (r_action req)) then
    denied InvalidActionForEntryType (Some (r_vaultPath req))
  else
    let target := mkTarget (r_vaultPath req) (r_exists req) (r_isDirectory req) in
    let stage := resolveStage perms target (r_action req) in
    if decided stage then settle true perms target (r_action req) stage
    else denied DeniedByBasePermissions (Some (vaultPath target)).

(** ** The parts the evaluator talks to *)
Record Vault := mkVault { vault_id : Z; owner_id : Z }.
Record Engine := mkEngine {
  vault : Vault;
  vaultPathToFusePath : str -> str;
  fusePathToVaultPath : str -> str }.

Record Entry := mkEntry {
  e_id : Z; e_parent_id : option Z; e_vault_id : option Z; e_path : str;
  e_isDirectory : bool; e_size_bytes : Z; e_file_count : Z; e_subdirectory_count : Z }.

(** Storage manager, entry cache and account index.  [account] gives the id and
    the admin bit of a known account. *)
Class FsEnv := {
  getEngine : Z -> option Engine;
  resolveStorageEngine : str -> option Engine;
  getEntry : str -> option Entry;
  account : Z -> option (Z * bool)
}.

Record VaultGlobals := mkGlobals { g_self : Filesystem; g_admin : Filesystem; g_user : Filesystem }.

(** [AuthzView]: the user's own vault roles, those of its groups (in order), the
    global vault policy.  A role pointer may be null. *)
Record View := mkView {
  authorizing : bool;
  user_id : Z;
  superAdmin : bool;
  user_roles : gmap Z (option Filesystem);
  group_roles : list (gmap Z (option Filesystem));
  vaultGlobals : option VaultGlobals }.

(** *** [resolver::vaultScope] and [inScope] *)
Inductive VaultScope := Self | Admin | User.

Definition vaultScope_of (actorId : Z) (owner : Z * bool) : VaultScope :=
  if fst owner =? actorId then Self else if snd owner then Admin else User.

Definition vaultScope `{FsEnv} (actorId ownerId : Z) : option VaultScope :=
  if ownerId =? actorId then Some Self
  else match account ownerId with
       | None => None
       | Some owner => Some (vaultScope_of actorId owner)
       end.

Definition inScope {A} (scope : VaultScope) (self admin user : A) : A :=
  match scope with Self => self | Admin => admin | User => user end.

Definition globalIn (scope : VaultScope) (g : VaultGlobals) : Filesystem :=
  inScope scope (g_self g) (g_admin g) (g_user g).

(** *** [Request] and [resolveTarget] *)
Record Request := mkRequest {
  req_user : option View; req_action : FilesystemAction; req_vaultId : option Z;
  req_path : option str; req_entry : option Entry }.

Definition hasTargetIdentity (req : Request) : bool :=
  match req_entry req, req_path req with None, None => false | _, _ => true end.

Definition entry_in_other_vault (entry : option Entry) (engine : Engine) : bool :=
  match entry with
  | Some e => match e_vault_id e with
              | Some v => negb (v mod 2 ^ 32 =? vault_id (vault engine))
              | None => false
              end
  | None => false
  end.

Definition pick_engine `{FsEnv} (req : Request) (fusePath : str) : option Engine :=
  let first := match req_vaultId req with Some v => getEngine v | None => None end in
  let second := match first with
    | Some e => Some e
    | None => match req_entry req with
              | Some e => match e_vault_id e with Some v => getEngine v | None => None end
              | None => None
              end
    end in
  match second with
  | Some e => Some e
  | None => if is_empty fusePath then None else resolveStorageEngine fusePath
  end.

Definition resolveTarget `{FsEnv} (req : Request) : result Decision (Engine * Target) :=
  check hasTargetIdentity req else denied MissingPathAndEntry None in
  let fusePath := default [] (req_path req) in
  let vaultPath0 := match req_entry req with Some e => e_path e | None => [] end in
  match pick_engine req fusePath with
  | None => Err (denied StorageEngineNotFound (Some fusePath))
  | Some engine =>
      let fusePath := if is_empty fusePath then vaultPathToFusePath engine vaultPath0 else fusePath in
      let vaultPath := if is_empty vaultPath0 then fusePathToVaultPath engine fusePath else vaultPath0 in
      check negb (is_empty fusePath || is_empty vaultPath)
        else denied UnableToResolvePaths (Some fusePath) in
      let entry := match req_entry req with Some e => Some e | None => getEntry fusePath end in
      check negb (entry_in_other_vault entry engine)
        else denied EntryVaultMismatch (Some fusePath) in
      let exists_ := match entry with Some _ => true | None => false end in
      let isDir := match entry with
        | Some e => e_isDirectory e
        | None => inferIsDirectoryForMissingEntry (req_action req)
        end in
      check negb (negb exists_ && requiresExistingEntry (req_action req))
        else denied MissingEntry (Some vaultPath) in
      check validFor isDir (req_action req)
        else denied InvalidActionForEntryType (Some vaultPath) in
      Ok (engine, mkTarget vaultPath exists_ isDir)
  end.

(** *** [evaluate] *)

(** Stage 2: the groups in order; a group without a role on the vault is skipped. *)
Fixpoint groupStages (groups : list (gmap Z (option Filesystem))) (vaultId : Z) (target : Target)
  (action : FilesystemAction) : option Decision :=
  match groups with
  | [] => None
  | g :: gs =>
      match g !! vaultId with
      | Some (Some fs) =>
          let stage := resolveStage fs target action in
          if decided stage then Some (settle true fs target action stage)
          else groupStages gs vaultId target action
      | _ => groupStages gs vaultId target action
      end
  end.

Definition directStage (view : View) (vaultId : Z) (target : Target) (action : FilesystemAction) : option Decision :=
  match user_roles view !! vaultId with
  | Some (Some fs) =>
      let stage := resolveStage fs target action in
      if decided stage then Some (settle true fs target action stage) else None
  | _ => None
  end.

Definition globalStage `{FsEnv} (view : View) (v : Vault) (target : Target) (action : FilesystemAction) : Decision :=
  let scope := match vaultGlobals view with
    | Some g => match vaultScope (user_id view) (owner_id v) with Some s => Some (globalIn s g) | None => None end
    | None => None
    end in
  match scope with
  | None => denied DeniedByBasePermissions (Some (vaultPath target))
  | Some fs =>
      let stage := resolveStage fs target action in
      if decided stage then settle false fs target action stage
      else denied DeniedByBasePermissions (Some (vaultPath target))
  end.

Definition evaluate `{FsEnv} (req : Request) : Decision :=
  match req_user req with
  | None => denied MissingUser None
  | Some view =>
      if negb (authorizing view) then denied MissingUser None
      else match resolveTarget req with
      | Err invalid => invalid
      | Ok (engine, target) =>
          let vaultId := vault_id (vault engine) in
          match directStage view vaultId target (req_action req) with
          | Some d => d
          | None =>
              match groupStages (group_roles view) vaultId target (req_action req) with
              | Some d => d
              | None => globalStage view (vault engine) target (req_action req)
              end
          end
      end
  end.

(** ** [resolver::Vault::has] for a filesystem action on an entry *)
Definition resolveEngine `{FsEnv} (vaultId : option Z) (path : option str) (entry : option Entry) : option Engine :=
  let by_id := match vaultId with Some v => if v =? 0 then None else getEngine v | None => None end in
  let by_path := match by_id with
    | Some e => Some e
    | None => match path with Some p => if is_empty p then None else resolveStorageEngine p | None => None end
    end in
  let by_entry := match by_path with
    | Some e => Some e
    | None => match entry with
              | Some en => match e_vault_id en with
                           | Some v => if v =? 0 then None else getEngine v
                           | None => None
                           end
              | None => None
              end
    end in
  match by_entry with
  | Some e => Some e
  | None => match entry with
            | Some en => if is_empty (e_path en) then None else resolveStorageEngine (e_path en)
            | None => None
            end
  end.

Definition ownerResolved `{FsEnv} (view : View) (v : Vault) : bool :=
  (user_id view =? owner_id v) || match account (owner_id v) with Some _ => true | None => false end.

(** [Vault::has<FilesystemAction>] for one permission: the account must be
    authorizing, the super admin passes, the engine and the owner must resolve,
    and the evaluator decides for the resolved vault. *)
Definition has `{FsEnv} (user : option View) (action : FilesystemAction) (vaultId : option Z)
  (path : option str) (entry : option Entry) : bool :=
  match user with
  | None => false
  | Some view =>
      if negb (authorizing view) then false
      else if superAdmin view then true
      else match resolveEngine vaultId path entry with
      | None => false
      | Some engine =>
          if negb (ownerResolved view (vault engine)) then false
          else allowed (evaluate (mkRequest (Some view) action (Some (vault_id (vault engine))) path entry))
      end
  end.

(** [Visibility::canLookup]: [has<Action>({user, Lookup, entry})]. *)
Definition canLookup `{FsEnv} (user : option View) (entry : Entry) : bool :=
  has user Lookup None None (Some entry).

(** ** [Visibility] *)
Definition vaultOf `{FsEnv} (entry : Entry) : option Vault :=
  match e_vault_id entry with
  | Some v => match getEngine v with Some e => Some (vault e) | None => None end
  | None => None
  end.

Definition isVaultOwner `{FsEnv} (user : View) (entry : Entry) : bool :=
  match vaultOf entry with Some v => owner_id v =? user_id user | None => false end.

Definition roleMayAffect (role : option (option Filesystem)) (directory : str) : bool :=
  match role with Some (Some fs) => overridesMayAffectListing fs directory | _ => false end.

Definition overridesMayReach `{FsEnv} (view : View) (vaultId : Z) (directory : Entry) : bool :=
  let path := e_path directory in
  if negb (authorizing view) then true
  else if roleMayAffect (user_roles view !! vaultId) path then true
  else if existsb (fun g => roleMayAffect (g !! vaultId) path) (group_roles view) then true
  else match vaultGlobals view with
       | None => false
       | Some g =>
           match vaultOf directory with
           | None => true
           | Some v =>
               match vaultScope (user_id view) (owner_id v) with
               | None => true
               | Some s => overridesMayAffectListing (globalIn s g) path
               end
           end
       end.

Definition probeIn (directory : Entry) (asDirectory : bool) : Entry :=
  mkEntry 0 (Some (e_id directory)) (e_vault_id directory)
    (path_join (e_path directory) $".vh-visibility-probe") asDirectory 0 0 0.

Definition seesWholeSubtree `{FsEnv} (user : option View) (directory : Entry) : bool :=
  match user, e_vault_id directory with
  | Some view, Some v =>
      if superAdmin view then true
      else if isVaultOwner view directory then true
      else if overridesMayReach view (v mod 2 ^ 32) directory then false
      else canLookup user (probeIn directory true) && canLookup user (probeIn directory false)
  | _, _ => false
  end.

Definition visibleChildren `{FsEnv} (user : option View) (directory : Entry)
  (children : list Entry) : list Entry :=
  if seesWholeSubtree user directory then children
  else List.filter (canLookup user) children.

(** ** The best override *)
Definition applicable (o : Override) (path : str) (action : FilesystemAction) : bool :=
  enabled o && fileFilter o action && directoryFilter o action && matches (pattern o) path.

(** [o] is the first of the highest-scoring applicable overrides. *)
Definition is_best (overrides : list Override) (path : str) (action : FilesystemAction) (o : Override) : Prop :=
  exists l1 l2, overrides = l1 ++ o :: l2 /\ applicable o path action = true /\
    (forall o', o' ∈ l1 -> applicable o' path action = true ->
       (scorePattern (pattern o') < scorePattern (pattern o))%nat) /\
    (forall o', o' ∈ l2 -> applicable o' path action = true ->
       (scorePattern (pattern o') <= scorePattern (pattern o))%nat).

Lemma findBest_cons o os path action best score :
  findBest (o :: os) path action best score =
  if applicable o path action && match best with None => true | Some _ => (score <? scorePattern (pattern o))%nat end
  then findBest os path action (Some o) (scorePattern (pattern o))
  else findBest os path action best score.
Proof.
  simpl. unfold applicable.
  destruct (enabled o), (fileFilter o action), (directoryFilter o action),
    (matches (pattern o) path), best; simpl; try done.
Qed.

Lemma findBest_spec os path action best score :
  (best = None \/ exists b, best = Some b /\ score = scorePattern (pattern b)) ->
  (findBest os path action best score = best /\
   (forall o, o ∈ os -> applicable o path action = true ->
      exists b, best = Some b /\ (scorePattern (pattern o) <= score)%nat)) \/
  (exists o, findBest os path action best score = Some o /\ is_best os path action o /\
     (forall b, best = Some b -> (score < scorePattern (pattern o))%nat)).
Proof.
  revert best score. induction os as [|x os IH]; intros best score Hb.
  { left. split; [done|]. set_solver. }
  rewrite findBest_cons. destruct (applicable x path action) eqn:Ea; simpl.
  - destruct (match best with None => true | Some _ => (score <? scorePattern (pattern x))%nat end) eqn:Es.
    + right. destruct (IH (Some x) _ ltac:(right; eauto)) as [[Heq Hall]|(o & Ho & (l1 & l2 & -> & Hao & H1 & H2) & Hlt)].
      * exists x. split; [done|]. split.
        -- exists [], os. split_and!; [done|done|set_solver|].
           intros o' Ho' Ha'. destruct (Hall o' Ho' Ha') as (b & [= <-] & ?). done.
        -- intros b ->. by apply Nat.ltb_lt.
      * exists o. specialize (Hlt _ eq_refl). split; [done|]. split.
        -- exists (x :: l1), l2. split_and!; [done|done| |done].
           intros o' [->|Ho']%elem_of_cons Ha'; [done|by apply H1].
        -- intros b ->. apply Nat.ltb_lt in Es. lia.
    + destruct best as [b|]; [|done]. apply Nat.ltb_ge in Es.
      destruct (IH (Some b) score Hb) as [[Heq Hall]|(o & Ho & (l1 & l2 & -> & Hao & H1 & H2) & Hlt)].
      * left. split; [done|]. intros o' [->|Ho']%elem_of_cons Ha'; [by eauto|by apply Hall].
      * right. exists o. specialize (Hlt _ eq_refl). split; [done|]. split; [|naive_solver].
        exists (x :: l1), l2. split_and!; [done|done| |done].
        intros o' [->|Ho']%elem_of_cons Ha'; [lia|by apply H1].
  - destruct (IH best score Hb) as [[Heq Hall]|(o & Ho & (l1 & l2 & -> & Hao & H1 & H2) & Hlt)].
    + left. split; [done|]. intros o' [->|Ho']%elem_of_cons Ha'; [congruence|by apply Hall].
    + right. exists o. split; [done|]. split; [|done].
      exists (x :: l1), l2. split_and!; [done|done| |done].
      intros o' [->|Ho']%elem_of_cons Ha'; [congruence|by apply H1].
Qed.

Lemma findBestOverride_cases os path action :
  (findBestOverride os path action = None /\ forall o, o ∈ os -> applicable o path action = false) \/
  (exists o, findBestOverride os path action = Some o /\ is_best os path action o).
Proof.
  destruct (findBest_spec os path action None 0 ltac:(by left)) as [[H1 H2]|(o & ? & ? & _)].
  - left. split; [done|]. intros o Ho. destruct (applicable o path action) eqn:E; [|done].
    destruct (H2 o Ho E) as (? & ? & _). done.
  - right. eauto.
Qed.

Lemma is_best_in os path action o :
  is_best os path action o -> o ∈ os /\ enabled o = true /\ matches (pattern o) path = true.
Proof.
  intros (l1 & l2 & -> & Ha & _). unfold applicable in Ha. bsimpl. split; [set_solver|done].
Qed.

(** ** Stages *)
Lemma resolve_decided perms target a : exists b, matched (resolve perms target a) = true /\
  s_allowed (resolve perms target a) = Some b.
Proof.
  unfold resolve, resolveOverrides.
  destruct (findBestOverride _ _ _) as [o|]; simpl; [|eauto].
  destruct (overrideEffect o) as [[]|]; simpl; eauto.
Qed.

Lemma resolveStage_decided perms target a : decided (resolveStage perms target a) = true.
Proof.
  assert (resolveStage perms target a = resolve perms target a \/
          resolveStage perms target a = resolve perms target Read) as [->| ->].
  { unfold resolveStage. repeat case_if; auto. }
  all: unfold decided; destruct (resolve_decided perms target a) as (b & Hm & Hs);
    destruct (resolve_decided perms target Read) as (b' & Hm' & Hs'); by rewrite ?Hm, ?Hs, ?Hm', ?Hs'.
Qed.

(** Compiled overrides. *)
Definition wf_overrides (perms : Filesystem) : Prop :=
  Forall (fun o => wf_pattern (pattern o)) (overrides perms).

(** No enabled override reaches the subtree of [dir]. *)
Definition untouched (perms : Filesystem) (dir : str) : Prop :=
  wf_overrides perms /\ overridesMayAffectListing perms dir = false.

Lemma untouched_mayMatch perms dir o :
  untouched perms dir -> o ∈ overrides perms -> enabled o = true ->
  mayMatchWithin (pattern o) dir = false /\ wf_pattern (pattern o).
Proof.
  intros [Hwf Hno] Hin He. split.
  - unfold overridesMayAffectListing in Hno.
    destruct (mayMatchWithin (pattern o) dir) eqn:E; [|done].
    assert (existsb (fun o => enabled o && mayMatchWithin (pattern o) dir) (overrides perms) = true); [|congruence].
    apply existsb_exists. exists o. rewrite He, E. split; [by apply list_elem_of_In|done].
  - unfold wf_overrides in Hwf. rewrite Forall_forall in Hwf. by apply Hwf.
Qed.

Section Subtree.
Variables (perms : Filesystem) (dir path : str).
Hypothesis Hun : untouched perms dir.
Hypothesis Hroot : is_rooted (normalizePath dir) = true.
Hypothesis Hin : in_subtree (normalizePath dir) (normalizePath path).

Lemma untouched_no_override action : findBestOverride (overrides perms) path action = None.
Proof using Hun Hroot Hin.
  destruct (findBestOverride_cases (overrides perms) path action) as [[? _]|(o & _ & Hb)]; [done|].
  apply is_best_in in Hb as (Hino & He & Hm). exfalso.
  destruct (untouched_mayMatch _ _ _ Hun Hino He) as [Hno Hwf].
  by rewrite (mayMatchWithin_covers _ dir path) in Hno.
Qed.

Lemma untouched_resolve ex isD action :
  resolve perms (mkTarget path ex isD) action =
  mkStage true (Some (allowedByBase perms isD action))
    (if allowedByBase perms isD action then AllowedByBasePermissions else DeniedByBasePermissions) None None.
Proof using Hun Hroot Hin. unfold resolve, resolveOverrides. simpl. by rewrite untouched_no_override. Qed.

Lemma untouched_no_traversal o :
  o ∈ overrides perms -> enabled o = true -> Glob.requiresTraversalThrough (pattern o) path = false.
Proof using Hun Hroot Hin.
  intros Hino He. destruct (untouched_mayMatch _ _ _ Hun Hino He) as [Hno _].
  destruct (Glob.requiresTraversalThrough (pattern o) path) eqn:E; [|done].
  by rewrite (traversal_mayMatchWithin _ dir path) in Hno.
Qed.

Lemma untouched_traversal_false : anyRequiresTraversalThrough (overrides perms) path = false /\
  allowsDirectoryListTraversalThrough (overrides perms) path = false.
Proof using Hun Hroot Hin.
  split; (match goal with |- ?b = false => destruct b eqn:E; [exfalso|done] end);
    apply existsb_exists in E as (o & Hino & Ho); apply list_elem_of_In in Hino;
    repeat (apply andb_true_iff in Ho as [Ho ?]); by rewrite untouched_no_traversal in *.
Qed.

Lemma untouched_settle lt ex isD action :
  settle lt perms (mkTarget path ex isD) action (resolveStage perms (mkTarget path ex isD) action) =
  (let stage := resolveStage perms (mkTarget path ex isD) action in
   mkDecision (default false (s_allowed stage)) (s_reason stage) (Some path) (matchedOverride stage) (s_effect stage)).
Proof using Hun Hroot Hin.
  unfold settle. simpl vaultPath. destruct untouched_traversal_false as [-> ->].
  by rewrite !andb_false_r.
Qed.
End Subtree.

(** Below an untouched directory a stage depends on the kind of the entry only. *)
Lemma untouched_uniform perms dir p q lt ex isD action :
  untouched perms dir -> is_rooted (normalizePath dir) = true ->
  in_subtree (normalizePath dir) (normalizePath p) -> in_subtree (normalizePath dir) (normalizePath q) ->
  allowed (settle lt perms (mkTarget p ex isD) action (resolveStage perms (mkTarget p ex isD) action)) =
  allowed (settle lt perms (mkTarget q ex isD) action (resolveStage perms (mkTarget q ex isD) action)).
Proof.
  intros Hun Hr Hp Hq.
  rewrite (untouched_settle _ _ _ Hun Hr Hp), (untouched_settle _ _ _ Hun Hr Hq). simpl.
  unfold resolveStage. simpl.
  rewrite !(untouched_resolve _ _ _ Hun Hr Hp), !(untouched_resolve _ _ _ Hun Hr Hq). simpl.
  by repeat case_if.
Qed.

(** ** The policy that decides a request: an abstract account of [evaluate] *)
Definition first_group_role (groups : list (gmap Z (option Filesystem))) (vaultId : Z) : option Filesystem :=
  head (omap (fun g => match g !! vaultId with Some (Some fs) => Some fs | _ => None end) groups).

(** The account's own role on the vault; else the first group that has one; else
    the global policy in the one scope the vault falls under.  The boolean says
    whether a denied Lookup may be let through for traversal. *)
Definition deciding_policy `{FsEnv} (view : View) (v : Vault) : option (bool * Filesystem) :=
  match user_roles view !! vault_id v with
  | Some (Some fs) => Some (true, fs)
  | _ =>
      match first_group_role (group_roles view) (vault_id v) with
      | Some fs => Some (true, fs)
      | None =>
          match vaultGlobals view, vaultScope (user_id view) (owner_id v) with
          | Some g, Some s => Some (false, globalIn s g)
          | _, _ => None
          end
      end
  end.

Definition policy_decision (policy : option (bool * Filesystem)) (target : Target)
  (action : FilesystemAction) : Decision :=
  match policy with
  | Some (lt, fs) => settle lt fs target action (resolveStage fs target action)
  | None => denied DeniedByBasePermissions (Some (vaultPath target))
  end.

Lemma groupStages_spec groups vaultId target action :
  groupStages groups vaultId target action =
  match first_group_role groups vaultId with
  | Some fs => Some (settle true fs target action (resolveStage fs target action))
  | None => None
  end.
Proof.
  unfold first_group_role. induction groups as [|g gs IH]; simpl; [done|].
  destruct (g !! vaultId) as [[fs|]|]; simpl; [by rewrite resolveStage_decided|done..].
Qed.

Lemma evaluate_policy `{FsEnv} view req engine target :
  req_user req = Some view -> authorizing view = true ->
  resolveTarget req = Ok (engine, target) ->
  evaluate req = policy_decision (deciding_policy view (vault engine)) target (req_action req).
Proof.
  intros Hu Ha Ht. unfold evaluate. rewrite Hu, Ha, Ht. simpl.
  unfold directStage, deciding_policy.
  destruct (user_roles view !! vault_id (vault engine)) as [[fs|]|];
    [by rewrite resolveStage_decided|..];
    rewrite groupStages_spec; destruct (first_group_role _ _); try done;
    unfold globalStage; destruct (vaultGlobals view); try done;
    destruct (vaultScope _ _); try done; by rewrite resolveStage_decided.
Qed.

Lemma resolveTarget_denies `{FsEnv} req d : resolveTarget req = Err d -> allowed d = false.
Proof.
  unfold resolveTarget. case_if; [|by intros [= <-]].
  destruct (pick_engine _ _); [|by intros [= <-]].
  do 4 (case_if; [|by intros [= <-]]). done.
Qed.

Lemma traversal_override f overrides :
  existsb (fun o => enabled o && (effect o == ALLOW) && f o) overrides = true ->
  exists o, o ∈ overrides /\ enabled o = true /\ effect o = ALLOW /\ f o = true.
Proof.
  intros (o & Ho & Hx)%existsb_exists. bsimpl. exists o. by rewrite list_elem_of_In.
Qed.

Lemma settle_allowed lt fs target action stage :
  allowed (settle lt fs target action stage) = true ->
  s_allowed stage = Some true \/
  ((action = Lookup \/ action = List_) /\
   exists o, o ∈ overrides fs /\ enabled o = true /\ effect o = ALLOW /\
     Glob.requiresTraversalThrough (pattern o) (vaultPath target) = true).
Proof.
  unfold settle. case_if; [intros _; right|case_if; [intros _; right|]].
  - bsimpl. split; [by left|]. by apply (traversal_override (fun o => Glob.requiresTraversalThrough (pattern o) _)).
  - bsimpl. split; [by right|].
    match goal with H : allowsDirectoryListTraversalThrough _ _ = true |- _ =>
      apply existsb_exists in H as (o & Hin & Hx) end.
    bsimpl. exists o. by rewrite list_elem_of_In.
  - simpl. destruct (s_allowed stage) as [[]|]; auto; done.
Qed.

Lemma resolveStage_allowed fs target action :
  s_allowed (resolveStage fs target action) = Some true ->
  s_allowed (resolve fs target action) = Some true \/
  (action = Lookup /\ isDir target = false /\ s_allowed (resolve fs target Read) = Some true).
Proof.
  unfold resolveStage. case_if; [case_if|]; auto. bsimpl. auto.
Qed.

(** ** Entries of one directory are resolved alike *)
Class FsEnvOk `{FsEnv} := {
  engine_vault_id : forall v e, getEngine v = Some e -> vault_id (vault e) = v;
  fuse_path_nonempty : forall v e p, getEngine v = Some e -> p <> [] -> vaultPathToFusePath e p <> []
}.

Lemma canLookup_resolved `{FsEnvOk} view engine c v :
  authorizing view = true -> superAdmin view = false ->
  getEngine v = Some engine -> ownerResolved view (vault engine) = true ->
  0 < v < 2 ^ 32 -> e_vault_id c = Some v -> e_path c <> [] ->
  canLookup (Some view) c =
  allowed (policy_decision (deciding_policy view (vault engine))
    (mkTarget (e_path c) true (e_isDirectory c)) Lookup).
Proof.
  intros Ha Hs Hg Ho Hv Hc Hp. unfold canLookup, has. rewrite Ha, Hs. simpl negb. cbv iota.
  pose proof (engine_vault_id _ _ Hg) as Hid.
  assert (resolveEngine None None (Some c) = Some engine) as ->.
  { unfold resolveEngine. rewrite Hc. rewrite (proj2 (Z.eqb_neq v 0)) by lia. by rewrite Hg. }
  rewrite Ho. simpl negb. cbv iota. f_equal. apply evaluate_policy; [done|done|].
  unfold resolveTarget. simpl. unfold pick_engine. simpl. rewrite Hid, Hg.
  destruct (is_empty (e_path c)) eqn:Ep; [by apply is_empty_true in Ep|].
  destruct (is_empty (vaultPathToFusePath engine (e_path c))) eqn:Ef.
  { apply is_empty_true in Ef. by apply (fuse_path_nonempty _ _ _ Hg) in Hp. }
  simpl. unfold entry_in_other_vault. rewrite Hc, Hid, Z.mod_small, Z.eqb_refl by lia. simpl.
  by destruct (e_isDirectory c); simpl; rewrite Ep.
Qed.

Lemma path_join_child d n :
  path_join d n = if (d == $"/") then d ++ n else (if ends_with_slash d || is_empty d then d ++ n else d ++ slash :: n).
Proof.
  unfold path_join. destruct (d == $"/") eqn:E; [|done]. bsimpl. by subst.
Qed.

Lemma child_in_subtree d n :
  normal_dir d -> plain n -> in_subtree (normalizePath d) (normalizePath (path_join d n)).
Proof.
  intros Hd Hp. assert (normalizePath d = d) as Hn.
  { destruct Hd as [->|(_ & _ & ?)]; [by vm_compute|done]. }
  right. rewrite Hn. apply starts_with_spec. exists n. unfold normalizePath, within_dir.
  rewrite <- lexically_normal_child by done. f_equal. rewrite path_join_child.
  destruct Hd as [->|(Hr & Hs & _)]; [done|]. case_if; [done|].
  destruct d; [done|]. by rewrite Hs.
Qed.

Lemma normal_dir_rooted d : normal_dir d -> is_rooted (normalizePath d) = true.
Proof.
  intros [->|(Hr & _ & _)]; [by vm_compute|].
  unfold normalizePath. by destruct (lexically_normal_rooted d Hr) as [r ->].
Qed.

Definition wf_policy (p : option (bool * Filesystem)) : Prop :=
  match p with Some (_, fs) => wf_overrides fs | None => True end.

Lemma overridesMayReach_deciding `{FsEnvOk} view v engine d lt fs :
  getEngine v = Some engine -> e_vault_id d = Some v ->
  overridesMayReach view v d = false ->
  deciding_policy view (vault engine) = Some (lt, fs) ->
  overridesMayAffectListing fs (e_path d) = false.
Proof.
  intros Hg Hd Hno. pose proof (engine_vault_id _ _ Hg) as Hid.
  unfold overridesMayReach in Hno. unfold deciding_policy. rewrite Hid.
  destruct (authorizing view); [|done]. simpl in Hno.
  destruct (roleMayAffect (user_roles view !! v) (e_path d)) eqn:Er; [done|].
  destruct (existsb _ (group_roles view)) eqn:Eg; [done|].
  destruct (user_roles view !! v) as [[fs'|]|]; [by intros [= <- <-]|..].
  all: destruct (first_group_role (group_roles view) v) as [fs'|] eqn:Ef.
  all: try (intros [= <- <-]; unfold first_group_role in Ef;
    destruct (overridesMayAffectListing fs' (e_path d)) eqn:Ea; [exfalso|done];
    assert (existsb (fun g => roleMayAffect (g !! v) (e_path d)) (group_roles view) = true); [|congruence];
    clear Eg Er Hno; induction (group_roles view) as [|g gs IH]; simpl in *; [done|];
    destruct (g !! v) as [[?|]|]; simplify_eq/=; [by rewrite Ea|by apply IH..]).
  all: destruct (vaultGlobals view) as [g|]; [|done];
    unfold vaultOf in Hno; rewrite Hd, Hg in Hno;
    destruct (vaultScope _ _); [|done]; by intros [= <- <-].
Qed.

(** ** Properties *)

(** An override decides exactly when one applies: [resolveOverrides] is
    unmatched when no enabled override for the action matches the path, and
    otherwise has the effect of the first of the most specific ones (highest
    score), reported with its pattern. *)
Theorem override_resolution os path action :
  (resolveOverrides os path action = no_stage /\
   forall o, o ∈ os -> applicable o path action = false) \/
  (exists o, is_best os path action o /\
   resolveOverrides os path action =
   mkStage true (Some (effect o == ALLOW))
     (if effect o == ALLOW then AllowedByOverride else DeniedByOverride)
     (Some (source (pattern o))) (Some (effect o))).
Proof.
  unfold resolveOverrides.
  destruct (findBestOverride_cases os path action) as [[-> ?]|(o & -> & Hb)]; [by left|right].
  exists o. split; [done|]. apply is_best_in in Hb as (_ & He & _).
  unfold overrideEffect. rewrite He. by destruct (effect o).
Qed.

(** [evaluate], whatever the request. *)
Lemma evaluate_policy_request `{FsEnv} req :
  evaluate req =
  match req_user req with
  | None => denied MissingUser None
  | Some view =>
      if authorizing view then
        match resolveTarget req with
        | Err invalid => invalid
        | Ok (engine, target) =>
            policy_decision (deciding_policy view (vault engine)) target (req_action req)
        end
      else denied MissingUser None
  end.
Proof.
  destruct (req_user req) as [view|] eqn:Eu; [|unfold evaluate; by rewrite Eu].
  destruct (authorizing view) eqn:Ea; [|unfold evaluate; by rewrite Eu, Ea].
  destruct (resolveTarget req) as [[engine target]|e] eqn:Et.
  - by apply evaluate_policy.
  - unfold evaluate. by rewrite Eu, Ea, Et.
Qed.

(** C1. [evaluate] implements the abstract policy: for an authorizing user and a
    resolvable target the decision is that of one policy, the user's own role on
    the vault, else the first group with a role there, else the global policy in
    the vault's scope, and default deny without one; later policies never
    override an earlier one. *)
Theorem evaluate_refines_policy `{FsEnv} req :
  evaluate req =
  match req_user req with
  | None => denied MissingUser None
  | Some view =>
      if authorizing view then
        match resolveTarget req with
        | Err invalid => invalid
        | Ok (engine, target) =>
            policy_decision (deciding_policy view (vault engine)) target (req_action req)
        end
      else denied MissingUser None
  end.
Proof. apply evaluate_policy_request. Qed.

(** Nothing is allowed without a reason in the policy: an allowed request
    comes from an authorizing user whose deciding policy allows the action by its
    base permissions or by its most specific override (for a file Lookup possibly
    through the Read decision), or, for a Lookup or List only, from an enabled
    allow override that needs the path to be traversed. *)
Theorem allowed_has_reason `{FsEnv} req :
  allowed (evaluate req) = true ->
  exists view engine target lt fs,
    req_user req = Some view /\ authorizing view = true /\
    resolveTarget req = Ok (engine, target) /\
    deciding_policy view (vault engine) = Some (lt, fs) /\
    (s_allowed (resolve fs target (req_action req)) = Some true \/
     (req_action req = Lookup /\ isDir target = false /\ s_allowed (resolve fs target Read) = Some true) \/
     ((req_action req = Lookup \/ req_action req = List_) /\
      exists o, o ∈ overrides fs /\ enabled o = true /\ effect o = ALLOW /\
        Glob.requiresTraversalThrough (pattern o) (vaultPath target) = true)).
Proof.
  rewrite evaluate_policy_request.
  destruct (req_user req) as [view|]; [|done]. destruct (authorizing view) eqn:Ea; [|done].
  destruct (resolveTarget req) as [[engine target]|e] eqn:Et;
    [|intros H'; by rewrite (resolveTarget_denies _ _ Et) in H'].
  destruct (deciding_policy view (vault engine)) as [[lt fs]|] eqn:Ed; [|done].
  intros Hall. exists view, engine, target, lt, fs. split_and!; try done.
  destruct (settle_allowed _ _ _ _ _ Hall) as [Hs|Ht]; [|by right; right].
  destruct (resolveStage_allowed _ _ _ Hs); auto.
Qed.

(** A small environment: one vault (id 7, owner 1) and its engine. *)
Module Demo.
Definition engine : Engine := mkEngine (mkVault 7 1) (fun p => $"/mnt" ++ p) (fun p => p).
#[export] Instance env : FsEnv := {
  getEngine v := if v =? 7 then Some engine else None;
  resolveStorageEngine _ := None; getEntry _ := None;
  account v := if v =? 1 then Some (1, false) else None }.
Definition compiled (text : str) : Pattern := mkPattern text (tokenize text []).
Definition browse_docs : Filesystem :=
  mkFilesystem Files_DownloadOnly Directories_ListOnly
    [mkOverride $"vault.fs.files.download" DENY true (compiled $"/private/**")].
Definition reader : View := mkView true 2 false {[ 7 := Some browse_docs ]} [] None.
Definition entry (path : str) (dir : bool) : Entry := mkEntry 5 (Some 1) (Some 7) path dir 10 0 0.
Definition lookup (path : str) : Request := mkRequest (Some reader) Lookup (Some 7) None (Some (entry path false)).
#[export] Instance env_ok : FsEnvOk.
Proof.
  split; intros v e; simpl; destruct (Z.eqb_spec v 7); try done; by intros ? [= <-] || intros [= <-].
Qed.
End Demo.

Lemma allowed_has_reason_witness :
  allowed (evaluate (H := Demo.env) (Demo.lookup $"/docs/a")) = true /\
  exists view, req_user (Demo.lookup $"/docs/a") = Some view /\ authorizing view = true.
Proof.
  split; [vm_compute; reflexivity|].
  destruct (allowed_has_reason (H := Demo.env) (Demo.lookup $"/docs/a")) as (v & _ & _ & _ & _ & ? & ? & _).
  - vm_compute. reflexivity.
  - exists v. split; assumption.
Defined.

(** The listing shortcut is sound: below a directory that no enabled override
    of a policy can reach, [evaluate] answers every action for every path of the
    subtree alike, by the kind and the existence of the entry only; two requests
    differ at most in the path they report. *)
Theorem untouched_subtree_uniform perms dir p q action ex isD :
  wf_overrides perms -> overridesMayAffectListing perms dir = false ->
  is_rooted (normalizePath dir) = true ->
  in_subtree (normalizePath dir) (normalizePath p) ->
  in_subtree (normalizePath dir) (normalizePath q) ->
  p <> [] -> q <> [] ->
  let d path := evaluateResolved perms (mkResolved action path ex isD) in
  allowed (d p) = allowed (d q) /\ reason (d p) = reason (d q) /\
  matched_override (d p) = None /\ matched_override (d q) = None.
Proof.
  intros Hwf Hno Hr Hp Hq Hpn Hqn. assert (untouched perms dir) as Hun by done.
  simpl. unfold evaluateResolved. simpl.
  destruct p as [|c p']; [done|]. destruct q as [|c' q']; [done|]. simpl is_empty. cbv iota.
  case_if; [done|]. case_if; [done|]. rewrite !resolveStage_decided.
  rewrite (untouched_settle _ _ _ Hun Hr Hp), (untouched_settle _ _ _ Hun Hr Hq).
  unfold resolveStage. simpl.
  rewrite !(untouched_resolve _ _ _ Hun Hr Hp), !(untouched_resolve _ _ _ Hun Hr Hq). simpl.
  by repeat case_if.
Qed.

Lemma untouched_subtree_uniform_witness :
  let d path := evaluateResolved Demo.browse_docs (mkResolved Read path true false) in
  allowed (d $"/docs/a") = true /\ reason (d $"/docs/a") = reason (d $"/docs/x/b").
Proof.
  split; [vm_compute; reflexivity|].
  apply (untouched_subtree_uniform Demo.browse_docs $"/docs" $"/docs/a" $"/docs/x/b").
  - constructor; [|constructor]. apply tokenize_wf. constructor.
  - vm_compute. reflexivity.
  - vm_compute. reflexivity.
  - right. vm_compute. reflexivity.
  - right. vm_compute. reflexivity.
  - discriminate.
  - discriminate.
Defined.

(** C27. A listing shows exactly what Lookup shows: for a user who is neither a
    super admin nor the vault's owner, [visibleChildren] of a directory equals
    filtering every child by its own Lookup decision, also when the whole-subtree
    shortcut skips the filter. *)
Theorem visibleChildren_is_filter `{FsEnvOk} view directory children v engine :
  getEngine v = Some engine -> 0 < v < 2 ^ 32 -> e_vault_id directory = Some v ->
  superAdmin view = false -> isVaultOwner view directory = false ->
  normal_dir (e_path directory) ->
  wf_policy (deciding_policy view (vault engine)) ->
  Forall (fun c => e_vault_id c = Some v /\
    exists name, plain name /\ e_path c = path_join (e_path directory) name) children ->
  visibleChildren (Some view) directory children = List.filter (canLookup (Some view)) children.
Proof.
  intros Hg Hv Hd Hs Hown Hn Hwf Hch. unfold visibleChildren.
  destruct (seesWholeSubtree (Some view) directory) eqn:Esee; [|done].
  unfold seesWholeSubtree in Esee. rewrite Hd, Hs, Hown, Z.mod_small in Esee by lia.
  destruct (overridesMayReach view v directory) eqn:Ereach; [done|].
  apply andb_true_iff in Esee as [Hpd Hpf].
  assert (authorizing view = true) as Ha.
  { unfold canLookup, has in Hpd. by destruct (authorizing view). }
  assert (plain $".vh-visibility-probe") as Hprobe.
  { repeat split; try (by vm_compute). intros Hin. apply list_elem_of_In in Hin.
    vm_compute in Hin. intuition discriminate. }
  assert (Hjoin : forall n, plain n -> path_join (e_path directory) n <> []).
  { intros n (Hne & _) Hnil. unfold path_join in Hnil. case_if_in Hnil.
    - by apply app_eq_nil in Hnil as [_ ?].
    - by apply app_eq_nil in Hnil as [_ ?]. }
  assert (ownerResolved view (vault engine) = true) as Ho.
  { unfold canLookup, has in Hpd. rewrite Ha, Hs in Hpd. simpl in Hpd.
    assert (resolveEngine None None (Some (probeIn directory true)) = Some engine) as Hre.
    { unfold resolveEngine. simpl. rewrite Hd, (proj2 (Z.eqb_neq v 0)) by lia. by rewrite Hg. }
    rewrite Hre in Hpd. by destruct (ownerResolved _ _). }
  assert (Hlook : forall c, c ∈ children -> canLookup (Some view) c = true).
  { intros c Hc. rewrite Forall_forall in Hch. destruct (Hch c Hc) as (Hcv & n & Hnp & Hcp).
    assert (Hsame : canLookup (Some view) c = canLookup (Some view) (probeIn directory (e_isDirectory c))).
    { rewrite !(canLookup_resolved view engine _ v); try done; simpl; rewrite ?Hcp; auto.
      unfold policy_decision. destruct (deciding_policy view (vault engine)) as [[lt fs]|] eqn:Edp; [|done].
      pose proof (overridesMayReach_deciding view v engine directory lt fs Hg Hd Ereach Edp).
      apply (untouched_uniform fs (e_path directory)); [by split| |..];
        auto using normal_dir_rooted, child_in_subtree. }
    rewrite Hsame. by destruct (e_isDirectory c). }
  clear Hch. induction children as [|c cs IH]; cbn [List.filter]; [done|].
  rewrite Hlook by set_solver. f_equal. apply IH. intros; apply Hlook; set_solver.
Qed.

#[local] Existing Instance Demo.env.
#[local] Existing Instance Demo.env_ok.

Definition demo_dir : Entry := Demo.entry $"/docs" true.
Definition demo_children : list Entry := [Demo.entry $"/docs/a" false; Demo.entry $"/docs/b" true].

Lemma visibleChildren_is_filter_witness :
  seesWholeSubtree (Some Demo.reader) demo_dir = true /\
  visibleChildren (Some Demo.reader) demo_dir demo_children =
  List.filter (canLookup (Some Demo.reader)) demo_children.
Proof.
  split; [vm_compute; reflexivity|].
  apply (visibleChildren_is_filter Demo.reader demo_dir demo_children 7 Demo.engine).
  - reflexivity.
  - vm_compute. split; congruence.
  - reflexivity.
  - reflexivity.
  - vm_compute. reflexivity.
  - right. vm_compute. split; [reflexivity|split; reflexivity].
  - constructor; [|constructor]. apply tokenize_wf. constructor.
  - assert (plain $"a" /\ plain $"b") as [? ?].
    { split; (repeat split; try discriminate); intros Hin; apply list_elem_of_In in Hin;
        vm_compute in Hin; intuition discriminate. }
    constructor; [split; [reflexivity|exists $"a"; split; [assumption|vm_compute; reflexivity]]|].
    constructor; [split; [reflexivity|exists $"b"; split; [assumption|vm_compute; reflexivity]]|].
    constructor.
Defined.

(** An override whose permission is a sharing permission passes both
    permission filters of [findBestOverride], whatever the requested action: when
    it is enabled and its pattern matches, it takes part in the decision of every
    action, so an allow override on [vault.fs.files.share.internal] alone lets
    the holder delete. *)
Theorem share_override_applies_to_every_action o path action :
  qualified_name o ∈ [$"vault.fs.files.share.internal"; $"vault.fs.files.share.public";
    $"vault.fs.directories.share.internal"; $"vault.fs.directories.share.public"] ->
  applicable o path action = enabled o && matches (pattern o) path.
Proof.
  intros Hq. unfold applicable.
  assert (fileFilter o action = true /\ directoryFilter o action = true) as [-> ->].
  { unfold fileFilter, directoryFilter. set_unfold.
    destruct Hq as [->|[->|[->|[->|[]]]]]; by vm_compute. }
  by rewrite !andb_true_r.
Qed.

Definition share_allow : Override :=
  mkOverride $"vault.fs.files.share.internal" ALLOW true (Demo.compiled $"/docs/**").

Lemma share_override_applies_to_every_action_witness :
  applicable share_allow $"/docs/a" Delete = true /\
  allowed (evaluateResolved (mkFilesystem Files_None Directories_None [share_allow])
    (mkResolved Delete $"/docs/a" true false)) = true.
Proof.
  split; [|vm_compute; reflexivity].
  rewrite (share_override_applies_to_every_action share_allow $"/docs/a" Delete).
  - vm_compute. reflexivity.
  - left.
Defined.
