(* ===== verification/FsCache.v ===== *)
(** * The filesystem entry cache

    [fs/cache/Registry.cpp]: the in-memory tree of entries the FUSE bridge, the
    websocket handlers and the policy look paths, inodes and ids up in.

    Entries are shared objects which callers change in place, so the model has an
    explicit heap: the indexes hold pointers, a pointer without an object is the
    null pointer.  An operation is a function of the cache's state; one that can
    throw or reads the database is a computation of the monad [M], whose exception
    keeps the state reached so far.  The database is the parameter [DB] with the
    queries of the class [FsDb].  Every [unordered_map] keyed by a path is keyed
    by the path's [collapse]d text, as equality of std::filesystem::path is.

    The critical sections of one operation run under the cache's mutex; [step]
    lists the operations, the changes callers make to entries and the changes
    others make to the database, and the invariant holds after any sequence. *)
From stdpp Require Import fin_maps gmap.
From S2P Require Import Prelude Monad Paths.
#[local] Open Scope Z_scope.

(** ** Data *)
Definition u64max : Z := 2 ^ 64 - 1.
Definition u32 (z : Z) : Z := z mod 2 ^ 32.

Record Entry := mkEntry {
  e_id : Z; e_name : str; e_base32_alias : str; e_size_bytes : Z;
  e_parent_id : option Z; e_vault_id : option Z; e_inode : option Z;
  e_path : str; e_fuse_path : str; e_backing_path : str; e_isDirectory : bool;
  e_file_count : Z; e_subdirectory_count : Z; e_updated_at : Z }.

(** A row of [collectParentStats]: a directory of the parent chain with its totals. *)
Record StatRow := mkStatRow {
  r_id : Z; r_size_bytes : Z; r_file_count : Z; r_subdirectory_count : Z; r_updated_at : option Z }.
Record ListingShape := mkShape { sh_direct : Z; sh_subtree : Z }.

Inductive CacheError :=
| InvalidArgument | EntryHasNoVault | EntryHasNoParent | NoParentEntry | EntryHasNoInode
| EmptyPath | InodeNotFound (ino : Z) | RootNotFound | ParentNotFound | DbError (what : str).

(** What the cache asks of the database (db/query/fs): every query may fail. *)
Class FsDb (DB : Type) := {
  getNextInode : DB -> result CacheError Z;
  getRootEntry : DB -> result CacheError (option Entry);
  getFSEntryById : Z -> DB -> result CacheError (option Entry);
  getFSEntryByInode : Z -> DB -> result CacheError (option Entry);
  getFSEntryByPath : Z -> str -> DB -> result CacheError (option Entry);
  db_listDir : Z -> bool -> DB -> result CacheError (list (option Entry));
  db_listSubtree : Z -> DB -> result CacheError (list (option Entry));
  collectParentStats : Z -> DB -> result CacheError (list StatRow);
  listingShape : Z -> DB -> result CacheError (option ListingShape);
  updateFSEntry : Entry -> DB -> result CacheError DB }.

(** The query by id returns the row of that id. *)
Class FsDbOk (DB : Type) `{FsDb DB} :=
  fetched_id : forall db id e, getFSEntryById id db = Ok (Some e) -> e_id e = id.

Definition ptr := positive.
Definition kRootInode : Z := 1.

(** [CacheStatsSnapshot]'s counters that the cache changes (stats/model/CacheStats). *)
Record Stats := mkStats {
  hits : Z; misses : Z; evictions : Z; inserts : Z; invalidations : Z; used_bytes : Z }.
Definition bump (n : Z) : Z := (n + 1) mod 2 ^ 64.
Definition record_hit (t : Stats) := mkStats (bump (hits t)) (misses t) (evictions t) (inserts t) (invalidations t) (used_bytes t).
Definition record_miss (t : Stats) := mkStats (hits t) (bump (misses t)) (evictions t) (inserts t) (invalidations t) (used_bytes t).
Definition record_insert (t : Stats) := mkStats (hits t) (misses t) (evictions t) (bump (inserts t)) (invalidations t) (used_bytes t).
Definition record_eviction (t : Stats) := mkStats (hits t) (misses t) (bump (evictions t)) (inserts t) (invalidations t) (used_bytes t).
Definition record_invalidation (t : Stats) := mkStats (hits t) (misses t) (evictions t) (inserts t) (bump (invalidations t)) (used_bytes t).
Definition set_used (used : Z) (t : Stats) := mkStats (hits t) (misses t) (evictions t) (inserts t) (invalidations t) used.

Record Cache (DB : Type) := mkCache {
  heap : gmap ptr Entry;
  database : DB;
  stats : Stats;
  nextInode : Z;
  inodeToPath : gmap Z str;
  pathToInode : gmap str Z;
  inodeToEntry : gmap Z ptr;
  pathToEntry : gmap str ptr;
  inodeToId : gmap Z Z;
  idToEntry : gmap Z ptr;
  childToParent : gmap Z Z;
  parentToChildren : gmap Z (gset Z) }.
Arguments mkCache {DB}.
Arguments heap {DB}. Arguments database {DB}. Arguments stats {DB}. Arguments nextInode {DB}.
Arguments inodeToPath {DB}. Arguments pathToInode {DB}. Arguments inodeToEntry {DB}. Arguments pathToEntry {DB}.
Arguments inodeToId {DB}. Arguments idToEntry {DB}. Arguments childToParent {DB}. Arguments parentToChildren {DB}.

Section Setters.
Context {DB : Type}.
Definition with_heap h (s : Cache DB) : Cache DB := mkCache h (database s) (stats s) (nextInode s) (inodeToPath s) (pathToInode s) (inodeToEntry s) (pathToEntry s) (inodeToId s) (idToEntry s) (childToParent s) (parentToChildren s).
Definition with_database d (s : Cache DB) : Cache DB := mkCache (heap s) d (stats s) (nextInode s) (inodeToPath s) (pathToInode s) (inodeToEntry s) (pathToEntry s) (inodeToId s) (idToEntry s) (childToParent s) (parentToChildren s).
Definition with_stats t (s : Cache DB) : Cache DB := mkCache (heap s) (database s) t (nextInode s) (inodeToPath s) (pathToInode s) (inodeToEntry s) (pathToEntry s) (inodeToId s) (idToEntry s) (childToParent s) (parentToChildren s).
(** The maps by inode and path, and the tree by id, change together. *)
Definition with_names n ip pi (s : Cache DB) : Cache DB := mkCache (heap s) (database s) (stats s) n ip pi (inodeToEntry s) (pathToEntry s) (inodeToId s) (idToEntry s) (childToParent s) (parentToChildren s).
Definition with_index ip pi ie pe ii (s : Cache DB) : Cache DB := mkCache (heap s) (database s) (stats s) (nextInode s) ip pi ie pe ii (idToEntry s) (childToParent s) (parentToChildren s).
Definition with_ids ide (s : Cache DB) : Cache DB := mkCache (heap s) (database s) (stats s) (nextInode s) (inodeToPath s) (pathToInode s) (inodeToEntry s) (pathToEntry s) (inodeToId s) ide (childToParent s) (parentToChildren s).
Definition with_tree cp pc (s : Cache DB) : Cache DB := mkCache (heap s) (database s) (stats s) (nextInode s) (inodeToPath s) (pathToInode s) (inodeToEntry s) (pathToEntry s) (inodeToId s) (idToEntry s) cp pc.
Definition on_stats (f : Stats -> Stats) (s : Cache DB) : Cache DB := with_stats (f (stats s)) s.
End Setters.

Definition set_inode (i : Z) (e : Entry) := mkEntry (e_id e) (e_name e) (e_base32_alias e) (e_size_bytes e) (e_parent_id e) (e_vault_id e) (Some i) (e_path e) (e_fuse_path e) (e_backing_path e) (e_isDirectory e) (e_file_count e) (e_subdirectory_count e) (e_updated_at e).
Definition set_paths (fuse backing : str) (e : Entry) := mkEntry (e_id e) (e_name e) (e_base32_alias e) (e_size_bytes e) (e_parent_id e) (e_vault_id e) (e_inode e) (e_path e) fuse backing (e_isDirectory e) (e_file_count e) (e_subdirectory_count e) (e_updated_at e).
Definition set_size (n : Z) (e : Entry) := mkEntry (e_id e) (e_name e) (e_base32_alias e) n (e_parent_id e) (e_vault_id e) (e_inode e) (e_path e) (e_fuse_path e) (e_backing_path e) (e_isDirectory e) (e_file_count e) (e_subdirectory_count e) (e_updated_at e).
Definition set_stats (r : StatRow) (e : Entry) := mkEntry (e_id e) (e_name e) (e_base32_alias e) (r_size_bytes r) (e_parent_id e) (e_vault_id e) (e_inode e) (e_path e) (e_fuse_path e) (e_backing_path e) (e_isDirectory e) (r_file_count r) (r_subdirectory_count r) (default (e_updated_at e) (r_updated_at r)).

(** ** Byte accounting and containment of paths *)
Definition safeSizeBytes (e : option Entry) : Z := match e with Some e => e_size_bytes e mod 2 ^ 64 | None => 0 end.
Definition addClamp (a b : Z) : Z := if u64max - a <? b then u64max else a + b.
Definition subClamp (a b : Z) : Z := if b <=? a then a - b else 0.

Definition pathContains (root candidate : str) : bool :=
  let rootStr := lexically_normal (makeAbsolute root) in
  let candidateStr := lexically_normal (makeAbsolute candidate) in
  if rootStr == $"/" then candidateStr == $"/"
  else if candidateStr == rootStr then true
  else match strip_prefix rootStr candidateStr with Some (c :: _) => c == slash | _ => false end.

(** ** State, exceptions and queries *)
Section Registry.
Context {DB : Type} `{FsDb DB}.

Definition M (A : Type) : Type := Monad.M (Cache DB) CacheError A.
Definition query {A} (q : DB -> result CacheError A) : M A := reads (fun s => q (database s)).

Definition load (s : Cache DB) (p : ptr) : option Entry := heap s !! p.
Definition store (p : ptr) (f : Entry -> Entry) (s : Cache DB) : Cache DB := with_heap (alter f p (heap s)) s.
(** An entry built from a row is a new object. *)
Definition alloc (e : Entry) : M ptr := fun s =>
  let p := fresh (dom (heap s)) in (Ok p, with_heap (<[p := e]> (heap s)) s).
Definition alloc_option (o : option Entry) : M (option ptr) :=
  match o with None => ret None | Some e => let! p := alloc e in ret (Some p) end.
Definition fetch (q : DB -> result CacheError (option Entry)) : M (option ptr) := bind (query q) alloc_option.
Fixpoint alloc_all (l : list (option Entry)) : M (list (option ptr)) :=
  match l with
  | [] => ret []
  | o :: l' => let! p := alloc_option o in let! ps := alloc_all l' in ret (p :: ps)
  end.
(** [db::query::fs::Entry::updateFSEntry(entry)] *)
Definition write_row (p : ptr) : M unit := fun s =>
  match load s p with
  | None => (Err InvalidArgument, s)
  | Some e => match updateFSEntry e (database s) with Ok d => (Ok tt, with_database d s) | Err x => (Err x, s) end
  end.

(** ** The tree of ids *)
Definition drop_child (pid id : Z) (pc : gmap Z (gset Z)) : gmap Z (gset Z) :=
  match pc !! pid with
  | None => pc
  | Some siblings =>
      let rest := siblings ∖ {[id]} in
      if bool_decide (rest = ∅) then delete pid pc else <[pid := rest]> pc
  end.

Definition unlinkChild (id : Z) (s : Cache DB) : Cache DB :=
  match childToParent s !! id with
  | None => s
  | Some pid => with_tree (delete id (childToParent s)) (drop_child pid id (parentToChildren s)) s
  end.

Definition linkChild (id : Z) (parentId : option Z) (s : Cache DB) : Cache DB :=
  match parentId with
  | None => unlinkChild id s
  | Some pid =>
      let pc := match childToParent s !! id with
                | Some old => if old !== pid then drop_child old id (parentToChildren s) else parentToChildren s
                | None => parentToChildren s
                end in
      with_tree (<[id := pid]> (childToParent s)) (<[pid := {[id]} ∪ default ∅ (pc !! pid)]> pc) s
  end.

(** ** Inodes and paths *)
Definition assignInode (path : str) (s : Cache DB) : Z * Cache DB :=
  match pathToInode s !! collapse path with
  | Some ino => (ino, s)
  | None =>
      let ino := nextInode s in
      (ino, with_names (bump ino) (<[ino := path]> (inodeToPath s)) (<[collapse path := ino]> (pathToInode s)) s)
  end.
Definition do_assign (path : str) : M Z := fun s => let '(i, s') := assignInode path s in (Ok i, s').
Definition getOrAssignInode (path : str) : M Z := if is_empty path then throw EmptyPath else do_assign path.

Definition resolvePath (ino : Z) : M str :=
  let! s := get in match inodeToPath s !! ino with None => throw (InodeNotFound ino) | Some p => ret p end.

Definition linkPath (absPath : str) (ino : Z) (s : Cache DB) : Cache DB :=
  match pathToInode s !! collapse absPath with
  | Some _ => s
  | None => with_names (nextInode s) (<[ino := absPath]> (inodeToPath s)) (<[collapse absPath := ino]> (pathToInode s)) s
  end.

Definition entryExists (absPath : str) (s : Cache DB) : bool :=
  bool_decide (is_Some (pathToEntry s !! collapse (makeAbsolute absPath))).
Definition getEntryFromInode (ino : Z) (s : Cache DB) : option ptr := inodeToEntry s !! ino.

(** ** Caching an entry *)

(** [unlocked paths]: every name of an inode goes, with the entry it leads to. *)
Definition drop_names (keep : str -> Z -> bool) (s : Cache DB) : Cache DB :=
  with_index (inodeToPath s)
    (filter (fun kv => keep kv.1 kv.2 = true) (pathToInode s)) (inodeToEntry s)
    (filter (fun kv => match pathToInode s !! kv.1 with Some i => keep kv.1 i | None => true end = true) (pathToEntry s))
    (inodeToId s) s.

Definition eraseInode (staleIno : Z) (s : Cache DB) : Cache DB :=
  let s := drop_names (fun _ i => i !== staleIno) s in
  with_index (delete staleIno (inodeToPath s)) (pathToInode s) (delete staleIno (inodeToEntry s))
    (pathToEntry s) (delete staleIno (inodeToId s)) s.

Definition erasePath (stalePath : str) (s : Cache DB) : Cache DB :=
  with_index (inodeToPath s) (delete (collapse stalePath) (pathToInode s)) (inodeToEntry s)
    (delete (collapse stalePath) (pathToEntry s)) (inodeToId s) s.

(** Does the pointer lead to the entry with this id? *)
Definition has_id (s : Cache DB) (id : Z) (p : ptr) : bool :=
  match load s p with Some e => e_id e == id | None => false end.

(** The paths under which an entry of this id is cached, apart from [fuse]. *)
Definition drop_aliases (id : Z) (fuse : option str) (s : Cache DB) : Cache DB :=
  let other k := match fuse with Some f => k !== collapse f | None => true end in
  with_index (inodeToPath s)
    (filter (fun kv => match pathToEntry s !! kv.1 with Some p => has_id s id p && other kv.1 | None => false end = false) (pathToInode s))
    (inodeToEntry s)
    (filter (fun kv => has_id s id kv.2 && other kv.1 = false) (pathToEntry s))
    (inodeToId s) s.

(** What the entry replaces: its old path and inode, the other names of its inode,
    the other paths of its id, and another inode's claim on its path. *)
Definition rekey (e : Entry) (ino : Z) (s : Cache DB) : Cache DB :=
  let s1 := match idToEntry s !! e_id e ≫= load s with
            | None => s
            | Some old =>
                let s := if path_eq (e_fuse_path old) (e_fuse_path e) then s else erasePath (e_fuse_path old) s in
                match e_inode old with
                | Some i => if i !== ino then eraseInode i s else s
                | None => s
                end
            end in
  let s2 := drop_names (fun k i => negb ((i == ino) && (k !== collapse (e_fuse_path e)))) s1 in
  let s3 := drop_aliases (e_id e) (Some (e_fuse_path e)) s2 in
  match pathToInode s3 !! collapse (e_fuse_path e) with
  | Some i => if i !== ino then eraseInode i s3 else s3
  | None => s3
  end.

(** The indexing of one entry, once it is known to have an inode. *)
Definition index (p : ptr) (e : Entry) (ino : Z) (s : Cache DB) : Cache DB :=
  let k := collapse (e_fuse_path e) in
  let s := with_index (<[ino := e_fuse_path e]> (inodeToPath s)) (<[k := ino]> (pathToInode s))
             (<[ino := p]> (inodeToEntry s)) (<[k := p]> (pathToEntry s)) (<[ino := e_id e]> (inodeToId s)) s in
  linkChild (e_id e) (option_map u32 (e_parent_id e)) (with_ids (<[e_id e := p]> (idToEntry s)) s).

Definition insert_entry (o : option ptr) : M unit :=
  let! s := get in
  match o with
  | None => ret tt
  | Some p =>
      match load s p with
      | None => ret tt
      | Some e => match e_inode e with None => throw EntryHasNoInode | Some ino => modify (index p e ino) end
      end
  end.

(** The totals of the parent chain, into the cached directories or by caching them. *)
Definition write_stats (r : StatRow) : M unit :=
  let! s := get in
  match idToEntry s !! r_id r with
  | Some d => modify (store d (set_stats r))
  | None => let! q := fetch (getFSEntryById (r_id r)) in insert_entry q
  end.

Definition getEntryById (id : Z) : M (option ptr) :=
  let! s := get in
  match idToEntry s !! id with
  | Some p => modify (on_stats record_hit);; ret (Some p)
  | None => modify (on_stats record_miss);; fetch (getFSEntryById id)
  end.

(** The preflight: an entry below the root has a vault, and paths from its parent
    when it comes without them. *)
Definition preflight (p : ptr) (e : Entry) (ino : Z) : M unit :=
  if ino == kRootInode then ret tt
  else match e_vault_id e with
  | None => throw EntryHasNoVault
  | Some _ =>
      if is_empty (e_fuse_path e) || is_empty (e_backing_path e) then
        match e_parent_id e with
        | None => throw EntryHasNoParent
        | Some pid =>
            let! q := getEntryById (u32 pid) in
            let! s := get in
            match q ≫= load s with
            | None => throw NoParentEntry
            | Some parent => modify (store p (set_paths (path_div (e_fuse_path parent) (e_name e))
                                                        (path_div (e_backing_path parent) (e_base32_alias e))))
            end
        end
      else ret tt
  end.

(** The entry the new one replaces: by inode, else by path, else by id. *)
Definition replaced (e : Entry) (ino : Z) (s : Cache DB) : option Entry :=
  match inodeToEntry s !! ino ≫= load s with
  | Some old => Some old
  | None => match pathToEntry s !! collapse (e_fuse_path e) ≫= load s with
            | Some old => Some old
            | None => idToEntry s !! e_id e ≫= load s
            end
  end.

Definition account (old : option Entry) (newSize : Z) (t : Stats) : Stats :=
  match old with
  | None => set_used (addClamp (used_bytes t) newSize) (record_insert t)
  | Some _ =>
      let oldSize := safeSizeBytes old in
      set_used (if oldSize <=? newSize then addClamp (used_bytes t) (newSize - oldSize)
                else subClamp (used_bytes t) (oldSize - newSize)) t
  end.

Definition upstream_rows (e : Entry) (isFirstSeeding : bool) : M (list StatRow) :=
  match e_parent_id e with
  | Some pid => if isFirstSeeding then ret [] else query (collectParentStats (u32 pid))
  | None => ret []
  end.

(** The critical section of [cacheEntry]. *)
Definition put_entry (p : ptr) (ino : Z) (rows : list StatRow) : M unit :=
  let! s := get in
  match load s p with
  | None => throw InvalidArgument
  | Some e =>
      let old := replaced e ino s in
      modify (rekey e ino);; insert_entry (Some p);; for_each rows write_stats;;
      modify (on_stats (account old (safeSizeBytes (Some e))))
  end.

Definition cacheEntry (p : ptr) (isFirstSeeding : bool) : M unit :=
  let! s := get in
  match load s p with
  | None => throw InvalidArgument
  | Some e =>
      match e_inode e with
      | None => throw InvalidArgument
      | Some ino =>
          preflight p e ino;;
          let! rows := upstream_rows e isFirstSeeding in
          put_entry p ino rows
      end
  end.

Definition updateEntry (p : ptr) : M unit := write_row p;; cacheEntry p false.

(** ** Eviction *)
Definition evictIno (ino : Z) (s : Cache DB) : Cache DB :=
  if bool_decide (inodeToPath s !! ino = None) && bool_decide (inodeToId s !! ino = None) then s
  else
    let removedSize :=
      match inodeToEntry s !! ino with
      | Some p => safeSizeBytes (load s p)
      | None => match inodeToPath s !! ino with
                | Some path => safeSizeBytes (pathToEntry s !! collapse path ≫= load s)
                | None => match inodeToId s !! ino with
                          | Some id => safeSizeBytes (idToEntry s !! id ≫= load s)
                          | None => 0
                          end
                end
      end in
    let id := inodeToId s !! ino in
    let s := eraseInode ino s in
    let s := match id with
             | Some id => unlinkChild id (with_ids (delete id (idToEntry s)) s)
             | None => s
             end in
    on_stats (fun t => record_eviction (set_used (subClamp (used_bytes t) removedSize) t)) s.

(** [decrementInodeRef]: only the last reference evicts. *)
Definition decrementInodeRef (ino nlookup : Z) (s : Cache DB) : Cache DB :=
  if 1 <? nlookup then s else evictIno ino s.

(** The first inode recorded for an id. *)
Definition inode_of_id (id : Z) (s : Cache DB) : option Z :=
  match base.filter (fun kv : Z * Z => kv.2 = id) (map_to_list (inodeToId s)) with
  | (i, _) :: _ => Some i
  | [] => None
  end.

Definition evictId (id : Z) (s : Cache DB) : Cache DB :=
  let entry := idToEntry s !! id ≫= load s in
  let ino := match entry ≫= e_inode with Some i => Some i | None => inode_of_id id s end in
  match entry, ino with
  | None, None => s
  | _, _ =>
      let direct := safeSizeBytes entry in
      let removedSize :=
        match ino with
        | Some i => if direct =? 0 then safeSizeBytes (inodeToEntry s !! i ≫= load s) else direct
        | None => direct
        end in
      let s := match ino with Some i => eraseInode i s | None => s end in
      let s := match entry with Some e => erasePath (e_fuse_path e) s | None => s end in
      let s := drop_aliases id None s in
      let gone i := bool_decide (inodeToId s !! i = Some id) in
      let s := with_index (filter (fun kv => gone kv.1 = false) (inodeToPath s)) (pathToInode s)
                 (filter (fun kv => gone kv.1 = false) (inodeToEntry s)) (pathToEntry s)
                 (filter (fun kv => kv.2 <> id) (inodeToId s)) s in
      let s := unlinkChild id (with_ids (delete id (idToEntry s)) s) in
      on_stats (fun t => record_eviction (set_used (subClamp (used_bytes t) removedSize) t)) s
  end.

Definition evictPath (path : str) (s : Cache DB) : Cache DB :=
  match pathToInode s !! collapse path with
  | None => s
  | Some ino => evictIno ino (on_stats record_invalidation s)
  end.

Section Vault.
Variables (vaultId : Z) (fuseRoot : str).

Definition matchPaths : bool := negb (is_empty fuseRoot) && negb (path_eq (makeAbsolute fuseRoot) $"/").
Definition inVault (e : Entry) : bool :=
  match e_vault_id e with Some v => u32 v =? vaultId | None => false end
  || matchPaths && negb (is_empty (e_fuse_path e)) && pathContains fuseRoot (e_fuse_path e).
Definition underRoot (path : str) : bool := matchPaths && pathContains fuseRoot path.
Definition leads_in (s : Cache DB) (p : ptr) : bool :=
  match load s p with Some e => inVault e | None => false end.

Definition vault_ids (s : Cache DB) : gset Z := dom (filter (fun kv => leads_in s kv.2 = true) (idToEntry s)).
Definition vault_inodes (s : Cache DB) : gset Z :=
  (list_to_set (omap (fun kv : Z * ptr => load s kv.2 ≫= e_inode)
     (map_to_list (filter (fun kv => leads_in s kv.2 = true) (idToEntry s))))
   ∪ dom (filter (fun kv => leads_in s kv.2 = true) (inodeToEntry s))
   ∪ dom (filter (fun kv => kv.2 ∈ vault_ids s) (inodeToId s))
   ∪ list_to_set (map snd (map_to_list (filter (fun kv => underRoot kv.1 = true) (pathToInode s)))))
  ∖ {[kRootInode]}.
Definition vault_size (s : Cache DB) : Z :=
  foldr (fun (kv : Z * ptr) n => addClamp n (safeSizeBytes (load s kv.2))) 0
    (map_to_list (filter (fun kv => leads_in s kv.2 = true) (idToEntry s))).

Definition evictVault (s : Cache DB) : Cache DB :=
  let ids := vault_ids s in
  let inodes := vault_inodes s in
  if bool_decide (ids = ∅) && bool_decide (inodes = ∅) then s
  else
    let removedSize := vault_size s in
    let s := with_index
      (filter (fun kv => kv.1 ∉ inodes) (inodeToPath s))
      (filter (fun kv => kv.2 ∉ inodes /\ underRoot kv.1 = false) (pathToInode s))
      (filter (fun kv => kv.1 ∉ inodes) (inodeToEntry s))
      (filter (fun kv => underRoot kv.1 = false /\ leads_in s kv.2 = false /\
                         match load s kv.2 with Some e => bool_decide (e_id e ∈ ids) | None => false end = false) (pathToEntry s))
      (filter (fun kv => kv.1 ∉ inodes /\ kv.2 ∉ ids) (inodeToId s))
      (with_ids (filter (fun kv => kv.1 ∉ ids) (idToEntry s)) s) in
    let s := set_fold unlinkChild s ids in
    on_stats (fun t => record_invalidation (set_used (subClamp (used_bytes t) removedSize) t)) s.
End Vault.

(** ** Lookups that reach the database *)

(** The cached vault root with the longest path that contains [path]. *)
Definition better_root (path : str) (s : Cache DB) (kv : Z * ptr) (best : option Entry) : option Entry :=
  match load s kv.2 with
  | None => best
  | Some c =>
      if match e_vault_id c with None => true | Some _ => false end || negb (path_eq (e_path c) $"/") then best
      else if is_empty (e_fuse_path c) || negb (pathContains (e_fuse_path c) path) then best
      else match best with
           | None => Some c
           | Some b => if (length (e_fuse_path b) <? length (e_fuse_path c))%nat then Some c else best
           end
  end.
Definition vaultRootOf (path : str) (s : Cache DB) : option Entry :=
  foldl (fun best kv => better_root path s kv best) None (map_to_list (idToEntry s)).

Definition vaultPath (path : str) (s : Cache DB) : option (Z * str) :=
  match vaultRootOf path s with
  | None => None
  | Some root =>
      let rel := if path_eq path (e_fuse_path root) then $"/" else makeAbsolute (lexically_relative path (e_fuse_path root)) in
      match e_vault_id root with Some v => Some (u32 v, rel) | None => None end
  end.

Definition getEntry_miss (path : str) : M (option ptr) :=
  let! s := get in
  match vaultPath path s with
  | None => ret None
  | Some (vault, rel) =>
      let! q := fetch (getFSEntryByPath vault rel) in
      let! s := get in
      match q, q ≫= load s with
      | Some p, Some e =>
          match e_inode e with
          | Some _ => cacheEntry p false;; ret q
          | None =>
              let! i := do_assign (if is_empty (e_fuse_path e) then path else e_fuse_path e) in
              modify (store p (set_inode i));; write_row p;; cacheEntry p false;; ret q
          end
      | _, _ => ret q
      end
  end.

Definition getEntry (absPath : str) : M (option ptr) :=
  let path := makeAbsolute absPath in
  let! s := get in
  match pathToEntry s !! collapse path with
  | Some p => modify (on_stats record_hit);; ret (Some p)
  | None => modify (on_stats record_miss);; catch (getEntry_miss path) None
  end.

Definition getEntry_by_inode (ino : Z) : M (option ptr) :=
  let! s := get in
  match inodeToEntry s !! ino with
  | Some p => modify (on_stats record_hit);; ret (Some p)
  | None =>
      modify (on_stats record_miss);;
      let! q := fetch (getFSEntryByInode ino) in
      match q with None => ret None | Some p => cacheEntry p false;; ret q end
  end.

Definition resolveInode (absPath : str) : M Z :=
  let! s := get in
  match pathToInode s !! collapse absPath with
  | Some i => ret i
  | None =>
      let! q := getEntry absPath in
      let! s := get in
      match q ≫= load s with
      | None => ret kRootInode
      | Some e =>
          let! ino := match e_inode e with Some i => ret i | None => getOrAssignInode absPath end in
          if ino == kRootInode then ret kRootInode
          else modify (linkPath absPath ino);; ret ino
      end
  end.

(** [refreshDirStats]: false when the directory no longer exists. *)
Definition refresh_row (r : StatRow) : M unit :=
  let! s := get in
  match idToEntry s !! r_id r with
  | Some d => match load s d with
              | Some e => if e_isDirectory e then modify (store d (set_stats r)) else ret tt
              | None => ret tt
              end
  | None => ret tt
  end.
Definition refreshDirStats (dirId : Z) : M bool :=
  let! rows := query (collectParentStats dirId) in
  if is_empty rows then ret false else for_each rows refresh_row;; ret true.

(** ** Listing *)
Definition children (s : Cache DB) (pid : Z) : list ptr :=
  match parentToChildren s !! pid with
  | None => []
  | Some cs => omap (fun c => idToEntry s !! c) (base.elements cs)
  end.

(** The loop over [entries], which grows while it runs: [todo] is what lies at and
    after the index, and the result is what it ends with. *)
Fixpoint walk (fuel : nat) (s : Cache DB) (visited : gset Z) (todo : list ptr) : option (list ptr) :=
  match todo with
  | [] => Some []
  | p :: rest =>
      match fuel with
      | O => None
      | S fuel =>
          option_map (cons p)
            (match load s p with
             | None => walk fuel s visited rest
             | Some e =>
                 if bool_decide (e_id e ∈ visited) then walk fuel s visited rest
                 else walk fuel s ({[e_id e]} ∪ visited) (rest ++ children s (e_id e))
             end)
      end
  end.

Definition listing_fuel (s : Cache DB) : nat := 2 * size (childToParent s).
Definition cached_listing (parentId : Z) (recursive : bool) (s : Cache DB) : option (list ptr) :=
  if recursive then walk (listing_fuel s) s ∅ (children s parentId) else Some (children s parentId).

(** [None]: the loop would not end. *)
Definition listDir (parentId : Z) (recursive : bool) : M (option (list (option ptr))) :=
  let! shape := query (listingShape parentId) in
  match shape with
  | None => throw ParentNotFound
  | Some shape =>
      let numEntries := if recursive then sh_subtree shape else sh_direct shape in
      let! s := get in
      match cached_listing parentId recursive s with
      | None => ret None
      | Some entries =>
          if Z.of_nat (length entries) =? numEntries then ret (Some (map Some entries))
          else
            let! expected := query (if recursive then db_listSubtree parentId else db_listDir parentId false) in
            let! ps := alloc_all expected in ret (Some ps)
      end
  end.

(** ** Construction *)
Definition initRoot : M unit :=
  let! q := fetch getRootEntry in
  let! s := get in
  match q, q ≫= load s with
  | Some p, Some e =>
      (if e_inode e == None then
         let! i := getOrAssignInode $"/" in modify (store p (set_inode i));; write_row p
       else if e_inode e !== Some kRootInode then modify (store p (set_inode kRootInode));; write_row p
       else ret tt);;
      cacheEntry p false
  | _, _ => throw RootNotFound
  end.

Definition restore_one (o : option ptr) : M unit :=
  let! s := get in
  match o, o ≫= load s with
  | Some p, Some e =>
      match e_inode e with
      | Some _ => cacheEntry p true
      | None =>
          let! i := getOrAssignInode (e_fuse_path e) in
          modify (store p (set_inode i));; write_row p;; cacheEntry p true
      end
  | _, _ => ret tt
  end.

Definition restoreCache : M unit :=
  let! q := getEntry_by_inode kRootInode in
  let! s := get in
  match q ≫= load s with
  | None => throw RootNotFound
  | Some root =>
      let! rows := query (db_listDir (e_id root) true) in
      let! ps := alloc_all rows in for_each ps restore_one
  end.

(** The constructor, on the heap of the objects other parts hold. *)
Definition empty_cache (h : gmap ptr Entry) (db : DB) : Cache DB :=
  mkCache h db (mkStats 0 0 0 0 0 0) 2 {[kRootInode := $"/"]} {[collapse $"/" := kRootInode]} ∅ ∅ ∅ ∅ ∅ ∅.
Definition Registry : M unit :=
  let! n := query getNextInode in
  modify (fun s => with_names n (inodeToPath s) (pathToInode s) s);;
  initRoot;; restoreCache.
End Registry.

(** ** Well-formed caches *)

(** [parentToChildren] is the inverse of [childToParent] and holds no empty set. *)
Definition inverse_tree (cp : gmap Z Z) (pc : gmap Z (gset Z)) : Prop :=
  (forall c pid, cp !! c = Some pid <-> exists cs, pc !! pid = Some cs /\ c ∈ cs) /\
  (forall pid cs, pc !! pid = Some cs -> cs <> ∅).

Section WellFormed.
Context {DB : Type} `{FsDb DB}.
Implicit Types (s t : Cache DB) (p q : ptr) (e : Entry) (i id pid : Z) (k : str).

Record wf_index (s : Cache DB) : Prop := {
  wf_id : forall id p, idToEntry s !! id = Some p ->
    exists e i, load s p = Some e /\ e_id e = id /\ e_inode e = Some i;
  wf_ino : forall i p, inodeToEntry s !! i = Some p -> exists e, load s p = Some e /\ e_inode e = Some i;
  wf_inoid : forall i id, inodeToId s !! i = Some id ->
    exists p, inodeToEntry s !! i = Some p /\ idToEntry s !! id = Some p;
  wf_path : forall k p, pathToEntry s !! k = Some p ->
    exists e, load s p = Some e /\ idToEntry s !! e_id e = Some p /\
      (forall i, e_inode e = Some i -> inodeToId s !! i = Some (e_id e) -> pathToInode s !! k = Some i);
  wf_names : forall k i, pathToInode s !! k = Some i -> is_Some (inodeToPath s !! i);
  wf_paths : forall i p, inodeToEntry s !! i = Some p -> is_Some (inodeToPath s !! i) }.

Record wf (s : Cache DB) : Prop := {
  wf_indexes : wf_index s;
  wf_tree : inverse_tree (childToParent s) (parentToChildren s);
  wf_cached : forall c pid, childToParent s !! c = Some pid -> is_Some (idToEntry s !! c);
  wf_used : 0 <= used_bytes (stats s) <= u64max }.

(** *** The tree *)
Lemma drop_child_inverse cp pc c pid : inverse_tree cp pc -> cp !! c = Some pid ->
  inverse_tree (delete c cp) (drop_child pid c pc).
Proof.
  intros [Hinv Hne] Hc. unfold drop_child.
  destruct (proj1 (Hinv c pid) Hc) as (cs & Hcs & Hin). rewrite Hcs.
  split.
  - intros c' pid'. destruct (decide (c' = c)) as [->|Hcc].
    + rewrite lookup_delete_eq. split; [done|]. intros (cs' & Hcs' & Hin'). exfalso.
      case_bool_decide; [apply lookup_delete_Some in Hcs' as [? Hcs']|apply lookup_insert_Some in Hcs' as [[<- <-]|[? Hcs']]]; [|set_solver|];
        (assert (cp !! c = Some pid') by (apply Hinv; eauto); congruence).
    + rewrite lookup_delete_ne by done. rewrite Hinv.
      case_bool_decide as Hempty; split; intros (cs' & Hcs' & Hin').
      * exists cs'. split; [|done]. apply lookup_delete_Some. split; [|done]. intros <-. set_solver.
      * apply lookup_delete_Some in Hcs' as [? ?]. eauto.
      * destruct (decide (pid' = pid)) as [->|?].
        -- exists (cs ∖ {[c]}). rewrite lookup_insert_eq. split; [done|]. set_solver.
        -- exists cs'. by rewrite lookup_insert_ne.
      * apply lookup_insert_Some in Hcs' as [[<- <-]|[? Hcs']]; [exists cs; set_solver|eauto].
  - intros pid' cs'. case_bool_decide.
    + intros [? ?]%lookup_delete_Some. eauto.
    + intros [[<- <-]|[? ?]]%lookup_insert_Some; [done|eauto].
Qed.

Lemma link_inverse cp pc c pid : inverse_tree cp pc -> cp !! c = None ->
  inverse_tree (<[c := pid]> cp) (<[pid := {[c]} ∪ default ∅ (pc !! pid)]> pc).
Proof.
  intros [Hinv Hne] Hc. split.
  - intros c' pid'. destruct (decide (c' = c)) as [->|?].
    + rewrite lookup_insert_eq. split.
      * intros [= <-]. eexists. rewrite lookup_insert_eq. split; [done|]. set_solver.
      * intros (cs & [[<- _]|[? Hcs]]%lookup_insert_Some & Hin); [done|].
        assert (cp !! c = Some pid') by (apply Hinv; eauto). congruence.
    + rewrite lookup_insert_ne by done. rewrite Hinv. split; intros (cs & Hcs & Hin).
      * destruct (decide (pid' = pid)) as [->|?].
        -- eexists. rewrite lookup_insert_eq. split; [done|]. rewrite Hcs. set_solver.
        -- exists cs. by rewrite lookup_insert_ne.
      * apply lookup_insert_Some in Hcs as [[<- <-]|[? Hcs]]; [|eauto].
        destruct (pc !! pid) as [cs|] eqn:E; simpl in Hin; [exists cs|]; set_solver.
  - intros pid' cs [[<- <-]|[? ?]]%lookup_insert_Some; [set_solver|eauto].
Qed.

Lemma unlink_inverse id s : inverse_tree (childToParent s) (parentToChildren s) ->
  inverse_tree (childToParent (unlinkChild id s)) (parentToChildren (unlinkChild id s)).
Proof.
  intros Hs. unfold unlinkChild. destruct (childToParent s !! id) eqn:E; [|done]. by apply drop_child_inverse.
Qed.

Lemma unlink_lookup id s c : childToParent (unlinkChild id s) !! c = if decide (c = id) then None else childToParent s !! c.
Proof.
  unfold unlinkChild. destruct (childToParent s !! id) eqn:E; simpl; case_decide; subst; try done.
  - by rewrite lookup_delete_eq.
  - by rewrite lookup_delete_ne.
Qed.

Lemma linkChild_inverse id o s : inverse_tree (childToParent s) (parentToChildren s) ->
  inverse_tree (childToParent (linkChild id o s)) (parentToChildren (linkChild id o s)).
Proof.
  intros Hs. destruct o as [pid|]; simpl; [|by apply unlink_inverse].
  destruct (childToParent s !! id) as [old|] eqn:E; [|by apply link_inverse].
  destruct (eqb old pid) eqn:Eo; bsimpl; simpl.
  - subst. destruct Hs as [Hinv Hne]. rewrite insert_id by done.
    destruct (proj1 (Hinv _ _) E) as (cs & Hcs & Hin). rewrite Hcs. simpl.
    replace ({[id]} ∪ cs) with cs by set_solver. by rewrite insert_id.
  - rewrite <- insert_delete_eq. apply link_inverse; [|apply lookup_delete_eq]. by apply drop_child_inverse.
Qed.

Lemma linkChild_lookup id o s c :
  childToParent (linkChild id o s) !! c = if decide (c = id) then o else childToParent s !! c.
Proof.
  destruct o as [pid|]; simpl; [|apply unlink_lookup].
  case_decide; subst; [by rewrite lookup_insert_eq|by rewrite lookup_insert_ne].
Qed.

(** *** Operations that shrink the indexes *)

(** [wf_index] reads the heap and the six indexes only. *)
Definition index_view s := (heap s, inodeToPath s, pathToInode s, inodeToEntry s, pathToEntry s, inodeToId s, idToEntry s).

Lemma wf_index_view s t : index_view s = index_view t -> wf_index s -> wf_index t.
Proof.
  destruct s, t. unfold index_view. simpl. intros [= -> -> -> -> -> -> ->] [H1 H2 H3 H4 H5 H6]. by constructor.
Qed.

Lemma unlink_view id s : index_view (unlinkChild id s) = index_view s.
Proof. unfold unlinkChild. by destruct (childToParent s !! id). Qed.
Lemma link_view id o s : index_view (linkChild id o s) = index_view s.
Proof. destruct o; simpl; [done|apply unlink_view]. Qed.

(** The conditions under which dropping keys of the indexes keeps them coherent. *)
Record shrinks s t : Prop := {
  sh_heap : heap t = heap s;
  sh_id : idToEntry t ⊆ idToEntry s;
  sh_ino : inodeToEntry t ⊆ inodeToEntry s;
  sh_inoid : inodeToId t ⊆ inodeToId s;
  sh_path : pathToEntry t ⊆ pathToEntry s;
  sh_names : pathToInode t ⊆ pathToInode s;
  sh_paths : inodeToPath t ⊆ inodeToPath s;
  sh_keep_id : forall i id, inodeToId t !! i = Some id ->
    is_Some (inodeToEntry t !! i) /\ is_Some (idToEntry t !! id);
  sh_keep_path : forall k p e, pathToEntry t !! k = Some p -> load s p = Some e -> is_Some (idToEntry t !! e_id e);
  sh_keep_name : forall k p i e, pathToEntry t !! k = Some p -> pathToInode s !! k = Some i ->
    load s p = Some e -> inodeToId t !! i = Some (e_id e) -> is_Some (pathToInode t !! k);
  sh_keep_root : forall k i, pathToInode t !! k = Some i -> is_Some (inodeToPath t !! i);
  sh_keep_ino : forall i p, inodeToEntry t !! i = Some p -> is_Some (inodeToPath t !! i) }.

Lemma subset_some {K} `{Countable K} {A} (m m' : gmap K A) (k : K) (a : A) :
  m' ⊆ m -> is_Some (m' !! k) -> m !! k = Some a -> m' !! k = Some a.
Proof. intros Hs [b Hb] Ha. pose proof (lookup_weaken _ _ _ _ Hb Hs). congruence. Qed.

Lemma wf_index_shrink s t : wf_index s -> shrinks s t -> wf_index t.
Proof.
  intros [H1 H2 H3 H4 H5 H6] [Hh S1 S2 S3 S4 S5 S6 K1 K2 K3 K4 K5]. unfold load in *.
  split; unfold load; rewrite ?Hh.
  - intros id p Hp. apply H1. by eapply lookup_weaken.
  - intros i p Hp. eapply H2. by eapply lookup_weaken.
  - intros i id Hi. destruct (K1 _ _ Hi) as [Ki Kd].
    destruct (H3 i id) as (p & Hp & Hq); [by eapply lookup_weaken|]. exists p. eauto using subset_some.
  - intros k p Hk. destruct (H4 k p) as (e & He & Hid & Hname); [by eapply lookup_weaken|].
    exists e. split; [done|]. split; [eauto using subset_some|]. intros i Hi Hii.
    assert (pathToInode s !! k = Some i) by (apply Hname; [done|by eapply lookup_weaken]).
    eauto using subset_some.
  - done.
  - done.
Qed.

Lemma filter_sub {K} `{Countable K} {A} (P : K * A -> Prop) `{forall x, Decision (P x)} (m : gmap K A) : filter P m ⊆ m.
Proof. apply map_filter_subseteq. Qed.

(** Reading a lookup of an operation's maps. *)
Ltac lookups :=
  repeat match goal with
  | H : filter _ _ !! _ = Some _ |- _ => apply map_lookup_filter_Some in H as [? ?]
  | H : delete _ _ !! _ = Some _ |- _ => apply lookup_delete_Some in H as [? ?]
  end.

Lemma cached_path_id s k p e : wf_index s -> pathToEntry s !! k = Some p -> load s p = Some e -> is_Some (idToEntry s !! e_id e).
Proof. intros W Hk He. destruct (wf_path _ W _ _ Hk) as (e' & He' & Hid & _). replace e with e' in * by congruence. eauto. Qed.

Lemma recorded_both s i id : wf_index s -> inodeToId s !! i = Some id ->
  is_Some (inodeToEntry s !! i) /\ is_Some (idToEntry s !! id).
Proof. intros W Hi. destruct (wf_inoid _ W _ _ Hi) as (p & -> & ->). eauto. Qed.
#[local] Hint Resolve cached_path_id recorded_both filter_sub delete_subseteq wf_names wf_paths : core.

Lemma kept_by_filter {K} `{Countable K} {A} (P : K * A -> Prop) `{forall x, Decision (P x)} (m : gmap K A) (k : K) (a : A) :
  m !! k = Some a -> P (k, a) -> is_Some (filter P m !! k).
Proof. intros. exists a. by apply map_lookup_filter_Some. Qed.

Lemma kept_by_delete {K} `{Countable K} {A} (m : gmap K A) (k k' : K) :
  is_Some (m !! k) -> k' <> k -> is_Some (delete k' m !! k).
Proof. intros. by rewrite lookup_delete_ne. Qed.

(** The side conditions of [shrinks]. *)
Ltac shrink W :=
  apply (wf_index_shrink _ _ W); constructor; simpl; intros; lookups; simpl in *;
  first [ done | apply delete_subseteq | apply filter_sub
        | eapply kept_by_filter; [eassumption|]; simpl in *; simplify_option_eq; by eauto
        | apply kept_by_delete; [by eauto|]; bsimpl; congruence
        | split; [apply kept_by_delete; [|done]|]; by (eapply recorded_both; eauto)
        | by eauto ].

Lemma drop_names_wf keep s : wf_index s -> wf_index (drop_names keep s).
Proof. intros W. shrink W. Qed.

Lemma eraseInode_wf i0 s : wf_index s -> wf_index (eraseInode i0 s).
Proof. intros W. shrink W. Qed.

Lemma erasePath_wf (path : str) s : wf_index s -> wf_index (erasePath path s).
Proof. intros W. shrink W. Qed.

Lemma drop_aliases_wf id fuse s : wf_index s -> wf_index (drop_aliases id fuse s).
Proof. intros W. shrink W. Qed.

(** *** Indexing an entry *)
(** No other inode claims the id, and the id is cached under no other path. *)
Definition unclaimed id i (fuse : str) s : Prop :=
  (forall j, inodeToId s !! j = Some id -> j = i) /\
  (forall k q, pathToEntry s !! k = Some q -> has_id s id q = true -> k = collapse fuse).

Lemma has_id_true s id p : has_id s id p = true <-> exists e, load s p = Some e /\ e_id e = id.
Proof. unfold has_id. destruct (load s p); [|naive_solver]. rewrite eqb_eq. naive_solver. Qed.

Lemma index_wf_index p e i s : wf_index s -> load s p = Some e -> e_inode e = Some i ->
  unclaimed (e_id e) i (e_fuse_path e) s -> wf_index (index p e i s).
Proof.
  intros [H1 H2 H3 H4 H5 H6] He Hi [Hown Hpath]. unfold index.
  match goal with |- wf_index (linkChild ?a ?b ?t) => apply (wf_index_view t); [by rewrite link_view|] end.
  unfold load in *. constructor; unfold load; simpl.
  - intros id q [[<- <-]|[? Hq]]%lookup_insert_Some; eauto.
  - intros j q [[<- <-]|[? Hq]]%lookup_insert_Some; eauto.
  - intros j id [[<- <-]|[Hj Hid]]%lookup_insert_Some.
    + exists p. by rewrite !lookup_insert_eq.
    + assert (e_id e <> id) by (intros <-; apply Hj; symmetry; eauto).
      rewrite !lookup_insert_ne by done. eauto.
  - intros k q [[<- <-]|[Hk Hq]]%lookup_insert_Some.
    + exists e. rewrite !lookup_insert_eq. split_and!; try done. congruence.
    + destruct (H4 _ _ Hq) as (e' & He' & Hid' & Hn).
      assert (e_id e <> e_id e') as Hne.
      { intros Heq. apply Hk. symmetry. apply (Hpath k q); [done|]. apply has_id_true. eauto. }
      exists e'. rewrite lookup_insert_ne by done. split_and!; [done..|].
      intros j Hj [[<- ?]|[? ?]]%lookup_insert_Some; [done|]. rewrite lookup_insert_ne by done. eauto.
  - intros k j [[<- <-]|[? Hk]]%lookup_insert_Some; [by rewrite lookup_insert_eq|].
    rewrite lookup_insert_is_Some'. eauto.
  - intros j q [[<- <-]|[? Hq]]%lookup_insert_Some; [by rewrite lookup_insert_eq|].
    rewrite lookup_insert_is_Some'. eauto.
Qed.

Lemma index_wf p e i s : wf s -> load s p = Some e -> e_inode e = Some i ->
  unclaimed (e_id e) i (e_fuse_path e) s -> wf (index p e i s).
Proof.
  intros [W T C U] He Hi Hu. constructor; [by apply index_wf_index| | |].
  - unfold index. by apply linkChild_inverse.
  - intros c pid. unfold index. rewrite linkChild_lookup. intros Hc.
    match goal with |- is_Some (idToEntry (linkChild ?a ?b ?t) !! _) =>
      assert (idToEntry (linkChild a b t) = idToEntry t) as -> by (pose proof (link_view a b t) as Hv; by injection Hv) end.
    simpl. rewrite lookup_insert_is_Some'. case_decide; [by left|]. right. by eapply C.
  - unfold index. destruct (e_parent_id e); simpl; [done|]. unfold unlinkChild. simpl.
    by destruct (childToParent s !! e_id e).
Qed.

(** What [rekey] leaves alone, and what it removes. *)
Definition outside s := (heap s, database s, stats s, nextInode s, idToEntry s, childToParent s, parentToChildren s).

Lemma rekey_outside e i s : outside (rekey e i s) = outside s.
Proof. unfold rekey. repeat (case_match || case_if); done. Qed.

Lemma rekey_wf_index e i s : wf_index s -> wf_index (rekey e i s).
Proof.
  intros W. unfold rekey.
  repeat (case_match || case_if); eauto 10 using drop_names_wf, eraseInode_wf, erasePath_wf, drop_aliases_wf.
Qed.

Lemma wf_outside s t : wf s -> outside t = outside s -> wf_index t -> wf t.
Proof.
  intros [W T C U]. destruct s, t. unfold outside. simpl. intros [= -> -> -> -> -> -> ->] W'. by constructor.
Qed.

Lemma rekey_wf e i s : wf s -> wf (rekey e i s).
Proof. intros W. apply (wf_outside _ _ W); [apply rekey_outside|apply rekey_wf_index, W]. Qed.

Lemma owner_inode s i id p e : wf_index s -> inodeToId s !! i = Some id -> idToEntry s !! id = Some p ->
  load s p = Some e -> e_inode e = Some i.
Proof.
  intros W Hi Hid He. destruct (wf_inoid _ W _ _ Hi) as (p' & Hp' & Hid'). simplify_eq.
  destruct (wf_ino _ W _ _ Hp') as (e' & He' & ?). by simplify_eq.
Qed.

(** The maps after [eraseInode], for the lookups that matter. *)
Lemma eraseInode_names i0 s k j : pathToInode (eraseInode i0 s) !! k = Some j -> pathToInode s !! k = Some j /\ j <> i0.
Proof. simpl. intros [? ?]%map_lookup_filter_Some. simpl in *. by bsimpl. Qed.
Lemma eraseInode_paths i0 s k q : pathToEntry (eraseInode i0 s) !! k = Some q -> pathToEntry s !! k = Some q.
Proof. simpl. by intros [? _]%map_lookup_filter_Some. Qed.

Lemma rekey_unclaimed e i s : wf_index s -> unclaimed (e_id e) i (e_fuse_path e) (rekey e i s).
Proof.
  intros W. split.
  - intros j. unfold rekey.
    match goal with |- context [drop_names _ ?t] => set (s1 := t) end.
    match goal with |- context [drop_aliases ?a ?b ?t] => set (s3 := drop_aliases a b t) end.
    intros Hj. assert (inodeToId s1 !! j = Some (e_id e)) as Hj1.
    { change (inodeToId s1) with (inodeToId s3).
      repeat case_match; simpl in *; lookups; done. }
    clear Hj s3. destruct (decide (j = i)) as [|Hne]; [done|exfalso]. revert Hj1. unfold s1.
    destruct (idToEntry s !! e_id e ≫= load s) as [old|] eqn:Eold.
    + destruct (idToEntry s !! e_id e) as [p0|] eqn:Ep0; [|done]. simpl in Eold.
      intros Hj1. assert (inodeToId s !! j = Some (e_id e)) as Hj by (repeat case_match; simpl in *; lookups; done).
      rewrite (owner_inode s j (e_id e) p0 old) in Hj1 by done.
      replace (j !== i) with true in Hj1 by (symmetry; by apply negb_true_iff, eqb_neq).
      repeat case_match; simpl in *; lookups; done.
    + intros Hj. destruct (recorded_both _ _ _ W Hj) as [_ [p0 Hp0]]. rewrite Hp0 in Eold. simpl in Eold.
      destruct (wf_id _ W _ _ Hp0) as (? & ? & ? & _). congruence.
  - intros k q. unfold rekey.
    match goal with |- context [drop_aliases ?a ?b ?t] => set (s2 := t) end.
    intros Hk Hid. assert (load s q = load s2 q) as Hl by (unfold s2; repeat (case_match || case_if); done).
    set (s3 := drop_aliases (e_id e) (Some (e_fuse_path e)) s2) in Hk.
    assert (pathToEntry s3 !! k = Some q) as Hk2.
    { destruct (pathToInode s3 !! _) as [j|]; [destruct (j !== i); [apply eraseInode_paths in Hk|]|]; done. }
    apply map_lookup_filter_Some in Hk2 as [_ Hk2]. simpl in Hk2.
    apply andb_false_iff in Hk2 as [Hk2|Hk2]; bsimpl; [|done].
    exfalso. apply has_id_true in Hid as (e' & He' & Heq).
    apply not_true_iff_false in Hk2. apply Hk2, has_id_true. exists e'. split; [|done]. rewrite <- Hl, <- He'.
    repeat case_match; done.
Qed.

Lemma rekey_names e i s k : pathToInode (rekey e i s) !! k = Some i -> k = collapse (e_fuse_path e).
Proof.
  unfold rekey. match goal with |- context [drop_names _ ?t] => set (s1 := t) end.
  intros Hk. match type of Hk with context [drop_aliases ?a ?b ?t] => set (s3 := drop_aliases a b t) in Hk end.
  assert (pathToInode s3 !! k = Some i) as Hk3.
  { destruct (pathToInode s3 !! collapse _) as [j|]; [destruct (j !== i); [apply eraseInode_names in Hk as [Hk _]|]|]; done. }
  simpl in Hk3. lookups. simpl in *. bsimpl. naive_solver.
Qed.

(** *** Computations that keep the cache well formed *)

Definition cached s p : Prop := (exists id, idToEntry s !! id = Some p) \/ (exists i, inodeToEntry s !! i = Some p).
(** An object with an inode, and the changes that keep every such object one. *)
Definition live s p i : Prop := exists e, load s p = Some e /\ e_inode e = Some i.
Definition keeps s t : Prop := forall p i, live s p i -> live t p i.
Definition good s t : Prop := wf t /\ keeps s t.
Definition pres {A} (m : M A) : Prop := forall s, wf s -> good s (m s).2.

Lemma keeps_refl s : keeps s s.
Proof. by intros p i. Qed.

(** Callers may change any field of a cached entry but its id and inode. *)
Definition callers_may (s : Cache DB) (h : gmap ptr Entry) : Prop := forall p e, cached s p -> load s p = Some e ->
  exists e', h !! p = Some e' /\ e_id e' = e_id e /\ e_inode e' = e_inode e.

Lemma wf_heap s h : wf s -> callers_may s h -> wf (with_heap h s).
Proof.
  intros [[H1 H2 H3 H4 H5 H6] T C U] Hh. constructor; [|done..].
  constructor; unfold load; simpl; try done.
  - intros id p Hp. destruct (H1 _ _ Hp) as (e & i & He & Hid & Hi).
    destruct (Hh p e) as (e' & He' & ? & ?); [by left; eauto|done|]. exists e', i. split_and!; congruence.
  - intros i p Hp. destruct (H2 _ _ Hp) as (e & He & Hi).
    destruct (Hh p e) as (e' & He' & ? & ?); [by right; eauto|done|]. exists e'. split; congruence.
  - intros k p Hp. destruct (H4 _ _ Hp) as (e & He & Hid & Hn).
    destruct (Hh p e) as (e' & He' & Hid' & Hi'); [by left; eauto|done|]. exists e'. rewrite Hid', Hi'. eauto.
Qed.

Lemma cached_live s p : wf s -> cached s p -> exists i, live s p i.
Proof.
  intros [[H1 H2 _ _ _ _] _ _ _] [[id Hp]|[i Hp]].
  - destruct (H1 _ _ Hp) as (e & i & ? & _ & ?). exists i, e. eauto.
  - destruct (H2 _ _ Hp) as (e & ? & ?). exists i, e. eauto.
Qed.

Lemma wf_stats s (u : Stats) : wf s -> 0 <= used_bytes u <= u64max -> wf (with_stats u s).
Proof. intros [[] T C U] Ht. constructor; [by constructor|done..]. Qed.

(** The objects before an allocation are the same after it. *)
Lemma alloc_keeps e s p h : alloc e s = (Ok p, h) -> load s p = None /\ (forall q, q <> p -> load h q = load s q) /\
  load h p = Some e /\ h = with_heap (heap h) s.
Proof.
  unfold alloc. intros [= <- <-]. unfold load. simpl. split_and!; [| |by rewrite lookup_insert_eq|done].
  - apply not_elem_of_dom, is_fresh.
  - intros q Hq. by rewrite lookup_insert_ne.
Qed.

Lemma pres_ret {A} (a : A) : pres (ret a).
Proof. intros s W. split; [done|apply keeps_refl]. Qed.
Lemma pres_throw {A} x : pres (throw (A := A) x).
Proof. intros s W. split; [done|apply keeps_refl]. Qed.
Lemma pres_query {A} (q : DB -> result CacheError A) : pres (query q).
Proof. intros s W. split; [done|apply keeps_refl]. Qed.
Lemma pres_bind {A B} (m : M A) (k : A -> M B) : pres m -> (forall a, pres (k a)) -> pres (bind m k).
Proof.
  intros Hm Hk s W. unfold bind. specialize (Hm s W). destruct (m s) as [[a|x] t]; simpl in *; [|done].
  destruct Hm as [Wt Kt]. destruct (Hk a t Wt) as [Wu Ku]. split; [done|]. intros p i Hp. by apply Ku, Kt.
Qed.
Lemma wf_bind {A B} (m : M A) (k : A -> M B) s : wf (m s).2 -> (forall a, pres (k a)) -> wf (bind m k s).2.
Proof. intros Hm Hk. unfold bind. destruct (m s) as [[a|] t]; simpl in *; [by apply Hk|done]. Qed.
Lemma pres_get {B} (k : Cache DB -> M B) : (forall s, wf s -> good s (k s s).2) -> pres (bind get k).
Proof. intros Hk s W. by apply Hk. Qed.
Lemma pres_modify (f : Cache DB -> Cache DB) : (forall s, wf s -> good s (f s)) -> pres (modify f).
Proof. intros Hf s W. by apply Hf. Qed.
Lemma pres_for {A} (l : list A) (f : A -> M unit) : (forall x, pres (f x)) -> pres (for_each l f).
Proof. intros Hf. induction l; simpl; [apply pres_ret|by apply pres_bind]. Qed.
Lemma pres_catch {A} (m : M A) a : pres m -> pres (catch m a).
Proof. intros Hm s W. unfold catch, handle. specialize (Hm s W). by destruct (m s) as [[|] ?]. Qed.

Lemma pres_alloc e : pres (alloc e).
Proof.
  intros s W. destruct (alloc e s) as [r t] eqn:E. assert (exists p, r = Ok p) as [p ->] by (unfold alloc in E; injection E as <- _; eauto).
  destruct (alloc_keeps _ _ _ _ E) as (Hn & Hq & Hp & Ht). simpl. split.
  - rewrite Ht. apply wf_heap; [done|]. intros q e' Hc He'. exists e'. split; [|done].
    change (load t q = Some e'). rewrite Hq; [done|]. congruence.
  - intros q i (e' & He' & Hi). exists e'. split; [|done]. rewrite Hq; [done|]. congruence.
Qed.
Lemma pres_alloc_option o : pres (alloc_option o).
Proof. destruct o; [|apply pres_ret]. apply pres_bind; [apply pres_alloc|intros; apply pres_ret]. Qed.
Lemma pres_fetch (q : DB -> result CacheError (option Entry)) : pres (fetch q).
Proof. apply pres_bind; [apply pres_query|apply pres_alloc_option]. Qed.
Lemma pres_alloc_all l : pres (alloc_all l).
Proof.
  induction l as [|o l IH]; [apply pres_ret|]. apply pres_bind; [apply pres_alloc_option|].
  intros a. apply pres_bind; [done|]. intros; apply pres_ret.
Qed.

Lemma good_store p f s : wf s -> (forall e, load s p = Some e -> e_inode e = None \/ e_id (f e) = e_id e /\ e_inode (f e) = e_inode e) ->
  good s (store p f s).
Proof.
  intros W Hf. assert (forall q, q <> p -> load (store p f s) q = load s q) as Hne
    by (intros q Hq; unfold load; simpl; by rewrite lookup_alter_ne).
  assert (load (store p f s) p = f <$> load s p) as Heq by (unfold load; simpl; by rewrite lookup_alter_eq).
  split.
  - apply wf_heap; [done|]. intros q e Hc He. change (exists e', load (store p f s) q = Some e' /\ e_id e' = e_id e /\ e_inode e' = e_inode e).
    destruct (decide (q = p)) as [->|Hq]; [|rewrite Hne by done; eauto].
    rewrite Heq, He. simpl. exists (f e). split; [done|].
    destruct (cached_live _ _ W Hc) as (i & e' & He' & Hi). destruct (Hf e He) as [|]; [congruence|done].
  - intros q i (e & He & Hi). destruct (decide (q = p)) as [->|Hq].
    + exists (f e). rewrite Heq, He. destruct (Hf e He) as [|[_ Hi']]; [congruence|]. by rewrite Hi'.
    + exists e. by rewrite Hne.
Qed.

Lemma good_stats f s : wf s -> (forall u : Stats, 0 <= used_bytes u <= u64max -> 0 <= used_bytes (f u) <= u64max) -> good s (on_stats f s).
Proof. intros W Hf. split; [|by intros p i Hp]. apply wf_stats; [done|]. apply Hf, W. Qed.
Lemma pres_hit : pres (modify (on_stats record_hit)).
Proof. apply pres_modify. intros s W. by apply good_stats. Qed.
Lemma pres_miss : pres (modify (on_stats record_miss)).
Proof. apply pres_modify. intros s W. by apply good_stats. Qed.

(** *** Every operation *)
Lemma clamp_bounds a b : 0 <= a <= u64max -> 0 <= b -> 0 <= addClamp a b <= u64max /\ 0 <= subClamp a b <= u64max.
Proof. intros Ha Hb. unfold addClamp, subClamp. split; case_if; bsimpl; lia. Qed.

Lemma safeSize_bounds (o : option Entry) : 0 <= safeSizeBytes o <= u64max.
Proof. unfold u64max. destruct o as [e|]; simpl; [|lia]. pose proof (Z.mod_pos_bound (e_size_bytes e) (2 ^ 64)). lia. Qed.

Lemma account_bounds (o : option Entry) n (u : Stats) : 0 <= n -> 0 <= used_bytes u <= u64max -> 0 <= used_bytes (account o n u) <= u64max.
Proof.
  intros Hn Hu. pose proof (clamp_bounds (used_bytes u)) as Hc. destruct o as [e|]; cbn [account used_bytes set_used record_insert].
  - pose proof (safeSize_bounds (Some e)). cbv zeta. case_if; bsimpl; apply Hc; lia.
  - apply Hc; lia.
Qed.

Lemma good_view s t : wf s -> wf t -> heap t = heap s -> good s t.
Proof. intros W W' Hh. split; [done|]. intros p i (e & He & Hi). exists e. unfold load in *. by rewrite Hh. Qed.

Lemma index_heap p e i s : heap (index p e i s) = heap s.
Proof. unfold index. match goal with |- heap (linkChild ?a ?b ?t) = _ => pose proof (link_view a b t) as Hv end. by injection Hv. Qed.

Lemma good_trans s1 s2 s3 : good s1 s2 -> good s2 s3 -> good s1 s3.
Proof. intros [_ K] [W K']. split; [done|]. intros p i Hp. by apply K', K. Qed.

Lemma names_wf n ip pi s : wf s -> inodeToPath s ⊆ ip \/ (forall i, is_Some (inodeToPath s !! i) -> is_Some (ip !! i)) ->
  (forall k i, pathToInode s !! k = Some i -> pi !! k = Some i) ->
  (forall k i, pi !! k = Some i -> is_Some (ip !! i)) -> wf (with_names n ip pi s).
Proof.
  intros [[H1 H2 H3 H4 H5 H6] T C U] Hip Hpi Hr. assert (forall i, is_Some (inodeToPath s !! i) -> is_Some (ip !! i)) as Hip'.
  { destruct Hip as [Hs|]; [|done]. intros i [x Hx]. exists x. by eapply lookup_weaken. }
  constructor; [|done..]. constructor; simpl; eauto.
  intros k p Hk. destruct (H4 k p Hk) as (e & He & Hid & Hn). exists e. eauto.
Qed.

Lemma assign_good path s : wf s -> good s (assignInode path s).2.
Proof.
  intros W. unfold assignInode. destruct (pathToInode s !! collapse path) eqn:E; simpl; [split; [done|apply keeps_refl]|].
  apply good_view; [done| |done]. apply names_wf; [done|right|..]; intros.
  - rewrite lookup_insert_is_Some'. eauto.
  - rewrite lookup_insert_ne; [done|]. intros <-. congruence.
  - match goal with H : _ = Some _ |- _ => apply lookup_insert_Some in H as [[_ <-]|[_ H]] end;
      rewrite lookup_insert_is_Some'; [by left|]. right. destruct W as [W _ _ _]. by eapply wf_names.
Qed.
Lemma pres_assign (path : str) : pres (do_assign path).
Proof. intros s W. unfold do_assign. pose proof (assign_good path s W). by destruct (assignInode path s). Qed.
Lemma pres_getOrAssign (path : str) : pres (getOrAssignInode path).
Proof. unfold getOrAssignInode. case_if; [apply pres_throw|apply pres_assign]. Qed.

Lemma pres_getEntryById id : pres (getEntryById id).
Proof.
  apply pres_get. intros s W. destruct (idToEntry s !! id).
  - apply (pres_bind _ _ pres_hit); [intros; apply pres_ret|done].
  - apply (pres_bind _ _ pres_miss); [intros; apply pres_fetch|done].
Qed.

Lemma unclaimed_new id i (fuse : str) s : wf_index s -> idToEntry s !! id = None -> unclaimed id i fuse s.
Proof.
  intros W Hn. split.
  - intros j Hj. destruct (recorded_both _ _ _ W Hj) as [_ [q Hq]]. congruence.
  - intros k q Hk (e & He & <-)%has_id_true. destruct (cached_path_id _ _ _ _ W Hk He). congruence.
Qed.

Lemma insert_good p e s : wf s -> load s p = Some e ->
  (forall i, e_inode e = Some i -> unclaimed (e_id e) i (e_fuse_path e) s) -> good s (insert_entry (Some p) s).2.
Proof.
  intros W He Hu. unfold insert_entry, bind, get. rewrite He. destruct (e_inode e) as [i|] eqn:Ei; simpl.
  - apply good_view; [done| |apply index_heap]. apply index_wf; auto.
  - split; [done|apply keeps_refl].
Qed.

Lemma pres_write_stats `{!FsDbOk DB} r : pres (write_stats r).
Proof.
  apply pres_get. intros s W. destruct (idToEntry s !! r_id r) as [d|] eqn:Ed.
  - apply good_store; [done|]. intros e He. by right.
  - unfold fetch, bind, query, reads. destruct (getFSEntryById (r_id r) (database s)) as [[e|]|x] eqn:Eq; simpl;
      [|split; [done|apply keeps_refl]..].
    destruct (alloc_keeps e s _ _ eq_refl) as (Hn & Hq & Hp & Ht). destruct (pres_alloc e s W) as [Wt Kt].
    unfold bind. simpl. refine (good_trans _ _ _ (conj Wt Kt) _).
    apply (insert_good _ e); [done|exact Hp|]. intros i _. apply unclaimed_new; [apply Wt|].
    rewrite (fetched_id _ _ _ Eq). exact Ed.
Qed.

Lemma put_entry_good `{!FsDbOk DB} p i rows s : wf s -> live s p i -> good s (put_entry p i rows s).2.
Proof.
  intros W (e & He & Hi). unfold put_entry, bind, get. rewrite He.
  assert (load (rekey e i s) p = Some e) as He' by (pose proof (rekey_outside e i s) as Ho; injection Ho; unfold load in *; congruence).
  assert (good s (rekey e i s)) as G1.
  { apply good_view; [done|by apply rekey_wf|]. pose proof (rekey_outside e i s) as Ho. by injection Ho. }
  refine (good_trans _ _ _ G1 _). simpl.
  assert (good (rekey e i s) (insert_entry (Some p) (rekey e i s)).2) as G2.
  { apply (insert_good p e); [apply G1|done|]. rewrite Hi. intros j [= <-]. apply rekey_unclaimed, W. }
  destruct (insert_entry (Some p) (rekey e i s)) as [[[]|] t]; [|done]. refine (good_trans _ _ _ G2 _).
  refine ((pres_bind (for_each rows write_stats) (fun _ => modify _) _ _) t (proj1 G2)).
  - apply pres_for. intros r. apply pres_write_stats.
  - intros _. apply pres_modify. intros u Wu. apply good_stats; [done|]. intros v. apply account_bounds.
    exact (proj1 (safeSize_bounds (Some e))).
Qed.

Lemma pres_preflight p e i : pres (preflight p e i).
Proof.
  unfold preflight. case_if; [apply pres_ret|]. destruct (e_vault_id e); [|apply pres_throw].
  case_if; [|apply pres_ret]. destruct (e_parent_id e); [|apply pres_throw].
  apply pres_bind; [apply pres_getEntryById|]. intros o. apply pres_get. intros s W.
  destruct (o ≫= load s); [|by apply pres_throw]. apply good_store; [done|]. by right.
Qed.

Lemma pres_upstream e b : pres (upstream_rows e b).
Proof. unfold upstream_rows. destruct (e_parent_id e); [case_if|]; auto using pres_ret, pres_query. Qed.

Lemma pres_cacheEntry `{!FsDbOk DB} p b : pres (cacheEntry p b).
Proof.
  apply pres_get. intros s W. destruct (load s p) as [e|] eqn:He; [|by apply pres_throw].
  destruct (e_inode e) as [i|] eqn:Hi; [|by apply pres_throw].
  assert (live s p i) as Hl by (exists e; eauto).
  unfold bind at 1. pose proof (pres_preflight p e i s W) as G1. destruct (preflight p e i s) as [[[]|] t]; [|done].
  refine (good_trans _ _ _ G1 _). unfold bind. pose proof (pres_upstream e b t (proj1 G1)) as G2.
  destruct (upstream_rows e b t) as [[rows|] u]; [|done]. refine (good_trans _ _ _ G2 _).
  apply put_entry_good; [apply G2|]. apply G2, G1, Hl.
Qed.

Lemma pres_write_row p : pres (write_row p).
Proof.
  intros s W. unfold write_row. destruct (load s p); [|split; [done|apply keeps_refl]].
  destruct (updateFSEntry _ _); [|split; [done|apply keeps_refl]]. apply good_view; [done| |done].
  destruct W as [[] T C U]. constructor; [by constructor|done..].
Qed.

(** Assigning an inode number touches no object. *)
Lemma assign_heap path s : heap (assignInode path s).2 = heap s.
Proof. unfold assignInode. by destruct (pathToInode s !! collapse path). Qed.

(** *** Evictions *)
Lemma subclamp_bounds a b : 0 <= a <= u64max -> 0 <= b -> 0 <= subClamp a b <= u64max.
Proof. intros. by apply clamp_bounds. Qed.

Lemma evict_core id s : wf s -> wf_index (with_ids (delete id (idToEntry s)) s) ->
  wf (unlinkChild id (with_ids (delete id (idToEntry s)) s)).
Proof.
  intros [W T C U] W'. constructor.
  - eapply wf_index_view; [|exact W']. by rewrite unlink_view.
  - by apply unlink_inverse.
  - intros c pid. rewrite unlink_lookup. case_decide as Hc; [done|]. simpl. intros Hp.
    match goal with |- is_Some (idToEntry (unlinkChild ?a ?t) !! _) =>
      pose proof (unlink_view a t) as Hv; injection Hv; intros Hid _ _ _ _ _ _; rewrite Hid end.
    simpl. rewrite lookup_delete_ne by done. eauto.
  - unfold unlinkChild. simpl. by destruct (childToParent s !! id).
Qed.

Lemma inoid_inj s i j id : wf_index s -> inodeToId s !! i = Some id -> inodeToId s !! j = Some id -> i = j.
Proof.
  intros W Hi Hj. destruct (wf_inoid _ W _ _ Hi) as (p & Hp & Hid). destruct (wf_id _ W _ _ Hid) as (e & _ & He & _).
  pose proof (owner_inode s i id p e W Hi Hid He). pose proof (owner_inode s j id p e W Hj Hid He). congruence.
Qed.

(** A path of an entry whose inode is recorded leads to that inode. *)
Lemma path_of_recorded s k p e i : wf_index s -> pathToEntry s !! k = Some p -> load s p = Some e ->
  inodeToId s !! i = Some (e_id e) -> pathToInode s !! k = Some i.
Proof.
  intros W Hk He Hi. destruct (wf_path _ W _ _ Hk) as (e' & He' & Hid & Hn). simplify_eq.
  apply Hn; [|done]. by eapply owner_inode.
Qed.

Lemma evictIno_good i s : wf s -> good s (evictIno i s).
Proof.
  intros W. unfold evictIno. case_if; [split; [done|apply keeps_refl]|].
  set (rem := match inodeToEntry s !! i with Some p => _ | None => _ end).
  assert (0 <= rem) as Hrem by (unfold rem; repeat case_match; try lia; apply safeSize_bounds).
  pose proof (wf_outside s (eraseInode i s) W eq_refl (eraseInode_wf i s (wf_indexes _ W))) as W1.
  match goal with |- good _ (on_stats _ ?x) => assert (wf x /\ heap x = heap s) as [Wx Hx] end.
  { destruct (inodeToId s !! i) as [id|] eqn:Ei; [|done]. split.
    - apply evict_core; [done|]. pose proof (wf_indexes _ W) as Wi. pose proof (wf_indexes _ W1) as Wi1.
      apply (wf_index_shrink (eraseInode i s)); [done|].
      constructor; try done; cbn [with_ids heap idToEntry inodeToEntry inodeToId pathToEntry pathToInode inodeToPath]; eauto.
      + apply delete_subseteq.
      + intros j id' Hj. destruct (recorded_both _ _ _ Wi1 Hj) as [? ?]. split; [done|]. apply kept_by_delete; [done|].
        intros <-. simpl in Hj. apply lookup_delete_Some in Hj as [Hij Hj]. destruct Hij. exact (inoid_inj s i j id Wi Ei Hj).
      + intros k p e Hk He. apply kept_by_delete; [by eapply cached_path_id|]. intros ->.
        simpl in Hk. apply map_lookup_filter_Some in Hk as [Hk Hkeep]. simpl in Hkeep.
        rewrite (path_of_recorded s k p e i) in Hkeep by done. by rewrite eqb_refl in Hkeep.
    - unfold unlinkChild. simpl. by destruct (childToParent s !! id). }
  refine (good_trans _ _ _ (good_view _ _ W Wx Hx) _). apply good_stats; [done|]. intros u Hu. simpl. by apply subclamp_bounds.
Qed.

Lemma evictId_good id s : wf s -> good s (evictId id s).
Proof.
  intros W. unfold evictId. destruct (idToEntry s !! id ≫= load s) as [e|] eqn:Ee; cbn [mbind option_bind].
  2:{ destruct (inode_of_id id s) as [i|] eqn:Ei; [exfalso|split; [done|apply keeps_refl]].
      unfold inode_of_id in Ei. destruct (base.filter _ _) as [|[j v] l] eqn:Ef; [done|].
      assert ((j, v) ∈ base.filter (fun kv : Z * Z => kv.2 = id) (map_to_list (inodeToId s))) as Hin by (rewrite Ef; left).
      apply list_elem_of_filter in Hin as [Hv Hin%elem_of_map_to_list]. simpl in Hv. subst v.
      destruct (recorded_both _ _ _ (wf_indexes _ W) Hin) as [_ [p Hp]]. rewrite Hp in Ee. simpl in Ee.
      destruct (wf_id _ (wf_indexes _ W) _ _ Hp) as (? & ? & ? & _). congruence. }
  destruct (idToEntry s !! id) as [p|] eqn:Ep; [|done]. simpl in Ee.
  destruct (wf_id _ (wf_indexes _ W) _ _ Ep) as (e' & i & He' & Hid & Hi). simplify_eq. rewrite Hi.
  set (rem := if _ =? 0 then _ else _).
  assert (0 <= rem) as Hrem by (unfold rem; case_if; apply safeSize_bounds).
  set (s3 := drop_aliases (e_id e) None (erasePath (e_fuse_path e) (eraseInode i s))).
  pose proof (wf_indexes _ W) as Wi.
  assert (wf_index s3) as Wi3 by (unfold s3; auto using drop_aliases_wf, erasePath_wf, eraseInode_wf).
  assert (Hgone : forall j, inodeToId s3 !! j <> Some (e_id e)).
  { intros j Hj. simpl in Hj. apply lookup_delete_Some in Hj as [Hij Hj].
    pose proof (owner_inode s j (e_id e) p e Wi Hj Ep Ee). congruence. }
  match goal with |- good _ (on_stats _ (unlinkChild _ (with_ids (delete _ (idToEntry ?x)) _))) => set (s4 := x) end.
  assert (index_view s3 = index_view s4) as H34.
  { unfold index_view, s4. cbn [with_index heap idToEntry inodeToEntry inodeToId pathToEntry pathToInode inodeToPath].
    repeat f_equal; symmetry; apply map_filter_id; simpl; intros j v Hv; rewrite ?bool_decide_eq_false; auto.
    intros ->. by apply (Hgone j). }
  assert (wf s4) as W4 by (apply (wf_outside s); [done|reflexivity|]; by eapply wf_index_view).
  assert (wf_index (with_ids (delete (e_id e) (idToEntry s4)) s4)) as Wi5.
  { apply (wf_index_view (with_ids (delete (e_id e) (idToEntry s3)) s3)).
    { injection H34. intros. unfold index_view. simpl. by repeat f_equal. }
    apply (wf_index_shrink s3); [done|].
    constructor; try done; cbn [with_ids heap idToEntry inodeToEntry inodeToId pathToEntry pathToInode inodeToPath]; eauto.
    - apply delete_subseteq.
    - intros j id Hj. destruct (recorded_both _ _ _ Wi3 Hj) as [? ?]. split; [done|]. apply kept_by_delete; [done|].
      intros <-. by apply (Hgone j).
    - intros k q e' Hk He. apply kept_by_delete; [by eapply cached_path_id|]. intros Hid.
      simpl in Hk. apply map_lookup_filter_Some in Hk as [_ Hk]. simpl in Hk.
      rewrite andb_true_r in Hk. apply not_true_iff_false in Hk. apply Hk, has_id_true. exists e'. done. }
  pose proof (evict_core (e_id e) s4 W4 Wi5) as W5.
  refine (good_trans _ _ _ (good_view _ _ W W5 _) _).
  { unfold unlinkChild. by case_match. }
  apply good_stats; [done|]. intros u Hu. simpl. by apply subclamp_bounds.
Qed.

Lemma unlink_all (l : list Z) s : inverse_tree (childToParent s) (parentToChildren s) ->
  let t := foldr unlinkChild s l in
  index_view t = index_view s /\ stats t = stats s /\ inverse_tree (childToParent t) (parentToChildren t) /\
  (forall c pid, childToParent t !! c = Some pid -> c ∉ l /\ childToParent s !! c = Some pid).
Proof.
  intros T. induction l as [|x l IH]; simpl; [split_and!; try done; set_solver|].
  destruct IH as (Hv & Hs & Ht & Hc). split_and!.
  - by rewrite unlink_view.
  - rewrite <- Hs. unfold unlinkChild. by case_match.
  - by apply unlink_inverse.
  - intros c pid. rewrite unlink_lookup. case_decide; [done|]. intros [? ?]%Hc. set_solver.
Qed.

Lemma addClamp_nonneg a b : 0 <= a -> 0 <= b -> 0 <= addClamp a b.
Proof. intros. unfold addClamp, u64max. case_if; lia. Qed.

Lemma vault_size_bounds v (r : str) s : 0 <= vault_size v r s.
Proof.
  unfold vault_size. induction (map_to_list _) as [|kv l IH]; cbn [foldr]; [lia|].
  apply addClamp_nonneg; [done|]. apply safeSize_bounds.
Qed.

Lemma leads_in_true v r s p : leads_in v r s p = true <-> exists e, load s p = Some e /\ inVault v r e = true.
Proof. unfold leads_in. destruct (load s p); naive_solver. Qed.

Lemma vault_ids_spec v r s id : id ∈ vault_ids v r s <-> exists p, idToEntry s !! id = Some p /\ leads_in v r s p = true.
Proof. unfold vault_ids. rewrite elem_of_dom. unfold is_Some. setoid_rewrite map_lookup_filter_Some. done. Qed.

Lemma vault_inodes_spec v (r : str) s i : i <> kRootInode -> i ∈ vault_inodes v r s <->
  (exists id p e, idToEntry s !! id = Some p /\ leads_in v r s p = true /\ load s p = Some e /\ e_inode e = Some i) \/
  (exists p, inodeToEntry s !! i = Some p /\ leads_in v r s p = true) \/
  (exists id, inodeToId s !! i = Some id /\ id ∈ vault_ids v r s) \/
  (exists k, pathToInode s !! k = Some i /\ underRoot r k = true).
Proof.
  intros Hi. unfold vault_inodes.
  rewrite elem_of_difference, !elem_of_union, !elem_of_dom, !elem_of_list_to_set, list_elem_of_omap, list_elem_of_fmap, elem_of_singleton.
  unfold is_Some. setoid_rewrite map_lookup_filter_Some. setoid_rewrite elem_of_map_to_list'. setoid_rewrite map_lookup_filter_Some.
  split.
  - intros [[[[H1|H1]|H1]|H1] _].
    + left. destruct H1 as ([id p] & [Hp Hl] & He). simpl in *. destruct (load s p) as [e|] eqn:El; [|done]. by exists id, p, e.
    + right; left. destruct H1 as (p & ? & ?). by exists p.
    + do 2 right; left. destruct H1 as (id & ? & ?). by exists id.
    + do 3 right. destruct H1 as ([k j] & -> & ? & ?). by exists k.
  - intros Hc. split; [|done]. destruct Hc as [(id & p & e & ? & ? & He & ?)|[(p & ? & ?)|[(id & ? & ?)|(k & ? & ?)]]].
    + do 3 left. exists (id, p). simpl. by rewrite He.
    + do 2 left; right. by exists p.
    + left; right. by exists id.
    + right. by exists (k, i).
Qed.

(** The indexes of [evictVault] before the children are unlinked. *)
Definition vault_cut v (r : str) s : Cache DB :=
  let ids := vault_ids v r s in
  let inodes := vault_inodes v r s in
  with_index
      (filter (fun kv => kv.1 ∉ inodes) (inodeToPath s))
      (filter (fun kv => kv.2 ∉ inodes /\ underRoot r kv.1 = false) (pathToInode s))
      (filter (fun kv => kv.1 ∉ inodes) (inodeToEntry s))
      (filter (fun kv => underRoot r kv.1 = false /\ leads_in v r s kv.2 = false /\
                         match load s kv.2 with Some e => bool_decide (e_id e ∈ ids) | None => false end = false) (pathToEntry s))
      (filter (fun kv => kv.1 ∉ inodes /\ kv.2 ∉ ids) (inodeToId s))
      (with_ids (filter (fun kv => kv.1 ∉ ids) (idToEntry s)) s).

Lemma vault_cut_wf v (r : str) s : wf_index s -> wf_index (vault_cut v r s).
Proof.
  intros W. apply (wf_index_shrink s); [done|].
  constructor; try done; cbn [vault_cut with_index with_ids heap idToEntry inodeToEntry inodeToId pathToEntry pathToInode inodeToPath];
    try apply filter_sub.
  - intros i id [Hi [Hni Hnid]]%map_lookup_filter_Some. simpl in *.
    destruct (recorded_both _ _ _ W Hi) as [[p Hp] [q Hq]]. split; by eapply kept_by_filter.
  - intros k p e [Hk (_ & _ & Hid)]%map_lookup_filter_Some He. simpl in *. rewrite He in Hid. bsimpl.
    destruct (cached_path_id _ _ _ _ W Hk He) as [q Hq]. by eapply kept_by_filter.
  - intros k p i e [Hk (Hu & _ & _)]%map_lookup_filter_Some Hi He [_ [Hni _]]%map_lookup_filter_Some.
    by eapply kept_by_filter.
  - intros k i [Hi [Hni _]]%map_lookup_filter_Some. destruct (wf_names _ W _ _ Hi). by eapply kept_by_filter.
  - intros i p [Hi Hni]%map_lookup_filter_Some. destruct (wf_paths _ W _ _ Hi). by eapply kept_by_filter.
Qed.

Lemma evictVault_good v (r : str) s : wf s -> good s (evictVault v r s).
Proof.
  intros W. unfold evictVault. case_if; [split; [done|apply keeps_refl]|].
  fold (vault_cut v r s). unfold set_fold. simpl.
  destruct (unlink_all (base.elements (vault_ids v r s)) (vault_cut v r s) (wf_tree _ W)) as (Hv & Hs & Ht & Hc).
  set (t := foldr unlinkChild (vault_cut v r s) _) in *.
  assert (wf t) as Wt.
  { pose proof (vault_cut_wf v r s (wf_indexes _ W)) as Wc. constructor.
    - by apply (wf_index_view (vault_cut v r s)).
    - done.
    - intros c pid [Hl Hp]%Hc. injection Hv as _ _ _ _ _ _ ->. simpl.
      destruct (wf_cached _ W _ _ Hp) as [p Hp']. eapply kept_by_filter; [done|]. simpl. set_solver.
    - rewrite Hs. apply W. }
  refine (good_trans _ _ _ (good_view _ _ W Wt _) _); [by injection Hv|].
  apply good_stats; [done|]. intros u Hu. simpl. apply subclamp_bounds; [done|]. apply vault_size_bounds.
Qed.

Lemma evictPath_good (path : str) s : wf s -> good s (evictPath path s).
Proof.
  intros W. unfold evictPath. case_match; [|split; [done|apply keeps_refl]].
  assert (good s (on_stats record_invalidation s)) as G by (by apply good_stats).
  refine (good_trans _ _ _ G _). apply evictIno_good, G.
Qed.

Lemma linkPath_good (path : str) i s : wf s -> good s (linkPath path i s).
Proof.
  intros W. unfold linkPath. destruct (pathToInode s !! collapse path) eqn:E; [split; [done|apply keeps_refl]|].
  apply good_view; [done| |done]. apply names_wf; [done|right|..]; intros.
  - rewrite lookup_insert_is_Some'. eauto.
  - rewrite lookup_insert_ne; [done|]. intros <-. congruence.
  - match goal with H : _ = Some _ |- _ => apply lookup_insert_Some in H as [[_ <-]|[_ H]] end;
      rewrite lookup_insert_is_Some'; [by left|]. right. destruct W as [W _ _ _]. by eapply wf_names.
Qed.

Lemma pres_refresh_row r : pres (refresh_row r).
Proof.
  apply pres_get. intros s W. destruct (idToEntry s !! r_id r); [|by apply pres_ret].
  destruct (load s _) as [e|]; [|by apply pres_ret]. case_if; [|by apply pres_ret].
  apply good_store; [done|]. by right.
Qed.

Lemma pres_refreshDirStats id : pres (refreshDirStats id).
Proof.
  apply pres_bind; [apply pres_query|]. intros rows. case_if; [apply pres_ret|].
  apply pres_bind; [apply pres_for, pres_refresh_row|]. intros; apply pres_ret.
Qed.

Lemma pres_listDir pid b : pres (listDir pid b).
Proof.
  apply pres_bind; [apply pres_query|]. intros [shape|]; [|apply pres_throw].
  apply pres_get. intros s W. destruct (cached_listing pid b s) as [entries|]; [|by apply pres_ret].
  case_if; [by apply pres_ret|]. refine (pres_bind _ _ (pres_query _) _ s W). intros rows.
  apply pres_bind; [apply pres_alloc_all|intros; apply pres_ret].
Qed.

Section Law.
Context `{!FsDbOk DB}.

Lemma pres_updateEntry p : pres (updateEntry p).
Proof. apply pres_bind; [apply pres_write_row|intros; apply pres_cacheEntry]. Qed.

Lemma pres_store_and_cache p b {B} (a : B) : pres (bind (write_row p) (fun _ => bind (cacheEntry p b) (fun _ => ret a))).
Proof.
  apply pres_bind; [apply pres_write_row|]. intros. apply pres_bind; [apply pres_cacheEntry|intros; apply pres_ret].
Qed.

Lemma give_and_go {B} p path (f : M B) : pres f -> forall s e, wf s -> load s p = Some e -> e_inode e = None ->
  good s (bind (do_assign path) (fun i => bind (modify (store p (set_inode i))) (fun _ => f)) s).2.
Proof.
  intros Hf s e W He Hi. unfold bind at 1, do_assign. pose proof (assign_good path s W) as G. pose proof (assign_heap path s) as Hh.
  destruct (assignInode path s) as [i t]; simpl in *. refine (good_trans _ _ _ G _).
  unfold bind. simpl. assert (good t (store p (set_inode i) t)) as G2.
  { apply good_store; [apply G|]. intros e' He'. left. unfold load in *. rewrite Hh in He'. congruence. }
  refine (good_trans _ _ _ G2 _). apply Hf, G2.
Qed.

Lemma pres_getEntry_miss path : pres (getEntry_miss path).
Proof.
  apply pres_get. intros s W. destruct (vaultPath path s) as [[v rel]|]; [|by apply pres_ret].
  refine (pres_bind _ _ (pres_fetch _) _ s W). clear s W.
  intros [p|]; apply pres_get; intros s W; [|by apply pres_ret].
  simpl. destruct (load s p) as [e|] eqn:He; [|by apply pres_ret]. destruct (e_inode e) as [i|] eqn:Hi.
  - refine (pres_bind _ _ (pres_cacheEntry _ _) _ s W). intros; apply pres_ret.
  - eapply give_and_go; eauto. apply pres_store_and_cache.
Qed.

Lemma pres_getEntry path : pres (getEntry path).
Proof.
  apply pres_get. intros s W. destruct (pathToEntry s !! _).
  - refine (pres_bind _ _ pres_hit _ s W). intros; apply pres_ret.
  - refine (pres_bind _ _ pres_miss _ s W). intros; apply pres_catch, pres_getEntry_miss.
Qed.

Lemma pres_getEntry_by_inode i : pres (getEntry_by_inode i).
Proof.
  apply pres_get. intros s W. destruct (inodeToEntry s !! i).
  - refine (pres_bind _ _ pres_hit _ s W). intros; apply pres_ret.
  - refine (pres_bind _ _ pres_miss _ s W). intros. apply pres_bind; [apply pres_fetch|]. intros [p|]; [|apply pres_ret].
    apply pres_bind; [apply pres_cacheEntry|intros; apply pres_ret].
Qed.

Lemma pres_resolveInode path : pres (resolveInode path).
Proof.
  apply pres_get. intros s W. destruct (pathToInode s !! _); [by apply pres_ret|].
  refine (pres_bind _ _ (pres_getEntry _) _ s W). intros q. apply pres_get. clear s W. intros s W.
  destruct (q ≫= load s) as [e|]; [|by apply pres_ret].
  refine (pres_bind _ _ _ _ s W); [destruct (e_inode e); [apply pres_ret|apply pres_getOrAssign]|].
  intros i. case_if; [apply pres_ret|]. apply pres_bind; [|intros; apply pres_ret].
  apply pres_modify. intros t Wt. by apply linkPath_good.
Qed.

Lemma give_and_go' {B} p path (f : M B) : pres f -> forall s e, wf s -> load s p = Some e -> e_inode e = None ->
  good s (bind (getOrAssignInode path) (fun i => bind (modify (store p (set_inode i))) (fun _ => f)) s).2.
Proof.
  intros Hf s e W He Hi. unfold getOrAssignInode. case_if; [by apply pres_throw|]. eauto using give_and_go.
Qed.

Lemma pres_restore_one o : pres (restore_one o).
Proof.
  apply pres_get. intros s W. destruct o as [p|]; [|by apply pres_ret]. simpl.
  destruct (load s p) as [e|] eqn:He; [|by apply pres_ret]. destruct (e_inode e) eqn:Hi; [by apply pres_cacheEntry|].
  eapply give_and_go'; eauto. apply pres_bind; [apply pres_write_row|intros; apply pres_cacheEntry].
Qed.

Lemma pres_restoreCache : pres restoreCache.
Proof.
  apply pres_bind; [apply pres_getEntry_by_inode|]. intros q. apply pres_get. intros s W.
  destruct (q ≫= load s); [|by apply pres_throw].
  refine (pres_bind _ _ (pres_query _) _ s W). intros rows.
  apply pres_bind; [apply pres_alloc_all|]. intros ps. apply pres_for, pres_restore_one.
Qed.

(** The root's own inode may be rewritten: only a fresh object is. *)
Lemma initRoot_wf s : wf s -> wf (initRoot s).2.
Proof.
  intros W. unfold initRoot, fetch, bind at 1 2. unfold query, reads.
  destruct (getRootEntry (database s)) as [[e|]|x]; simpl; [|done..].
  destruct (alloc_keeps e s _ _ eq_refl) as (Hn & Hq & Hp & Ht). destruct (pres_alloc e s W) as [Wt Kt].
  set (p := fresh (dom (heap s))) in *. unfold bind at 1. simpl. unfold bind at 1, get.
  set (t := (alloc e s).2) in *. change (with_heap (<[p:=e]> (heap s)) s) with t in *. simpl. rewrite Hp.
  assert (forall i, wf (store p (set_inode i) t)) as Wstore.
  { intros i. apply wf_heap; [done|]. intros q e' Hc He'. exists e'. split; [|done]. rewrite lookup_alter_ne; [done|].
    intros <-. destruct (cached_live s p W) as (j & e2 & He2 & _); [|congruence]. exact Hc. }
  assert (forall i, wf (bind (modify (store p (set_inode i))) (fun _ => write_row p) t).2) as Hset
    by (intros i; apply (wf_bind (modify _)); [apply Wstore|intros; apply pres_write_row]).
  apply wf_bind; [|intros; apply pres_cacheEntry].
  destruct (e_inode e == None) eqn:E1; bsimpl.
  - eapply give_and_go'; eauto. apply pres_write_row.
  - case_if; [apply Hset|done].
Qed.

Lemma empty_cache_wf h (db : DB) n : wf (with_names n {[kRootInode := $"/"]} {[collapse $"/" := kRootInode]} (empty_cache h db)).
Proof.
  constructor; [constructor; simpl| | |by vm_compute]; try done.
  - intros k i [<- <-]%lookup_singleton_Some. by rewrite lookup_singleton_eq.
  - split; [|done]. intros c pid. simpl. rewrite lookup_empty. split; [done|]. intros (cs & Hcs & _). done.
Qed.

Lemma Registry_wf h (db : DB) : wf (Registry (empty_cache h db)).2.
Proof.
  unfold Registry, bind at 1, query, reads. destruct (getNextInode _) as [n|x]; simpl.
  2:{ exact (empty_cache_wf h db 2). }
  unfold bind at 1. simpl. pose proof (initRoot_wf _ (empty_cache_wf h db n)) as W. unfold bind.
  destruct (initRoot _) as [[[]|] s]; [|done]. by apply pres_restoreCache.
Qed.

(** ** The cache as a transition system *)

(** One operation, one change of cached or other objects by a caller, or one change
    of the database by anybody. *)
Inductive step : Cache DB -> Cache DB -> Prop :=
| step_getEntry path s : step s (getEntry path s).2
| step_getEntry_by_inode i s : step s (getEntry_by_inode i s).2
| step_getEntryById id s : step s (getEntryById id s).2
| step_resolveInode path s : step s (resolveInode path s).2
| step_assignInode (path : str) s : step s (assignInode path s).2
| step_getOrAssignInode path s : step s (getOrAssignInode path s).2
| step_linkPath path i s : step s (linkPath path i s)
| step_cacheEntry p b s : step s (cacheEntry p b s).2
| step_updateEntry p s : step s (updateEntry p s).2
| step_decrementInodeRef i n s : step s (decrementInodeRef i n s)
| step_evictIno i s : step s (evictIno i s)
| step_evictId id s : step s (evictId id s)
| step_evictPath path s : step s (evictPath path s)
| step_evictVault v r s : step s (evictVault v r s)
| step_refreshDirStats id s : step s (refreshDirStats id s).2
| step_listDir id b s : step s (listDir id b s).2
| step_caller h s : callers_may s h -> step s (with_heap h s)
| step_database db s : step s (with_database db s).

Lemma step_wf s t : wf s -> step s t -> wf t.
Proof.
  intros W. destruct 1; first
    [ by apply pres_getEntry | by apply pres_getEntry_by_inode | by apply pres_getEntryById | by apply pres_resolveInode
    | by apply assign_good | by apply pres_getOrAssign | by apply linkPath_good | by apply pres_cacheEntry
    | by apply pres_updateEntry | by apply evictIno_good | by apply evictId_good | by apply evictPath_good
    | by apply evictVault_good | by apply pres_refreshDirStats | by apply pres_listDir | by apply wf_heap | idtac ].
  - unfold decrementInodeRef. case_if; [done|]. by apply evictIno_good.
  - destruct W as [[] T C U]. constructor; [by constructor|done..].
Qed.
End Law.
End WellFormed.

(** ** Listings from the tree *)
Section Listing.
Context {DB : Type} `{FsDb DB}.
Implicit Types (s t : Cache DB) (p q : ptr) (e : Entry) (c pid : Z).

(** The cached entry [c] lies below [pid]. *)
Inductive below s pid : Z -> Prop :=
| below_child c : childToParent s !! c = Some pid -> below s pid c
| below_step m c : below s pid m -> childToParent s !! c = Some m -> below s pid c.

Definition ids_of s (l : list ptr) : list Z := omap (fun p => e_id <$> load s p) l.

Lemma filter_sizes {K} `{Countable K} {A} (P Q R : K * A -> Prop) `{!forall x, Decision (P x)}
    `{!forall x, Decision (Q x)} `{!forall x, Decision (R x)} (m : gmap K A) :
  (forall x, P x -> R x) -> (forall x, Q x -> R x) -> (forall x, P x -> ~ Q x) ->
  (size (filter P m) + size (filter Q m) <= size (filter R m))%nat.
Proof.
  intros HP HQ HPQ. rewrite <- map_size_disj_union.
  - apply map_subseteq_size. apply map_union_least; apply map_subseteq_spec; intros k a [? ?]%map_lookup_filter_Some;
      apply map_lookup_filter_Some; auto.
  - apply map_disjoint_spec. intros k a b [Ha HPa]%map_lookup_filter_Some [Hb HQb]%map_lookup_filter_Some.
    simplify_eq. by eapply HPQ.
Qed.

Lemma children_spec s pid p : wf s ->
  p ∈ children s pid <-> exists c, childToParent s !! c = Some pid /\ idToEntry s !! c = Some p.
Proof.
  intros W. destruct (wf_tree _ W) as [Hinv _]. unfold children. setoid_rewrite Hinv.
  destruct (parentToChildren s !! pid) as [cs|].
  - rewrite list_elem_of_omap. setoid_rewrite elem_of_elements. naive_solver.
  - split; [set_solver|]. naive_solver.
Qed.

Lemma named_inj s c c' p : wf s -> idToEntry s !! c = Some p -> idToEntry s !! c' = Some p -> c = c'.
Proof.
  intros W Hc Hc'. destruct (wf_id _ (wf_indexes _ W) _ _ Hc) as (e & _ & He & Hid & _).
  destruct (wf_id _ (wf_indexes _ W) _ _ Hc') as (e' & _ & He' & Hid' & _). congruence.
Qed.

Lemma children_NoDup s pid : wf s -> NoDup (children s pid).
Proof.
  intros W. unfold children. destruct (parentToChildren s !! pid) as [cs|]; [|constructor].
  pose proof (NoDup_elements cs) as Hnd. induction (base.elements cs) as [|c l IH]; simpl; [constructor|].
  apply NoDup_cons in Hnd as [Hc Hnd]. destruct (idToEntry s !! c) as [p|] eqn:Ep; [|auto].
  constructor; [|auto]. rewrite list_elem_of_omap. intros (c' & Hin & Hc'). by rewrite (named_inj s c c' p) in Hc.
Qed.

Lemma children_length s pid : wf s ->
  (length (children s pid) <= size (filter (fun kv : Z * Z => kv.2 = pid) (childToParent s)))%nat.
Proof.
  intros W. destruct (wf_tree _ W) as [Hinv _]. unfold children.
  destruct (parentToChildren s !! pid) as [cs|] eqn:Ecs; simpl; [|lia].
  transitivity (length (base.elements cs)).
  { generalize (base.elements cs) as l. induction l as [|c l IH]; [done|]. cbn [omap list_omap].
    destruct (idToEntry s !! c); cbn [length]; [by apply le_n_S|by apply le_S]. }
  change (size cs <= size (filter (fun kv : Z * Z => kv.2 = pid) (childToParent s)))%nat.
  rewrite <- size_dom. apply subseteq_size. intros c Hc. apply elem_of_dom. exists pid.
  apply map_lookup_filter_Some. split; [|done]. apply Hinv. eauto.
Qed.

Definition weight s (visited : gset Z) : nat := size (filter (fun kv : Z * Z => kv.2 ∉ visited) (childToParent s)).

Lemma weight_visit s vis c : wf s -> c ∉ vis -> (length (children s c) + weight s ({[c]} ∪ vis) <= weight s vis)%nat.
Proof.
  intros W Hc. pose proof (children_length s c W). unfold weight.
  pose proof (filter_sizes (fun kv : Z * Z => kv.2 = c) (fun kv => kv.2 ∉ {[c]} ∪ vis) (fun kv => kv.2 ∉ vis) (childToParent s)) as Hs.
  assert (forall a b c : nat, a <= b -> b + c <= weight s vis -> a + c <= weight s vis)%nat as Hle by lia.
  apply (Hle _ _ _ H0). apply Hs; [|set_solver..]. by intros x ->.
Qed.

Lemma walk_ends s fuel vis todo : wf s -> (length todo + weight s vis <= fuel)%nat -> is_Some (walk fuel s vis todo).
Proof.
  intros W. revert vis todo. induction fuel as [|fuel IH]; intros vis [|p rest] Hf; simpl in *; try lia; [eauto..|].
  apply fmap_is_Some. destruct (load s p) as [e|]; [|apply IH; lia].
  case_bool_decide as Hv; [apply IH; lia|]. apply IH. pose proof (weight_visit s vis (e_id e) W Hv).
  rewrite length_app. lia.
Qed.

Lemma weight_empty s : weight s ∅ = size (childToParent s).
Proof. unfold weight. rewrite map_filter_id; [done|]. set_solver. Qed.

Lemma listing_ends s pid b : wf s -> is_Some (cached_listing pid b s).
Proof.
  intros W. unfold cached_listing. destruct b; [|eauto]. apply walk_ends; [done|]. unfold listing_fuel.
  rewrite weight_empty. pose proof (children_length s pid W).
  pose proof (map_subseteq_size _ _ (map_filter_subseteq (fun kv : Z * Z => kv.2 = pid) (childToParent s))). lia.
Qed.

(** *** What the loop collects *)
Definition named s p c : Prop := idToEntry s !! c = Some p.

Lemma named_load s p c : wf s -> named s p c -> exists e, load s p = Some e /\ e_id e = c.
Proof. intros W Hn. destruct (wf_id _ (wf_indexes _ W) _ _ Hn) as (e & _ & He & Hid & _). eauto. Qed.

Lemma walk_collects s fuel vis todo r : wf s -> walk fuel s vis todo = Some r ->
  (forall p, p ∈ todo -> exists c, named s p c) ->
  (forall p, p ∈ todo -> p ∈ r) /\
  (forall p, p ∈ r -> exists c, named s p c /\ (p ∈ todo \/ exists q d, q ∈ todo /\ named s q d /\ below s d c)) /\
  (forall p c, p ∈ r -> named s p c -> c ∉ vis -> forall q, q ∈ children s c -> q ∈ r).
Proof.
  intros W. revert vis todo r. induction fuel as [|fuel IH]; intros vis [|p rest] r Hr Hn; simpl in Hr.
  1,3: injection Hr as <-; split_and!; intros; set_solver.
  { done. }
  destruct (Hn p) as [c0 Hc0]; [left|]. destruct (named_load s p c0 W Hc0) as (e & He & Hid). rewrite He in Hr.
  rewrite Hid in Hr. destruct (bool_decide (c0 ∈ vis)) eqn:Hv; bsimpl.
  - destruct (walk fuel s vis rest) as [r'|] eqn:Er; [|done]. injection Hr as <-.
    destruct (IH _ _ _ Er) as (Ha & Hb & Hc); [set_solver|]. split_and!.
    + set_solver.
    + intros x [->|Hx]%elem_of_cons; [exists c0; split; [done|left; left]|].
      destruct (Hb x Hx) as (c & ? & [?|(q & d & ? & ? & ?)]); exists c; (split; [done|]); [left; by right|right].
      exists q, d. split; [by right|done].
    + intros x c [->|Hx]%elem_of_cons Hxc Hcv q Hq; [|right; eauto].
      by rewrite <- (named_inj s c0 c p) in Hcv.
  - destruct (walk fuel s ({[c0]} ∪ vis) (rest ++ children s c0)) as [r'|] eqn:Er; [|done]. injection Hr as <-.
    destruct (IH _ _ _ Er) as (Ha & Hb & Hc).
    { intros x [Hx|Hx]%elem_of_app; [apply Hn; by right|]. apply children_spec in Hx as (c & _ & ?); [|done]. by exists c. }
    split_and!.
    + intros x [->|Hx]%elem_of_cons; [left|right]. apply Ha. set_solver.
    + intros x [->|Hx]%elem_of_cons; [exists c0; split; [done|left; left]|].
      destruct (Hb x Hx) as (c & Hxc & Hcase). exists c. split; [done|].
      destruct Hcase as [[Hx'|Hx']%elem_of_app|(q & d & [Hq|Hq]%elem_of_app & Hqd & Hbl)].
      * left. by right.
      * right. exists p, c0. split; [left|]. split; [done|]. apply children_spec in Hx' as (c' & ? & Hc'); [|done].
        rewrite (named_inj s c c' x) by done. by constructor.
      * right. exists q, d. split; [by right|done].
      * right. exists p, c0. split; [left|]. split; [done|]. apply children_spec in Hq as (d' & Hd & Hd'); [|done].
        rewrite (named_inj s d d' q) in * by done. clear - Hbl Hd.
        induction Hbl; [eapply below_step; [by constructor|done]|by eapply below_step].
    + intros x c Hx Hxc Hcv q Hq. right. destruct (decide (c = c0)) as [->|Hne]; [apply Ha; set_solver|].
      apply elem_of_cons in Hx as [->|Hx]; [by rewrite (named_inj s c0 c p) in Hne|].
      apply (Hc x c); [done..|set_solver|done].
Qed.

(** From a start that is not below itself nothing is collected twice. *)
Lemma walk_once s root fuel vis todo r : wf s -> ~ below s root root -> walk fuel s vis todo = Some r ->
  NoDup todo ->
  (forall p, p ∈ todo -> exists c m, named s p c /\ below s root c /\ childToParent s !! c = Some m /\ (m = root \/ m ∈ vis)) ->
  NoDup r /\ (forall p, p ∈ r -> p ∈ todo \/
    exists c m, named s p c /\ childToParent s !! c = Some m /\ m <> root /\ m ∉ vis).
Proof.
  intros W Hroot. revert vis todo r. induction fuel as [|fuel IH]; intros vis [|p rest] r Hr Hnd Hn; simpl in Hr.
  1,3: injection Hr as <-; split; [constructor|set_solver].
  { done. }
  destruct (Hn p) as (c0 & m0 & Hc0 & Hbel & Hm0 & Hm0v); [left|]. destruct (named_load s p c0 W Hc0) as (e & He & Hid).
  rewrite He, Hid in Hr. apply NoDup_cons in Hnd as [Hp Hnd].
  destruct (bool_decide (c0 ∈ vis)) eqn:Hv; bsimpl.
  - destruct (walk fuel s vis rest) as [r'|] eqn:Er; [|done]. injection Hr as <-.
    destruct (IH _ _ _ Er Hnd) as [Hr Hin]; [intros x Hx; apply Hn; by right|]. split.
    + constructor; [|done]. intros [|(c & m & Hpc & Hcm & Hmr & Hmv)]%Hin; [done|].
      rewrite (named_inj s c c0 p) in Hcm by done. simplify_eq. naive_solver.
    + intros x [->|Hx]%elem_of_cons; [left; left|]. destruct (Hin x Hx); [left; by right|by right].
  - destruct (walk fuel s ({[c0]} ∪ vis) (rest ++ children s c0)) as [r'|] eqn:Er; [|done]. injection Hr as <-.
    assert (c0 <> root) as Hne by (intros ->; done).
    assert (Hkid : forall x, x ∈ children s c0 -> exists c, named s x c /\ childToParent s !! c = Some c0).
    { intros x Hx. apply children_spec in Hx as (c & ? & ?); [|done]. by exists c. }
    assert (Hold : forall x, x ∈ p :: rest -> x ∉ children s c0).
    { intros x Hx (c & Hxc & Hcc)%Hkid. destruct (Hn x Hx) as (c' & m & Hxc' & _ & Hcm & Hm).
      rewrite (named_inj s c c' x) in Hcc by done. simplify_eq. naive_solver. }
    destruct (IH _ _ _ Er) as [Hr Hin].
    { apply NoDup_app. split_and!; [done| |by apply children_NoDup]. intros x Hx. apply Hold. by right. }
    { intros x [Hx|Hx]%elem_of_app.
      - destruct (Hn x) as (c & m & ? & ? & ? & ?); [by right|]. exists c, m. split_and!; try done. set_solver.
      - destruct (Hkid x Hx) as (c & ? & ?). exists c, c0. split_and!; [done|by eapply below_step|done|set_solver]. }
    split.
    + constructor; [|done]. intros [[|Hx]%elem_of_app|(c & m & Hpc & Hcm & Hmr & Hmv)]%Hin; [done|..].
      * apply (Hold p); [left|done].
      * rewrite (named_inj s c c0 p) in Hcm by done. simplify_eq. set_solver.
    + intros x [->|Hx]%elem_of_cons; [left; left|].
      destruct (Hin x Hx) as [[Hx'|Hx']%elem_of_app|(c & m & ? & ? & ? & ?)].
      * left. by right.
      * right. destruct (Hkid x Hx') as (c & ? & ?). exists c, c0. by split_and!.
      * right. exists c, m. split_and!; try done. set_solver.
Qed.

Lemma ids_of_spec s r c : wf s -> (forall p, p ∈ r -> exists c, named s p c) ->
  c ∈ ids_of s r <-> exists p, p ∈ r /\ named s p c.
Proof.
  intros W Hn. unfold ids_of. rewrite list_elem_of_omap. split; intros (p & Hp & Hc); exists p; (split; [done|]).
  - destruct (Hn p Hp) as [d Hd]. destruct (named_load s p d W Hd) as (e & He & <-).
    rewrite He in Hc. simpl in Hc. by injection Hc as <-.
  - destruct (named_load s p c W Hc) as (e & He & <-). by rewrite He.
Qed.

Lemma ids_of_NoDup s r : wf s -> (forall p, p ∈ r -> exists c, named s p c) -> NoDup r -> NoDup (ids_of s r).
Proof.
  intros W. induction r as [|p r IH]; intros Hn Hnd; [constructor|]. apply NoDup_cons in Hnd as [Hp Hnd].
  destruct (Hn p) as [c Hc]; [left|]. destruct (named_load s p c W Hc) as (e & He & Hid).
  change (NoDup (ids_of s (p :: r))) with (NoDup (omap (fun p => e_id <$> load s p) (p :: r))). cbn [omap list_omap].
  rewrite He. simpl. apply NoDup_cons. split.
  - intros (q & Hq & Hqc)%ids_of_spec; [|done|intros; apply Hn; by right].
    unfold named in *. rewrite Hid in Hqc. congruence.
  - apply IH; [intros; apply Hn; by right|done].
Qed.

Lemma children_named s pid p : wf s -> p ∈ children s pid -> exists c, named s p c.
Proof. intros W (c & _ & ?)%children_spec; [|done]. by exists c. Qed.

Lemma listing_direct s pid : wf s ->
  NoDup (ids_of s (children s pid)) /\ (forall c, c ∈ ids_of s (children s pid) <-> childToParent s !! c = Some pid).
Proof.
  intros W. split; [apply ids_of_NoDup; eauto using children_named, children_NoDup|].
  intros c. rewrite ids_of_spec by eauto using children_named. setoid_rewrite children_spec; [|done]. split.
  - intros (p & (c' & Hc & Hp) & Hpc). by rewrite (named_inj s c c' p).
  - intros Hc. destruct (wf_cached _ W _ _ Hc) as [p Hp]. exists p. split; [by exists c|done].
Qed.

Lemma listing_recursive s pid r : wf s -> cached_listing pid true s = Some r ->
  (forall c, c ∈ ids_of s r <-> below s pid c) /\ (~ below s pid pid -> NoDup (ids_of s r)).
Proof.
  intros W Hr. simpl in Hr. pose proof (fun p => children_named s pid p W) as Hn.
  destruct (walk_collects _ _ _ _ _ W Hr Hn) as (Ha & Hb & Hc).
  assert (Hnr : forall p, p ∈ r -> exists c, named s p c) by (intros p (c & ? & _)%Hb; by exists c). split.
  - intros c. rewrite ids_of_spec by done. split.
    + intros (p & Hp & Hpc). destruct (Hb p Hp) as (c' & Hpc' & Hcase). rewrite (named_inj s c c' p) by done.
      destruct Hcase as [(d & ? & ?)%children_spec|(q & d & (d' & ? & ?)%children_spec & Hqd & Hbl)]; try done.
      * rewrite (named_inj s c' d p) by done. by constructor.
      * rewrite (named_inj s d d' q) in Hbl by done.
        clear - Hbl H0. induction Hbl; [eapply below_step; [by constructor|done]|by eapply below_step].
    + induction 1 as [c Hcp|m c Hm (p & Hp & Hpm) Hcm].
      * destruct (wf_cached _ W _ _ Hcp) as [p Hp]. exists p. split; [|done]. apply Ha, children_spec; [done|]. eauto.
      * destruct (wf_cached _ W _ _ Hcm) as [q Hq]. exists q. split; [|done].
        apply (Hc p m); [done..|set_solver|]. apply children_spec; [done|]. eauto.
  - intros Hroot. destruct (walk_once s pid _ _ _ _ W Hroot Hr) as [Hnd _]; [by apply children_NoDup| |by apply ids_of_NoDup].
    intros p (c & ? & ?)%children_spec; [|done]. exists c, pid. split_and!; [done|by constructor|done|by left].
Qed.
End Listing.

(** ** A small database, for concrete runs *)
Module Demo.
Definition entry (id : Z) (parent vault : option Z) (path fuse backing : str) (dir : bool) (size : Z) : Entry :=
  mkEntry id [] [] size parent vault (Some id) path fuse backing dir 0 0 0.
Definition root := entry 1 None None $"/" $"/" $"/" true 0.
Definition media := entry 2 (Some 1) (Some 7) $"/" $"/media" $"/b" true 10.
Definition song := entry 3 (Some 2) (Some 7) $"/song" $"/media/song" $"/b/s" false 10.
Definition row (e : Entry) : StatRow := mkStatRow (e_id e) (e_size_bytes e) 0 0 None.
Definition by_id (id : Z) : option Entry := if id =? 1 then Some root else if id =? 2 then Some media else if id =? 3 then Some song else None.

#[global] Instance db : FsDb unit := {
  getNextInode _ := Ok 4;
  getRootEntry _ := Ok (Some root);
  getFSEntryById id _ := Ok (by_id id);
  getFSEntryByInode i _ := Ok (by_id i);
  getFSEntryByPath v p _ := Ok (if p == $"/song" then Some song else None);
  db_listDir id _ _ := Ok [Some media; Some song];
  db_listSubtree id _ := Ok [Some media; Some song];
  collectParentStats id _ := Ok (if id =? 2 then [row media; row root] else if id =? 1 then [row root] else []);
  listingShape id _ := Ok (Some (mkShape 1 (if id =? 1 then 2 else 1)));
  updateFSEntry _ d := Ok d }.

#[global] Instance db_ok : FsDbOk unit.
Proof.
  intros d id e. simpl. unfold by_id. destruct (Z.eqb_spec id 1) as [->|]; [by intros [= <-]|].
  destruct (Z.eqb_spec id 2) as [->|]; [by intros [= <-]|]. destruct (Z.eqb_spec id 3) as [->|]; [by intros [= <-]|done].
Qed.

Definition start : Cache unit := (Registry (empty_cache ∅ tt)).2.
End Demo.

Example demo_start :
  is_ok (Registry (empty_cache ∅ tt)).1 = true /\
  ids_of Demo.start (children Demo.start 1) = [2] /\
  option_map (ids_of Demo.start) (cached_listing 1 true Demo.start) = Some [2; 3] /\
  pathToInode Demo.start !! $"/media/song" = Some 3 /\ used_bytes (stats Demo.start) = 20 /\
  (getEntry $"/media/../media/song" Demo.start).1 = Ok (idToEntry Demo.start !! 3) /\
  ids_of (evictId 2 Demo.start) (default [] (cached_listing 1 true (evictId 2 Demo.start))) = [] /\
  (map_to_list (idToEntry (evictVault 7 $"/media" Demo.start))).*1 = [1].
Proof. vm_compute. split_and!; reflexivity. Qed.

(** ** After caching an entry *)
Section Caching.
Context {DB : Type} `{FsDbOk DB}.
Implicit Types (s t : Cache DB) (p q : ptr) (e : Entry).

(** The entry at [p] answers for its id, its inode and its path, and for no other path. *)
Record settled (s : Cache DB) (p : ptr) (id ino : Z) (fuse : str) : Prop := {
  st_load : exists e, load s p = Some e /\ e_id e = id /\ e_inode e = Some ino /\ e_fuse_path e = fuse;
  st_id : idToEntry s !! id = Some p;
  st_inode : inodeToEntry s !! ino = Some p /\ inodeToId s !! ino = Some id /\ inodeToPath s !! ino = Some fuse;
  st_path : pathToInode s !! collapse fuse = Some ino /\ pathToEntry s !! collapse fuse = Some p;
  st_inode_only : forall k, pathToInode s !! k = Some ino -> k = collapse fuse;
  st_path_only : forall k q, pathToEntry s !! k = Some q -> has_id s id q = true -> k = collapse fuse }.

(** The directories of the parent chain are other entries. *)
Definition apart (d : DB) (id ino : Z) (fuse : str) (r : StatRow) : Prop :=
  forall e', getFSEntryById (r_id r) d = Ok (Some e') ->
    r_id r <> id /\ e_inode e' <> Some ino /\ collapse (e_fuse_path e') <> collapse fuse.

Lemma index_maps p e i s :
  index_view (index p e i s) =
    (heap s, <[i := e_fuse_path e]> (inodeToPath s), <[collapse (e_fuse_path e) := i]> (pathToInode s),
     <[i := p]> (inodeToEntry s), <[collapse (e_fuse_path e) := p]> (pathToEntry s),
     <[i := e_id e]> (inodeToId s), <[e_id e := p]> (idToEntry s)).
Proof. unfold index. by rewrite link_view. Qed.

Lemma index_settled p e i s : load s p = Some e -> e_inode e = Some i ->
  (forall k, pathToInode s !! k = Some i -> k = collapse (e_fuse_path e)) -> unclaimed (e_id e) i (e_fuse_path e) s ->
  settled (index p e i s) p (e_id e) i (e_fuse_path e).
Proof.
  intros He Hi Hn [Hown Hpath]. pose proof (index_maps p e i s) as Hm. injection Hm as Hh H1 H2 H3 H4 H5 H6.
  constructor; rewrite ?H1, ?H2, ?H3, ?H4, ?H5, ?H6, ?lookup_insert_eq; try done.
  - exists e. unfold load in *. rewrite Hh. done.
  - intros k [[<- _]|[_ Hk]]%lookup_insert_Some; auto.
  - intros k q [[<- <-]|[_ Hk]]%lookup_insert_Some Hid; [done|]. apply (Hpath k q); [done|].
    unfold has_id, load in *. by rewrite <- Hh.
Qed.

Lemma settled_view s t p id ino (fuse : str) : wf s -> settled s p id ino fuse ->
  (forall q e, load s q = Some e -> exists e', load t q = Some e' /\ e_id e' = e_id e /\ e_inode e' = e_inode e /\ e_fuse_path e' = e_fuse_path e) ->
  inodeToPath t = inodeToPath s -> pathToInode t = pathToInode s -> inodeToEntry t = inodeToEntry s ->
  pathToEntry t = pathToEntry s -> inodeToId t = inodeToId s -> idToEntry t = idToEntry s -> settled t p id ino fuse.
Proof.
  intros W [(e & He & Hid & Hi & Hf) S2 S3 S4 S5 S6] Hl E1 E2 E3 E4 E5 E6.
  constructor; rewrite ?E1, ?E2, ?E3, ?E4, ?E5, ?E6; try done.
  - destruct (Hl _ _ He) as (e' & ? & ? & ? & ?). exists e'. split_and!; congruence.
  - intros k q Hk Hq. apply (S6 k q Hk). destruct (wf_path _ (wf_indexes _ W) _ _ Hk) as (e0 & He0 & _).
    destruct (Hl _ _ He0) as (e' & He' & Heq & _). unfold has_id in *. rewrite He' in Hq. rewrite He0. by rewrite <- Heq.
Qed.

Lemma store_view d f s : (forall e, e_id (f e) = e_id e /\ e_inode (f e) = e_inode e /\ e_fuse_path (f e) = e_fuse_path e) ->
  forall q e, load s q = Some e -> exists e', load (store d f s) q = Some e' /\ e_id e' = e_id e /\ e_inode e' = e_inode e /\ e_fuse_path e' = e_fuse_path e.
Proof.
  intros Hf q e He. unfold load in *. simpl. destruct (decide (d = q)) as [->|Hne].
  - exists (f e). rewrite lookup_alter_eq, He. split; [done|]. apply Hf.
  - exists e. by rewrite lookup_alter_ne.
Qed.

Lemma index_stats p e i s : stats (index p e i s) = stats s /\ database (index p e i s) = database s.
Proof. unfold index. destruct (e_parent_id e); simpl; [done|]. unfold unlinkChild. simpl. by destruct (childToParent s !! e_id e). Qed.

Lemma insert_other np e s t p id ino (fuse : str) : settled s p id ino fuse -> load s np = Some e ->
  e_id e <> id -> e_inode e <> Some ino -> collapse (e_fuse_path e) <> collapse fuse ->
  insert_entry (Some np) s = (Ok tt, t) ->
  settled t p id ino fuse /\ database t = database s /\ used_bytes (stats t) = used_bytes (stats s).
Proof.
  intros [S1 S2 (S3 & S3' & S3'') (S4 & S4') S5 S6] He Hid Hino Hf. unfold insert_entry, bind, get. rewrite He.
  destruct (e_inode e) as [i|]; [|done]. intros [= <-]. destruct (index_stats np e i s) as [-> ->]. split; [|done].
  assert (i <> ino) as Hi by congruence.
  pose proof (index_maps np e i s) as Hm. injection Hm as Hh H1 H2 H3 H4 H5 H6.
  constructor; rewrite ?H1, ?H2, ?H3, ?H4, ?H5, ?H6, ?lookup_insert_ne by done; try done.
  - unfold load in *. by rewrite Hh.
  - intros k [[_ ?]|[_ Hk]]%lookup_insert_Some; [done|auto].
  - intros k q [[<- <-]|[_ Hk]]%lookup_insert_Some Hq; unfold has_id, load in *; rewrite Hh in Hq.
    + rewrite He in Hq. by bsimpl.
    + by apply (S6 k q).
Qed.

Lemma write_stats_settled s t p id ino (fuse : str) r : wf s -> settled s p id ino fuse -> apart (database s) id ino fuse r ->
  write_stats r s = (Ok tt, t) -> settled t p id ino fuse /\ database t = database s /\ used_bytes (stats t) = used_bytes (stats s).
Proof.
  intros W S Ha. unfold write_stats, bind at 1, get. destruct (idToEntry s !! r_id r) as [d|] eqn:Ed.
  - intros [= <-]. split_and!; [|done..]. apply (settled_view s); try done. by apply store_view.
  - unfold fetch, bind, query, reads. destruct (getFSEntryById (r_id r) (database s)) as [[e|]|x] eqn:Eq; simpl; [|by intros [= <-]|done].
    destruct (Ha e Eq) as (Hid & Hino & Hf). destruct (alloc_keeps e s _ _ eq_refl) as (Hn & Hq & Hp & Ht).
    destruct (pres_alloc e s W) as [Wt Kt]. unfold bind. simpl. set (u := (alloc e s).2) in *.
    change (with_heap (<[fresh (dom (heap s)):=e]> (heap s)) s) with u. set (np := fresh (dom (heap s))) in *.
    change (load u np = Some e) in Hp.
    assert (settled u p id ino fuse) as Su.
    { apply (settled_view s); try done. intros q e0 He0. exists e0. rewrite Hq; [done|]. intros ->.
      change (load s np = None) in Hn. congruence. }
    intros Hins. destruct (insert_other np e u t p id ino fuse Su Hp) as (St & -> & ->); try done.
    by rewrite (fetched_id _ _ _ Eq).
Qed.

Lemma for_each_settled s t p id ino (fuse : str) rows : wf s -> settled s p id ino fuse ->
  (forall r, r ∈ rows -> apart (database s) id ino fuse r) -> for_each rows write_stats s = (Ok tt, t) ->
  settled t p id ino fuse /\ database t = database s /\ used_bytes (stats t) = used_bytes (stats s).
Proof.
  revert s. induction rows as [|r rows IH]; intros s W S Ha; simpl; [by intros [= <-]|].
  unfold bind. destruct (write_stats r s) as [[[]|] u] eqn:E; [|done]. intros Hu.
  pose proof (pres_write_stats r s W) as [Wu _]. rewrite E in Wu.
  destruct (write_stats_settled s u p id ino fuse r) as (Su & Hd & Hs); [done|done|apply Ha; left|done|].
  destruct (IH u) as (St & Hd' & Hs'); [done|done| |done|].
  - intros x Hx. rewrite Hd. apply Ha. by right.
  - split_and!; [done|congruence..].
Qed.


Lemma bind_insert {B} (k : unit -> M B) p e i s : load s p = Some e -> e_inode e = Some i ->
  bind (insert_entry (Some p)) k s = k tt (index p e i s).
Proof. intros He Hi. unfold insert_entry, bind, get. by rewrite He, Hi. Qed.

Lemma put_entry_settled s t p e ino rows : wf s -> load s p = Some e -> e_inode e = Some ino ->
  (forall r, r ∈ rows -> apart (database s) (e_id e) ino (e_fuse_path e) r) ->
  put_entry p ino rows s = (Ok tt, t) ->
  settled t p (e_id e) ino (e_fuse_path e) /\
  used_bytes (stats t) = used_bytes (account (replaced e ino s) (safeSizeBytes (Some e)) (stats s)).
Proof.
  intros W He Hi Ha. unfold put_entry, bind at 1, get. rewrite He. generalize (replaced e ino s). intros old Hrun.
  pose proof (rekey_outside e ino s) as Ho. injection Ho as Hh Hd Hs _ _ _ _.
  assert (load (rekey e ino s) p = Some e) as He' by (unfold load in *; congruence).
  pose proof (rekey_wf e ino s W) as Wr. pose proof (rekey_unclaimed e ino s (wf_indexes _ W)) as Hu.
  pose proof (index_wf p e ino _ Wr He' Hi Hu) as Wi. destruct (index_stats p e ino (rekey e ino s)) as [His Hid].
  assert (settled (index p e ino (rekey e ino s)) p (e_id e) ino (e_fuse_path e)) as S
    by (apply index_settled; try done; apply rekey_names).
  apply bind_ok in Hrun as ([] & u0 & [= <-] & Hrun). rewrite (bind_insert _ _ _ _ _ He' Hi) in Hrun.
  apply bind_ok in Hrun as ([] & u & Ef & [= <-]).
  assert (forall r, r ∈ rows -> apart (database (index p e ino (rekey e ino s))) (e_id e) ino (e_fuse_path e) r) as Ha'
    by (rewrite Hid, Hd; done).
  destruct (for_each_settled _ _ _ _ _ _ _ Wi S Ha' Ef) as (Su & _ & Hus). split.
  - destruct Su. by constructor.
  - assert (used_bytes (stats u) = used_bytes (stats s)) as Hu' by congruence.
    destruct old; cbn [account used_bytes set_used stats on_stats with_stats]; by rewrite Hu'.
Qed.

(** The path the preflight leaves the entry with: its own, or its parent's and its name. *)
Definition parent_entry s (pid : Z) : option Entry :=
  match idToEntry s !! u32 pid with
  | Some q => load s q
  | None => match getFSEntryById (u32 pid) (database s) with Ok o => o | Err _ => None end
  end.
Definition final_fuse s e (ino : Z) : str :=
  if (ino == kRootInode) || negb (is_empty (e_fuse_path e) || is_empty (e_backing_path e)) then e_fuse_path e
  else match e_parent_id e ≫= parent_entry s with
       | Some parent => path_div (e_fuse_path parent) (e_name e)
       | None => e_fuse_path e
       end.

Lemma getEntryById_ok s id o u : getEntryById id s = (Ok o, u) ->
  (o ≫= load u = match idToEntry s !! id with Some q => load s q
                 | None => match getFSEntryById id (database s) with Ok r => r | Err _ => None end end) /\
  (forall q e, load s q = Some e -> load u q = Some e) /\ database u = database s /\
  used_bytes (stats u) = used_bytes (stats s) /\ inodeToEntry u = inodeToEntry s.
Proof.
  unfold getEntryById, bind at 1, get. destruct (idToEntry s !! id) as [q|].
  - intros [= <- <-]. by split_and!.
  - unfold bind, fetch, modify, query, reads. cbn. unfold bind. destruct (getFSEntryById id (database s)) as [[e|]|x]; [|by intros [= <- <-]|done].
    intros [= <- <-]. split_and!; try done; unfold load; simpl; [by rewrite lookup_insert_eq|].
    intros q e0 Hq. rewrite lookup_insert_ne; [done|]. intros <-.
    assert (fresh (dom (heap s)) ∈ dom (heap s)) as Hin by (apply elem_of_dom; by exists e0).
    by apply is_fresh in Hin.
Qed.

Lemma preflight_ok s p e i u : load s p = Some e -> preflight p e i s = (Ok tt, u) ->
  (exists e', load u p = Some e' /\ e_fuse_path e' = final_fuse s e i /\ e_id e' = e_id e /\
    e_inode e' = e_inode e /\ e_parent_id e' = e_parent_id e /\ e_size_bytes e' = e_size_bytes e) /\
  database u = database s /\ used_bytes (stats u) = used_bytes (stats s) /\ inodeToEntry u = inodeToEntry s /\
  (i <> kRootInode -> is_Some (e_vault_id e)).
Proof.
  intros He. unfold preflight, final_fuse. destruct (i == kRootInode) eqn:Er; bsimpl.
  { intros [= <-]. split_and!; try done. by exists e. }
  destruct (e_vault_id e) as [v|]; [|done]. destruct (is_empty (e_fuse_path e) || is_empty (e_backing_path e)) eqn:Ep; simpl.
  2:{ intros [= <-]. split_and!; try done. by exists e. }
  destruct (e_parent_id e) as [pid|] eqn:Epid; [|done]. simpl. unfold parent_entry.
  intros (o & u0 & Hget & Hrun)%bind_ok. destruct (getEntryById_ok _ _ _ _ Hget) as (Ho & Hl & Hd & Hu & Hie).
  unfold bind, get in Hrun. rewrite Ho in Hrun. destruct (match idToEntry s !! u32 pid with Some _ => _ | None => _ end) as [parent|]; [|done].
  injection Hrun as <-. split_and!; try done.
  exists (set_paths (path_div (e_fuse_path parent) (e_name e)) (path_div (e_backing_path parent) (e_base32_alias e)) e).
  unfold load in *. simpl. by rewrite lookup_alter_eq, (Hl _ _ He).
Qed.

Lemma cacheEntry_run s t p b e : wf s -> load s p = Some e -> cacheEntry p b s = (Ok tt, t) ->
  exists ino, e_inode e = Some ino /\
    ((forall pid rows r, e_parent_id e = Some pid -> collectParentStats (u32 pid) (database s) = Ok rows -> r ∈ rows ->
        apart (database s) (e_id e) ino (final_fuse s e ino) r) ->
      settled t p (e_id e) ino (final_fuse s e ino) /\
      (inodeToEntry s !! ino = Some p -> used_bytes (stats t) = used_bytes (stats s))).
Proof.
  intros W He Hrun. unfold cacheEntry, bind at 1, get in Hrun. rewrite He in Hrun.
  destruct (e_inode e) as [i|] eqn:Hi; [|done]. exists i. split; [done|]. intros Ha.
  apply bind_ok in Hrun as ([] & u & Hpre & Hrun). pose proof (pres_preflight p e i s W) as [Wu _]. rewrite Hpre in Wu. cbn [snd] in Wu.
  destruct (preflight_ok _ _ _ _ _ He Hpre) as ((e' & He' & Hf & Hid & Hi' & Hpid & Hsz) & Hd & Hus & Hie & _).
  apply bind_ok in Hrun as (rows & u1 & Hrows & Hput).
  assert (u1 = u /\ forall r, r ∈ rows -> apart (database u) (e_id e') i (e_fuse_path e') r) as [-> Hap].
  { unfold upstream_rows in Hrows. rewrite Hid, Hf, Hd. destruct (e_parent_id e) as [pid|] eqn:Epid; [|injection Hrows as <- <-; set_solver].
    destruct b; [injection Hrows as <- <-; set_solver|]. unfold query, reads in Hrows. rewrite Hd in Hrows.
    injection Hrows as Hrows <-. split; [done|]. intros r Hr. by eapply Ha. }
  rewrite Hi in Hi'. destruct (put_entry_settled _ _ _ _ _ _ Wu He' Hi' Hap Hput) as [St Hu]. rewrite Hid, Hf in St.
  split; [done|]. intros Hin. rewrite Hu. unfold replaced. rewrite Hie, Hin. simpl. rewrite He'. cbn [account used_bytes set_used].
  rewrite Z.leb_refl. cbv zeta. rewrite Z.sub_diag, <- Hus. unfold addClamp. pose proof (wf_used _ Wu). case_if; bsimpl; lia.
Qed.
End Caching.

(** ** What the cache promises *)

(** C16. Whatever sequence of lookups, insertions, evictions and listings runs, with
    callers changing entries in place (all but their id and inode) and others changing
    the database in between, a constructed cache stays well formed: the id, inode and
    path indexes agree on living entries, every inode handed out for a path resolves,
    the child sets are exactly the inverse of the parent map and mention cached
    entries only, and the byte counter stays an unsigned 64-bit number. *)
Theorem cache_stays_wellformed {DB : Type} `{FsDbOk DB} (h : gmap ptr Entry) (db : DB) (s0 s : Cache DB) :
  Registry (empty_cache h db) = (Ok tt, s0) -> rtc step s0 s -> wf s.
Proof.
  intros Hr. assert (wf s0) as W by (pose proof (Registry_wf h db) as W; by rewrite Hr in W).
  clear Hr. intros Hs. induction Hs; [done|]. eauto using step_wf.
Qed.

Lemma cache_stays_wellformed_witness :
  Registry (empty_cache ∅ tt) = (Ok tt, Demo.start) /\
  wf (evictVault 7 $"/media" (evictId 3 Demo.start)) /\
  (map_to_list (childToParent (evictId 3 Demo.start)) = [(2, 1)]).
Proof.
  assert (Registry (empty_cache ∅ tt) = (Ok tt, Demo.start)) as Hr by (by vm_compute).
  split; [exact Hr|]. split; [|by vm_compute].
  apply (cache_stays_wellformed ∅ tt Demo.start _ Hr).
  eapply rtc_l; [apply (step_evictId 3)|]. eapply rtc_l; [apply (step_evictVault 7 $"/media")|]. apply rtc_refl.
Defined.

(** C32. Listing terminates: on a well-formed cache the loop that grows its own list
    ends within twice the number of cached children, cycles included, so [listDir]
    always returns or throws. *)
Theorem listDir_ends {DB : Type} `{FsDb DB} (s : Cache DB) (pid : Z) (recursive : bool) : wf s ->
  (forall fuel, (listing_fuel s <= fuel)%nat -> is_Some (walk fuel s ∅ (children s pid))) /\
  (forall t, listDir pid recursive s <> (Ok None, t)).
Proof.
  intros W. split.
  - intros fuel Hf. apply walk_ends; [done|]. rewrite weight_empty. unfold listing_fuel in Hf.
    pose proof (children_length s pid W).
    pose proof (map_subseteq_size _ _ (map_filter_subseteq (fun kv : Z * Z => kv.2 = pid) (childToParent s))). lia.
  - intros t. unfold listDir, bind at 1, query, reads. destruct (listingShape _ _) as [[shape|]|]; simpl; try done.
    unfold bind at 1, get. destruct (listing_ends s pid recursive W) as [entries ->].
    case_if; [done|]. intros (a & u & _ & (b & u' & _ & Hret)%bind_ok)%bind_ok. by injection Hret.
Qed.

Lemma listDir_ends_witness :
  wf Demo.start /\ walk (listing_fuel Demo.start) Demo.start ∅ (children Demo.start 1) <> None /\
  (forall t, listDir 1 true Demo.start <> (Ok None, t)).
Proof.
  assert (wf Demo.start) as W by apply Registry_wf.
  split; [exact W|]. destruct (listDir_ends Demo.start 1 true W) as [Hw Hl]. split; [|exact Hl].
  destruct (Hw _ (le_n _)) as [r ->]. done.
Defined.

(** A listing served from the cache is exact: without recursion the cached entries
    whose parent is the directory, each once; with recursion exactly the cached
    entries below it, each once unless the directory lies below itself. *)
Theorem cached_listing_exact {DB : Type} `{FsDb DB} (s : Cache DB) (pid : Z) : wf s ->
  (exists l, cached_listing pid false s = Some l /\ NoDup (ids_of s l) /\
     forall c, c ∈ ids_of s l <-> childToParent s !! c = Some pid) /\
  (exists l, cached_listing pid true s = Some l /\ (~ below s pid pid -> NoDup (ids_of s l)) /\
     forall c, c ∈ ids_of s l <-> below s pid c).
Proof.
  intros W. split.
  - exists (children s pid). split; [done|]. by apply listing_direct.
  - destruct (listing_ends s pid true W) as [l Hl]. exists l. split; [done|].
    destruct (listing_recursive s pid l W Hl). done.
Qed.

Lemma cached_listing_exact_witness :
  wf Demo.start /\ below Demo.start 1 3 /\
  exists l, cached_listing 1 true Demo.start = Some l /\ 3 ∈ ids_of Demo.start l.
Proof.
  assert (wf Demo.start) as W by apply Registry_wf.
  assert (below Demo.start 1 3) as Hb.
  { apply (below_step _ _ 2); [apply below_child|]; by vm_compute. }
  split; [exact W|]. split; [exact Hb|].
  destruct (cached_listing_exact Demo.start 1 W) as [_ (l & Hl & _ & Hin)]. exists l. split; [exact Hl|]. by apply Hin.
Defined.

(** Caching an entry, new, renamed or with a new inode, makes it the one answer for
    its id, its inode and its path, and leaves no other path that leads to its inode
    or to its id, as long as the database's parent chain consists of other entries. *)
Theorem cacheEntry_leaves_one_path {DB : Type} `{FsDbOk DB} (s t : Cache DB) (p : ptr) (e : Entry) (seeding : bool) :
  wf s -> load s p = Some e -> cacheEntry p seeding s = (Ok tt, t) ->
  exists ino, e_inode e = Some ino /\
    ((forall pid rows r, e_parent_id e = Some pid -> collectParentStats (u32 pid) (database s) = Ok rows -> r ∈ rows ->
        apart (database s) (e_id e) ino (final_fuse s e ino) r) ->
      settled t p (e_id e) ino (final_fuse s e ino)).
Proof.
  intros W He Hrun. destruct (cacheEntry_run s t p seeding e W He Hrun) as (ino & Hi & Hrest).
  exists ino. split; [done|]. intros Ha. by apply Hrest.
Qed.

(** A caller's change that keeps id and inode, as [callers_may] allows. *)
Lemma caller_store {DB : Type} `{FsDb DB} (s : Cache DB) (p : ptr) (f : Entry -> Entry) : wf s ->
  (forall e, e_id (f e) = e_id e /\ e_inode (f e) = e_inode e) -> wf (store p f s).
Proof. intros W Hf. apply good_store; [done|]. intros e _. right. apply Hf. Qed.

Module Rename.
(** The song's object in [Demo.start], renamed in place and cached again. *)
Definition song_ptr : ptr := 3%positive.
Definition renamed : Cache unit := store song_ptr (set_paths $"/media//tune" $"/b/s") Demo.start.
Definition after : Cache unit := (cacheEntry song_ptr false renamed).2.
End Rename.

Lemma cacheEntry_leaves_one_path_witness :
  idToEntry Demo.start !! 3 = Some Rename.song_ptr /\
  settled Rename.after Rename.song_ptr 3 3 $"/media//tune" /\
  pathToInode Rename.after !! $"/media/song" = None /\ pathToInode Rename.after !! $"/media/tune" = Some 3.
Proof.
  assert (wf Demo.start) as W by apply Registry_wf.
  split; [by vm_compute|]. split; [|split; by vm_compute].
  assert (load Rename.renamed Rename.song_ptr = Some (set_paths $"/media//tune" $"/b/s" Demo.song)) as Hl by (vm_compute; reflexivity).
  assert (wf Rename.renamed) as Wr by (apply caller_store; [exact W|]; intros e0; split; reflexivity).
  assert ((cacheEntry Rename.song_ptr false Rename.renamed).1 = Ok tt) as Hok by (vm_compute; reflexivity).
  assert (cacheEntry Rename.song_ptr false Rename.renamed = (Ok tt, Rename.after)) as Hrun.
  { rewrite (surjective_pairing (cacheEntry _ _ _)), Hok. reflexivity. }
  destruct (cacheEntry_leaves_one_path Rename.renamed Rename.after Rename.song_ptr _ false Wr Hl Hrun) as (ino & Hi & Hs).
  injection Hi as <-.
  assert (final_fuse Rename.renamed (set_paths $"/media//tune" $"/b/s" Demo.song) 3 = $"/media//tune") as Hf by (vm_compute; reflexivity).
  rewrite Hf in Hs. apply Hs. clear. intros pid rows r Hpid Hrows Hin e' He'.
  injection Hpid as <-. injection Hrows as <-.
  apply elem_of_cons in Hin as [->|Hin]; [|apply elem_of_cons in Hin as [->|Hin]; [|by apply not_elem_of_nil in Hin]];
    injection He' as <-; (split; [discriminate|split; [discriminate|vm_compute; discriminate]]).
Defined.

(** An element of a set that is empty. *)
Ltac in_empty := match goal with H : ?X = ∅, H' : _ ∈ ?X |- _ => rewrite H in H'; by apply not_elem_of_empty in H' end.

(** C24. Removing or renaming a vault leaves nothing behind: afterwards no id and no
    path answers with an entry of the vault or under its FUSE root, no inode but the
    mount root's does, and no path under that root, however it is spelt, leads to an
    inode but the root's; the other entries stay cached. *)
Theorem evictVault_clears {DB : Type} `{FsDb DB} (s : Cache DB) (vaultId : Z) (fuseRoot : str) : wf s ->
  let t := evictVault vaultId fuseRoot s in
  (forall id p, idToEntry t !! id = Some p -> leads_in vaultId fuseRoot t p = false) /\
  (forall k p, pathToEntry t !! k = Some p -> leads_in vaultId fuseRoot t p = false) /\
  (forall i p, inodeToEntry t !! i = Some p -> i <> kRootInode -> leads_in vaultId fuseRoot t p = false) /\
  (forall path i, pathToInode t !! collapse path = Some i -> i <> kRootInode -> underRoot fuseRoot path = false) /\
  (forall id p, idToEntry s !! id = Some p -> leads_in vaultId fuseRoot s p = false -> idToEntry t !! id = Some p).
Proof.
  intros W t.
  assert (heap t = heap s) as Hh.
  { unfold t, evictVault. case_if; [done|]. unfold set_fold. simpl.
    fold (vault_cut vaultId fuseRoot s).
    destruct (unlink_all (base.elements (vault_ids vaultId fuseRoot s)) (vault_cut vaultId fuseRoot s) (wf_tree _ W)) as (Hv & _).
    by injection Hv. }
  assert (forall p, leads_in vaultId fuseRoot t p = leads_in vaultId fuseRoot s p) as Hl
    by (intros p; unfold leads_in, load; by rewrite Hh).
  assert (forall path, underRoot fuseRoot (collapse path) = underRoot fuseRoot path) as Hu
    by (intros path; unfold underRoot, pathContains; by rewrite makeAbsolute_collapse).
  pose proof (vault_inodes_spec vaultId fuseRoot s) as Hinodes.
  unfold t, evictVault in *. case_if; bsimpl.
  - split_and!; try done.
    + intros id p Hp. rewrite <- not_true_iff_false. intros Hin.
      assert (id ∈ vault_ids vaultId fuseRoot s) by (apply vault_ids_spec; eauto). in_empty.
    + intros k p Hp. rewrite <- not_true_iff_false. intros Hin. destruct (wf_path _ (wf_indexes _ W) _ _ Hp) as (e & _ & Hid & _).
      assert (e_id e ∈ vault_ids vaultId fuseRoot s) by (apply vault_ids_spec; eauto). in_empty.
    + intros i p Hp Hi. rewrite <- not_true_iff_false. intros Hin.
      assert (i ∈ vault_inodes vaultId fuseRoot s) by (apply Hinodes; eauto 10). in_empty.
    + intros path i Hp Hi. rewrite <- Hu, <- not_true_iff_false. intros Hin.
      assert (i ∈ vault_inodes vaultId fuseRoot s) by (apply Hinodes; eauto 10). in_empty.
  - unfold set_fold in *. fold (vault_cut vaultId fuseRoot s) in *. cbn [stats on_stats with_stats] in *.
    destruct (unlink_all (base.elements (vault_ids vaultId fuseRoot s)) (vault_cut vaultId fuseRoot s) (wf_tree _ W)) as (Hv & _).
    cbv zeta in Hv. simpl in Hv. simpl.
    set (u := foldr unlinkChild _ _) in *. injection Hv as Hh' E1 E2 E3 E4 E5 E6.
    cbn [inodeToPath pathToInode inodeToEntry pathToEntry inodeToId idToEntry on_stats with_stats].
    split_and!.
    + intros id p. rewrite E6. simpl. intros [Hp Hid]%map_lookup_filter_Some. simpl in Hid. rewrite Hl, <- not_true_iff_false.
      intros Hin. apply Hid, vault_ids_spec. eauto.
    + intros k p. rewrite E4. simpl. intros (_ & _ & ? & _)%map_lookup_filter_Some. by rewrite Hl.
    + intros i p. rewrite E3. simpl. intros [Hp Hi]%map_lookup_filter_Some Hne. simpl in Hi. rewrite Hl, <- not_true_iff_false.
      intros Hin. apply Hi, Hinodes; eauto 10.
    + intros path i. rewrite E2. simpl. intros (_ & _ & ?)%map_lookup_filter_Some. by rewrite <- Hu.
    + intros id p Hp Hout. rewrite E6. simpl. apply map_lookup_filter_Some. split; [done|]. simpl.
      intros (q & Hq & Hin)%vault_ids_spec. congruence.
Qed.

Lemma evictVault_clears_witness :
  wf Demo.start /\ pathToInode Demo.start !! $"/media/song" = Some 3 /\
  underRoot $"/media" $"/media//song" = true /\
  (forall i, pathToInode (evictVault 7 $"/media" Demo.start) !! collapse $"/media//song" = Some i -> i = kRootInode).
Proof.
  assert (wf Demo.start) as W by apply Registry_wf. split; [exact W|]. split; [by vm_compute|].
  assert (underRoot $"/media" $"/media//song" = true) as Hu by (vm_compute; reflexivity). split; [exact Hu|].
  destruct (evictVault_clears Demo.start 7 $"/media" W) as (_ & _ & _ & Hp & _).
  intros i Ei. destruct (decide (i = kRootInode)) as [Hi|Hi]; [exact Hi|].
  pose proof (Hp _ _ Ei Hi) as Hf. rewrite Hu in Hf. discriminate Hf.
Defined.

Lemma final_fuse_store {DB : Type} `{FsDb DB} (s : Cache DB) (p : ptr) (e : Entry) (size ino : Z) :
  final_fuse (store p (set_size size) s) (set_size size e) ino = final_fuse s e ino.
Proof.
  unfold final_fuse. simpl. case_if; [done|]. destruct (e_parent_id e) as [pid|]; [|done]. simpl.
  unfold parent_entry. simpl. destruct (idToEntry s !! u32 pid) as [q|]; [|done]. unfold load. simpl.
  destruct (decide (p = q)) as [->|]; [rewrite lookup_alter_eq|by rewrite lookup_alter_ne].
  by destruct (heap s !! q).
Qed.

Lemma evictIno_used {DB : Type} (s : Cache DB) (i : Z) (p : ptr) (e : Entry) (path : str) :
  inodeToPath s !! i = Some path -> inodeToEntry s !! i = Some p -> load s p = Some e ->
  used_bytes (stats (evictIno i s)) = subClamp (used_bytes (stats s)) (safeSizeBytes (Some e)).
Proof.
  intros Hp Hi He. unfold evictIno. rewrite Hp, Hi, He. rewrite (bool_decide_eq_false_2 (Some path = None)) by done.
  cbn [andb on_stats with_stats stats record_eviction set_used used_bytes]. f_equal.
  destruct (inodeToId s !! i); [|done]. unfold unlinkChild. by case_match.
Qed.

(** The byte counter misses sizes that change in place: when the cached object of an
    inode is cached again after a caller changed its size, [cacheEntry] reads the old
    size from the same object and leaves the counter alone, while an eviction later
    subtracts the new size. *)
Theorem in_place_size_uncounted {DB : Type} `{FsDbOk DB} (s t : Cache DB) (p : ptr) (e : Entry) (ino size : Z) (seeding : bool) :
  wf s -> load s p = Some e -> e_inode e = Some ino -> inodeToEntry s !! ino = Some p ->
  (forall pid rows r, e_parent_id e = Some pid -> collectParentStats (u32 pid) (database s) = Ok rows -> r ∈ rows ->
     apart (database s) (e_id e) ino (final_fuse s e ino) r) ->
  cacheEntry p seeding (store p (set_size size) s) = (Ok tt, t) ->
  used_bytes (stats t) = used_bytes (stats s) /\
  exists e', load t p = Some e' /\ e_id e' = e_id e /\
    used_bytes (stats (evictIno ino t)) = subClamp (used_bytes (stats s)) (safeSizeBytes (Some e')).
Proof.
  intros W He Hi Hin Ha Hrun. set (s' := store p (set_size size) s) in *.
  assert (wf s') as W' by (by apply caller_store).
  assert (load s' p = Some (set_size size e)) as He' by (unfold load in *; simpl; by rewrite lookup_alter_eq, He).
  destruct (cacheEntry_run s' t p seeding _ W' He' Hrun) as (ino' & Hi' & Hrest). simpl in Hi'.
  rewrite Hi in Hi'. injection Hi' as <-. destruct Hrest as [St Hused].
  { intros pid rows r Hpid Hrows Hr. rewrite (final_fuse_store s p e size ino) by done. by eapply Ha. }
  specialize (Hused Hin). split; [done|]. destruct St as [(e1 & He1 & Hid1 & _) _ (Hin1 & Hid2 & Hp2) _ _ _].
  exists e1. split; [done|]. split; [done|]. rewrite (evictIno_used t ino p e1 _ Hp2 Hin1 He1).
  rewrite Hused. reflexivity.
Qed.

Module Growth.
(** The song grows in place from ten bytes to a thousand and is cached again. *)
Definition grown : Cache unit := store Rename.song_ptr (set_size 1000) Demo.start.
Definition after : Cache unit := (cacheEntry Rename.song_ptr false grown).2.
End Growth.

Lemma in_place_size_uncounted_witness :
  used_bytes (stats Demo.start) = 20 /\ used_bytes (stats Growth.after) = 20 /\
  used_bytes (stats (evictIno 3 Growth.after)) = 0.
Proof.
  assert (wf Demo.start) as W by apply Registry_wf. split; [by vm_compute|].
  assert (load Demo.start Rename.song_ptr = Some Demo.song) as Hl by (vm_compute; reflexivity).
  assert (inodeToEntry Demo.start !! 3 = Some Rename.song_ptr) as Hin by (vm_compute; reflexivity).
  assert ((cacheEntry Rename.song_ptr false Growth.grown).1 = Ok tt) as Hok by (vm_compute; reflexivity).
  assert (cacheEntry Rename.song_ptr false Growth.grown = (Ok tt, Growth.after)) as Hrun.
  { rewrite (surjective_pairing (cacheEntry _ _ _)), Hok. reflexivity. }
  destruct (in_place_size_uncounted Demo.start Growth.after Rename.song_ptr Demo.song 3 1000 false W Hl eq_refl Hin) as [Hu _];
    [|exact Hrun|].
  - assert (final_fuse Demo.start Demo.song 3 = $"/media/song") as Hf by (vm_compute; reflexivity).
    rewrite Hf. clear. intros pid rows r Hpid Hrows Hin e' He'. injection Hpid as <-. injection Hrows as <-.
    apply elem_of_cons in Hin as [->|Hin]; [|apply elem_of_cons in Hin as [->|Hin]; [|by apply not_elem_of_nil in Hin]];
      injection He' as <-; (split; [discriminate|split; [discriminate|vm_compute; discriminate]]).
  - split; [rewrite Hu; vm_compute; reflexivity|vm_compute; reflexivity].
Defined.
