(* ===== verification/Vfs.v ===== *)
(** * Directories on disk, and the guarded removal of a vault's directory

    The calls of std::filesystem that [vault/Retention.cpp] makes, on a disk of
    directories, files and symbolic links, and [removeVaultDirectory], the only
    function that removes a vault's data from it.  A path of the disk is the list of
    the names from the root; what a link leads to is followed as the system does,
    at most forty links per lookup. *)
From S2P Require Import Prelude Paths.

(** ** The disk *)
Inductive Node := NDir | NFile | NLink (target : str).
#[export] Instance node_eq : EqDecision Node.
Proof. solve_decision. Defined.

Definition Disk := gmap (list str) Node.
Definition node (d : Disk) (p : list str) : option Node := match p with [] => Some NDir | _ => d !! p end.
Definition max_links : nat := 40.

(** The directory or file that the names [comps], looked up from [cur], lead to. *)
Fixpoint resolve (d : Disk) (links : nat) : list str -> list str -> option (list str) :=
  fix go (cur comps : list str) : option (list str) :=
    match comps with
    | [] => Some cur
    | c :: rest =>
        if c == $"." then go cur rest
        else if c == $".." then go (removelast cur) rest
        else match node d (cur ++ [c]) with
             | None => None
             | Some NDir => go (cur ++ [c]) rest
             | Some NFile => if is_empty rest then Some (cur ++ [c]) else None
             | Some (NLink t) =>
                 match links with
                 | O => None
                 | S links' => resolve d links' (if starts_with t $"/" then [] else cur) (file_names t ++ rest)
                 end
             end
    end.

(** [fs::canonical], [fs::is_directory] and [fs::symlink_status] of an absolute path;
    [fs::remove_all] of a canonical one, which may fail with some of the entries gone. *)
Definition canonical (d : Disk) (p : str) : option (list str) := resolve d max_links [] (file_names p).
Definition is_directory (d : Disk) (p : str) : bool :=
  match canonical d p with Some q => bool_decide (node d q = Some NDir) | None => false end.
Definition symlink_status (d : Disk) (root name : str) : option Node :=
  match canonical d root with
  | Some q => if bool_decide (node d q = Some NDir) then node d (q ++ [name]) else None
  | None => None
  end.
Record Fault := mkFault { fault_what : str; fault_gone : list str -> bool }.
Inductive RemovalError := PathGuard (what_ : str) | FilesystemError (what_ : str).
Definition remove_entries (d : Disk) (p : list str) (gone : list str -> bool) : Disk :=
  filter (fun kv => ~ (p `prefix_of` kv.1 /\ gone kv.1 = true)) d.
Definition remove_all (fault : list str -> option Fault) (d : Disk) (p : list str) : result RemovalError unit * Disk :=
  match fault p with
  | None => (Ok tt, remove_entries d p (fun _ => true))
  | Some f => (Err (FilesystemError (fault_what f)), remove_entries d p (fault_gone f))
  end.
Definition text_of (p : list str) : str := slash :: join_slash p.

(** ** vault/Retention.cpp *)

Definition isAliasName (alias : str) : bool :=
  if is_empty alias || (128 <? length alias)%nat || (alias == $".") || (alias == $"..") then false
  else forallb (fun c => is_alnum c || (c == "_"%char) || (c == "-"%char)) alias.

Definition trimmed (value : str) : str := trim_by is_space value.

(** The message of a [PathGuardError]. *)
Definition refusing (path why : str) : str := $"refusing to remove '" ++ path ++ $"'" ++ why.

(** The directory that a removal is about, after every guard; nothing when there is none. *)
Definition guarded_directory (d : Disk) (root rawAlias : str) : result str (option (list str)) :=
  let alias := trimmed rawAlias in
  check isAliasName alias else refusing rawAlias $": not a vault directory name" in
  if negb (is_directory d root) then Ok None
  else match canonical d root with
  | None | Some [] => Err ($"refusing to remove under '" ++ root ++ $"': not a usable root")
  | Some canonicalRoot =>
      let target := path_join root alias in
      match symlink_status d root alias with
      | None => Ok None
      | Some (NLink _) => Err (refusing target $": it is a symlink")
      | Some NFile => Err (refusing target $": not a directory")
      | Some NDir =>
          match canonical d target with
          | Some resolved =>
              if negb (removelast resolved == canonicalRoot) || (resolved == canonicalRoot)
              then Err (refusing target ($": it resolves outside '" ++ text_of canonicalRoot ++ $"'"))
              else Ok (Some resolved)
          | None => Err (refusing target ($": it resolves outside '" ++ text_of canonicalRoot ++ $"'"))
          end
      end
  end.
Definition removeVaultDirectory (fault : list str -> option Fault) (d : Disk) (root rawAlias : str) : result RemovalError bool * Disk :=
  match guarded_directory d root rawAlias with
  | Err m => (Err (PathGuard m), d)
  | Ok None => (Ok false, d)
  | Ok (Some resolved) => let '(r, d') := remove_all fault d resolved in (let? _ := r in Ok true, d')
  end.
Definition no_fault (p : list str) : option Fault := None.

(** A disk with a link out of the backing directory. *)
Definition demo_disk : Disk := list_to_map
  [([$"srv"], NDir); ([$"srv"; $"b"], NDir); ([$"srv"; $"b"; $"music"], NDir); ([$"srv"; $"b"; $"music"; $"x"], NFile);
   ([$"srv"; $"b"; $"music"; $"out"], NLink $"/etc"); ([$"srv"; $"b"; $"evil"], NLink $"/etc"); ([$"etc"], NDir);
   ([$"etc"; $"passwd"], NFile); ([$"data"], NLink $"srv/b")].

(** A directory that keeps one entry. *)
Definition busy (p : list str) : option Fault := Some (mkFault $"busy" (fun q => q == [$"srv"; $"b"; $"music"; $"x"])).
Example removal_examples :
  (match removeVaultDirectory no_fault demo_disk $"/data" $" music " with
   | (Ok true, d) => bool_decide (d !! [$"srv"; $"b"; $"music"; $"x"] = None /\ d !! [$"etc"; $"passwd"] = Some NFile)
   | _ => false end = true) /\
  (match removeVaultDirectory busy demo_disk $"/data" $"music" with
   | (Err (FilesystemError _), d) => bool_decide (d !! [$"srv"; $"b"; $"music"; $"x"] = None /\ d !! [$"srv"; $"b"; $"music"] = Some NDir)
   | _ => false end = true) /\
  (removeVaultDirectory no_fault demo_disk $"/srv/b" $"evil").1 = Err (PathGuard $"refusing to remove '/srv/b/evil': it is a symlink") /\
  (removeVaultDirectory no_fault demo_disk $"/srv/b" $"../etc").1 = Err (PathGuard $"refusing to remove '../etc': not a vault directory name") /\
  (removeVaultDirectory no_fault demo_disk $"/" $"etc").1 = Err (PathGuard $"refusing to remove under '/': not a usable root") /\
  (removeVaultDirectory no_fault demo_disk $"/nowhere" $"music").1 = Ok false.
Proof. vm_compute. split_and!; reflexivity. Qed.

(** ** The removal stays inside *)
Lemma resolve_nil d links cur : resolve d links cur [] = Some cur.
Proof. by destruct links. Qed.

Lemma resolve_cons d links cur c rest :
  resolve d links cur (c :: rest) =
    if c == $"." then resolve d links cur rest
    else if c == $".." then resolve d links (removelast cur) rest
    else match node d (cur ++ [c]) with
         | None => None
         | Some NDir => resolve d links (cur ++ [c]) rest
         | Some NFile => if is_empty rest then Some (cur ++ [c]) else None
         | Some (NLink t) =>
             match links with
             | O => None
             | S links' => resolve d links' (if starts_with t $"/" then [] else cur) (file_names t ++ rest)
             end
         end.
Proof. by destruct links. Qed.

(** One more name, when it is a directory. *)
Lemma resolve_snoc d links cur comps p c : resolve d links cur comps = Some p -> node d p = Some NDir ->
  plain c -> node d (p ++ [c]) = Some NDir -> resolve d links cur (comps ++ [c]) = Some (p ++ [c]).
Proof.
  intros Hp Hd (_ & Hdot & Hdots & _) Hc. revert cur comps Hp.
  induction links as [links IH] using lt_wf_ind. intros cur comps. revert cur.
  induction comps as [|x comps IHc]; intros cur Hp; cbn [app]; rewrite resolve_cons.
  - rewrite resolve_nil in Hp. injection Hp as ->.
    rewrite (proj2 (eqb_neq c $".")), (proj2 (eqb_neq c $"..")) by done. rewrite Hc. apply resolve_nil.
  - rewrite resolve_cons in Hp. case_if; [by apply IHc|]. case_if; [by apply IHc|].
    destruct (node d (cur ++ [x])) as [[| |t]|] eqn:Ex; [by apply IHc| | |done].
    + exfalso. case_if_in Hp; [|done]. injection Hp as <-. congruence.
    + destruct links as [|links]; [done|]. rewrite app_assoc. apply IH; [lia|done].
Qed.

Lemma alias_plain a : isAliasName a = true -> plain a.
Proof.
  unfold isAliasName. case_if; [done|]. bsimpl. intros Ha. split_and!; try done.
  - by intros ->.
  - eapply forallb_not_elem; [exact Ha|by vm_compute].
Qed.

Lemma file_names_child root a : plain a -> file_names (path_join root a) = file_names root ++ [a].
Proof.
  intros Ha. unfold path_join. destruct (ends_with_slash root || is_empty root) eqn:E; [|by apply file_names_join].
  apply orb_true_iff in E as [E|E].
  - unfold ends_with_slash, back in E. destruct (last root) as [c|] eqn:El; [|done]. bsimpl. subst.
    apply last_Some in El as [r ->]. rewrite <- app_assoc. cbn [app]. rewrite file_names_join by done. f_equal.
    unfold file_names. rewrite fields_app_all, filter_app. cbn [fields rev]. by rewrite filter_cons, filter_nil, app_nil_r.
  - apply is_empty_true in E as ->. exact (file_names_join [] a Ha).
Qed.

(** A vault's directory: a real one directly under the resolved root, which is not the file
    system's, named by the trimmed alias, one well-formed name. *)
Definition vault_directory (d : Disk) (root rawAlias : str) (p : list str) : Prop :=
  exists cr, canonical d root = Some cr /\ cr <> [] /\ isAliasName (trimmed rawAlias) = true /\ p = cr ++ [trimmed rawAlias] /\ d !! p = Some NDir.
Lemma guarded_spec d root rawAlias p : guarded_directory d root rawAlias = Ok (Some p) -> vault_directory d root rawAlias p.
Proof.
  unfold guarded_directory, is_directory, symlink_status. set (a := trimmed rawAlias).
  destruct (isAliasName a) eqn:Ha; [|done]. pose proof (alias_plain a Ha) as Hp.
  destruct (canonical d root) as [cr|] eqn:Ecr; [|done]. case_if; [done|]. bsimpl.
  destruct cr as [|x cr']; [done|]. set (cr := x :: cr') in *.
  rewrite bool_decide_true by done. destruct (node d (cr ++ [a])) as [[| |]|] eqn:En; try done.
  assert (canonical d (path_join root a) = Some (cr ++ [a])) as ->
    by (unfold canonical; rewrite file_names_child by done; by apply resolve_snoc).
  case_if; [done|]. intros [= <-]. exists cr. by split_and!.
Qed.

Lemma remove_entries_lookup d p gone q :
  remove_entries d p gone !! q = if decide (p `prefix_of` q /\ gone q = true) then None else d !! q.
Proof.
  unfold remove_entries. case_decide as H.
  - apply map_lookup_filter_None. right. intros n _ Hn. by apply Hn.
  - destruct (d !! q) as [n|] eqn:E.
    + apply map_lookup_filter_Some. done.
    + apply map_lookup_filter_None. by left.
Qed.
(** How a removal ends: refused or with nothing to remove, or with the vault's directory gone, or
    with a failure after some entries of it went. *)
Lemma removal_spec fault d root rawAlias r d' : removeVaultDirectory fault d root rawAlias = (r, d') ->
  (d' = d /\ (r = Ok false \/ exists m, r = Err (PathGuard m))) \/
  exists p gone, vault_directory d root rawAlias p /\ d' = remove_entries d p gone /\
    ((r = Ok true /\ forall q, gone q = true) \/ exists m, r = Err (FilesystemError m)).
Proof.
  unfold removeVaultDirectory. destruct (guarded_directory d root rawAlias) as [[p|]|m] eqn:E; [right|intros [= <- <-]; left; eauto..].
  apply guarded_spec in E. exists p. revert H. unfold remove_all. destruct (fault p) as [f|]; intros [= <- <-].
  - exists (fault_gone f). split_and!; eauto.
  - exists (fun _ => true). split_and!; eauto.
Qed.

(** A smaller disk leads nowhere else. *)
Lemma node_subseteq d d' p n : d' ⊆ d -> node d' p = Some n -> node d p = Some n.
Proof. intros Hd. destruct p; [done|]. intros Hn. by eapply lookup_weaken. Qed.
Lemma resolve_subseteq d d' links cur comps p : d' ⊆ d ->
  resolve d' links cur comps = Some p -> resolve d links cur comps = Some p.
Proof.
  intros Hd. revert cur comps. induction links as [links IH] using lt_wf_ind. intros cur comps. revert cur.
  induction comps as [|c comps IHc]; intros cur; [by rewrite !resolve_nil|]. rewrite !resolve_cons.
  case_if; [by apply IHc|]. case_if; [by apply IHc|].
  destruct (node d' (cur ++ [c])) as [n|] eqn:En; [|done]. rewrite (node_subseteq d d' _ n) by done.
  destruct n; [by apply IHc|done|]. destruct links as [|links]; [done|]. apply IH. lia.
Qed.

(** A removal makes the disk smaller, below one directory of the root, however it ends. *)
Lemma removal_shrinks fault d root rawAlias r d' : removeVaultDirectory fault d root rawAlias = (r, d') ->
  d' ⊆ d /\ forall p, d' !! p = d !! p \/
    exists cr rest, canonical d root = Some cr /\ p = cr ++ trimmed rawAlias :: rest /\ isAliasName (trimmed rawAlias) = true.
Proof.
  intros [[-> _]|(q & gone & (cr & Hcr & _ & Ha & -> & _) & -> & _)]%removal_spec; [split; [done|by left]|].
  split; [apply map_filter_subseteq|]. intros p. rewrite remove_entries_lookup. case_decide as Hp; [right|by left].
  destruct Hp as [[rest ->] _]. exists cr, rest. by rewrite <- app_assoc.
Qed.

(** C21. A vault's directory is removed only as one: whatever the alias, the links on the disk and
    the faults of the file system, a refusal changes nothing; everything that disappears lies in a
    real directory directly under the resolved root, named by the trimmed alias, one well-formed
    name, and the root is never the file system's; a removal that succeeds takes that directory
    whole and nothing else, and one that fails half way takes nothing outside of it. *)
Theorem removeVaultDirectory_confined fault d root rawAlias r d' :
  removeVaultDirectory fault d root rawAlias = (r, d') ->
  (r = Ok false -> d' = d) /\ (forall m, r = Err (PathGuard m) -> d' = d) /\
  (r = Ok true -> exists cr, canonical d root = Some cr /\ cr <> [] /\ isAliasName (trimmed rawAlias) = true /\
     d !! (cr ++ [trimmed rawAlias]) = Some NDir /\
     forall p, d' !! p = if decide ((cr ++ [trimmed rawAlias]) `prefix_of` p) then None else d !! p) /\
  (forall m, r = Err (FilesystemError m) -> exists cr, canonical d root = Some cr /\ cr <> [] /\ isAliasName (trimmed rawAlias) = true /\
     d !! (cr ++ [trimmed rawAlias]) = Some NDir /\ d' ⊆ d /\
     forall p, ~ (cr ++ [trimmed rawAlias]) `prefix_of` p -> d' !! p = d !! p).
Proof.
  intros [[-> Hr]|(q & gone & (cr & Hcr & Hne & Ha & -> & Hn) & -> & Hr)]%removal_spec.
  - split_and!; [done|done|intros ->|intros m ->]; by destruct Hr as [|[? ?]].
  - split_and!; [intros ->; by destruct Hr as [[? _]|[? ?]]|intros m ->; by destruct Hr as [[? _]|[? ?]]|intros ->|intros m ->];
      (destruct Hr as [[? Hg]|[? ?]]; [|try done]); try done; exists cr; split_and!; try done.
    + intros p. rewrite remove_entries_lookup, Hg. apply decide_ext. tauto.
    + apply map_filter_subseteq.
    + intros p Hp. rewrite remove_entries_lookup. rewrite decide_False; [done|]. tauto.
Qed.

(** The disk after a removal, and that it happened. *)
Definition removed (r : result RemovalError bool * Disk) : bool := match r.1 with Ok b => b | Err _ => false end.
Lemma removed_ok r : removed r = true -> r = (Ok true, r.2).
Proof. destruct r as [[[]|] ?]; done. Qed.

Lemma removeVaultDirectory_confined_witness :
  removed (removeVaultDirectory no_fault demo_disk $"/data" $" music ") = true /\
  (removeVaultDirectory no_fault demo_disk $"/data" $" music ").2 !! [$"etc"; $"passwd"] = Some NFile /\
  (removeVaultDirectory no_fault demo_disk $"/data" $" music ").2 !! [$"srv"; $"b"; $"music"; $"out"] = None.
Proof.
  assert (removed (removeVaultDirectory no_fault demo_disk $"/data" $" music ") = true) as E by (vm_compute; reflexivity).
  split; [exact E|]. apply removed_ok in E. revert E. generalize (removeVaultDirectory no_fault demo_disk $"/data" $" music ").2.
  intros d' E. destruct (removeVaultDirectory_confined _ _ _ _ _ _ E) as (_ & _ & Ht & _).
  destruct (Ht eq_refl) as (cr & Hcr & _ & _ & _ & Hl).
  assert (canonical demo_disk $"/data" = Some [$"srv"; $"b"]) as Hc by (vm_compute; reflexivity).
  rewrite Hc in Hcr. injection Hcr as <-. rewrite !Hl. split; vm_compute; reflexivity.
Defined.
