(* ===== verification/VaultRetention.v ===== *)
(** * Deletion of vaults with retention

    [vault/Retention.cpp] and the SQL of [db/query/vault/Deletion.cpp]: a deleted vault
    is pending and restorable, then purging (its upstream objects, when chosen, its
    directories, its row), then purged; its sealed keys outlive it for a retention
    window.

    The database is a record of tables and a transaction is a function that fails or
    returns the new tables.  The pass runs in [Monad] on a world of the tables, the
    disk of [Vfs], the rest of the outside ([Outside]: the object store, the stop flag,
    the clock, transactions that fail) and the requests sent to the object store. *)
From stdpp Require Import sorting fin_maps gmap.
From S2P Require Import Prelude Monad Paths Vfs.
#[local] Open Scope Z_scope.

(** ** Records (vault/model/Deletion.hpp and the tables) *)
Inductive VaultType := Local | S3.
Inductive DeletionState := Pending | Purging | Purged.
#[export] Instance VaultType_eq : EqDecision VaultType. Proof. solve_decision. Defined.
#[export] Instance DeletionState_eq : EqDecision DeletionState. Proof. solve_decision. Defined.

Record Deletion := mkDeletion {
  d_vault_id : Z; d_vault_name : str; d_owner_id : option Z; d_owner_name : str; d_vault_type : VaultType;
  d_backing_alias : str; d_provider : option str; d_bucket : option str; d_encrypt_upstream : option bool;
  d_delete_upstream : bool; d_deleted_by : option Z; d_deleted_at : Z; d_purge_after : Z; d_key_retain_until : Z;
  d_key_version : option Z; d_key_exported_at : option Z; d_state : DeletionState;
  d_purge_started_at : option Z; d_upstream_purged_at : option Z; d_purged_at : option Z; d_key_purged_at : option Z;
  d_next_attempt_at : option Z; d_attempts : Z; d_last_error : option str }.

Definition to_string (state : DeletionState) : str :=
  match state with Pending => $"pending" | Purging => $"purging" | Purged => $"purged" end.
Definition deletionStateFromString (state : str) : result str DeletionState :=
  if state == $"pending" then Ok Pending
  else if state == $"purging" then Ok Purging
  else if state == $"purged" then Ok Purged
  else Err ($"unknown vault deletion state: " ++ state).

Definition isS3 (d : Deletion) : bool := d_vault_type d == S3.
Definition restorable (d : Deletion) : bool := d_state d == Pending.
Definition keyRetained (d : Deletion) : bool := match d_key_purged_at d with Some _ => false | None => true end.
Definition keyExported (d : Deletion) : bool := match d_key_exported_at d with Some _ => true | None => false end.
Definition upstreamKeyAtRisk (d : Deletion) : bool :=
  isS3 d && default true (d_encrypt_upstream d) && negb (d_delete_upstream d) && negb (keyExported d) && keyRetained d.
Definition stateLabel (d : Deletion) : str :=
  match d_state d with
  | Pending => $"pending (restorable)"
  | Purging => match d_last_error d with Some _ => $"purging (retrying)" | None => $"purging" end
  | Purged => if keyRetained d then $"purged (key retained)" else $"purged"
  end.
Definition keyExportCommand (vaultId : Z) : str :=
  let id := Prelude.to_string vaultId in
  $"vh vault keys export " ++ id ++ $" --recipient <GPG fingerprint> --output /var/lib/vaulthalla/vault-" ++ id ++ $"-key.gpg".

(** The columns of the tables the queries read: a vault with the inodes of its
    entries and whether its root hangs below the mount root, its bucket, the keys. *)
Record VaultRow := mkVaultRow {
  v_name : str; v_owner_id : option Z; v_type : VaultType; v_mount_point : str; v_deleted_at : option Z;
  v_mounted : bool; v_inodes : gset Z }.
Record S3Row := mkS3Row { s_api_key_id : Z; s_bucket : str; s_encrypt_upstream : bool }.
Record ApiKey := mkApiKey { a_provider : str; a_endpoint : option str; a_region : str }.
Record KeyRow := mkKeyRow { k_version : Z; k_sealed : str; k_exported_version : option Z; k_exported_at : option Z }.

Record Db := mkDb {
  vaults : gmap Z VaultRow; s3s : gmap Z S3Row; api_keys : gmap Z ApiKey; users : gmap Z str;
  vault_keys : gmap Z KeyRow; vault_keys_trashed : gmap Z (gmap Z str);
  deletions : gmap Z Deletion; deletion_keys : gmap Z (gmap Z str) }.

Definition with_vaults m b := mkDb m (s3s b) (api_keys b) (users b) (vault_keys b) (vault_keys_trashed b) (deletions b) (deletion_keys b).
Definition with_deletions m b := mkDb (vaults b) (s3s b) (api_keys b) (users b) (vault_keys b) (vault_keys_trashed b) m (deletion_keys b).
Definition with_deletion_keys m b := mkDb (vaults b) (s3s b) (api_keys b) (users b) (vault_keys b) (vault_keys_trashed b) (deletions b) m.
(** [DELETE FROM vault] cascades to the tables that reference it. *)
Definition delete_vault id b := mkDb (delete id (vaults b)) (delete id (s3s b)) (api_keys b) (users b) (delete id (vault_keys b))
  (delete id (vault_keys_trashed b)) (deletions b) (deletion_keys b).

Definition set_deleted_at t mounted inodes v := mkVaultRow (v_name v) (v_owner_id v) (v_type v) (v_mount_point v) t mounted inodes.

(** The columns of a deletion that change after it is scheduled. *)
Definition set_progress state started upstream attempts next error d :=
  mkDeletion (d_vault_id d) (d_vault_name d) (d_owner_id d) (d_owner_name d) (d_vault_type d) (d_backing_alias d) (d_provider d)
    (d_bucket d) (d_encrypt_upstream d) (d_delete_upstream d) (d_deleted_by d) (d_deleted_at d) (d_purge_after d) (d_key_retain_until d)
    (d_key_version d) (d_key_exported_at d) state started upstream (d_purged_at d) (d_key_purged_at d) next attempts error.
Definition set_purged_at t d :=
  mkDeletion (d_vault_id d) (d_vault_name d) (d_owner_id d) (d_owner_name d) (d_vault_type d) (d_backing_alias d) (d_provider d)
    (d_bucket d) (d_encrypt_upstream d) (d_delete_upstream d) (d_deleted_by d) (d_deleted_at d) (d_purge_after d) (d_key_retain_until d)
    (d_key_version d) (d_key_exported_at d) (d_state d) (d_purge_started_at d) (d_upstream_purged_at d) t (d_key_purged_at d)
    (d_next_attempt_at d) (d_attempts d) (d_last_error d).
Definition set_key_purged_at t d :=
  mkDeletion (d_vault_id d) (d_vault_name d) (d_owner_id d) (d_owner_name d) (d_vault_type d) (d_backing_alias d) (d_provider d)
    (d_bucket d) (d_encrypt_upstream d) (d_delete_upstream d) (d_deleted_by d) (d_deleted_at d) (d_purge_after d) (d_key_retain_until d)
    (d_key_version d) (d_key_exported_at d) (d_state d) (d_purge_started_at d) (d_upstream_purged_at d) (d_purged_at d) t
    (d_next_attempt_at d) (d_attempts d) (d_last_error d).
Definition set_key_exported_at t d :=
  mkDeletion (d_vault_id d) (d_vault_name d) (d_owner_id d) (d_owner_name d) (d_vault_type d) (d_backing_alias d) (d_provider d)
    (d_bucket d) (d_encrypt_upstream d) (d_delete_upstream d) (d_deleted_by d) (d_deleted_at d) (d_purge_after d) (d_key_retain_until d)
    (d_key_version d) t (d_state d) (d_purge_started_at d) (d_upstream_purged_at d) (d_purged_at d) (d_key_purged_at d)
    (d_next_attempt_at d) (d_attempts d) (d_last_error d).
Definition set_expedited upstream purge_after next d :=
  mkDeletion (d_vault_id d) (d_vault_name d) (d_owner_id d) (d_owner_name d) (d_vault_type d) (d_backing_alias d) (d_provider d)
    (d_bucket d) (d_encrypt_upstream d) upstream (d_deleted_by d) (d_deleted_at d) purge_after (d_key_retain_until d)
    (d_key_version d) (d_key_exported_at d) (d_state d) (d_purge_started_at d) (d_upstream_purged_at d) (d_purged_at d) (d_key_purged_at d)
    next (d_attempts d) (d_last_error d).

(** ** The queries (db/query/vault/Deletion.cpp)

    [now] is the transaction's NOW(); a result is the query's value and the tables. *)
Module Query.

Record Schedule := mkSchedule {
  q_vault_id : Z; q_deleted_by : option Z; q_delete_upstream : bool; q_retention_window : Z; q_key_retention_window : Z }.

(** SQL's [btrim]: spaces only. *)
Definition btrim (s : str) : str := trim_by (fun c => c == " "%char) s.

Definition get (vaultId : Z) (b : Db) : option Deletion := deletions b !! vaultId.

(** [SELECT version ...], [SELECT exported_at ... WHERE exported_version = version] *)
Definition key_version (id : Z) (b : Db) : option Z := option_map k_version (vault_keys b !! id).
Definition key_exported_at (id : Z) (b : Db) : option Z :=
  match vault_keys b !! id with
  | Some k => if k_exported_version k == Some (k_version k) then k_exported_at k else None
  | None => None
  end.
(** Every version of the vault's key, the current one first. *)
Definition key_versions (id : Z) (b : Db) : gmap Z str :=
  match vault_keys b !! id with Some k => {[k_version k := k_sealed k]} | None => ∅ end
  ∪ default ∅ (vault_keys_trashed b !! id).

Definition schedule (s : Schedule) (now : Z) (b : Db) : result str (Deletion * Db) :=
  let id := q_vault_id s in
  let gone := $"vault " ++ Prelude.to_string id ++ $" does not exist or is already deleted" in
  match vaults b !! id with
  | None => Err gone
  | Some v =>
      check v_deleted_at v == None else gone in
      check bool_decide (deletions b !! id = None) else $"duplicate key value violates unique constraint" in
      let s3 := s3s b !! id in
      let d := mkDeletion id (v_name v) (v_owner_id v) (default [] (v_owner_id v ≫= fun o => users b !! o)) (v_type v)
        (btrim (v_mount_point v)) (s3 ≫= fun s => option_map a_provider (api_keys b !! s_api_key_id s)) (option_map s_bucket s3)
        (option_map s_encrypt_upstream s3) (q_delete_upstream s) (q_deleted_by s) now
        (now + q_retention_window s) (Z.max (now + q_key_retention_window s) (now + q_retention_window s))
        (key_version id b) (key_exported_at id b) Pending None None None None None 0 None in
      let keys := default ∅ (deletion_keys b !! id) ∪ key_versions id b in
      Ok (d, with_deletion_keys (<[id := keys]> (deletion_keys b))
               (with_deletions (<[id := d]> (deletions b))
                  (with_vaults (<[id := set_deleted_at (Some now) false ∅ v]> (vaults b)) b)))
  end.

(** The record goes, and with it (by the foreign key) its key copies. *)
Definition restore (vaultId : Z) (b : Db) : result str (bool * Db) :=
  match deletions b !! vaultId with
  | None => Ok (false, b)
  | Some d =>
      if d_state d !== Pending then Ok (false, b)
      else match vaults b !! vaultId with
      | Some v =>
          check v_deleted_at v !== None else $"vault " ++ Prelude.to_string vaultId ++ $" has a pending deletion but no deleted vault row" in
          Ok (true, with_deletion_keys (delete vaultId (deletion_keys b))
                      (with_deletions (delete vaultId (deletions b))
                         (with_vaults (<[vaultId := set_deleted_at None true (v_inodes v) v]> (vaults b)) b)))
      | None => Err ($"vault " ++ Prelude.to_string vaultId ++ $" has a pending deletion but no deleted vault row")
      end
  end.

Definition update (vaultId : Z) (f : Deletion -> Deletion) (b : Db) : Db := with_deletions (alter f vaultId (deletions b)) b.

Definition expedite (vaultId : Z) (deleteUpstream : option bool) (now : Z) (b : Db) : result str (bool * Db) :=
  match deletions b !! vaultId with
  | Some d =>
      if d_state d == Purged then Ok (false, b)
      else Ok (true, update vaultId (fun d => set_expedited (default (d_delete_upstream d) deleteUpstream) (Z.min (d_purge_after d) now)
                                  (if d_state d == Purging then Some now else d_next_attempt_at d) d) b)
  | None => Ok (false, b)
  end.

(** Is the deletion due at [at_]? *)
Definition due (at_ : Z) (d : Deletion) : bool :=
  match d_state d with
  | Pending => d_purge_after d <=? at_
  | Purging => match d_next_attempt_at d with None => true | Some t => t <=? at_ end
  | Purged => false
  end.
Definition due_before (a b : Deletion) : Prop :=
  d_purge_after a < d_purge_after b \/ (d_purge_after a = d_purge_after b /\ d_vault_id a <= d_vault_id b).
#[export] Instance due_before_dec a b : Decision (due_before a b).
Proof. unfold due_before. apply _. Defined.

Definition claimed (now : Z) (d : Deletion) : Deletion :=
  set_progress Purging (Some (default now (d_purge_started_at d))) (d_upstream_purged_at d) (d_attempts d + 1) None (d_last_error d) d.
Definition due_rows (at_ : Z) (limit : nat) (b : Db) : list (Z * Deletion) :=
  take limit (merge_sort (fun x y => due_before x.2 y.2)
    (base.filter (fun kv : Z * Deletion => due at_ kv.2 = true) (map_to_list (deletions b)))).
Definition claimDue (at_ : Z) (limit : nat) (now : Z) (b : Db) : result str (list Deletion * Db) :=
  let rows := due_rows at_ limit b in
  Ok (map (fun kv => claimed now kv.2) rows, foldr (fun kv b => update kv.1 (claimed now) b) b rows).

Definition markUpstreamPurged (vaultId now : Z) (b : Db) : result str (unit * Db) :=
  Ok (tt, update vaultId (fun d => set_progress (d_state d) (d_purge_started_at d) (Some (default now (d_upstream_purged_at d)))
                               (d_attempts d) (d_next_attempt_at d) (d_last_error d) d) b).

(** [WHERE vault_id = $1 AND state = 'purging'] *)
Definition if_purging (f : Deletion -> Deletion) (d : Deletion) : Deletion := if d_state d == Purging then f d else d.
Definition recordFailure (vaultId : Z) (error : str) (retryAt : Z) (b : Db) : result str (unit * Db) :=
  Ok (tt, update vaultId (if_purging (fun d => set_progress (d_state d) (d_purge_started_at d) (d_upstream_purged_at d)
                               (d_attempts d) (Some retryAt) (Some (take 2000 error)) d)) b).
Definition deferPurge (vaultId retryAt : Z) (b : Db) : result str (unit * Db) :=
  Ok (tt, update vaultId (if_purging (fun d => set_progress (d_state d) (d_purge_started_at d) (d_upstream_purged_at d)
                               (d_attempts d) (Some retryAt) None d)) b).

Definition finishPurge (vaultId : Z) (note : option str) (now : Z) (b : Db) : result str (unit * Db) :=
  match deletions b !! vaultId with
  | Some d =>
      check d_state d == Purging else $"vault " ++ Prelude.to_string vaultId ++ $" is not being purged" in
      let b := match vaults b !! vaultId with
               | Some v => if v_deleted_at v !== None then delete_vault vaultId b else b
               | None => b
               end in
      Ok (tt, update vaultId (fun d => set_purged_at (Some now) (set_progress Purged (d_purge_started_at d) (d_upstream_purged_at d)
                                  (d_attempts d) None note d)) b)
  | None => Err ($"vault " ++ Prelude.to_string vaultId ++ $" is not being purged")
  end.

(** Are the record's keys to be dropped at [at_]? *)
Definition expired (at_ : Z) (d : Deletion) : bool :=
  (d_state d == Purged) && (d_key_purged_at d == None) && (d_key_retain_until d <=? at_).
Definition expireKeys (at_ now : Z) (b : Db) : result str (list Z * Db) :=
  let gone := filter (fun kv => expired at_ kv.2 = true) (deletions b) in
  Ok ((map_to_list gone).*1,
      with_deletion_keys (filter (fun kv => gone !! kv.1 = None) (deletion_keys b))
        (with_deletions ((fun d => if expired at_ d then set_key_purged_at (Some now) d else d) <$> deletions b) b)).

Definition markKeyExported (vaultId now : Z) (b : Db) : result str (unit * Db) :=
  Ok (tt, update vaultId (set_key_exported_at (Some now)) b).

(** The vault row of a deleted vault with its bucket. *)
Definition getDeletedVault (vaultId : Z) (b : Db) : option (VaultRow * option S3Row) :=
  match vaults b !! vaultId with
  | Some v => if v_deleted_at v == None then None else Some (v, s3s b !! vaultId)
  | None => None
  end.

(** Other vaults bound to the same bucket on the same endpoint and region, by id. *)
Definition same_bucket (b : Db) (vaultId other : Z) : bool :=
  match s3s b !! vaultId, s3s b !! other with
  | Some me, Some o =>
      match api_keys b !! s_api_key_id me, api_keys b !! s_api_key_id o with
      | Some mk, Some ok =>
          (s_bucket o == s_bucket me) && (other !== vaultId) &&
          (default [] (a_endpoint ok) == default [] (a_endpoint mk)) && (a_region ok == a_region mk)
      | _, _ => false
      end
  | _, _ => false
  end.
Definition by_id (x y : Z * VaultRow) : Prop := x.1 <= y.1.
#[export] Instance by_id_dec x y : Decision (by_id x y).
Proof. unfold by_id. apply _. Defined.
Definition otherVaultsOnBucket (vaultId : Z) (b : Db) : list str :=
  map (fun kv : Z * VaultRow => v_name kv.2 ++ $" (ID " ++ Prelude.to_string kv.1 ++ $")")
    (merge_sort by_id (base.filter (fun kv : Z * VaultRow => same_bucket b vaultId kv.1 = true) (map_to_list (vaults b)))).

Definition backingAliasShared (vaultId : Z) (alias : str) (b : Db) : bool :=
  existsb (fun kv : Z * VaultRow => (btrim (v_mount_point kv.2) == alias) && (kv.1 !== vaultId)) (map_to_list (vaults b)).
End Query.

(** ** The world of a pass *)
Inductive Exn :=
| ObjectNotFound (what_ : str) | RequestBudgetExceeded (label : str) | PathGuardError (what_ : str) | Failure (what_ : str)
| Diverged.
Definition what (e : Exn) : str :=
  match e with
  | ObjectNotFound m | PathGuardError m | Failure m => m
  | RequestBudgetExceeded label => $"S3 request budget exceeded for " ++ label
  | Diverged => []
  end.

(** [storage::s3::ObjectNotFound], or any other failure of a delete request. *)
Inductive StoreError := NoSuchKey (what_ : str) | StoreFailure (what_ : str).
Definition store_exn (e : StoreError) : Exn := match e with NoSuchKey m => ObjectNotFound m | StoreFailure m => Failure m end.

(** What lies outside: answers may depend on, and change, its state [W]. *)
Class Outside (W : Type) := {
  stopRequested : W -> bool * W;
  transaction_fails : W -> option str * W;
  db_now : W -> Z;
  makeController : Z -> str -> W -> result str unit;
  listObjectKeysPage : Z -> str -> W -> result str (list str) * W;
  deleteObject : Z -> str -> str -> W -> result StoreError unit * W;
  isProtected : ApiKey -> str -> W -> result str bool;
  isAdopted : Z -> W -> result str bool;
  getVault : Z -> W -> option VaultType;
  retireVault : Z -> W -> result str unit * W;
  reinstateVault : Z -> W -> result str unit * W;
  removal_fault : W -> list str -> option Fault }.

(** A request to the object store: the API key, the bucket, the key deleted. *)
Inductive Request := ListPage (api_key : Z) (bucket : str) | DeleteObject (api_key : Z) (bucket key : str).

(** The configuration the module reads (config.vaults and paths). *)
Record Config := mkConfig {
  retention_window : Z; tpm_retention_window : Z; s3_tpm_retention_window : Z; backing_path : str; cache_path : str }.
Definition kStoreDirName : str := $".vh-recovery".

Record World (W : Type) := mkWorld {
  db : Db; disk : Disk; outside : W; lists : Z; deletes : Z; requests : list Request; pass_requested : bool }.
Arguments mkWorld {W}. Arguments db {W}. Arguments disk {W}. Arguments outside {W}. Arguments lists {W}. Arguments deletes {W}.
Arguments requests {W}. Arguments pass_requested {W}.

(** The budget's counters of the controller in use, and its limits. *)
Definition kUpstreamListsPerPass : Z := 10.
Definition kUpstreamDeletesPerPass : Z := 10000.
Definition kClaimPerPass : nat := 16.
Definition kDeferredRetry : Z := 0.

(** 30 s, 60 s, 2 min ... capped at an hour. *)
Definition backoff (attempts : Z) : Z :=
  let shift := Z.min attempts 7 in
  Z.min (30 * Z.shiftl 1 shift) 3600.

Record PassResult := mkResult { purged : Z; failed : Z; deferred : Z; keys_expired : Z }.
Definition no_result : PassResult := mkResult 0 0 0 0.

Section Retention.
Context {W : Type} `{Outside W} (cfg : Config).
Notation World := (World W).
Notation M A := (Monad.M World Exn A).

Definition set_db b (w : World) : World := mkWorld b (disk w) (outside w) (lists w) (deletes w) (requests w) (pass_requested w).
Definition set_disk d (w : World) : World := mkWorld (db w) d (outside w) (lists w) (deletes w) (requests w) (pass_requested w).
Definition set_outside o (w : World) : World := mkWorld (db w) (disk w) o (lists w) (deletes w) (requests w) (pass_requested w).
Definition set_counters l d (w : World) : World := mkWorld (db w) (disk w) (outside w) l d (requests w) (pass_requested w).
Definition log_request r (w : World) : World := mkWorld (db w) (disk w) (outside w) (lists w) (deletes w) (requests w ++ [r]) (pass_requested w).
Definition set_requested f (w : World) : World := mkWorld (db w) (disk w) (outside w) (lists w) (deletes w) (requests w) f.

Definition requestPass : M unit := modify (set_requested true).
Definition takePassRequest : M bool := fun w => (Ok (pass_requested w), set_requested false w).

Definition stop_requested : M bool := fun w => let '(b, o) := stopRequested (outside w) in (Ok b, set_outside o w).

(** [Transactions::exec]: the tables change as a whole or the transaction throws. *)
Definition exec {A} (f : Z -> Db -> result str (A * Db)) : M A := fun w =>
  let '(fails, o) := transaction_fails (outside w) in
  let w := set_outside o w in
  match fails with
  | Some m => (Err (Failure m), w)
  | None => match f (db_now (outside w)) (db w) with
            | Ok (a, b) => (Ok a, set_db b w)
            | Err m => (Err (Failure m), w)
            end
  end.
Definition select {A} (f : Db -> A) : M A := exec (fun _ b => Ok (f b, b)).

(** A question to the outside that may fail. *)
Definition ask {A} (f : W -> result str A) : M A :=
  reads (fun w => match f (outside w) with Ok a => Ok a | Err m => Err (Failure m) end).

(** [Controller::recordRequest] under the budget (storage/s3/Controller.cpp). *)
Definition record_list : M unit := fun w =>
  if kUpstreamListsPerPass <? lists w + 1 then (Err (RequestBudgetExceeded $"LIST"), w)
  else (Ok tt, set_counters (lists w + 1) (deletes w) w).
Definition record_delete : M unit := fun w =>
  if kUpstreamDeletesPerPass <? deletes w + 1 then (Err (RequestBudgetExceeded $"DELETE"), w)
  else (Ok tt, set_counters (lists w) (deletes w + 1) w).

Definition list_page (key : Z) (bucket : str) : M (list str) :=
  record_list;; fun w =>
  let '(r, o) := listObjectKeysPage key bucket (outside w) in
  (match r with Ok l => Ok l | Err m => Err (Failure m) end, log_request (ListPage key bucket) (set_outside o w)).
Definition delete_object (key : Z) (bucket name : str) : M unit :=
  record_delete;; fun w =>
  let '(r, o) := deleteObject key bucket name (outside w) in
  (match r with Ok _ => Ok tt | Err e => Err (store_exn e) end, log_request (DeleteObject key bucket name) (set_outside o w)).

(** A new controller with its budget: counters at zero. *)
Definition controllerFor (key : Z) (bucket : str) : M unit :=
  ask (makeController key bucket);; modify (set_counters 0 0).

(** ** Why the bucket's objects must stay, or the bucket *)
Fixpoint join_names (l : list str) : str :=
  match l with [] => [] | [n] => n | n :: l' => n ++ $", " ++ join_names l' end.

Definition upstreamBlocker (d : Deletion) : M (str + S3Row) :=
  let! row := select (Query.getDeletedVault (d_vault_id d)) in
  match (match row with Some (v, Some s3) => if v_type v == S3 then Some s3 else None | _ => None end) with
  | None => ret (inl $"the vault's bucket binding is gone")
  | Some s3 =>
      if (s_api_key_id s3 =? 0) || is_empty (s_bucket s3) then ret (inl $"the vault's bucket binding is gone")
      else
        let! key := select (fun b => api_keys b !! s_api_key_id s3) in
        match key with
        | None => ret (inl $"the vault's API key no longer exists")
        | Some key =>
            let! protected_ := ask (isProtected key (s_bucket s3)) in
            if protected_ then ret (inl ($"bucket '" ++ s_bucket s3 ++ $"' is protected"))
            else
              let! adopted := ask (isAdopted (d_vault_id d)) in
              if adopted then ret (inl ($"bucket '" ++ s_bucket s3 ++ $"' was adopted with data that predates the vault"))
              else
                let! others := select (Query.otherVaultsOnBucket (d_vault_id d)) in
                if negb (is_empty others) then ret (inl ($"bucket '" ++ s_bucket s3 ++ $"' is also used by " ++ join_names others))
                else ret (inr s3)
        end
  end.

(** ** The upstream purge: listed pages, within the caps of a pass *)

(** The keys of one page; false when the service stops. *)
Fixpoint delete_page (key : Z) (bucket : str) (keys : list str) : M bool :=
  match keys with
  | [] => ret true
  | k :: keys' =>
      let! stop := stop_requested in
      if stop then ret false
      else
        handle (delete_object key bucket k) (fun e => match e with ObjectNotFound _ => ret tt | _ => throw e end);;
        delete_page key bucket keys'
  end.

Fixpoint purge_loop (fuel : nat) (key : Z) (bucket : str) : M bool :=
  match fuel with
  | O => throw Diverged
  | S fuel =>
      let! stop := stop_requested in
      if stop then ret false
      else
        let! page := list_page key bucket in
        if is_empty page then ret true
        else
          let! more := delete_page key bucket page in
          if more then purge_loop fuel key bucket else ret false
  end.

Definition purgeUpstreamPass (s3 : S3Row) : M bool :=
  controllerFor (s_api_key_id s3) (s_bucket s3);;
  handle (purge_loop (S (Z.to_nat kUpstreamListsPerPass)) (s_api_key_id s3) (s_bucket s3))
    (fun e => match e with RequestBudgetExceeded _ => ret false | _ => throw e end).

(** ** Directories *)
Definition remove_directory (root alias : str) : M bool := fun w =>
  let '(r, d) := removeVaultDirectory (removal_fault (outside w)) (disk w) root alias in
  (match r with Ok b => Ok b | Err (PathGuard m) => Err (PathGuardError m) | Err (FilesystemError m) => Err (Failure m) end, set_disk d w).

(** [path.relative_path()] of an absolute cache path. *)
Definition relative_path (p : str) : str := drop_while (fun c => c == slash) p.
Definition cache_root : str := path_div (backing_path cfg) (if starts_with (cache_path cfg) $"/" then relative_path (cache_path cfg) else cache_path cfg).
Definition store_root : str := path_div (backing_path cfg) kStoreDirName.

Definition removeBackingData (alias : str) : M unit :=
  remove_directory (backing_path cfg) alias;; remove_directory cache_root alias;; remove_directory store_root alias;; ret tt.

(** ** One purge and one pass *)
Definition purge_upstream (d : Deletion) : M (option str * bool) :=
  if d_delete_upstream d && isS3 d && (d_upstream_purged_at d == None) then
    let! blocker := upstreamBlocker d in
    match blocker with
    | inl why => ret (Some ($"upstream data kept: " ++ why), true)
    | inr s3 =>
        let! done := purgeUpstreamPass s3 in
        if done then exec (fun now => Query.markUpstreamPurged (d_vault_id d) now);; ret (None, true)
        else ret (None, false)
    end
  else ret (None, true).

(** True when the vault is purged, false when the rest waits for a later pass. *)
Definition purgeOne (d : Deletion) : M bool :=
  let! r := purge_upstream d in
  if negb r.2 then ret false
  else
    let alias := trimmed (d_backing_alias d) in
    let! shared := select (Query.backingAliasShared (d_vault_id d) alias) in
    if (shared : bool) then throw (PathGuardError ($"another vault uses backing directory '" ++ alias ++ $"'; nothing was removed"))
    else
      removeBackingData alias;;
      exec (Query.finishPurge (d_vault_id d) r.1);;
      ret true.

Definition windowsFor (type : VaultType) : Z * Z :=
  (retention_window cfg, match type with S3 => s3_tpm_retention_window cfg | Local => tpm_retention_window cfg end).

Definition purge_claimed (now : Z) (d : Deletion) (r : PassResult) : M PassResult :=
  let! stop := stop_requested in
  if stop then exec (fun _ => Query.deferPurge (d_vault_id d) now);; ret r
  else
    handle
      (let! ok := purgeOne d in
       if ok then ret (mkResult (purged r + 1) (failed r) (deferred r) (keys_expired r))
       else
         exec (fun _ => Query.deferPurge (d_vault_id d) (now + kDeferredRetry));;
         ret (mkResult (purged r) (failed r) (deferred r + 1) (keys_expired r)))
      (fun e =>
         catch (exec (fun _ => Query.recordFailure (d_vault_id d) (what e) (now + backoff (d_attempts d)))) tt;;
         ret (mkResult (purged r) (failed r + 1) (deferred r) (keys_expired r))).

Fixpoint purge_all (now : Z) (l : list Deletion) (r : PassResult) : M PassResult :=
  match l with
  | [] => ret r
  | d :: l' => let! r := purge_claimed now d r in purge_all now l' r
  end.

Definition runPass (now : Z) : M PassResult :=
  let! claims := exec (Query.claimDue now kClaimPerPass) in
  let! r := purge_all now claims no_result in
  let! gone := exec (Query.expireKeys now) in
  ret (mkResult (purged r) (failed r) (deferred r) (Z.of_nat (length gone))).

(** ** The operations of the vault's owner *)
Definition schedule (vaultId : Z) (deletedBy : option Z) (now deleteUpstream : bool) : M Deletion :=
  let! type := reads (fun w => Ok (getVault vaultId (outside w))) in
  match type with
  | None => throw (Failure ($"vault " ++ Prelude.to_string vaultId ++ $" not found"))
  | Some type =>
      let windows := windowsFor type in
      let! record := exec (Query.schedule (Query.mkSchedule vaultId deletedBy (deleteUpstream && (type == S3))
                                             (if now then 0 else windows.1) windows.2)) in
      (fun w => let '(r, o) := retireVault vaultId (outside w) in
                (match r with Ok _ => Ok tt | Err m => Err (Failure m) end, set_outside o w));;
      (if now then requestPass else ret tt);; ret record
  end.

Definition restore (vaultId : Z) : M bool :=
  let! ok := exec (fun _ => Query.restore vaultId) in
  if negb ok then ret false
  else
    (fun w => let '(r, o) := reinstateVault vaultId (outside w) in
              (match r with Ok _ => Ok tt | Err m => Err (Failure m) end, set_outside o w));;
    ret true.

Definition expedite (vaultId : Z) (deleteUpstream : option bool) : M bool :=
  let! ok := exec (fun now => Query.expedite vaultId deleteUpstream now) in
  if negb ok then ret false else requestPass;; ret true.

Definition markKeyExported (vaultId : Z) : M unit := exec (fun now => Query.markKeyExported vaultId now).
End Retention.

(** ** What a pass changes, by its parts

    A preorder on worlds that holds for a change of the outside and for the queries an
    operation runs holds for the operation, however it ends; for a pass, when it also
    holds for the removal of a directory whose alias is not shared and for an upstream
    purge that nothing blocks. *)
Section Parts.
Context {W : Type} `{Outside W} (cfg : Config) (R : World W -> World W -> Prop) `{!PreOrder R}.
Notation M A := (Monad.M (World W) Exn A).
Implicit Types (w u : World W) (d : Deletion) (b : Db).

Hypothesis R_outside : forall w o l x f, R w (mkWorld (db w) (disk w) o l x (requests w) f).

Lemma exec_ensures {A} (f : Z -> Db -> result str (A * Db)) :
  (forall w now a b, f now (db w) = Ok (a, b) -> R w (set_db b w)) -> ensures R (exec f).
Proof.
  intros Hf w. unfold exec. destruct (transaction_fails (outside w)) as [[m|] o]; simpl; [apply R_outside|].
  transitivity (set_outside o w); [apply R_outside|]. destruct (f _ _) as [[a b]|m] eqn:E; simpl; [|reflexivity].
  by eapply (Hf (set_outside o w)).
Qed.
Lemma select_ensures {A} (f : Db -> A) : ensures R (select f).
Proof.
  apply exec_ensures. intros w now a b [= _ <-]. apply (R_outside w (outside w)).
Qed.
Lemma outside_ensures {A} (m : M A) :
  (forall w, exists o l x f, (m w).2 = mkWorld (db w) (disk w) o l x (requests w) f) -> ensures R m.
Proof. intros Hm w. destruct (Hm w) as (o & l & x & f & ->). apply R_outside. Qed.

Lemma stop_ensures : ensures R stop_requested.
Proof.
  apply outside_ensures. intros w. unfold stop_requested. destruct (stopRequested _) as [c o]. by exists o, (lists w), (deletes w), (pass_requested w).
Qed.
Lemma ask_ensures {A} (f : W -> result str A) : ensures R (ask f).
Proof. apply ensures_reads, _. Qed.

Lemma blocker_ensures d : ensures R (upstreamBlocker d).
Proof.
  unfold upstreamBlocker.
  repeat (first [ apply ensures_bind; [exact _| |intros] | apply select_ensures | apply ask_ensures | apply ensures_ret; exact _ | case_match ]).
Qed.

(** A read of the tables at the start: what follows runs on the same tables. *)
Lemma select_then {A B} (f : Db -> A) (k : A -> M B) w :
  (forall u, db u = db w -> disk u = disk w -> requests u = requests w -> R w u -> R u (k (f (db w)) u).2) ->
  R w (bind (select f) k w).2.
Proof.
  intros Hk. unfold bind, select, exec. destruct (transaction_fails (outside w)) as [[m|] o]; simpl; [apply R_outside|].
  assert (R w (set_outside o w)) as Ro by apply R_outside.
  transitivity (set_outside o w); [exact Ro|]. change (set_db (db w) (set_outside o w)) with (set_outside o w). by apply Hk.
Qed.

(** The operations of the vault's owner. *)
Lemma schedule_ensures id by_ now_ up :
  (forall w s now d b, Query.schedule s now (db w) = Ok (d, b) -> Query.q_vault_id s = id -> R w (set_db b w)) ->
  ensures R (schedule cfg id by_ now_ up).
Proof.
  intros Hq. unfold schedule. apply ensures_bind; [exact _|apply ensures_reads; exact _|]. intros [v|]; [|apply ensures_throw; exact _].
  apply ensures_bind; [exact _| |].
  { apply exec_ensures. intros w now d b Hs. by eapply Hq. }
  intros d. apply ensures_bind; [exact _| |].
  { apply outside_ensures. intros w. destruct (retireVault _ _) as [r o]. by exists o, (lists w), (deletes w), (pass_requested w). }
  intros _. apply ensures_bind; [exact _| |intros; apply ensures_ret; exact _]. case_if; [|apply ensures_ret; exact _].
  apply outside_ensures. intros w. by exists (outside w), (lists w), (deletes w), true.
Qed.

Lemma restore_ensures id :
  (forall w c b, Query.restore id (db w) = Ok (c, b) -> R w (set_db b w)) -> ensures R (restore (W := W) id).
Proof.
  intros Hq. unfold restore. apply ensures_bind; [exact _| |].
  { apply exec_ensures. intros w now c b. apply Hq. }
  intros c. case_if; [apply ensures_ret; exact _|]. apply ensures_bind; [exact _| |intros; apply ensures_ret; exact _].
  apply outside_ensures. intros w. destruct (reinstateVault _ _) as [r o]. by exists o, (lists w), (deletes w), (pass_requested w).
Qed.

Lemma expedite_ensures id up :
  (forall w now c b, Query.expedite id up now (db w) = Ok (c, b) -> R w (set_db b w)) -> ensures R (expedite (W := W) id up).
Proof.
  intros Hq. unfold expedite. apply ensures_bind; [exact _| |].
  { apply exec_ensures. intros w now c b. apply Hq. }
  intros c. case_if; [apply ensures_ret; exact _|]. apply ensures_bind; [exact _| |intros; apply ensures_ret; exact _].
  apply outside_ensures. intros w. by exists (outside w), (lists w), (deletes w), true.
Qed.

Lemma export_ensures id :
  (forall w now b, Query.markKeyExported id now (db w) = Ok (tt, b) -> R w (set_db b w)) -> ensures R (markKeyExported (W := W) id).
Proof. intros Hq. apply exec_ensures. intros w now [] b. apply Hq. Qed.
End Parts.

(** A claimed deletion [d] comes with a fact [J d] that the pass keeps, such as that its
    vault is not live; the pass starts where [Pre] holds. *)
Section Pass.
Context {W : Type} `{Outside W} (cfg : Config) (R : World W -> World W -> Prop) `{!PreOrder R}.
Context (Pre : World W -> Prop) (J : Deletion -> World W -> Prop) (at_ : Z).
Notation M A := (Monad.M (World W) Exn A).
Implicit Types (w u : World W) (d : Deletion) (b : Db).

Hypothesis R_outside : forall w o l x f, R w (mkWorld (db w) (disk w) o l x (requests w) f).
Hypothesis Pre_outside : forall w o, Pre w -> Pre (set_outside o w).
Hypothesis J_stable : forall d w u, R w u -> J d w -> J d u.
Hypothesis J_claim : forall w now a b d, Pre w -> Query.claimDue at_ kClaimPerPass now (db w) = Ok (a, b) -> d ∈ a -> J d (set_db b w).
Hypothesis R_claim : forall w now a b, Query.claimDue at_ kClaimPerPass now (db w) = Ok (a, b) -> R w (set_db b w).
Hypothesis R_defer : forall w id t b, t <= at_ + 3600 -> Query.deferPurge id t (db w) = Ok (tt, b) -> R w (set_db b w).
Hypothesis R_failure : forall w id m t b, t <= at_ + 3600 -> Query.recordFailure id m t (db w) = Ok (tt, b) -> R w (set_db b w).
Hypothesis R_mark : forall w id now b, Query.markUpstreamPurged id now (db w) = Ok (tt, b) -> R w (set_db b w).
Hypothesis R_finish : forall w id note now b, Query.finishPurge id note now (db w) = Ok (tt, b) -> R w (set_db b w).
Hypothesis R_expire : forall w now a b, Query.expireKeys at_ now (db w) = Ok (a, b) -> R w (set_db b w).
Hypothesis R_remove : forall w d, J d w -> Query.backingAliasShared (d_vault_id d) (trimmed (d_backing_alias d)) (db w) = false ->
  R w (removeBackingData cfg (trimmed (d_backing_alias d)) w).2.
Hypothesis R_upstream : forall w u d s3, J d w -> d_delete_upstream d = true -> isS3 d = true -> d_upstream_purged_at d = None ->
  upstreamBlocker d w = (Ok (inr s3), u) -> R u (purgeUpstreamPass s3 u).2.

Lemma backoff_max n : backoff n <= 3600.
Proof. unfold backoff. lia. Qed.

(** [R] where the facts about the deletions [l] hold. *)
Definition given (l : list Deletion) w u : Prop := (forall d, d ∈ l -> J d w) -> R w u.
#[local] Instance given_preorder l : PreOrder (given l).
Proof.
  split; [intros w _; reflexivity|]. intros w u v H1 H2 Hw. specialize (H1 Hw). transitivity u; [done|].
  apply H2. intros d Hd. eapply J_stable; eauto.
Qed.
Lemma given_outside l w o n x f : given l w (mkWorld (db w) (disk w) o n x (requests w) f).
Proof. intros _. apply R_outside. Qed.
#[local] Hint Resolve given_outside : core.

Lemma purge_upstream_ensures d : ensures (given [d]) (purge_upstream d).
Proof.
  unfold purge_upstream. case_if; [|apply ensures_ret; exact _]. bsimpl. intros w Hw. unfold bind at 1.
  pose proof (blocker_ensures R R_outside d w) as Hb. destruct (upstreamBlocker d w) as [[[why|s3]|e] u] eqn:Eb; [done| |done].
  cbn [snd] in Hb. transitivity u; [done|]. unfold bind.
  pose proof (R_upstream w u d s3 (Hw d ltac:(left)) ltac:(done) ltac:(done) ltac:(done) Eb) as Hu.
  destruct (purgeUpstreamPass s3 u) as [[[]|e] v]; [|done..]. cbn [snd] in Hu. transitivity v; [done|].
  refine (ensures_bind R (exec _) (fun _ => ret _) _ _ v); [|intros; apply ensures_ret; exact _].
  apply (exec_ensures R R_outside). intros x now [] b. apply R_mark.
Qed.

Lemma purgeOne_ensures d : ensures (given [d]) (purgeOne cfg d).
Proof.
  unfold purgeOne. apply ensures_bind; [exact _|apply purge_upstream_ensures|]. intros [note go].
  case_if; [apply ensures_ret; exact _|]. intros w. apply (select_then (given [d]) (given_outside [d])). intros u Hdb _ _ _ Hu.
  destruct (Query.backingAliasShared _ _ (db w)) eqn:Es; [reflexivity|].
  unfold bind. pose proof (R_remove u d (Hu d ltac:(left)) ltac:(by rewrite Hdb)) as Hr.
  destruct (removeBackingData cfg _ u) as [[[]|e] v]; [|done]. cbn [snd] in Hr. transitivity v; [done|].
  refine (ensures_bind R (exec _) (fun _ => ret _) _ _ v); [|intros; apply ensures_ret; exact _].
  apply (exec_ensures R R_outside). intros x now [] b. apply R_finish.
Qed.

Lemma pass_query d {A} (f : Z -> Db -> result str (A * Db)) :
  (forall w now a b, f now (db w) = Ok (a, b) -> R w (set_db b w)) -> ensures (given [d]) (exec f).
Proof. intros Hf w _. by apply (exec_ensures R R_outside). Qed.

Lemma purge_claimed_ensures d r : ensures (given [d]) (purge_claimed cfg at_ d r).
Proof.
  unfold purge_claimed. apply ensures_bind; [exact _|apply (stop_ensures (given [d]) (given_outside [d]))|]. intros [].
  - apply ensures_bind; [exact _| |intros; apply ensures_ret; exact _]. apply pass_query. intros w now [] b. apply R_defer; unfold kDeferredRetry; lia.
  - apply ensures_handle; [exact _| |].
    + apply ensures_bind; [exact _|apply purgeOne_ensures|]. intros []; [apply ensures_ret; exact _|].
      apply ensures_bind; [exact _| |intros; apply ensures_ret; exact _]. apply pass_query. intros w now [] b. apply R_defer; unfold kDeferredRetry; lia.
    + intros e. apply ensures_bind; [exact _| |intros; apply ensures_ret; exact _].
      apply ensures_handle; [exact _| |intros; apply ensures_ret; exact _]. apply pass_query. intros w now [] b. apply R_failure; pose proof (backoff_max (d_attempts d)); lia.
Qed.

Lemma purge_all_ensures l r : ensures (given l) (purge_all cfg at_ l r).
Proof.
  revert r. induction l as [|d l IH]; intros r; simpl; [apply ensures_ret; exact _|].
  apply ensures_bind; [exact _| |].
  - intros w Hw. apply purge_claimed_ensures. intros d' Hd. apply Hw. set_solver.
  - intros r' w Hw. apply IH. intros d' Hd. apply Hw. set_solver.
Qed.

Lemma runPass_ensures w : Pre w -> R w (runPass cfg at_ w).2.
Proof.
  intros Hw. unfold runPass. unfold bind at 1, exec at 1.
  destruct (transaction_fails (outside w)) as [[m|] o]; cbn [snd]; [apply R_outside|].
  set (w0 := set_outside o w). assert (R w w0) as R0 by apply R_outside.
  destruct (Query.claimDue at_ kClaimPerPass (db_now (outside w0)) (db w0)) as [[claims b]|m] eqn:Eq; [|done].
  assert (R w (set_db b w0)) as R1 by (transitivity w0; [done|by eapply R_claim]).
  assert (forall d, d ∈ claims -> J d (set_db b w0)) as HJ by (intros d Hd; eapply J_claim; eauto; by apply Pre_outside).
  transitivity (set_db b w0); [done|]. unfold bind at 1.
  pose proof (purge_all_ensures claims no_result (set_db b w0) HJ) as R2.
  destruct (purge_all cfg at_ claims no_result (set_db b w0)) as [[r|e] u]; [|done]. cbn [snd] in R2. transitivity u; [done|].
  refine (ensures_bind R (exec _) (fun _ => ret _) _ _ u); [|intros; apply ensures_ret; exact _].
  apply (exec_ensures R R_outside). intros x now a b'. apply R_expire.
Qed.
End Pass.

(** ** The upstream purge *)
Section UpstreamPurge.
Context {W : Type} `{Outside W}.
Notation M A := (Monad.M (World W) Exn A).
Implicit Types (w u : World W).

Definition names_bucket (key : Z) (bucket : str) (r : Request) : Prop :=
  match r with ListPage k b => k = key /\ b = bucket | DeleteObject k b _ => k = key /\ b = bucket end.
Definition is_list (r : Request) : bool := match r with ListPage _ _ => true | DeleteObject _ _ _ => false end.
Definition list_count (l : list Request) : Z := Z.of_nat (length (base.filter (fun r => is_list r = true) l)).
Definition delete_count (l : list Request) : Z := Z.of_nat (length (base.filter (fun r => is_list r = false) l)).

(** Counts of known lists. *)
Ltac counts := change (list_count []) with 0; change (delete_count []) with 0; cbn [lists deletes set_outside snd]; try lia.

(** The tables and the disk stay; the new requests are about one bucket, are counted,
    and stay within the budget. *)
Definition purges (key : Z) (bucket : str) w u : Prop :=
  db u = db w /\ disk u = disk w /\
  exists new, requests u = requests w ++ new /\ Forall (names_bucket key bucket) new /\
    lists u = lists w + list_count new /\ deletes u = deletes w + delete_count new /\
    (lists w <= kUpstreamListsPerPass -> lists u <= kUpstreamListsPerPass) /\
    (deletes w <= kUpstreamDeletesPerPass -> deletes u <= kUpstreamDeletesPerPass).

#[export] Instance purges_preorder key bucket : PreOrder (purges key bucket).
Proof.
  split.
  - intros w. split_and!; try done. exists []. rewrite app_nil_r. split_and!; try done; counts.
  - intros w u v (D1 & K1 & n1 & R1 & F1 & L1 & X1 & A1 & B1) (D2 & K2 & n2 & R2 & F2 & L2 & X2 & A2 & B2).
    split_and!; [congruence..|]. exists (n1 ++ n2). unfold list_count, delete_count in *. rewrite !filter_app, !length_app.
    rewrite R2, R1, app_assoc, Forall_app. split_and!; try done; try lia; auto.
Qed.

Lemma stop_purges key bucket : ensures (purges key bucket) stop_requested.
Proof.
  intros w. unfold stop_requested. destruct (stopRequested _) as [c o]. split_and!; try done. exists [].
  rewrite app_nil_r. split_and!; try done; counts.
Qed.

Lemma list_purges key bucket : ensures (purges key bucket) (list_page key bucket).
Proof.
  intros w. unfold list_page, bind, record_list. case_if; [simpl; reflexivity|].
  cbn [outside set_counters]. destruct (listObjectKeysPage key bucket (outside w)) as [r o].
  split_and!; try done. exists [ListPage key bucket].
  change (list_count [ListPage key bucket]) with 1. change (delete_count [ListPage key bucket]) with 0.
  cbn [lists deletes requests log_request set_outside set_counters snd]. bsimpl. split_and!; try lia; try done. by repeat constructor.
Qed.

Lemma delete_purges key bucket name : ensures (purges key bucket) (delete_object key bucket name).
Proof.
  intros w. unfold delete_object, bind, record_delete. case_if; [simpl; reflexivity|].
  cbn [outside set_counters]. destruct (deleteObject key bucket name (outside w)) as [r o].
  split_and!; try done. exists [DeleteObject key bucket name].
  change (list_count [DeleteObject key bucket name]) with 0. change (delete_count [DeleteObject key bucket name]) with 1.
  cbn [lists deletes requests log_request set_outside set_counters snd]. bsimpl. split_and!; try lia; try done. by repeat constructor.
Qed.

Lemma page_purges key bucket keys : ensures (purges key bucket) (delete_page key bucket keys).
Proof.
  induction keys as [|k keys IH]; simpl; [apply ensures_ret; exact _|].
  apply ensures_bind; [exact _|apply stop_purges|]. intros []; [apply ensures_ret; exact _|].
  apply ensures_bind; [exact _| |done]. apply ensures_handle; [exact _|apply delete_purges|].
  intros []; try (apply ensures_throw; exact _). apply ensures_ret; exact _.
Qed.

Lemma loop_purges fuel key bucket : ensures (purges key bucket) (purge_loop fuel key bucket).
Proof.
  induction fuel as [|fuel IH]; simpl; [apply ensures_throw; exact _|].
  apply ensures_bind; [exact _|apply stop_purges|]. intros []; [apply ensures_ret; exact _|].
  apply ensures_bind; [exact _|apply list_purges|]. intros page. case_if; [apply ensures_ret; exact _|].
  apply ensures_bind; [exact _|apply page_purges|]. intros []; [done|apply ensures_ret; exact _].
Qed.

(** The counted requests of a pass with a fresh controller. *)
Definition within_budget (key : Z) (bucket : str) w u : Prop :=
  db u = db w /\ disk u = disk w /\
  exists new, requests u = requests w ++ new /\ Forall (names_bucket key bucket) new /\
    list_count new <= kUpstreamListsPerPass /\ delete_count new <= kUpstreamDeletesPerPass.

Lemma pass_within_budget s3 w : within_budget (s_api_key_id s3) (s_bucket s3) w (purgeUpstreamPass s3 w).2.
Proof.
  assert (within_budget (s_api_key_id s3) (s_bucket s3) w w) as Hrefl.
  { split_and!; try done. exists []. rewrite app_nil_r. split_and!; try done; by vm_compute. }
  unfold purgeUpstreamPass, bind at 1, controllerFor, ask, bind, reads.
  destruct (makeController _ _ _); [|exact Hrefl]. unfold modify.
  set (w0 := set_counters 0 0 w).
  pose proof (ensures_handle (purges (s_api_key_id s3) (s_bucket s3)) (purge_loop (S (Z.to_nat kUpstreamListsPerPass)) (s_api_key_id s3) (s_bucket s3))
    (fun e => match e with RequestBudgetExceeded _ => ret false | _ => throw e end) (loop_purges _ _ _)) as Hp.
  destruct Hp with (s := w0) as (D & K & new & Rq & F & L & X & A & B).
  { intros []; try (apply ensures_throw; exact _). apply ensures_ret; exact _. }
  split_and!; [exact D|exact K|]. exists new. unfold w0 in L, X, A, B. cbn [lists deletes set_counters] in L, X, A, B.
  unfold kUpstreamListsPerPass, kUpstreamDeletesPerPass in *. split_and!; try done; lia.
Qed.

(** Each round lists once, so the list budget bounds the rounds. *)
Lemma delete_page_lists key bucket keys w :
  match delete_page key bucket keys w with (r, u) => lists u = lists w /\ r <> Err Diverged end.
Proof.
  revert w. induction keys as [|k keys IH]; intros w; [by split|]. cbn [delete_page]. unfold bind at 1, stop_requested.
  destruct (stopRequested (outside w)) as [c o]. destruct c; [by split|]. unfold bind at 1, handle, delete_object, bind at 1, record_delete.
  cbn [deletes set_outside]. case_if; [by split|]. cbn [outside set_counters set_outside].
  destruct (deleteObject key bucket k o) as [[u|[m|m]] o']; cbn [store_exn]; unfold ret, throw; cbv beta iota; [| |by split];
    match goal with |- context [delete_page key bucket keys ?x] => exact (IH x) end.
Qed.

Lemma purge_loop_ends fuel key bucket w : (Z.to_nat (kUpstreamListsPerPass - lists w) < fuel)%nat ->
  (purge_loop fuel key bucket w).1 <> Err Diverged.
Proof.
  revert w. induction fuel as [|fuel IH]; intros w Hf; [lia|]. cbn [purge_loop]. unfold bind at 1, stop_requested.
  destruct (stopRequested (outside w)) as [c o]. destruct c; [done|]. unfold bind at 1, list_page, bind at 1, record_list.
  cbn [lists set_outside]. case_if; [done|]. cbn [outside set_counters set_outside].
  destruct (listObjectKeysPage key bucket o) as [[page|m] o']; [|done]. destruct (is_empty page); [done|].
  unfold bind. match goal with |- context [delete_page key bucket page ?x] => set (w1 := x) end.
  pose proof (delete_page_lists key bucket page w1) as Hd. destruct (delete_page key bucket page w1) as [[[]|e] w2];
    destruct Hd as [Hl Hd]; [|done|done].
  apply IH. rewrite Hl. unfold w1. cbn [lists log_request set_outside set_counters]. bsimpl. unfold kUpstreamListsPerPass in *. lia.
Qed.

(** An upstream purge ends and is bounded: eleven rounds of its loop always suffice,
    whatever the store answers; the tables and the disk stay as they were; and all it
    sends are at most 10 list and 10000 delete requests to the vault's own bucket. *)
Theorem upstream_purge_bounded (s3 : S3Row) w :
  (purgeUpstreamPass s3 w).1 <> Err Diverged /\
  within_budget (s_api_key_id s3) (s_bucket s3) w (purgeUpstreamPass s3 w).2.
Proof.
  split; [|apply pass_within_budget].
  unfold purgeUpstreamPass, bind at 1, controllerFor, ask, bind, reads. destruct (makeController _ _ _); [|done].
  unfold modify, handle. pose proof (purge_loop_ends (S (Z.to_nat kUpstreamListsPerPass)) (s_api_key_id s3) (s_bucket s3) (set_counters 0 0 w)) as He.
  destruct (purge_loop _ _ _ _) as [[c|[]] u]; try done. apply He. cbn. lia.
Qed.
End UpstreamPurge.

(** ** The queries, table by table *)
Lemma lookup_update id f b id' :
  deletions (Query.update id f b) !! id' = if decide (id' = id) then f <$> deletions b !! id' else deletions b !! id'.
Proof.
  unfold Query.update. cbn [deletions with_deletions]. case_decide; [subst; apply lookup_alter_eq|by apply lookup_alter_ne].
Qed.

(** Claims change the deletions only. *)
Lemma claim_tables now (rows : list (Z * Deletion)) b :
  foldr (fun kv b => Query.update kv.1 (Query.claimed now) b) b rows =
    with_deletions (deletions (foldr (fun kv b => Query.update kv.1 (Query.claimed now) b) b rows)) b.
Proof. induction rows as [|kv rows IH]; simpl; [by destruct b|]. rewrite IH at 1. by destruct b. Qed.

Lemma claim_lookup now (rows : list (Z * Deletion)) b id : NoDup rows.*1 ->
  deletions (foldr (fun kv b => Query.update kv.1 (Query.claimed now) b) b rows) !! id =
    if decide (id ∈ rows.*1) then Query.claimed now <$> deletions b !! id else deletions b !! id.
Proof.
  induction rows as [|kv rows IH]; intros Hn; cbn [foldr].
  - rewrite decide_False; [done|]. apply not_elem_of_nil.
  - rewrite fmap_cons, NoDup_cons in Hn. destruct Hn as [H1 H2]. rewrite fmap_cons, lookup_update, IH by done.
    assert (id ∈ kv.1 :: rows.*1 <-> id = kv.1 \/ id ∈ rows.*1) as He by apply elem_of_cons.
    repeat case_decide; try done; try tauto. subst. tauto.
Qed.

Lemma due_rows_elem at_ n b kv : kv ∈ Query.due_rows at_ n b -> deletions b !! kv.1 = Some kv.2 /\ Query.due at_ kv.2 = true.
Proof.
  unfold Query.due_rows. intros Hk. apply (subseteq_take n) in Hk. rewrite merge_sort_Permutation, list_elem_of_filter in Hk.
  destruct Hk as [Hd Hk]. destruct kv as [k d]. split; [|done]. by apply elem_of_map_to_list.
Qed.
Lemma due_rows_NoDup at_ n b : NoDup (Query.due_rows at_ n b).*1.
Proof.
  unfold Query.due_rows. eapply sublist_NoDup; [|apply fmap_sublist, sublist_take].
  rewrite merge_sort_Permutation. eapply sublist_NoDup; [|apply fmap_sublist, sublist_filter]. apply NoDup_fst_map_to_list.
Qed.

(** What [claimDue] did: some due records are claimed, and those are its result. *)
Lemma claimDue_spec at_ n now b l b' : Query.claimDue at_ n now b = Ok (l, b') ->
  b' = with_deletions (deletions b') b /\
  (forall id, deletions b' !! id = deletions b !! id \/
     exists d, deletions b !! id = Some d /\ Query.due at_ d = true /\ deletions b' !! id = Some (Query.claimed now d)) /\
  (forall d', d' ∈ l -> exists id d, deletions b !! id = Some d /\ Query.due at_ d = true /\ d' = Query.claimed now d /\
     deletions b' !! id = Some d').
Proof.
  unfold Query.claimDue. intros [= <- <-]. set (rows := Query.due_rows at_ n b).
  pose proof (due_rows_NoDup at_ n b) as Hn. fold rows in Hn. split; [apply claim_tables|].
  assert (forall kv, kv ∈ rows -> deletions b !! kv.1 = Some kv.2 /\ Query.due at_ kv.2 = true) as He by apply due_rows_elem.
  split.
  - intros id. rewrite claim_lookup by done. case_decide as E; [right|by left].
    apply list_elem_of_fmap in E as (kv & -> & Hkv). destruct (He kv Hkv) as [H1 H2]. exists kv.2. by rewrite H1.
  - intros d' Hd. change (map ?f ?l) with (f <$> l) in Hd. apply list_elem_of_fmap in Hd as (kv & -> & Hkv).
    destruct (He kv Hkv) as [H1 H2]. exists kv.1, kv.2. rewrite claim_lookup, decide_True, H1 by (done || by apply list_elem_of_fmap_2). done.
Qed.

(** The update of one record, for the queries of a purge under way. *)
Definition keeps (d d' : Deletion) : Prop :=
  d_vault_id d' = d_vault_id d /\ d_state d' = d_state d /\ d_key_purged_at d' = d_key_purged_at d /\
  d_key_retain_until d' = d_key_retain_until d /\ d_purge_after d' <= d_purge_after d.
Definition kept_update (id : Z) b b' : Prop := exists f, (forall d, keeps d (f d)) /\ b' = Query.update id f b.

Lemma keeps_if_purging f : (forall d, keeps d (f d)) -> forall d, keeps d (Query.if_purging f d).
Proof. intros Hf d. unfold Query.if_purging. case_if; [apply Hf|]. by split_and!. Qed.

Ltac kept := match goal with
  | H : _ = Ok (_, ?b) |- kept_update _ _ ?b => injection H as <-; eexists; split; [|reflexivity]
  end; try apply keeps_if_purging; intros ?; split_and!; simpl; try done; lia.
Lemma defer_kept id t b b' : Query.deferPurge id t b = Ok (tt, b') -> kept_update id b b'.
Proof. unfold Query.deferPurge. intros Hq. kept. Qed.
Lemma failure_kept id m t b b' : Query.recordFailure id m t b = Ok (tt, b') -> kept_update id b b'.
Proof. unfold Query.recordFailure. intros Hq. kept. Qed.
Lemma mark_kept id now b b' : Query.markUpstreamPurged id now b = Ok (tt, b') -> kept_update id b b'.
Proof. unfold Query.markUpstreamPurged. intros Hq. kept. Qed.
Lemma export_kept id now b b' : Query.markKeyExported id now b = Ok (tt, b') -> kept_update id b b'.
Proof. unfold Query.markKeyExported. intros Hq. kept. Qed.
Lemma expedite_kept id up now c b b' : Query.expedite id up now b = Ok (c, b') -> kept_update id b b'.
Proof.
  assert (kept_update id b b) as H0.
  { exists (fun d => d). split; [by intros d; split_and!|]. unfold Query.update. rewrite alter_id by done. by destruct b. }
  unfold Query.expedite. destruct (deletions b !! id); [|by intros [= _ <-]]. case_if; [by intros [= _ <-]|].
  intros [= _ <-]. eexists. split; [|reflexivity]. intros ?. split_and!; simpl; try done; lia.
Qed.

(** What [finishPurge] did. *)
Lemma finishPurge_spec id note now b b' : Query.finishPurge id note now b = Ok (tt, b') ->
  exists d, deletions b !! id = Some d /\ d_state d = Purging /\
    deletions b' = <[id := set_purged_at (Some now) (set_progress Purged (d_purge_started_at d) (d_upstream_purged_at d)
                                   (d_attempts d) None note d)]> (deletions b) /\
    deletion_keys b' = deletion_keys b /\ api_keys b' = api_keys b /\
    ((exists v, vaults b !! id = Some v /\ v_deleted_at v <> None /\ vaults b' = delete id (vaults b) /\ s3s b' = delete id (s3s b) /\
        vault_keys b' = delete id (vault_keys b) /\ vault_keys_trashed b' = delete id (vault_keys_trashed b)) \/
     ((forall v, vaults b !! id = Some v -> v_deleted_at v = None) /\ vaults b' = vaults b /\ s3s b' = s3s b /\
        vault_keys b' = vault_keys b /\ vault_keys_trashed b' = vault_keys_trashed b)).
Proof.
  unfold Query.finishPurge. destruct (deletions b !! id) as [d|] eqn:Ed; [|done]. case_if; [|done]. bsimpl. intros [= <-].
  exists d. assert (forall c, deletions c = deletions b -> deletions (Query.update id
      (fun d => set_purged_at (Some now) (set_progress Purged (d_purge_started_at d) (d_upstream_purged_at d) (d_attempts d) None note d)) c) =
    <[id := set_purged_at (Some now) (set_progress Purged (d_purge_started_at d) (d_upstream_purged_at d) (d_attempts d) None note d)]> (deletions b)) as Hu.
  { intros c Hc. unfold Query.update. cbn [deletions with_deletions]. rewrite Hc. apply map_eq. intros i.
    destruct (decide (i = id)) as [->|]; [by rewrite lookup_alter_eq, lookup_insert_eq, Ed|by rewrite lookup_alter_ne, lookup_insert_ne by done]. }
  destruct (vaults b !! id) as [v|] eqn:Ev; [case_if; bsimpl|]; (split_and!; [done|done|by apply Hu|done|done|]).
  - left. exists v. by split_and!.
  - right. split; [by intros v' [= <-]|done].
  - right. split; [done|done].
Qed.

(** ** The tables are well formed, and a deletion moves along its states *)
Definition row_deleted (r : option VaultRow) : Prop := match r with Some v => v_deleted_at v <> None | None => False end.
Definition wf_deletion b (id : Z) (d : Deletion) : Prop :=
  d_vault_id d = id /\ d_purge_after d <= d_key_retain_until d /\
  (d_state d <> Purged -> row_deleted (vaults b !! id)) /\
  (d_state d = Purged -> vaults b !! id = None) /\
  (d_key_purged_at d = None <-> deletion_keys b !! id <> None) /\
  (d_key_purged_at d <> None -> d_state d = Purged).
Definition wf_vault b (id : Z) (v : VaultRow) : Prop :=
  v_deleted_at v <> None -> exists d, deletions b !! id = Some d /\ d_state d <> Purged.
Record wf_db (b : Db) : Prop := {
  wf_deletions : map_Forall (wf_deletion b) (deletions b);
  wf_vaults : map_Forall (wf_vault b) (vaults b);
  wf_copies : forall id, deletions b !! id = None -> deletion_keys b !! id = None;
  wf_s3s : forall id, vaults b !! id = None -> s3s b !! id = None;
  wf_keys : forall id, vaults b !! id = None -> vault_keys b !! id = None /\ vault_keys_trashed b !! id = None }.

(** One move of a vault's deletion: no record, pending, purging, purged. *)
Inductive move : option DeletionState -> option DeletionState -> Prop :=
| move_delete : move None (Some Pending)
| move_restore : move (Some Pending) None
| move_claim : move (Some Pending) (Some Purging)
| move_finish : move (Some Purging) (Some Purged).
Definition state_of b (id : Z) : option DeletionState := d_state <$> deletions b !! id.
Definition lifecycle b b' : Prop := wf_db b -> wf_db b' /\ forall id, rtc move (state_of b id) (state_of b' id).

#[export] Instance lifecycle_preorder : PreOrder lifecycle.
Proof.
  split; [intros b Hb; by split|]. intros b c e H1 H2 Hb. destruct (H1 Hb) as [Hc M1]. destruct (H2 Hc) as [He M2].
  split; [done|]. intros id. by transitivity (state_of c id).
Qed.

(** The records around one vault: what a query must establish there. *)
Definition wf_at b (id : Z) : Prop :=
  (forall d, deletions b !! id = Some d -> wf_deletion b id d) /\ (forall v, vaults b !! id = Some v -> wf_vault b id v) /\
  (deletions b !! id = None -> deletion_keys b !! id = None) /\ (vaults b !! id = None -> s3s b !! id = None) /\
  (vaults b !! id = None -> vault_keys b !! id = None /\ vault_keys_trashed b !! id = None).
Lemma wf_db_at b : wf_db b <-> forall id, wf_at b id.
Proof.
  split.
  - intros [Hd Hv Hc Hs Hk] id. split_and!; auto.
  - intros Ha. split; [intros id d Hx|intros id v Hx|intros id|intros id|intros id]; destruct (Ha id) as (H1 & H2 & H3 & H4 & H5); auto.
Qed.
Definition same_at b b' (id : Z) : Prop :=
  deletions b' !! id = deletions b !! id /\ vaults b' !! id = vaults b !! id /\ s3s b' !! id = s3s b !! id /\
  vault_keys b' !! id = vault_keys b !! id /\ vault_keys_trashed b' !! id = vault_keys_trashed b !! id /\
  deletion_keys b' !! id = deletion_keys b !! id.
Lemma wf_same_at b b' id : same_at b b' id -> wf_at b id -> wf_at b' id.
Proof.
  intros (E1 & E2 & E3 & E4 & E5 & E6). unfold wf_at, wf_deletion, wf_vault. by rewrite E1, E2, E3, E4, E5, E6.
Qed.

(** A query keeps the tables well formed when it does at every vault. *)
Lemma lifecycle_at b b' :
  (forall id, wf_at b id -> same_at b b' id \/ (wf_at b' id /\ rtc move (state_of b id) (state_of b' id))) -> lifecycle b b'.
Proof.
  intros Hq Hb. rewrite wf_db_at in Hb. split; [apply wf_db_at|]; intros id; destruct (Hq id (Hb id)) as [Hs|[Hw Hm]]; try done.
  - by eapply wf_same_at.
  - unfold state_of. by rewrite (proj1 Hs).
Qed.

Lemma lifecycle_kept id b b' : kept_update id b b' -> lifecycle b b'.
Proof.
  intros (f & Hf & ->). apply lifecycle_at. intros i Hi. right. unfold state_of. rewrite lookup_update. case_decide as E; [subst|].
  - destruct Hi as (H1 & H2 & H3 & H4 & H5). split.
    + unfold wf_at. rewrite lookup_update, decide_True by done. cbn. split_and!; try done.
      * intros d' Hd. destruct (deletions b !! id) as [d|] eqn:Ed; [|done]. injection Hd as <-.
        destruct (Hf d) as (F1 & F2 & F3 & F4 & F5). destruct (H1 d eq_refl) as (A1 & A2 & A3 & A4 & A5 & A6).
        unfold wf_deletion. rewrite F1, F2, F3, F4. split_and!; try done. lia.
      * intros v Hv Hx. destruct (H2 v Hv Hx) as (d & Hd & Hs). exists (f d). rewrite lookup_update, decide_True, Hd by done.
        split; [done|]. by rewrite (proj1 (proj2 (Hf d))).
      * intros Hn. apply H3. by apply fmap_None in Hn.
    + destruct (deletions b !! id) as [d|]; simpl; [|done]. by rewrite (proj1 (proj2 (Hf d))).
  - split; [|done]. eapply wf_same_at; [|exact Hi]. split_and!; try done. by rewrite lookup_update, decide_False.
Qed.

Lemma lifecycle_claim at_ n now b l b' : Query.claimDue at_ n now b = Ok (l, b') -> lifecycle b b'.
Proof.
  intros (Hb & Hm & _)%claimDue_spec. rewrite Hb. apply lifecycle_at. intros id (H1 & H2 & H3 & H4 & H5).
  destruct (Hm id) as [E|(d & Ed & Hdue & Ed')]; [left; by split_and!|right].
  destruct (H1 d Ed) as (A1 & A2 & A3 & A4 & A5 & A6).
  assert (d_state d <> Purged) as Hs by (unfold Query.due in Hdue; by destruct (d_state d)). split.
  - unfold wf_at. cbn. rewrite Ed'. split_and!; try done.
    + intros d' [= <-]. unfold wf_deletion. cbn. split_and!; try done; auto. intros Hp. by destruct Hs; auto.
    + intros v Hv Hx. eexists. cbn. split; [exact Ed'|done].
  - unfold state_of. cbn [deletions with_deletions]. rewrite Ed, Ed'. cbn. unfold Query.claimed. cbn [d_state set_progress].
    destruct (d_state d); [apply rtc_once; constructor|done|done].
Qed.

Lemma lifecycle_finish id note now b b' : Query.finishPurge id note now b = Ok (tt, b') -> lifecycle b b'.
Proof.
  intros (d & Ed & Es & Hd & Hk & _ & Hv)%finishPurge_spec. apply lifecycle_at. intros i (H1 & H2 & H3 & H4 & H5).
  destruct (decide (i = id)) as [->|Hne].
  - right. destruct (H1 d Ed) as (A1 & A2 & A3 & A4 & A5 & A6).
    destruct Hv as [(v & _ & _ & E1 & E2 & E3 & E4)|(Hl & _)].
    + split.
      * unfold wf_at. rewrite Hd, Hk, E1, E2, E3, E4, lookup_insert_eq, !lookup_delete_eq. split_and!; try done.
        intros d' [= <-]. unfold wf_deletion. cbn. rewrite Hk, E1, lookup_delete_eq. by split_and!.
      * unfold state_of. rewrite Hd, lookup_insert_eq, Ed. cbn. rewrite Es. apply rtc_once. constructor.
    + exfalso. rewrite Es in A3. specialize (A3 ltac:(done)). destruct (vaults b !! id) as [v|]; [|done]. by apply A3, Hl.
  - left. unfold same_at. rewrite Hd, Hk, lookup_insert_ne by done.
    destruct Hv as [(v & _ & _ & E1 & E2 & E3 & E4)|(_ & E1 & E2 & E3 & E4)]; rewrite E1, E2, E3, E4, ?lookup_delete_ne by done; by split_and!.
Qed.

Lemma expireKeys_lookup at_ now b l b' : Query.expireKeys at_ now b = Ok (l, b') ->
  b' = with_deletion_keys (deletion_keys b') (with_deletions (deletions b') b) /\ forall id,
  match deletions b !! id with
  | Some d => if Query.expired at_ d then deletions b' !! id = Some (set_key_purged_at (Some now) d) /\ deletion_keys b' !! id = None
              else deletions b' !! id = Some d /\ deletion_keys b' !! id = deletion_keys b !! id
  | None => deletions b' !! id = None /\ deletion_keys b' !! id = deletion_keys b !! id
  end.
Proof.
  unfold Query.expireKeys. intros [= _ <-]. split; [done|]. intros id. cbn [deletions deletion_keys with_deletions with_deletion_keys].
  rewrite lookup_fmap, map_lookup_filter. set (gone := filter _ _).
  assert (gone !! id = None \/ gone !! id <> None) as Hg by (destruct (gone !! id); auto).
  assert (gone !! id = match deletions b !! id with Some d => if Query.expired at_ d then Some d else None | None => None end) as Eg.
  { unfold gone. rewrite map_lookup_filter. destruct (deletions b !! id) as [d|]; cbn; [|done]. case_if; case_guard; done. }
  destruct (deletions b !! id) as [d|] eqn:Ed; cbn [fmap option_fmap option_map]; [case_if|].
  - split; [done|]. destruct (deletion_keys b !! id); cbn; [|done]. by case_guard; simplify_eq/=; congruence.
  - split; [done|]. destruct (deletion_keys b !! id); cbn; [|done]. by case_guard.
  - split; [done|]. destruct (deletion_keys b !! id); cbn; [|done]. by case_guard.
Qed.

Lemma lifecycle_expire at_ now b l b' : Query.expireKeys at_ now b = Ok (l, b') -> lifecycle b b'.
Proof.
  intros (Hb & Hm)%expireKeys_lookup. rewrite Hb. apply lifecycle_at. intros id (H1 & H2 & H3 & H4 & H5). specialize (Hm id).
  destruct (deletions b !! id) as [d|] eqn:Ed; [|left; destruct Hm as [M1 M2]; split_and!; rewrite ?Ed; done].
  destruct (Query.expired at_ d) eqn:Ex; [|left; destruct Hm as [M1 M2]; split_and!; rewrite ?Ed; done]. right. destruct Hm as [E1 E2].
  destruct (H1 d eq_refl) as (A1 & A2 & A3 & A4 & A5 & A6). unfold Query.expired in Ex. bsimpl. split.
  - unfold wf_at. cbn. rewrite E1, E2. split_and!; try done.
    + intros d' [= <-]. unfold wf_deletion. cbn. rewrite E2. by split_and!.
    + intros v Hv Hx. destruct (H2 v Hv Hx) as (d' & Hd & Hs). simplify_eq.
  - unfold state_of. cbn. by rewrite Ed, E1.
Qed.

Lemma schedule_spec s now b d b' : Query.schedule s now b = Ok (d, b') ->
  exists v, vaults b !! Query.q_vault_id s = Some v /\ v_deleted_at v = None /\ deletions b !! Query.q_vault_id s = None /\
     b' = with_deletion_keys (<[Query.q_vault_id s := default ∅ (deletion_keys b !! Query.q_vault_id s) ∪ Query.key_versions (Query.q_vault_id s) b]>
           (deletion_keys b)) (with_deletions (<[Query.q_vault_id s := d]> (deletions b))
             (with_vaults (<[Query.q_vault_id s := set_deleted_at (Some now) false ∅ v]> (vaults b)) b)) /\
     d_vault_id d = Query.q_vault_id s /\ d_state d = Pending /\ d_key_purged_at d = None /\ d_vault_name d = v_name v /\
     d_deleted_at d = now /\ d_purge_after d = now + Query.q_retention_window s /\ d_key_retain_until d = Z.max (now + Query.q_key_retention_window s) (d_purge_after d).
Proof.
  unfold Query.schedule. destruct (vaults b !! _) as [v|] eqn:Ev; [|done]. case_if; [|done]. case_if; [|done]. bsimpl.
  intros [= <- <-]. exists v. by split_and!.
Qed.

Lemma lifecycle_schedule s now b d b' : Query.schedule s now b = Ok (d, b') -> lifecycle b b'.
Proof.
  intros (v & Ev & Hl & En & -> & E1 & E2 & E3 & E4 & E5 & E6 & E7)%schedule_spec. apply lifecycle_at. set (k := Query.q_vault_id s) in *.
  intros id (H1 & H2 & H3 & H4 & H5). destruct (decide (id = k)) as [->|Hne]; [right|left].
  - split.
    + unfold wf_at, wf_deletion, wf_vault. cbn. rewrite !lookup_insert_eq. split_and!; try done.
      * intros d' [= <-]. split_and!; try done; try congruence; try lia.
      * intros v' _ _. exists d. split; [done|]. by rewrite E2.
    + unfold state_of. cbn. rewrite lookup_insert_eq, En. cbn. rewrite E2. apply rtc_once. constructor.
  - split_and!; cbn; by rewrite ?lookup_insert_ne by done.
Qed.

Lemma restore_spec id b c b' : Query.restore id b = Ok (c, b') ->
  (c = false /\ b' = b) \/
  (c = true /\ exists d v, deletions b !! id = Some d /\ d_state d = Pending /\ vaults b !! id = Some v /\ v_deleted_at v <> None /\
     b' = with_deletion_keys (delete id (deletion_keys b)) (with_deletions (delete id (deletions b))
            (with_vaults (<[id := set_deleted_at None true (v_inodes v) v]> (vaults b)) b))).
Proof.
  unfold Query.restore. destruct (deletions b !! id) as [d|] eqn:Ed; [|intros [= <- <-]; by left].
  case_if; [intros [= <- <-]; by left|]. destruct (vaults b !! id) as [v|] eqn:Ev; [|done]. case_if; [|done]. bsimpl.
  intros [= <- <-]. right. split; [done|]. exists d, v. by split_and!.
Qed.

Lemma lifecycle_restore id b c b' : Query.restore id b = Ok (c, b') -> lifecycle b b'.
Proof.
  intros [[_ ->]|(_ & d & v & Ed & Es & Ev & Hv & ->)]%restore_spec; [done|]. apply lifecycle_at.
  intros i (H1 & H2 & H3 & H4 & H5). destruct (decide (i = id)) as [->|Hne]; [right|left].
  - split.
    + unfold wf_at, wf_deletion, wf_vault. cbn. rewrite !lookup_delete_eq, !lookup_insert_eq. split_and!; try done. by intros v' [= <-].
    + unfold state_of. cbn. rewrite lookup_delete_eq, Ed. cbn. rewrite Es. apply rtc_once. constructor.
  - split_and!; cbn; by rewrite ?lookup_insert_ne, ?lookup_delete_ne by done.
Qed.

(** ** Any sequence of operations *)
Inductive Op :=
| OpSchedule (vaultId : Z) (deletedBy : option Z) (now deleteUpstream : bool) | OpRestore (vaultId : Z)
| OpExpedite (vaultId : Z) (deleteUpstream : option bool) | OpExport (vaultId : Z) | OpPass (now : Z).

Section Operations.
Context {W : Type} `{Outside W} (cfg : Config).
Implicit Types (w u : World W) (d : Deletion) (b : Db).

Definition run_op w (o : Op) : World W :=
  match o with
  | OpSchedule id by_ now up => (schedule cfg id by_ now up w).2
  | OpRestore id => (restore id w).2
  | OpExpedite id up => (expedite id up w).2
  | OpExport id => (markKeyExported id w).2
  | OpPass now => (runPass cfg now w).2
  end.
Definition run w (ops : list Op) : World W := foldl run_op w ops.

(** The removal of directories changes the disk only. *)
Lemma backing_frame alias w : exists k, (removeBackingData cfg alias w).2 = set_disk k w.
Proof.
  set (D w u := exists k, u = set_disk k w).
  assert (PreOrder D) as HD.
  { split; [intros x; exists (disk x); by destruct x|intros x y z [k ->] [k' ->]; by exists k']. }
  assert (forall r, ensures D (remove_directory (W := W) r alias)) as Hr.
  { intros r x. unfold remove_directory. destruct (removeVaultDirectory _ _ _ _) as [c k]. by exists k. }
  assert (ensures D (removeBackingData cfg alias)) as Hall; [|apply Hall]. unfold removeBackingData.
  repeat (apply ensures_bind; [exact HD|apply Hr|intros _]). apply ensures_ret, HD.
Qed.
Lemma backing_tables alias w : db (removeBackingData cfg alias w).2 = db w.
Proof. by destruct (backing_frame alias w) as [k ->]. Qed.
Lemma backing_requests alias w : requests (removeBackingData cfg alias w).2 = requests w.
Proof. by destruct (backing_frame alias w) as [k ->]. Qed.

(** A preorder of the tables that the queries follow, the operations follow. *)
Section Tables.
Context (T : Db -> Db -> Prop) `{!PreOrder T} (allowed : Op -> Prop).
Hypothesis T_kept : forall id b b', kept_update id b b' -> T b b'.
Hypothesis T_claim : forall at_ n now b l b', Query.claimDue at_ n now b = Ok (l, b') -> T b b'.
Hypothesis T_finish : forall id note now b b', Query.finishPurge id note now b = Ok (tt, b') -> T b b'.
Hypothesis T_expire : forall at_ now b l b', allowed (OpPass at_) -> Query.expireKeys at_ now b = Ok (l, b') -> T b b'.
Hypothesis T_schedule : forall s now b d b', Query.schedule s now b = Ok (d, b') -> T b b'.
Hypothesis T_restore : forall id b c b', allowed (OpRestore id) -> Query.restore id b = Ok (c, b') -> T b b'.

Definition by_tables w u : Prop := T (db w) (db u).
#[local] Instance by_tables_preorder : PreOrder by_tables.
Proof. split; [intros w; unfold by_tables; reflexivity|intros x y z H1 H2; unfold by_tables in *; by etrans]. Qed.
Lemma by_tables_outside w o l x f : by_tables w (mkWorld (db w) (disk w) o l x (requests w) f).
Proof. unfold by_tables. cbn [db]. reflexivity. Qed.
Lemma by_tables_same w u : db u = db w -> by_tables w u.
Proof. intros E. unfold by_tables. rewrite E. reflexivity. Qed.

Lemma runPass_tables at_ w : allowed (OpPass at_) -> T (db w) (db (runPass cfg at_ w).2).
Proof.
  intros Ha. apply (runPass_ensures cfg by_tables (fun _ => True) (fun _ _ => True) at_ by_tables_outside); try done; unfold by_tables; cbn [db set_db].
  - intros. by eapply T_claim.
  - intros. by eapply T_kept, defer_kept.
  - intros. by eapply T_kept, failure_kept.
  - intros. by eapply T_kept, mark_kept.
  - intros. by eapply T_finish.
  - intros. by eapply T_expire.
  - intros. apply by_tables_same, backing_tables.
  - intros x y d s3 _ _ _ _ _. apply by_tables_same. exact (proj1 (pass_within_budget s3 y)).
Qed.

Lemma run_tables ops w : Forall allowed ops -> T (db w) (db (run w ops)).
Proof.
  revert w. induction ops as [|o ops IH]; intros w Ha; [reflexivity|]. apply Forall_cons in Ha as [Ho Ha].
  transitivity (db (run_op w o)); [|by apply IH]. destruct o as [id by_ now up|id|id up|id|at_]; cbn [run_op].
  - apply (schedule_ensures cfg by_tables by_tables_outside). intros. by eapply T_schedule.
  - apply (restore_ensures by_tables by_tables_outside). intros. by eapply T_restore.
  - apply (expedite_ensures by_tables by_tables_outside). intros. by eapply T_kept, expedite_kept.
  - apply (export_ensures by_tables by_tables_outside). intros. by eapply T_kept, export_kept.
  - by apply runPass_tables.
Qed.
End Tables.

Lemma run_lifecycle w ops : lifecycle (db w) (db (run w ops)).
Proof.
  apply (run_tables lifecycle (fun _ => True)); [exact lifecycle_kept|exact lifecycle_claim|exact lifecycle_finish| |exact lifecycle_schedule| |].
  - intros at_ now b l b' _. apply lifecycle_expire.
  - intros id b c b' _. apply lifecycle_restore.
  - by apply Forall_true.
Qed.

(** C18. From well-formed tables, every sequence of deletions, restorations, expedited
    purges, key exports and passes, however each ends, leads to well-formed tables, so a
    pending or purging deletion has its deleted vault row, a deleted row its deletion, a
    purged one no row, and its key copies last until they are purged; and it has moved
    each vault's deletion along none, pending (or back), purging, purged only: nothing
    leaves purging but for purged, and purged stays. *)
Theorem deletion_lifecycle w ops : wf_db (db w) ->
  wf_db (db (run w ops)) /\
  forall id, rtc move (state_of (db w) id) (state_of (db (run w ops)) id).
Proof. apply run_lifecycle. Qed.

(** The key copies of one vault, kept until [until]. *)
Definition copies_kept (id until : Z) b b' : Prop :=
  forall d, deletions b !! id = Some d -> until <= d_key_retain_until d ->
  (exists d', deletions b' !! id = Some d' /\ d_key_retain_until d' = d_key_retain_until d) /\
  deletion_keys b' !! id = deletion_keys b !! id.
#[local] Instance copies_kept_preorder id until : PreOrder (copies_kept id until).
Proof.
  split; [intros b d Hd _; eauto|]. intros b c e H1 H2 d Hd Hu. destruct (H1 d Hd Hu) as [(d1 & Hd1 & E1) K1].
  destruct (H2 d1 Hd1 ltac:(lia)) as [(d2 & Hd2 & E2) K2]. split; [|congruence]. exists d2. split; [done|congruence].
Qed.

Lemma kept_copies id until i b b' : kept_update i b b' -> copies_kept id until b b'.
Proof.
  intros (f & Hf & ->) d Hd _. split; [|done]. rewrite lookup_update, Hd. case_decide; [|by eauto].
  exists (f d). split; [done|]. apply Hf.
Qed.
Lemma claim_copies id until at_ n now b l b' : Query.claimDue at_ n now b = Ok (l, b') -> copies_kept id until b b'.
Proof.
  intros (Hb & Hm & _)%claimDue_spec d Hd _. split; [|by rewrite Hb].
  destruct (Hm id) as [E|(d' & E & _ & E')]; [rewrite E; eauto|]. simplify_eq. eauto.
Qed.
Lemma finish_copies id until i note now b b' : Query.finishPurge i note now b = Ok (tt, b') -> copies_kept id until b b'.
Proof.
  intros (d & Ed & _ & Hd & Hk & _)%finishPurge_spec d' Hd' _. rewrite Hd, Hk. split; [|done].
  destruct (decide (id = i)) as [->|]; [|rewrite lookup_insert_ne by done; eauto]. rewrite lookup_insert_eq. simplify_eq. eauto.
Qed.
Lemma expire_copies id until at_ now b l b' : at_ < until -> Query.expireKeys at_ now b = Ok (l, b') -> copies_kept id until b b'.
Proof.
  intros Ha (_ & Hm)%expireKeys_lookup d Hd Hu. specialize (Hm id). rewrite Hd in Hm.
  destruct (Query.expired at_ d) eqn:Ex; [|by destruct Hm; eauto]. unfold Query.expired in Ex. bsimpl. lia.
Qed.
Lemma schedule_copies id until s now b d b' : Query.schedule s now b = Ok (d, b') -> copies_kept id until b b'.
Proof.
  intros (v & Ev & Hl & En & -> & _)%schedule_spec d' Hd _. assert (id <> Query.q_vault_id s) as Hne by congruence.
  cbn. rewrite !lookup_insert_ne by done. eauto.
Qed.
Lemma restore_copies id until i b c b' : id <> i -> Query.restore i b = Ok (c, b') -> copies_kept id until b b'.
Proof.
  intros Hne [[_ ->]|(_ & d & v & Ed & Es & Ev & Hv & ->)]%restore_spec; [done|]. intros d' Hd _. cbn. rewrite !lookup_delete_ne by done. eauto.
Qed.

(** C20. The sealed key outlives its vault: once a deletion is scheduled, every version of
    the vault's key, current and rotated, stays readable in the tables for at least the
    key retention window and no shorter than the vault itself, whatever operations
    follow, as long as the vault is not restored and no pass runs at a later time. *)
Theorem keys_outlive_vault s now b d b' w ops :
  wf_db b -> Query.schedule s now b = Ok (d, b') -> db w = b' ->
  Forall (fun o => o <> OpRestore (Query.q_vault_id s) /\
                   forall at_, o = OpPass at_ -> at_ < Z.max (now + Query.q_key_retention_window s) (now + Query.q_retention_window s)) ops ->
  deletion_keys (db (run w ops)) !! Query.q_vault_id s = Some (Query.key_versions (Query.q_vault_id s) b).
Proof.
  intros Hb (v & Ev & Hl & En & Hb' & _ & _ & _ & _ & _ & E6 & E7)%schedule_spec Hw Hops. set (id := Query.q_vault_id s) in *.
  rewrite E6 in E7. set (until := Z.max _ _) in *.
  pose proof (run_tables (copies_kept id until) (fun o => o <> OpRestore id /\ forall at_, o = OpPass at_ -> at_ < until)) as Hr.
  destruct Hr with (ops := ops) (w := w) (d := d) as [_ Hk]; try done.
  - apply kept_copies.
  - apply claim_copies.
  - apply finish_copies.
  - intros at_ t c l c' [_ Ha]. apply expire_copies. by apply Ha.
  - apply schedule_copies.
  - intros i c x c' [Hne _]. apply restore_copies. congruence.
  - rewrite Hw, Hb'. apply lookup_insert_eq.
  - rewrite E7. lia.
  - rewrite Hk, Hw, Hb'. cbn. rewrite lookup_insert_eq. rewrite (wf_copies b Hb id En). f_equal. apply map_empty_union.
Qed.

(** ** A live vault *)
Section Live.
Context (id : Z) (v : VaultRow).

Definition roots : list str := [backing_path cfg; cache_root cfg; store_root cfg].
(** Below a root of the removals, the path is the vault's own, or below a name that is
    no vault directory's (as the recovery store). *)
Definition vault_path (k : Disk) (p : list str) : Prop :=
  forall root c a rest, root ∈ roots -> canonical k root = Some c -> p = c ++ a :: rest ->
  a = Query.btrim (v_mount_point v) \/ isAliasName a = false.
Definition same_rows b b' : Prop :=
  vaults b' !! id = vaults b !! id /\ s3s b' !! id = s3s b !! id /\ vault_keys b' !! id = vault_keys b !! id /\
  vault_keys_trashed b' !! id = vault_keys_trashed b !! id.
Definition untouched w u : Prop :=
  vaults (db w) !! id = Some v -> v_deleted_at v = None ->
  same_rows (db w) (db u) /\ disk u ⊆ disk w /\ forall p, vault_path (disk w) p -> disk u !! p = disk w !! p.

Lemma vault_path_subseteq k k' p : k' ⊆ k -> vault_path k p -> vault_path k' p.
Proof. intros Hk Hp root c a rest Hr Hc. apply (Hp root c a rest Hr). unfold canonical in *. by eapply resolve_subseteq. Qed.
#[local] Instance untouched_preorder : PreOrder untouched.
Proof.
  split; [intros w _ _; by split_and!|]. intros w x y H1 H2 Hv Hl. destruct (H1 Hv Hl) as ((A1 & A2 & A3 & A4) & K1 & P1).
  destruct H2 as ((B1 & B2 & B3 & B4) & K2 & P2); [congruence|done|]. split_and!.
  - split_and!; congruence.
  - by transitivity (disk x).
  - intros p Hp. rewrite P2; [by apply P1|]. by eapply vault_path_subseteq.
Qed.
Lemma untouched_rows w b : (vaults (db w) !! id = Some v -> v_deleted_at v = None -> same_rows (db w) b) -> untouched w (set_db b w).
Proof. intros Hs Hv Hl. by split; [apply Hs|]. Qed.
Lemma untouched_outside w o l x f : untouched w (mkWorld (db w) (disk w) o l x (requests w) f).
Proof. intros _ _. by split_and!. Qed.

Definition not_about d w : Prop := d_vault_id d <> id /\ vaults (db w) !! id = Some v /\ v_deleted_at v = None.

Lemma directory_untouched d root w : root ∈ roots -> not_about d w ->
  Query.backingAliasShared (d_vault_id d) (trimmed (d_backing_alias d)) (db w) = false ->
  untouched w (remove_directory root (trimmed (d_backing_alias d)) w).2.
Proof.
  intros Hr (Hne & Hv & Hl) Hs _ _. unfold remove_directory. destruct (removeVaultDirectory _ _ _ _) as [c k] eqn:E.
  apply removal_shrinks in E as [Hk Hp]. split_and!; [done|done|]. intros p Hvp. cbn [disk set_disk].
  destruct (Hp p) as [|(cr & rest & Hc & -> & Ha)]; [done|]. exfalso.
  destruct (Hvp root cr _ rest Hr Hc eq_refl) as [E|E]; [|congruence].
  assert (Query.backingAliasShared (d_vault_id d) (trimmed (d_backing_alias d)) (db w) = true); [|congruence].
  unfold Query.backingAliasShared. apply existsb_exists. exists (id, v). split; [by apply list_elem_of_In, elem_of_map_to_list|].
  cbn [fst snd]. unfold trimmed in E. rewrite trim_by_idemp in E. fold (trimmed (d_backing_alias d)) in E. rewrite E. rewrite eqb_refl. cbn. apply negb_true_iff, eqb_neq. congruence.
Qed.

Lemma backing_untouched d w : not_about d w ->
  Query.backingAliasShared (d_vault_id d) (trimmed (d_backing_alias d)) (db w) = false ->
  untouched w (removeBackingData cfg (trimmed (d_backing_alias d)) w).2.
Proof.
  intros Hd Hs. set (G w u := not_about d w -> Query.backingAliasShared (d_vault_id d) (trimmed (d_backing_alias d)) (db w) = false ->
    untouched w u /\ db u = db w).
  assert (PreOrder G) as HG.
  { split; [by intros x _ _|]. intros x y z H1 H2 Hx Hs'. destruct (H1 Hx Hs') as [U1 E1].
    destruct H2 as [U2 E2]; [by unfold not_about in *; rewrite E1|by rewrite E1|]. split; [by transitivity y|congruence]. }
  assert (forall r, r ∈ roots -> ensures G (remove_directory r (trimmed (d_backing_alias d)))) as Hdir.
  { intros r Hr x Hx Hs'. split; [by apply directory_untouched|]. unfold remove_directory. by destruct (removeVaultDirectory _ _ _ _). }
  assert (ensures G (removeBackingData cfg (trimmed (d_backing_alias d)))) as Hall; [|by apply Hall].
  unfold removeBackingData. repeat (apply ensures_bind; [exact HG|apply Hdir; unfold roots; set_solver|intros _]). apply ensures_ret, HG.
Qed.

Lemma pass_untouched at_ w : vaults (db w) !! id = Some v -> v_deleted_at v = None -> wf_db (db w) -> untouched w (runPass cfg at_ w).2.
Proof.
  intros Hv Hl Hwf.
  apply (runPass_ensures cfg untouched (fun w => vaults (db w) !! id = Some v /\ wf_db (db w)) not_about at_ untouched_outside); try done.
  - intros d x y Hu (Hne & Hx & _). split_and!; try done. destruct (Hu Hx Hl) as [(-> & _) _]. done.
  - intros x now a b d [Hx Hb] (Hb' & _ & Hd)%claimDue_spec Hin. destruct (Hd d Hin) as (i & d0 & Ed & Hdue & -> & _).
    destruct (wf_deletions _ Hb i d0 Ed) as (Ei & _ & Hrow & _). split_and!; [|cbn; by rewrite Hb'|done].
    cbn. rewrite Ei. intros ->. rewrite Hx in Hrow. cbn in Hrow. apply Hrow; [|done]. intros Es. unfold Query.due in Hdue. by rewrite Es in Hdue.
  - intros x now a b (-> & _)%claimDue_spec. by apply untouched_rows.
  - intros x i t b _ (f & _ & ->)%defer_kept. by apply untouched_rows.
  - intros x i m t b _ (f & _ & ->)%failure_kept. by apply untouched_rows.
  - intros x i now b (f & _ & ->)%mark_kept. by apply untouched_rows.
  - intros x i note now b (d & _ & _ & _ & _ & _ & Hf)%finishPurge_spec. apply untouched_rows. intros Hx _. unfold same_rows.
    destruct Hf as [(v' & Ev & Hdel & -> & -> & -> & ->)|(_ & -> & -> & -> & ->)]; [|done].
    assert (i <> id) by congruence. by rewrite !lookup_delete_ne.
  - intros x now a b (-> & _)%expireKeys_lookup. by apply untouched_rows.
  - intros x d Hd. by apply backing_untouched.
  - intros x y d s3 _ _ _ _ _ _ _. destruct (pass_within_budget s3 y) as (E1 & E2 & _). unfold same_rows. by rewrite E1, E2.
Qed.
End Live.

(** C17. A pass leaves the live vaults alone: whatever is being purged, and even if it
    fails half way, a live vault keeps its row, its bucket binding and its keys, and of
    the disk every entry whose place below the backing, cache and recovery directories
    is the vault's own, or is no vault directory's. *)
Theorem live_vault_untouched at_ w id v :
  wf_db (db w) -> vaults (db w) !! id = Some v -> v_deleted_at v = None ->
  same_rows id (db w) (db (runPass cfg at_ w).2) /\
  forall p, vault_path v (disk w) p -> disk (runPass cfg at_ w).2 !! p = disk w !! p.
Proof.
  intros Hwf Hv Hl. destruct (pass_untouched id v at_ w Hv Hl Hwf Hv Hl) as (Hr & _ & Hp). by split.
Qed.

(** ** The upstream purge is asked for *)
Lemma select_ok {A} (f : Db -> A) w a u : select f w = (Ok a, u) -> a = f (db w) /\ exists o, u = set_outside o w.
Proof.
  unfold select, exec. destruct (transaction_fails (outside w)) as [[m|] o]; [done|]. intros [= <- <-]. split; [done|]. by exists o.
Qed.
Lemma ask_ok {A} (f : W -> result str A) w a u : ask f w = (Ok a, u) -> u = w /\ f (outside w) = Ok a.
Proof. unfold ask, reads. destruct (f (outside w)) as [x|m] eqn:E; [|done]. by intros [= <- <-]. Qed.

Lemma upstreamBlocker_clear d w s3 u : upstreamBlocker d w = (Ok (inr s3), u) ->
  exists v key, vaults (db w) !! d_vault_id d = Some v /\ v_deleted_at v <> None /\ v_type v = S3 /\
    s3s (db w) !! d_vault_id d = Some s3 /\ api_keys (db w) !! s_api_key_id s3 = Some key /\
    (exists o, isProtected key (s_bucket s3) o = Ok false) /\ (exists o, isAdopted (d_vault_id d) o = Ok false) /\
    Query.otherVaultsOnBucket (d_vault_id d) (db w) = [] /\ db u = db w.
Proof.
  unfold upstreamBlocker. intros (row & w1 & [-> [o1 ->]]%select_ok & E)%bind_ok.
  unfold Query.getDeletedVault in E. destruct (vaults (db w) !! d_vault_id d) as [v|] eqn:Ev; [|done].
  destruct (v_deleted_at v == None) eqn:El; [done|]. destruct (s3s (db w) !! d_vault_id d) as [s|] eqn:Es; [|done].
  destruct (v_type v == S3) eqn:Et; [|done]. case_if_in E; [done|].
  apply bind_ok in E as (key & w2 & [-> [o2 ->]]%select_ok & E). cbn [db set_outside] in E.
  destruct (api_keys (db w) !! s_api_key_id s) as [key|] eqn:Ek; [|done].
  apply bind_ok in E as ([] & w3 & [-> Ep]%ask_ok & E); [done|]. apply bind_ok in E as ([] & w4 & [-> Ea]%ask_ok & E); [done|].
  apply bind_ok in E as (others & w5 & [-> [o3 ->]]%select_ok & E). case_if_in E; [done|]. injection E as <- <-.
  bsimpl. exists v, key. split_and!; eauto. cbn in *. by destruct (Query.otherVaultsOnBucket _ _).
Qed.

Lemma no_other_vault id b other v : Query.otherVaultsOnBucket id b = [] -> vaults b !! other = Some v -> Query.same_bucket b id other = false.
Proof.
  intros Ho Hv. destruct (Query.same_bucket b id other) eqn:E; [|done]. exfalso.
  unfold Query.otherVaultsOnBucket in Ho. apply map_eq_nil in Ho.
  assert ((other, v) ∈ @nil (Z * VaultRow)) as Hin; [|by apply elem_of_nil in Hin].
  rewrite <- Ho, merge_sort_Permutation, list_elem_of_filter. split; [done|]. by apply elem_of_map_to_list.
Qed.

Section Guarded.
Context (b0 : Db) (at_ : Z).

(** Rows of deleted vaults go, nothing else of the vaults changes. *)
Definition rows_go b b' : Prop :=
  api_keys b' = api_keys b /\
  forall id, (vaults b' !! id = vaults b !! id /\ s3s b' !! id = s3s b !! id) \/
             (row_deleted (vaults b !! id) /\ vaults b' !! id = None /\ s3s b' !! id = None).
#[local] Instance rows_go_preorder : PreOrder rows_go.
Proof.
  split; [intros b; split; [done|by left]|]. intros b c e [A1 H1] [A2 H2]. split; [congruence|]. intros id.
  destruct (H1 id) as [[E1 E2]|(D & E1 & E2)], (H2 id) as [[F1 F2]|(D' & F1 & F2)]; rewrite ?E1, ?E2 in *; eauto.
Qed.

(** A request that the tables [b0] and the pass's answers permit. *)
Definition permitted (r : Request) : Prop :=
  exists id d v s3 key, deletions b0 !! id = Some d /\ Query.due at_ d = true /\ d_delete_upstream d = true /\
    isS3 d = true /\ d_upstream_purged_at d = None /\
    vaults b0 !! id = Some v /\ v_deleted_at v <> None /\ s3s b0 !! id = Some s3 /\ api_keys b0 !! s_api_key_id s3 = Some key /\
    (exists o, isProtected key (s_bucket s3) o = Ok false) /\ (exists o, isAdopted id o = Ok false) /\
    (forall other v', vaults b0 !! other = Some v' -> v_deleted_at v' = None -> Query.same_bucket b0 id other = false) /\
    names_bucket (s_api_key_id s3) (s_bucket s3) r.
Definition permits w u : Prop :=
  rows_go (db w) (db u) /\ exists new, requests u = requests w ++ new /\ Forall permitted new.
#[local] Instance permits_preorder : PreOrder permits.
Proof.
  split.
  - intros w. split; [done|]. exists []. by rewrite app_nil_r.
  - intros w x y [G1 (n1 & E1 & F1)] [G2 (n2 & E2 & F2)]. split; [by transitivity (db x)|]. exists (n1 ++ n2).
    by rewrite E2, E1, app_assoc, Forall_app.
Qed.
Lemma permits_quiet w u : rows_go (db w) (db u) -> requests u = requests w -> permits w u.
Proof. intros Hg E. split; [done|]. exists []. by rewrite app_nil_r. Qed.

Definition claimed_of d w : Prop :=
  rows_go b0 (db w) /\ exists d0 now, deletions b0 !! d_vault_id d = Some d0 /\ Query.due at_ d0 = true /\ d = Query.claimed now d0.

Lemma purge_permitted w u d s3 : claimed_of d w -> d_delete_upstream d = true -> isS3 d = true -> d_upstream_purged_at d = None ->
  upstreamBlocker d w = (Ok (inr s3), u) -> permits u (purgeUpstreamPass s3 u).2.
Proof.
  intros ((Ha & Hg) & d0 & now & Ed & Hdue & Hd) Hdel His Hup (v & key & Ev & Hl & _ & Es & Ek & Hp & Had & Ho & Edb)%upstreamBlocker_clear.
  destruct (pass_within_budget s3 u) as (E1 & _ & new & En & Fn & _). split; [by rewrite E1|]. exists new. split; [done|].
  eapply Forall_impl; [exact Fn|]. intros r Hr. subst d. cbn in *. exists (d_vault_id d0), d0, v, s3, key.
  destruct (Hg (d_vault_id d0)) as [[G1 G2]|(_ & G1 & _)]; [|congruence].
  split_and!; try done; try congruence. intros other v' Hv' Hl'.
  destruct (Hg other) as [[K1 K2]|(K & _)]; [|rewrite Hv' in K; by cbn in K].
  assert (Query.same_bucket (db w) (d_vault_id d0) other = false) as Hs.
  { eapply no_other_vault; [done|]. by rewrite K1. }
  unfold Query.same_bucket in *. by rewrite Ha, G2, K2 in Hs.
Qed.

Lemma pass_permits w : db w = b0 -> wf_db b0 -> permits w (runPass cfg at_ w).2.
Proof.
  intros Hw Hwf. apply (runPass_ensures cfg permits (fun w => db w = b0) claimed_of at_); try done.
  - intros x o l y f. by apply permits_quiet.
  - intros d x y [G _] [Hx Hd]. split; [by transitivity (db x)|done].
  - intros x now a b d Hx (Hb & _ & Hd)%claimDue_spec Hin. destruct (Hd d Hin) as (i & d0 & Ed & Hdue & -> & _).
    split; [cbn; rewrite Hb, Hx; by split; [|left]|]. rewrite Hx in Ed. exists d0, now. split_and!; try done.
    change (d_vault_id (Query.claimed now d0)) with (d_vault_id d0). by rewrite (proj1 (wf_deletions _ Hwf i d0 Ed)).
  - intros x now a b (-> & _)%claimDue_spec. apply permits_quiet; [|done]. by split; [|left].
  - intros x i t b _ (f & _ & ->)%defer_kept. apply permits_quiet; [|done]. by split; [|left].
  - intros x i m t b _ (f & _ & ->)%failure_kept. apply permits_quiet; [|done]. by split; [|left].
  - intros x i now b (f & _ & ->)%mark_kept. apply permits_quiet; [|done]. by split; [|left].
  - intros x i note now b (d & _ & _ & _ & _ & Ha & Hf)%finishPurge_spec. apply permits_quiet; [|done]. split; [done|]. intros j. cbn.
    destruct Hf as [(v & Ev & Hl & -> & -> & _)|(_ & -> & -> & _)]; [|by left]. destruct (decide (j = i)) as [->|Hne].
    + right. rewrite Ev, !lookup_delete_eq. done.
    + left. by rewrite !lookup_delete_ne.
  - intros x now a b (-> & _)%expireKeys_lookup. apply permits_quiet; [|done]. by split; [|left].
  - intros x d _ _. apply permits_quiet; [by rewrite backing_tables|]. apply backing_requests.
  - intros x y d s3. apply purge_permitted.
Qed.
End Guarded.

(** C19. A pass asks the object store only for what was decided: each request it sends
    names the bucket of a vault that was deleted before the pass, whose deletion is due
    and chose to delete the upstream data, not yet done; the bucket was reported neither
    protected nor adopted, and no live vault uses it on that endpoint and region. *)
Theorem upstream_guarded at_ w : wf_db (db w) ->
  exists new, requests (runPass cfg at_ w).2 = requests w ++ new /\ Forall (permitted (db w) at_) new.
Proof. intros Hwf. by apply (pass_permits (db w) at_ w eq_refl Hwf). Qed.

(** ** A purge ends *)
Section Settles.
Context (at_ : Z).
(** The deletion is over, or its purge is due within the hour. *)
Definition settled d : bool := (d_state d == Purged) || Query.due (at_ + 3600) d.
Definition settles b b' : Prop := forall id d, deletions b !! id = Some d -> settled d = true ->
  exists d', deletions b' !! id = Some d' /\ settled d' = true.
#[local] Instance settles_preorder : PreOrder settles.
Proof.
  split; [intros b id d Hd Hs; eauto|]. intros b c e H1 H2 id d Hd Hs. destruct (H1 id d Hd Hs) as (d1 & Hd1 & Hs1). by apply (H2 id d1).
Qed.
Lemma settles_update i f b : (forall d, settled d = true -> settled (f d) = true) -> settles b (Query.update i f b).
Proof. intros Hf id d Hd Hs. rewrite lookup_update, Hd. case_decide; simpl; eauto. Qed.
Lemma settled_retry t m d : t <= at_ + 3600 -> settled d = true ->
  settled (Query.if_purging (fun d => set_progress (d_state d) (d_purge_started_at d) (d_upstream_purged_at d) (d_attempts d) (Some t) m d) d) = true.
Proof.
  intros Ht Hs. unfold Query.if_purging. case_if; [|done]. bsimpl. unfold settled, Query.due. cbn.
  match goal with E : d_state d = _ |- _ => rewrite E end. cbn. by apply Z.leb_le.
Qed.

Lemma pass_settles w : settles (db w) (db (runPass cfg at_ w).2).
Proof.
  set (R w u := settles (db w) (db u)).
  assert (PreOrder R) as HR by (split; [intros x; unfold R; reflexivity|intros x y z H1 H2; unfold R in *; by etrans]).
  apply (runPass_ensures cfg R (fun _ => True) (fun _ _ => True) at_); try done.
  - intros x o l y f. unfold R. cbn [db]. reflexivity.
  - intros x now a b (_ & Hm & _)%claimDue_spec id d Hd Hs. cbn. destruct (Hm id) as [->|(d0 & Ed & Hdue & ->)]; [eauto|].
    eexists. split; [done|]. done.
  - intros x i t b Ht [= <-]. apply settles_update. intros d. by apply settled_retry.
  - intros x i m t b Ht [= <-]. apply settles_update. intros d. by apply settled_retry.
  - intros x i now b [= <-]. apply settles_update. by intros d.
  - intros x i note now b (d & _ & _ & Hd & _)%finishPurge_spec id d' Hd' Hs. cbn. rewrite Hd.
    destruct (decide (id = i)) as [->|]; [rewrite lookup_insert_eq|rewrite lookup_insert_ne by done]; eauto.
  - intros x now a b (_ & Hm)%expireKeys_lookup id d Hd Hs. cbn. specialize (Hm id). rewrite Hd in Hm.
    destruct (Query.expired at_ d); destruct Hm as [-> _]; eauto.
  - intros x d _ _. unfold R. rewrite backing_tables. reflexivity.
  - intros x y d s3 _ _ _ _ _. unfold R. rewrite (proj1 (pass_within_budget s3 y)). reflexivity.
Qed.
End Settles.

(** The attempt is counted when the deletion is claimed: no wait is below a minute. *)
Lemma first_retry_waits_a_minute now d : 0 <= d_attempts d -> 60 <= backoff (d_attempts (Query.claimed now d)).
Proof.
  intros Hd. cbn. unfold backoff. assert (2 <= Z.shiftl 1 (Z.min (d_attempts d + 1) 7)); [|lia].
  rewrite Z.shiftl_1_l. apply (Z.pow_le_mono_r 2 1); lia.
Qed.

(** C29. No purge is lost: a deletion that is due when a pass starts is purged after it,
    or due again at the latest one hour later, whether the purge failed, was deferred or
    interrupted, was not claimed at all, or even its failure could not be recorded. *)
Theorem purge_never_lost at_ w id d : deletions (db w) !! id = Some d -> Query.due at_ d = true ->
  exists d', deletions (db (runPass cfg at_ w).2) !! id = Some d' /\
    (d_state d' = Purged \/ Query.due (at_ + 3600) d' = true).
Proof.
  intros Hd Hdue. destruct (pass_settles at_ w id d Hd) as (d' & Hd' & Hs).
  - unfold settled, Query.due in *. destruct (d_state d); [|destruct (d_next_attempt_at d)|]; cbn; bsimpl; try done; lia.
  - exists d'. split; [done|]. unfold settled in Hs. bsimpl. destruct Hs; bsimpl; auto.
Qed.

(** What a purge without upstream data does when nothing fails: the three directories
    go, the vault's row goes with its bucket binding and its keys, the deletion is purged
    with its key copies as they were, and nothing is asked of the object store. *)
Theorem purge_completes d w v k1 k2 k3 c1 c2 c3 :
  (forall o, (transaction_fails o).1 = None) ->
  d_delete_upstream d && isS3 d && (d_upstream_purged_at d == None) = false ->
  deletions (db w) !! d_vault_id d = Some d -> d_state d = Purging ->
  vaults (db w) !! d_vault_id d = Some v -> v_deleted_at v <> None ->
  Query.backingAliasShared (d_vault_id d) (trimmed (d_backing_alias d)) (db w) = false ->
  (forall o, removeVaultDirectory (removal_fault o) (disk w) (backing_path cfg) (trimmed (d_backing_alias d)) = (Ok c1, k1)) ->
  (forall o, removeVaultDirectory (removal_fault o) k1 (cache_root cfg) (trimmed (d_backing_alias d)) = (Ok c2, k2)) ->
  (forall o, removeVaultDirectory (removal_fault o) k2 (store_root cfg) (trimmed (d_backing_alias d)) = (Ok c3, k3)) ->
  exists u d', purgeOne cfg d w = (Ok true, u) /\ disk u = k3 /\ requests u = requests w /\
    deletions (db u) = <[d_vault_id d := d']> (deletions (db w)) /\ d_state d' = Purged /\ d_purged_at d' <> None /\
    vaults (db u) = delete (d_vault_id d) (vaults (db w)) /\ s3s (db u) = delete (d_vault_id d) (s3s (db w)) /\
    vault_keys (db u) = delete (d_vault_id d) (vault_keys (db w)) /\ deletion_keys (db u) = deletion_keys (db w).
Proof.
  intros Hq Hup Hd Hs Hv Hl Hsh R1 R2 R3. unfold purgeOne, bind at 1, purge_upstream. rewrite Hup. cbn [ret negb snd fst].
  unfold bind at 1, select, exec at 1. destruct (transaction_fails (outside w)) as [f o] eqn:Ef.
  assert (f = None) as -> by (by rewrite <- (Hq (outside w)), Ef). cbn [db set_outside]. rewrite Hsh.
  unfold bind at 1, removeBackingData, bind, remove_directory. cbn [disk set_outside set_db outside]. rewrite R1. cbn [disk set_disk outside set_outside]. rewrite R2.
  cbn [disk set_disk outside set_outside]. rewrite R3. cbn [ret]. unfold exec. cbn [outside set_disk set_db set_outside].
  destruct (transaction_fails o) as [f' o'] eqn:Ef'. assert (f' = None) as -> by (by rewrite <- (Hq o), Ef').
  cbn [outside set_disk set_db set_outside db]. destruct (Query.finishPurge _ _ _ _) as [[[] b]|m] eqn:Eq.
  - apply finishPurge_spec in Eq as (d0 & Ed & _ & Ef1 & Ek & _ & [(v' & _ & _ & E1 & E2 & E3 & E4)|(Hn & _)]);
      [|by destruct Hl; apply Hn]. eexists _, _. split; [reflexivity|]. cbn [db disk requests set_db set_outside set_disk].
    by split_and!.
  - unfold Query.finishPurge in Eq. rewrite Hd in Eq. by rewrite Hs in Eq.
Qed.
End Operations.

(** ** A concrete service

    An object store that is a list of names, a service that never stops and transactions
    that succeed at time 1000: three vaults, a local one, one on S3 and one that stays. *)
#[export] Instance demo_outside : Outside (list str) := {
  stopRequested o := (false, o);
  transaction_fails o := (None, o);
  db_now _ := 1000;
  makeController _ _ _ := Ok tt;
  listObjectKeysPage _ _ o := (Ok (take 2 o), o);
  deleteObject _ _ k o := (if bool_decide (k ∈ o) then Ok tt else Err (NoSuchKey k), base.filter (fun k' => k' <> k) o);
  isProtected _ _ _ := Ok false;
  isAdopted _ _ := Ok false;
  getVault id _ := Some (if id =? 2 then S3 else Local);
  retireVault _ o := (Ok tt, o);
  reinstateVault _ o := (Ok tt, o);
  removal_fault _ := no_fault }.

Definition demo_vault name type := mkVaultRow name (Some 7) type name None true {[5]}.
Definition demo_db : Db :=
  mkDb (<[1 := demo_vault $"music" Local]> (<[2 := demo_vault $"cloud" S3]> {[3 := demo_vault $"keep" Local]}))
    {[2 := mkS3Row 9 $"bucket" true]} {[9 := mkApiKey $"aws" None $"eu"]} {[7 := $"ann"]}
    {[1 := mkKeyRow 2 $"k2" None None]} {[1 := {[1 := $"k1"]}]} ∅ ∅.
Definition demo_cfg : Config := mkConfig 600 7200 3600 $"/srv/b" $"/cache".
Definition keep_disk : Disk := <[[$"srv"; $"b"; $"keep"] := NDir]> (<[[$"srv"; $"b"; $"keep"; $"a"] := NFile]> demo_disk).
Definition demo_world : World (list str) := mkWorld demo_db keep_disk [$"x"; $"y"; $"z"] 0 0 [] false.
(** Two vaults are deleted, to be purged now. *)
Definition demo_deleted : World (list str) := run demo_cfg demo_world [OpSchedule 1 (Some 7) true false; OpSchedule 2 None true true].

(** The states of the three deletions, the objects left, the key copies of the first. *)
Definition report (w : World (list str)) :=
  (map (fun id => state_of (db w) id) [1; 2; 3], outside w, length (requests w),
   map (fun n => default ∅ (deletion_keys (db w) !! 1) !! n) [1; 2], bool_decide (disk w !! [$"srv"; $"b"; $"music"; $"x"] = None)).

Example pass_examples :
  report demo_deleted = ([Some Pending; Some Pending; None], [$"x"; $"y"; $"z"], 0%nat, [Some $"k1"; Some $"k2"], false) /\
  report (run demo_cfg demo_deleted [OpPass 1000]) =
    ([Some Purged; Some Purged; None], [], 6%nat, [Some $"k1"; Some $"k2"], true) /\
  report (run demo_cfg demo_deleted [OpPass 1000; OpPass 8200]) = ([Some Purged; Some Purged; None], [], 6%nat, [None; None], true) /\
  report (run demo_cfg demo_deleted [OpRestore 1; OpPass 1000]) = ([None; Some Purged; None], [], 6%nat, [None; None], false).
Proof. vm_compute. split_and!; reflexivity. Qed.

Lemma demo_wf : wf_db demo_db.
Proof.
  split; cbn [deletions vaults deletion_keys s3s vault_keys vault_keys_trashed demo_db].
  - apply map_Forall_empty.
  - assert (map_Forall (fun (_ : Z) v => v_deleted_at v = None) (vaults demo_db)) as Hl.
    { repeat apply map_Forall_insert_2; try done. }
    intros id v Hv Hx. by destruct Hx; apply (Hl id).
  - done.
  - intros id Hn. apply lookup_singleton_None. intros <-. by vm_compute in Hn.
  - intros id Hn. split; apply lookup_singleton_None; intros <-; by vm_compute in Hn.
Qed.
Lemma demo_deleted_wf : wf_db (db demo_deleted).
Proof. apply run_lifecycle, demo_wf. Qed.

Lemma deletion_lifecycle_witness : wf_db demo_db /\
  wf_db (db (run demo_cfg demo_world [OpSchedule 1 (Some 7) true false; OpPass 1000; OpRestore 1])).
Proof. split; [apply demo_wf|]. apply (deletion_lifecycle demo_cfg demo_world _ demo_wf). Defined.

Definition demo_schedule : Query.Schedule := Query.mkSchedule 1 (Some 7) false 0 7200.
Definition result_db {A} (r : result str (A * Db)) : Db := match r with Ok (_, b) => b | Err _ => demo_db end.
Lemma demo_scheduled : exists d, Query.schedule demo_schedule 1000 demo_db = Ok (d, result_db (Query.schedule demo_schedule 1000 demo_db)).
Proof.
  assert (is_ok (Query.schedule demo_schedule 1000 demo_db) = true) as E by (vm_compute; reflexivity).
  destruct (Query.schedule demo_schedule 1000 demo_db) as [[d b]|]; [by exists d|done].
Qed.
Lemma keys_outlive_vault_witness :
  deletion_keys (db (run demo_cfg (set_db (result_db (Query.schedule demo_schedule 1000 demo_db)) demo_world)
    [OpPass 1000; OpExpedite 1 None; OpPass 8199])) !! 1 = Some (Query.key_versions 1 demo_db).
Proof.
  destruct demo_scheduled as [d Hd].
  refine (keys_outlive_vault demo_cfg demo_schedule 1000 demo_db d _ (set_db _ demo_world) _ demo_wf Hd eq_refl _).
  repeat constructor; try done; intros at_ [= <-]; by vm_compute.
Defined.

Lemma live_vault_untouched_witness :
  same_rows 3 (db demo_deleted) (db (runPass demo_cfg 1000 demo_deleted).2).
Proof.
  assert (exists v, vaults (db demo_deleted) !! 3 = Some v /\ v_deleted_at v = None) as (v & Hv & Hl).
  { eexists. split; vm_compute; reflexivity. }
  apply (live_vault_untouched demo_cfg 1000 demo_deleted 3 v demo_deleted_wf Hv Hl).
Defined.

Lemma upstream_guarded_witness : exists new,
  requests (runPass demo_cfg 1000 demo_deleted).2 = requests demo_deleted ++ new /\ Forall (permitted (db demo_deleted) 1000) new.
Proof. apply (upstream_guarded demo_cfg 1000 demo_deleted demo_deleted_wf). Defined.

Definition music : Deletion := mkDeletion 1 $"music" (Some 7) $"ann" Local $"music" None None None false (Some 7) 1000 1000 8200 (Some 2) None
  Purging (Some 1000) None None None None 1 None.
Lemma purge_never_lost_witness : exists d',
  deletions (db (runPass demo_cfg 5000 (set_db (with_deletions {[1 := music]} demo_db) demo_world)).2) !! 1 = Some d' /\
  (d_state d' = Purged \/ Query.due (5000 + 3600) d' = true).
Proof. apply (purge_never_lost demo_cfg 5000 _ 1 music); vm_compute; reflexivity. Defined.

(** The tables while the first vault is purged. *)
Definition purging_db : Db :=
  with_deletions {[1 := music]} (with_vaults (<[1 := set_deleted_at (Some 1000) false ∅ (demo_vault $"music" Local)]> (vaults demo_db)) demo_db).
Definition purging_world : World (list str) := set_db purging_db demo_world.
Lemma purge_completes_witness : exists u d', purgeOne demo_cfg music purging_world = (Ok true, u) /\
  requests u = [] /\ deletions (db u) = <[1 := d']> {[1 := music]} /\ d_state d' = Purged /\ vaults (db u) = delete 1 (vaults purging_db).
Proof.
  assert (exists v, vaults purging_db !! 1 = Some v /\ v_deleted_at v <> None) as (v & Hv & Hl).
  { eexists. split; [vm_compute; reflexivity|done]. }
  assert (forall k r, is_ok (removeVaultDirectory no_fault k r $"music").1 = true ->
    exists c, forall o, removeVaultDirectory (removal_fault (W := list str) o) k r $"music" = (Ok c, (removeVaultDirectory no_fault k r $"music").2)) as Hr.
  { intros k r. cbn [removal_fault demo_outside]. destruct (removeVaultDirectory no_fault k r _) as [[c|] k']; [by exists c|done]. }
  set (k1 := (removeVaultDirectory no_fault keep_disk $"/srv/b" $"music").2).
  set (k2 := (removeVaultDirectory no_fault k1 (cache_root demo_cfg) $"music").2).
  destruct (Hr keep_disk $"/srv/b") as [c1 E1]; [vm_compute; reflexivity|].
  destruct (Hr k1 (cache_root demo_cfg)) as [c2 E2]; [vm_compute; reflexivity|].
  destruct (Hr k2 (store_root demo_cfg)) as [c3 E3]; [vm_compute; reflexivity|].
  destruct (purge_completes demo_cfg music purging_world v k1 k2 (removeVaultDirectory no_fault k2 (store_root demo_cfg) $"music").2 c1 c2 c3) as (u & d' & P1 & _ & P2 & P3 & P4 & _ & P5 & _);
    [done|done|by vm_compute|done|exact Hv|exact Hl|by vm_compute|exact E1|exact E2|exact E3|].
  exists u, d'. by split_and!.
Defined.
