(* ===== verification/ShareScope.v ===== *)
(** * Share scopes: the part of a vault a share link opens

    [share/Scope.cpp] (path normalisation, containment, authorisation), the
    bit and name tables of [share/Types.cpp] and the grant and principal they
    act on ([share/Grant.cpp], [share/Principal.cpp]). *)
From S2P Require Import Prelude Paths Perm.
Local Open Scope Z_scope.

(** ** Types *)
Inductive Operation := Metadata | OpList | OpPreview | Download | Upload | Mkdir | OpOverwrite.
Inductive TargetType := File | Directory.
Inductive LinkType := LDownload | LUpload | LAccess.
Inductive AccessMode := Public | EmailValidated.
Inductive DuplicatePolicy := Reject | Rename | DupOverwrite.
Inductive UploadStatus := Pending | Receiving | Complete | Failed | Cancelled.
Inductive AuditActorType := OwnerUser | AdminUser | SharePrincipal | System | Unknown.
Inductive AuditStatus := Success | Denied | AFailed | RateLimited.

#[export] Instance Operation_eq : EqDecision Operation. Proof. solve_decision. Defined.
#[export] Instance TargetType_eq : EqDecision TargetType. Proof. solve_decision. Defined.
#[export] Instance LinkType_eq : EqDecision LinkType. Proof. solve_decision. Defined.
#[export] Instance AccessMode_eq : EqDecision AccessMode. Proof. solve_decision. Defined.
#[export] Instance DuplicatePolicy_eq : EqDecision DuplicatePolicy. Proof. solve_decision. Defined.
#[export] Instance UploadStatus_eq : EqDecision UploadStatus. Proof. solve_decision. Defined.

Definition bit (op : Operation) : Z :=
  match op with
  | Metadata => 1 | OpList => 2 | OpPreview => 4 | Download => 8 | Upload => 16 | Mkdir => 32
  | OpOverwrite => 64
  end.

(** The name tables, and the reader all [*_from_string] functions are: the value
    whose name is the text, else the invalid-argument exception. *)
Inductive ShareError :=
| InvalidEnum (value : str)
| InvalidByte
| InvalidGrant (why : str)
| MalformedToken
| MalformedTokenLookup
| MalformedTokenSecret
| MalformedTokenPrefix
| EmailRequired
| EmailInvalid.

Definition operation_to_string (v : Operation) : str :=
  match v with Metadata => $"metadata" | OpList => $"list" | OpPreview => $"preview"
  | Download => $"download" | Upload => $"upload" | Mkdir => $"mkdir" | OpOverwrite => $"overwrite" end.
Definition target_type_to_string (v : TargetType) : str :=
  match v with File => $"file" | Directory => $"directory" end.
Definition link_type_to_string (v : LinkType) : str :=
  match v with LDownload => $"download" | LUpload => $"upload" | LAccess => $"access" end.
Definition access_mode_to_string (v : AccessMode) : str :=
  match v with Public => $"public" | EmailValidated => $"email_validated" end.
Definition duplicate_policy_to_string (v : DuplicatePolicy) : str :=
  match v with Reject => $"reject" | Rename => $"rename" | DupOverwrite => $"overwrite" end.
Definition upload_status_to_string (v : UploadStatus) : str :=
  match v with Pending => $"pending" | Receiving => $"receiving" | Complete => $"complete"
  | Failed => $"failed" | Cancelled => $"cancelled" end.
Definition audit_actor_type_to_string (v : AuditActorType) : str :=
  match v with OwnerUser => $"owner_user" | AdminUser => $"admin_user"
  | SharePrincipal => $"share_principal" | System => $"system" | Unknown => $"unknown" end.
Definition audit_status_to_string (v : AuditStatus) : str :=
  match v with Success => $"success" | Denied => $"denied" | AFailed => $"failed"
  | RateLimited => $"rate_limited" end.

Definition operation_from_string (value : str) : result ShareError Operation :=
  if value == $"metadata" then Ok Metadata else if value == $"list" then Ok OpList
  else if value == $"preview" then Ok OpPreview else if value == $"download" then Ok Download
  else if value == $"upload" then Ok Upload else if value == $"mkdir" then Ok Mkdir
  else if value == $"overwrite" then Ok OpOverwrite else Err (InvalidEnum value).
Definition target_type_from_string (value : str) : result ShareError TargetType :=
  if value == $"file" then Ok File else if value == $"directory" then Ok Directory
  else Err (InvalidEnum value).
Definition link_type_from_string (value : str) : result ShareError LinkType :=
  if value == $"download" then Ok LDownload else if value == $"upload" then Ok LUpload
  else if value == $"access" then Ok LAccess else Err (InvalidEnum value).
Definition access_mode_from_string (value : str) : result ShareError AccessMode :=
  if value == $"public" then Ok Public else if value == $"email_validated" then Ok EmailValidated
  else Err (InvalidEnum value).
Definition duplicate_policy_from_string (value : str) : result ShareError DuplicatePolicy :=
  if value == $"reject" then Ok Reject else if value == $"rename" then Ok Rename
  else if value == $"overwrite" then Ok DupOverwrite else Err (InvalidEnum value).
Definition upload_status_from_string (value : str) : result ShareError UploadStatus :=
  if value == $"pending" then Ok Pending else if value == $"receiving" then Ok Receiving
  else if value == $"complete" then Ok Complete else if value == $"failed" then Ok Failed
  else if value == $"cancelled" then Ok Cancelled else Err (InvalidEnum value).
Definition audit_actor_type_from_string (value : str) : result ShareError AuditActorType :=
  if value == $"owner_user" then Ok OwnerUser else if value == $"admin_user" then Ok AdminUser
  else if value == $"share_principal" then Ok SharePrincipal else if value == $"system" then Ok System
  else if value == $"unknown" then Ok Unknown else Err (InvalidEnum value).
Definition audit_status_from_string (value : str) : result ShareError AuditStatus :=
  if value == $"success" then Ok Success else if value == $"denied" then Ok Denied
  else if value == $"failed" then Ok AFailed else if value == $"rate_limited" then Ok RateLimited
  else Err (InvalidEnum value).

(** ** Grant and principal *)
Record Grant := mkGrant {
  vault_id : Z; root_entry_id : Z; root_path : str; target_type : TargetType; allowed_ops : Z;
  max_downloads : option Z; max_upload_files : option Z; max_upload_size_bytes : option Z;
  max_upload_total_bytes : option Z; duplicate_policy : DuplicatePolicy;
  allowed_mime_types : list str; blocked_mime_types : list str;
  allowed_extensions : list str; blocked_extensions : list str }.

Definition allows (g : Grant) (op : Operation) : bool := negb (Z.land (allowed_ops g) (bit op) =? 0).

Definition requireValid (g : Grant) : result ShareError unit :=
  check negb (vault_id g =? 0) else InvalidGrant $"Share grant vault_id is required" in
  check negb (root_entry_id g =? 0) else InvalidGrant $"Share grant root_entry_id is required" in
  check starts_with (root_path g) $"/" else InvalidGrant $"Share grant root_path must be absolute" in
  check negb ((target_type g == File) && allows g Mkdir)
    else InvalidGrant $"Share file target cannot allow mkdir" in
  check negb ((duplicate_policy g == DupOverwrite) && negb (allows g OpOverwrite))
    else InvalidGrant $"Share overwrite duplicate policy requires overwrite permission" in
  Ok tt.

Record Principal := mkPrincipal {
  share_id : str; share_session_id : str; p_vault_id : Z; p_root_entry_id : Z; link_created_by : Z;
  p_root_path : str; grant_ : Grant; access_mode : AccessMode; email_verified : bool;
  p_expires_at : Z; p_ip_address : option str; p_user_agent : option str; scoped_vault_role : option Filesystem }.

Definition principal_isExpired (p : Principal) (now : Z) : bool :=
  negb (p_expires_at p =? 0) && (p_expires_at p <=? now).
Definition principal_isActive (p : Principal) (now : Z) : bool :=
  negb (is_empty (share_id p)) && negb (is_empty (share_session_id p)) && negb (p_vault_id p =? 0) &&
  negb (p_root_entry_id p =? 0) && negb (principal_isExpired p now).
Definition principal_allows (p : Principal) (op : Operation) : bool := allows (grant_ p) op.
Definition hasVault (p : Principal) (vaultId : Z) : bool := p_vault_id p =? vaultId.

(** ** Scope *)
Definition dotdot : str := $"..".

Definition scope_step (components : list str) (c : str) : list str :=
  if c == $"." then components
  else if c == dotdot then
    match components with
    | b :: rest => if b !== dotdot then rest else dotdot :: components
    | [] => [dotdot]
    end
  else c :: components.

(** [splitComponents]; the stack of the loop is kept reversed. *)
Definition splitComponents (path : str) : list str := rev (foldl scope_step [] (file_names path)).

Definition hasEscapeComponent (path : str) : bool :=
  existsb (fun c => c == dotdot) (splitComponents path).

Definition nul : Ascii.ascii := Ascii.zero.

Fixpoint render (components : list str) : str :=
  match components with [] => [] | c :: cs => slash :: c ++ render cs end.

Definition normalizeVaultPath (path : str) : result ShareError str :=
  if bool_decide (nul ∈ path) then Err InvalidByte
  else
    let source := if is_empty path then $"/" else path in
    let source := if starts_with source $"/" then source else slash :: source in
    let components := splitComponents source in
    Ok (if is_empty components then $"/" else render components).

Definition contains (rootPath candidatePath : str) : result ShareError bool :=
  let? root := normalizeVaultPath rootPath in
  let? candidate := normalizeVaultPath candidatePath in
  Ok (if hasEscapeComponent root || hasEscapeComponent candidate then false
      else if root == $"/" then true
      else if candidate == root then true
      else match strip_prefix root candidate with
           | Some (c :: _) => c == slash
           | _ => false
           end).

Record ScopeRequest := mkScopeRequest {
  q_vault_id : Z; q_path : str; q_operation : Operation; q_target_type : option TargetType }.
Record ScopeDecision := mkScopeDecision { d_allowed : bool; normalized_path : str; d_reason : str }.

Definition isMkdirTargetAllowed (p : Principal) (r : ScopeRequest) : bool :=
  if q_operation r !== Mkdir then true
  else match q_target_type r with
       | Some t => t == Directory
       | None => target_type (grant_ p) == Directory
       end.

Definition authorize (p : Principal) (r : ScopeRequest) : result ShareError ScopeDecision :=
  let? normalized := normalizeVaultPath (q_path r) in
  let deny why := Ok (mkScopeDecision false normalized why) in
  if negb (hasVault p (q_vault_id r)) then deny $"vault_mismatch"
  else if hasEscapeComponent normalized then deny $"path_escape"
  else
    let? inside := contains (p_root_path p) normalized in
    if negb inside then deny $"outside_scope"
    else if negb (principal_allows p (q_operation r)) then deny $"operation_not_granted"
    else if negb (isMkdirTargetAllowed p r) then deny $"invalid_mkdir_target"
    else Ok (mkScopeDecision true normalized $"allowed").

Example scope_examples :
  normalizeVaultPath $"a//b/./c/../d/" = Ok $"/a/b/d" /\ normalizeVaultPath $"" = Ok $"/" /\
  normalizeVaultPath $"/a/../../x" = Ok $"/../x" /\
  contains $"/docs" $"/docs2" = Ok false /\ contains $"/docs" $"/docs/x" = Ok true /\
  contains $"/" $"/../x" = Ok false.
Proof. by vm_compute. Qed.

(** ** Components of a rendered path *)
Definition component (c : str) : Prop := c <> [] /\ c <> $"." /\ slash ∉ c.

(** What [splitComponents] returns: leading [..]s, then plain names. *)
Definition canonical (l : list str) : Prop :=
  exists k ps, l = replicate k dotdot ++ ps /\ Forall plain ps.

Lemma canonical_snoc_plain l c : canonical l -> plain c -> canonical (l ++ [c]).
Proof.
  intros (k & ps & -> & Hp) Hc. exists k, (ps ++ [c]). split; [by rewrite app_assoc|].
  apply Forall_app. by split; [|constructor].
Qed.

Lemma scope_step_canonical st c :
  canonical (rev st) -> c <> [] -> slash ∉ c -> canonical (rev (scope_step st c)).
Proof.
  intros Hst Hne Hs. unfold scope_step.
  destruct (c == $".") eqn:E1; [done|]. destruct (c == dotdot) eqn:E2; bsimpl.
  - destruct st as [|b rest]; [by exists 1%nat, []|].
    destruct (b == dotdot) eqn:E3; simpl; bsimpl.
    + subst b. destruct Hst as (k & ps & Heq & Hp).
      assert (ps = []) as ->.
      { destruct ps as [|x ps _] using rev_ind; [done|]. simpl in Heq. rewrite app_assoc in Heq.
        apply app_inj_tail in Heq as [_ <-]. apply Forall_app in Hp as [_ Hp].
        inversion Hp as [|? ? (_ & _ & Hx & _)]. by destruct Hx. }
      simpl in Heq. rewrite Heq, app_nil_r. exists (S k), []. rewrite app_nil_r. split; [|done].
      by rewrite replicate_S_end.
    + destruct Hst as (k & ps & Heq & Hp). simpl in Heq.
      destruct ps as [|x ps _] using rev_ind.
      * exfalso. rewrite app_nil_r in Heq. destruct k as [|k]; [by destruct (rev rest)|].
        rewrite replicate_S_end in Heq. apply app_inj_tail in Heq as [_ ?]. done.
      * rewrite app_assoc in Heq. apply app_inj_tail in Heq as [-> <-].
        apply Forall_app in Hp as [Hp _]. by exists k, ps.
  - simpl. apply canonical_snoc_plain; [done|]. by repeat split.
Qed.

Lemma splitComponents_canonical path : canonical (splitComponents path).
Proof.
  unfold splitComponents.
  assert (H : forall l st, canonical (rev st) -> Forall (fun c => c <> [] /\ slash ∉ c) l ->
                      canonical (rev (foldl scope_step st l))).
  { induction l as [|c l IH]; intros st Hst Hl; simpl; [done|].
    apply Forall_cons in Hl as [[? ?] Hl]. apply IH; [|done]. by apply scope_step_canonical. }
  apply H; [by exists 0%nat, []|]. apply Forall_forall. intros x Hx.
  split; [by eapply file_names_nonempty|by eapply file_names_no_slash].
Qed.

Lemma canonical_component l c : canonical l -> c ∈ l -> component c.
Proof.
  intros (k & ps & -> & Hp). rewrite elem_of_app. intros [H|H].
  - apply elem_of_replicate in H as [-> _]. repeat split; try done.
    intros Hin. apply list_elem_of_In in Hin. vm_compute in Hin. intuition discriminate.
  - rewrite Forall_forall in Hp. destruct (Hp c H) as (? & ? & _ & ?). done.
Qed.

Lemma file_names_render l : (forall c, c ∈ l -> c <> [] /\ slash ∉ c) -> file_names (render l) = l.
Proof.
  unfold file_names. intros Hl. induction l as [|c l IH]; [done|]. simpl.
  destruct (Hl c ltac:(set_solver)) as [Hne Hs].
  assert (Hrest : base.filter (fun c : str => is_empty c = false) (fields slash (c ++ render l) []) = c :: l).
  { destruct l as [|d l]; simpl.
    - rewrite app_nil_r, fields_nosep by done. destruct c; [done|reflexivity].
    - rewrite fields_app by done. simpl. rewrite filter_cons_True by (by destruct c).
      f_equal. specialize (IH ltac:(set_solver)). simpl in IH. exact IH. }
  etransitivity; [|exact Hrest]. reflexivity.
Qed.

Lemma split_render l : canonical l -> splitComponents (render l) = l.
Proof.
  intros Hc. unfold splitComponents.
  rewrite file_names_render
    by (intros c Hin; destruct (canonical_component _ _ Hc Hin) as (? & _ & ?); done).
  destruct Hc as (k & ps & -> & Hp). rewrite foldl_app.
  assert (foldl scope_step [] (replicate k dotdot) = replicate k dotdot) as ->.
  { assert (H : forall n st, st = replicate n dotdot ->
        foldl scope_step st (replicate k dotdot) = replicate (k + n) dotdot).
    { induction k as [|k IH]; intros n st ->; [done|]. simpl.
      rewrite (IH (S n)); [by rewrite Nat.add_succ_r|]. by destruct n. }
    by rewrite (H 0%nat), Nat.add_0_r. }
  assert (H : forall ps st, Forall plain ps -> foldl scope_step st ps = rev ps ++ st).
  { clear. induction ps as [|c ps IH]; intros st Hp; simpl; [done|].
    apply Forall_cons in Hp as [(_ & H1 & H2 & _) Hp]. rewrite IH by done.
    unfold scope_step. replace (c == $".") with false by (symmetry; by apply eqb_neq).
    replace (c == dotdot) with false by (symmetry; by apply eqb_neq). by rewrite <- app_assoc. }
  rewrite H, rev_app_distr, rev_involutive by done. f_equal.
  clear. induction k as [|k IH]; [done|]. simpl. rewrite IH. by rewrite <- replicate_S_end.
Qed.

(** ** Normal paths and their components *)
Definition canon_path (l : list str) : str := if is_empty l then $"/" else render l.

Lemma file_names_slash p : file_names (slash :: p) = file_names p.
Proof. reflexivity. Qed.

Lemma splitComponents_canon l : canonical l -> splitComponents (canon_path l) = l.
Proof.
  intros Hl. unfold canon_path. destruct l as [|c l]; [by vm_compute|]. by apply split_render.
Qed.

Lemma normalizeVaultPath_components p q :
  normalizeVaultPath p = Ok q <-> nul ∉ p /\ q = canon_path (splitComponents p).
Proof.
  unfold normalizeVaultPath. case_if; bsimpl; [naive_solver|].
  set (src := if starts_with _ _ then _ else _).
  assert (splitComponents src = splitComponents p) as ->.
  { unfold src. destruct p as [|c p]; [by vm_compute|]. simpl is_empty. cbv iota. by case_if. }
  unfold canon_path. naive_solver.
Qed.

Lemma canon_path_nul p : nul ∉ p -> nul ∉ canon_path (splitComponents p).
Proof.
  intros Hp.
  assert (Hf : forall s cur c x, c ∈ x -> x ∈ fields slash s cur -> c ∈ s \/ c ∈ cur).
  { induction s as [|y s IH]; intros cur c x Hc; simpl.
    - rewrite list_elem_of_singleton. intros ->. right.
      apply list_elem_of_In, in_rev, list_elem_of_In. done.
    - case_if; [rewrite elem_of_cons; intros [->|Hx]|intros Hx].
      + right. apply list_elem_of_In, in_rev, list_elem_of_In. done.
      + destruct (IH _ _ _ Hc Hx); set_solver.
      + destruct (IH _ _ _ Hc Hx); set_solver. }
  assert (Hs : forall l st x, x ∈ foldl scope_step st l -> x ∈ l \/ x ∈ st \/ x = dotdot).
  { induction l as [|c l IH]; intros st x; simpl; [auto|]. intros Hx.
    destruct (IH _ _ Hx) as [?|[Hin|?]]; [set_solver| |auto].
    unfold scope_step in Hin. repeat case_if_in Hin; try destruct st; repeat case_if_in Hin; set_solver. }
  assert (Hcomp : forall x, x ∈ splitComponents p -> nul ∉ x).
  { intros x Hx Hn. unfold splitComponents in Hx.
    apply list_elem_of_In, in_rev, list_elem_of_In in Hx.
    destruct (Hs _ _ _ Hx) as [Hin|[?| ->]]; [|set_solver|].
    - unfold file_names in Hin. apply list_elem_of_filter in Hin as [_ Hin].
      destruct (Hf _ _ _ _ Hn Hin); set_solver.
    - apply list_elem_of_In in Hn. vm_compute in Hn. intuition discriminate. }
  unfold canon_path. case_if.
  - intros Hn. apply list_elem_of_In in Hn. vm_compute in Hn. intuition discriminate.
  - clear E. induction (splitComponents p) as [|c l IH]; simpl; [set_solver|].
    rewrite elem_of_cons, elem_of_app. intros [?|[?|?]]; [done| |].
    + eapply Hcomp; [|done]. set_solver.
    + apply IH; [|done]. intros; apply Hcomp; set_solver.
Qed.

(** A text that is empty or starts at a separator. *)
Definition boundary (s : str) : Prop := s = [] \/ exists r, s = slash :: r.

Lemma render_boundary l : boundary (render l).
Proof. destruct l; [by left|right; simpl; eauto]. Qed.

Lemma segment_inj x y s t :
  slash ∉ x -> slash ∉ y -> boundary s -> boundary t -> x ++ s = y ++ t -> x = y /\ s = t.
Proof.
  revert y. induction x as [|a x IH]; intros [|b y] Hx Hy Hs Ht He; simpl in *; simplify_eq; try done.
  - destruct Hs as [?|[r ?]]; simplify_eq. set_solver.
  - destruct Ht as [?|[r ?]]; simplify_eq. set_solver.
  - destruct (IH y) as [-> ->]; set_solver.
Qed.

Lemma render_prefix l m s :
  (forall c, c ∈ l -> slash ∉ c) -> (forall c, c ∈ m -> c <> [] /\ slash ∉ c) ->
  boundary s -> render m = render l ++ s -> exists k, m = l ++ k /\ s = render k.
Proof.
  revert m. induction l as [|x l IH]; intros m Hl Hm Hs He; simpl in *; [eauto|].
  destruct m as [|y m]; simpl in He; [done|]. injection He as He.
  rewrite <- app_assoc in He. apply segment_inj in He as [-> He].
  - destruct (IH m) as (k & -> & ->); [set_solver..|done|done|]. eauto.
  - apply Hm. set_solver.
  - apply Hl. set_solver.
  - apply render_boundary.
  - destruct l; simpl; [done|right; eauto].
Qed.

Lemma render_app l m : render (l ++ m) = render l ++ render m.
Proof. induction l as [|x l IH]; simpl; [done|]. by rewrite IH, <- app_assoc. Qed.

(** Path containment is containment of component lists. *)
Definition escape_free (l : list str) : Prop := dotdot ∉ l.

Lemma hasEscape_canon l : canonical l -> hasEscapeComponent (canon_path l) = false <-> escape_free l.
Proof.
  intros Hl. unfold hasEscapeComponent. rewrite splitComponents_canon by done. unfold escape_free. split.
  - intros Hf Hin. assert (existsb (fun c => c == dotdot) l = true); [|congruence].
    apply existsb_exists. exists dotdot. rewrite eqb_refl. split; [by apply list_elem_of_In|done].
  - intros Hn. destruct (existsb _ l) eqn:E; [|done]. apply existsb_exists in E as (c & Hin & Hc).
    bsimpl. subst. by apply list_elem_of_In in Hin.
Qed.

Lemma contains_canon l m :
  canonical l -> canonical m -> escape_free l -> escape_free m ->
  (if canon_path l == $"/" then true
   else if canon_path m == canon_path l then true
   else match strip_prefix (canon_path l) (canon_path m) with
        | Some (c :: _) => c == slash | _ => false end) = true <-> l `prefix_of` m.
Proof.
  intros Hl Hm _ _.
  assert (Hlc : forall c, c ∈ l -> c <> [] /\ slash ∉ c).
  { intros c Hc. by destruct (canonical_component _ _ Hl Hc) as (? & _ & ?). }
  assert (Hmc : forall c, c ∈ m -> c <> [] /\ slash ∉ c).
  { intros c Hc. by destruct (canonical_component _ _ Hm Hc) as (? & _ & ?). }
  destruct l as [|x l]; [split; [intros _; apply prefix_nil|done]|].
  assert (canon_path (x :: l) == $"/" = false) as ->.
  { apply eqb_neq. intros H. unfold canon_path in H. simpl in H. change ($"/") with [slash] in H.
    simplify_eq. apply app_eq_nil in H as [-> _]. destruct (Hlc []); set_solver. }
  assert (Hroot : canon_path (x :: l) = render (x :: l)) by done.
  destruct (canon_path m == canon_path (x :: l)) eqn:Ee.
  { bsimpl. split; [intros _|done].
    rewrite <- (splitComponents_canon m), <- (splitComponents_canon (x :: l)) by done. by rewrite Ee. }
  rewrite Hroot. split.
  - destruct (strip_prefix _ _) as [[|c r]|] eqn:Es; try done. intros ?. bsimpl. subst.
    apply strip_prefix_spec in Es. destruct m as [|y m].
    { unfold canon_path in Es. simpl in Es. change ($"/") with [slash] in Es. simplify_eq.
      destruct x; [|done]. destruct (Hlc []); set_solver. }
    change (canon_path (y :: m)) with (render (y :: m)) in Es.
    destruct (render_prefix (x :: l) (y :: m) (slash :: r)) as (k & -> & _);
      [naive_solver|done|right; eauto|done|]. by exists k.
  - intros [k ->]. destruct k as [|z k].
    { rewrite app_nil_r in Ee. by rewrite eqb_refl in Ee. }
    change (canon_path ((x :: l) ++ z :: k)) with (render ((x :: l) ++ z :: k)).
    rewrite render_app, strip_prefix_app. simpl. by apply eqb_refl.
Qed.

Lemma contains_is_component_prefix_aux root candidate :
  nul ∉ root -> nul ∉ candidate ->
  exists b, contains root candidate = Ok b /\
  (b = true <-> escape_free (splitComponents root) /\ escape_free (splitComponents candidate) /\
                splitComponents root `prefix_of` splitComponents candidate).
Proof.
  intros Hr Hc. unfold contains.
  rewrite (proj2 (normalizeVaultPath_components root _) (conj Hr eq_refl)).
  rewrite (proj2 (normalizeVaultPath_components candidate _) (conj Hc eq_refl)). simpl.
  eexists. split; [reflexivity|].
  pose proof (splitComponents_canonical root) as Cr. pose proof (splitComponents_canonical candidate) as Cc.
  pose proof (hasEscape_canon _ Cr) as Er. pose proof (hasEscape_canon _ Cc) as Ec.
  destruct (hasEscapeComponent (canon_path (splitComponents root))); simpl; [naive_solver|].
  destruct (hasEscapeComponent (canon_path (splitComponents candidate))); simpl; [naive_solver|].
  rewrite contains_canon by naive_solver. naive_solver.
Qed.

(** ** Properties *)

(** Share path normalisation is canonical: a path without a NUL byte always
    normalises, the result is rooted, has the same components as the input (no
    empty or dot component, parent components only at the front), and normalising
    it again changes nothing; a NUL byte is the only refusal. *)
Theorem normalizeVaultPath_canonical p :
  (nul ∈ p -> normalizeVaultPath p = Err InvalidByte) /\
  (nul ∉ p -> exists q, normalizeVaultPath p = Ok q /\ starts_with q $"/" = true /\
     splitComponents q = splitComponents p /\ canonical (splitComponents q) /\
     normalizeVaultPath q = Ok q).
Proof.
  split.
  - intros Hn. unfold normalizeVaultPath. by rewrite bool_decide_true.
  - intros Hn. exists (canon_path (splitComponents p)).
    pose proof (splitComponents_canonical p) as Hc.
    assert (normalizeVaultPath p = Ok (canon_path (splitComponents p))) as Hp
      by (by apply normalizeVaultPath_components).
    split_and!; [done| |by apply splitComponents_canon|by rewrite splitComponents_canon|].
    + unfold canon_path. destruct (splitComponents p); done.
    + apply normalizeVaultPath_components. split; [by apply canon_path_nul|].
      by rewrite splitComponents_canon.
Qed.

Lemma normalizeVaultPath_canonical_witness :
  normalizeVaultPath $"a//b/./c/../d/" = Ok $"/a/b/d" /\
  exists q, normalizeVaultPath $"a//b/./c/../d/" = Ok q /\ normalizeVaultPath q = Ok q.
Proof.
  split; [vm_compute; reflexivity|].
  destruct (proj2 (normalizeVaultPath_canonical $"a//b/./c/../d/")) as (q & ? & _ & _ & _ & ?).
  - intros Hin. apply list_elem_of_In in Hin. vm_compute in Hin. intuition discriminate.
  - exists q. split; assumption.
Defined.

(** [Scope::contains] is component containment: for paths without a NUL byte
    it is true exactly when neither path has a parent component left after
    normalisation and the components of the root are a prefix of those of the
    candidate; so a sibling that merely extends the root's last name is outside. *)
Theorem contains_is_component_prefix root candidate :
  nul ∉ root -> nul ∉ candidate ->
  exists b, contains root candidate = Ok b /\
  (b = true <-> escape_free (splitComponents root) /\ escape_free (splitComponents candidate) /\
                splitComponents root `prefix_of` splitComponents candidate).
Proof. apply contains_is_component_prefix_aux. Qed.

Lemma contains_is_component_prefix_witness :
  contains $"/docs" $"/docs2/x" = Ok false /\
  exists b, contains $"/docs" $"/docs/./x" = Ok b /\
  (b = true <-> escape_free (splitComponents $"/docs") /\ escape_free (splitComponents $"/docs/./x") /\
                splitComponents $"/docs" `prefix_of` splitComponents $"/docs/./x").
Proof.
  split; [vm_compute; reflexivity|].
  apply contains_is_component_prefix; intros Hin; apply list_elem_of_In in Hin; vm_compute in Hin;
    intuition discriminate.
Defined.

(** Share authorisation grants nothing outside the link: a request is allowed
    only in the principal's vault, for a granted operation, on a path whose
    components extend those of the link's root without any parent component, and
    for mkdir only on a directory target; every other request is denied. *)
Theorem authorize_sound p r d :
  authorize p r = Ok d ->
  d_allowed d = true <->
  hasVault p (q_vault_id r) = true /\ principal_allows p (q_operation r) = true /\
  isMkdirTargetAllowed p r = true /\ escape_free (splitComponents (p_root_path p)) /\
  escape_free (splitComponents (q_path r)) /\
  splitComponents (p_root_path p) `prefix_of` splitComponents (q_path r).
Proof.
  unfold authorize. rewrite rbind_Ok. intros (n & [Hn ->]%normalizeVaultPath_components & Hd).
  pose proof (splitComponents_canonical (q_path r)) as Cq.
  pose proof (hasEscape_canon _ Cq) as Eq.
  destruct (hasVault p (q_vault_id r)); simpl in Hd; [|simplify_eq/=; naive_solver].
  destruct (hasEscapeComponent _); [simplify_eq/=; naive_solver|].
  apply rbind_Ok in Hd as (b & Hb & Hd).
  assert (Hroot : nul ∉ p_root_path p).
  { unfold contains in Hb. apply rbind_Ok in Hb as (? & [? _]%normalizeVaultPath_components & _). done. }
  destruct (contains_is_component_prefix_aux (p_root_path p) (canon_path (splitComponents (q_path r))))
    as (b' & Hb' & Hspec); [done|by apply canon_path_nul|].
  rewrite Hb in Hb'. simplify_eq. rewrite splitComponents_canon in Hspec by done.
  destruct b'; simpl in Hd; [|simplify_eq/=; naive_solver].
  destruct (principal_allows p _); simpl in Hd; [|simplify_eq/=; naive_solver].
  destruct (isMkdirTargetAllowed p r); simpl in Hd; simplify_eq/=; naive_solver.
Qed.

Module ScopeDemo.
Definition grant : Grant :=
  mkGrant 7 3 $"/docs" Directory (1 + 2 + 8) None None None None Reject [] [] [] [].
Definition principal : Principal :=
  mkPrincipal $"s1" $"ss1" 7 3 1 $"/docs" grant Public true 0 None None None.
Definition request (path : str) : ScopeRequest := mkScopeRequest 7 path Download None.
End ScopeDemo.

Lemma authorize_sound_witness :
  exists d, authorize ScopeDemo.principal (ScopeDemo.request $"docs/x/../y") = Ok d /\
  (d_allowed d = true <->
   hasVault ScopeDemo.principal 7 = true /\ principal_allows ScopeDemo.principal Download = true /\
   isMkdirTargetAllowed ScopeDemo.principal (ScopeDemo.request $"docs/x/../y") = true /\
   escape_free (splitComponents $"/docs") /\ escape_free (splitComponents $"docs/x/../y") /\
   splitComponents $"/docs" `prefix_of` splitComponents $"docs/x/../y").
Proof.
  exists (mkScopeDecision true $"/docs/y" $"allowed"). split; [vm_compute; reflexivity|].
  apply (authorize_sound ScopeDemo.principal (ScopeDemo.request $"docs/x/../y")).
  vm_compute. reflexivity.
Defined.

(** The stored names of the share enumerations are unambiguous: reading a
    text gives a value exactly when the text is that value's name, and every
    other text is refused with the offending value. *)
Theorem share_names_exact s :
  (forall v, operation_from_string s = Ok v <-> s = operation_to_string v) /\
  (forall v, target_type_from_string s = Ok v <-> s = target_type_to_string v) /\
  (forall v, link_type_from_string s = Ok v <-> s = link_type_to_string v) /\
  (forall v, access_mode_from_string s = Ok v <-> s = access_mode_to_string v) /\
  (forall v, duplicate_policy_from_string s = Ok v <-> s = duplicate_policy_to_string v) /\
  (forall v, upload_status_from_string s = Ok v <-> s = upload_status_to_string v) /\
  (forall v, audit_actor_type_from_string s = Ok v <-> s = audit_actor_type_to_string v) /\
  (forall v, audit_status_from_string s = Ok v <-> s = audit_status_to_string v) /\
  (forall e, operation_from_string s = Err e -> e = InvalidEnum s).
Proof.
  split_and!; intros v.
  9: unfold operation_from_string; repeat case_if; by intros [= <-].
  all: split; [|intros ->; by destruct v].
  all: unfold operation_from_string, target_type_from_string, link_type_from_string,
    access_mode_from_string, duplicate_policy_from_string, upload_status_from_string,
    audit_actor_type_from_string, audit_status_from_string.
  all: repeat case_if; bsimpl; intros ?; by simplify_eq.
Qed.
