(* ===== verification/SharePolicy.v ===== *)
(** * Share policy: what a share link's principal may do

    [rbac/fs/policy/Share.cpp]: the vault role a grant stands for (allow
    overrides on the shared root, nothing else) and the decision for a request
    of a share principal, taken by the evaluator of [FsPolicy] on that role.
    [rbac/Actor.cpp] separates human and share actors. *)
From S2P Require Import Prelude Paths Glob Perm FsPolicy ShareScope.
Local Open Scope Z_scope.

(** The exceptions the two callees throw. *)
Inductive PolicyError := ScopeFailure (e : ShareError) | PatternFailure (e : GlobError)
| NoSuchPermission.

Definition map_err {E E' A} (f : E -> E') (m : result E A) : result E' A :=
  match m with Ok a => Ok a | Err e => Err (f e) end.

(** ** Permission names *)

(** [Set::exportPermissions] under a qualified prefix: value and qualified name. *)
Definition exportPermissions {E} `{PermissionTraits E} (qualifiedPrefix : str) : list (E * str) :=
  map (fun es => (fst es, qualifiedPrefix ++ $"." ++ snd es)) entries.

(** [findPermissionForEnumValue] within the exported set of one enumeration. *)
Fixpoint findPermissionForEnumValue {E} `{PermissionTraits E} (permissions : list (E * str)) (value : E) : option str :=
  match permissions with
  | [] => None
  | (e, name) :: ps =>
      if enum_value e =? enum_value value then Some name else findPermissionForEnumValue ps value
  end.

Definition requirePermissionForEnumValue {E} `{PermissionTraits E} (permissions : list (E * str)) (value : E) :
  result PolicyError str :=
  match findPermissionForEnumValue permissions value with Some n => Ok n | None => Err NoSuchPermission end.

Definition canonicalFilePermissions : list (FilePermissions * str) := exportPermissions $"vault.fs.files".
Definition canonicalDirectoryPermissions : list (DirectoryPermissions * str) :=
  exportPermissions $"vault.fs.directories".

(** ** The role of a grant *)
Definition patternsFor (g : Grant) : result PolicyError (list str) :=
  let? root := map_err ScopeFailure (normalizeVaultPath (root_path g)) in
  Ok (root :: if target_type g == Directory
              then [if root == $"/" then $"/**" else root ++ $"/**"] else []).

Fixpoint addOverrides (out : list Override) (patterns : list str) (permission : str) :
  result PolicyError (list Override) :=
  match patterns with
  | [] => Ok out
  | pat :: ps =>
      let? compiled := map_err PatternFailure (Glob.make pat) in
      addOverrides (out ++ [mkOverride permission ALLOW true compiled]) ps permission
  end.

Definition addFileOverrides (out : list Override) (patterns : list str) (f : FilePermissions) :=
  let? permission := requirePermissionForEnumValue canonicalFilePermissions f in
  addOverrides out patterns permission.
Definition addDirectoryOverrides (out : list Override) (patterns : list str) (d : DirectoryPermissions) :=
  let? permission := requirePermissionForEnumValue canonicalDirectoryPermissions d in
  addOverrides out patterns permission.

Definition supportsOperation (op : Operation) : bool := op !== OpOverwrite.

Definition isValidSharePrincipal (p : Principal) : bool :=
  negb (is_empty (share_id p)) && negb (is_empty (share_session_id p)) &&
  negb (p_vault_id p =? 0) && negb (p_root_entry_id p =? 0).

Definition addOverridesForAction (out : list Override) (patterns : list str) (action : FilesystemAction)
  (targetType : TargetType) : result PolicyError (list Override) :=
  let? out := match filePermissionForAction action with
              | Some f => addFileOverrides out patterns f
              | None => Ok out
              end in
  if targetType == Directory then
    match directoryPermissionForAction action with
    | Some d => addDirectoryOverrides out patterns d
    | None => Ok out
    end
  else Ok out.

(** [role::Vault]: its name, its assignment (subject, vault, subject type) and its
    filesystem permissions. *)
Record VaultRole := mkRole {
  role_name : str; role_description : str; assignment : Z * Z * str; role_fs : Filesystem }.

Definition emptyScopedVaultRole (shareId : str) (g : Grant) : VaultRole :=
  mkRole (if is_empty shareId then $"share_scoped_effective" else $"share_link_" ++ shareId)
    ($"Scoped vault role for link share " ++ if is_empty shareId then $"runtime" else shareId)
    (root_entry_id g, ShareScope.vault_id g, $"share") Filesystem_None.

Definition with_overrides (r : VaultRole) (os : list Override) : VaultRole :=
  mkRole (role_name r) (role_description r) (assignment r)
    (mkFilesystem (files (role_fs r)) (directories (role_fs r)) os).

Definition shareOperations : list Operation :=
  [Metadata; OpList; OpPreview; Download; Upload; Mkdir; OpOverwrite].

Definition actionForOperation (op : Operation) : option FilesystemAction :=
  match op with
  | Metadata => Some Lookup | OpList => Some List_ | OpPreview => Some Preview | Download => Some Read
  | Upload => Some Write | Mkdir => Some Touch | OpOverwrite => None
  end.

Definition effectiveVaultRole (p : Principal) (op : Operation) : result PolicyError VaultRole :=
  let role := emptyScopedVaultRole (share_id p) (grant_ p) in
  if negb (principal_allows p op) || negb (supportsOperation op) then Ok role
  else
    let? patterns := patternsFor (grant_ p) in
    match actionForOperation op with
    | Some action =>
        let? os := addOverridesForAction (overrides (role_fs role)) patterns action (target_type (grant_ p)) in
        Ok (with_overrides role os)
    | None => Ok role
    end.

Fixpoint addOperations (ops : list Operation) (out : list Override) (patterns : list str) (g : Grant) :
  result PolicyError (list Override) :=
  match ops with
  | [] => Ok out
  | op :: rest =>
      let? out := if negb (allows g op) || negb (supportsOperation op) then Ok out
                  else match actionForOperation op with
                       | Some action => addOverridesForAction out patterns action (target_type g)
                       | None => Ok out
                       end in
      addOperations rest out patterns g
  end.

Definition scopedVaultRoleForGrant (shareId : str) (g : Grant) : result PolicyError VaultRole :=
  let role := emptyScopedVaultRole shareId g in
  let? patterns := patternsFor g in
  let? os := addOperations shareOperations (overrides (role_fs role)) patterns g in
  Ok (with_overrides role os).

(** ** The decision *)
Record ShareRequest := mkShareRequest {
  s_vault_id : Z; s_vault_path : str; s_operation : Operation; s_target_type : TargetType;
  target_exists : bool }.

Definition evaluate (p : Principal) (r : ShareRequest) : result PolicyError Decision :=
  if negb (isValidSharePrincipal p) then Ok (denied MissingUser None)
  else if negb (hasVault p (s_vault_id r)) then
    Ok (denied DeniedByBasePermissions (Some (s_vault_path r)))
  else
    let? normalizedPath := map_err ScopeFailure (normalizeVaultPath (s_vault_path r)) in
    let? inside := map_err ScopeFailure (contains (p_root_path p) normalizedPath) in
    if negb inside then Ok (denied DeniedByBasePermissions (Some normalizedPath))
    else
      match actionForOperation (s_operation r) with
      | None => Ok (denied DeniedByBasePermissions (Some normalizedPath))
      | Some action =>
          if negb (principal_allows p (s_operation r)) then
            Ok (denied DeniedByBasePermissions (Some normalizedPath))
          else
            let? fs := match scoped_vault_role p with
                       | Some fs => Ok fs
                       | None => let? role := effectiveVaultRole p (s_operation r) in Ok (role_fs role)
                       end in
            Ok (evaluateResolved fs
                 (mkResolved action normalizedPath (target_exists r) (s_target_type r == Directory)))
      end.

(** Actors: a human user or a share principal. *)
Inductive Actor := Human | Share (p : Principal).

Definition evaluate_actor (a : Actor) (r : ShareRequest) : result PolicyError Decision :=
  match a with
  | Human => Ok (denied MissingUser (Some (s_vault_path r)))
  | Share p => evaluate p r
  end.

Module ShareDemo.
Definition grant (root : str) : Grant :=
  mkGrant 7 3 root Directory (1 + 2 + 8) None None None None Reject [] [] [] [].
Definition principal (root : str) : Principal :=
  mkPrincipal $"s1" $"ss1" 7 3 1 root (grant root) Public true 0 None None None.
Definition request (path : str) (op : Operation) : ShareRequest := mkShareRequest 7 path op File true.
End ShareDemo.

Example share_policy_examples :
  let allowed_for root path op :=
    match evaluate (ShareDemo.principal root) (ShareDemo.request path op) with
    | Ok d => Some (allowed d) | Err _ => None end in
  allowed_for $"/docs" $"/docs/a.txt" Download = Some true /\
  allowed_for $"/docs" $"/docs2/a.txt" Download = Some false /\
  allowed_for $"/docs" $"/docs/a.txt" Upload = Some false /\
  allowed_for $"/do*" $"/docs/a.txt" Download = Some false /\
  allowed_for $"/" $"/a/b" Download = Some true /\
  allowed_for $"/a\b" $"/a\b/c" Download = None.
Proof. by vm_compute. Qed.

(** ** A share root matches itself and everything below it *)
Lemma escape_free_plain l : canonical l -> escape_free l -> Forall plain l.
Proof.
  intros (k & ps & -> & Hp) Hn. destruct k as [|k]; [done|].
  exfalso. apply Hn. unfold escape_free. simpl. set_solver.
Qed.

Lemma canon_path_snoc l n :
  canon_path (l ++ [n]) =
  (if canon_path l == $"/" then canon_path l ++ n else canon_path l ++ slash :: n) \/ ~ Forall plain l.
Proof.
  destruct (decide (Forall plain l)) as [Hp|]; [left|by right].
  destruct l as [|x l]; [unfold canon_path; simpl; by rewrite app_nil_r|].
  assert (canon_path (x :: l) == $"/" = false) as ->.
  { apply eqb_neq. unfold canon_path. simpl. change ($"/") with [slash]. intros H. simplify_eq.
    apply app_eq_nil in H as [-> _]. apply Forall_cons in Hp as [(? & _) _]. done. }
  change (canon_path ((x :: l) ++ [n])) with (render ((x :: l) ++ [n])).
  rewrite render_app. change (render [n]) with (slash :: n ++ []). by rewrite app_nil_r.
Qed.

Lemma canon_path_normal l : Forall plain l -> normal_dir (canon_path l).
Proof.
  induction l as [|n l IH] using rev_ind; [by left|].
  intros [Hl Hn]%Forall_app. apply Forall_cons in Hn as [Hn _]. specialize (IH Hl). right.
  destruct (canon_path_snoc l n) as [Heq|]; [|done].
  pose proof (lexically_normal_child _ _ IH Hn) as Hlex. rewrite <- Heq in Hlex.
  assert (Hj : canon_path (l ++ [n]) =
    (if canon_path l == $"/" then canon_path l else canon_path l ++ $"/") ++ n).
  { rewrite Heq. case_if; [done|]. by rewrite <- app_assoc. }
  split_and!; [|rewrite Heq|by rewrite Hlex].
  - unfold canon_path. by destruct l.
  - case_if; [bsimpl; rewrite E; by apply (ends_with_slash_snoc [] n)|by apply ends_with_slash_snoc].
Qed.

Lemma canon_path_normalize l : Forall plain l ->
  normalizePath (canon_path l) = canon_path l /\ is_rooted (canon_path l) = true.
Proof.
  intros Hl. pose proof (canon_path_normal l Hl) as [->|(Hr & _ & Hn)]; [by vm_compute|].
  split; [exact Hn|]. apply is_rooted_spec. apply starts_with_spec in Hr as [r ->]. by exists r.
Qed.

(** The tokens of a text match the text itself, whatever wildcards it holds. *)
Lemma globs_self ts tl s :
  Forall wf_token ts -> globs tl s ->
  (starts_segment tl = true -> exists n tl' s', tl = n :: tl' /\ s = slash :: s' /\ globs tl' s') ->
  globs (ts ++ tl) (concat (map value ts) ++ s).
Proof.
  intros Hwf Hg Htl. revert Hwf. induction ts as [ts IH] using (induction_ltof1 _ length).
  unfold ltof in IH. destruct ts as [|t ts]; [done|]. intros [Ht Hts]%Forall_cons.
  pose proof Ht as [Hv _]. unfold token_text in Hv. simpl. rewrite <- app_assoc.
  assert (Hrest : globs (ts ++ tl) (concat (map value ts) ++ s)) by (apply IH; [simpl; lia|done]).
  destruct (type t) eqn:Et.
  - by constructor.
  - rewrite Hv. apply (globs_star t (ts ++ tl) $"*"); try done.
    intros Hin. apply list_elem_of_In in Hin. vm_compute in Hin. intuition discriminate.
  - destruct (starts_segment (ts ++ tl)) eqn:Es; [|by constructor].
    destruct ts as [|n ts].
    + destruct (Htl Es) as (n & tl' & s' & -> & -> & Hg'). simpl in *. rewrite Hv.
      apply (globs_segments t n tl' $"**/" s'); [done|by bsimpl|right; by exists $"**"|done].
    + simpl in Es. bsimpl. apply Forall_cons in Hts as [Hn Hts].
      simpl. rewrite Hv, (wf_slash_value n) by done.
      apply (globs_segments t n (ts ++ tl) $"**/" (concat (map value ts) ++ s)); try done.
      * right. by exists $"**".
      * apply IH; [simpl; lia|done].
  - rewrite Hv. by constructor.
  - rewrite Hv. by constructor.
Qed.

Lemma tokenize_app_slash s t buffer :
  tokenize (s ++ slash :: t) buffer = tokenize s buffer ++ mkToken Slash $"/" :: tokenize t [].
Proof.
  assert (Hpush : forall b rest more, pushLiteralIfNeeded b rest ++ more = pushLiteralIfNeeded b (rest ++ more)).
  { by intros [|x b]. }
  revert buffer. induction s as [s IH] using (induction_ltof1 _ length). unfold ltof in IH.
  intros buffer. destruct s as [|c s]; cbn [app].
  { simpl. by rewrite Hpush. }
  cbn [tokenize]. destruct (isSpecial c); simpl negb; cbv iota; [|apply IH; simpl; lia].
  rewrite Hpush. f_equal.
  destruct (c == slash); [simpl; by rewrite IH by (simpl; lia)|].
  destruct (c == question_c); [simpl; by rewrite IH by (simpl; lia)|].
  destruct s as [|c2 s]; [done|]. cbn [app].
  destruct (c2 == star_c); rewrite <- app_comm_cons; f_equal; [apply IH; simpl; lia|].
  apply (IH (c2 :: s)). simpl. lia.
Qed.

(** The two patterns of a directory grant. *)
Definition below (l : list str) : str := render l ++ slash :: $"**".

Lemma below_eq l : Forall plain l ->
  (if canon_path l == $"/" then $"/**" else canon_path l ++ $"/**") = below l.
Proof.
  intros Hl. unfold below. destruct l as [|x l]; [done|].
  destruct (canon_path (x :: l) == $"/") eqn:E; [|done]. exfalso. bsimpl.
  unfold canon_path in E. simpl in E. change ($"/") with [slash] in E. simplify_eq.
  apply app_eq_nil in E as [-> _]. apply Forall_cons in Hl as [(? & _) _]. done.
Qed.

Lemma below_well_formed l : well_formed_text (canon_path l) -> well_formed_text (below l).
Proof.
  intros [Hb Ht]. assert (Hl : well_formed_text (render l)).
  { destruct l as [|x l]; [|by split]. split; [set_solver|apply triple_star_nil]. }
  destruct Hl as [Hb' Ht']. unfold below. split.
  - rewrite elem_of_app. intros [?|Hin]; [done|]. apply list_elem_of_In in Hin.
    vm_compute in Hin. intuition discriminate.
  - clear -Ht'. induction (render l) as [|c s IH].
    + change (lit "**") with [star_c; star_c]. cbn [app]. rewrite !triple_star_cons. intros [[? _]|[[_ [b ?]]|[[_ [b ?]]|H]]]; try done.
    + cbn [app]. rewrite triple_star_cons in *. intros [[-> [b Hs]]|H]; [|tauto].
      apply Ht'. left. split; [done|]. destruct s as [|x [|y s]]; cbn [app] in Hs; simplify_eq. eauto.
Qed.

Definition compile (text : str) : Pattern := mkPattern text (tokenize text []).

Lemma make_compile text : is_rooted text = true -> well_formed_text text -> Glob.make text = Ok (compile text).
Proof. intros Hr Hw. apply parse_Ok. split; [by apply validate_Ok|done]. Qed.

Lemma compile_wf text : Forall wf_token (tokens (compile text)).
Proof. apply tokenize_wf. constructor. Qed.

Lemma matches_root l : Forall plain l -> matches (compile (canon_path l)) (canon_path l) = true.
Proof.
  intros Hl. destruct (canon_path_normalize l Hl) as [Hn Hr].
  apply matches_spec. rewrite Hn. split; [done|].
  pose proof (globs_self _ [] [] (compile_wf (canon_path l)) globs_nil) as Hg.
  rewrite !app_nil_r in Hg. simpl in Hg. rewrite tokenize_text in Hg. by apply Hg.
Qed.

Lemma matches_below l k :
  Forall plain (l ++ k) -> k <> [] -> matches (compile (below l)) (canon_path (l ++ k)) = true.
Proof.
  intros Hlk Hk. destruct (canon_path_normalize _ Hlk) as [Hn Hr].
  apply matches_spec. rewrite Hn. split; [done|].
  assert (canon_path (l ++ k) = render l ++ render k) as ->.
  { unfold canon_path. destruct (l ++ k) eqn:E; [by apply app_eq_nil in E as [_ ?]|].
    cbn [is_empty]. by rewrite <- E, render_app. }
  destruct k as [|x k]; [done|]. change (render (x :: k)) with (slash :: x ++ render k).
  unfold below, compile. simpl tokens. rewrite tokenize_app_slash.
  assert (Hds : globs (tokenize $"**" []) (x ++ render k)).
  { rewrite <- (app_nil_r (x ++ render k)). apply globs_any; [done|done|constructor]. }
  assert (Hslash : globs (mkToken Slash $"/" :: tokenize $"**" []) (slash :: x ++ render k)).
  { by apply globs_slash. }
  pose proof (globs_self (tokenize (render l) []) _ _ (tokenize_wf _ _ (List.Forall_nil _)) Hslash) as G.
  rewrite tokenize_text in G. apply G. eauto 6.
Qed.

(** ** The overrides of a grant *)
Definition allow_on (permission : str) (patterns : list str) : list Override :=
  map (fun p => mkOverride permission ALLOW true (compile p)) patterns.

Definition good_pattern (p : str) : Prop := is_rooted p = true /\ well_formed_text p.

Lemma addOverrides_ok patterns out permission :
  Forall good_pattern patterns -> addOverrides out patterns permission = Ok (out ++ allow_on permission patterns).
Proof.
  intros Hp. revert out. induction Hp as [|p ps [Hr Hw] _ IH]; intros out; simpl; [by rewrite app_nil_r|].
  rewrite make_compile by done. simpl. rewrite IH, <- app_assoc. done.
Qed.

Definition file_name (f : FilePermissions) : str :=
  $"vault.fs.files." ++ match f with
  | FPreview => $"preview" | FUpload => $"upload" | FDownload => $"download" | FOverwrite => $"overwrite"
  | FRename => $"rename" | FDelete => $"delete" | FMove => $"move" | FCopy => $"copy" end.
Definition directory_name (d : DirectoryPermissions) : str :=
  $"vault.fs.directories." ++ match d with
  | DList => $"list" | DUpload => $"upload" | DDownload => $"download" | DTouch => $"touch"
  | DDelete => $"delete" | DRename => $"rename" | DMove => $"move" | DCopy => $"copy" end.

Lemma required_names :
  (forall f, requirePermissionForEnumValue canonicalFilePermissions f = Ok (file_name f)) /\
  (forall d, requirePermissionForEnumValue canonicalDirectoryPermissions d = Ok (directory_name d)).
Proof. split; intros []; by vm_compute. Qed.

Definition action_overrides (action : FilesystemAction) (patterns : list str) : list Override :=
  match filePermissionForAction action with Some f => allow_on (file_name f) patterns | None => [] end ++
  match directoryPermissionForAction action with Some d => allow_on (directory_name d) patterns | None => [] end.

Lemma addOverridesForAction_ok out patterns action :
  Forall good_pattern patterns ->
  addOverridesForAction out patterns action Directory = Ok (out ++ action_overrides action patterns).
Proof.
  intros Hp. unfold addOverridesForAction, action_overrides, addFileOverrides, addDirectoryOverrides.
  destruct required_names as [Hf Hd].
  destruct (filePermissionForAction action) as [f|]; simpl rbind;
    [rewrite Hf; simpl rbind; rewrite addOverrides_ok by done; simpl rbind|];
    change (Directory == Directory) with true; cbv iota;
    (destruct (directoryPermissionForAction action) as [d|];
      [rewrite Hd; simpl rbind; rewrite addOverrides_ok by done|]);
    cbn [app]; rewrite ?app_nil_r, <- ?app_assoc; reflexivity.
Qed.

Definition grants (g : Grant) (op : Operation) : bool := allows g op && supportsOperation op.

Definition operation_overrides (g : Grant) (patterns : list str) (op : Operation) : list Override :=
  if grants g op
  then match actionForOperation op with Some a => action_overrides a patterns | None => [] end
  else [].

Lemma addOperations_ok g patterns ops out :
  Forall good_pattern patterns -> target_type g = Directory ->
  addOperations ops out patterns g = Ok (out ++ concat (map (operation_overrides g patterns) ops)).
Proof.
  intros Hp Hg. revert out. induction ops as [|op ops IH]; intros out; simpl; [by rewrite app_nil_r|].
  unfold operation_overrides at 1, grants. rewrite <- negb_andb.
  destruct (allows g op && supportsOperation op); simpl; [|apply IH].
  destruct (actionForOperation op); simpl; [|apply IH].
  rewrite Hg, addOverridesForAction_ok by done. simpl. by rewrite IH, <- app_assoc.
Qed.

(** ** Deciding with allow overrides only *)
Definition allow_only (os : list Override) : Prop := Forall (fun o => enabled o = true /\ effect o = ALLOW) os.

Lemma allow_on_only permission patterns : allow_only (allow_on permission patterns).
Proof. induction patterns; constructor; done. Qed.

Lemma action_overrides_only a patterns : allow_only (action_overrides a patterns).
Proof.
  unfold action_overrides. apply Forall_app; split.
  - destruct (filePermissionForAction a); [apply allow_on_only|constructor].
  - destruct (directoryPermissionForAction a); [apply allow_on_only|constructor].
Qed.

Lemma operation_overrides_only g patterns op : allow_only (operation_overrides g patterns op).
Proof.
  unfold operation_overrides. case_if; [|constructor].
  destruct (actionForOperation op); [apply action_overrides_only|constructor].
Qed.

Lemma operations_overrides_only g patterns ops :
  allow_only (concat (map (operation_overrides g patterns) ops)).
Proof.
  induction ops as [|o ops IH]; [constructor|].
  apply Forall_app; split; [apply operation_overrides_only|exact IH].
Qed.

Lemma allow_only_decides fs path ex isD action :
  allow_only (overrides fs) -> path <> [] ->
  (exists o, o ∈ overrides fs /\ applicable o path action = true) ->
  allowed (evaluateResolved fs (mkResolved action path ex isD)) =
  (ex || negb (requiresExistingEntry action)) && validFor isD action.
Proof.
  intros Hall Hp (o & Hin & Ha). unfold evaluateResolved. simpl.
  destruct path as [|c path]; [done|]. simpl is_empty. cbv iota.
  destruct (negb ex && requiresExistingEntry action) eqn:E1.
  { simpl. destruct ex; [done|]. simpl in E1. by rewrite E1. }
  destruct (validFor isD action) eqn:E2; simpl negb; cbv iota; [|by rewrite andb_false_r].
  rewrite resolveStage_decided.
  assert (Hres : forall a, a = action -> s_allowed (resolve fs (mkTarget (c :: path) ex isD) a) = Some true).
  { intros a ->. unfold resolve, resolveOverrides. simpl.
    destruct (findBestOverride_cases (overrides fs) (c :: path) action) as [[-> Hno]|(b & -> & Hb)].
    - by rewrite (Hno o Hin) in Ha.
    - apply is_best_in in Hb as (Hbin & _ & _). unfold allow_only in Hall. rewrite Forall_forall in Hall.
      destruct (Hall b Hbin) as [He Hf]. unfold overrideEffect. by rewrite He, Hf. }
  assert (s_allowed (resolveStage fs (mkTarget (c :: path) ex isD) action) = Some true) as Hs.
  { unfold resolveStage. rewrite (Hres action eq_refl). simpl negb. rewrite andb_false_r. by apply Hres. }
  unfold settle. rewrite Hs. simpl. destruct ex; [done|]. simpl in E1 |- *. by rewrite E1.
Qed.

(** ** A directory share *)

(** The share of the directory with components [l]. *)
Record directory_share (p : Principal) (l : list str) : Prop := {
  ds_directory : target_type (grant_ p) = Directory;
  ds_root : splitComponents (root_path (grant_ p)) = l;
  ds_root_nul : nul ∉ root_path (grant_ p);
  ds_same_root : p_root_path p = root_path (grant_ p);
  ds_inside : escape_free l;
  ds_text : well_formed_text (canon_path l) }.

(** The stored role is none, or the one the grant stands for. *)
Definition role_of_grant (p : Principal) : Prop :=
  scoped_vault_role p = None \/
  exists role, scopedVaultRoleForGrant (share_id p) (grant_ p) = Ok role /\
               scoped_vault_role p = Some (role_fs role).

Definition grant_patterns (l : list str) : list str := [canon_path l; below l].

Lemma share_plain p l : directory_share p l -> Forall plain l.
Proof.
  intros H. apply escape_free_plain; [|apply (ds_inside _ _ H)].
  rewrite <- (ds_root _ _ H). apply splitComponents_canonical.
Qed.

Lemma grant_patterns_good p l : directory_share p l -> Forall good_pattern (grant_patterns l).
Proof.
  intros H. pose proof (share_plain _ _ H) as Hl. pose proof (ds_text _ _ H) as Ht.
  repeat constructor; try done; try apply Ht; try (by apply below_well_formed, Ht).
  - by apply canon_path_normalize.
  - unfold below. by destruct l.
Qed.

Lemma patternsFor_ok p l : directory_share p l -> patternsFor (grant_ p) = Ok (grant_patterns l).
Proof.
  intros H. unfold patternsFor.
  rewrite (proj2 (normalizeVaultPath_components _ _) (conj (ds_root_nul _ _ H) eq_refl)).
  rewrite (ds_directory _ _ H), (ds_root _ _ H). simpl. unfold grant_patterns.
  change (Directory == Directory) with true. cbv iota.
  by rewrite below_eq by (by eapply share_plain).
Qed.

(** The role used for a granted operation: no base permission, allow overrides
    only, those of the operation among them. *)
Lemma share_role_overrides p l op a :
  directory_share p l -> role_of_grant p -> principal_allows p op = true ->
  actionForOperation op = Some a ->
  exists fs,
    match scoped_vault_role p with
    | Some fs => Ok fs
    | None => let? role := effectiveVaultRole p op in Ok (role_fs role)
    end = Ok fs /\ allow_only (overrides fs) /\
    (forall o, o ∈ action_overrides a (grant_patterns l) -> o ∈ overrides fs).
Proof.
  intros H Hr Hop Ha. pose proof (grant_patterns_good _ _ H) as Hg.
  assert (Hs : supportsOperation op = true) by (by destruct op).
  destruct Hr as [->|(role & Hrole & ->)].
  - unfold effectiveVaultRole. rewrite Hop, Hs. simpl negb. cbv iota.
    rewrite (patternsFor_ok _ _ H), Ha, (ds_directory _ _ H). simpl rbind.
    rewrite addOverridesForAction_ok by done. simpl. eexists. split; [reflexivity|].
    split; [apply action_overrides_only|done].
  - unfold scopedVaultRoleForGrant in Hrole. rewrite (patternsFor_ok _ _ H) in Hrole.
    cbn [rbind] in Hrole. rewrite addOperations_ok in Hrole by (try apply H; done).
    cbn [rbind] in Hrole. injection Hrole as <-. eexists. split; [reflexivity|]. cbn [role_fs with_overrides overrides].
    split.
    + apply (operations_overrides_only _ _ shareOperations).
    + intros o Ho. apply list_elem_of_In.
      apply (proj2 (in_concat (map (operation_overrides (grant_ p) (grant_patterns l)) shareOperations) o)).
      exists (operation_overrides (grant_ p) (grant_patterns l) op). split.
      * apply in_map. destruct op; simpl; tauto.
      * unfold operation_overrides, grants. unfold principal_allows in Hop. rewrite Hop, Hs, Ha.
        by apply list_elem_of_In.
Qed.

(** One of them applies at the root and below it. *)
Lemma share_override_applies l k op a :
  Forall plain (l ++ k) -> actionForOperation op = Some a ->
  exists o, o ∈ action_overrides a (grant_patterns l) /\ applicable o (canon_path (l ++ k)) a = true.
Proof.
  intros Hlk Ha. apply Forall_app in Hlk as Hsplit. destruct Hsplit as [Hl _].
  set (pat := match k with [] => canon_path l | _ => below l end).
  assert (Hm : matches (compile pat) (canon_path (l ++ k)) = true).
  { unfold pat. destruct k; [rewrite app_nil_r; by apply matches_root|by apply matches_below]. }
  assert (Hpat : pat ∈ grant_patterns l) by (unfold pat, grant_patterns; destruct k; set_solver).
  assert (Hall : forall perm, mkOverride perm ALLOW true (compile pat) ∈ allow_on perm (grant_patterns l)).
  { intros perm. unfold allow_on. apply list_elem_of_fmap. by exists pat. }
  destruct op; simpl in Ha; simplify_eq; unfold action_overrides;
    cbn [filePermissionForAction directoryPermissionForAction].
  1: exists (mkOverride (directory_name DList) ALLOW true (compile pat)).
  2: exists (mkOverride (directory_name DList) ALLOW true (compile pat)).
  3: exists (mkOverride (file_name FPreview) ALLOW true (compile pat)).
  4: exists (mkOverride (directory_name DDownload) ALLOW true (compile pat)).
  5: exists (mkOverride (directory_name DUpload) ALLOW true (compile pat)).
  6: exists (mkOverride (directory_name DTouch) ALLOW true (compile pat)).
  all: split; [rewrite ?elem_of_app; auto|].
  all: unfold applicable; cbn [enabled pattern]; rewrite Hm; by vm_compute.
Qed.

Lemma nul_free s : existsb (fun c => c == nul) s = false -> nul ∉ s.
Proof.
  intros H Hin. assert (existsb (fun c => c == nul) s = true); [|congruence].
  apply existsb_exists. exists nul. split; [by apply list_elem_of_In|apply eqb_refl].
Qed.

(** ** Properties *)

(** A directory share opens exactly its subtree: whatever characters the
    shared directory's name holds (as long as they form a legal pattern), a
    request is allowed exactly when the principal is complete, the vault is the
    link's, the path's components extend the root's without a parent component,
    the operation is granted and has a filesystem action, and the entry exists
    (or is to be created) and is of a kind the action applies to; with the stored
    role of the grant and without one alike. *)
Theorem directory_share_exact p l r :
  directory_share p l -> role_of_grant p -> nul ∉ s_vault_path r ->
  exists d, evaluate p r = Ok d /\
  (allowed d = true <->
   isValidSharePrincipal p = true /\ hasVault p (s_vault_id r) = true /\
   l `prefix_of` splitComponents (s_vault_path r) /\ escape_free (splitComponents (s_vault_path r)) /\
   principal_allows p (s_operation r) = true /\
   exists a, actionForOperation (s_operation r) = Some a /\
     (target_exists r = true \/ requiresExistingEntry a = false) /\
     validFor (s_target_type r == Directory) a = true).
Proof.
  intros H Hrole Hn. unfold evaluate.
  destruct (isValidSharePrincipal p); simpl negb; cbv iota; [|eexists; split; [done|]; naive_solver].
  destruct (hasVault p (s_vault_id r)); simpl negb; cbv iota; [|eexists; split; [done|]; naive_solver].
  rewrite (proj2 (normalizeVaultPath_components _ _) (conj Hn eq_refl)). simpl rbind.
  set (m := splitComponents (s_vault_path r)).
  pose proof (splitComponents_canonical (s_vault_path r)) as Hm. fold m in Hm.
  destruct (contains_is_component_prefix_aux (p_root_path p) (canon_path m)) as (b & Hb & Hspec).
  { rewrite (ds_same_root _ _ H). apply (ds_root_nul _ _ H). }
  { by apply canon_path_nul. }
  rewrite Hb. simpl rbind.
  rewrite (ds_same_root _ _ H), (ds_root _ _ H), splitComponents_canon in Hspec by done.
  pose proof (ds_inside _ _ H) as Hin.
  destruct b; simpl negb; cbv iota; [|eexists; split; [done|]; simpl; naive_solver].
  apply proj1 in Hspec. destruct (Hspec eq_refl) as (_ & Hme & [k Hk]).
  destruct (actionForOperation (s_operation r)) as [a|] eqn:Ha; [|eexists; split; [done|]; naive_solver].
  destruct (principal_allows p (s_operation r)) eqn:Hop; simpl negb; cbv iota;
    [|eexists; split; [done|]; naive_solver].
  destruct (share_role_overrides p l _ a H Hrole Hop Ha) as (fs & -> & Hall & Hin').
  simpl rbind. eexists. split; [reflexivity|].
  pose proof (escape_free_plain _ Hm Hme) as Hplain.
  rewrite allow_only_decides; [|done| |].
  - rewrite andb_true_iff, orb_true_iff, negb_true_iff. split.
    + intros [? ?]. split_and!; try done; [by exists k|]. by exists a.
    + intros (_ & _ & _ & _ & _ & a' & [= <-] & ?). done.
  - unfold canon_path. by destruct m.
  - rewrite Hk in *. destruct (share_override_applies l k _ a Hplain Ha) as (o & Ho & Happ). eauto.
Qed.

Lemma directory_share_exact_witness :
  exists d, evaluate (ShareDemo.principal $"/do*") (ShareDemo.request $"/do*/./a" Download) = Ok d /\
  allowed d = true.
Proof.
  destruct (directory_share_exact (ShareDemo.principal $"/do*") [$"do*"]
    (ShareDemo.request $"/do*/./a" Download)) as (d & Hd & Hall).
  - split; try reflexivity; try (apply nul_free; vm_compute; reflexivity).
    + intros Hin. apply list_elem_of_In in Hin. vm_compute in Hin. intuition discriminate.
    + apply (proj2 (proj1 (validate_Ok $"/do*") ltac:(vm_compute; reflexivity))).
  - left. reflexivity.
  - apply nul_free. vm_compute. reflexivity.
  - exists d. split; [exact Hd|]. apply Hall. split_and!; try reflexivity.
    + exists [$"a"]. vm_compute. reflexivity.
    + intros Hin. apply list_elem_of_In in Hin. vm_compute in Hin. intuition discriminate.
    + exists Read. split_and!; try reflexivity. left. reflexivity.
Defined.

(** C26. No share leaves its root: whatever role is stored with the principal, an
    allowed request has a complete principal, the link's vault, a path below the
    link's root (by components, without parent components) and a granted
    operation; a human actor gets nothing from the share evaluator. *)
Theorem share_confined actor r d :
  evaluate_actor actor r = Ok d -> allowed d = true ->
  exists p a, actor = Share p /\ isValidSharePrincipal p = true /\
    hasVault p (s_vault_id r) = true /\ principal_allows p (s_operation r) = true /\
    actionForOperation (s_operation r) = Some a /\
    escape_free (splitComponents (s_vault_path r)) /\
    splitComponents (p_root_path p) `prefix_of` splitComponents (s_vault_path r) /\
    (target_exists r = true \/ requiresExistingEntry a = false).
Proof.
  destruct actor as [|p]; [by intros [= <-]|]. simpl. unfold evaluate. intros Hd Hall.
  destruct (isValidSharePrincipal p) eqn:Hv; simpl in Hd; [|by simplify_eq].
  destruct (hasVault p (s_vault_id r)) eqn:Hh; simpl in Hd; [|by simplify_eq].
  apply rbind_Ok in Hd as (n & Hn & Hd).
  destruct (normalizeVaultPath (s_vault_path r)) as [n'|] eqn:En; simplify_eq/=.
  apply normalizeVaultPath_components in En as [Hnul ->].
  pose proof (splitComponents_canonical (s_vault_path r)) as Hm.
  destruct (contains (p_root_path p) _) as [b|] eqn:Hb; simpl in Hd; [|done].
  destruct b; simpl in Hd; [|by simplify_eq].
  assert (nul ∉ p_root_path p).
  { unfold contains in Hb. apply rbind_Ok in Hb as (? & [? _]%normalizeVaultPath_components & _). done. }
  destruct (contains_is_component_prefix_aux (p_root_path p) (canon_path (splitComponents (s_vault_path r))))
    as (b & Hb' & Hspec); [done|by apply canon_path_nul|].
  rewrite Hb in Hb'. simplify_eq. rewrite splitComponents_canon in Hspec by done.
  destruct (proj1 Hspec eq_refl) as (_ & Hesc & Hpre).
  destruct (actionForOperation (s_operation r)) as [a|]; [|by simplify_eq].
  destruct (principal_allows p (s_operation r)) eqn:Hop; simpl in Hd; [|by simplify_eq].
  apply rbind_Ok in Hd as (fs & _ & [= <-]).
  exists p, a. split_and!; try done.
  unfold evaluateResolved in Hall. simpl in Hall. case_if_in Hall; [done|].
  destruct (target_exists r); [by left|right]. simpl in Hall. by destruct (requiresExistingEntry a).
Qed.

Lemma share_confined_witness :
  exists d, evaluate_actor (Share (ShareDemo.principal $"/docs")) (ShareDemo.request $"/docs/a" Download) = Ok d /\
  exists p, Share (ShareDemo.principal $"/docs") = Share p /\ principal_allows p Download = true.
Proof.
  eexists. split; [reflexivity|].
  destruct (share_confined (Share (ShareDemo.principal $"/docs")) (ShareDemo.request $"/docs/a" Download)
    _ eq_refl) as (p & a & Hp & _ & _ & Ho & _).
  - vm_compute. reflexivity.
  - exists p. split; [exact Hp|exact Ho].
Defined.
