(* ===== verification/ShareTokens.v ===== *)
(** * Share tokens, link and session lifetimes, and the attempt limiter

    [share/Token.cpp] (token texts), [share/Link.cpp], [share/Session.cpp],
    [share/EmailChallenge.cpp], [share/Upload.cpp] (the lifetime and bound
    predicates) and [share/RateLimiter.cpp].  The keyed hash of libsodium is a
    parameter. *)
From S2P Require Import Prelude Paths ShareScope.
Local Open Scope Z_scope.

(** ** Tokens *)
Inductive TokenKind := PublicShare | ShareSession.
#[export] Instance TokenKind_eq : EqDecision TokenKind. Proof. solve_decision. Defined.

Record ParsedToken := mkParsed { kind : TokenKind; lookup_id : str; secret : str }.

Definition underscore : Ascii.ascii := "_"%char.
Definition dash : Ascii.ascii := "-"%char.

Definition prefix_for (k : TokenKind) : str :=
  match k with PublicShare => $"vhs" | ShareSession => $"vhss" end.
Definition domain_for (k : TokenKind) : str :=
  match k with PublicShare => $"vh/share-token/public/v1" | ShareSession => $"vh/share-token/session/v1" end.

Definition is_hex (c : Ascii.ascii) : bool := is_digit c || in_chars "a" "f" c || in_chars "A" "F" c.
(** [std::isalnum] in the C locale. *)
Definition is_secret_char (c : Ascii.ascii) : bool := is_digit c || in_chars "a" "z" c || in_chars "A" "Z" c.

(** The regular expression of [is_uuid]: five groups of hex digits. *)
Definition hex_group (n : nat) (s : str) : bool := (length s =? n)%nat && forallb is_hex s.
Definition is_uuid (value : str) : bool :=
  match fields dash value [] with
  | [a; b; c; d; e] =>
      hex_group 8 a && hex_group 4 b && hex_group 4 c && hex_group 4 d && hex_group 12 e
  | _ => false
  end.

(** [parse]: exactly two underscores, then the three parts are checked. *)
Definition parse (raw : str) : result ShareError ParsedToken :=
  match fields underscore raw [] with
  | [prefix; lookup; sec] =>
      check is_uuid lookup else MalformedTokenLookup in
      check negb (is_empty sec) && forallb is_secret_char sec else MalformedTokenSecret in
      if prefix == $"vhs" then Ok (mkParsed PublicShare lookup sec)
      else if prefix == $"vhss" then Ok (mkParsed ShareSession lookup sec)
      else Err MalformedTokenPrefix
  | _ => Err MalformedToken
  end.

(** The text of [generate], for the random lookup id and secret it drew. *)
Definition token_raw (k : TokenKind) (lookup sec : str) : str :=
  prefix_for k ++ [underscore] ++ lookup ++ [underscore] ++ sec.

Definition redact (raw_or_lookup : str) : str :=
  match parse raw_or_lookup with
  | Ok p => prefix_for (kind p) ++ $"_" ++ lookup_id p ++ $"_<redacted>"
  | Err _ => if is_uuid raw_or_lookup then raw_or_lookup ++ $"_<redacted>" else $"<redacted-share-token>"
  end.

(** Hashing, for the keyed hash [H] of a message under the stored pepper. *)
Section Hash.
Context (H : str -> str).
Definition hashForDomain (domain value : str) : str := H (domain ++ [nul] ++ value).
Definition hashSecret (k : TokenKind) (sec : str) : str := hashForDomain (domain_for k) sec.
Definition verify (expected_hash : str) (k : TokenKind) (sec : str) : bool :=
  let actual := hashSecret k sec in
  if negb (length actual =? length expected_hash)%nat then false else actual == expected_hash.

Definition hashEmail (normalized : str) : str := hashForDomain $"vh/share-email/v1" normalized.
Definition hashCode (code : str) : str := hashForDomain $"vh/share-email-code/v1" code.
Definition verifyCode (expected_hash code : str) : bool :=
  let actual := hashCode code in
  if negb (length actual =? length expected_hash)%nat then false else actual == expected_hash.
End Hash.

(** ** Email challenges *)
Definition is_space (c : Ascii.ascii) : bool :=
  (c == " "%char) || (c == "009"%char) || (c == "013"%char) || (c == "010"%char).
Fixpoint drop_spaces (s : str) : str :=
  match s with c :: s' => if is_space c then drop_spaces s' else s | [] => [] end.
Definition trim (s : str) : str := rev (drop_spaces (rev (drop_spaces s))).

Definition normalizeEmail (email : str) : result ShareError str :=
  check negb (forallb is_space email) else EmailRequired in
  let normalized := map tolower (trim email) in
  check bool_decide ("@"%char ∈ normalized) else EmailInvalid in
  Ok normalized.

Record EmailChallenge := mkChallenge {
  attempts : Z; max_attempts : Z; c_expires_at : Z; consumed_at : option Z }.
Definition challenge_isExpired (c : EmailChallenge) (now : Z) : bool := c_expires_at c <=? now.
Definition canAttempt (c : EmailChallenge) (now : Z) : bool :=
  negb (bool_decide (is_Some (consumed_at c))) && negb (challenge_isExpired c now) && (attempts c <? max_attempts c).

(** ** Lifetimes *)
Record LinkTimes := mkLink {
  l_expires_at : option Z; revoked_at : option Z; disabled_at : option Z; l_access_mode : AccessMode }.
Definition link_isExpired (l : LinkTimes) (now : Z) : bool :=
  match l_expires_at l with Some t => t <=? now | None => false end.
Definition isRevoked (l : LinkTimes) : bool := bool_decide (is_Some (revoked_at l)).
Definition isDisabled (l : LinkTimes) : bool := bool_decide (is_Some (disabled_at l)).
Definition link_isActive (l : LinkTimes) (now : Z) : bool :=
  negb (link_isExpired l now) && negb (isRevoked l) && negb (isDisabled l).
Definition requiresEmail (l : LinkTimes) : bool := l_access_mode l == EmailValidated.

Record SessionTimes := mkSession { s_expires_at : Z; s_revoked_at : option Z; verified_at : option Z }.
Definition session_isExpired (s : SessionTimes) (now : Z) : bool := s_expires_at s <=? now.
Definition session_isRevoked (s : SessionTimes) : bool := bool_decide (is_Some (s_revoked_at s)).
Definition isVerified (s : SessionTimes) : bool := bool_decide (is_Some (verified_at s)).
Definition session_isActive (s : SessionTimes) (now : Z) : bool :=
  negb (session_isExpired s now) && negb (session_isRevoked s).

(** ** Upload bounds, on 64-bit counters *)
Definition isTerminal (s : UploadStatus) : bool :=
  match s with Complete | Failed | Cancelled => true | Pending | Receiving => false end.
Definition exceedsExpectedSize (expected received next_bytes : Z) : bool :=
  expected - Z.min received expected <? next_bytes.

(** ** The attempt limiter

    Times are nanoseconds of the steady clock, windows are seconds. *)
Definition second : Z := 1000000000.
Definition kMaxBuckets : nat := 4096.
Definition kIdleBucketTtl : Z := 30 * 60 * second.

Inductive LimitError := KeyRequired | MaxAttemptsRequired | WindowRequired.
Record RateLimitPolicy := mkPolicy { p_max_attempts : Z; window : Z }.
Record RateLimitDecision := mkLimit { allowed : bool; remaining : Z; retry_after : Z }.
Record Bucket := mkBucket { window_start : Z; last_seen : Z; count : Z }.
Notation Buckets := (gmap str Bucket).

Definition idle (now : Z) (b : Bucket) : bool := kIdleBucketTtl <=? now - last_seen b.

Definition prune (now : Z) (buckets : Buckets) : Buckets :=
  base.filter (fun kb => idle now (snd kb) = false) buckets.

(** [min_element] by [last_seen]: the first least-recently seen bucket in the
    map's iteration order. *)
Fixpoint oldest (l : list (str * Bucket)) : option (str * Bucket) :=
  match l with
  | [] => None
  | x :: l' =>
      match oldest l' with
      | Some y => if last_seen (snd y) <? last_seen (snd x) then Some y else Some x
      | None => Some x
      end
  end.

Definition make_room (now : Z) (buckets : Buckets) : Buckets :=
  if (kMaxBuckets <=? size buckets)%nat then
    let pruned := prune now buckets in
    if (kMaxBuckets <=? size pruned)%nat then
      match oldest (map_to_list pruned) with Some (k, _) => delete k pruned | None => pruned end
    else pruned
  else buckets.

Definition elapsed_s (now start : Z) : Z := Z.quot (now - start) second.
Definition retry (policy : RateLimitPolicy) (now start : Z) : Z :=
  if window policy <=? elapsed_s now start then 0 else window policy - elapsed_s now start.

Definition touch (policy : RateLimitPolicy) (now : Z) (found : option Bucket) : Bucket :=
  let b := default (mkBucket 0 0 0) found in
  let b := if (count b =? 0) || (window policy * second <=? now - window_start b)
           then mkBucket now (last_seen b) 0 else b in
  mkBucket (window_start b) now (count b).

Definition check_limit (buckets : Buckets) (key : str) (policy : RateLimitPolicy) (now : Z) :
  result LimitError (Buckets * RateLimitDecision) :=
  check negb (is_empty key) else KeyRequired in
  check negb (p_max_attempts policy =? 0) else MaxAttemptsRequired in
  check negb (window policy <=? 0) else WindowRequired in
  let buckets := make_room now buckets in
  let bucket := touch policy now (buckets !! key) in
  if p_max_attempts policy <=? count bucket then
    Ok (<[key := bucket]> buckets, mkLimit false 0 (retry policy now (window_start bucket)))
  else
    let bucket := mkBucket (window_start bucket) (last_seen bucket) (count bucket + 1) in
    Ok (<[key := bucket]> buckets, mkLimit true (p_max_attempts policy - count bucket) 0).

Definition peek (buckets : Buckets) (key : str) (policy : RateLimitPolicy) (now : Z) :
  result LimitError RateLimitDecision :=
  check negb (is_empty key) else KeyRequired in
  check negb (p_max_attempts policy =? 0) else MaxAttemptsRequired in
  match buckets !! key with
  | None => Ok (mkLimit true (p_max_attempts policy) 0)
  | Some b =>
      if window policy * second <=? now - window_start b then Ok (mkLimit true (p_max_attempts policy) 0)
      else if p_max_attempts policy <=? count b then
        Ok (mkLimit false 0 (retry policy now (window_start b)))
      else Ok (mkLimit true (p_max_attempts policy - count b) 0)
  end.

Definition reset (buckets : Buckets) : Buckets := ∅.
Definition bucketCount (buckets : Buckets) : nat := size buckets.

Example token_examples :
  parse $"vhs_00000000-0000-4000-8000-0000000000ab_secret1" =
    Ok (mkParsed PublicShare $"00000000-0000-4000-8000-0000000000ab" $"secret1") /\
  redact $"vhs_00000000-0000-4000-8000-0000000000ab_secret1" =
    $"vhs_00000000-0000-4000-8000-0000000000ab_<redacted>" /\
  parse $"vhs_1_2_3" = Err MalformedToken /\
  normalizeEmail $"  Bob@Example.COM " = Ok $"bob@example.com".
Proof. by vm_compute. Qed.

(** ** Splitting at a separator *)
Lemma fields_three c a b d :
  c ∉ a -> c ∉ b -> c ∉ d -> fields c (a ++ [c] ++ b ++ [c] ++ d) [] = [a; b; d].
Proof.
  intros Ha Hb Hd. simpl. rewrite fields_app, fields_app, fields_nosep by done. done.
Qed.

Lemma fields_cons c s cur : exists y l, fields c s cur = y :: l.
Proof. revert cur. induction s as [|x s IH]; intros cur; simpl; [eauto|case_if; eauto]. Qed.

Lemma fields_join c s cur :
  rev cur ++ s = match fields c s cur with [] => [] | x :: l => x ++ concat (map (fun y => c :: y) l) end.
Proof.
  revert cur. induction s as [|x s IH]; intros cur; simpl.
  - by rewrite !app_nil_r.
  - case_if; bsimpl.
    + subst. f_equal. specialize (IH []).
      destruct (fields_cons c s []) as (y & l & E). rewrite E in *. simpl in *. by rewrite <- IH.
    + rewrite <- IH. simpl. by rewrite <- app_assoc.
Qed.

Lemma fields_three_inv c s a b d :
  fields c s [] = [a; b; d] -> s = a ++ [c] ++ b ++ [c] ++ d /\ c ∉ a /\ c ∉ b /\ c ∉ d.
Proof.
  intros Hf. pose proof (fields_join c s []) as Hj. rewrite Hf in Hj. simpl in Hj.
  rewrite app_nil_r in Hj. split; [done|].
  split_and!; apply (fields_no_sep c s []); rewrite ?Hf; set_solver.
Qed.

Definition valid_lookup (l : str) : Prop := is_uuid l = true.
Definition valid_secret (s : str) : Prop := s <> [] /\ forallb is_secret_char s = true.

Lemma secret_no_underscore s : valid_secret s -> underscore ∉ s.
Proof. intros [_ H]. by eapply forallb_not_elem; [exact H|vm_compute]. Qed.

Lemma uuid_no_underscore l : valid_lookup l -> underscore ∉ l.
Proof.
  unfold valid_lookup, is_uuid. intros H Hin.
  pose proof (fields_join dash l []) as Hj. simpl in Hj.
  destruct (fields dash l []) as [|a [|b [|c [|d [|e [|]]]]]]; try done.
  unfold hex_group in H. bsimpl. rewrite Hj in Hin. simpl in Hin.
  assert (Hno : forall x, forallb is_hex x = true -> underscore ∉ x).
  { intros x Hx. eapply forallb_not_elem; [exact Hx|by vm_compute]. }
  assert (underscore <> dash) by done.
  rewrite !elem_of_app, !elem_of_cons, !elem_of_app, !elem_of_cons, !elem_of_app, !elem_of_cons,
    !elem_of_app, !elem_of_cons, app_nil_r in Hin.
  pose proof (Hno a); pose proof (Hno b); pose proof (Hno c); pose proof (Hno d); pose proof (Hno e).
  tauto.
Qed.

(** ** The limiter's map *)
Lemma oldest_in l k b : oldest l = Some (k, b) -> (k, b) ∈ l.
Proof.
  revert k b. induction l as [|x l IH]; intros k b; simpl; [done|].
  destruct (oldest l) as [[k' b']|] eqn:E.
  - case_if; intros [= <- <-] || intros [= ->]; [|set_solver]. apply elem_of_cons. right. by apply IH.
  - intros [= ->]. set_solver.
Qed.

Lemma oldest_None l : oldest l = None -> l = [].
Proof. destruct l as [|x l]; [done|]. simpl. destruct (oldest l); [case_if|]; done. Qed.

Lemma prune_size (now : Z) (m : Buckets) : (size (prune now m) <= size m)%nat.
Proof. apply map_subseteq_size, map_filter_subseteq. Qed.

Lemma make_room_size (now : Z) (m : Buckets) :
  (size m <= kMaxBuckets)%nat -> (size (make_room now m) < kMaxBuckets)%nat.
Proof.
  intros Hm. unfold make_room. destruct (Nat.leb_spec kMaxBuckets (size m)); [|done].
  pose proof (prune_size now m).
  destruct (Nat.leb_spec kMaxBuckets (size (prune now m))); [|done].
  destruct (oldest (map_to_list (prune now m))) as [[k b]|] eqn:E.
  - apply oldest_in, elem_of_map_to_list in E. rewrite map_size_delete_Some by eauto.
    unfold kMaxBuckets in *. lia.
  - apply oldest_None in E. apply map_to_list_empty_iff in E. rewrite E, map_size_empty in *.
    unfold kMaxBuckets in *. lia.
Qed.

Lemma make_room_id (now : Z) (m : Buckets) : (size m < kMaxBuckets)%nat -> make_room now m = m.
Proof. intros H. unfold make_room. destruct (Nat.leb_spec kMaxBuckets (size m)); [lia|done]. Qed.

Definition valid_policy (p : RateLimitPolicy) : Prop := 0 < p_max_attempts p /\ 0 < window p.

Lemma check_limit_unfold m key policy now :
  key <> [] -> valid_policy policy -> 
  check_limit m key policy now =
  (let m := make_room now m in
   let b := touch policy now (m !! key) in
   if p_max_attempts policy <=? count b then
     Ok (<[key := b]> m, mkLimit false 0 (retry policy now (window_start b)))
   else Ok (<[key := mkBucket (window_start b) (last_seen b) (count b + 1)]> m,
            mkLimit true (p_max_attempts policy - (count b + 1)) 0)).
Proof.
  intros Hk [Hm Hw]. unfold check_limit. destruct key; [done|]. simpl.
  rewrite (proj2 (Z.eqb_neq _ _)), (proj2 (Z.leb_gt (window policy) 0)) by lia. done.
Qed.

(** Repeated attempts under one key. *)
Fixpoint attempts_run (m : Buckets) (key : str) (policy : RateLimitPolicy) (times : list Z) :
  result LimitError (Buckets * nat) :=
  match times with
  | [] => Ok (m, 0%nat)
  | t :: ts =>
      let? '(m', d) := check_limit m key policy t in
      let? '(m'', n) := attempts_run m' key policy ts in
      Ok (m'', ((if allowed d then 1 else 0) + n)%nat)
  end.

Ltac count_eq :=
  match goal with |- Ok (_, ?a) = Ok (_, ?b) => replace a with b by (cbn [length]; lia); reflexivity end.

Lemma attempts_run_open m key policy t0 ls c times :
  key <> [] -> valid_policy policy -> (size m < kMaxBuckets)%nat ->
  m !! key = Some (mkBucket t0 ls c) -> 0 < c <= p_max_attempts policy ->
  Forall (fun t => t - t0 < window policy * second) times ->
  exists m', attempts_run m key policy times =
    Ok (m', Nat.min (length times) (Z.to_nat (p_max_attempts policy - c))).
Proof.
  intros Hk Hp. revert m ls c. induction times as [|t times IH]; intros m ls c Hs Hm Hc Ht.
  { by exists m. }
  apply Forall_cons in Ht as [Ht0 Ht]. cbn [attempts_run].
  rewrite check_limit_unfold by done. cbv zeta. rewrite make_room_id, Hm by done.
  assert (touch policy t (Some (mkBucket t0 ls c)) = mkBucket t0 t c) as ->.
  { unfold touch. simpl. rewrite (proj2 (Z.eqb_neq c 0)), (proj2 (Z.leb_gt _ _)) by lia. done. }
  cbn [count last_seen window_start]. destruct (Z.leb_spec (p_max_attempts policy) c) as [Hle|Hlt]; cbn [rbind allowed].
  - destruct (IH (<[key:=mkBucket t0 t c]> m) t c) as [m' ->]; try done.
    + rewrite map_size_insert_Some by eauto. done.
    + apply lookup_insert_eq.
    + exists m'. cbn [rbind allowed]. count_eq.
  - destruct (IH (<[key:=mkBucket t0 t (c + 1)]> m) t (c + 1)) as [m' ->]; try done; try lia.
    + rewrite map_size_insert_Some by eauto. done.
    + apply lookup_insert_eq.
    + exists m'. cbn [rbind allowed]. count_eq.
Qed.

Lemma token_parse_exact_aux raw p :
  parse raw = Ok p <->
  raw = token_raw (kind p) (lookup_id p) (secret p) /\ valid_lookup (lookup_id p) /\ valid_secret (secret p).
Proof.
  unfold parse. split.
  - destruct (fields underscore raw []) as [|a [|b [|c [|]]]] eqn:Ef; try done.
    apply fields_three_inv in Ef as (-> & _ & _ & _).
    destruct (is_uuid b) eqn:Eb; [|done].
    destruct (negb (is_empty c) && forallb is_secret_char c) eqn:Ec; [|done].
    assert (valid_secret c). { bsimpl. split; [|done]. intros ->. done. }
    repeat case_if; intros [= <-]; simpl; bsimpl; subst; done.
  - destruct p as [k l s]. simpl. intros (-> & Hl & Hs). unfold token_raw.
    rewrite fields_three.
    + rewrite Hl. destruct Hs as [Hne ->].
      replace (is_empty s) with false by (by destruct s). by destruct k.
    + destruct k; intros Hin; apply list_elem_of_In in Hin; vm_compute in Hin; intuition discriminate.
    + by apply uuid_no_underscore.
    + by apply secret_no_underscore.
Qed.

(** ** Properties *)

(** Share tokens parse exactly: a text is accepted exactly when it is the
    rendering of a kind, a UUID lookup id and a non-empty alphanumeric secret, and
    then parsing returns those three parts; so no two texts denote one token and
    every generated token reads back. *)
Theorem token_parse_exact raw p :
  parse raw = Ok p <->
  raw = token_raw (kind p) (lookup_id p) (secret p) /\ valid_lookup (lookup_id p) /\ valid_secret (secret p).
Proof. apply token_parse_exact_aux. Qed.

(** Redaction never shows a secret: the redacted text of a token depends on
    its kind and lookup id only, and a text that is neither a token nor a lookup
    id is replaced by a constant. *)
Theorem redact_hides_secret :
  (forall k l s1 s2, valid_lookup l -> valid_secret s1 -> valid_secret s2 ->
     redact (token_raw k l s1) = redact (token_raw k l s2)) /\
  (forall raw e, parse raw = Err e -> is_uuid raw = false -> redact raw = $"<redacted-share-token>").
Proof.
  assert (Hred : forall k l s, valid_lookup l -> valid_secret s ->
    redact (token_raw k l s) = prefix_for k ++ $"_" ++ l ++ $"_<redacted>").
  { intros k l s Hl Hs. unfold redact.
    by rewrite (proj2 (token_parse_exact_aux (token_raw k l s) (mkParsed k l s))). }
  split; [|intros raw e He Hu; unfold redact; by rewrite He, Hu].
  intros k l s1 s2 Hl H1 H2. by rewrite !Hred.
Qed.

Lemma redact_hides_secret_witness :
  redact (token_raw PublicShare $"00000000-0000-4000-8000-0000000000ab" $"aaa") =
  redact (token_raw PublicShare $"00000000-0000-4000-8000-0000000000ab" $"zzz9").
Proof.
  apply (proj1 redact_hides_secret); split || idtac; try discriminate; vm_compute; reflexivity.
Defined.

(** Hash domains never mix: the messages hashed for share tokens, session
    tokens, emails and email codes are equal only for the same domain and the
    same value, so under a collision-free hash a stored hash verifies exactly the
    secret and the kind it was made for. *)
Theorem hash_domains_separated (H : str -> str) (H_inj : forall a b, H a = H b -> a = b) :
  (forall k s k' s', verify H (hashSecret H k s) k' s' = true <-> k = k' /\ s = s') /\
  (forall code code', verifyCode H (hashCode H code) code' = true <-> code = code') /\
  (forall k s v, hashSecret H k s <> hashCode H v /\ hashSecret H k s <> hashEmail H v) /\
  (forall v w, hashCode H v <> hashEmail H w).
Proof.
  assert (Hm : forall a b v w, nul ∉ a -> nul ∉ b -> a ++ [nul] ++ v = b ++ [nul] ++ w -> a = b /\ v = w).
  { induction a as [|x a IH]; intros [|y b] v w Ha Hb He; simpl in *; simplify_eq; try done;
      [set_solver..|]. destruct (IH b v w) as [-> ->]; set_solver. }
  assert (Hd : nul ∉ $"vh/share-email-code/v1" /\ nul ∉ $"vh/share-email/v1" /\ forall k, nul ∉ domain_for k).
  { split_and!; [| |intros []]; intros Hin; apply list_elem_of_In in Hin; vm_compute in Hin; intuition discriminate. }
  destruct Hd as (Hc & He & Hk).
  unfold verify, verifyCode, hashSecret, hashCode, hashEmail, hashForDomain. split_and!.
  - intros k s k' s'. split; [|intros [-> ->]; by rewrite Nat.eqb_refl, eqb_refl].
    case_if; [done|]. rewrite eqb_eq. intros Heq%H_inj%Hm; [|done..]. destruct Heq as [Hkk ->].
    by destruct k, k'.
  - intros s s'. split; [|intros ->; by rewrite Nat.eqb_refl, eqb_refl].
    case_if; [done|]. rewrite eqb_eq. by intros [_ ->]%H_inj%Hm.
  - intros k s v. split; intros Heq%H_inj%Hm; try done; destruct Heq as [Hx _]; by destruct k.
  - intros v w Heq%H_inj%Hm; try done. by destruct Heq as [Hx _].
Qed.

Lemma hash_domains_separated_witness :
  verify id (hashSecret id PublicShare $"abc") PublicShare $"abc" = true /\
  (verify id (hashSecret id PublicShare $"abc") ShareSession $"abc" = true <-> PublicShare = ShareSession /\ $"abc" = $"abc").
Proof.
  split; [vm_compute; reflexivity|].
  apply (proj1 (hash_domains_separated id (fun a b H => H))).
Defined.

(** The limiter's table is bounded: a check on a table of at most
    [kMaxBuckets] entries, if it returns, leaves at most [kMaxBuckets] entries, the
    checked key among them. *)
Theorem limiter_table_bounded m key policy now m' d :
  (size m <= kMaxBuckets)%nat -> check_limit m key policy now = Ok (m', d) ->
  (size m' <= kMaxBuckets)%nat /\ is_Some (m' !! key) /\ (size (prune now m') <= kMaxBuckets)%nat.
Proof.
  intros Hm. unfold check_limit. repeat (case_if; [|done]).
  pose proof (make_room_size now m Hm) as Hs.
  assert (Hins : forall b, (size (<[key:=b]> (make_room now m)) <= kMaxBuckets)%nat).
  { intros b. destruct (make_room now m !! key) eqn:El.
    - rewrite map_size_insert_Some by eauto. lia.
    - rewrite map_size_insert_None by done. lia. }
  assert (Hall : forall b, (size (prune now (<[key:=b]> (make_room now m))) <= kMaxBuckets)%nat).
  { intros b. pose proof (prune_size now (<[key:=b]> (make_room now m))). specialize (Hins b). lia. }
  case_if; intros [= <- <-]; rewrite lookup_insert_eq; eauto.
Qed.

Lemma limiter_table_bounded_witness :
  exists m' d, check_limit ∅ $"k" (mkPolicy 3 60) 5 = Ok (m', d) /\
  (size m' <= kMaxBuckets)%nat /\ is_Some (m' !! $"k") /\ (size (prune 5 m') <= kMaxBuckets)%nat.
Proof.
  exists {[ $"k" := mkBucket 5 5 1 ]}, (mkLimit true 2 0). split; [reflexivity|].
  apply (limiter_table_bounded ∅ $"k" (mkPolicy 3 60) 5 _ (mkLimit true 2 0)); [|reflexivity].
  rewrite map_size_empty. apply Nat.le_0_l.
Defined.

(** The limiter enforces its budget: when no eviction is pending, a fresh key
    gets exactly [max_attempts] permissions among any number of attempts made
    before its window has passed; every further attempt in the window is denied. *)
Theorem limiter_budget m key policy t0 times :
  key <> [] -> valid_policy policy -> (S (size m) < kMaxBuckets)%nat -> m !! key = None ->
  Forall (fun t => t - t0 < window policy * second) times ->
  exists m', attempts_run m key policy (t0 :: times) =
    Ok (m', Nat.min (S (length times)) (Z.to_nat (p_max_attempts policy))).
Proof.
  intros Hk Hp Hs Hm Ht. cbn [attempts_run].
  rewrite check_limit_unfold by done. cbv zeta. rewrite make_room_id, Hm by (done || lia).
  assert (touch policy t0 None = mkBucket t0 t0 0) as -> by done.
  cbn [count last_seen window_start]. pose proof Hp as [Hmax Hw].
  rewrite (proj2 (Z.leb_gt _ _)) by lia. cbn [rbind allowed]. change (0 + 1) with 1.
  destruct (attempts_run_open (<[key:=mkBucket t0 t0 1]> m) key policy t0 t0 1 times) as [m' ->];
    try done; try lia.
  - rewrite map_size_insert_None by done. lia.
  - apply lookup_insert_eq.
  - exists m'. cbn [rbind allowed]. count_eq.
Qed.

Lemma limiter_budget_witness :
  exists m', attempts_run ∅ $"k" (mkPolicy 3 60) [0; 1; 2; 3; 4] = Ok (m', 3%nat).
Proof.
  apply (limiter_budget ∅ $"k" (mkPolicy 3 60) 0 [1; 2; 3; 4]).
  - discriminate.
  - split; reflexivity.
  - rewrite map_size_empty. apply Nat.ltb_lt. vm_compute. reflexivity.
  - reflexivity.
  - repeat constructor.
Defined.

(** [peek] predicts [check]: with a valid policy and no eviction pending both
    give the same verdict and the same retry delay, and an allowed check leaves
    one permission less than [peek] reported. *)
Theorem peek_predicts_check m key policy now :
  key <> [] -> valid_policy policy -> (size m < kMaxBuckets)%nat ->
  exists d m' d', peek m key policy now = Ok d /\ check_limit m key policy now = Ok (m', d') /\
    allowed d = allowed d' /\ retry_after d = retry_after d' /\
    remaining d' = if allowed d then remaining d - 1 else 0.
Proof.
  intros Hk Hp Hs. rewrite check_limit_unfold by done. cbv zeta. rewrite make_room_id by done.
  unfold peek. destruct key as [|c key]; [done|]. simpl is_empty. cbv iota.
  destruct Hp as [Hmax Hw]. rewrite (proj2 (Z.eqb_neq _ _)) by lia. simpl negb. cbv iota.
  unfold touch. destruct (m !! (c :: key)) as [[ws ls n]|]; simpl.
  - destruct (Z.leb_spec (window policy * second) (now - ws)); simpl.
    + rewrite orb_true_r. simpl. rewrite (proj2 (Z.leb_gt _ _)) by lia.
      do 3 eexists. split_and!; [done|done|done|done|simpl; lia].
    + rewrite orb_false_r. destruct (Z.eqb_spec n 0) as [->|]; simpl.
      * rewrite (proj2 (Z.leb_gt _ _)) by lia.
        do 3 eexists. split_and!; [done|done|done|done|simpl; lia].
      * destruct (Z.leb_spec (p_max_attempts policy) n);
          do 3 eexists; split_and!; try done; simpl; lia.
  - rewrite (proj2 (Z.leb_gt _ _)) by lia.
    do 3 eexists. split_and!; [done|done|done|done|simpl; lia].
Qed.

Lemma peek_predicts_check_witness :
  exists d m' d', peek ∅ $"k" (mkPolicy 3 60) 0 = Ok d /\
    check_limit ∅ $"k" (mkPolicy 3 60) 0 = Ok (m', d') /\ allowed d = allowed d' /\
    retry_after d = retry_after d' /\ remaining d' = if allowed d then remaining d - 1 else 0.
Proof.
  apply (peek_predicts_check ∅ $"k" (mkPolicy 3 60) 0).
  - discriminate.
  - split; reflexivity.
  - rewrite map_size_empty. apply Nat.ltb_lt. vm_compute. reflexivity.
Defined.
