(* ===== verification/ShareStore.v ===== *)
(** * Link sharing: the tables and their queries

    The rows of [share/Link.cpp], [share/Session.cpp], [share/EmailChallenge.cpp],
    [share/Upload.cpp] and [share/AuditEvent.cpp], and the queries of [db/query/share] with the
    statements of [db/preparedStatements/share], as functions of the tables that fail or
    return new ones.  A query first checks its arguments; its transaction may fail by the
    server.  Times are whole seconds; a table is a list in the order of insertion.  The
    lengths of VARCHAR columns are not checked. *)
From stdpp Require Import sorting.
From S2P Require Import Prelude Monad Paths Glob Perm FsPolicy ShareTokens SharePolicy ShareScope.
#[local] Open Scope Z_scope.

#[export] Instance TargetType_eq : EqDecision TargetType. Proof. solve_decision. Defined.
#[export] Instance LinkType_eq : EqDecision LinkType. Proof. solve_decision. Defined.
#[export] Instance AccessMode_eq : EqDecision AccessMode. Proof. solve_decision. Defined.
#[export] Instance DuplicatePolicy_eq : EqDecision DuplicatePolicy. Proof. solve_decision. Defined.
#[export] Instance UploadStatus_eq : EqDecision UploadStatus. Proof. solve_decision. Defined.

(** What the manager throws: the errors of [ops], [std::invalid_argument],
    [std::runtime_error], errors of the database, and those of the parts it calls. *)
Inductive Error :=
| EDenied (m : str) | ENotFound (m : str) | EConflict (m : str) | EInvalid (m : str)
| EArgument (m : str) | ERuntime (m : str) | EDatabase (m : str)
| EShare (e : ShareError) | EPolicy (e : PolicyError) | EGlob (e : GlobError).

(** ** Rows *)

(** A UUID is compared whatever the case of its text, and read back in lower case. *)
Definition key (uuid : str) : str := map tolower uuid.

(** *** Links *)
Module Link.
Record Link := mk {
  id : str; token_lookup_id : str; token_hash : str; created_by : Z; updated_by : option Z; revoked_by : option Z; vault_id : Z; root_entry_id : Z;
  root_path : str; target_type : TargetType; link_type : LinkType; access_mode : AccessMode; allowed_ops : Z; name : option str; public_label :
  option str; description : option str; expires_at : option Z; revoked_at : option Z; disabled_at : option Z; created_at : Z; updated_at : Z;
  last_accessed_at : option Z; access_count : Z; download_count : Z; upload_count : Z; max_downloads : option Z; max_upload_files : option Z;
  max_upload_size_bytes : option Z; max_upload_total_bytes : option Z; duplicate_policy : DuplicatePolicy; allowed_mime_types : list str;
  blocked_mime_types : list str; allowed_extensions : list str; blocked_extensions : list str; metadata : str }.
Definition metadata_text (l : Link) : str := if is_empty (metadata l) then $"{}" else metadata l.
Definition updated (new : Link) (now : Z) (l : Link) : Link :=
  mk (id l) (token_lookup_id l) (token_hash l) (created_by l) (updated_by new) (revoked_by l) (vault_id l) (root_entry_id l) (root_path l)
    (target_type new) (link_type new) (access_mode new) (allowed_ops new) (name new) (public_label new) (description new) (expires_at new)
    (revoked_at l) (disabled_at new) (created_at l) now (last_accessed_at l) (access_count l) (download_count l) (upload_count l) (max_downloads new)
    (max_upload_files new) (max_upload_size_bytes new) (max_upload_total_bytes new) (duplicate_policy new) (allowed_mime_types new)
    (blocked_mime_types new) (allowed_extensions new) (blocked_extensions new) (metadata_text new).
Definition revoked (by_ now : Z) (l : Link) : Link :=
  mk (id l) (token_lookup_id l) (token_hash l) (created_by l) (updated_by l) (Some by_) (vault_id l) (root_entry_id l) (root_path l) (target_type l)
    (link_type l) (access_mode l) (allowed_ops l) (name l) (public_label l) (description l) (expires_at l) (Some now) (disabled_at l) (created_at l)
    now (last_accessed_at l) (access_count l) (download_count l) (upload_count l) (max_downloads l) (max_upload_files l) (max_upload_size_bytes l)
    (max_upload_total_bytes l) (duplicate_policy l) (allowed_mime_types l) (blocked_mime_types l) (allowed_extensions l) (blocked_extensions l)
    (metadata l).
Definition rotated (lookup hash : str) (by_ now : Z) (l : Link) : Link :=
  mk (id l) (key lookup) hash (created_by l) (Some by_) (revoked_by l) (vault_id l) (root_entry_id l) (root_path l) (target_type l) (link_type l)
    (access_mode l) (allowed_ops l) (name l) (public_label l) (description l) (expires_at l) (revoked_at l) (disabled_at l) (created_at l) now
    (last_accessed_at l) (access_count l) (download_count l) (upload_count l) (max_downloads l) (max_upload_files l) (max_upload_size_bytes l)
    (max_upload_total_bytes l) (duplicate_policy l) (allowed_mime_types l) (blocked_mime_types l) (allowed_extensions l) (blocked_extensions l)
    (metadata l).
Definition accessed (now : Z) (l : Link) : Link :=
  mk (id l) (token_lookup_id l) (token_hash l) (created_by l) (updated_by l) (revoked_by l) (vault_id l) (root_entry_id l) (root_path l)
    (target_type l) (link_type l) (access_mode l) (allowed_ops l) (name l) (public_label l) (description l) (expires_at l) (revoked_at l)
    (disabled_at l) (created_at l) now (Some now) (access_count l + 1) (download_count l) (upload_count l) (max_downloads l) (max_upload_files l)
    (max_upload_size_bytes l) (max_upload_total_bytes l) (duplicate_policy l) (allowed_mime_types l) (blocked_mime_types l) (allowed_extensions l)
    (blocked_extensions l) (metadata l).
Definition downloaded (now : Z) (l : Link) : Link :=
  mk (id l) (token_lookup_id l) (token_hash l) (created_by l) (updated_by l) (revoked_by l) (vault_id l) (root_entry_id l) (root_path l)
    (target_type l) (link_type l) (access_mode l) (allowed_ops l) (name l) (public_label l) (description l) (expires_at l) (revoked_at l)
    (disabled_at l) (created_at l) now (last_accessed_at l) (access_count l) (download_count l + 1) (upload_count l) (max_downloads l)
    (max_upload_files l) (max_upload_size_bytes l) (max_upload_total_bytes l) (duplicate_policy l) (allowed_mime_types l) (blocked_mime_types l)
    (allowed_extensions l) (blocked_extensions l) (metadata l).
Definition uploaded (now : Z) (l : Link) : Link :=
  mk (id l) (token_lookup_id l) (token_hash l) (created_by l) (updated_by l) (revoked_by l) (vault_id l) (root_entry_id l) (root_path l)
    (target_type l) (link_type l) (access_mode l) (allowed_ops l) (name l) (public_label l) (description l) (expires_at l) (revoked_at l)
    (disabled_at l) (created_at l) now (last_accessed_at l) (access_count l) (download_count l) (upload_count l + 1) (max_downloads l)
    (max_upload_files l) (max_upload_size_bytes l) (max_upload_total_bytes l) (duplicate_policy l) (allowed_mime_types l) (blocked_mime_types l)
    (allowed_extensions l) (blocked_extensions l) (metadata l).
Definition inserted (uuid : str) (now : Z) (l : Link) : Link :=
  mk (key uuid) (key (token_lookup_id l)) (token_hash l) (created_by l) None None (vault_id l) (root_entry_id l) (root_path l) (target_type l)
    (link_type l) (access_mode l) (allowed_ops l) (name l) (public_label l) (description l) (expires_at l) None None now now None 0 0 0
    (max_downloads l) (max_upload_files l) (max_upload_size_bytes l) (max_upload_total_bytes l) (duplicate_policy l) (allowed_mime_types l)
    (blocked_mime_types l) (allowed_extensions l) (blocked_extensions l) (metadata_text l).
Definition with_lists (allowed_mime blocked_mime allowed_ext blocked_ext : list str) (l : Link) : Link :=
  mk (id l) (token_lookup_id l) (token_hash l) (created_by l) (updated_by l) (revoked_by l) (vault_id l) (root_entry_id l) (root_path l)
    (target_type l) (link_type l) (access_mode l) (allowed_ops l) (name l) (public_label l) (description l) (expires_at l) (revoked_at l)
    (disabled_at l) (created_at l) (updated_at l) (last_accessed_at l) (access_count l) (download_count l) (upload_count l) (max_downloads l)
    (max_upload_files l) (max_upload_size_bytes l) (max_upload_total_bytes l) (duplicate_policy l) allowed_mime blocked_mime allowed_ext blocked_ext
    (metadata l).
Definition with_token (lookup hash : str) (l : Link) : Link :=
  mk (id l) lookup hash (created_by l) (updated_by l) (revoked_by l) (vault_id l) (root_entry_id l) (root_path l) (target_type l) (link_type l)
    (access_mode l) (allowed_ops l) (name l) (public_label l) (description l) (expires_at l) (revoked_at l) (disabled_at l) (created_at l)
    (updated_at l) (last_accessed_at l) (access_count l) (download_count l) (upload_count l) (max_downloads l) (max_upload_files l)
    (max_upload_size_bytes l) (max_upload_total_bytes l) (duplicate_policy l) (allowed_mime_types l) (blocked_mime_types l) (allowed_extensions l)
    (blocked_extensions l) (metadata l).
Definition with_creator (user : Z) (l : Link) : Link :=
  mk (id l) (token_lookup_id l) (token_hash l) user (updated_by l) (revoked_by l) (vault_id l) (root_entry_id l) (root_path l) (target_type l)
    (link_type l) (access_mode l) (allowed_ops l) (name l) (public_label l) (description l) (expires_at l) (revoked_at l) (disabled_at l)
    (created_at l) (updated_at l) (last_accessed_at l) (access_count l) (download_count l) (upload_count l) (max_downloads l) (max_upload_files l)
    (max_upload_size_bytes l) (max_upload_total_bytes l) (duplicate_policy l) (allowed_mime_types l) (blocked_mime_types l) (allowed_extensions l)
    (blocked_extensions l) (metadata l).
Definition with_updater (user : Z) (l : Link) : Link :=
  mk (id l) (token_lookup_id l) (token_hash l) (created_by l) (Some user) (revoked_by l) (vault_id l) (root_entry_id l) (root_path l) (target_type l)
    (link_type l) (access_mode l) (allowed_ops l) (name l) (public_label l) (description l) (expires_at l) (revoked_at l) (disabled_at l)
    (created_at l) (updated_at l) (last_accessed_at l) (access_count l) (download_count l) (upload_count l) (max_downloads l) (max_upload_files l)
    (max_upload_size_bytes l) (max_upload_total_bytes l) (duplicate_policy l) (allowed_mime_types l) (blocked_mime_types l) (allowed_extensions l)
    (blocked_extensions l) (metadata l).
Definition with_root (path : str) (l : Link) : Link :=
  mk (id l) (token_lookup_id l) (token_hash l) (created_by l) (updated_by l) (revoked_by l) (vault_id l) (root_entry_id l) path (target_type l)
    (link_type l) (access_mode l) (allowed_ops l) (name l) (public_label l) (description l) (expires_at l) (revoked_at l) (disabled_at l)
    (created_at l) (updated_at l) (last_accessed_at l) (access_count l) (download_count l) (upload_count l) (max_downloads l) (max_upload_files l)
    (max_upload_size_bytes l) (max_upload_total_bytes l) (duplicate_policy l) (allowed_mime_types l) (blocked_mime_types l) (allowed_extensions l)
    (blocked_extensions l) (metadata l).
Definition kept (existing l : Link) : Link :=
  mk (id existing) (token_lookup_id existing) (token_hash existing) (created_by existing) (updated_by l) (revoked_by l) (vault_id existing)
    (root_entry_id existing) (root_path existing) (target_type existing) (link_type l) (access_mode l) (allowed_ops l) (name l) (public_label l)
    (description l) (expires_at l) (revoked_at l) (disabled_at l) (created_at l) (updated_at l) (last_accessed_at l) (access_count l)
    (download_count l) (upload_count l) (max_downloads l) (max_upload_files l) (max_upload_size_bytes l) (max_upload_total_bytes l)
    (duplicate_policy l) (allowed_mime_types l) (blocked_mime_types l) (allowed_extensions l) (blocked_extensions l) (metadata l).

Definition grant (l : Link) : Grant :=
  mkGrant (vault_id l) (root_entry_id l) (root_path l) (target_type l) (allowed_ops l) (max_downloads l) (max_upload_files l)
    (max_upload_size_bytes l) (max_upload_total_bytes l) (duplicate_policy l) (allowed_mime_types l) (blocked_mime_types l)
    (allowed_extensions l) (blocked_extensions l).
Definition times (l : Link) : LinkTimes := mkLink (expires_at l) (revoked_at l) (disabled_at l) (access_mode l).
Definition isActive (l : Link) (now : Z) : bool := link_isActive (times l) now.
Definition requiresEmail (l : Link) : bool := ShareTokens.requiresEmail (times l).

(** The CHECK constraints of [share_link]. *)
Definition positive (o : option Z) : bool := match o with Some n => 0 <? n | None => true end.
Definition ops_of (mask : Z) (l : Link) : bool := negb (Z.land (allowed_ops l) mask =? 0).
Definition constraints (l : Link) : bool :=
  starts_with (root_path l) $"/"
  && match expires_at l with Some e => created_at l <? e | None => true end
  && positive (max_downloads l) && positive (max_upload_files l) && positive (max_upload_size_bytes l) && positive (max_upload_total_bytes l)
  && ((link_type l !== LUpload) || (target_type l == Directory))
  && ((link_type l !== LDownload) || ops_of 15 l)
  && ((duplicate_policy l !== DupOverwrite) || ops_of 64 l)
  && ((target_type l !== File) || negb (ops_of 32 l))
  && ((link_type l !== LUpload) || negb (ops_of 8 l)).
End Link.
#[export] Notation Link := Link.Link.

(** *** Sessions *)
Module Session.
Record Session := mk {
  id : str; share_id : str; session_token_lookup_id : str; session_token_hash : str; email_hash : option str; verified_at : option Z; created_at : Z;
  last_seen_at : Z; expires_at : Z; revoked_at : option Z; ip_address : option str; user_agent : option str }.
Definition inserted (uuid : str) (now : Z) (s : Session) : Session :=
  mk (key uuid) (key (share_id s)) (key (session_token_lookup_id s)) (session_token_hash s) (email_hash s) (verified_at s) now now (expires_at s) None
    (ip_address s) (user_agent s).
Definition verified (hash : str) (now : Z) (s : Session) : Session :=
  mk (id s) (share_id s) (session_token_lookup_id s) (session_token_hash s) (Some hash) (Some now) (created_at s) (last_seen_at s) (expires_at s)
    (revoked_at s) (ip_address s) (user_agent s).
Definition touched (now : Z) (s : Session) : Session :=
  mk (id s) (share_id s) (session_token_lookup_id s) (session_token_hash s) (email_hash s) (verified_at s) (created_at s) now (expires_at s)
    (revoked_at s) (ip_address s) (user_agent s).
Definition revoked (now : Z) (s : Session) : Session :=
  mk (id s) (share_id s) (session_token_lookup_id s) (session_token_hash s) (email_hash s) (verified_at s) (created_at s) (last_seen_at s)
    (expires_at s) (Some now) (ip_address s) (user_agent s).

Definition times (s : Session) : SessionTimes := mkSession (expires_at s) (revoked_at s) (verified_at s).
Definition isActive (s : Session) (now : Z) : bool := session_isActive (times s) now.
Definition isVerified (s : Session) : bool := ShareTokens.isVerified (times s).
End Session.
#[export] Notation Session := Session.Session.

(** *** E-mail challenges *)
Module Challenge.
Record Challenge := mk {
  id : str; share_id : str; share_session_id : option str; email_hash : str; code_hash : str; attempts : Z; max_attempts : Z; expires_at : Z;
  consumed_at : option Z; created_at : Z; ip_address : option str; user_agent : option str }.
Definition inserted (uuid : str) (now : Z) (c : Challenge) : Challenge :=
  mk (key uuid) (key (share_id c)) (option_map key (share_session_id c)) (email_hash c) (code_hash c) (attempts c) (max_attempts c) (expires_at c)
    None now (ip_address c) (user_agent c).
Definition attempted (c : Challenge) : Challenge :=
  mk (id c) (share_id c) (share_session_id c) (email_hash c) (code_hash c) (attempts c + 1) (max_attempts c) (expires_at c) (consumed_at c)
    (created_at c) (ip_address c) (user_agent c).
Definition consumed (now : Z) (c : Challenge) : Challenge :=
  mk (id c) (share_id c) (share_session_id c) (email_hash c) (code_hash c) (attempts c) (max_attempts c) (expires_at c) (Some now) (created_at c)
    (ip_address c) (user_agent c).

Definition canAttempt (c : Challenge) (now : Z) : bool :=
  ShareTokens.canAttempt (mkChallenge (attempts c) (max_attempts c) (expires_at c) (consumed_at c)) now.
Definition constraints (c : Challenge) : bool :=
  (0 <? max_attempts c) && (0 <=? attempts c) && (created_at c <? expires_at c).
End Challenge.
#[export] Notation Challenge := Challenge.Challenge.

(** *** Uploads *)
Module Upload.
Record Upload := mk {
  id : str; share_id : str; share_session_id : str; target_parent_entry_id : Z; target_path : str; tmp_path : option str; original_filename : str;
  resolved_filename : str; expected_size_bytes : Z; received_size_bytes : Z; mime_type : option str; content_hash : option str; created_entry_id :
  option Z; status : UploadStatus; error : option str; started_at : Z; completed_at : option Z }.
Definition inserted (uuid : str) (now : Z) (u : Upload) : Upload :=
  mk (key uuid) (key (share_id u)) (key (share_session_id u)) (target_parent_entry_id u) (target_path u) (tmp_path u) (original_filename u)
    (resolved_filename u) (expected_size_bytes u) (received_size_bytes u) (mime_type u) (content_hash u) (created_entry_id u) (status u) (error u) now
    None.
Definition received (bytes : Z) (u : Upload) : Upload :=
  mk (id u) (share_id u) (share_session_id u) (target_parent_entry_id u) (target_path u) (tmp_path u) (original_filename u) (resolved_filename u)
    (expected_size_bytes u) (received_size_bytes u + bytes) (mime_type u) (content_hash u) (created_entry_id u)
    (if status u == Pending then Receiving else status u) (error u) (started_at u) (completed_at u).
Definition completed (entry : Z) (hash mime : str) (now : Z) (u : Upload) : Upload :=
  mk (id u) (share_id u) (share_session_id u) (target_parent_entry_id u) (target_path u) (tmp_path u) (original_filename u) (resolved_filename u)
    (expected_size_bytes u) (received_size_bytes u) (Some mime) (Some hash) (Some entry) Complete (error u) (started_at u) (Some now).
Definition failed (why : str) (now : Z) (u : Upload) : Upload :=
  mk (id u) (share_id u) (share_session_id u) (target_parent_entry_id u) (target_path u) (tmp_path u) (original_filename u) (resolved_filename u)
    (expected_size_bytes u) (received_size_bytes u) (mime_type u) (content_hash u) (created_entry_id u) Failed (Some why) (started_at u) (Some now).
Definition cancelled (now : Z) (u : Upload) : Upload :=
  mk (id u) (share_id u) (share_session_id u) (target_parent_entry_id u) (target_path u) (tmp_path u) (original_filename u) (resolved_filename u)
    (expected_size_bytes u) (received_size_bytes u) (mime_type u) (content_hash u) (created_entry_id u) Cancelled (error u) (started_at u) (Some now).

Definition isTerminal (u : Upload) : bool := ShareTokens.isTerminal (status u).
Definition exceedsExpectedSize (u : Upload) (next_bytes : Z) : bool :=
  ShareTokens.exceedsExpectedSize (expected_size_bytes u) (received_size_bytes u) next_bytes.
Definition active (u : Upload) : bool := (status u == Pending) || (status u == Receiving).
Definition constraints (u : Upload) : bool :=
  starts_with (target_path u) $"/" && (0 <=? expected_size_bytes u) && (0 <=? received_size_bytes u)
  && (received_size_bytes u <=? expected_size_bytes u).
End Upload.

(** *** Audit events *)
Module Audit.
Record Audit := mk {
  share_id : option str; share_session_id : option str; actor_type : AuditActorType; actor_user_id : option Z; event_type : str; vault_id : option Z;
  target_entry_id : option Z; target_path : option str; status : AuditStatus; bytes_transferred : option Z; error_code : option str; error_message :
  option str; ip_address : option str; user_agent : option str }.
Definition human (user : Z) (e : Audit) : Audit :=
  mk (share_id e) (share_session_id e) OwnerUser (Some user) (event_type e) (vault_id e) (target_entry_id e) (target_path e) (status e)
    (bytes_transferred e) (error_code e) (error_message e) (ip_address e) (user_agent e).
Definition on_link (share : option str) (vault entry : Z) (path : str) (e : Audit) : Audit :=
  mk share (share_session_id e) (actor_type e) (actor_user_id e) (event_type e) (Some vault) (Some entry) (Some path) (status e) (bytes_transferred e)
    (error_code e) (error_message e) (ip_address e) (user_agent e).
Definition by_principal (share session : str) (vault entry : Z) (e : Audit) : Audit :=
  mk (Some share) (Some session) SharePrincipal (actor_user_id e) (event_type e) (Some vault) (Some entry) (target_path e) (status e)
    (bytes_transferred e) (error_code e) (error_message e) (ip_address e) (user_agent e).
Definition denied (code message : str) (e : Audit) : Audit :=
  mk (share_id e) (share_session_id e) (actor_type e) (actor_user_id e) (event_type e) (vault_id e) (target_entry_id e) (target_path e) Denied
    (bytes_transferred e) (Some code) (if is_empty message then error_message e else Some message) (ip_address e) (user_agent e).
Definition failing (code message : option str) (e : Audit) : Audit :=
  mk (share_id e) (share_session_id e) (actor_type e) (actor_user_id e) (event_type e) (vault_id e) (target_entry_id e) (target_path e) (status e)
    (bytes_transferred e) code message (ip_address e) (user_agent e).
Definition as_principal (e : Audit) : Audit :=
  mk (share_id e) (share_session_id e) SharePrincipal (actor_user_id e) (event_type e) (vault_id e) (target_entry_id e) (target_path e) (status e)
    (bytes_transferred e) (error_code e) (error_message e) (ip_address e) (user_agent e).
Definition of_session (share session : option str) (e : Audit) : Audit :=
  mk share session (actor_type e) (actor_user_id e) (event_type e) (vault_id e) (target_entry_id e) (target_path e) (status e) (bytes_transferred e)
    (error_code e) (error_message e) (ip_address e) (user_agent e).
Definition at_session (session : str) (e : Audit) : Audit :=
  mk (share_id e) (Some session) (actor_type e) (actor_user_id e) (event_type e) (vault_id e) (target_entry_id e) (target_path e) (status e)
    (bytes_transferred e) (error_code e) (error_message e) (ip_address e) (user_agent e).
Definition from (ip agent : option str) (e : Audit) : Audit :=
  mk (share_id e) (share_session_id e) (actor_type e) (actor_user_id e) (event_type e) (vault_id e) (target_entry_id e) (target_path e) (status e)
    (bytes_transferred e) (error_code e) (error_message e) ip agent.
Definition to_entry (entry : Z) (e : Audit) : Audit :=
  mk (share_id e) (share_session_id e) (actor_type e) (actor_user_id e) (event_type e) (vault_id e) (Some entry) (target_path e) (status e)
    (bytes_transferred e) (error_code e) (error_message e) (ip_address e) (user_agent e).
Definition to_path (path : str) (e : Audit) : Audit :=
  mk (share_id e) (share_session_id e) (actor_type e) (actor_user_id e) (event_type e) (vault_id e) (target_entry_id e) (Some path) (status e)
    (bytes_transferred e) (error_code e) (error_message e) (ip_address e) (user_agent e).
Definition in_vault (vault : Z) (e : Audit) : Audit :=
  mk (share_id e) (share_session_id e) (actor_type e) (actor_user_id e) (event_type e) (Some vault) (target_entry_id e) (target_path e) (status e)
    (bytes_transferred e) (error_code e) (error_message e) (ip_address e) (user_agent e).
Definition moving (bytes : option Z) (e : Audit) : Audit :=
  mk (share_id e) (share_session_id e) (actor_type e) (actor_user_id e) (event_type e) (vault_id e) (target_entry_id e) (target_path e) (status e)
    bytes (error_code e) (error_message e) (ip_address e) (user_agent e).

End Audit.
#[export] Notation Audit := Audit.Audit.

(** *** Recipients and vault roles of a link *)
Inductive Subject := PublicSubject | ActorSubject (recipient : Z).
#[export] Instance Subject_eq : EqDecision Subject. Proof. solve_decision. Defined.
(** An override as the tables keep it: the pattern is its text. *)
Record OverrideRow := mkOverrideRow { ov_permission : str; ov_glob : str; ov_enabled : bool; ov_effect : OverrideOpt }.
Record Recipient := mkRecipient { rc_id : Z; rc_share_id : str; rc_email_hash : str; rc_enabled : bool }.
Record Assignment := mkAssignment {
  as_id : Z; as_share_id : str; as_vault_id : Z; as_role_id : Z; as_subject : Subject; as_enabled : bool; as_overrides : list OverrideRow }.
(** [link_share_vault_role], only read and deleted. *)
Record LegacyRole := mkLegacy { lg_share_id : str; lg_role_id : Z; lg_overrides : list OverrideRow }.
(** A [role::Vault] as it is read: its filesystem permissions, and whether it came with an assignment. *)
Record AssignedRole := mkAssigned { ar_fs : Filesystem; ar_assignment : option (Subject * Z) }.
(** A row of [vault_role]. *)
Record RoleTemplate := mkTemplate { rt_id : Z; rt_files : Files; rt_directories : Directories }.

Record Tables := mkTables {
  links : list Link; sessions : list Session; challenges : list Challenge; uploads : list Upload.Upload;
  recipients : list Recipient; assignments : list Assignment; legacy : list LegacyRole; events : list Audit; next_id : Z }.
Definition with_links l t := mkTables l (sessions t) (challenges t) (uploads t) (recipients t) (assignments t) (legacy t) (events t) (next_id t).
Definition with_sessions l t := mkTables (links t) l (challenges t) (uploads t) (recipients t) (assignments t) (legacy t) (events t) (next_id t).
Definition with_challenges l t := mkTables (links t) (sessions t) l (uploads t) (recipients t) (assignments t) (legacy t) (events t) (next_id t).
Definition with_uploads l t := mkTables (links t) (sessions t) (challenges t) l (recipients t) (assignments t) (legacy t) (events t) (next_id t).
Definition with_recipients l n t := mkTables (links t) (sessions t) (challenges t) (uploads t) l (assignments t) (legacy t) (events t) n.
Definition with_assignments l n t := mkTables (links t) (sessions t) (challenges t) (uploads t) (recipients t) l (legacy t) (events t) n.
Definition with_legacy l t := mkTables (links t) (sessions t) (challenges t) (uploads t) (recipients t) (assignments t) l (events t) (next_id t).
Definition with_events l t := mkTables (links t) (sessions t) (challenges t) (uploads t) (recipients t) (assignments t) (legacy t) l (next_id t).

(** ** Outside

    The server may fail a transaction; clocks advance; ids, tokens and codes are drawn; the
    configuration, the vault table, the role templates and the file entries belong to other
    parts. *)
Record SharingConfig := mkSharing { enabled : bool; enable_anonymous : bool; enable_email_validated : bool }.
Class Outside (W : Type) := {
  transaction_fails : W -> option str * W; read_clock : W -> Z * W; db_now : W -> Z; gen_random_uuid : W -> str * W;
  draw_token : W -> (str * str) * W; draw_code : W -> str * W; sharing : W -> SharingConfig; vault_deleted : W -> Z -> bool;
  role_by_id : W -> Z -> option RoleTemplate; role_by_name : W -> str -> option RoleTemplate; entry_by_id : W -> Z -> option Entry }.
(** The permission table's bit positions, and the order of texts of the database. *)
Class Registry := { permission_bit : str -> option Z; collate : str -> str -> bool }.
(** How the server writes a TEXT[] value. *)
Class ArrayText := { array_out : list str -> str }.

(** The manager's world: tables, outside, the policy epoch, and the audit event of the
    running operation. *)
Record World (W : Type) := mkWorld { tables : Tables; outside : W; epoch : Z; draft : Audit }.
Arguments mkWorld {W}. Arguments tables {W}. Arguments outside {W}. Arguments epoch {W}. Arguments draft {W}.

(** [parse_pg_text_array]: the elements, the current element and whether a quote is open. *)
Definition quote : Ascii.ascii := "034"%char.
Fixpoint pg_elements (s : str) (current : str) (quoted : bool) : list str :=
  match s with
  | [] => if is_empty current then [] else [current]
  | c :: s' =>
      if c == quote then pg_elements s' current (negb quoted)
      else if (c == ","%char) && negb quoted then (if is_empty current then [] else [current]) ++ pg_elements s' [] quoted
      else pg_elements s' (current ++ [c]) quoted
  end.
Definition parse_pg_text_array (raw : str) : list str :=
  match raw with
  | "{"%char :: rest => if back rest == Some "}"%char then pg_elements (removelast rest) [] false else []
  | _ => []
  end.

Section Queries.
Context {W : Type} `{Outside W} `{Registry} `{ArrayText}.
Notation M A := (Monad.M (World W) Error A).

Definition lift {A} (r : result Error A) : M A := reads (fun _ => r).
Definition require (b : bool) (e : Error) : M unit := lift (if b then Ok tt else Err e).
Definition require_uuid (value what : str) : M unit := require (is_uuid value) (EArgument ($"Invalid share " ++ what)).

(** A transaction: the server may fail it; a failing body leaves the tables. *)
Definition exec {A} (f : W -> Tables -> result Error (A * Tables)) : M A := fun w =>
  let '(fails, o) := transaction_fails (outside w) in
  let w := mkWorld (tables w) o (epoch w) (draft w) in
  match fails with
  | Some m => (Err (EDatabase m), w)
  | None => match f o (tables w) with
            | Ok (a, t) => (Ok a, mkWorld t o (epoch w) (draft w))
            | Err e => (Err e, w)
            end
  end.
(** An INSERT with [DEFAULT gen_random_uuid()]. *)
Definition uuid : M str := fun w =>
  let '(u, o) := gen_random_uuid (outside w) in (Ok u, mkWorld (tables w) o (epoch w) (draft w)).
Definition insert {A} (f : str -> W -> Tables -> result Error (A * Tables)) : M A := let! u := uuid in exec (f u).

Definition constraint_violation : Error := EDatabase $"constraint violation".
Definition no_rows (table operation : str) : Error := ERuntime ($"Share " ++ table ++ $" mutation affected no rows: " ++ operation).

(** [UPDATE ... SET ... WHERE id = $1 AND ...] of one row, with its constraints. *)
Definition update_rows {A} (hit : A -> bool) (f : A -> A) (l : list A) : list A := map (fun a => if hit a then f a else a) l.
Definition update_one {A} (hit : A -> bool) (f : A -> A) (ok : A -> bool) (missing : Error) (l : list A) : result Error (A * list A) :=
  match find hit l with
  | None => Err missing
  | Some a => if ok (f a) then Ok (f a, update_rows hit f l) else Err constraint_violation
  end.

(** *** Links *)
Definition reread (values : list str) : list str := if is_empty values then [] else parse_pg_text_array (array_out values).
Definition reread_lists (l : Link) : Link :=
  Link.with_lists (reread (Link.allowed_mime_types l)) (reread (Link.blocked_mime_types l)) (reread (Link.allowed_extensions l))
    (reread (Link.blocked_extensions l)) l.
Definition live (o : W) (l : Link) : bool := negb (vault_deleted o (Link.vault_id l)).
Definition has_link (share : str) (t : Tables) : bool := existsb (fun l => Link.id l == key share) (links t).

Definition require_link (l : Link) : M unit :=
  require (negb (is_empty (Link.token_lookup_id l))) (EArgument $"Share token lookup id is required");;
  require (negb (is_empty (Link.token_hash l))) (EArgument $"Share token hash is required");;
  require (negb (Link.created_by l =? 0)) (EArgument $"Share creator is required");;
  require (negb (Link.vault_id l =? 0)) (EArgument $"Share vault is required");;
  require (negb (Link.root_entry_id l =? 0)) (EArgument $"Share root entry is required").
Definition link_insert (l : Link) (u : str) (o : W) (t : Tables) : result Error (Link * Tables) :=
  let row := reread_lists (Link.inserted u (db_now o) l) in
  if existsb (fun r => (Link.id r == Link.id row) || (Link.token_lookup_id r == Link.token_lookup_id row)) (links t)
     || negb (is_uuid (Link.token_lookup_id row)) || negb (Link.constraints row)
  then Err constraint_violation else Ok (row, with_links (links t ++ [row]) t).
Definition link_create (l : Link) : M Link := require_link l;; insert (link_insert l).
Definition link_get (id : str) : M (option Link) :=
  require_uuid id $"id";; exec (fun o t => Ok (find (fun l => (Link.id l == key id) && live o l) (links t), t)).
Definition link_getByLookupId (lookup : str) : M (option Link) :=
  require_uuid lookup $"lookup id";; exec (fun o t => Ok (find (fun l => (Link.token_lookup_id l == key lookup) && live o l) (links t), t)).

Record ListQueryParams := mkParams { limit_ : option Z; page_ : option Z }.
(** [ORDER BY created_at DESC LIMIT $2 OFFSET $3], with the page's 64-bit arithmetic. *)
Definition newer (a b : Link) : Prop := Link.created_at b <= Link.created_at a.
#[local] Instance newer_dec a b : base.Decision (newer a b).
Proof. unfold newer. apply _. Defined.
Definition page (p : ListQueryParams) : Z * Z :=
  let limit := default 100 (limit_ p) in
  let page := Z.max (default 1 (page_ p)) 1 in (limit, ((page - 1) * limit) mod 2 ^ 64).
Definition link_list (p : ListQueryParams) (keep : Link -> bool) : M (list Link) :=
  let '(limit, offset) := page p in
  exec (fun o t =>
    if (2 ^ 63 <=? limit) || (2 ^ 63 <=? offset) then Err (EDatabase $"LIMIT and OFFSET must not be negative")
    else Ok (take (Z.to_nat limit) (drop (Z.to_nat offset) (merge_sort newer (filter (fun l => keep l && live o l = true) (links t)))), t)).
Definition link_listForUser (user : Z) (p : ListQueryParams) : M (list Link) := link_list p (fun l => Link.created_by l =? user).
Definition link_listForVault (vault : Z) (p : ListQueryParams) : M (list Link) := link_list p (fun l => Link.vault_id l =? vault).

(** An UPDATE of the link with an id, unless it would repeat a lookup id; the new row is returned. *)
Definition link_write (id operation : str) (clash : list Link -> bool) (f : Z -> Link -> Link) : M Link :=
  require_uuid id $"id";;
  exec (fun o t =>
    let hit l := Link.id l == key id in
    let? '(row, l) := update_one hit (f (db_now o)) Link.constraints (no_rows $"link" operation) (links t) in
    if clash (links t) then Err constraint_violation else Ok (row, with_links l t)).
Definition never (_ : list Link) : bool := false.
Definition link_update (l : Link) : M Link := require_link l;; link_write (Link.id l) $"update" never (Link.updated (reread_lists l)).
Definition link_revoke (id : str) (by_ : Z) : M unit := link_write id $"revoke" never (Link.revoked by_);; ret tt.
Definition link_rotateToken (id lookup hash : str) (by_ : Z) : M unit :=
  require_uuid id $"id";; require_uuid lookup $"lookup id";;
  require (negb (is_empty hash)) (EArgument $"Share token hash is required");;
  link_write id $"rotateToken" (existsb (fun l => (Link.token_lookup_id l == key lookup) && (Link.id l !== key id))) (Link.rotated lookup hash by_);;
  ret tt.
Definition link_touchAccess (id : str) : M unit := link_write id $"touchAccess" never Link.accessed;; ret tt.
Definition link_incrementDownload (id : str) : M unit := link_write id $"incrementDownload" never Link.downloaded;; ret tt.
Definition link_incrementUpload (id : str) : M unit := link_write id $"incrementUpload" never Link.uploaded;; ret tt.
Definition below_limit (l : Link) : bool := match Link.max_downloads l with Some m => Link.download_count l <? m | None => true end.
Definition link_consumeDownload (id : str) : M bool :=
  require_uuid id $"id";;
  exec (fun o t =>
    let hit l := (Link.id l == key id) && below_limit l in
    Ok (existsb hit (links t), with_links (update_rows hit (Link.downloaded (db_now o)) (links t)) t)).

(** *** Sessions *)
Definition has_session (id : str) (t : Tables) : bool := existsb (fun s => Session.id s == key id) (sessions t).
Definition session_insert (s : Session) (u : str) (o : W) (t : Tables) : result Error (Session * Tables) :=
  let row := Session.inserted u (db_now o) s in
  if existsb (fun r => (Session.id r == Session.id row) || (Session.session_token_lookup_id r == Session.session_token_lookup_id row)) (sessions t)
     || negb (has_link (Session.share_id row) t)
  then Err constraint_violation else Ok (row, with_sessions (sessions t ++ [row]) t).
Definition session_create (s : Session) : M Session :=
  require_uuid (Session.share_id s) $"session share id";; require_uuid (Session.session_token_lookup_id s) $"session lookup id";;
  require (negb (is_empty (Session.session_token_hash s))) (EArgument $"Share session token hash is required");;
  insert (session_insert s).
Definition session_get (id : str) : M (option Session) :=
  require_uuid id $"session id";; exec (fun _ t => Ok (find (fun s => Session.id s == key id) (sessions t), t)).
Definition session_getByLookupId (lookup : str) : M (option Session) :=
  require_uuid lookup $"session lookup id";; exec (fun _ t => Ok (find (fun s => Session.session_token_lookup_id s == key lookup) (sessions t), t)).
Definition session_write (id operation : str) (f : Z -> Session -> Session) : M unit :=
  require_uuid id $"session id";;
  exec (fun o t =>
    let? '(_, l) := update_one (fun s => Session.id s == key id) (f (db_now o)) (fun _ => true) (no_rows $"session" operation) (sessions t) in
    Ok (tt, with_sessions l t)).
Definition session_verify (id hash : str) : M unit :=
  require (negb (is_empty hash)) (EArgument $"Share session email hash is required");; session_write id $"verify" (Session.verified hash).
Definition session_touch (id : str) : M unit := session_write id $"touch" Session.touched.
Definition session_revoke (id : str) : M unit := session_write id $"revoke" Session.revoked.
Definition session_revokeForShare (share : str) : M unit :=
  require_uuid share $"session share id";;
  exec (fun o t => Ok (tt, with_sessions (update_rows
    (fun s => (Session.share_id s == key share) && (Session.revoked_at s == None)) (Session.revoked (db_now o)) (sessions t)) t)).

(** *** E-mail challenges *)
Definition challenge_insert (c : Challenge) (u : str) (o : W) (t : Tables) : result Error (Challenge * Tables) :=
  let row := Challenge.inserted u (db_now o) c in
  if existsb (fun r => Challenge.id r == Challenge.id row) (challenges t) || negb (has_link (Challenge.share_id row) t)
     || match Challenge.share_session_id row with Some s => negb (has_session s t) | None => false end
     || negb (Challenge.constraints row)
  then Err constraint_violation else Ok (row, with_challenges (challenges t ++ [row]) t).
Definition challenge_create (c : Challenge) : M Challenge :=
  require_uuid (Challenge.share_id c) $"email challenge share id";;
  match Challenge.share_session_id c with Some s => require_uuid s $"email challenge session id" | None => ret tt end;;
  require (negb (is_empty (Challenge.email_hash c) || is_empty (Challenge.code_hash c))) (EArgument $"Share email challenge hashes are required");;
  insert (challenge_insert c).
Definition challenge_get (id : str) : M (option Challenge) :=
  require_uuid id $"email challenge id";; exec (fun _ t => Ok (find (fun c => Challenge.id c == key id) (challenges t), t)).
Definition challenge_write (id operation : str) (guard : Z -> Challenge -> bool) (f : Z -> Challenge -> Challenge) : M unit :=
  require_uuid id $"email challenge id";;
  exec (fun o t =>
    let? '(_, l) := update_one (fun c => (Challenge.id c == key id) && guard (db_now o) c) (f (db_now o)) Challenge.constraints
                      (no_rows $"email challenge" operation) (challenges t) in
    Ok (tt, with_challenges l t)).
Definition unspent (now : Z) (c : Challenge) : bool := (Challenge.consumed_at c == None) && (now <? Challenge.expires_at c).
Definition challenge_recordAttempt (id : str) : M unit :=
  challenge_write id $"recordAttempt" (fun now c => (Challenge.attempts c <? Challenge.max_attempts c) && unspent now c) (fun _ => Challenge.attempted).
Definition challenge_consume (id : str) : M unit := challenge_write id $"consume" unspent Challenge.consumed.

(** *** Uploads *)
Definition upload_insert (up : Upload.Upload) (u : str) (o : W) (t : Tables) : result Error (Upload.Upload * Tables) :=
  let row := Upload.inserted u (db_now o) up in
  if existsb (fun r => Upload.id r == Upload.id row) (uploads t) || negb (has_link (Upload.share_id row) t)
     || negb (has_session (Upload.share_session_id row) t) || negb (Upload.constraints row)
  then Err constraint_violation else Ok (row, with_uploads (uploads t ++ [row]) t).
Definition upload_create (up : Upload.Upload) : M Upload.Upload :=
  require_uuid (Upload.share_id up) $"upload share id";; require_uuid (Upload.share_session_id up) $"upload session id";;
  require (negb (Upload.target_parent_entry_id up =? 0)) (EArgument $"Share upload target parent is required");;
  require (starts_with (Upload.target_path up) $"/") (EArgument $"Share upload target path must be absolute");;
  insert (upload_insert up).
Definition upload_get (id : str) : M (option Upload.Upload) :=
  require_uuid id $"upload id";; exec (fun _ t => Ok (find (fun u => Upload.id u == key id) (uploads t), t)).
(** [... WHERE id = $1 AND status IN ('pending', 'receiving') ...] *)
Definition upload_write (id operation : str) (guard : Upload.Upload -> bool) (f : Z -> Upload.Upload -> Upload.Upload) : M unit :=
  require_uuid id $"upload id";;
  exec (fun o t =>
    let? '(_, l) := update_one (fun u => (Upload.id u == key id) && Upload.active u && guard u) (f (db_now o)) Upload.constraints
                      (no_rows $"upload" operation) (uploads t) in
    Ok (tt, with_uploads l t)).
Definition signed64 (n : Z) : Z := if n <? 2 ^ 63 then n else n - 2 ^ 64.
Definition upload_addReceivedBytes (id : str) (bytes : Z) : M unit :=
  upload_write id $"addReceivedBytes" (fun u => Upload.received_size_bytes u + signed64 bytes <=? Upload.expected_size_bytes u)
    (fun _ => Upload.received (signed64 bytes)).
Definition upload_complete (id : str) (entry : Z) (hash mime : str) : M unit :=
  upload_write id $"complete" (fun _ => true) (Upload.completed entry hash mime).
Definition upload_fail (id why : str) : M unit := upload_write id $"fail" (fun _ => true) (Upload.failed why).
Definition upload_cancel (id : str) : M unit := upload_write id $"cancel" (fun _ => true) Upload.cancelled.
Definition completed_of (share : str) (t : Tables) : list Upload.Upload :=
  filter (fun u => (Upload.share_id u == key share) && (Upload.status u == Complete) = true) (uploads t).
Definition sum_received (l : list Upload.Upload) : Z := foldr (fun u n => Upload.received_size_bytes u + n) 0 l.
Definition upload_sumCompletedBytes (share : str) : M Z :=
  require_uuid share $"upload share id";; exec (fun _ t => Ok (sum_received (completed_of share t), t)).
Definition upload_countCompletedFiles (share : str) : M Z :=
  require_uuid share $"upload share id";; exec (fun _ t => Ok (Z.of_nat (length (completed_of share t)), t)).
Definition older (a b : Upload.Upload) : Prop := Upload.started_at a <= Upload.started_at b.
#[local] Instance older_dec a b : base.Decision (older a b).
Proof. unfold older. apply _. Defined.
Definition upload_listStaleActive (age limit : Z) : M (list Upload.Upload) :=
  require (0 <? age) (EArgument $"Share stale upload age must be positive");;
  if limit =? 0 then ret []
  else exec (fun o t =>
    if 2 ^ 63 <=? limit then Err (EDatabase $"LIMIT must not be negative")
    else Ok (take (Z.to_nat limit) (merge_sort older
               (filter (fun u => Upload.active u && (Upload.started_at u <? db_now o - age) = true) (uploads t))), t)).

(** *** Vault roles of links *)
Definition requireShareId (share : str) : result Error unit := check negb (is_empty share) else EArgument $"Share id is required" in Ok tt.
Definition upsertAssignmentRow (share : str) (vault role : Z) (subject : Subject) (t : Tables) : result Error (Z * Tables) :=
  let? _ := requireShareId share in
  check negb (vault =? 0) else EArgument $"Share vault id is required" in
  check negb (role =? 0) else EArgument $"Share vault role template id is required" in
  check subject !== ActorSubject 0 else EArgument $"Share actor assignment subject id is required" in
  check has_link share t else constraint_violation in
  let hit a := (as_share_id a == key share) && (as_subject a == subject) in
  match find hit (assignments t) with
  | Some a =>
      Ok (as_id a, with_assignments (update_rows hit (fun a =>
        mkAssignment (as_id a) (as_share_id a) vault role (as_subject a) true (as_overrides a)) (assignments t)) (next_id t) t)
  | None => Ok (next_id t, with_assignments (assignments t ++ [mkAssignment (next_id t) (key share) vault role subject true []]) (next_id t + 1) t)
  end.
Definition permissionIdForOverride (o : Override) : result Error str :=
  check negb (is_empty (qualified_name o)) else ERuntime $"Share vault role override permission id is required" in
  match permission_bit (qualified_name o) with
  | Some _ => Ok (qualified_name o)
  | None => Err (ERuntime ($"Share vault role override permission is not registered: " ++ qualified_name o))
  end.
(** [INSERT ... ON CONFLICT (permission_id, glob_path) DO UPDATE] *)
Definition put_override (r : OverrideRow) (rows : list OverrideRow) : list OverrideRow :=
  let hit x := (ov_permission x == ov_permission r) && (ov_glob x == ov_glob r) in
  if existsb hit rows then update_rows hit (fun _ => r) rows else rows ++ [r].
Fixpoint override_rows (os : list Override) (rows : list OverrideRow) : result Error (list OverrideRow) :=
  match os with
  | [] => Ok rows
  | o :: os' => let? name := permissionIdForOverride o in
                override_rows os' (put_override (mkOverrideRow name (source (pattern o)) (Perm.enabled o) (effect o)) rows)
  end.
Definition replaceAssignmentOverrides (assignment : Z) (os : list Override) (t : Tables) : result Error Tables :=
  let? rows := override_rows os [] in
  Ok (with_assignments (update_rows (fun a => as_id a =? assignment) (fun a =>
    mkAssignment (as_id a) (as_share_id a) (as_vault_id a) (as_role_id a) (as_subject a) (as_enabled a) rows) (assignments t)) (next_id t) t).
Definition upsertAssignment_row (share : str) (vault role : Z) (subject : Subject) (os : list Override) (t : Tables) : result Error Tables :=
  let? '(id, t) := upsertAssignmentRow share vault role subject t in replaceAssignmentOverrides id os t.
Definition upsertAssignment (share : str) (vault role : Z) (subject : Subject) (os : list Override) : M unit :=
  exec (fun _ t => let? t := upsertAssignment_row share vault role subject os t in Ok (tt, t)).
Definition upsertPublicAssignment share vault role os := upsertAssignment share vault role PublicSubject os.
Definition upsertRecipientAssignment share vault (recipient role : Z) os := upsertAssignment share vault role (ActorSubject recipient) os.

Definition upsertRecipientRow (share hash : str) (t : Tables) : result Error (Z * Tables) :=
  let? _ := requireShareId share in
  check negb (is_empty hash) else EArgument $"Share recipient email hash is required" in
  check has_link share t else constraint_violation in
  let hit r := (rc_share_id r == key share) && (rc_email_hash r == hash) in
  match find hit (recipients t) with
  | Some r => Ok (rc_id r, with_recipients (update_rows hit (fun r => mkRecipient (rc_id r) (rc_share_id r) (rc_email_hash r) true) (recipients t)) (next_id t) t)
  | None => Ok (next_id t, with_recipients (recipients t ++ [mkRecipient (next_id t) (key share) hash true]) (next_id t + 1) t)
  end.
Definition upsertRecipient (share hash : str) : M Z := exec (fun _ t => upsertRecipientRow share hash t).

Record RecipientAssignmentInput := mkInput { in_email_hash : str; in_role_id : Z; in_overrides : list Override }.
Fixpoint put_recipients (share : str) (vault : Z) (l : list RecipientAssignmentInput) (t : Tables) : result Error (list Z * Tables) :=
  match l with
  | [] => Ok ([], t)
  | a :: l' =>
      let? '(id, t) := upsertRecipientRow share (in_email_hash a) t in
      let? t := upsertAssignment_row share vault (in_role_id a) (ActorSubject id) (in_overrides a) t in
      let? '(ids, t) := put_recipients share vault l' t in Ok (id :: ids, t)
  end.
Definition is_stale (share : str) (keep : list Z) (a : Assignment) : bool :=
  (as_share_id a == key share) && match as_subject a with ActorSubject id => negb (bool_decide (id ∈ keep)) | PublicSubject => false end.
Definition disable_stale (share : str) (keep : list Z) (t : Tables) : Tables :=
  let t := with_assignments (update_rows (is_stale share keep) (fun a =>
    mkAssignment (as_id a) (as_share_id a) (as_vault_id a) (as_role_id a) (as_subject a) false (as_overrides a)) (assignments t)) (next_id t) t in
  with_recipients (update_rows (fun r => (rc_share_id r == key share) && negb (bool_decide (rc_id r ∈ keep)))
    (fun r => mkRecipient (rc_id r) (rc_share_id r) (rc_email_hash r) false) (recipients t)) (next_id t) t.
Definition replaceRecipientAssignments (share : str) (vault : Z) (l : list RecipientAssignmentInput) : M unit :=
  lift (requireShareId share);; require (negb (vault =? 0)) (EArgument $"Share vault id is required");;
  exec (fun _ t => let? '(ids, t) := put_recipients share vault l t in Ok (tt, disable_stale share ids t)).

(** A role with its overrides, [ORDER BY p.bit_position, glob_path]; patterns are parsed as they are read. *)
Definition override_le (a b : OverrideRow) : Prop :=
  let x := permission_bit (ov_permission a) in
  let y := permission_bit (ov_permission b) in
  default 0 x < default 0 y \/ (default 0 x = default 0 y /\ collate (ov_glob a) (ov_glob b) = true).
#[local] Instance override_le_dec a b : base.Decision (override_le a b).
Proof. unfold override_le. cbn zeta. apply _. Defined.
Fixpoint read_overrides (rows : list OverrideRow) : result Error (list Override) :=
  match rows with
  | [] => Ok []
  | r :: rows' =>
      let? p := map_err EGlob (Glob.parse (ov_glob r)) in
      let? os := read_overrides rows' in Ok (mkOverride (ov_permission r) (ov_effect r) (ov_enabled r) p :: os)
  end.
Definition read_role (o : W) (role : Z) (rows : list OverrideRow) (assignment : option (Subject * Z)) : result Error (option AssignedRole) :=
  match role_by_id o role with
  | None => Ok None
  | Some rt => let? os := read_overrides (merge_sort override_le rows) in
               Ok (Some (mkAssigned (mkFilesystem (rt_files rt) (rt_directories rt) os) assignment))
  end.
Definition read_assignment (o : W) (a : option Assignment) : result Error (option AssignedRole) :=
  match a with
  | None => Ok None
  | Some a => read_role o (as_role_id a) (as_overrides a) (Some (as_subject a, as_vault_id a))
  end.
(** [ORDER BY id DESC LIMIT 1] *)
Definition latest (hit : Assignment -> bool) (t : Tables) : option Assignment :=
  foldl (fun best a => if hit a then match best with Some b => if as_id b <? as_id a then Some a else best | None => Some a end else best)
    None (assignments t).
Definition public_of (share : str) (a : Assignment) : bool :=
  (as_share_id a == key share) && (as_subject a == PublicSubject) && as_enabled a.
Definition role_getForShare (share : str) : M (option AssignedRole) :=
  lift (requireShareId share);;
  exec (fun o t =>
    let? canonical := read_assignment o (latest (public_of share) t) in
    match canonical with
    | Some r => Ok (Some r, t)
    | None => match find (fun g => lg_share_id g == key share) (legacy t) with
              | None => Ok (None, t)
              | Some g => let? r := read_role o (lg_role_id g) (lg_overrides g) None in Ok (r, t)
              end
    end).
Definition recipient_of (share hash : str) (t : Tables) (a : Assignment) : bool :=
  (as_share_id a == key share) && as_enabled a
  && existsb (fun r => (rc_share_id r == key share) && (rc_email_hash r == hash) && rc_enabled r && (as_subject a == ActorSubject (rc_id r))) (recipients t).
Definition role_getRecipient (share hash : str) : M (option AssignedRole) :=
  lift (requireShareId share);; require (negb (is_empty hash)) (EArgument $"Share recipient email hash is required");;
  exec (fun o t => let? r := read_assignment o (latest (recipient_of share hash t) t) in Ok (r, t)).
Definition role_removeForShare (share : str) : M unit :=
  lift (requireShareId share);;
  exec (fun _ t => Ok (tt, with_legacy (filter (fun g => lg_share_id g !== key share = true) (legacy t))
                             (with_assignments (filter (fun a => as_share_id a !== key share = true) (assignments t)) (next_id t) t))).

(** *** Audit events *)
Definition audit_append (e : Audit) : M unit :=
  match Audit.share_id e with Some s => require_uuid s $"audit share id" | None => ret tt end;;
  match Audit.share_session_id e with Some s => require_uuid s $"audit session id" | None => ret tt end;;
  require (negb (is_empty (Audit.event_type e))) (EArgument $"Share audit event type is required");;
  exec (fun _ t =>
    if match Audit.share_id e with Some s => has_link s t | None => true end
       && match Audit.share_session_id e with Some s => has_session s t | None => true end
    then Ok (tt, with_events (events t ++ [e]) t) else Err constraint_violation).
End Queries.
