(* ===== verification/ShareManager.v ===== *)
(** * The share manager

    [share/Manager.cpp], with [share/Policy.cpp] and [share/PrincipalResolver.cpp]: links are
    created, changed, revoked and given new tokens by their managers; the public opens
    sessions with a token, confirms an e-mail address with a code, and becomes a principal;
    principals are authorised, download and upload; everything leaves audit events.

    The operations run in [Monad] on the tables of [ShareStore].  Who may manage a link is the
    interface [ShareAuthorizer]; [default_authorizer] decides by the vault permissions of
    [FsPolicy].  Link, session and upload objects are values read from the tables; the audit
    event that an operation fills before it files it is part of the world. *)
From S2P Require Import Prelude Monad Paths Glob Perm FsPolicy ShareTokens SharePolicy ShareScope ShareStore.
#[local] Open Scope Z_scope.

(** ** Options, actors, requests *)
Record ManagerOptions := mkOptions {
  session_ttl_seconds : Z; challenge_ttl_seconds : Z; challenge_max_attempts : Z; default_max_upload_size_bytes : Z;
  max_upload_chunk_size_bytes : Z; stale_upload_ttl_seconds : Z; stale_upload_sweep_limit : Z }.
Definition default_options : ManagerOptions := mkOptions 3600 900 6 (64 * 1024 * 1024) (256 * 1024) (6 * 60 * 60) 100.

Record User := mkUser { u_id : Z; u_view : View }.
Inductive Actor := ByHuman (user : option User) | ByShare (principal : option Principal).
Definition humanUser (actor : Actor) : option User := match actor with ByHuman user => user | ByShare _ => None end.

Record AuthorizationDecision := mkAuth { a_allowed : bool; a_reason : str }.
Definition allow : AuthorizationDecision := mkAuth true $"allowed".
Definition deny (reason : str) : AuthorizationDecision := mkAuth false reason.

Record RoleAssignmentRequest := mkRoleRequest { ra_role_id : option Z; ra_role_name : option str; ra_overrides : list Override }.
Record RecipientRoleAssignmentRequest := mkRecipientRequest { rr_email : str; rr_role : RoleAssignmentRequest }.
Record CreateLinkRequest := mkCreate {
  cr_link : Link; cr_public_role : option RoleAssignmentRequest; cr_recipients : list RecipientRoleAssignmentRequest }.
Record UpdateLinkRequest := mkUpdate {
  ur_link : option Link; ur_public_role : option RoleAssignmentRequest; ur_recipients : option (list RecipientRoleAssignmentRequest) }.
(** A link with the token that opens it. *)
Record LinkTokenResult := mkLinkToken { lt_link : Link; lt_public_token : str; lt_public_url_path : str }.
Inductive OpenSessionStatus := Ready | EmailRequired_.
Record OpenSessionResult := mkOpened { os_status : OpenSessionStatus; os_link : Link; os_session : Session; os_session_token : str }.
Record StartEmailChallengeRequest := mkStartChallenge {
  sc_public_token : option str; sc_session_token : option str; sc_email : str; sc_ip : option str; sc_agent : option str }.
Record StartEmailChallengeResult := mkChallengeStarted {
  cs_link : Link; cs_session : Session; cs_challenge : Challenge; cs_session_token : str; cs_code : str }.
Record ConfirmEmailChallengeRequest := mkConfirm { cc_challenge_id : str; cc_session_id : str; cc_session_token : str; cc_code : str }.
Record ShareAccessAuditRequest := mkAccess {
  aa_event_type : str; aa_vault_id : Z; aa_target_entry_id : Z; aa_target_path : str; aa_status : AuditStatus; aa_bytes : option Z;
  aa_error_code : option str; aa_error_message : option str }.
Record StartUploadRequest := mkStartUpload {
  su_principal : Principal; su_parent : Z; su_path : str; su_original : str; su_resolved : str; su_size : Z; su_mime : option str }.
Record StartUploadResult := mkUploadStarted { us_upload : Upload.Upload; us_chunk : Z; us_transfer : Z; us_duplicates : DuplicatePolicy }.
Record FinishUploadRequest := mkFinish { fu_principal : Principal; fu_upload_id : str; fu_entry : Z; fu_hash : str; fu_mime : option str }.
Record StaleUploadSweepResult := mkSweep { sw_scanned : Z; sw_failed : Z }.

(** ** [share::policy] *)
Definition refusal (s : SharingConfig) (mode : option AccessMode) : option str :=
  if negb (ShareStore.enabled s) then Some $"Sharing is disabled on this server"
  else match mode with
       | None => None
       | Some Public => if enable_anonymous s then None else Some $"Anonymous share links are disabled on this server"
       | Some EmailValidated => if enable_email_validated s then None else Some $"Email-verified share links are disabled on this server"
       end.

(** ** File types of uploads *)
Definition toLower (s : str) : str := map tolower s.
Definition normalizeExtension (value : str) : str :=
  let value := toLower value in
  if is_empty value then value else if starts_with value $"." then value else dot :: value.
Definition containsInsensitive (values : list str) (needle : str) : bool := existsb (fun item => toLower item == toLower needle) values.
Definition containsExtension (values : list str) (extension : str) : bool :=
  existsb (fun item => normalizeExtension item == normalizeExtension extension) values.
(** [path::extension] of the last component. *)
Definition path_extension (path : str) : str :=
  let name := match split_last slash path with Some (_, n) => n | None => path end in
  if (name == $".") || (name == $"..") then []
  else match split_last dot name with
       | Some ([], _) | None => []
       | Some (_, e) => dot :: e
       end.
Definition extensionOf (filename : str) : str := normalizeExtension (path_extension filename).

Definition denied_unless (b : bool) (why : str) : result Error unit := if b then Ok tt else Err (EDenied why).
Definition requireUploadAllowedByGrant (link : Link) (r : StartUploadRequest) (options : ManagerOptions) : result Error unit :=
  let? _ := denied_unless (allows (Link.grant link) Upload) $"Share upload denied: missing_upload_operation" in
  let? _ := denied_unless (Link.target_type link == Directory) $"Share upload denied: target is not directory-compatible" in
  check negb (su_parent r =? 0) else EArgument $"Share upload target parent is required" in
  check starts_with (su_path r) $"/" else EArgument $"Share upload target path must be absolute" in
  check negb (is_empty (su_original r)) else EArgument $"Share upload original filename is required" in
  check negb (is_empty (su_resolved r)) else EArgument $"Share upload resolved filename is required" in
  let maxSize := default (default_max_upload_size_bytes options) (Link.max_upload_size_bytes link) in
  let? _ := denied_unless (su_size r <=? maxSize) $"Share upload denied: file size exceeds maximum" in
  let? _ := match su_mime r with
            | None => denied_unless (is_empty (Link.allowed_mime_types link)) $"Share upload denied: MIME type is required"
            | Some mime =>
                let? _ := denied_unless (negb (containsInsensitive (Link.blocked_mime_types link) mime)) $"Share upload denied: MIME type is blocked" in
                denied_unless (is_empty (Link.allowed_mime_types link) || containsInsensitive (Link.allowed_mime_types link) mime)
                  $"Share upload denied: MIME type is not allowed"
            end in
  let ext := extensionOf (su_resolved r) in
  let? _ := denied_unless (is_empty ext || negb (containsExtension (Link.blocked_extensions link) ext)) $"Share upload denied: extension is blocked" in
  if is_empty (Link.allowed_extensions link) then Ok tt
  else let? _ := denied_unless (negb (is_empty ext)) $"Share upload denied: extension is required" in
       denied_unless (containsExtension (Link.allowed_extensions link) ext) $"Share upload denied: extension is not allowed".

Example extension_examples :
  extensionOf $"/a.b/Photo.JPG" = $".jpg" /\ extensionOf $".bashrc" = [] /\ extensionOf $"x." = $"." /\ extensionOf $"a.tar.gz" = $".gz" /\
  containsExtension [$"JPG"] $".jpg" = true.
Proof. vm_compute. split_and!; reflexivity. Qed.

(** ** [PrincipalResolver::resolve] *)
Definition resolve (link : Link) (session : Session) (now : Z) : result Error Principal :=
  check negb (is_empty (Link.id link)) else ERuntime $"share principal resolution failed: missing share id" in
  check negb (is_empty (Session.id session)) else ERuntime $"share principal resolution failed: missing session id" in
  let? _ := denied_unless (Session.share_id session == Link.id link) $"share principal resolution failed: session/share mismatch" in
  let? _ := denied_unless (Link.isActive link now) $"share principal resolution failed: share inactive" in
  let? _ := denied_unless (Session.isActive session now) $"share principal resolution failed: session inactive" in
  let? _ := denied_unless (negb (Link.requiresEmail link && negb (Session.isVerified session)))
              $"share principal resolution failed: email verification required" in
  let g := Link.grant link in
  let? root := map_err EShare (normalizeVaultPath (ShareScope.root_path g)) in
  let g := mkGrant (ShareScope.vault_id g) (ShareScope.root_entry_id g) root (ShareScope.target_type g) (ShareScope.allowed_ops g)
    (ShareScope.max_downloads g) (ShareScope.max_upload_files g) (ShareScope.max_upload_size_bytes g) (ShareScope.max_upload_total_bytes g)
    (ShareScope.duplicate_policy g) (ShareScope.allowed_mime_types g) (ShareScope.blocked_mime_types g) (ShareScope.allowed_extensions g)
    (ShareScope.blocked_extensions g) in
  let? _ := map_err EShare (requireValid g) in
  Ok (mkPrincipal (Link.id link) (Session.id session) (Link.vault_id link) (Link.root_entry_id link) (Link.created_by link) root g
        (Link.access_mode link) (Session.isVerified session)
        (match Link.expires_at link with Some e => Z.min e (Session.expires_at session) | None => Session.expires_at session end)
        (Session.ip_address session) (Session.user_agent session) None).
Definition with_role (fs : Filesystem) (p : Principal) : Principal :=
  mkPrincipal (share_id p) (share_session_id p) (p_vault_id p) (p_root_entry_id p) (link_created_by p) (p_root_path p) (grant_ p)
    (access_mode p) (email_verified p) (p_expires_at p) (p_ip_address p) (p_user_agent p) (Some fs).

Section Manager.
Context {W : Type} `{Outside W} `{Registry} `{ArrayText} (hash : str -> str) (options : ManagerOptions).
Notation M A := (Monad.M (World W) Error A).

(** ** Who may manage links *)
Class ShareAuthorizer := {
  canCreateLink : Actor -> Link -> M AuthorizationDecision;
  canUpdateLink : Actor -> Link -> Link -> M AuthorizationDecision;
  canManageLink : Actor -> Link -> M AuthorizationDecision;
  canListVaultLinks : Actor -> Z -> M AuthorizationDecision }.

Definition requireEnabled (mode : option AccessMode) : M unit :=
  reads (fun w => match refusal (sharing (outside w)) mode with Some why => Err (EDenied why) | None => Ok tt end).
Definition now : M Z := fun w => let '(n, o) := read_clock (outside w) in (Ok n, mkWorld (tables w) o (epoch w) (draft w)).
Definition bumpPolicyEpoch : M unit := modify (fun w => mkWorld (tables w) (outside w) (epoch w + 1) (draft w)).
(** [catch (...) { h; throw; }] *)
Definition on_throw {A} (m : M A) (h : M unit) : M A := handle m (fun e => h;; throw e).
Definition requireAllowed (d : AuthorizationDecision) (operation : str) : M unit :=
  require (a_allowed d) (EDenied ($"Share " ++ operation ++ $" denied: " ++ a_reason d)).
Definition requirePtr {A} (value : option A) (reason : str) : M A := lift (match value with Some a => Ok a | None => Err (ENotFound reason) end).

(** *** The audit event being filled *)
Definition auditEvent (event_type : str) (status : AuditStatus) (share session : option str) : Audit :=
  Audit.mk share session System None event_type None None None status None None None None None.
Definition edit (f : Audit -> Audit) : M unit := modify (fun w => mkWorld (tables w) (outside w) (epoch w) (f (draft w))).
Definition begin_audit (e : Audit) : M unit := edit (fun _ => e).
Definition file_audit : M unit := fun w => audit_append (draft w) w.
Definition human_event (actor : Actor) (e : Audit) : Audit := match humanUser actor with Some u => Audit.human (u_id u) e | None => e end.
Definition attachHuman (actor : Actor) : M unit := edit (human_event actor).
Definition link_event (l : Link) : Audit -> Audit :=
  Audit.on_link (if is_empty (Link.id l) then None else Some (Link.id l)) (Link.vault_id l) (Link.root_entry_id l) (Link.root_path l).
Definition attachLink (l : Link) : M unit := edit (link_event l).
Definition principal_event (p : Principal) : Audit -> Audit := Audit.by_principal (share_id p) (share_session_id p) (p_vault_id p) (p_root_entry_id p).
Definition attachPrincipal (p : Principal) : M unit := edit (principal_event p).
Definition setDenied (code message : str) : M unit := edit (Audit.denied code message).
(** [catch (...) { setDenied(audit, code); append(audit); throw; }] *)
Definition denying {A} (code : str) (m : M A) : M A := on_throw m (setDenied code [];; file_audit).

(** *** Tokens *)
Definition generate (k : TokenKind) : M (str * str) := fun w =>
  let '(t, o) := draw_token (outside w) in (Ok t, mkWorld (tables w) o (epoch w) (draft w)).
Definition challengeCode : M str := fun w => let '(c, o) := draw_code (outside w) in (Ok c, mkWorld (tables w) o (epoch w) (draft w)).
Definition parse_token (raw : str) : M ParsedToken := lift (map_err EShare (ShareTokens.parse raw)).

(** ** Role assignments *)
Definition roleTemplateForAssignment (request : option RoleAssignmentRequest) : M Z :=
  let! role := exec (fun o t => Ok (match request with
    | Some r => match ra_role_id r, ra_role_name r with
                | Some id, _ => role_by_id o id
                | None, Some name => role_by_name o name
                | None, None => role_by_name o $"implicit_deny"
                end
    | None => role_by_name o $"implicit_deny"
    end, t)) in
  match role with
  | None => throw (ERuntime $"Share vault role template is missing from the database")
  | Some r => require (negb (rt_id r =? 0)) (ERuntime $"Share vault role template is not persisted");; ret (rt_id r)
  end.
Definition persistPublicAssignment (link : Link) (request : option RoleAssignmentRequest) : M unit :=
  require (negb (is_empty (Link.id link))) (ERuntime $"Share link id is required for role assignment persistence");;
  let! role := roleTemplateForAssignment request in
  upsertPublicAssignment (Link.id link) (Link.vault_id link) role (match request with Some r => ra_overrides r | None => [] end).
Fixpoint recipientAssignmentInputs (recipients : list RecipientRoleAssignmentRequest) : M (list RecipientAssignmentInput) :=
  match recipients with
  | [] => ret []
  | r :: rest =>
      let! email := lift (map_err EShare (normalizeEmail (rr_email r))) in
      let! role := roleTemplateForAssignment (Some (rr_role r)) in
      let! inputs := recipientAssignmentInputs rest in
      ret (mkInput (hashEmail hash email) role (ra_overrides (rr_role r)) :: inputs)
  end.
Definition no_recipient_link (link : Link) : M unit :=
  require (negb (is_empty (Link.id link))) (ERuntime $"Share link id is required for recipient assignment persistence").
Definition persistRecipientAssignments (link : Link) (recipients : list RecipientRoleAssignmentRequest) : M unit :=
  no_recipient_link link;;
  let! inputs := recipientAssignmentInputs recipients in
  for_each inputs (fun i =>
    let! id := upsertRecipient (Link.id link) (in_email_hash i) in
    upsertRecipientAssignment (Link.id link) (Link.vault_id link) id (in_role_id i) (in_overrides i)).
Definition replaceRecipients (link : Link) (recipients : list RecipientRoleAssignmentRequest) : M unit :=
  no_recipient_link link;;
  let! inputs := recipientAssignmentInputs recipients in
  replaceRecipientAssignments (Link.id link) (Link.vault_id link) inputs.
Definition persistRoleAssignments (link : Link) (publicRole : option RoleAssignmentRequest) (recipients : list RecipientRoleAssignmentRequest) : M unit :=
  persistPublicAssignment link publicRole;; persistRecipientAssignments link recipients.

Definition scoped_role (role : option AssignedRole) : M Filesystem :=
  match role with Some r => ret (ar_fs r) | None => throw (ERuntime $"Share vault role assignment is missing") end.
Definition attachScopedVaultRole (link : Link) (session : Session) (p : Principal) : M Principal :=
  let! role :=
    (if Link.requiresEmail link then
       match Session.email_hash session with
       | Some email_hash =>
           let! role := role_getRecipient (Link.id link) email_hash in
           match role with
           | Some r => ret (Some r)
           | None => let! legacy := role_getForShare (Link.id link) in
                     ret (match legacy with Some r => if ar_assignment r is None then Some r else None | None => None end)
           end
       | None => throw (EDenied $"Share recipient is not verified")
       end
     else role_getForShare (Link.id link)) in
  let! fs := scoped_role role in ret (with_role fs p).

(** ** Links, for their managers *)
Definition normalizeAndValidate (l : Link) : result Error Link :=
  let? path := map_err EShare (normalizeVaultPath (Link.root_path l)) in
  let l := Link.with_root path l in
  let? _ := map_err EShare (requireValid (Link.grant l)) in Ok l.
Definition url_path (raw : str) : str := $"/share/" ++ raw.

Context {A : ShareAuthorizer}.

Definition createLink (actor : Actor) (request : CreateLinkRequest) : M LinkTokenResult :=
  let link := match humanUser actor with Some u => Link.with_creator (u_id u) (cr_link request) | None => cr_link request end in
  let! link := lift (normalizeAndValidate link) in
  begin_audit (auditEvent $"share.link.create" Success None None);; attachHuman actor;; attachLink link;;
  denying $"share_create_denied" (
    requireEnabled (Some (Link.access_mode link));;
    let! decision := canCreateLink actor link in
    requireAllowed decision $"create";;
    let! token := generate PublicShare in
    let link := Link.with_token token.1 (hashSecret hash PublicShare token.2) link in
    let! created := link_create link in
    on_throw (persistRoleAssignments created (cr_public_role request) (cr_recipients request))
      (link_revoke (Link.id created) (Link.created_by created));;
    attachLink created;; file_audit;;
    let raw := token_raw PublicShare token.1 token.2 in ret (mkLinkToken created raw (url_path raw))).

Definition getLinkForManagement (actor : Actor) (id : str) : M Link :=
  let! found := link_get id in
  let! link := requirePtr found $"Share link not found" in
  let! decision := canManageLink actor link in
  requireAllowed decision $"get";; ret link.
Definition listLinksForUser (actor : Actor) (params : ListQueryParams) : M (list Link) :=
  match humanUser actor with
  | None => throw (EDenied $"Share list denied: share_management_requires_human_user")
  | Some user => link_listForUser (u_id user) params
  end.
Definition listLinksForVault (actor : Actor) (vaultId : Z) (params : ListQueryParams) : M (list Link) :=
  let! decision := canListVaultLinks actor vaultId in
  requireAllowed decision $"list vault";; link_listForVault vaultId params.

Definition updateLink (actor : Actor) (request : UpdateLinkRequest) : M Link :=
  match ur_link request with
  | None => throw (EArgument $"Share link update payload is required")
  | Some wanted =>
      let! found := link_get (Link.id wanted) in
      let! existing := requirePtr found $"Share link not found" in
      let updated := Link.kept existing wanted in
      let updated := match humanUser actor with Some u => Link.with_updater (u_id u) updated | None => updated end in
      let! updated := lift (normalizeAndValidate updated) in
      begin_audit (auditEvent $"share.link.update" Success (Some (Link.id existing)) None);; attachHuman actor;; attachLink existing;;
      denying $"share_update_denied" (
        requireEnabled (Some (Link.access_mode updated));;
        let! decision := canUpdateLink actor existing updated in
        requireAllowed decision $"update";;
        (match ur_public_role request with Some r => persistPublicAssignment updated (Some r) | None => ret tt end);;
        (match ur_recipients request with Some rs => replaceRecipients updated rs | None => ret tt end);;
        let! saved := link_update updated in
        bumpPolicyEpoch;; file_audit;; ret saved)
  end.

Definition user_or_zero (actor : Actor) : Z := match humanUser actor with Some u => u_id u | None => 0 end.
Definition revokeLink (actor : Actor) (id : str) : M unit :=
  let! link := getLinkForManagement actor id in
  begin_audit (auditEvent $"share.link.revoke" Success (Some (Link.id link)) None);; attachHuman actor;; attachLink link;;
  link_revoke (Link.id link) (user_or_zero actor);;
  bumpPolicyEpoch;;
  session_revokeForShare (Link.id link);;
  role_removeForShare (Link.id link);;
  file_audit.
Definition rotateLinkToken (actor : Actor) (id : str) : M LinkTokenResult :=
  let! link := getLinkForManagement actor id in
  begin_audit (auditEvent $"share.link.rotate_token" Success (Some (Link.id link)) None);; attachHuman actor;; attachLink link;;
  let! token := generate PublicShare in
  link_rotateToken (Link.id link) token.1 (hashSecret hash PublicShare token.2) (user_or_zero actor);;
  bumpPolicyEpoch;;
  session_revokeForShare (Link.id link);;
  let! found := link_get (Link.id link) in
  let! rotated := requirePtr found $"Share link not found after token rotation" in
  file_audit;;
  let raw := token_raw PublicShare token.1 token.2 in ret (mkLinkToken rotated raw (url_path raw)).

(** ** The public: tokens, sessions, e-mail challenges *)
Definition linkFromPublicToken (publicToken : str) (current : Z) : M Link :=
  requireEnabled None;;
  let! parsed := parse_token publicToken in
  require (kind parsed == PublicShare) (EArgument $"Expected public share token");;
  let! found := link_getByLookupId (lookup_id parsed) in
  match found with
  | Some link =>
      require (verify hash (Link.token_hash link) PublicShare (secret parsed)) (EDenied $"Invalid public share token");;
      require (Link.isActive link current) (EDenied $"Share link is inactive");;
      requireEnabled (Some (Link.access_mode link));; ret link
  | None => throw (EDenied $"Invalid public share token")
  end.
Definition createSessionForLink (link : Link) (ip agent : option str) : M (Session * str) :=
  let! token := generate ShareSession in
  let! current := now in
  let! session := session_create (Session.mk [] (Link.id link) token.1 (hashSecret hash ShareSession token.2) None None 0 0
    (current + session_ttl_seconds options) None ip agent) in
  ret (session, token_raw ShareSession token.1 token.2).
Definition sessionFromToken (sessionToken : str) (current : Z) : M Session :=
  let! parsed := parse_token sessionToken in
  require (kind parsed == ShareSession) (EArgument $"Expected share session token");;
  let! found := session_getByLookupId (lookup_id parsed) in
  match found with
  | Some session =>
      require (verify hash (Session.session_token_hash session) ShareSession (secret parsed)) (EDenied $"Invalid share session token");;
      require (Session.isActive session current) (EDenied $"Share session is inactive");; ret session
  | None => throw (EDenied $"Invalid share session token")
  end.

Definition resolvePublicLink (publicToken : str) : M Link := let! current := now in linkFromPublicToken publicToken current.
Definition openPublicSession (publicToken : str) (ip agent : option str) : M OpenSessionResult :=
  begin_audit (Audit.from ip agent (auditEvent $"share.session.open" Success None None));;
  denying $"share_session_open_denied" (
    let! current := now in
    let! link := linkFromPublicToken publicToken current in
    attachLink link;;
    let! opened := createSessionForLink link ip agent in
    edit (fun e => Audit.as_principal (Audit.of_session (Some (Link.id link)) (Some (Session.id opened.1)) e));;
    link_touchAccess (Link.id link);;
    file_audit;;
    ret (mkOpened (if Link.requiresEmail link then EmailRequired_ else Ready) link opened.1 opened.2)).

(** The link, the session and the session's token of a challenge request. *)
Definition challenge_context (r : StartEmailChallengeRequest) : M (Link * Session * str) :=
  match sc_session_token r, sc_public_token r with
  | None, None => throw (EArgument $"Public token or share session token is required")
  | Some token, _ =>
      requireEnabled None;;
      let! current := now in
      let! session := sessionFromToken token current in
      let! found := link_get (Session.share_id session) in
      let! link := requirePtr found $"Share link not found" in
      requireEnabled (Some (Link.access_mode link));; ret (link, session, [])
  | None, Some token =>
      let! current := now in
      let! link := linkFromPublicToken token current in
      let! created := createSessionForLink link (sc_ip r) (sc_agent r) in
      audit_append (link_event link (Audit.from (sc_ip r) (sc_agent r) (Audit.as_principal
        (auditEvent $"share.session.open" Success (Some (Link.id link)) (Some (Session.id created.1))))));;
      ret (link, created.1, created.2)
  end.
Definition startEmailChallenge (r : StartEmailChallengeRequest) : M StartEmailChallengeResult :=
  let! context := challenge_context r in
  let link := context.1.1 in
  let session := context.1.2 in
  require (Link.requiresEmail link) (EConflict $"Share link does not require email verification");;
  let! t1 := now in require (Link.isActive link t1) (EDenied $"Share link is inactive");;
  let! t2 := now in require (Session.isActive session t2) (EDenied $"Share session is inactive");;
  let! email := lift (map_err EShare (normalizeEmail (sc_email r))) in
  let! code := challengeCode in
  let! t3 := now in
  let! created := challenge_create (Challenge.mk [] (Link.id link) (Some (Session.id session)) (hashEmail hash email) (hashCode hash code) 0
    (challenge_max_attempts options) (t3 + challenge_ttl_seconds options) None 0 (sc_ip r) (sc_agent r)) in
  audit_append (link_event link (Audit.from (sc_ip r) (sc_agent r) (Audit.as_principal
    (auditEvent $"share.email.challenge.created" Success (Some (Link.id link)) (Some (Session.id session))))));;
  ret (mkChallengeStarted link session created context.2 code).

Definition check_challenge (link : Link) (session : Session) (challenge : Challenge) (code : str) : M unit :=
  requireEnabled (Some (Link.access_mode link));;
  require (Link.requiresEmail link) (EConflict $"Share link does not require email verification");;
  let! t1 := now in require (Link.isActive link t1) (EDenied $"Share link is inactive");;
  let! t2 := now in require (Session.isActive session t2) (EDenied $"Share session is inactive");;
  require (Challenge.share_id challenge == Session.share_id session) (EDenied $"Share email challenge does not belong to session share");;
  require (match Challenge.share_session_id challenge with Some s => s == Session.id session | None => true end)
    (EDenied $"Share email challenge session mismatch");;
  let! role := role_getRecipient (Link.id link) (Challenge.email_hash challenge) in
  require (match role with Some _ => true | None => false end) (EDenied $"Share email recipient is not authorized");;
  let! t3 := now in require (Challenge.canAttempt challenge t3) (EConflict $"Share email challenge cannot be attempted");;
  if verifyCode hash (Challenge.code_hash challenge) code then ret tt
  else challenge_recordAttempt (Challenge.id challenge);; setDenied $"share_email_code_invalid" [];; throw (EDenied $"Share email challenge code is invalid").
(** [catch (...) { if (!audit->error_code) setDenied(...); append(audit); throw; }] *)
Definition denying_once {B} (code : str) (m : M B) : M B :=
  on_throw m (edit (fun e => if Audit.error_code e is None then Audit.denied code [] e else e);; file_audit).
Definition confirmEmailChallenge (r : ConfirmEmailChallengeRequest) : M Session :=
  let! found := challenge_get (cc_challenge_id r) in
  let! challenge := requirePtr found $"Share email challenge not found" in
  require (negb (is_empty (cc_session_id r))) (EArgument $"Share session id is required");;
  require (negb (is_empty (cc_session_token r))) (EArgument $"Share session token is required");;
  let! current := now in
  let! session := sessionFromToken (cc_session_token r) current in
  require (Session.id session == cc_session_id r) (EDenied $"Share session token does not match session");;
  let! found := link_get (Challenge.share_id challenge) in
  let! link := requirePtr found $"Share link not found" in
  begin_audit (link_event link (Audit.from (Challenge.ip_address challenge) (Challenge.user_agent challenge) (Audit.as_principal
    (auditEvent $"share.email.challenge.confirm" Success (Some (Link.id link)) (Some (Session.id session))))));;
  denying_once $"share_email_verification_denied" (
    check_challenge link session challenge (cc_code r);;
    challenge_consume (Challenge.id challenge);;
    session_verify (Session.id session) (Challenge.email_hash challenge);;
    let! reloaded := session_get (Session.id session) in
    match reloaded with
    | None => throw (ERuntime $"Share session not found after verification")
    | Some s => file_audit;; ret s
    end).

Definition resolvePrincipal (sessionToken : str) (ip agent : option str) : M Principal :=
  begin_audit (Audit.from ip agent (auditEvent $"share.principal.resolve" Success None None));;
  denying $"share_principal_resolution_denied" (
    requireEnabled None;;
    let! current := now in
    let! session := sessionFromToken sessionToken current in
    edit (Audit.at_session (Session.id session));;
    let! found := link_get (Session.share_id session) in
    let! link := requirePtr found $"Share link not found" in
    attachLink link;;
    requireEnabled (Some (Link.access_mode link));;
    let! current := now in
    let! principal := lift (resolve link session current) in
    let! principal := attachScopedVaultRole link session principal in
    session_touch (Session.id session);;
    file_audit;; ret principal).

(** ** What a principal does *)
Definition authorize (p : Principal) (operation : Operation) (requestedPath : str) (targetType : option TargetType) (vaultId : option Z) :
  M ScopeDecision :=
  begin_audit (Audit.to_path requestedPath (principal_event p
    (auditEvent $"share.scope.authorize" Success (Some (share_id p)) (Some (share_session_id p)))));;
  let vault := default (p_vault_id p) vaultId in
  denying $"share_scope_denied" (
    let! decision := lift (map_err EShare (ShareScope.authorize p (mkScopeRequest vault requestedPath operation targetType))) in
    edit (Audit.to_path (normalized_path decision));;
    if negb (d_allowed decision) then setDenied $"share_scope_denied" (d_reason decision);; file_audit;; ret decision
    else
      let! rbac := lift (map_err EPolicy (SharePolicy.evaluate p (mkShareRequest vault (normalized_path decision) operation
        (default (if (operation == OpList) || (operation == Mkdir) then Directory else ShareScope.target_type (grant_ p)) targetType)
        ((operation !== Upload) && (operation !== Mkdir))))) in
      let decision := if FsPolicy.allowed rbac then decision
                      else mkScopeDecision false (normalized_path decision) ($"rbac_policy_denied:" ++ fs_reasonToString (FsPolicy.reason rbac)) in
      (if FsPolicy.allowed rbac then ret tt else setDenied $"share_rbac_denied" (d_reason decision));;
      file_audit;; ret decision).
Definition authorize_actor (actor : Actor) (operation : Operation) (requestedPath : str) (targetType : option TargetType) (vaultId : option Z) :
  M ScopeDecision :=
  match actor with
  | ByShare (Some p) => authorize p operation requestedPath targetType vaultId
  | _ => throw (ERuntime $"Share actor is required")
  end.

Definition appendAccessAuditEvent (p : Principal) (r : ShareAccessAuditRequest) : M unit :=
  require (negb (is_empty (aa_event_type r))) (EArgument $"Share access audit event type is required");;
  require (negb (aa_vault_id r =? 0)) (EArgument $"Share access audit vault is required");;
  require (negb (aa_target_entry_id r =? 0)) (EArgument $"Share access audit target is required");;
  require (negb (is_empty (aa_target_path r))) (EArgument $"Share access audit target path is required");;
  let e := principal_event p (auditEvent (aa_event_type r) (aa_status r) (Some (share_id p)) (Some (share_session_id p))) in
  let e := Audit.to_path (aa_target_path r) (Audit.to_entry (aa_target_entry_id r) (Audit.in_vault (aa_vault_id r) e)) in
  audit_append (Audit.from (p_ip_address p) (p_user_agent p) (Audit.failing (aa_error_code r) (aa_error_message r) (Audit.moving (aa_bytes r) e))).

Definition consumeDownload (p : Principal) : M bool :=
  require (negb (is_empty (share_id p))) (ERuntime $"Share principal has no share id");;
  let! counted := link_consumeDownload (share_id p) in
  if counted : bool then ret true
  else
    audit_append (Audit.from (p_ip_address p) (p_user_agent p) (Audit.failing (Some $"max_downloads_reached") None
      (auditEvent $"share.download.limit" Denied (Some (share_id p)) (Some (share_session_id p)))));;
    ret false.
Definition incrementDownloadCount (p : Principal) : M unit :=
  require (negb (is_empty (share_id p))) (ERuntime $"Share principal has no share id");; link_incrementDownload (share_id p).

Definition requireActiveShareContext (p : Principal) : M (Link * Session) :=
  let! t0 := now in require (principal_isActive p t0) (EDenied $"Share principal is inactive");;
  let! found := link_get (share_id p) in
  let! link := requirePtr found $"Share link not found" in
  let! t1 := now in require (Link.isActive link t1) (EDenied $"Share link is inactive");;
  require ((Link.vault_id link =? p_vault_id p) && (Link.root_entry_id link =? p_root_entry_id p)) (EDenied $"Share principal link mismatch");;
  let! found := session_get (share_session_id p) in
  let! session := requirePtr found $"Share session not found" in
  let! t2 := now in require (Session.isActive session t2) (EDenied $"Share session is inactive");;
  require (Session.share_id session == Link.id link) (EDenied $"Share session link mismatch");;
  ret (link, session).
Definition requireUploadQuota (link : Link) (expectedSize : Z) : M unit :=
  (match Link.max_upload_files link with
   | Some m => let! n := upload_countCompletedFiles (Link.id link) in require (n <? m) (EDenied $"Share upload denied: file count limit reached")
   | None => ret tt
   end);;
  match Link.max_upload_total_bytes link with
  | Some m => let! done := upload_sumCompletedBytes (Link.id link) in
              require (negb ((m <? expectedSize) || (m - expectedSize <? done))) (EDenied $"Share upload denied: total byte limit exceeded")
  | None => ret tt
  end.
Definition requireUploadForPrincipal (p : Principal) (uploadId : str) : M Upload.Upload :=
  require (negb (is_empty uploadId)) (EArgument $"Share upload id is required");;
  let! found := upload_get uploadId in
  let! upload := requirePtr found $"Share upload not found" in
  require ((Upload.share_id upload == share_id p) && (Upload.share_session_id upload == share_session_id p))
    (EDenied $"Share upload does not belong to this share session");;
  ret upload.

Definition startUpload (r : StartUploadRequest) : M StartUploadResult :=
  let! context := requireActiveShareContext (su_principal r) in
  let link := context.1 in
  let session := context.2 in
  begin_audit (Audit.to_path (su_path r) (Audit.to_entry (su_parent r) (principal_event (su_principal r)
    (auditEvent $"share.upload.start" Success (Some (Link.id link)) (Some (Session.id session))))));;
  denying $"share_upload_start_denied" (
    lift (requireUploadAllowedByGrant link r options);;
    requireUploadQuota link (su_size r);;
    let! path := lift (map_err EShare (normalizeVaultPath (su_path r))) in
    let! created := upload_create (Upload.mk [] (Link.id link) (Session.id session) (su_parent r) path None (su_original r) (su_resolved r)
      (su_size r) 0 (su_mime r) None None Pending None 0 None) in
    edit (Audit.to_path (Upload.target_path created));;
    file_audit;;
    ret (mkUploadStarted created (max_upload_chunk_size_bytes options) (default (default_max_upload_size_bytes options) (Link.max_upload_size_bytes link))
           (Link.duplicate_policy link))).

Definition upload_event (event_type : str) (status : AuditStatus) (p : Principal) (share session : str) (u : Upload.Upload) (bytes : Z) : Audit :=
  let e := principal_event p (auditEvent event_type status (Some share) (Some session)) in
  let e := if Upload.target_parent_entry_id u =? 0 then e else Audit.to_entry (Upload.target_parent_entry_id u) e in
  Audit.moving (Some bytes) (Audit.to_path (Upload.target_path u) e).
Definition recordUploadChunk (p : Principal) (uploadId : str) (bytes : Z) : M unit :=
  require (negb (bytes =? 0)) (EArgument $"Share upload chunk bytes are required");;
  let! context := requireActiveShareContext p in
  let! upload := requireUploadForPrincipal p uploadId in
  require (negb (Upload.isTerminal upload)) (EConflict $"Share upload is already complete");;
  require (negb (Upload.exceedsExpectedSize upload bytes)) (EInvalid $"Share upload exceeds expected size");;
  begin_audit (upload_event $"share.upload.chunk" Success p (Link.id context.1) (Session.id context.2) upload bytes);;
  denying $"share_upload_chunk_denied" (upload_addReceivedBytes uploadId bytes;; file_audit).
Definition finishUpload (r : FinishUploadRequest) : M unit :=
  let! context := requireActiveShareContext (fu_principal r) in
  let! upload := requireUploadForPrincipal (fu_principal r) (fu_upload_id r) in
  require (negb (Upload.isTerminal upload)) (EConflict $"Share upload is already complete");;
  require (Upload.received_size_bytes upload =? Upload.expected_size_bytes upload) (EInvalid $"Share upload size mismatch");;
  require (negb (fu_entry r =? 0)) (EArgument $"Share upload created entry id is required");;
  begin_audit (Audit.to_entry (fu_entry r) (upload_event $"share.upload.finish" Success (fu_principal r) (Link.id context.1) (Session.id context.2) upload
    (Upload.received_size_bytes upload)));;
  denying $"share_upload_finish_denied" (
    upload_complete (fu_upload_id r) (fu_entry r) (fu_hash r) (default (default [] (Upload.mime_type upload)) (fu_mime r));;
    link_incrementUpload (Link.id context.1);;
    file_audit).
Definition cancelUpload (p : Principal) (uploadId : str) : M unit :=
  let! context := requireActiveShareContext p in
  let! upload := requireUploadForPrincipal p uploadId in
  begin_audit (upload_event $"share.upload.cancel" Success p (Link.id context.1) (Session.id context.2) upload (Upload.received_size_bytes upload));;
  denying $"share_upload_cancel_denied" (upload_cancel uploadId;; file_audit).
Definition failUpload (p : Principal) (uploadId error : str) : M unit :=
  let! upload := requireUploadForPrincipal p uploadId in
  begin_audit (Audit.failing (Some $"share_upload_failed") (Some error)
    (upload_event $"share.upload.fail" AFailed p (share_id p) (share_session_id p) upload (Upload.received_size_bytes upload)));;
  upload_fail uploadId error;; file_audit.

Definition stale_text : str := $"stale_upload_sweep".
Fixpoint sweep (l : list Upload.Upload) (failed : Z) : M Z :=
  match l with
  | [] => ret failed
  | u :: l' =>
      if Upload.isTerminal u then sweep l' failed
      else
        begin_audit (Audit.failing (Some stale_text) (Some stale_text) (Audit.moving (Some (Upload.received_size_bytes u)) (Audit.to_path (Upload.target_path u)
          ((fun e => if Upload.target_parent_entry_id u =? 0 then e else Audit.to_entry (Upload.target_parent_entry_id u) e)
            (auditEvent $"share.upload.stale_sweep" AFailed (Some (Upload.share_id u)) (Some (Upload.share_session_id u)))))));;
        denying $"stale_upload_sweep_failed" (upload_fail (Upload.id u) stale_text);;
        file_audit;; sweep l' (failed + 1)
  end.
Definition sweepStaleUploads (older_than limit : Z) : M StaleUploadSweepResult :=
  let olderThan := if 0 <? older_than then older_than else stale_upload_ttl_seconds options in
  let limit := if 0 <? limit then limit else stale_upload_sweep_limit options in
  require (0 <? olderThan) (EArgument $"Share stale upload sweep age must be positive");;
  if limit =? 0 then ret (mkSweep 0 0)
  else
    let! uploads := upload_listStaleActive olderThan limit in
    let! failed := sweep uploads 0 in
    ret (mkSweep (Z.of_nat (length uploads)) failed).
End Manager.

(** ** The default authorizer: the vault permissions of the human user *)
Section DefaultAuthorizer.
Context {W : Type} `{Outside W} `{FsEnv}.
Notation M A := (Monad.M (World W) Error A).

Definition fusePathFor (vaultId : Z) (vaultPath : str) : result Error (option str) :=
  match getEngine vaultId with
  | None => Ok None
  | Some engine => let? path := map_err EShare (normalizeVaultPath vaultPath) in Ok (Some (vaultPathToFusePath engine path))
  end.
Definition hasFsPermission (user : User) (vaultId : Z) (path : str) (action : FilesystemAction) : result Error bool :=
  let? fuse := fusePathFor vaultId path in
  match fuse with
  | None => Ok false
  | Some fuse => Ok (FsPolicy.has (Some (u_view user)) action (Some vaultId) (Some fuse) None)
  end.
Definition hasMetadataPermission (user : User) (vaultId : Z) (path : str) : result Error bool :=
  let? fuse := fusePathFor vaultId path in
  match fuse with
  | None => Ok false
  | Some fuse => Ok (FsPolicy.has (Some (u_view user)) Lookup (Some vaultId) (Some fuse) None
                     || FsPolicy.has (Some (u_view user)) Preview (Some vaultId) (Some fuse) None)
  end.
(** [forEachOperation]: the operations of the mask in order, until one fails. *)
Fixpoint forEachOperation (ops : Z) (all : list Operation) (fn : Operation -> result Error bool) : result Error bool :=
  match all with
  | [] => Ok true
  | op :: all' =>
      if Z.land ops (bit op) =? 0 then forEachOperation ops all' fn
      else let? ok := fn op in if ok : bool then forEachOperation ops all' fn else Ok false
  end.

Definition human_only : AuthorizationDecision := deny $"share_management_requires_human_user".
Definition hasShareMode (actor : Actor) (link : Link) : result Error AuthorizationDecision :=
  match humanUser actor with
  | None => Ok human_only
  | Some user =>
      let validated := Link.access_mode link == EmailValidated in
      let? ok := hasFsPermission user (Link.vault_id link) (Link.root_path link) (if validated then SharePublicValidated else SharePublic) in
      Ok (if ok : bool then allow
          else deny (if validated then $"missing_share_public_validated_permission" else $"missing_share_public_permission"))
  end.
Definition can_grant_operation (user : User) (link : Link) (op : Operation) : result Error bool :=
  let at_root := hasFsPermission user (Link.vault_id link) (Link.root_path link) in
  match op with
  | Metadata => hasMetadataPermission user (Link.vault_id link) (Link.root_path link)
  | OpList => at_root List_ | OpPreview => at_root FsPolicy.Preview | Download => at_root Read | Upload => at_root Write
  | Mkdir => at_root Touch | OpOverwrite => at_root FsPolicy.Overwrite
  end.
Definition canGrant (actor : Actor) (link : Link) : result Error AuthorizationDecision :=
  let? mode := hasShareMode actor link in
  if negb (a_allowed mode) then Ok mode
  else match humanUser actor with
       | None => Ok human_only
       | Some user =>
           let? ok := forEachOperation (Link.allowed_ops link) shareOperations (can_grant_operation user link) in
           Ok (if ok : bool then allow else deny $"delegated_operation_not_grantable")
       end.

Definition shareRootEntryMatchesLink (link : Link) : M AuthorizationDecision :=
  let! entry := exec (fun o t => Ok (entry_by_id o (Link.root_entry_id link), t)) in
  lift (match entry with
        | None => Ok (deny $"root_entry_not_in_vault")
        | Some e =>
            if match e_vault_id e with Some v => negb (v mod 2 ^ 32 =? Link.vault_id link) | None => true end
            then Ok (deny $"root_entry_not_in_vault")
            else
              let? a := map_err EShare (normalizeVaultPath (e_path e)) in
              let? b := map_err EShare (normalizeVaultPath (Link.root_path link)) in
              Ok (if a !== b then deny $"root_entry_path_mismatch"
                  else if (if e_isDirectory e then Directory else File) !== Link.target_type link then deny $"root_entry_type_mismatch"
                  else allow)
        end).

#[export] Instance default_authorizer : ShareAuthorizer := {
  canCreateLink actor link :=
    let! granted := lift (canGrant actor link) in
    if a_allowed granted then shareRootEntryMatchesLink link else ret granted;
  canUpdateLink actor existing updated :=
    lift (match humanUser actor with
          | Some user => if u_id user =? Link.created_by existing then canGrant actor updated else canGrant actor updated
          | None => canGrant actor updated
          end);
  canManageLink actor link :=
    lift (match humanUser actor with
          | None => Ok human_only
          | Some user => if u_id user =? Link.created_by link then Ok allow else hasShareMode actor link
          end);
  canListVaultLinks actor vaultId :=
    lift (match humanUser actor with
          | None => Ok human_only
          | Some user =>
              let? a := hasFsPermission user vaultId $"/" SharePublic in
              let? ok := (if a : bool then Ok true else hasFsPermission user vaultId $"/" SharePublicValidated) in
              Ok (if ok : bool then allow else deny $"missing_share_management_permission")
          end) }.
End DefaultAuthorizer.

(** ** A small installation *)
Module ManagerDemo.
(** Draws come from a counter; time is [1000] plus half of it. *)
Definition hex_digit (n : Z) : Ascii.ascii := if n <? 10 then digit_char n else Ascii.ascii_of_nat (Z.to_nat (87 + n)).
Fixpoint hex (k : nat) (n : Z) : str := match k with O => [] | S k => hex k (n / 16) ++ [hex_digit (n mod 16)] end.
Definition demo_uuid (n : Z) : str := $"00000000-0000-4000-8000-" ++ hex 12 n.
Definition reader : RoleTemplate := mkTemplate 3 Files_ReadOnly Directories_ReadOnly.
Definition docs : Entry := mkEntry 9 None (Some 7) $"/docs" true 0 0 0.
#[export] Instance demo_outside : Outside Z := {
  transaction_fails n := (None, n + 1); read_clock n := (1000 + n / 2, n + 1); db_now n := 1000 + n / 2;
  gen_random_uuid n := (demo_uuid n, n + 1); draw_token n := ((demo_uuid (1048576 + n), $"secret" ++ Prelude.to_string n), n + 1);
  draw_code n := ($"123456", n + 1); sharing _ := mkSharing true true true; vault_deleted _ _ := false;
  role_by_id _ id := if id =? 3 then Some reader else None; role_by_name _ _ := Some reader;
  entry_by_id _ id := if id =? 9 then Some docs else None }.
#[export] Instance demo_registry : Registry := { permission_bit _ := Some 1; collate _ _ := true }.
#[export] Instance demo_array : ArrayText := { array_out l := $"{" ++ concat (map (fun s => s ++ $",") l) ++ $"}" }.
#[export] Instance demo_env : FsEnv := {
  getEngine v := if v =? 7 then Some (mkEngine (FsPolicy.mkVault 7 5) id id) else None; resolveStorageEngine _ := None; getEntry p := if p == $"/docs" then Some docs else None;
  account v := Some (v, false) }.
Definition admin : Actor := ByHuman (Some (mkUser 1 (mkView true 1 true ∅ [] None))).
Definition public_sharer : Filesystem :=
  mkFilesystem (mkFiles (f_permissions Files_Full) Share_PublicOnly) (mkDirectories (d_permissions Directories_Full) Share_PublicOnly) [].
Definition bob : Actor := ByHuman (Some (mkUser 2 (mkView true 2 false {[ 7 := Some public_sharer ]} [] None))).
Definition demo_link (mode : AccessMode) : Link :=
  Link.mk [] [] [] 0 None None 7 9 $"/docs" Directory LAccess mode (1 + 2 + 4 + 8 + 16) None None None None None None 0 0 None 0 0 0 (Some 2) (Some 1) None None
    Reject [] [] [] [] [].
Definition empty_tables : Tables := mkTables [] [] [] [] [] [] [] [] 1.
Definition start : World Z := mkWorld empty_tables 0 0 (auditEvent [] Success None None).
End ManagerDemo.
