(* ===== verification/ShareSteps.v ===== *)
(** * What the share manager does to its tables

    The changes of the tables as a step relation, labelled by kinds; an operation's footprint is
    the kinds of changes it may make, whatever its outcome ([keeps_to]).  [wf] is the invariant of
    the tables, which every change keeps.  [Request] is every operation of the manager with its
    arguments, [run] serves one and [run_all] a history of them. *)
From S2P Require Import Prelude Monad Paths Glob Perm FsPolicy ShareTokens SharePolicy ShareScope ShareStore ShareManager.
#[local] Open Scope Z_scope.

(** ** Changes of the tables *)
Inductive Kind :=
| KCreate | KEdit | KRevoke | KRotate | KAccess | KConsume | KDownload | KUploaded
| KSession | KVerify | KTouch | KClose
| KChallenge | KAttempt | KSpend
| KUpload | KReceive | KFinish | KStop
| KRoles | KAudit.

Inductive link_step : Kind -> Link -> Link -> Prop :=
| step_updated new now l : link_step KEdit l (Link.updated new now l)
| step_revoked by_ now l : link_step KRevoke l (Link.revoked by_ now l)
| step_rotated lookup hash by_ now l : link_step KRotate l (Link.rotated lookup hash by_ now l)
| step_accessed now l : link_step KAccess l (Link.accessed now l)
| step_downloaded now l : link_step KDownload l (Link.downloaded now l)
| step_uploaded now l : link_step KUploaded l (Link.uploaded now l).
Inductive session_step : Kind -> Session -> Session -> Prop :=
| step_touched now s : session_step KTouch s (Session.touched now s)
| step_closed now s : session_step KClose s (Session.revoked now s).
Inductive upload_step : Kind -> Upload.Upload -> Upload.Upload -> Prop :=
| step_received bytes u : upload_step KReceive u (Upload.received bytes u)
| step_failed why now u : upload_step KStop u (Upload.failed why now u)
| step_cancelled now u : upload_step KStop u (Upload.cancelled now u).

(** A consumed challenge that vouches for the e-mail address of a session. *)
Definition vouches (hash share session : str) (c : Challenge) : Prop :=
  Challenge.consumed_at c <> None /\ Challenge.email_hash c = hash /\ Challenge.share_id c = share /\
  match Challenge.share_session_id c with Some s => s = session | None => True end.

Inductive change (t : Tables) : Kind -> Tables -> Prop :=
| add_link row :
    Forall (fun l => Link.id l <> Link.id row /\ Link.token_lookup_id l <> Link.token_lookup_id row) (links t) ->
    Link.constraints row = true -> key (Link.id row) = Link.id row -> Link.download_count row = 0 ->
    change t KCreate (with_links (links t ++ [row]) t)
| set_link k i f e row ls :
    (forall l, link_step k l (f l)) ->
    (forall l', k = KRotate -> l' ∈ links t -> Link.id l' <> i -> Link.token_lookup_id l' <> Link.token_lookup_id row) ->
    update_one (fun l => Link.id l == i) f Link.constraints e (links t) = Ok (row, ls) ->
    change t k (with_links ls t)
| consume_download i now :
    change t KConsume (with_links (update_rows (fun l => (Link.id l == i) && below_limit l) (Link.downloaded now) (links t)) t)
| add_session row :
    Forall (fun s => Session.id s <> Session.id row /\ Session.session_token_lookup_id s <> Session.session_token_lookup_id row) (sessions t) ->
    Session.share_id row ∈ Link.id <$> links t -> Session.verified_at row = None -> Session.revoked_at row = None ->
    key (Session.id row) = Session.id row ->
    change t KSession (with_sessions (sessions t ++ [row]) t)
| set_session k i f e row ss :
    (forall s, session_step k s (f s)) ->
    update_one (fun s => Session.id s == i) f (fun _ => true) e (sessions t) = Ok (row, ss) ->
    change t k (with_sessions ss t)
| verify_session i hash now e row ss :
    (forall s, s ∈ sessions t -> Session.id s = i -> Exists (vouches hash (Session.share_id s) i) (challenges t)) ->
    update_one (fun s => Session.id s == i) (Session.verified hash now) (fun _ => true) e (sessions t) = Ok (row, ss) ->
    change t KVerify (with_sessions ss t)
| close_sessions share now :
    change t KClose (with_sessions (update_rows (fun s => (Session.share_id s == share) && (Session.revoked_at s == None)) (Session.revoked now)
      (sessions t)) t)
| add_challenge row :
    Forall (fun c => Challenge.id c <> Challenge.id row) (challenges t) -> Challenge.share_id row ∈ Link.id <$> links t ->
    (forall s, Challenge.share_session_id row = Some s -> s ∈ Session.id <$> sessions t) -> Challenge.constraints row = true ->
    Challenge.consumed_at row = None -> Challenge.attempts row = 0 ->
    change t KChallenge (with_challenges (challenges t ++ [row]) t)
| attempt_challenge i now e row cs :
    update_one (fun c => (Challenge.id c == i) && ((Challenge.attempts c <? Challenge.max_attempts c) && unspent now c)) Challenge.attempted
      Challenge.constraints e (challenges t) = Ok (row, cs) ->
    change t KAttempt (with_challenges cs t)
| spend_challenge i now e row cs :
    update_one (fun c => (Challenge.id c == i) && unspent now c) (Challenge.consumed now) Challenge.constraints e (challenges t) = Ok (row, cs) ->
    change t KSpend (with_challenges cs t)
| add_upload row :
    Forall (fun u => Upload.id u <> Upload.id row) (uploads t) -> Upload.share_id row ∈ Link.id <$> links t ->
    Upload.share_session_id row ∈ Session.id <$> sessions t -> Upload.constraints row = true -> Upload.status row = Pending ->
    change t KUpload (with_uploads (uploads t ++ [row]) t)
| set_upload k i guard f e row us :
    (forall u, upload_step k u (f u)) ->
    update_one (fun u => (Upload.id u == i) && Upload.active u && guard u) f Upload.constraints e (uploads t) = Ok (row, us) ->
    change t k (with_uploads us t)
| finish_upload i entry hash mime now e row us :
    (forall u, u ∈ uploads t -> Upload.id u = i -> Upload.received_size_bytes u = Upload.expected_size_bytes u) ->
    update_one (fun u => (Upload.id u == i) && Upload.active u && true) (Upload.completed entry hash mime now) Upload.constraints e (uploads t)
      = Ok (row, us) ->
    change t KFinish (with_uploads us t)
| set_roles rs rows old n :
    change t KRoles (mkTables (links t) (sessions t) (challenges t) (uploads t) rs rows old (events t) n)
| add_event e :
    (forall s, Audit.share_id e = Some s -> key s ∈ Link.id <$> links t) ->
    (forall s, Audit.share_session_id e = Some s -> key s ∈ Session.id <$> sessions t) ->
    change t KAudit (with_events (events t ++ [e]) t).

(** ** Well-formed tables *)
Definition consumed (c : Challenge) : Prop := Challenge.consumed_at c <> None.
Definition session_ok (t : Tables) (s : Session) : Prop :=
  Session.share_id s ∈ Link.id <$> links t /\ key (Session.id s) = Session.id s /\
  (Session.isVerified s = true ->
     exists hash, Session.email_hash s = Some hash /\ Exists (vouches hash (Session.share_id s) (Session.id s)) (challenges t)).
Definition challenge_ok (t : Tables) (c : Challenge) : Prop :=
  Challenge.share_id c ∈ Link.id <$> links t /\
  (forall s, Challenge.share_session_id c = Some s -> s ∈ Session.id <$> sessions t) /\
  Challenge.constraints c = true /\ Challenge.attempts c <= Challenge.max_attempts c.
Definition upload_ok (t : Tables) (u : Upload.Upload) : Prop :=
  Upload.share_id u ∈ Link.id <$> links t /\ Upload.share_session_id u ∈ Session.id <$> sessions t /\ Upload.constraints u = true /\
  (Upload.status u = Complete -> Upload.received_size_bytes u = Upload.expected_size_bytes u).
Definition event_ok (t : Tables) (e : Audit) : Prop :=
  (forall s, Audit.share_id e = Some s -> key s ∈ Link.id <$> links t) /\
  (forall s, Audit.share_session_id e = Some s -> key s ∈ Session.id <$> sessions t).
Definition link_ok (l : Link) : Prop := Link.constraints l = true /\ key (Link.id l) = Link.id l.

Record wf (t : Tables) : Prop := {
  wf_link_ids : NoDup (Link.id <$> links t); wf_lookups : NoDup (Link.token_lookup_id <$> links t); wf_links : Forall link_ok (links t);
  wf_session_ids : NoDup (Session.id <$> sessions t); wf_session_lookups : NoDup (Session.session_token_lookup_id <$> sessions t);
  wf_sessions : Forall (session_ok t) (sessions t);
  wf_challenge_ids : NoDup (Challenge.id <$> challenges t); wf_challenges : Forall (challenge_ok t) (challenges t);
  wf_upload_ids : NoDup (Upload.id <$> uploads t); wf_uploads : Forall (upload_ok t) (uploads t);
  wf_events : Forall (event_ok t) (events t) }.

(** *** Updates of rows *)
Lemma update_one_rows {A} (hit : A -> bool) f ok e l a l' : update_one hit f ok e l = Ok (a, l') -> l' = update_rows hit f l.
Proof. unfold update_one. destruct (find hit l); [|done]. case_if; naive_solver. Qed.
Lemma update_rows_misses {A} (hit : A -> bool) f l : Forall (fun x => hit x = false) l -> update_rows hit f l = l.
Proof. induction 1 as [|x l Hx _ IH]; simpl; [done|]. by rewrite Hx, IH. Qed.
Lemma find_split {A} (hit : A -> bool) l x : find hit l = Some x ->
  exists l1 l2, l = l1 ++ x :: l2 /\ hit x = true /\ Forall (fun y => hit y = false) l1.
Proof.
  induction l as [|y l IH]; simpl; [done|]. destruct (hit y) eqn:Ey; intros Hf.
  - injection Hf as ->. by exists [], l.
  - destruct (IH Hf) as (l1 & l2 & -> & ? & ?). exists (y :: l1), l2. auto.
Qed.
(** One row of a unique id changes. *)
Lemma update_one_split {A B} (idf : A -> B) (i : B) (hit : A -> bool) f ok e l a l' :
  update_one hit f ok e l = Ok (a, l') -> NoDup (idf <$> l) -> (forall x, hit x = true -> idf x = i) ->
  exists l1 x l2, l = l1 ++ x :: l2 /\ l' = l1 ++ a :: l2 /\ a = f x /\ hit x = true /\ ok a = true.
Proof.
  intros Hu Hnd Hhit. pose proof (update_one_rows _ _ _ _ _ _ _ Hu) as ->. revert Hu. unfold update_one.
  destruct (find hit l) as [x|] eqn:Ef; [|done]. case_if; [|done]. intros [= <-].
  destruct (find_split _ _ _ Ef) as (l1 & l2 & -> & Hx & H1). exists l1, x, l2. split_and!; [done| |done..].
  unfold update_rows. rewrite map_app. simpl. rewrite Hx. f_equal; [by apply update_rows_misses|f_equal].
  apply update_rows_misses, Forall_forall. intros y Hy. destruct (hit y) eqn:Ey; [|done].
  rewrite fmap_app, fmap_cons in Hnd. apply NoDup_app in Hnd as (_ & _ & [Hn _]%NoDup_cons). destruct Hn.
  rewrite (Hhit x Hx), <- (Hhit y Ey). by apply list_elem_of_fmap_2.
Qed.
Lemma update_rows_fmap {A B} (idf : A -> B) (hit : A -> bool) f l : (forall x, idf (f x) = idf x) -> idf <$> update_rows hit f l = idf <$> l.
Proof. intros Hf. unfold update_rows. induction l as [|x l IH]; csimpl; [done|]. rewrite IH. by destruct (hit x); rewrite ?Hf. Qed.
Lemma update_rows_Forall {A} (P : A -> Prop) (hit : A -> bool) f l : Forall P l -> (forall x, P x -> hit x = true -> P (f x)) ->
  Forall P (update_rows hit f l).
Proof. intros Hl Hf. apply Forall_fmap. apply (Forall_impl _ _ _ Hl). intros x Hx. simpl. destruct (hit x) eqn:E; auto. Qed.
Lemma update_rows_elem {A} (hit : A -> bool) f l x : x ∈ l -> hit x = false -> x ∈ update_rows hit f l.
Proof. intros Hx Hh. apply list_elem_of_fmap. exists x. by rewrite Hh. Qed.
Lemma NoDup_fmap_snoc {A B} (idf : A -> B) l x : NoDup (idf <$> l) -> Forall (fun y => idf y <> idf x) l -> NoDup (idf <$> l ++ [x]).
Proof.
  intros Hnd Hx. rewrite fmap_app. apply NoDup_app. split_and!; [done| |apply NoDup_singleton].
  intros b (y & -> & Hy)%list_elem_of_fmap Hin. rewrite Forall_forall in Hx. apply (Hx y Hy). set_solver.
Qed.
Lemma Forall_snoc_2 {A} (P : A -> Prop) l x : Forall P l -> P x -> Forall P (l ++ [x]).
Proof. intros. apply Forall_app. auto. Qed.
Lemma has_link_spec s t : has_link s t = true <-> key s ∈ Link.id <$> links t.
Proof.
  unfold has_link. rewrite existsb_exists, list_elem_of_fmap. setoid_rewrite eqb_eq.
  split; [intros (l & ?%list_elem_of_In & ?)|intros (l & ? & ?%list_elem_of_In)]; eauto.
Qed.
Lemma has_session_spec s t : has_session s t = true <-> key s ∈ Session.id <$> sessions t.
Proof.
  unfold has_session. rewrite existsb_exists, list_elem_of_fmap. setoid_rewrite eqb_eq.
  split; [intros (l & ?%list_elem_of_In & ?)|intros (l & ? & ?%list_elem_of_In)]; eauto.
Qed.
Lemma tolower_idemp c : tolower (tolower c) = tolower c.
Proof. destruct c as [[] [] [] [] [] [] [] []]; vm_compute; reflexivity. Qed.
Lemma key_idemp s : key (key s) = key s.
Proof. unfold key. induction s as [|c s IH]; simpl; [done|]. by rewrite tolower_idemp, IH. Qed.

(** *** What later tables still know *)
Definition knows (t t' : Tables) : Prop :=
  (Link.id <$> links t) ⊆ (Link.id <$> links t') /\ (Session.id <$> sessions t) ⊆ (Session.id <$> sessions t') /\
  (forall c, c ∈ challenges t -> consumed c -> c ∈ challenges t').

Lemma link_step_id k l l' : link_step k l l' -> Link.id l' = Link.id l.
Proof. by destruct 1. Qed.
Lemma session_step_id k s s' : session_step k s s' -> Session.id s' = Session.id s /\ Session.session_token_lookup_id s' = Session.session_token_lookup_id s.
Proof. by destruct 1. Qed.
Lemma unspent_unconsumed now c : unspent now c = true -> Challenge.consumed_at c = None.
Proof. unfold unspent. intros H. bsimpl. done. Qed.
Lemma update_rows_kept {A} (P : A -> Prop) (hit : A -> bool) f l x : (forall y, hit y = true -> ~ P y) -> x ∈ l -> P x -> x ∈ update_rows hit f l.
Proof. intros Hh Hx HP. apply update_rows_elem; [done|]. destruct (hit x) eqn:E; [|done]. by destruct (Hh x E). Qed.

Lemma change_knows t k t' : change t k t' -> knows t t'.
Proof.
  unfold knows, consumed. intros Hc; destruct Hc; simpl; rewrite ?fmap_app;
    try match goal with H : update_one _ _ _ _ _ = Ok _ |- _ => apply update_one_rows in H as -> end;
    rewrite ?(update_rows_fmap Link.id), ?(update_rows_fmap Session.id)
      by (intros; first [done | eapply link_step_id; eauto | eapply session_step_id; eauto]);
    (split_and!; [set_solver|set_solver|]); intros c Hc Hd; try apply elem_of_app; auto.
  - apply (update_rows_kept consumed); [|done..]. intros y Hy. bsimpl. intros []. by eapply unspent_unconsumed.
  - apply (update_rows_kept consumed); [|done..]. intros y Hy. bsimpl. intros []. by eapply unspent_unconsumed.
Qed.

Lemma vouches_mono t t' hash share session : knows t t' -> Exists (vouches hash share session) (challenges t) ->
  Exists (vouches hash share session) (challenges t').
Proof. intros (_ & _ & Hk). rewrite !Exists_exists. intros (c & Hc & Hv). exists c. split; [|done]. apply Hk; [done|apply Hv]. Qed.
Lemma session_ok_mono t t' s : knows t t' -> session_ok t s -> session_ok t' s.
Proof.
  intros Hk (Hl & Hc & Hv). split_and!; [apply Hk, Hl|done|]. intros Hver. destruct (Hv Hver) as (h & ? & ?). exists h. eauto using vouches_mono.
Qed.
Lemma challenge_ok_mono t t' c : knows t t' -> challenge_ok t c -> challenge_ok t' c.
Proof. intros Hk (? & Hs & ?). split_and!; [by apply Hk| |tauto..]. intros s Hc. apply Hk. eauto. Qed.
Lemma upload_ok_mono t t' u : knows t t' -> upload_ok t u -> upload_ok t' u.
Proof. intros Hk (? & ? & ?). split_and!; [by apply Hk..|tauto|tauto]. Qed.
Lemma event_ok_mono t t' e : knows t t' -> event_ok t e -> event_ok t' e.
Proof. intros Hk [H1 H2]. split; intros s Hs; apply Hk; eauto. Qed.

(** The invariant follows when each table's own clause does. *)
Lemma wf_change t t' : wf t -> knows t t' ->
  NoDup (Link.id <$> links t') -> NoDup (Link.token_lookup_id <$> links t') -> Forall link_ok (links t') ->
  NoDup (Session.id <$> sessions t') -> NoDup (Session.session_token_lookup_id <$> sessions t') ->
  Forall (fun s => s ∈ sessions t \/ session_ok t' s) (sessions t') ->
  NoDup (Challenge.id <$> challenges t') -> Forall (fun c => c ∈ challenges t \/ challenge_ok t' c) (challenges t') ->
  NoDup (Upload.id <$> uploads t') -> Forall (fun u => u ∈ uploads t \/ upload_ok t' u) (uploads t') ->
  Forall (fun e => e ∈ events t \/ event_ok t' e) (events t') -> wf t'.
Proof.
  intros Hw Hk. intros. split; try done.
  - eapply Forall_impl; [eassumption|]. intros s [Hs|]; [|done]. eapply session_ok_mono; [done|]. by eapply Forall_forall; [apply wf_sessions|].
  - eapply Forall_impl; [eassumption|]. intros s [Hs|]; [|done]. eapply challenge_ok_mono; [done|]. by eapply Forall_forall; [apply wf_challenges|].
  - eapply Forall_impl; [eassumption|]. intros s [Hs|]; [|done]. eapply upload_ok_mono; [done|]. by eapply Forall_forall; [apply wf_uploads|].
  - eapply Forall_impl; [eassumption|]. intros s [Hs|]; [|done]. eapply event_ok_mono; [done|]. by eapply Forall_forall; [apply wf_events|].
Qed.

(** *** Every change keeps the invariant *)
Lemma old_rows {A} (P : A -> Prop) (l : list A) : Forall (fun x => x ∈ l \/ P x) l.
Proof. apply Forall_forall. auto. Qed.
Lemma old_rows_snoc {A} (P : A -> Prop) (l : list A) a : P a -> Forall (fun x => x ∈ l \/ P x) (l ++ [a]).
Proof. intros. apply Forall_snoc_2; auto. apply old_rows. Qed.
Lemma old_rows_split {A} (P : A -> Prop) (l1 l2 : list A) x a : P a -> Forall (fun y => y ∈ l1 ++ x :: l2 \/ P y) (l1 ++ a :: l2).
Proof.
  intros. apply Forall_app. split; [|constructor; [auto|]]; apply Forall_forall; intros y Hy; left; set_solver.
Qed.

Definition row_changed (k : Kind) (t : Tables) (x row : Link) (l1 l2 : list Link) : Prop :=
  links t = l1 ++ x :: l2 /\ link_step k x row /\ Link.constraints row = true.
Lemma link_step_lookup k l l' : link_step k l l' -> k <> KRotate -> Link.token_lookup_id l' = Link.token_lookup_id l.
Proof. by destruct 1. Qed.
Lemma wf_row_changed k t x row l1 l2 : wf t -> row_changed k t x row l1 l2 ->
  (k = KRotate -> forall l', l' ∈ l1 ++ l2 -> Link.token_lookup_id l' <> Link.token_lookup_id row) ->
  NoDup (Link.token_lookup_id <$> l1 ++ row :: l2) /\ Forall link_ok (l1 ++ row :: l2).
Proof.
  intros Hw (El & Hs & Hc) Hr. pose proof (wf_lookups t Hw) as Hl. pose proof (wf_links t Hw) as Hf. rewrite El in Hl, Hf. split.
  - assert (k = KRotate \/ k <> KRotate) as [Hk|Hk] by (destruct k; auto).
    + rewrite fmap_app, fmap_cons in *. apply NoDup_app in Hl as (H1 & H2 & [H3 H4]%NoDup_cons).
      apply NoDup_app. split_and!; [done| |apply NoDup_cons; split; [|done]].
      * intros y Hy [->|Hy']%elem_of_cons; [|apply (H2 y Hy); set_solver].
        apply list_elem_of_fmap in Hy as (z & Ez & Hz). apply (Hr Hk z); [set_solver|done].
      * intros (z & Ez & Hz)%list_elem_of_fmap. apply (Hr Hk z); [set_solver|done].
    + rewrite fmap_app, fmap_cons in *. by rewrite (link_step_lookup _ _ _ Hs Hk).
  - apply Forall_app in Hf as [H1 H2]. inversion H2; subst. apply Forall_app. split; [done|constructor; [|done]].
    split; [done|]. rewrite (link_step_id _ _ _ Hs). by match goal with H : link_ok x |- _ => destruct H end.
Qed.

Lemma set_link_split t k i f e row ls : wf t -> (forall l, link_step k l (f l)) ->
  update_one (fun l => Link.id l == i) f Link.constraints e (links t) = Ok (row, ls) ->
  exists l1 x l2, row_changed k t x row l1 l2 /\ ls = l1 ++ row :: l2 /\ Link.id x = i.
Proof.
  intros Hw Hs Hu. destruct (update_one_split Link.id i _ _ _ _ _ _ _ Hu (wf_link_ids t Hw)) as (l1 & x & l2 & ? & ? & -> & ? & ?).
  - intros x Hx. by apply eqb_eq.
  - exists l1, x, l2. split_and!; [split_and!; auto|done|by apply eqb_eq].
Qed.

Ltac wf_clauses t Hw Hc := apply (wf_change t); [done|exact (change_knows _ _ _ Hc)|..]; simpl; try apply Hw; try apply old_rows.
Lemma wf_set_link t k i f e row ls : wf t -> (forall l, link_step k l (f l)) ->
  (forall l', k = KRotate -> l' ∈ links t -> Link.id l' <> i -> Link.token_lookup_id l' <> Link.token_lookup_id row) ->
  update_one (fun l => Link.id l == i) f Link.constraints e (links t) = Ok (row, ls) -> wf (with_links ls t).
Proof.
  intros Hw Hs Hr Hu. pose proof (set_link t k i f e row ls Hs Hr Hu) as Hc.
  destruct (set_link_split t k i f e row ls Hw Hs Hu) as (l1 & x & l2 & Hx & -> & Hi).
  pose proof (wf_link_ids t Hw) as Hn. pose proof Hx as (El & Hst & _). rewrite El, fmap_app, fmap_cons in Hn.
  destruct (wf_row_changed _ _ _ _ _ _ Hw Hx) as [? ?].
  - intros Hk l' Hl'. apply Hr; [done|rewrite El; set_solver|]. intros Ei.
    apply NoDup_app in Hn as (_ & H2 & [H3 _]%NoDup_cons). apply elem_of_app in Hl' as [Hl'|Hl'].
    + apply (H2 (Link.id l')); [by apply list_elem_of_fmap_2|]. rewrite Ei, Hi. set_solver.
    + apply H3. rewrite Hi, <- Ei. by apply list_elem_of_fmap_2.
  - wf_clauses t Hw Hc; [|done..]. by rewrite fmap_app, fmap_cons, (link_step_id _ _ _ Hst).
Qed.
Lemma wf_consume t i now : wf t ->
  wf (with_links (update_rows (fun l => (Link.id l == i) && below_limit l) (Link.downloaded now) (links t)) t).
Proof.
  intros Hw. pose proof (consume_download t i now) as Hc.
  wf_clauses t Hw Hc; [rewrite (update_rows_fmap Link.id)|rewrite (update_rows_fmap Link.token_lookup_id)|apply update_rows_Forall]; try done; apply Hw.
Qed.
Lemma wf_sessions_changed t k ss : wf t -> change t k (with_sessions ss t) ->
  Session.id <$> ss = Session.id <$> sessions t -> Session.session_token_lookup_id <$> ss = Session.session_token_lookup_id <$> sessions t ->
  Forall (fun s => s ∈ sessions t \/ session_ok (with_sessions ss t) s) ss -> wf (with_sessions ss t).
Proof. intros Hw Hc E1 E2 H. wf_clauses t Hw Hc; rewrite ?E1, ?E2; try apply Hw. done. Qed.
Lemma session_step_ok t k s s' : session_step k s s' -> session_ok t s -> session_ok t s'.
Proof. by destruct 1. Qed.
Lemma session_rows_ok t t' (hit : Session -> bool) f : wf t -> knows t t' -> (forall s, session_ok t' s -> session_ok t' (f s)) ->
  Forall (fun s => s ∈ sessions t \/ session_ok t' s) (update_rows hit f (sessions t)).
Proof.
  intros Hw Hk Hf. eapply Forall_impl; [apply (update_rows_Forall (session_ok t'))|by right].
  - eapply Forall_impl; [apply (wf_sessions t Hw)|]. intros s. by apply session_ok_mono.
  - auto.
Qed.
Lemma wf_set_session t k i f e row ss : wf t -> (forall s, session_step k s (f s)) ->
  update_one (fun s => Session.id s == i) f (fun _ => true) e (sessions t) = Ok (row, ss) -> wf (with_sessions ss t).
Proof.
  intros Hw Hs Hu. pose proof (set_session t k i f e row ss Hs Hu) as Hc. pose proof (update_one_rows _ _ _ _ _ _ _ Hu) as ->.
  apply (wf_sessions_changed t k); [done..| | |].
  - apply (update_rows_fmap Session.id). intros s. by eapply session_step_id.
  - apply (update_rows_fmap Session.session_token_lookup_id). intros s. by eapply session_step_id.
  - apply session_rows_ok; [done|by eapply change_knows|]. intros s. by eapply session_step_ok.
Qed.
Lemma wf_close_sessions t share now : wf t ->
  wf (with_sessions (update_rows (fun s => (Session.share_id s == share) && (Session.revoked_at s == None)) (Session.revoked now) (sessions t)) t).
Proof.
  intros Hw. pose proof (close_sessions t share now) as Hc. apply (wf_sessions_changed t KClose); [done..| | |].
  - by apply (update_rows_fmap Session.id).
  - by apply (update_rows_fmap Session.session_token_lookup_id).
  - apply session_rows_ok; [done|by eapply change_knows|done].
Qed.
Lemma wf_verify_session t i hash now e row ss : wf t ->
  (forall s, s ∈ sessions t -> Session.id s = i -> Exists (vouches hash (Session.share_id s) i) (challenges t)) ->
  update_one (fun s => Session.id s == i) (Session.verified hash now) (fun _ => true) e (sessions t) = Ok (row, ss) -> wf (with_sessions ss t).
Proof.
  intros Hw Hv Hu. pose proof (verify_session t i hash now e row ss Hv Hu) as Hc. pose proof (update_one_rows _ _ _ _ _ _ _ Hu) as Es.
  apply (wf_sessions_changed t KVerify); [done..| | |]; [subst; by apply (update_rows_fmap _ _ (Session.verified hash now))..|].
  destruct (update_one_split Session.id i _ _ _ _ _ _ _ Hu (wf_session_ids t Hw)) as (l1 & x & l2 & El & -> & -> & Hx & _).
  { intros s. apply eqb_eq. }
  apply (Forall_impl (fun y => y ∈ l1 ++ x :: l2 \/ session_ok (with_sessions (l1 ++ Session.verified hash now x :: l2) t) y)); [|by rewrite El].
  apply old_rows_split. bsimpl. apply and_assoc. split; simpl.
  - pose proof (wf_sessions t Hw) as Hf. rewrite El in Hf. apply Forall_app in Hf as [_ Hf]. inversion Hf as [|? ? (Ho & Hk & _)]; subst. auto.
  - intros _. exists hash. split; [done|]. rewrite Hx. apply Hv; [rewrite El; set_solver|done].
Qed.

Lemma challenge_row_ok t k cs hit f e row : wf t -> change t k (with_challenges cs t) ->
  (forall c, hit c = true -> challenge_ok t c -> Challenge.constraints (f c) = true -> challenge_ok (with_challenges cs t) (f c)) ->
  (forall c, Challenge.id (f c) = Challenge.id c) -> (exists i, forall c, hit c = true -> Challenge.id c = i) ->
  update_one hit f Challenge.constraints e (challenges t) = Ok (row, cs) -> wf (with_challenges cs t).
Proof.
  intros Hw Hc Hf Hi [i Hh] Hu.
  destruct (update_one_split Challenge.id i _ _ _ _ _ _ _ Hu (wf_challenge_ids t Hw) Hh) as (l1 & x & l2 & El & -> & -> & Hx & Hok).
  wf_clauses t Hw Hc.
  - pose proof (wf_challenge_ids t Hw) as Hn. rewrite El in Hn. rewrite fmap_app, fmap_cons in *. by rewrite Hi.
  - rewrite El. apply old_rows_split, Hf; [done| |done].
    pose proof (wf_challenges t Hw) as Ha. rewrite El in Ha. apply Forall_app in Ha as [_ Ha]. by inversion Ha.
Qed.
Lemma upload_row_ok t k us hit f e row : wf t -> change t k (with_uploads us t) ->
  (forall u, u ∈ uploads t -> hit u = true -> upload_ok t u -> Upload.constraints (f u) = true -> upload_ok (with_uploads us t) (f u)) ->
  (forall u, Upload.id (f u) = Upload.id u) -> (exists i, forall u, hit u = true -> Upload.id u = i) ->
  update_one hit f Upload.constraints e (uploads t) = Ok (row, us) -> wf (with_uploads us t).
Proof.
  intros Hw Hc Hf Hi [i Hh] Hu.
  destruct (update_one_split Upload.id i _ _ _ _ _ _ _ Hu (wf_upload_ids t Hw) Hh) as (l1 & x & l2 & El & -> & -> & Hx & Hok).
  wf_clauses t Hw Hc.
  - pose proof (wf_upload_ids t Hw) as Hn. rewrite El in Hn. rewrite fmap_app, fmap_cons in *. by rewrite Hi.
  - rewrite El. apply old_rows_split, Hf; [rewrite El; set_solver|done| |done].
    pose proof (wf_uploads t Hw) as Ha. rewrite El in Ha. apply Forall_app in Ha as [_ Ha]. by inversion Ha.
Qed.
Lemma upload_step_ok k u u' : upload_step k u u' -> Upload.active u = true ->
  Upload.id u' = Upload.id u /\ Upload.share_id u' = Upload.share_id u /\ Upload.share_session_id u' = Upload.share_session_id u /\
  Upload.status u' <> Complete.
Proof.
  unfold Upload.active. intros Hs Ha. bsimpl.
  destruct Hs; simpl; split_and!; try done. case_if; bsimpl; [done|]. naive_solver congruence.
Qed.
Lemma upload_step_id k u u' : upload_step k u u' -> Upload.id u' = Upload.id u.
Proof. by destruct 1. Qed.

Lemma change_wf t k t' : wf t -> change t k t' -> wf t'.
Proof.
  intros Hw Hc. pose proof Hc as Hc0. destruct Hc.
  - wf_clauses t Hw Hc0; try (apply NoDup_fmap_snoc; [apply Hw|]; eapply Forall_impl; [eassumption|naive_solver]).
    apply Forall_snoc_2; [apply Hw|done].
  - by eapply wf_set_link.
  - by apply wf_consume.
  - wf_clauses t Hw Hc0; try (apply NoDup_fmap_snoc; [apply Hw|]; eapply Forall_impl; [eassumption|naive_solver]).
    apply old_rows_snoc. split_and!; [done..|]. unfold Session.isVerified, ShareTokens.isVerified. simpl.
    by match goal with H : Session.verified_at row = None |- _ => rewrite H end.
  - by eapply wf_set_session.
  - by eapply wf_verify_session.
  - by apply wf_close_sessions.
  - wf_clauses t Hw Hc0; [by apply NoDup_fmap_snoc; [apply Hw|]|]. apply old_rows_snoc. split_and!; try done.
    unfold Challenge.constraints in *. bsimpl. lia.
  - eapply challenge_row_ok; [done..| | | |eassumption]; [|done|exists i; intros c Hh; cbn beta in Hh; by bsimpl].
    intros c Hh (? & ? & ? & ?) ?. cbn beta in Hh. bsimpl. split_and!; try done. simpl. lia.
  - eapply challenge_row_ok; [done..| | | |eassumption]; [|done|exists i; intros c Hh; cbn beta in Hh; by bsimpl].
    intros c Hh (? & ? & ? & ?) ?. by split_and!.
  - wf_clauses t Hw Hc0; [by apply NoDup_fmap_snoc; [apply Hw|]|]. apply old_rows_snoc. split_and!; try done. congruence.
  - eapply upload_row_ok; [done..| | | |eassumption].
    + intros u _ Hh (? & ? & ? & ?) ?. cbn beta in Hh. bsimpl. edestruct (upload_step_ok k u (f u)) as (? & E1 & E2 & ?); [done..|].
      split_and!; rewrite ?E1, ?E2; done.
    + intros u. eapply upload_step_id. eauto.
    + exists i. intros u Hh. cbn beta in Hh. by bsimpl.
  - eapply upload_row_ok; [done..| | | |eassumption]; [|done|exists i; intros u Hh; cbn beta in Hh; by bsimpl].
    intros u Hu Hh (? & ? & ? & ?) ?. cbn beta in Hh. bsimpl. split_and!; try done. simpl. auto.
  - destruct Hw. by split.
  - wf_clauses t Hw Hc0. by apply old_rows_snoc.
Qed.

(** ** Footprints of operations *)
Definition step_in (K : Kind -> bool) (t t' : Tables) : Prop := exists k, K k = true /\ change t k t'.
Definition evolves (K : Kind -> bool) : Tables -> Tables -> Prop := rtc (step_in K).
#[export] Instance evolves_preorder K : PreOrder (evolves K).
Proof. unfold evolves. apply _. Qed.
Lemma evolves_once (K : Kind -> bool) k t t' : change t k t' -> K k = true -> evolves K t t'.
Proof. intros. apply rtc_once. by exists k. Qed.
Lemma evolves_mono (K K' : Kind -> bool) t t' : (forall k, K k = true -> K' k = true) -> evolves K t t' -> evolves K' t t'.
Proof. intros HK. apply rtc_subrel. intros x y (k & ? & ?). exists k. auto. Qed.
Lemma evolves_wf K t t' : evolves K t t' -> wf t -> wf t'.
Proof. induction 1 as [|t1 t2 t3 (k & _ & Hc) _ IH]; [done|]. intros Hw. apply IH. by eapply change_wf. Qed.
Definition nothing : Kind -> bool := fun _ => false.
Definition anything : Kind -> bool := fun _ => true.
Lemma evolves_nothing t t' : evolves nothing t t' -> t' = t.
Proof. inversion 1 as [|? ? ? (? & [=] & _)]; done. Qed.

(** What an operation asks of the outside, one answer after the other. *)
Section Asking.
Context {W : Type} `{Outside W}.
Inductive asks : W -> W -> Prop :=
| ask_transaction o : asks o (transaction_fails o).2
| ask_clock o : asks o (read_clock o).2
| ask_uuid o : asks o (gen_random_uuid o).2
| ask_token o : asks o (draw_token o).2
| ask_code o : asks o (draw_code o).2.
Definition goes_on : W -> W -> Prop := rtc asks.
#[export] Instance goes_on_preorder : PreOrder goes_on.
Proof. unfold goes_on. apply _. Qed.
(** The clock said [n], and the generator drew [t], at some moment between two worlds. *)
Definition clock_said (w w' : World W) (n : Z) : Prop :=
  exists o o', goes_on (outside w) o /\ read_clock o = (n, o') /\ goes_on o' (outside w').
Definition drew_token (w w' : World W) (t : str * str) : Prop :=
  exists o o', goes_on (outside w) o /\ draw_token o = (t, o') /\ goes_on o' (outside w').
End Asking.

Create HintDb effects.
#[export] Hint Constants Opaque : effects.

Section Footprints.
Context {W : Type} `{Outside W} `{Registry} `{ArrayText} (hash : str -> str) (options : ManagerOptions) (K : Kind -> bool).
Notation M A := (Monad.M (World W) Error A).

Definition within (w w' : World W) : Prop := evolves K (tables w) (tables w') /\ goes_on (outside w) (outside w').
#[export] Instance within_preorder : PreOrder within.
Proof. split; [done|]. intros a b c [? ?] [? ?]. split; by etransitivity. Qed.
Definition keeps_to {A} (m : M A) : Prop := ensures within m.

Lemma keeps_bind {A B} (m : M A) (k : A -> M B) : keeps_to m -> (forall a, keeps_to (k a)) -> keeps_to (bind m k).
Proof. apply (ensures_bind within). Qed.
Lemma keeps_ret {A} (a : A) : keeps_to (ret a).
Proof. apply (ensures_ret within). Qed.
Lemma keeps_throw {A} (e : Error) : keeps_to (throw (A := A) e).
Proof. apply (ensures_throw within). Qed.
Lemma keeps_lift {A} (r : result Error A) : keeps_to (lift r).
Proof. by intros w. Qed.
Lemma keeps_reads {A} (f : World W -> result Error A) : keeps_to (reads f).
Proof. by intros w. Qed.
Lemma keeps_require b e : keeps_to (require b e).
Proof. apply keeps_lift. Qed.
Lemma keeps_require_uuid v s : keeps_to (require_uuid v s).
Proof. apply keeps_require. Qed.
Lemma keeps_requirePtr {A} (o : option A) s : keeps_to (requirePtr o s).
Proof. apply keeps_lift. Qed.
Lemma keeps_on_throw {A} (m : M A) h : keeps_to m -> keeps_to h -> keeps_to (on_throw m h).
Proof. intros. apply (ensures_handle within); [done|]. intros e. apply keeps_bind; [done|]. intros _. apply keeps_throw. Qed.
Lemma keeps_for_each {A} (l : list A) (f : A -> M unit) : (forall x, keeps_to (f x)) -> keeps_to (for_each l f).
Proof. apply (ensures_for_each within). Qed.
Lemma keeps_edit f : keeps_to (edit f).
Proof. by intros w. Qed.
Lemma keeps_epoch : keeps_to bumpPolicyEpoch.
Proof. by intros w. Qed.
Lemma within_asked w o : asks (outside w) o -> within w (mkWorld (tables w) o (epoch w) (draft w)).
Proof. intros Ha. split; [reflexivity|by apply rtc_once]. Qed.
Lemma keeps_now : keeps_to now.
Proof. intros w. unfold now. pose proof (ask_clock (outside w)) as Ha. destruct (read_clock _). by apply within_asked. Qed.
Lemma keeps_uuid : keeps_to uuid.
Proof. intros w. unfold uuid. pose proof (ask_uuid (outside w)) as Ha. destruct (gen_random_uuid _). by apply within_asked. Qed.
Lemma keeps_generate k : keeps_to (generate k).
Proof. intros w. unfold generate. pose proof (ask_token (outside w)) as Ha. destruct (draw_token _). by apply within_asked. Qed.
Lemma keeps_challengeCode : keeps_to challengeCode.
Proof. intros w. unfold challengeCode. pose proof (ask_code (outside w)) as Ha. destruct (draw_code _). by apply within_asked. Qed.

(** A transaction keeps to [K] when its body does. *)
Lemma within_exec {A} (f : W -> Tables -> result Error (A * Tables)) w :
  (forall o a t', f o (tables w) = Ok (a, t') -> evolves K (tables w) t') -> within w (exec f w).2.
Proof.
  intros Hf. unfold exec. pose proof (ask_transaction (outside w)) as Ha. destruct (transaction_fails _) as [[m|] o]; [by apply within_asked|].
  simpl. destruct (f o (tables w)) as [[a t]|] eqn:E; [|by apply within_asked]. split; [by eapply Hf|by apply rtc_once].
Qed.
Lemma keeps_exec {A} (f : W -> Tables -> result Error (A * Tables)) :
  (forall o t a t', f o t = Ok (a, t') -> evolves K t t') -> keeps_to (exec f).
Proof. intros Hf w. apply within_exec. intros o a t'. apply Hf. Qed.
Lemma keeps_query {A} (f : W -> Tables -> result Error A) : keeps_to (exec (fun o t => let? a := f o t in Ok (a, t))).
Proof. apply keeps_exec. intros o t a t'. destruct (f o t); simpl; [|done]. intros [= _ <-]. reflexivity. Qed.
Lemma keeps_insert {A} (f : str -> W -> Tables -> result Error (A * Tables)) :
  (forall u o t a t', f u o t = Ok (a, t') -> evolves K t t') -> keeps_to (insert f).
Proof. intros Hf. apply keeps_bind; [apply keeps_uuid|]. intros u. apply keeps_exec. eauto. Qed.
End Footprints.
#[export] Hint Resolve keeps_ret keeps_throw keeps_lift keeps_reads keeps_require keeps_require_uuid keeps_requirePtr keeps_edit keeps_epoch keeps_now
  keeps_generate keeps_challengeCode : effects.
#[export] Hint Unfold begin_audit attachHuman attachLink attachPrincipal setDenied requireAllowed requireEnabled parse_token : effects.

(** Follow the structure of an operation. *)
Ltac effects_step :=
  match goal with
  | |- keeps_to _ (bind _ _) => apply keeps_bind; [|intros ?]
  | |- keeps_to _ (on_throw _ _) => apply keeps_on_throw
  | |- keeps_to _ (denying _ _) => unfold denying
  | |- keeps_to _ (denying_once _ _) => unfold denying_once
  | |- keeps_to _ (for_each _ _) => apply keeps_for_each; intros ?
  | |- keeps_to _ (if ?b then _ else _) => destruct b
  | |- keeps_to _ (match ?x with _ => _ end) => destruct x
  | |- keeps_to _ (let _ := _ in _) => cbv zeta
  | |- keeps_to _ _ => solve [eauto with effects]
  end.
Ltac effects := cbv zeta; repeat effects_step.

(** *** Queries *)
Section QueryFootprints.
Context {W : Type} `{Outside W} `{Registry} `{ArrayText} (K : Kind -> bool).
Notation M A := (Monad.M (World W) Error A).

Ltac query := effects; apply keeps_exec; intros ????; repeat (case_if; [done|]); intros [= _ <-]; reflexivity.
Lemma existsb_fresh {A} (f : A -> bool) l : existsb f l = false -> Forall (fun x => f x = false) l.
Proof. induction l as [|x l IH]; simpl; [by constructor|]. intros Hf. bsimpl. constructor; auto. Qed.

Lemma keeps_link_get id : keeps_to K (link_get id).
Proof. unfold link_get. query. Qed.
Lemma keeps_link_getByLookupId l : keeps_to K (link_getByLookupId l).
Proof. unfold link_getByLookupId. query. Qed.
Lemma keeps_link_list p keep : keeps_to K (link_list p keep).
Proof. unfold link_list. destruct (page p). query. Qed.
Lemma keeps_session_get id : keeps_to K (session_get id).
Proof. unfold session_get. query. Qed.
Lemma keeps_session_getByLookupId l : keeps_to K (session_getByLookupId l).
Proof. unfold session_getByLookupId. query. Qed.
Lemma keeps_challenge_get id : keeps_to K (challenge_get id).
Proof. unfold challenge_get. query. Qed.
Lemma keeps_upload_get id : keeps_to K (upload_get id).
Proof. unfold upload_get. query. Qed.
Lemma keeps_countCompleted s : keeps_to K (upload_countCompletedFiles s).
Proof. unfold upload_countCompletedFiles. query. Qed.
Lemma keeps_sumCompleted s : keeps_to K (upload_sumCompletedBytes s).
Proof. unfold upload_sumCompletedBytes. query. Qed.
Lemma keeps_listStale a l : keeps_to K (upload_listStaleActive a l).
Proof. unfold upload_listStaleActive. query. Qed.
Lemma keeps_role_getForShare s : keeps_to K (role_getForShare s).
Proof.
  unfold role_getForShare. effects. apply keeps_exec. intros o t r t'. destruct (read_assignment _ _) as [[]|]; simpl; [intros [= _ <-]; reflexivity| |done].
  destruct (find _ _); [|intros [= _ <-]; reflexivity]. destruct (read_role _ _ _ _); simpl; [intros [= _ <-]; reflexivity|done].
Qed.
Lemma keeps_role_getRecipient s h : keeps_to K (role_getRecipient s h).
Proof. unfold role_getRecipient. effects. apply keeps_query. Qed.

(** *** Writes *)
Lemma keeps_link_create l : K KCreate = true -> keeps_to K (link_create l).
Proof.
  intros HK. unfold link_create, require_link. effects. apply keeps_insert. intros u o t r t'. unfold link_insert. cbv zeta. case_if; [done|].
  intros [= _ <-]. bsimpl. eapply evolves_once; [|done]. apply add_link; [|done|simpl; apply key_idemp|done].
  eapply Forall_impl; [by apply existsb_fresh|]. intros q Hr. cbn beta in Hr. bsimpl. done.
Qed.
Lemma keeps_link_write id op clash f k :
  (forall now l, link_step k l (f now l)) -> K k = true ->
  (forall ls now l, k = KRotate -> clash ls = false -> forall l', l' ∈ ls -> Link.id l' <> key id -> Link.token_lookup_id l' <> Link.token_lookup_id (f now l)) ->
  keeps_to K (link_write id op clash f).
Proof.
  intros Hf HK Hr. unfold link_write. effects. apply keeps_exec. intros o t r t'. destruct (update_one _ _ _ _ _) as [[row ls]|] eqn:E; simpl; [|done].
  case_if; [done|]. intros [= _ <-]. eapply evolves_once; [|done]. eapply set_link; [apply Hf| |apply E].
  intros l' Hk Hl'. pose proof E as E2. unfold update_one in E2. destruct (find _ _) as [x|]; [|done]. case_if_in E2; [|done].
  injection E2 as <- _. by eapply Hr.
Qed.
Lemma keeps_link_update l : K KEdit = true -> keeps_to K (link_update l).
Proof. intros. unfold link_update, require_link. effects. eapply keeps_link_write; [intros; apply step_updated|done|done]. Qed.
Lemma keeps_link_revoke i b : K KRevoke = true -> keeps_to K (link_revoke i b).
Proof. intros. unfold link_revoke. effects. eapply keeps_link_write; [intros; apply step_revoked|done|done]. Qed.
Lemma keeps_link_rotateToken i l h b : K KRotate = true -> keeps_to K (link_rotateToken i l h b).
Proof.
  intros. unfold link_rotateToken. effects. eapply keeps_link_write; [intros; apply step_rotated|done|]. simpl.
  intros ls now x _ Hc%existsb_fresh l' Hl' Hi El. rewrite Forall_forall in Hc. specialize (Hc l' Hl'). cbn beta in Hc. bsimpl. naive_solver.
Qed.
Lemma keeps_link_touchAccess i : K KAccess = true -> keeps_to K (link_touchAccess i).
Proof. intros. unfold link_touchAccess. effects. eapply keeps_link_write; [intros; apply step_accessed|done|done]. Qed.
Lemma keeps_link_incrementDownload i : K KDownload = true -> keeps_to K (link_incrementDownload i).
Proof. intros. unfold link_incrementDownload. effects. eapply keeps_link_write; [intros; apply step_downloaded|done|done]. Qed.
Lemma keeps_link_incrementUpload i : K KUploaded = true -> keeps_to K (link_incrementUpload i).
Proof. intros. unfold link_incrementUpload. effects. eapply keeps_link_write; [intros; apply step_uploaded|done|done]. Qed.
Lemma keeps_link_consumeDownload i : K KConsume = true -> keeps_to K (link_consumeDownload i).
Proof. intros. unfold link_consumeDownload. effects. apply keeps_exec. intros o t r t' [= _ <-]. eapply evolves_once; [apply consume_download|done]. Qed.

Lemma keeps_session_create s : Session.verified_at s = None -> K KSession = true -> keeps_to K (session_create s).
Proof.
  intros Hv HK. unfold session_create. effects. apply keeps_insert. intros u o t r t'. unfold session_insert. cbv zeta. case_if; [done|].
  intros [= _ <-]. bsimpl. rewrite has_link_spec in *. simpl in *. rewrite key_idemp in *.
  eapply evolves_once; [|done]. apply add_session; [|done..|apply key_idemp]. eapply Forall_impl; [by apply existsb_fresh|]. intros q Hr. cbn beta in Hr. bsimpl. done.
Qed.
Lemma keeps_session_write i op f k : (forall now s, session_step k s (f now s)) -> K k = true -> keeps_to K (session_write i op f).
Proof.
  intros Hf HK. unfold session_write. effects. apply keeps_exec. intros o t r t'. destruct (update_one _ _ _ _ _) as [[row ss]|] eqn:E; simpl; [|done].
  intros [= _ <-]. eapply evolves_once; [|done]. eapply set_session; [apply Hf|apply E].
Qed.
Lemma keeps_session_touch i : K KTouch = true -> keeps_to K (session_touch i).
Proof. intros. eapply keeps_session_write; [intros; apply step_touched|done]. Qed.
Lemma keeps_session_revokeForShare s : K KClose = true -> keeps_to K (session_revokeForShare s).
Proof. intros. unfold session_revokeForShare. effects. apply keeps_exec. intros o t r t' [= _ <-]. eapply evolves_once; [apply close_sessions|done]. Qed.

Lemma keeps_challenge_create c : Challenge.attempts c = 0 -> K KChallenge = true -> keeps_to K (challenge_create c).
Proof.
  intros Ha HK. unfold challenge_create. effects. apply keeps_insert. intros u o t r t'. unfold challenge_insert. cbv zeta. case_if; [done|].
  intros [= _ <-]. bsimpl. rewrite has_link_spec in *. simpl in *. rewrite key_idemp in *.
  eapply evolves_once; [|done]. apply add_challenge; try done.
  - eapply Forall_impl; [by apply existsb_fresh|]. intros q Hr. cbn beta in Hr. by bsimpl.
  - simpl. intros s Hs. rewrite Hs in *. bsimpl. rewrite has_session_spec in *. destruct (Challenge.share_session_id c); simplify_eq/=.
    by rewrite key_idemp in *.
Qed.
Lemma keeps_challenge_recordAttempt i : K KAttempt = true -> keeps_to K (challenge_recordAttempt i).
Proof.
  intros. unfold challenge_recordAttempt, challenge_write. effects. apply keeps_exec. intros o t r t'.
  destruct (update_one _ _ _ _ _) as [[row cs]|] eqn:E; simpl; [|done]. intros [= _ <-]. eapply evolves_once; [eapply attempt_challenge, E|done].
Qed.
Lemma keeps_challenge_consume i : K KSpend = true -> keeps_to K (challenge_consume i).
Proof.
  intros. unfold challenge_consume, challenge_write. effects. apply keeps_exec. intros o t r t'.
  destruct (update_one _ _ _ _ _) as [[row cs]|] eqn:E; simpl; [|done]. intros [= _ <-]. eapply evolves_once; [eapply spend_challenge, E|done].
Qed.
Lemma keeps_upload_create u : Upload.status u = Pending -> K KUpload = true -> keeps_to K (upload_create u).
Proof.
  intros Hs HK. unfold upload_create. effects. apply keeps_insert. intros x o t r t'. unfold upload_insert. cbv zeta. case_if; [done|].
  intros [= _ <-]. bsimpl. rewrite has_link_spec, has_session_spec in *. simpl in *. rewrite !key_idemp in *.
  eapply evolves_once; [|done]. apply add_upload; [|done..]. eapply Forall_impl; [by apply existsb_fresh|]. intros q Hr. cbn beta in Hr. by bsimpl.
Qed.
Lemma keeps_upload_write i op guard f k : (forall now u, upload_step k u (f now u)) -> K k = true -> keeps_to K (upload_write i op guard f).
Proof.
  intros Hf HK. unfold upload_write. effects. apply keeps_exec. intros o t r t'. destruct (update_one _ _ _ _ _) as [[row us]|] eqn:E; simpl; [|done].
  intros [= _ <-]. eapply evolves_once; [|done]. eapply set_upload; [apply Hf|apply E].
Qed.
Lemma keeps_upload_addReceivedBytes i b : K KReceive = true -> keeps_to K (upload_addReceivedBytes i b).
Proof. intros. eapply keeps_upload_write; [intros; apply step_received|done]. Qed.
Lemma keeps_upload_fail i w : K KStop = true -> keeps_to K (upload_fail i w).
Proof. intros. eapply keeps_upload_write; [intros; apply step_failed|done]. Qed.
Lemma keeps_upload_cancel i : K KStop = true -> keeps_to K (upload_cancel i).
Proof. intros. eapply keeps_upload_write; [intros; apply step_cancelled|done]. Qed.
Lemma keeps_audit_append e : K KAudit = true -> keeps_to K (audit_append e).
Proof.
  intros. unfold audit_append. effects. apply keeps_exec. intros o t r t'. case_if; [|done]. intros [= _ <-]. bsimpl.
  eapply evolves_once; [|done]. apply add_event; intros s Hs; rewrite Hs in *; [by apply has_link_spec|by apply has_session_spec].
Qed.
End QueryFootprints.

(** *** Role assignments touch only their own tables *)
Definition only_roles (t t' : Tables) : Prop :=
  links t' = links t /\ sessions t' = sessions t /\ challenges t' = challenges t /\ uploads t' = uploads t /\ events t' = events t.
Lemma only_roles_trans t1 t2 t3 : only_roles t1 t2 -> only_roles t2 t3 -> only_roles t1 t3.
Proof. unfold only_roles. intuition congruence. Qed.

Section RoleFootprints.
Context {W : Type} `{Outside W} `{Registry} (K : Kind -> bool).

Lemma only_roles_evolves t t' : K KRoles = true -> only_roles t t' -> evolves K t t'.
Proof.
  intros HK (E1 & E2 & E3 & E4 & E5). apply (evolves_once _ KRoles); [|done]. destruct t'; simpl in *; subst. apply set_roles.
Qed.
Lemma upsertAssignmentRow_only s v r sub t i t' : upsertAssignmentRow s v r sub t = Ok (i, t') -> only_roles t t'.
Proof.
  unfold upsertAssignmentRow. intros (? & _ & Hu)%rbind_Ok. repeat (case_if_in Hu; [|done]). destruct (find _ _); by simplify_eq/=.
Qed.
Lemma replaceAssignmentOverrides_only i os t t' : replaceAssignmentOverrides i os t = Ok t' -> only_roles t t'.
Proof. unfold replaceAssignmentOverrides. intros (? & _ & [= <-])%rbind_Ok. done. Qed.
Lemma upsertAssignment_row_only s v r sub os t t' : upsertAssignment_row s v r sub os t = Ok t' -> only_roles t t'.
Proof.
  unfold upsertAssignment_row. intros ([i u] & Hu%upsertAssignmentRow_only & Ho%replaceAssignmentOverrides_only)%rbind_Ok.
  by eapply only_roles_trans.
Qed.
Lemma upsertRecipientRow_only s h t i t' : upsertRecipientRow s h t = Ok (i, t') -> only_roles t t'.
Proof.
  unfold upsertRecipientRow. intros (? & _ & Hu)%rbind_Ok. repeat (case_if_in Hu; [|done]). destruct (find _ _); by simplify_eq/=.
Qed.
Lemma put_recipients_only s v l t ids t' : put_recipients s v l t = Ok (ids, t') -> only_roles t t'.
Proof.
  revert t ids t'; induction l as [|a l IH]; simpl; intros t ids t'; [by intros [= _ <-]|].
  intros ([i u] & Hu%upsertRecipientRow_only & ([] & Hr & ([ids' x] & Hx%IH & [= _ <-])%rbind_Ok)%rbind_Ok)%rbind_Ok.
  apply upsertAssignment_row_only in Hr. eauto using only_roles_trans.
Qed.

Lemma keeps_upsertAssignment s v r sub os : K KRoles = true -> keeps_to K (upsertAssignment s v r sub os).
Proof.
  intros. apply keeps_exec. intros o t x t' (u & Hu%upsertAssignment_row_only & [= _ <-])%rbind_Ok. by apply only_roles_evolves.
Qed.
Lemma keeps_upsertRecipient s h : K KRoles = true -> keeps_to K (upsertRecipient s h).
Proof. intros. apply keeps_exec. intros o t x t' Hu%upsertRecipientRow_only. by apply only_roles_evolves. Qed.
Lemma keeps_replaceRecipientAssignments s v l : K KRoles = true -> keeps_to K (replaceRecipientAssignments s v l).
Proof.
  intros. unfold replaceRecipientAssignments. effects. apply keeps_exec. intros o t x t' ([ids u] & Hu%put_recipients_only & [= _ <-])%rbind_Ok.
  by apply only_roles_evolves.
Qed.
Lemma keeps_role_removeForShare s : K KRoles = true -> keeps_to K (role_removeForShare s).
Proof. intros. unfold role_removeForShare. effects. apply keeps_exec. intros o t x t' [= _ <-]. by apply only_roles_evolves. Qed.
End RoleFootprints.
#[export] Hint Resolve keeps_link_get keeps_link_getByLookupId keeps_link_list keeps_session_get keeps_session_getByLookupId keeps_challenge_get
  keeps_upload_get keeps_countCompleted keeps_sumCompleted keeps_listStale keeps_role_getForShare keeps_role_getRecipient
  keeps_link_create keeps_link_update keeps_link_revoke keeps_link_rotateToken keeps_link_touchAccess keeps_link_incrementDownload
  keeps_link_incrementUpload keeps_link_consumeDownload keeps_session_create keeps_session_touch keeps_session_revokeForShare
  keeps_challenge_create keeps_challenge_recordAttempt keeps_challenge_consume keeps_upload_create keeps_upload_addReceivedBytes
  keeps_upload_fail keeps_upload_cancel keeps_audit_append keeps_upsertAssignment keeps_upsertRecipient keeps_replaceRecipientAssignments
  keeps_role_removeForShare : effects.

(** ** Operations *)
(** What the manager relies on in an authorizer: a decision leaves the tables, and asks the outside
    only what an operation may ask it. *)
Class ShareAuthorizerOk {W : Type} `{Outside W} (A : ShareAuthorizer (W := W)) : Prop := {
  canCreateLink_reads actor link : keeps_to nothing (canCreateLink actor link);
  canUpdateLink_reads actor existing updated : keeps_to nothing (canUpdateLink actor existing updated);
  canManageLink_reads actor link : keeps_to nothing (canManageLink actor link);
  canListVaultLinks_reads actor vault : keeps_to nothing (canListVaultLinks actor vault) }.
Lemma keeps_reading {W A} `{Outside W} K (m : Monad.M (World W) Error A) : keeps_to nothing m -> keeps_to K m.
Proof. intros Hm w. destruct (Hm w). split; [by apply (evolves_mono nothing)|done]. Qed.
#[export] Instance default_authorizer_ok {W} `{Outside W} `{FsEnv} : ShareAuthorizerOk (default_authorizer (W := W)).
Proof.
  split; intros; simpl; try apply keeps_lift. effects. unfold shareRootEntryMatchesLink. effects. apply keeps_exec.
  intros o t r t' [= _ <-]. reflexivity.
Qed.

Inductive Request :=
| RCreate (actor : Actor) (r : CreateLinkRequest) | RUpdate (actor : Actor) (r : UpdateLinkRequest) | RRevoke (actor : Actor) (id : str)
| RRotate (actor : Actor) (id : str) | RGet (actor : Actor) (id : str) | RListUser (actor : Actor) (p : ListQueryParams)
| RListVault (actor : Actor) (vault : Z) (p : ListQueryParams) | RResolveLink (token : str) | ROpen (token : str) (ip agent : option str)
| RStart (r : StartEmailChallengeRequest) | RConfirm (r : ConfirmEmailChallengeRequest) | RPrincipal (token : str) (ip agent : option str)
| RAuthorize (actor : Actor) (op : Operation) (path : str) (target : option TargetType) (vault : option Z)
| RAccess (p : Principal) (r : ShareAccessAuditRequest) | RConsume (p : Principal) | RDownload (p : Principal)
| RUpload (r : StartUploadRequest) | RChunk (p : Principal) (id : str) (bytes : Z) | RFinish (r : FinishUploadRequest)
| RCancel (p : Principal) (id : str) | RFail (p : Principal) (id why : str) | RSweep (older limit : Z).
(** The changes a request may make. *)
Definition footprint (r : Request) (k : Kind) : bool :=
  match r, k with
  | RCreate _ _, (KCreate | KRoles | KRevoke | KAudit) => true
  | RUpdate _ _, (KEdit | KRoles | KAudit) => true
  | RRevoke _ _, (KRevoke | KClose | KRoles | KAudit) => true
  | RRotate _ _, (KRotate | KClose | KAudit) => true
  | ROpen _ _ _, (KSession | KAccess | KAudit) => true
  | RStart _, (KSession | KChallenge | KAudit) => true
  | RConfirm _, (KAttempt | KSpend | KVerify | KAudit) => true
  | RPrincipal _ _ _, (KTouch | KAudit) => true
  | (RAuthorize _ _ _ _ _ | RAccess _ _), KAudit => true
  | RConsume _, (KConsume | KAudit) => true
  | RDownload _, KDownload => true
  | RUpload _, (KUpload | KAudit) => true
  | RChunk _ _ _, (KReceive | KAudit) => true
  | RFinish _, (KFinish | KUploaded | KAudit) => true
  | (RCancel _ _ | RFail _ _ _ | RSweep _ _), (KStop | KAudit) => true
  | _, _ => false
  end.

Section Operations.
Context {W : Type} `{Outside W} `{Registry} `{ArrayText} (hash : str -> str) (options : ManagerOptions) (A : ShareAuthorizer (W := W)).
Notation M A := (Monad.M (World W) Error A).

(** The manager answers requests one after the other, whatever their outcome. *)
Definition run (r : Request) : M unit :=
  match r with
  | RCreate a r => createLink hash a r;; ret tt
  | RUpdate a r => updateLink hash a r;; ret tt
  | RRevoke a i => revokeLink a i
  | RRotate a i => rotateLinkToken hash a i;; ret tt
  | RGet a i => getLinkForManagement a i;; ret tt
  | RListUser a p => listLinksForUser a p;; ret tt
  | RListVault a v p => listLinksForVault a v p;; ret tt
  | RResolveLink t => resolvePublicLink hash t;; ret tt
  | ROpen t i u => openPublicSession hash options t i u;; ret tt
  | RStart r => startEmailChallenge hash options r;; ret tt
  | RConfirm r => confirmEmailChallenge hash r;; ret tt
  | RPrincipal t i u => resolvePrincipal hash t i u;; ret tt
  | RAuthorize a o p t v => authorize_actor a o p t v;; ret tt
  | RAccess p r => appendAccessAuditEvent p r
  | RConsume p => consumeDownload p;; ret tt
  | RDownload p => incrementDownloadCount p
  | RUpload r => startUpload options r;; ret tt
  | RChunk p i b => recordUploadChunk p i b
  | RFinish r => finishUpload r
  | RCancel p i => cancelUpload p i
  | RFail p i w => failUpload p i w
  | RSweep o l => sweepStaleUploads options o l;; ret tt
  end.
Fixpoint run_all (rs : list Request) (w : World W) : World W :=
  match rs with [] => w | r :: rs' => run_all rs' (run r w).2 end.
End Operations.

(** *** The footprint of every request *)
Section OperationFootprints.
Context {W : Type} `{Outside W} `{Registry} `{ArrayText} (hash : str -> str) (options : ManagerOptions) (K : Kind -> bool).
Context (A : ShareAuthorizer (W := W)) `{!ShareAuthorizerOk A}.
Notation M A := (Monad.M (World W) Error A).

Lemma keeps_file_audit : K KAudit = true -> keeps_to K (@file_audit W _).
Proof. intros HK w. by apply keeps_audit_append. Qed.
#[local] Hint Resolve keeps_file_audit : effects.
Lemma keeps_requireEnabled m : keeps_to K (@requireEnabled W _ m).
Proof. apply keeps_reads. Qed.
Lemma keeps_requireAllowed d o : keeps_to K (@requireAllowed W d o).
Proof. apply keeps_require. Qed.
Lemma keeps_edits f : keeps_to K (@edit W f).
Proof. apply keeps_edit. Qed.
Lemma keeps_begin_audit e : keeps_to K (@begin_audit W e).
Proof. apply keeps_edit. Qed.
Lemma keeps_attachHuman a : keeps_to K (@attachHuman W a).
Proof. apply keeps_edit. Qed.
Lemma keeps_attachLink a : keeps_to K (@attachLink W a).
Proof. apply keeps_edit. Qed.
Lemma keeps_setDenied a b : keeps_to K (@setDenied W a b).
Proof. apply keeps_edit. Qed.
Lemma keeps_parse_token t : keeps_to K (@parse_token W t).
Proof. apply keeps_lift. Qed.
#[local] Hint Resolve keeps_requireEnabled keeps_requireAllowed keeps_begin_audit keeps_attachHuman keeps_attachLink keeps_setDenied keeps_parse_token : effects.

Lemma keeps_roleTemplate r : keeps_to K (roleTemplateForAssignment r).
Proof. unfold roleTemplateForAssignment. effects. apply keeps_exec. intros o t x t' [= _ <-]. reflexivity. Qed.
#[local] Hint Resolve keeps_roleTemplate : effects.
Lemma keeps_recipientInputs rs : keeps_to K (recipientAssignmentInputs hash rs).
Proof. induction rs; simpl; effects. Qed.
#[local] Hint Resolve keeps_recipientInputs : effects.
Lemma keeps_persistPublic l r : K KRoles = true -> keeps_to K (persistPublicAssignment l r).
Proof. intros. unfold persistPublicAssignment, upsertPublicAssignment. effects. Qed.
Lemma keeps_persistRecipients l r : K KRoles = true -> keeps_to K (persistRecipientAssignments hash l r).
Proof. intros. unfold persistRecipientAssignments, no_recipient_link, upsertRecipientAssignment. effects. Qed.
Lemma keeps_replaceRecipients l r : K KRoles = true -> keeps_to K (replaceRecipients hash l r).
Proof. intros. unfold replaceRecipients, no_recipient_link. effects. Qed.
#[local] Hint Resolve keeps_persistPublic keeps_persistRecipients keeps_replaceRecipients : effects.
Lemma keeps_attachScopedVaultRole l s p : keeps_to K (attachScopedVaultRole l s p).
Proof. unfold attachScopedVaultRole, scoped_role. effects. Qed.
#[local] Hint Resolve keeps_attachScopedVaultRole : effects.
#[local] Hint Resolve keeps_reading canCreateLink_reads canUpdateLink_reads canManageLink_reads canListVaultLinks_reads : effects.

Lemma keeps_createLink a r : K KCreate = true -> K KRoles = true -> K KRevoke = true -> K KAudit = true -> keeps_to K (createLink hash a r).
Proof. intros. unfold createLink, persistRoleAssignments. effects. Qed.
Lemma keeps_getLinkForManagement a i : keeps_to K (getLinkForManagement a i).
Proof. unfold getLinkForManagement. effects. Qed.
#[local] Hint Resolve keeps_getLinkForManagement : effects.
Lemma keeps_updateLink a r : K KEdit = true -> K KRoles = true -> K KAudit = true -> keeps_to K (updateLink hash a r).
Proof. intros. unfold updateLink. effects. Qed.
Lemma keeps_revokeLink a i : K KRevoke = true -> K KClose = true -> K KRoles = true -> K KAudit = true -> keeps_to K (revokeLink a i).
Proof. intros. unfold revokeLink. effects. Qed.
Lemma keeps_rotateLinkToken a i : K KRotate = true -> K KClose = true -> K KAudit = true -> keeps_to K (rotateLinkToken hash a i).
Proof. intros. unfold rotateLinkToken. effects. Qed.
Lemma keeps_linkFromPublicToken t c : keeps_to K (linkFromPublicToken hash t c).
Proof. unfold linkFromPublicToken. effects. Qed.
Lemma keeps_sessionFromToken t c : keeps_to K (sessionFromToken hash t c).
Proof. unfold sessionFromToken. effects. Qed.
Lemma keeps_createSession l i u : K KSession = true -> keeps_to K (createSessionForLink hash options l i u).
Proof. intros. unfold createSessionForLink. effects. Qed.
#[local] Hint Resolve keeps_linkFromPublicToken keeps_sessionFromToken keeps_createSession : effects.
Lemma keeps_openPublicSession t i u : K KSession = true -> K KAccess = true -> K KAudit = true -> keeps_to K (openPublicSession hash options t i u).
Proof. intros. unfold openPublicSession. effects. Qed.
Lemma keeps_challenge_context r : K KSession = true -> K KAudit = true -> keeps_to K (challenge_context hash options r).
Proof. intros. unfold challenge_context. effects. Qed.
#[local] Hint Resolve keeps_challenge_context : effects.
Lemma keeps_startEmailChallenge r : K KSession = true -> K KChallenge = true -> K KAudit = true -> keeps_to K (startEmailChallenge hash options r).
Proof. intros. unfold startEmailChallenge. effects. Qed.
Lemma keeps_check_challenge l s c code : K KAttempt = true -> keeps_to K (check_challenge hash l s c code).
Proof. intros. unfold check_challenge. effects. Qed.
#[local] Hint Resolve keeps_check_challenge : effects.
Lemma keeps_resolvePrincipal t i u : K KTouch = true -> K KAudit = true -> keeps_to K (resolvePrincipal hash t i u).
Proof. intros. unfold resolvePrincipal. effects. Qed.
Lemma keeps_authorize p o path ty v : K KAudit = true -> keeps_to K (authorize p o path ty v).
Proof. intros. unfold authorize. effects. Qed.
Lemma keeps_access p r : K KAudit = true -> keeps_to K (appendAccessAuditEvent p r).
Proof. intros. unfold appendAccessAuditEvent. effects. Qed.
Lemma keeps_consumeDownload p : K KConsume = true -> K KAudit = true -> keeps_to K (consumeDownload p).
Proof. intros. unfold consumeDownload. effects. Qed.
Lemma keeps_incrementDownload p : K KDownload = true -> keeps_to K (incrementDownloadCount p).
Proof. intros. unfold incrementDownloadCount. effects. Qed.
Lemma keeps_activeContext p : keeps_to K (requireActiveShareContext p).
Proof. unfold requireActiveShareContext. effects. Qed.
Lemma keeps_uploadForPrincipal p i : keeps_to K (requireUploadForPrincipal p i).
Proof. unfold requireUploadForPrincipal. effects. Qed.
Lemma keeps_uploadQuota l n : keeps_to K (requireUploadQuota l n).
Proof. unfold requireUploadQuota. effects. Qed.
#[local] Hint Resolve keeps_activeContext keeps_uploadForPrincipal keeps_uploadQuota : effects.
Lemma keeps_startUpload r : K KUpload = true -> K KAudit = true -> keeps_to K (startUpload options r).
Proof. intros. unfold startUpload. effects. Qed.
Lemma keeps_recordUploadChunk p i b : K KReceive = true -> K KAudit = true -> keeps_to K (recordUploadChunk p i b).
Proof. intros. unfold recordUploadChunk. effects. Qed.
Lemma keeps_cancelUpload p i : K KStop = true -> K KAudit = true -> keeps_to K (cancelUpload p i).
Proof. intros. unfold cancelUpload. effects. Qed.
Lemma keeps_failUpload p i w : K KStop = true -> K KAudit = true -> keeps_to K (failUpload p i w).
Proof. intros. unfold failUpload. effects. Qed.
Lemma keeps_sweep l n : K KStop = true -> K KAudit = true -> keeps_to K (sweep l n).
Proof. intros. revert n. induction l as [|u l IH]; intros n; simpl; effects. Qed.
Lemma keeps_sweepStaleUploads a b : K KStop = true -> K KAudit = true -> keeps_to K (sweepStaleUploads options a b).
Proof. intros. unfold sweepStaleUploads. effects; by apply keeps_sweep. Qed.
End OperationFootprints.
#[export] Hint Resolve keeps_file_audit keeps_requireEnabled keeps_requireAllowed keeps_begin_audit keeps_attachHuman keeps_attachLink keeps_setDenied
  keeps_parse_token keeps_sessionFromToken keeps_linkFromPublicToken keeps_attachScopedVaultRole keeps_activeContext keeps_uploadForPrincipal
  keeps_uploadQuota keeps_createLink keeps_updateLink keeps_revokeLink keeps_rotateLinkToken keeps_getLinkForManagement keeps_openPublicSession
  keeps_startEmailChallenge keeps_resolvePrincipal keeps_authorize keeps_access keeps_consumeDownload keeps_incrementDownload keeps_startUpload
  keeps_recordUploadChunk keeps_cancelUpload keeps_failUpload keeps_sweepStaleUploads keeps_check_challenge : effects.
