(* ===== verification/ShareLifecycle.v ===== *)
(** * The life of shared links

    What holds along every history of requests to the share manager: the tables stay well
    formed, a revoked link is closed, a new token ends the old sessions, an e-mail code is used
    once, a download limit bounds what is granted.  Then the soundness of a resolved principal
    and of an authorisation, and two defects of the code.  [inv_run] takes an answered run apart;
    the witnesses run the manager on the small installation of [ManagerDemo]. *)
From S2P Require Import Prelude Monad Paths Glob Perm FsPolicy ShareTokens SharePolicy ShareScope ShareStore ShareManager ShareSteps.
#[local] Open Scope Z_scope.

(** ** Answers of operations *)
Section Answers.
Context {W : Type} `{Outside W} `{Registry} `{ArrayText} (hash : str -> str) (options : ManagerOptions).
Notation M A := (Monad.M (World W) Error A).

Lemma require_ok (b : bool) e (w : World W) u w' : require b e w = (Ok u, w') -> b = true /\ w' = w.
Proof. unfold require, lift, reads. destruct b; by intros [= _ <-]. Qed.
Lemma lift_ok {B} (r : result Error B) (w : World W) b w' : lift r w = (Ok b, w') -> r = Ok b /\ w' = w.
Proof. unfold lift, reads. by intros [= -> <-]. Qed.
Lemma requirePtr_ok {B} (o : option B) e (w : World W) b w' : requirePtr o e w = (Ok b, w') -> o = Some b /\ w' = w.
Proof. unfold requirePtr, lift, reads. destruct o; [|done]. by intros [= -> <-]. Qed.
Lemma ret_ok {B} (a : B) (w : World W) b w' : Monad.ret (E := Error) a w = (Ok b, w') -> b = a /\ w' = w.
Proof. by intros [= -> <-]. Qed.
Lemma exec_answer {B} (f : W -> Tables -> result Error (B * Tables)) w b w' : exec f w = (Ok b, w') ->
  exists t o, f o (tables w) = Ok (b, t) /\ w' = mkWorld t o (epoch w) (draft w).
Proof.
  unfold exec. destruct (transaction_fails _) as [[m|] o]; [done|]. simpl. destruct (f o (tables w)) as [[a t]|] eqn:E; [|done].
  intros [= -> <-]. eauto.
Qed.
Lemma edit_ok f (w : World W) u w' : edit f w = (Ok u, w') -> w' = mkWorld (tables w) (outside w) (epoch w) (f (draft w)).
Proof. by intros [= _ <-]. Qed.
Lemma now_ok (w : World W) n w' : now w = (Ok n, w') -> exists o, read_clock (outside w) = (n, o) /\ w' = mkWorld (tables w) o (epoch w) (draft w).
Proof. unfold now. destruct (read_clock _) as [m o]. intros [= -> <-]. eauto. Qed.
Lemma generate_ok k (w : World W) t w' : generate k w = (Ok t, w') ->
  exists o, draw_token (outside w) = (t, o) /\ w' = mkWorld (tables w) o (epoch w) (draft w).
Proof. unfold generate. destruct (draw_token _) as [m o]. intros [= -> <-]. eauto. Qed.
Lemma exec_goes_on {B} (f : W -> Tables -> result Error (B * Tables)) w : goes_on (outside w) (outside (exec f w).2).
Proof.
  unfold exec. pose proof (ask_transaction (outside w)) as Ha. destruct (transaction_fails _) as [[m|] o]; [by apply rtc_once|].
  simpl. by destruct (f o (tables w)) as [[a t]|]; apply rtc_once.
Qed.
Lemma answer_goes_on K {B} (m : M B) w r w' : keeps_to K m -> m w = (r, w') -> goes_on (outside w) (outside w').
Proof. intros Hm E. specialize (Hm w). rewrite E in Hm. apply Hm. Qed.
Lemma clock_goes_on o n o' : read_clock o = (n, o') -> goes_on o o'.
Proof. intros E. apply rtc_once. pose proof (ask_clock o) as Ha. by rewrite E in Ha. Qed.
Lemma token_goes_on o t o' : draw_token o = (t, o') -> goes_on o o'.
Proof. intros E. apply rtc_once. pose proof (ask_token o) as Ha. by rewrite E in Ha. Qed.
Lemma on_throw_ok {B} (m : M B) h w b w' : on_throw m h w = (Ok b, w') -> m w = (Ok b, w').
Proof. unfold on_throw, handle. destruct (m w) as [[a|e] w1]; [done|]. by intros (? & ? & _ & ?)%bind_ok. Qed.
Lemma denying_ok {B} code (m : M B) w b w' : denying code m w = (Ok b, w') -> m w = (Ok b, w').
Proof. apply on_throw_ok. Qed.
Lemma denying_once_ok {B} code (m : M B) w b w' : denying_once code m w = (Ok b, w') -> m w = (Ok b, w').
Proof. apply on_throw_ok. Qed.
Lemma requireEnabled_ok m (w : World W) u w' : requireEnabled m w = (Ok u, w') -> refusal (sharing (outside w)) m = None /\ w' = w.
Proof. unfold requireEnabled, reads. destruct (refusal _ _); by intros [= _ <-]. Qed.
Lemma reads_same {B} (m : M B) w r w' : keeps_to nothing m -> m w = (r, w') -> tables w' = tables w.
Proof. intros Hm E. specialize (Hm w). rewrite E in Hm. by apply evolves_nothing, Hm. Qed.
End Answers.

Lemma find_elem {A} (f : A -> bool) l x : find f l = Some x -> x ∈ l /\ f x = true.
Proof. intros Hf%find_some. by rewrite <- list_elem_of_In in Hf. Qed.
(** Rows with unique keys are determined by them. *)
Lemma unique_row {A B} (f : A -> B) l x y : NoDup (f <$> l) -> x ∈ l -> y ∈ l -> f x = f y -> x = y.
Proof.
  induction l as [|z l IH]; csimpl; [set_solver|]. intros [Hz Hl]%NoDup_cons [->|Hx]%elem_of_cons [->|Hy]%elem_of_cons E; auto.
  - destruct Hz. rewrite E. by apply list_elem_of_fmap_2.
  - destruct Hz. rewrite <- E. by apply list_elem_of_fmap_2.
Qed.
Lemma map_err_ok {E E' A} (f : E -> E') (r : result E A) a : map_err f r = Ok a -> r = Ok a.
Proof. by destruct r; intros [= ->]. Qed.
Lemma denied_unless_ok b why u : denied_unless b why = Ok u -> b = true.
Proof. by destruct b. Qed.
(** Take an answered run apart. *)
Ltac inv_run_step :=
  match goal with
  | H : bind _ _ _ = (Ok _, _) |- _ => apply bind_ok in H as (? & ? & ? & H)
  | H : require _ _ _ = (Ok _, _) |- _ => apply require_ok in H as [? ->]
  | H : require_uuid _ _ _ = (Ok _, _) |- _ => apply require_ok in H as [? ->]
  | H : lift _ _ = (Ok _, _) |- _ => apply lift_ok in H as [? ->]
  | H : requirePtr _ _ _ = (Ok _, _) |- _ => apply requirePtr_ok in H as [? ->]
  | H : ret _ _ = (Ok _, _) |- _ => apply ret_ok in H as [? ->]
  | H : throw _ _ = (Ok _, _) |- _ => discriminate H
  | H : exec _ _ = (Ok _, _) |- _ => apply exec_answer in H as (? & ? & ? & ->)
  | H : edit _ _ = (Ok _, _) |- _ => apply edit_ok in H as ->
  | H : begin_audit _ _ = (Ok _, _) |- _ => apply edit_ok in H as ->
  | H : attachLink _ _ = (Ok _, _) |- _ => apply edit_ok in H as ->
  | H : attachHuman _ _ = (Ok _, _) |- _ => apply edit_ok in H as ->
  | H : setDenied _ _ _ = (Ok _, _) |- _ => apply edit_ok in H as ->
  | H : bumpPolicyEpoch _ = (Ok _, _) |- _ => injection H as _ <-
  | H : now _ = (Ok _, _) |- _ => apply now_ok in H as (? & ? & ->)
  | H : requireEnabled _ _ = (Ok _, _) |- _ => apply requireEnabled_ok in H as [? ->]
  | H : denying _ _ _ = (Ok _, _) |- _ => apply denying_ok in H
  | H : denying_once _ _ _ = (Ok _, _) |- _ => apply denying_once_ok in H
  | H : (let _ := _ in _) = (Ok _, _) |- _ => cbv zeta in H
  | H : Ok (_, _) = Ok (_, _) |- _ => injection H as ??
  | H : (match ?x with _ => _ end) _ = (Ok _, _) |- _ => destruct x eqn:?
  | H : find _ _ = Some _ |- _ => apply find_elem in H as [? ?]
  | H : (if ?b then _ else Err _) = Ok _ |- _ => destruct b eqn:?; [|discriminate H]
  | H : (if ?b then Err _ else _) = Ok _ |- _ => destruct b eqn:?; [discriminate H|]
  | H : rbind _ _ = Ok _ |- _ => apply rbind_Ok in H as (? & ? & H)
  | H : denied_unless _ _ = Ok _ |- _ => apply denied_unless_ok in H
  | H : map_err _ _ = Ok _ |- _ => apply map_err_ok in H
  end.
(** The outside went on from each world of a run to the next: the clock readings and the calls. *)
Ltac progressing :=
  repeat match goal with
  | H : read_clock ?o = (_, ?o') |- _ =>
      lazymatch goal with _ : goes_on o o' |- _ => fail | _ => pose proof (clock_goes_on _ _ _ H) end
  | H : draw_token ?o = (_, ?o') |- _ =>
      lazymatch goal with _ : goes_on o o' |- _ => fail | _ => pose proof (token_goes_on _ _ _ H) end
  | H : ?m ?w = (Ok _, ?w') |- _ =>
      let o := eval cbn [outside] in (outside w) in let o' := eval cbn [outside] in (outside w') in
      lazymatch goal with _ : goes_on o o' |- _ => fail | _ => idtac end;
      assert (goes_on o o') by (refine (answer_goes_on anything m w _ w' _ H); effects)
  end.
Ltac goes := simpl; solve [repeat first [reflexivity | eassumption | etransitivity; [eassumption|]]].
Ltac said := do 2 eexists; split; [|split; [eassumption|]]; goes.
Ltac inv_run := repeat (inv_run_step; simpl tables in *; simpl outside in *; simpl epoch in *; simpl draft in *; simplify_eq).

Section Answers2.
Context {W : Type} `{Outside W} `{Registry} `{ArrayText} (hash : str -> str) (options : ManagerOptions).
Notation M A := (Monad.M (World W) Error A).

Lemma upload_of_principal p i (w : World W) u w' : requireUploadForPrincipal p i w = (Ok u, w') ->
  u ∈ uploads (tables w) /\ Upload.id u = key i /\ tables w' = tables w /\
  Upload.share_id u = share_id p /\ Upload.share_session_id u = share_session_id p.
Proof. unfold requireUploadForPrincipal, upload_get. intros Hr. inv_run. bsimpl. done. Qed.
(** The rows a token opens: by its kind, its lookup id and the hash of its secret. *)
Definition opens_session (token : str) (t : Tables) (s : Session) : Prop :=
  exists p, ShareTokens.parse token = Ok p /\ kind p = ShareSession /\ s ∈ sessions t /\ Session.session_token_lookup_id s = key (lookup_id p) /\
    Session.session_token_hash s = hashSecret hash ShareSession (secret p).
Definition opens_link (token : str) (t : Tables) (l : Link) : Prop :=
  exists p, ShareTokens.parse token = Ok p /\ kind p = PublicShare /\ l ∈ links t /\ Link.token_lookup_id l = key (lookup_id p) /\
    Link.token_hash l = hashSecret hash PublicShare (secret p).
Lemma verify_hash h k sec : verify hash h k sec = true -> h = hashSecret hash k sec.
Proof. unfold verify. case_if; [done|]. intros Hv. bsimpl. done. Qed.
Lemma verifyCode_hash h code : verifyCode hash h code = true -> h = hashCode hash code.
Proof. unfold verifyCode. case_if; [done|]. intros Hv. bsimpl. done. Qed.
(** Rows in force at a time. *)
Definition link_in_force (l : Link) (n : Z) : Prop :=
  Link.revoked_at l = None /\ Link.disabled_at l = None /\ forall e, Link.expires_at l = Some e -> n < e.
Definition session_in_force (s : Session) (n : Z) : Prop := Session.revoked_at s = None /\ n < Session.expires_at s.
Definition attemptable (c : Challenge) (n : Z) : Prop :=
  Challenge.consumed_at c = None /\ n < Challenge.expires_at c /\ Challenge.attempts c < Challenge.max_attempts c.
Lemma isActive_link l n : Link.isActive l n = true -> link_in_force l n.
Proof.
  unfold Link.isActive, link_isActive, link_isExpired, isRevoked, isDisabled, link_in_force. simpl. intros Ha. bsimpl.
  rewrite <- !eq_None_not_Some in *. split_and!; [done..|]. intros e He. rewrite He in *. lia.
Qed.
Lemma isActive_session s n : Session.isActive s n = true -> session_in_force s n.
Proof.
  unfold Session.isActive, session_isActive, session_isExpired, session_isRevoked, session_in_force. simpl. intros Ha. bsimpl.
  rewrite <- !eq_None_not_Some in *. split; [done|lia].
Qed.
Lemma canAttempt_attemptable c n : Challenge.canAttempt c n = true -> attemptable c n.
Proof.
  unfold Challenge.canAttempt, canAttempt, challenge_isExpired, attemptable. simpl. intros Ha. bsimpl.
  rewrite <- !eq_None_not_Some in *. split_and!; [done|lia..].
Qed.
Lemma requiresEmail_validated l : Link.requiresEmail l = true <-> Link.access_mode l = EmailValidated.
Proof. apply eqb_eq. Qed.
Lemma isVerified_is_Some s : Session.isVerified s = true <-> is_Some (Session.verified_at s).
Proof. apply bool_decide_eq_true. Qed.
(** An address that the link has an enabled recipient and an enabled role for. *)
Definition is_recipient (share h : str) (t : Tables) : Prop :=
  exists a r, a ∈ assignments t /\ as_share_id a = key share /\ as_enabled a = true /\ r ∈ recipients t /\ rc_share_id r = key share /\
    rc_email_hash r = h /\ rc_enabled r = true /\ as_subject a = ActorSubject (rc_id r).
Lemma recipient_of_is share h t : Exists (fun a => recipient_of share h t a = true) (assignments t) -> is_recipient share h t.
Proof.
  intros (a & Ha & Hr)%Exists_exists. unfold recipient_of in Hr. bsimpl.
  match goal with H : existsb _ _ = true |- _ => apply existsb_exists in H as (r & ?%list_elem_of_In & ?) end. bsimpl.
  exists a, r. by split_and!.
Qed.
Lemma sessionFromToken_ok token c (w : World W) s w' : sessionFromToken hash token c w = (Ok s, w') ->
  opens_session token (tables w) s /\ Session.isActive s c = true /\ tables w' = tables w /\ draft w' = draft w.
Proof.
  unfold sessionFromToken, session_getByLookupId, parse_token. intros Hr. inv_run. bsimpl.
  split_and!; [|done..]. eexists. split_and!; try done. by apply verify_hash.
Qed.
Lemma linkFromPublicToken_ok token c (w : World W) l w' : linkFromPublicToken hash token c w = (Ok l, w') ->
  opens_link token (tables w) l /\ Link.isActive l c = true /\ tables w' = tables w /\ draft w' = draft w.
Proof.
  unfold linkFromPublicToken, link_getByLookupId, parse_token. intros Hr. inv_run. bsimpl. split_and!; [|done..].
  eexists. split_and!; try done. by apply verify_hash.
Qed.
Lemma link_get_ok i (w : World W) o w' : link_get i w = (Ok o, w') ->
  tables w' = tables w /\ draft w' = draft w /\ forall l, o = Some l -> l ∈ links (tables w) /\ Link.id l = key i.
Proof. unfold link_get. intros Hr. inv_run. split_and!; [done..|]. intros l Hl. inv_run. bsimpl. done. Qed.
Lemma session_get_ok i (w : World W) o w' : session_get i w = (Ok o, w') ->
  tables w' = tables w /\ draft w' = draft w /\ forall s, o = Some s -> s ∈ sessions (tables w) /\ Session.id s = key i.
Proof. unfold session_get. intros Hr. inv_run. split_and!; [done..|]. intros l Hl. inv_run. bsimpl. done. Qed.
Lemma challenge_get_ok i (w : World W) o w' : challenge_get i w = (Ok o, w') ->
  tables w' = tables w /\ draft w' = draft w /\ forall c, o = Some c -> c ∈ challenges (tables w) /\ Challenge.id c = key i.
Proof. unfold challenge_get. intros Hr. inv_run. split_and!; [done..|]. intros l Hl. inv_run. bsimpl. done. Qed.
(** A principal acts only while its link and its session are active rows. *)
Lemma activeContext_ok p (w : World W) c w' : requireActiveShareContext p w = (Ok c, w') ->
  tables w' = tables w /\ c.1 ∈ links (tables w) /\ Link.id c.1 = key (share_id p) /\ (exists n, Link.isActive c.1 n = true) /\
  c.2 ∈ sessions (tables w) /\ Session.id c.2 = key (share_session_id p) /\ (exists n, Session.isActive c.2 n = true) /\
  Session.share_id c.2 = Link.id c.1.
Proof.
  unfold requireActiveShareContext, link_get, session_get. intros Hr. inv_run. bsimpl. simpl. split_and!; eauto.
Qed.
(** A challenge that passes the checks, and the recipient it was sent to. *)
Lemma role_getRecipient_ok s h (w : World W) o w' : role_getRecipient s h w = (Ok o, w') ->
  tables w' = tables w /\ draft w' = draft w /\ (is_Some o -> Exists (fun a => recipient_of s h (tables w) a = true) (assignments (tables w))).
Proof.
  unfold role_getRecipient. intros Hr. inv_run. split_and!; [done..|]. intros [r ->].
  destruct (latest (recipient_of s h (tables w)) (tables w)) as [a|] eqn:El; simpl in *; [|done]. apply Exists_exists. exists a. revert El. unfold latest.
  assert (forall l b, foldl (fun best a => if recipient_of s h (tables w) a then match best with Some b => if as_id b <? as_id a then Some a else best | None => Some a end else best)
    b l = Some a -> (a ∈ l /\ recipient_of s h (tables w) a = true) \/ b = Some a) as Hl.
  { clear. induction l as [|x l IH]; simpl; intros b Hb; [by right|]. destruct (IH _ Hb) as [[??]|Hx]; [left; set_solver|].
    revert Hx. destruct (recipient_of s h (tables w) x) eqn:Ex; [|auto]. destruct b as [b|]; [case_if; auto|]; intros [= ->]; left; set_solver. }
  intros Hf. by destruct (Hl _ _ Hf).
Qed.
Lemma check_challenge_ok l s c code (w : World W) u w' : check_challenge hash l s c code w = (Ok u, w') ->
  tables w' = tables w /\ draft w' = draft w /\ Link.access_mode l = EmailValidated /\
  (exists n, clock_said w w' n /\ link_in_force l n) /\ (exists n, clock_said w w' n /\ session_in_force s n) /\
  Challenge.share_id c = Session.share_id s /\ match Challenge.share_session_id c with Some i => i = Session.id s | None => True end /\
  is_recipient (Link.id l) (Challenge.email_hash c) (tables w) /\
  (exists n, clock_said w w' n /\ attemptable c n) /\ Challenge.code_hash c = hashCode hash code.
Proof.
  unfold check_challenge. intros Hr. inv_run. progressing.
  match goal with H : role_getRecipient _ _ _ = _ |- _ => apply role_getRecipient_ok in H as (E1 & E2 & E3) end. simpl in *. bsimpl.
  rewrite E1, E2. split_and!; [done..|by apply requiresEmail_validated| | |done| | | |by apply verifyCode_hash].
  - eexists. split; [|apply isActive_link; eassumption]. said.
  - eexists. split; [|apply isActive_session; eassumption]. said.
  - by destruct (Challenge.share_session_id c); bsimpl.
  - apply recipient_of_is, E3. match goal with |- is_Some ?o => by destruct o end.
  - eexists. split; [|apply canAttempt_attemptable; eassumption]. said.
Qed.
End Answers2.

Section Spending.
Context {W : Type} `{Outside W}.
(** Consuming a challenge spends its row, which was unspent. *)
Lemma challenge_consume_ok c i (w : World W) u w' : wf (tables w) -> challenge_consume (Challenge.id c) w = (Ok u, w') ->
  c ∈ challenges (tables w) -> Challenge.id c = key i ->
  exists now cs l1 l2, tables w' = with_challenges cs (tables w) /\ draft w' = draft w /\ unspent now c = true /\
    challenges (tables w) = l1 ++ c :: l2 /\ cs = l1 ++ Challenge.consumed now c :: l2.
Proof.
  intros Hw Hr Hc Hi. unfold challenge_consume, challenge_write in Hr. inv_run. match goal with H : update_one _ _ _ _ _ = Ok ?x |- _ => destruct x as [row cs] end. cbn beta iota in *. simplify_eq.
  match goal with H : update_one _ _ _ _ _ = Ok _ |- _ => edestruct (update_one_split Challenge.id (key (Challenge.id c)) _ _ _ _ _ _ _ H)
    as (l1 & y & l2 & El & -> & -> & Hy & _); [apply Hw|intros ? Hh; cbn beta in Hh; by bsimpl|] end.
  bsimpl. assert (y = c) as ->.
  { eapply (unique_row Challenge.id); [apply (wf_challenge_ids _ Hw)|rewrite El; set_solver|done|]. etransitivity; [eassumption|].
    by rewrite Hi, key_idemp. }
  eexists _, _, l1, l2. done.
Qed.
End Spending.

(** ** Every request keeps to its footprint *)
Section Within.
Context {W : Type} `{Outside W} `{Registry} `{ArrayText} (hash : str -> str) (options : ManagerOptions).
Context (A : ShareAuthorizer (W := W)) `{!ShareAuthorizerOk A}.
Notation M A := (Monad.M (World W) Error A).

Lemma within_at K {B} (m : M B) w : keeps_to K m -> within K w (m w).2.
Proof. auto. Qed.
Lemma within_bind K {B C} (m : M B) (k : B -> M C) w : within K w (m w).2 -> (forall a w1, m w = (Ok a, w1) -> within K w1 (k a w1).2) ->
  within K w (bind m k w).2.
Proof.
  intros Hm Hk. unfold bind. destruct (m w) as [[a|e] w1] eqn:E; simpl in *; [|done]. transitivity w1; [done|]. by apply Hk.
Qed.
Lemma within_reading K {B C} (m : M B) (k : B -> M C) w : keeps_to nothing m ->
  (forall a w1, m w = (Ok a, w1) -> tables w1 = tables w -> within K w1 (k a w1).2) -> within K w (bind m k w).2.
Proof.
  intros Hm Hk. apply within_bind; [by apply keeps_reading|]. intros a w1 E. apply Hk; [done|]. by eapply reads_same.
Qed.
Lemma within_on_throw K {B} (m : M B) h w : within K w (m w).2 -> keeps_to K h -> within K w (on_throw m h w).2.
Proof.
  intros Hm Hh. unfold on_throw, handle. destruct (m w) as [[a|e] w1] eqn:E; simpl in *; [done|].
  transitivity w1; [done|]. apply keeps_bind; [done|]. intros _. apply keeps_throw.
Qed.

Lemma within_upload_complete K i entry h mime w : K KFinish = true ->
  (forall u, u ∈ uploads (tables w) -> Upload.id u = key i -> Upload.received_size_bytes u = Upload.expected_size_bytes u) ->
  within K w (upload_complete i entry h mime w).2.
Proof.
  intros HK Hr. unfold upload_complete, upload_write. apply within_reading; [apply keeps_require|]. intros _ w1 _ E.
  apply within_exec. rewrite E. intros o a t'. destruct (update_one _ _ _ _ _) as [[row us]|] eqn:Eu; simpl; [|done]. intros [= _ <-].
  eapply evolves_once; [eapply finish_upload, Eu|done]. done.
Qed.
Lemma finishUpload_within r w : wf (tables w) -> within (footprint (RFinish r)) w (finishUpload r w).2.
Proof.
  intros Hw. unfold finishUpload. apply within_reading; [apply keeps_activeContext|]. intros ctx w1 _ E1.
  apply within_reading; [apply keeps_uploadForPrincipal|]. intros u w2 (Hu & Hi & _)%upload_of_principal E2.
  do 3 (apply within_reading; [apply keeps_require|]; intros ?? [??]%require_ok ?; subst).
  apply within_reading; [apply keeps_begin_audit|]. intros _ w3 _ E3. apply within_on_throw.
  - apply within_bind.
    + apply within_upload_complete; [done|]. rewrite E3, E2. intros u' Hu' Hi'. bsimpl.
      assert (u' = u) as ->; [|done]. rewrite E1 in *. eapply (unique_row Upload.id); [apply (wf_upload_ids _ Hw)|..]; congruence.
    + intros _ w4 _. eapply keeps_bind; [by apply keeps_link_incrementUpload|intros; by apply keeps_file_audit].
  - apply keeps_bind; [apply keeps_setDenied|]. intros. by apply keeps_file_audit.
Qed.

Lemma within_session_verify K i h w : K KVerify = true ->
  (forall s, s ∈ sessions (tables w) -> Session.id s = key i -> Exists (vouches h (Session.share_id s) (key i)) (challenges (tables w))) ->
  within K w (session_verify i h w).2.
Proof.
  intros HK Hv. unfold session_verify, session_write. do 2 (apply within_reading; [apply keeps_require|]; intros ?? [_ ->]%require_ok _).
  apply within_exec. intros o q t'. destruct (update_one _ _ _ _ _) as [[row ss]|] eqn:E; simpl; [|done]. intros [= _ <-].
  eapply evolves_once; [eapply verify_session, E|done]. done.
Qed.
Lemma confirm_within r w : wf (tables w) -> within (footprint (RConfirm r)) w (confirmEmailChallenge hash r w).2.
Proof.
  intros Hw. unfold confirmEmailChallenge. apply within_reading; [apply keeps_challenge_get|]. intros oc w1 Hg E1.
  apply within_reading; [apply keeps_requirePtr|]. intros c w2 [-> ->]%requirePtr_ok _.
  do 2 (apply within_reading; [apply keeps_require|]; intros ?? [_ ->]%require_ok _).
  apply within_reading; [apply keeps_now|]. intros n w3 _ E3.
  apply within_reading; [apply keeps_sessionFromToken|]. intros s w4 ((p & _ & _ & Hs & _) & _ & _)%sessionFromToken_ok E4.
  apply within_reading; [apply keeps_require|]. intros ?? [_ ->]%require_ok _.
  apply within_reading; [apply keeps_link_get|]. intros ol w5 _ E5.
  apply within_reading; [apply keeps_requirePtr|]. intros l w6 [-> ->]%requirePtr_ok _.
  apply within_reading; [apply keeps_begin_audit|]. intros _ w7 _ E7.
  assert (tables w7 = tables w) as Et by congruence. clear E7 E5. rewrite E3, E1 in Hs. clear E4 E3. apply within_on_throw.
  - apply within_bind; [by apply keeps_check_challenge|]. intros ? w8 (E8 & _ & _ & _ & _ & Hcs & Hcx & _)%check_challenge_ok.
    apply within_bind; [by apply keeps_challenge_consume|]. intros x0 w9 Hc.
    destruct (challenge_get_ok _ _ _ _ Hg) as (_ & _ & Hcc). destruct (Hcc c eq_refl) as [Hc1 Hc2].
    destruct (challenge_consume_ok c (cc_challenge_id r) w8 x0 w9) as (t & cs & l1 & l2 & E9 & _ & _ & El & ->); [congruence|done|congruence|done|].
    apply within_bind; [|intros ? w10 _; apply within_at; effects].
    apply within_session_verify; [done|]. rewrite E9, E8, Et. simpl. intros s' Hs' Hid.
    assert (s' = s) as ->.
    { eapply (unique_row Session.id); [apply (wf_session_ids _ Hw)|done..|]. rewrite Hid.
      pose proof (wf_sessions _ Hw) as Hf. rewrite Forall_forall in Hf. by apply Hf. }
    apply Exists_exists. exists (Challenge.consumed t c). split; [set_solver|]. split_and!; [done..|]. simpl. rewrite <- Hid.
    by destruct (Challenge.share_session_id c).
  - apply keeps_bind; [apply keeps_edit|]. intros. by apply keeps_file_audit.
Qed.

Notation run := (run hash options A).
Notation run_all := (run_all hash options A).
Lemma run_within r w : wf (tables w) -> within (footprint r) w (run r w).2.
Proof.
  intros Hw. destruct r; simpl; try (apply finishUpload_within; done);
    try (apply within_bind; [apply confirm_within; done|]; intros; apply within_at; effects; fail); apply within_at;
    unfold listLinksForUser, listLinksForVault, link_listForUser, link_listForVault, resolvePublicLink, authorize_actor; effects;
    apply keeps_reading, canListVaultLinks_reads.
Qed.
Lemma run_wf r w : wf (tables w) -> wf (tables (run r w).2).
Proof. intros Hw. exact (evolves_wf _ _ _ (proj1 (run_within r w Hw)) Hw). Qed.

(** *** Histories *)
Lemma run_all_wf rs w : wf (tables w) -> wf (tables (run_all rs w)).
Proof. revert w; induction rs as [|r rs IH]; simpl; intros w Hw; [done|]. by apply IH, run_wf. Qed.
Lemma run_all_evolves K rs w : wf (tables w) -> Forall (fun r => forall k, footprint r k = true -> K k = true) rs ->
  evolves K (tables w) (tables (run_all rs w)).
Proof.
  intros Hw Hf. revert w Hw. induction Hf as [|r rs Hr _ IH]; simpl; intros w Hw; [reflexivity|].
  transitivity (tables (run r w).2); [|by apply IH, run_wf]. eapply evolves_mono; [apply Hr|]. by apply run_within.
Qed.
(** What every change keeps, every history keeps. *)
Lemma run_all_keeps (P : Tables -> Prop) rs w : (forall t k t', P t -> change t k t' -> P t') -> wf (tables w) -> P (tables w) -> P (tables (run_all rs w)).
Proof.
  intros HP Hw Hp. assert (evolves anything (tables w) (tables (run_all rs w))) as He.
  { apply run_all_evolves; [done|]. by apply Forall_true. }
  clear Hw. induction He as [|t1 t2 t3 (k & _ & Hc) _ IH]; eauto.
Qed.
End Within.

(** ** Revocation, rotation *)
Section Closing.
Context {W : Type} `{Outside W} `{Registry} `{ArrayText} (hash : str -> str) (options : ManagerOptions).
Context (A : ShareAuthorizer (W := W)) `{!ShareAuthorizerOk A}.
Notation M A := (Monad.M (World W) Error A).
Notation run_all := (run_all hash options A).

Definition closed (i : str) (t : Tables) : Prop := exists l, l ∈ links t /\ Link.id l = i /\ Link.revoked_at l <> None.
Definition session_closed (i : str) (t : Tables) : Prop := exists s, s ∈ sessions t /\ Session.id s = i /\ Session.revoked_at s <> None.
Lemma link_step_revoked k l l' : link_step k l l' -> Link.revoked_at l <> None -> Link.revoked_at l' <> None.
Proof. by destruct 1. Qed.
Lemma session_step_revoked k s s' : session_step k s s' -> Session.revoked_at s <> None -> Session.revoked_at s' <> None.
Proof. by destruct 1. Qed.
Lemma update_rows_exists {B} (P : B -> Prop) hit f (l : list B) x : x ∈ l -> P x -> (P x -> P (f x)) -> exists y, y ∈ update_rows hit f l /\ P y.
Proof.
  intros Hx HP Hf. exists (if hit x then f x else x). split; [|destruct (hit x); auto]. apply list_elem_of_fmap. by exists x.
Qed.
Lemma closed_change i t k t' : closed i t -> change t k t' -> closed i t'.
Proof.
  intros (l & Hl & Hi & Hr) Hc. pose (P := fun x => Link.id x = i /\ Link.revoked_at x <> None). unfold closed.
  destruct Hc; simpl; try (by exists l); try match goal with H : update_one _ _ _ _ _ = Ok _ |- _ => apply update_one_rows in H as -> end.
  - exists l. set_solver.
  - apply (update_rows_exists P _ _ _ l); [done..|]. intros [? ?]. split; [by erewrite link_step_id|by eapply link_step_revoked].
  - apply (update_rows_exists P _ _ _ l); [done..|]. by intros [? ?].
Qed.
Lemma session_closed_change i t k t' : session_closed i t -> change t k t' -> session_closed i t'.
Proof.
  intros (s & Hs & Hi & Hr) Hc. pose (P := fun x => Session.id x = i /\ Session.revoked_at x <> None). unfold session_closed.
  destruct Hc; simpl; try (by exists s); try match goal with H : update_one _ _ _ _ _ = Ok _ |- _ => apply update_one_rows in H as -> end.
  - exists s. set_solver.
  - apply (update_rows_exists P _ _ _ s); [done..|]. intros [? ?]. split; [|by eapply session_step_revoked].
    by edestruct session_step_id as [-> _]; [eauto|].
  - apply (update_rows_exists P _ _ _ s); [done..|]. by intros [? ?].
  - apply (update_rows_exists P _ _ _ s); [done..|]. by intros [? ?].
Qed.
(** A run keeps what every change keeps. *)
Lemma keeps_property (P : Tables -> Prop) K {B} (m : M B) w r w' : (forall t k t', P t -> change t k t' -> P t') -> keeps_to K m -> m w = (r, w') ->
  P (tables w) -> P (tables w').
Proof.
  intros HP Hm E Hp. specialize (Hm w). rewrite E in Hm. destruct Hm as [Hm _]. simpl in Hm.
  induction Hm as [|t1 t2 t3 (k & _ & Hc) _ IH]; eauto.
Qed.
Lemma closed_not_open i t l : wf t -> closed i t -> l ∈ links t -> Link.revoked_at l = None -> Link.id l <> i.
Proof.
  intros Hw (l' & Hl' & Hi & Hr) Hl Ha E. assert (l' = l) as ->; [|done].
  eapply (unique_row Link.id); [apply (wf_link_ids _ Hw)|done..|congruence].
Qed.
Lemma session_closed_not_open i t s : wf t -> session_closed i t -> s ∈ sessions t -> Session.revoked_at s = None -> Session.id s <> i.
Proof.
  intros Hw (s' & Hs' & Hi & Hr) Hs Ha E. assert (s' = s) as ->; [|done].
  eapply (unique_row Session.id); [apply (wf_session_ids _ Hw)|done..|congruence].
Qed.

(** *** Principals *)
(** The earlier end of a link and a session. *)
Definition first_expiry (l : Link) (s : Session) : Z :=
  match Link.expires_at l with Some e => Z.min e (Session.expires_at s) | None => Session.expires_at s end.
(** What a resolved principal stands for: rows of the tables that are in force at a time the
    clock said, and what it takes from them. *)
Definition stands_for (token : str) (t : Tables) (said : Z -> Prop) (p : Principal) (l : Link) (s : Session) : Prop :=
  opens_session hash token t s /\ l ∈ links t /\ Link.id l = Session.share_id s /\
  (exists n, said n /\ link_in_force l n /\ session_in_force s n) /\
  (Link.access_mode l = EmailValidated -> is_Some (Session.verified_at s)) /\
  share_id p = Link.id l /\ share_session_id p = Session.id s /\ p_vault_id p = Link.vault_id l /\ p_root_entry_id p = Link.root_entry_id l /\
  normalizeVaultPath (Link.root_path l) = Ok (p_root_path p) /\ ShareScope.allowed_ops (grant_ p) = Link.allowed_ops l /\
  p_expires_at p = first_expiry l s.
Lemma resolve_ok l s n p : resolve l s n = Ok p ->
  Session.share_id s = Link.id l /\ link_in_force l n /\ session_in_force s n /\
  (Link.access_mode l = EmailValidated -> is_Some (Session.verified_at s)) /\
  share_id p = Link.id l /\ share_session_id p = Session.id s /\ p_vault_id p = Link.vault_id l /\ p_root_entry_id p = Link.root_entry_id l /\
  normalizeVaultPath (Link.root_path l) = Ok (p_root_path p) /\ ShareScope.allowed_ops (grant_ p) = Link.allowed_ops l /\
  p_expires_at p = first_expiry l s.
Proof.
  unfold resolve. intros Hr. inv_run. bsimpl. simpl. split_and!; try done; [by apply isActive_link|by apply isActive_session|].
  intros Hq%requiresEmail_validated. apply isVerified_is_Some. intuition congruence.
Qed.
Lemma read_role_assignment o i rows a r : read_role o i rows a = Ok (Some r) -> ar_assignment r = a.
Proof. unfold read_role. destruct (role_by_id o i); [|done]. by intros (os & _ & [= <-])%rbind_Ok. Qed.
Lemma role_getForShare_ok i (w : World W) o w' : role_getForShare i w = (Ok o, w') ->
  tables w' = tables w /\ draft w' = draft w /\
  forall r, o = Some r -> ar_assignment r = None -> Exists (fun g => lg_share_id g = key i) (legacy (tables w)).
Proof.
  intros Hr. split_and!; [by eapply reads_same; [apply keeps_role_getForShare|]|unfold role_getForShare in Hr; by inv_run|].
  intros r -> Ha. unfold role_getForShare in Hr. inv_run.
  match goal with H : match ?x with _ => _ end = Ok _ |- _ => destruct x as [q|] end.
  - simplify_eq. match goal with H : read_assignment _ ?x = _ |- _ => destruct x; simpl in H; [|done]; apply read_role_assignment in H end. congruence.
  - destruct (find _ _) as [g|] eqn:Ef; [|done]. apply find_elem in Ef as [Hg He]. bsimpl. apply Exists_exists. by exists g.
Qed.
Lemma scoped_role_ok r (w : World W) fs w' : scoped_role r w = (Ok fs, w') -> w' = w /\ is_Some r.
Proof. unfold scoped_role. intros Hr. destruct r; inv_run; eauto. Qed.
(** The verified address of a session still is a recipient's, or the link has a role of the old kind. *)
Definition recipient_stands (t : Tables) (l : Link) (s : Session) : Prop :=
  exists h, Session.email_hash s = Some h /\
    (is_recipient (Link.id l) h t \/ exists g, g ∈ legacy t /\ lg_share_id g = key (Link.id l)).
Lemma attachScopedVaultRole_ok l s p (w : World W) q w' : attachScopedVaultRole l s p w = (Ok q, w') ->
  tables w' = tables w /\ draft w' = draft w /\ (Link.access_mode l = EmailValidated -> recipient_stands (tables w) l s) /\ exists fs, q = with_role fs p.
Proof.
  unfold attachScopedVaultRole. intros Hr. inv_run.
  all: repeat match goal with
    | H : scoped_role _ _ = _ |- _ => apply scoped_role_ok in H as [-> [??]]
    | H : role_getRecipient _ _ _ = _ |- _ => apply role_getRecipient_ok in H as (? & ? & ?)
    | H : role_getForShare _ _ = _ |- _ => apply role_getForShare_ok in H as (? & ? & ?)
    end.
  all: split_and!; [congruence|congruence|intros Hv%requiresEmail_validated|by eexists].
  - exists l0. split; [done|]. left. apply recipient_of_is. eauto.
  - exists l0. split; [done|]. right.
    case_match; [|done]. case_match; [done|]. match goal with H : tables _ = tables w |- _ => rewrite <- H end. apply Exists_exists. eauto.
  - congruence.
Qed.
Lemma session_touch_ok i (w : World W) u w' : session_touch i w = (Ok u, w') -> draft w' = draft w /\ events (tables w') = events (tables w).
Proof.
  unfold session_touch, session_write. intros Hr. inv_run.
  match goal with H : update_one _ _ _ _ _ = Ok ?x |- _ => destruct x as [row cs] end. cbn beta iota in *. by simplify_eq.
Qed.
Lemma audit_append_ok e (w : World W) u w' : audit_append e w = (Ok u, w') ->
  draft w' = draft w /\ tables w' = with_events (events (tables w) ++ [e]) (tables w).
Proof. unfold audit_append. intros Hr. destruct (Audit.share_id e), (Audit.share_session_id e); inv_run; done. Qed.
Lemma file_audit_ok (w : World W) u w' : file_audit w = (Ok u, w') ->
  draft w' = draft w /\ tables w' = with_events (events (tables w) ++ [draft w]) (tables w).
Proof. apply audit_append_ok. Qed.
Lemma resolvePrincipal_ok token ip agent (w : World W) p w' : resolvePrincipal hash token ip agent w = (Ok p, w') ->
  exists l s, stands_for token (tables w) (clock_said w w') p l s /\ (Link.access_mode l = EmailValidated -> recipient_stands (tables w) l s) /\
    is_Some (scoped_vault_role p) /\
    exists e, events (tables w') = events (tables w) ++ [e] /\ Audit.event_type e = $"share.principal.resolve" /\ Audit.status e = Success /\
      Audit.share_session_id e = Some (share_session_id p) /\ Audit.ip_address e = ip /\ Audit.user_agent e = agent.
Proof.
  unfold resolvePrincipal. intros Hr. inv_run. progressing.
  repeat match goal with
  | H : sessionFromToken _ _ _ _ = _ |- _ => apply sessionFromToken_ok in H as (? & ? & ? & ?)
  | H : link_get _ _ = _ |- _ => apply link_get_ok in H as (? & ? & Hl)
  | H : attachScopedVaultRole _ _ _ _ = _ |- _ => apply attachScopedVaultRole_ok in H as (? & ? & ? & [? ->])
  | H : file_audit _ = _ |- _ => apply file_audit_ok in H as [? ?]
  | H : session_touch _ _ = _ |- _ => apply session_touch_ok in H as [? ?]
  | H : resolve _ _ _ = _ |- _ => apply resolve_ok in H as (? & ? & ? & ? & ? & ? & ? & ? & ? & ? & ?)
  end.
  simpl in *. destruct (Hl _ eq_refl) as [Hx _]. clear Hl.
  repeat match goal with H : tables _ = _ |- _ => rewrite H in *; clear H | H : draft _ = _ |- _ => rewrite H in *; clear H end.
  eexists _, _. split; [|split; [eassumption|split; [done|]]].
  - split_and!; simpl; eauto. eexists. split; [|split; eassumption]. said.
  - eexists. split; [simpl; by f_equal|]. split_and!; try done. simpl. congruence.
Qed.
End Closing.

(** ** What holds along every history *)
Section Histories.
Context {W : Type} `{Outside W} `{Registry} `{ArrayText} (hash : str -> str) (options : ManagerOptions).
Context (A : ShareAuthorizer (W := W)) `{!ShareAuthorizerOk A}.
Notation M A := (Monad.M (World W) Error A).
Notation run_all := (run_all hash options A).

Lemma change_events t k t' : change t k t' -> events t `prefix_of` events t'.
Proof. destruct 1; simpl; try done. by eexists. Qed.
Lemma knows_trans t1 t2 t3 : knows t1 t2 -> knows t2 t3 -> knows t1 t3.
Proof. intros (? & ? & ?) (? & ? & ?). split_and!; [set_solver|set_solver|auto]. Qed.

(** C6. Whatever requests the manager serves, in whatever order and with whatever outcome
    (refusals, failing transactions, repeated draws of ids and tokens), the tables stay well
    formed: ids and token lookups are unique, every row satisfies its constraints, sessions,
    challenges, uploads and audit events refer to rows that exist, a challenge is never attempted
    more often than allowed, a finished upload has all its bytes, and a verified session has an
    e-mail address that a consumed challenge of its link vouches for.  Audit events are only
    appended, and no link, session or consumed challenge disappears. *)
Theorem tables_stay_wellformed rs (w : World W) : wf (tables w) ->
  wf (tables (run_all rs w)) /\ events (tables w) `prefix_of` events (tables (run_all rs w)) /\ knows (tables w) (tables (run_all rs w)).
Proof.
  intros Hw. split_and!; [by apply run_all_wf|..].
  - apply (run_all_keeps hash options A (fun t => events (tables w) `prefix_of` events t)); [|done..].
    intros t k t' Hp Hc%change_events. by etransitivity.
  - apply (run_all_keeps hash options A (knows (tables w))); [|done|by unfold knows].
    intros t k t' Hk Hc%change_knows. by eapply knows_trans.
Qed.

Lemma link_revoke_ok i b (w : World W) u w' : link_revoke i b w = (Ok u, w') -> closed (key i) (tables w').
Proof.
  unfold link_revoke, link_write. intros Hr. inv_run. simpl in *.
  match goal with H : update_one _ _ _ _ _ = Ok ?x |- _ => destruct x as [row ls]; rename H into Hu end. simpl in *. inv_run.
  unfold closed. simpl. pose proof (update_one_rows _ _ _ _ _ _ _ Hu) as ->. unfold update_one in Hu.
  destruct (find _ (links (tables w))) as [y|] eqn:Ef; [|done]. apply find_elem in Ef as [Hx Hi]. bsimpl.
  eexists. split; [apply list_elem_of_fmap; exists y; split; [|done]; rewrite (proj2 (eqb_eq _ _) Hi); reflexivity|]. done.
Qed.
Lemma getLink_ok actor i (w : World W) l w' : getLinkForManagement actor i w = (Ok l, w') ->
  tables w' = tables w /\ l ∈ links (tables w) /\ Link.id l = key i.
Proof.
  intros Hr. split; [by eapply reads_same; [apply keeps_getLinkForManagement|]|]. unfold getLinkForManagement in Hr. inv_run.
  match goal with H : link_get _ _ = _ |- _ => apply link_get_ok in H as (? & ? & Hl) end. by apply Hl.
Qed.
Lemma revokeLink_ok actor i (w : World W) u w' : revokeLink actor i w = (Ok u, w') -> closed (key i) (tables w').
Proof.
  unfold revokeLink. intros Hr. inv_run.
  match goal with H : getLinkForManagement _ _ _ = _ |- _ => apply getLink_ok in H as (_ & _ & Hi) end.
  match goal with H : link_revoke _ _ _ = _ |- _ => apply link_revoke_ok in H; rewrite Hi, key_idemp in H end.
  pose (P := closed (key i)). change (P (tables w')).
  eapply (keeps_property P); [intros; by eapply closed_change|apply (keeps_file_audit anything); done|eassumption|].
  eapply (keeps_property P); [intros; by eapply closed_change|apply (keeps_role_removeForShare anything); done|eassumption|].
  eapply (keeps_property P); [intros; by eapply closed_change|apply (keeps_session_revokeForShare anything); done|eassumption|]. done.
Qed.

(** A link that is answered with is an active row of the tables. *)
Definition served (l : Link) (t : Tables) : Prop := l ∈ links t /\ exists n, Link.isActive l n = true.
Lemma linkFromPublicToken_served token c (w : World W) l w' : linkFromPublicToken hash token c w = (Ok l, w') -> served l (tables w).
Proof. intros ((? & _ & _ & ? & _) & ? & _)%linkFromPublicToken_ok. split; eauto. Qed.
Lemma resolvePublicLink_served token (w : World W) l w' : resolvePublicLink hash token w = (Ok l, w') -> served l (tables w).
Proof. unfold resolvePublicLink. intros Hr. inv_run. by match goal with H : linkFromPublicToken _ _ _ _ = _ |- _ => apply linkFromPublicToken_served in H end. Qed.
Lemma openPublicSession_served token ip agent (w : World W) o w' : openPublicSession hash options token ip agent w = (Ok o, w') -> served (os_link o) (tables w).
Proof.
  unfold openPublicSession. intros Hr. inv_run. simpl.
  by match goal with H : linkFromPublicToken _ _ _ _ = _ |- _ => apply linkFromPublicToken_served in H end.
Qed.
Lemma challenge_context_links r (w : World W) c w' : challenge_context hash options r w = (Ok c, w') -> c.1.1 ∈ links (tables w).
Proof.
  unfold challenge_context. intros Hr. destruct (sc_session_token r), (sc_public_token r); inv_run; simpl;
    repeat match goal with
    | H : linkFromPublicToken _ _ _ _ = _ |- _ => apply linkFromPublicToken_served in H as [? _]
    | H : sessionFromToken _ _ _ _ = _ |- _ => apply sessionFromToken_ok in H as (_ & _ & E & _)
    | H : link_get _ _ = _ |- _ => apply link_get_ok in H as (_ & _ & Hl)
    end; try done; simpl in *; rewrite <- E; by apply Hl.
Qed.
Lemma startEmailChallenge_served r (w : World W) c w' : startEmailChallenge hash options r w = (Ok c, w') -> served (cs_link c) (tables w).
Proof.
  unfold startEmailChallenge. intros Hr. inv_run. simpl.
  match goal with H : challenge_context _ _ _ _ = _ |- _ => apply challenge_context_links in H end. split; eauto.
Qed.
Lemma activeContext_served p (w : World W) c w' : requireActiveShareContext p w = (Ok c, w') ->
  served c.1 (tables w) /\ Link.id c.1 = key (share_id p).
Proof. intros (? & ? & ? & ? & _)%activeContext_ok. by split. Qed.
Lemma served_open i l t : wf t -> closed i t -> served l t -> Link.id l <> i.
Proof. intros Hw Hc (Hl & n & [Ha _]%isActive_link). by eapply closed_not_open. Qed.

(** No answer serves the link with the id. *)
Definition shut_out (id : str) (w : World W) : Prop :=
  (forall token l w', resolvePublicLink hash token w = (Ok l, w') -> Link.id l <> key id) /\
  (forall token ip agent o w', openPublicSession hash options token ip agent w = (Ok o, w') -> Link.id (os_link o) <> key id) /\
  (forall r c w', startEmailChallenge hash options r w = (Ok c, w') -> Link.id (cs_link c) <> key id) /\
  (forall token ip agent p w', resolvePrincipal hash token ip agent w = (Ok p, w') -> share_id p <> key id) /\
  (forall r u w', startUpload options r w = (Ok u, w') -> key (share_id (su_principal r)) <> key id) /\
  (forall p upload n u w', recordUploadChunk p upload n w = (Ok u, w') -> key (share_id p) <> key id) /\
  (forall r u w', finishUpload r w = (Ok u, w') -> key (share_id (fu_principal r)) <> key id) /\
  (forall p upload u w', cancelUpload p upload w = (Ok u, w') -> key (share_id p) <> key id).
Lemma closed_shut_out i (w : World W) : wf (tables w) -> closed (key i) (tables w) -> shut_out i w.
Proof.
  intros Hw Hc. unfold shut_out. split_and!.
  - intros token l w' Hr%resolvePublicLink_served. by eapply served_open.
  - intros token ip agent o w' Hr%openPublicSession_served. by eapply served_open.
  - intros r c w' Hr%startEmailChallenge_served. by eapply served_open.
  - intros token ip agent p w' (l & s & (_ & Hl & _ & (n & _ & (Hn & _) & _) & _ & -> & _) & _)%resolvePrincipal_ok.
    by apply (closed_not_open (key i) (tables w) l).
  - unfold startUpload. intros r u w' Hr. inv_run.
    match goal with H : requireActiveShareContext _ _ = _ |- _ => apply activeContext_served in H as [? <-] end. by eapply served_open.
  - unfold recordUploadChunk. intros p upload n u w' Hr. inv_run.
    match goal with H : requireActiveShareContext _ _ = _ |- _ => apply activeContext_served in H as [? <-] end. by eapply served_open.
  - unfold finishUpload. intros r u w' Hr. inv_run.
    match goal with H : requireActiveShareContext _ _ = _ |- _ => apply activeContext_served in H as [? <-] end. by eapply served_open.
  - unfold cancelUpload. intros p upload u w' Hr. inv_run.
    match goal with H : requireActiveShareContext _ _ = _ |- _ => apply activeContext_served in H as [? <-] end. by eapply served_open.
Qed.

(** C7. Once a link is revoked it stays closed: after the revocation succeeded, and after any
    further requests of anyone (an update of the link or a new token for it included), its token
    opens nothing, no session of it becomes a principal, no e-mail code is sent, and the
    principals it already has can neither start, continue, finish nor cancel an upload. *)
Theorem revoked_link_stays_closed actor id rs (w w1 : World W) :
  wf (tables w) -> revokeLink actor id w = (Ok tt, w1) -> shut_out id (run_all rs w1).
Proof.
  intros Hw Hr. pose proof (run_wf hash options A (RRevoke actor id) w Hw) as Hw1. simpl in Hw1. rewrite Hr in Hw1. simpl in Hw1.
  apply closed_shut_out; [by apply run_all_wf|].
  apply (run_all_keeps hash options A (closed (key id))); [intros; by eapply closed_change|done|by eapply revokeLink_ok].
Qed.

Lemma session_revokeForShare_ok i (w : World W) u w' s : session_revokeForShare i w = (Ok u, w') -> s ∈ sessions (tables w) ->
  Session.share_id s = key i -> session_closed (Session.id s) (tables w').
Proof.
  unfold session_revokeForShare. intros Hr Hs Hi. inv_run. unfold session_closed. simpl.
  eexists. split; [apply list_elem_of_fmap; exists s; split; [reflexivity|done]|]. rewrite Hi, eqb_refl. simpl. case_if; bsimpl; done.
Qed.
Lemma session_revokeForShare_links i (w : World W) u w' : session_revokeForShare i w = (Ok u, w') -> links (tables w') = links (tables w).
Proof. unfold session_revokeForShare. intros Hr. by inv_run. Qed.
Lemma link_rotateToken_ok i l h b (w : World W) u w' : link_rotateToken i l h b w = (Ok u, w') ->
  exists ls, tables w' = with_links ls (tables w) /\ draft w' = draft w /\
    (forall x, x ∈ ls -> Link.id x = key i -> Link.token_lookup_id x = key l /\ Link.token_hash x = h).
Proof.
  unfold link_rotateToken, link_write. intros Hr. inv_run. simpl in *.
  match goal with H : update_one _ _ _ _ _ = Ok ?x |- _ => destruct x as [row ls]; rename H into Hu end. simpl in *. inv_run.
  exists ls. split; [done|]. split; [done|]. apply update_one_rows in Hu as ->. intros y (z & -> & Hz)%list_elem_of_fmap Hi.
  revert Hi. case_if; [done|]. intros Hi. cbn beta in *. by bsimpl.
Qed.

(** The link's row carries the token made of a lookup id and a secret. *)
Definition carries_token (i lookup secret : str) (t : Tables) : Prop :=
  (exists l, l ∈ links t /\ Link.id l = i) /\
  forall l, l ∈ links t -> Link.id l = i -> Link.token_lookup_id l = key lookup /\ Link.token_hash l = hashSecret hash PublicShare secret.
Lemma link_step_token k l l' : link_step k l l' -> k <> KRotate ->
  Link.token_lookup_id l' = Link.token_lookup_id l /\ Link.token_hash l' = Link.token_hash l.
Proof. by destruct 1. Qed.
Lemma carries_rows i lookup secret t (hit : Link -> bool) f : carries_token i lookup secret t ->
  (forall l, Link.id (f l) = Link.id l /\ Link.token_lookup_id (f l) = Link.token_lookup_id l /\ Link.token_hash (f l) = Link.token_hash l) ->
  carries_token i lookup secret (with_links (update_rows hit f (links t)) t).
Proof.
  intros [(l0 & Hl0 & Hi0) Ht] Hf. split; simpl.
  - destruct (update_rows_exists (fun l => Link.id l = i) hit f (links t) l0 Hl0 Hi0) as (y & ? & ?); [by rewrite (proj1 (Hf l0))|eauto].
  - intros l (x & -> & Hx)%list_elem_of_fmap. destruct (Hf x) as (Ei & El & Eh).
    case_if; [rewrite Ei, El, Eh|]; intros Hi; by apply Ht.
Qed.
Lemma carries_change i lookup secret t k t' : carries_token i lookup secret t -> k <> KRotate -> change t k t' -> carries_token i lookup secret t'.
Proof.
  intros Ht Hk Hc. destruct Hc; try exact Ht.
  - destruct Ht as [(l0 & Hl0 & Hi0) Ht]. split; simpl; [exists l0; set_solver|]. intros l [Hl| ->%list_elem_of_singleton]%elem_of_app Hi; [by apply Ht|].
    rewrite Forall_forall in *. match goal with H : forall x, x ∈ links t -> _ |- _ => destruct (H l0 Hl0) as [[] _] end. congruence.
  - match goal with H : update_one _ _ _ _ _ = Ok _ |- _ => apply update_one_rows in H as -> end. apply carries_rows; [done|].
    intros l. split; [by eapply link_step_id|by eapply link_step_token].
  - by apply carries_rows.
Qed.
Definition is_rotation (r : Request) : bool := match r with RRotate _ _ => true | _ => false end.
Lemma carries_run_all i lookup secret rs (w : World W) : wf (tables w) -> existsb is_rotation rs = false ->
  carries_token i lookup secret (tables w) -> carries_token i lookup secret (tables (run_all rs w)).
Proof.
  intros Hw Hrs%existsb_fresh Ht. set (K k := match k with KRotate => false | _ => true end).
  assert (evolves K (tables w) (tables (run_all rs w))) as He.
  { apply run_all_evolves; [done..|]. eapply Forall_impl; [exact Hrs|]. intros r Hr k. destruct r, k; done. }
  clear Hrs Hw. induction He as [|t1 t2 t3 (k & Hk & Hc) _ IH]; [done|]. apply IH. eapply carries_change; [done| |done]. by destruct k.
Qed.

Lemma rotateLinkToken_ok actor i (w : World W) r w' : rotateLinkToken hash actor i w = (Ok r, w') ->
  exists lookup secret, drew_token w w' (lookup, secret) /\ lt_public_token r = token_raw PublicShare lookup secret /\
    carries_token (key i) lookup secret (tables w') /\
    (forall s, s ∈ sessions (tables w) -> Session.share_id s = key i -> session_closed (Session.id s) (tables w')).
Proof.
  unfold rotateLinkToken. intros Hr. inv_run.
  match goal with H : generate _ _ = (Ok ?t, _) |- _ => destruct t as [lookup sec]; apply generate_ok in H as (o & Hdraw & ->) end.
  simpl in *. progressing.
  repeat match goal with
  | H : getLinkForManagement _ _ _ = _ |- _ => apply getLink_ok in H as (? & ? & Hi)
  | H : link_rotateToken _ _ _ _ _ = _ |- _ => apply link_rotateToken_ok in H as (ls & ? & ? & Hls)
  | H : file_audit _ = _ |- _ => apply file_audit_ok in H as [_ Ef]
  | H : link_get _ _ = _ |- _ => apply link_get_ok in H as (? & ? & Hg)
  | H : session_revokeForShare _ _ = _ |- _ => pose proof (session_revokeForShare_links _ _ _ _ H); pose proof (fun s => session_revokeForShare_ok _ _ _ _ s H) as Hc; clear H
  end. simpl in *. rewrite Hi, key_idemp in *. destruct (Hg _ eq_refl) as [Hin Hid].
  match type of Ef with tables ?z = _ => assert (links (tables z) = ls) as El end.
  { rewrite Ef. simpl. match goal with H : tables _ = tables _, H' : links (tables _) = links _ |- _ => rewrite H, H' end.
    match goal with H : tables _ = with_links ls _ |- _ => by rewrite H end. }
  exists lookup, sec. split_and!; [do 2 eexists; split; [|split; [exact Hdraw|]]; goes|done|split; rewrite El|].
  - eexists. split; [|exact Hid]. match goal with H' : links (tables _) = links _ |- _ => rewrite H' in Hin end.
    match goal with H : tables _ = with_links ls _ |- _ => by rewrite H in Hin end.
  - exact Hls.
  - intros s Hs Es. rewrite Ef. unfold session_closed. simpl.
    match goal with H : tables ?a = tables ?b, H' : links (tables ?b) = links _ |- _ => rewrite H end. apply Hc; [|done].
    match goal with H : tables _ = with_links ls _ |- _ => rewrite H end. simpl. congruence.
Qed.
(** C10. A new token ends everything the old one opened.  A rotation draws a token and answers
    with it; after it, and along every later history without another rotation, a public token
    opens the link only with the drawn lookup id and a secret that hashes as the drawn one; and
    along every later history at all no session that the link had becomes a principal again, and
    no principal of such a session continues an upload. *)
Theorem rotation_ends_sessions actor id rs r (w w1 : World W) :
  wf (tables w) -> rotateLinkToken hash actor id w = (Ok r, w1) ->
  (exists lookup secret, drew_token w w1 (lookup, secret) /\ lt_public_token r = token_raw PublicShare lookup secret /\
     (existsb is_rotation rs = false -> forall token l w', resolvePublicLink hash token (run_all rs w1) = (Ok l, w') -> Link.id l = key id ->
        exists p, ShareTokens.parse token = Ok p /\ key (lookup_id p) = key lookup /\
          hashSecret hash PublicShare (ShareTokens.secret p) = hashSecret hash PublicShare secret)) /\
  (forall s token ip agent p w', s ∈ sessions (tables w) -> Session.share_id s = key id ->
     resolvePrincipal hash token ip agent (run_all rs w1) = (Ok p, w') -> share_session_id p <> Session.id s) /\
  (forall s p upload n u w', s ∈ sessions (tables w) -> Session.share_id s = key id ->
     recordUploadChunk p upload n (run_all rs w1) = (Ok u, w') -> key (share_session_id p) <> Session.id s).
Proof.
  intros Hw Hr. pose proof (run_wf hash options A (RRotate actor id) w Hw) as Hw1. simpl in Hw1. unfold bind in Hw1. rewrite Hr in Hw1.
  simpl in Hw1. destruct (rotateLinkToken_ok _ _ _ _ _ Hr) as (lookup & sec & Hd & Ht & Hcar & Hs).
  assert (forall s, s ∈ sessions (tables w) -> Session.share_id s = key id -> session_closed (Session.id s) (tables (run_all rs w1))) as Hclosed.
  { intros s Hin Hi. apply (run_all_keeps hash options A (session_closed (Session.id s))); [intros; by eapply session_closed_change|done|by apply Hs]. }
  pose proof (run_all_wf hash options A rs w1 Hw1) as Hw2. split; [|split].
  - exists lookup, sec. split_and!; [done..|]. intros Hrs token l w' Ho Hi. unfold resolvePublicLink in Ho. inv_run.
    match goal with H : linkFromPublicToken _ _ _ _ = _ |- _ => apply linkFromPublicToken_ok in H as ((p & ? & _ & Hin & Elk & Hv) & _) end.
    simpl in *. destruct (carries_run_all _ _ _ rs w1 Hw1 Hrs Hcar) as [_ Hn]. destruct (Hn l Hin Hi) as [E1 E2].
    exists p. split_and!; congruence.
  - intros s token ip agent p w' Hin Hi (l & s' & ((q & _ & _ & Hs' & _) & _ & _ & (n & _ & _ & Ha & _) & _ & _ & -> & _) & _)%resolvePrincipal_ok.
    by eapply session_closed_not_open; [|by apply Hclosed| |].
  - unfold recordUploadChunk. intros s p upload n u w' Hin Hi Ho. inv_run.
    match goal with H : requireActiveShareContext _ _ = _ |- _ => apply activeContext_ok in H as (_ & _ & _ & _ & Hs' & <- & [m Ha%isActive_session] & _) end.
    eapply session_closed_not_open; [done|by apply Hclosed|exact Hs'|apply Ha].
Qed.
End Histories.

(** ** Principals and e-mail addresses *)
Section Addresses.
Context {W : Type} `{Outside W} `{Registry} `{ArrayText} (hash : str -> str) (options : ManagerOptions).
Context (A : ShareAuthorizer (W := W)) `{!ShareAuthorizerOk A}.
Notation M A := (Monad.M (World W) Error A).
Notation run_all := (run_all hash options A).


(** *** Challenges *)
Definition spent (i : str) (t : Tables) : Prop := exists c, c ∈ challenges t /\ Challenge.id c = i /\ consumed c.
Lemma spent_change i t k t' : spent i t -> change t k t' -> spent i t'.
Proof. intros (c & Hc & Hi & Hs) (_ & _ & Hk)%change_knows. exists c. auto. Qed.
Lemma session_verify_ok i h (w : World W) u w' : session_verify i h w = (Ok u, w') -> challenges (tables w') = challenges (tables w) /\
  forall s, s ∈ sessions (tables w') -> Session.id s = key i -> Session.email_hash s = Some h /\ Session.isVerified s = true.
Proof.
  unfold session_verify, session_write. intros Hr. inv_run.
  match goal with H : update_one _ _ _ _ _ = Ok ?x |- _ => destruct x as [row ls]; rename H into Hu end. cbn beta iota in *. inv_run.
  split; [done|]. apply update_one_rows in Hu as ->. intros y (z & -> & Hz)%list_elem_of_fmap Hi.
  revert Hi. cbn beta. case_if; [done|]. intros Hi. by bsimpl.
Qed.
(** What a confirmation that succeeds between two worlds was: the challenge, the session and the
    link, each in force at a time the clock said, and the session as the challenge verified it. *)
Definition confirmed (r : ConfirmEmailChallengeRequest) (s : Session) (w w1 : World W) (l : Link) (c : Challenge) (s0 : Session) : Prop :=
  (c ∈ challenges (tables w) /\ Challenge.id c = key (cc_challenge_id r)) /\
  (opens_session hash (cc_session_token r) (tables w) s0 /\ Session.id s0 = cc_session_id r) /\
  (l ∈ links (tables w) /\ Link.id l = Session.share_id s0 /\ Link.access_mode l = EmailValidated) /\
  Challenge.share_id c = Session.share_id s0 /\ (forall i, Challenge.share_session_id c = Some i -> i = Session.id s0) /\
  (exists n, clock_said w w1 n /\ link_in_force l n) /\ (exists n, clock_said w w1 n /\ session_in_force s0 n) /\
  (exists n, clock_said w w1 n /\ attemptable c n) /\
  Challenge.code_hash c = hashCode hash (cc_code r) /\ is_recipient (Link.id l) (Challenge.email_hash c) (tables w) /\
  Session.id s = Session.id s0 /\ Session.email_hash s = Some (Challenge.email_hash c) /\ is_Some (Session.verified_at s).
Lemma verify_goes_on i h (w : World W) u w' : session_verify i h w = (Ok u, w') -> goes_on (outside w) (outside w').
Proof.
  unfold session_verify, session_write. intros Hr. apply bind_ok in Hr as (? & ? & [_ ->]%require_ok & Hr).
  apply bind_ok in Hr as (? & ? & [_ ->]%require_ok & Hr). match type of Hr with exec ?f ?w0 = _ => pose proof (exec_goes_on f w0) as Hg end.
  by rewrite Hr in Hg.
Qed.
Lemma said_within (w w1 w2 w3 : World W) n :
  goes_on (outside w) (outside w1) -> goes_on (outside w2) (outside w3) -> clock_said w1 w2 n -> clock_said w w3 n.
Proof. intros Ha Hb (o & o' & ? & ? & ?). exists o, o'. split_and!; [by etransitivity|done|by etransitivity]. Qed.
Lemma confirm_ok r (w : World W) s w' : wf (tables w) -> confirmEmailChallenge hash r w = (Ok s, w') ->
  exists l c s0, confirmed r s w w' l c s0 /\ spent (Challenge.id c) (tables w').
Proof.
  intros Hw Hr. unfold confirmEmailChallenge in Hr. inv_run. progressing.
  match goal with H : session_verify _ _ _ = _ |- _ => apply verify_goes_on in H as Hgo end.
  repeat match goal with
  | H : challenge_get _ _ = _ |- _ => apply challenge_get_ok in H as (Ec & _ & Hc); destruct (Hc _ eq_refl) as [Hc1 Hc2]; clear Hc
  | H : sessionFromToken _ _ _ _ = _ |- _ => apply sessionFromToken_ok in H as (Hop & _ & Es & _)
  | H : link_get _ _ = _ |- _ => apply link_get_ok in H as (El & _ & Hl); destruct (Hl _ eq_refl) as [Hl1 Hl2]; clear Hl
  | H : check_challenge _ _ _ _ _ _ = _ |- _ => apply check_challenge_ok in H as (Ek & _ & Hmode & (n1 & Hn1 & Hf1) & (n2 & Hn2 & Hf2) & Hown & Hsess & Hrec & (n3 & Hn3 & Hcan) & Hcode)
  | H : session_verify _ _ _ = _ |- _ => apply session_verify_ok in H as [Ev Hv]
  | H : session_get _ _ = _ |- _ => apply session_get_ok in H as (Eg & _ & Hg); destruct (Hg _ eq_refl) as [Hg1 Hg2]; clear Hg
  | H : file_audit _ = _ |- _ => apply file_audit_ok in H as [_ Ef]
  end. simpl in *.
  match goal with H : challenge_consume (Challenge.id ?c) ?w1 = (Ok ?u, ?w2) |- _ => assert (tables w1 = tables w) as Et by congruence;
    destruct (challenge_consume_ok c (cc_challenge_id r) w1 u w2) as (n & cs & l1 & l2 & Ed & _ & _ & Ecs & ->); [congruence|done|congruence|done|] end.
  rewrite ?Es, ?Ec, ?El, ?Et in *. pose proof Hop as (q & _ & _ & Hin & _). bsimpl. destruct (Hv _ Hg1 Hg2) as [? ?%isVerified_is_Some].
  pose proof (wf_sessions _ Hw) as Hall. rewrite Forall_forall in Hall. destruct (Hall _ Hin) as (Hshare & Hkey & _).
  apply list_elem_of_fmap in Hshare as (l0 & Hl0 & Hin0). pose proof (wf_links _ Hw) as Hlinks. rewrite Forall_forall in Hlinks.
  destruct (Hlinks _ Hin0) as [_ Hk0].
  match type of Hl1 with ?l ∈ _ => match type of Hc1 with ?c ∈ _ => match type of Hin with ?s1 ∈ _ => exists l, c, s1 end end end.
  split; [unfold confirmed; split_and!|]; try eassumption; try congruence.
  - intros i Hi. by rewrite Hi in Hsess.
  - exists n1. split; [|done]. eapply said_within; [| |exact Hn1]; goes.
  - exists n2. split; [|done]. eapply said_within; [| |exact Hn2]; goes.
  - exists n3. split; [|done]. eapply said_within; [| |exact Hn3]; goes.
  - unfold spent. rewrite Ef, Eg. simpl. rewrite Ev, Ed. simpl. eexists. split; [apply elem_of_app; right; left|]. done.
Qed.

(** C9. An e-mail code proves its address once.  A confirmation that succeeds was given the code
    of a challenge that was not consumed, not expired and had attempts left at a time the clock
    said during the call, in a session, in force, of the very link the challenge was sent for
    (the session's own challenge, where it was sent to one), to an address that is a recipient's
    of that link, which asks for addresses and is in force; the same session then has that
    verified address; and the same challenge confirms nothing along any later history. *)
Theorem email_challenge_single_use r s rs (w w1 : World W) :
  wf (tables w) -> confirmEmailChallenge hash r w = (Ok s, w1) ->
  (exists l c s0, confirmed r s w w1 l c s0) /\
  (forall r' s' w', key (cc_challenge_id r') = key (cc_challenge_id r) -> confirmEmailChallenge hash r' (run_all rs w1) <> (Ok s', w')).
Proof.
  intros Hw Hr. pose proof (run_wf hash options A (RConfirm r) w Hw) as Hw1. simpl in Hw1. unfold bind in Hw1. rewrite Hr in Hw1. simpl in Hw1.
  destruct (confirm_ok _ _ _ _ Hw Hr) as (l & c & s0 & Hcf & Hsp).
  split; [by exists l, c, s0|]. destruct Hcf as ((Hc & Hi) & _). intros r' s' w' Hk Hr'.
  assert (spent (Challenge.id c) (tables (run_all rs w1))) as (c2 & Hc2 & Hi2 & Hd).
  { by apply (run_all_keeps hash options A (spent (Challenge.id c))); [intros; by eapply spent_change|..]. }
  pose proof (run_all_wf hash options A rs w1 Hw1) as Hw2.
  destruct (confirm_ok _ _ _ _ Hw2 Hr') as (l' & c' & s0' & ((Hc' & Hi') & _ & _ & _ & _ & _ & _ & (n & _ & Hn & _) & _) & _).
  assert (c2 = c') as ->; [|done]. eapply (unique_row Challenge.id); [apply (wf_challenge_ids _ Hw2)|done..|congruence].
Qed.
End Addresses.

(** ** Downloads *)
Section Downloads.
Context {W : Type} `{Outside W} `{Registry} `{ArrayText} (hash : str -> str) (options : ManagerOptions).
Context (A : ShareAuthorizer (W := W)) `{!ShareAuthorizerOk A}.
Notation M A := (Monad.M (World W) Error A).
Notation run := (run hash options A).
Notation run_all := (run_all hash options A).

(** The link [i] has the limit [m] and at least [n] downloads. *)
Definition downloads (i : str) (m n : Z) (t : Tables) : Prop :=
  exists l, l ∈ links t /\ Link.id l = i /\ Link.max_downloads l = Some m /\ n <= Link.download_count l.
Lemma link_step_downloads k l l' : link_step k l l' -> k <> KEdit ->
  Link.max_downloads l' = Link.max_downloads l /\ Link.download_count l <= Link.download_count l'.
Proof. destruct 1; simpl; intros; split; first [done | lia]. Qed.
Lemma downloads_change i m n t k t' : downloads i m n t -> k <> KEdit -> change t k t' -> downloads i m n t'.
Proof.
  intros (l & Hl & Hp) Hk Hc. pose (P := fun l => Link.id l = i /\ Link.max_downloads l = Some m /\ n <= Link.download_count l). unfold downloads.
  destruct Hc; simpl; try (by exists l); try match goal with H : update_one _ _ _ _ _ = Ok _ |- _ => apply update_one_rows in H as -> end.
  - exists l. set_solver.
  - apply (update_rows_exists P _ _ _ l); [done..|]. intros (? & ? & ?).
    match goal with H : forall l, link_step _ l (f l) |- _ => destruct (link_step_downloads _ _ _ (H l) Hk); pose proof (link_step_id _ _ _ (H l)) end.
    unfold P. split_and!; [congruence|congruence|lia].
  - apply (update_rows_exists P _ _ _ l); [done..|]. intros (? & ? & ?). unfold P. simpl. split_and!; [done..|lia].
Qed.
Lemma downloads_evolves i m n K t t' : K KEdit = false -> evolves K t t' -> downloads i m n t -> downloads i m n t'.
Proof.
  intros HK He. induction He as [|t1 t2 t3 (k & Hk & Hc) _ IH]; [done|]. intros Hd. apply IH. eapply downloads_change; [done| |done]. congruence.
Qed.

(** How many downloads of the link a history grants. *)
Definition grants (i : str) (r : Request) (w : World W) : bool :=
  match r with
  | RConsume p => (key (share_id p) == i) && match consumeDownload p w with (Ok true, _) => true | _ => false end
  | _ => false
  end.
Fixpoint granted (i : str) (rs : list Request) (w : World W) : Z :=
  match rs with [] => 0 | r :: rs' => (if grants i r w then 1 else 0) + granted i rs' (run r w).2 end.
Definition is_update (r : Request) : bool := match r with RUpdate _ _ => true | _ => false end.

Lemma consumeDownload_ok p (w : World W) b w' : consumeDownload p w = (Ok b, w') ->
  exists n, b = existsb (fun l => (Link.id l == key (share_id p)) && below_limit l) (links (tables w)) /\
  links (tables w') = update_rows (fun l => (Link.id l == key (share_id p)) && below_limit l) (Link.downloaded n) (links (tables w)).
Proof.
  unfold consumeDownload, link_consumeDownload. intros Hr. inv_run; eexists; (split; [done|]); [done|].
  match goal with H : audit_append _ _ = _ |- _ => apply audit_append_ok in H as [_ ->] end. done.
Qed.
Lemma grants_downloads i m n r (w : World W) : wf (tables w) -> grants i r w = true -> downloads i m n (tables w) ->
  n < m /\ downloads i m (n + 1) (tables (run r w).2).
Proof.
  intros Hw Hg (l & Hl & Hi & Hm & Hn). destruct r; try done. simpl in *. unfold bind. bsimpl.
  destruct (consumeDownload p w) as [[[]|] w'] eqn:E; [|done..]. simpl. apply consumeDownload_ok in E as (now & Hx & El).
  symmetry in Hx. apply existsb_exists in Hx as (l' & Hl'%list_elem_of_In & Hb). bsimpl.
  assert (l' = l) as ->. { eapply (unique_row Link.id); [apply (wf_link_ids _ Hw)|done..|congruence]. }
  match goal with H : below_limit l = true |- _ => pose proof H as Hlim; unfold below_limit in H; rewrite Hm in H end. bsimpl. split; [lia|].
  exists (Link.downloaded now l). split_and!; [|done|done|simpl; lia]. rewrite El. apply list_elem_of_fmap. exists l. split; [|done].
  replace (Link.id l == key (share_id p)) with true by (symmetry; apply eqb_eq; congruence). by rewrite Hlim.
Qed.

Lemma granted_bound i m n rs (w : World W) : wf (tables w) -> downloads i m n (tables w) -> existsb is_update rs = false ->
  granted i rs w <= Z.max 0 (m - n).
Proof.
  revert n w; induction rs as [|r rs IH]; intros n w Hw Hd Hu; [simpl; lia|]. cbn [existsb] in Hu. bsimpl. cbn [granted].
  pose proof (run_wf hash options A r w Hw) as Hw1. destruct (grants i r w) eqn:Eg.
  - destruct (grants_downloads i m n r w Hw Eg Hd) as [? Hd1]. specialize (IH (n + 1) _ Hw1 Hd1 ltac:(done)). lia.
  - assert (downloads i m n (tables (run r w).2)) as Hd1.
    { eapply downloads_evolves; [|by apply run_within|done]. by destruct r. }
    specialize (IH n _ Hw1 Hd1 ltac:(done)). lia.
Qed.

(** C33. Whatever happens, except that the link is edited, a link with a download limit grants
    no more downloads than were left: the answers "granted" of [consumeDownload] along a history,
    for principals of this link, are at most the limit minus the downloads counted before. *)
Theorem granted_downloads_bounded i m l rs (w : World W) :
  wf (tables w) -> l ∈ links (tables w) -> Link.id l = i -> Link.max_downloads l = Some m -> existsb is_update rs = false ->
  granted i rs w <= Z.max 0 (m - Link.download_count l).
Proof. intros Hw Hl Hi Hm. apply granted_bound; [done|]. exists l. by split_and!. Qed.
End Downloads.

(** ** Authorisation *)
Section Authorisation.
Context {W : Type} `{Outside W} `{Registry}.

Lemma scope_path p r d : ShareScope.authorize p r = Ok d -> normalizeVaultPath (q_path r) = Ok (normalized_path d).
Proof.
  unfold ShareScope.authorize. intros (n & -> & Hd)%rbind_Ok. repeat (case_if_in Hd; [by simplify_eq|]).
  apply rbind_Ok in Hd as (b & _ & Hd). repeat (case_if_in Hd; [by simplify_eq|]). by simplify_eq.
Qed.
(** The answer is the scope's decision, turned into a refusal when the policy refuses. *)
Lemma authorize_cases p operation path target vault (w w' : World W) d :
  authorize p operation path target vault w = (Ok d, w') ->
  exists s e, ShareScope.authorize p (mkScopeRequest (default (p_vault_id p) vault) path operation target) = Ok s /\
    normalized_path d = normalized_path s /\
    (d_allowed d = true <-> d_allowed s = true /\ exists rbac,
       SharePolicy.evaluate p (mkShareRequest (default (p_vault_id p) vault) (normalized_path s) operation
         (default (if (operation == OpList) || (operation == Mkdir) then Directory else ShareScope.target_type (grant_ p)) target)
         ((operation !== Upload) && (operation !== Mkdir))) = Ok rbac /\ FsPolicy.allowed rbac = true) /\
    tables w' = with_events (events (tables w) ++ [e]) (tables w) /\
    Audit.event_type e = $"share.scope.authorize" /\ Audit.share_session_id e = Some (share_session_id p) /\
    Audit.target_path e = Some (normalized_path s) /\ Audit.status e = (if d_allowed d then Success else Denied).
Proof.
  unfold authorize. intros Hr. inv_run.
  all: match goal with H : file_audit _ = _ |- _ => apply file_audit_ok in H as [_ Ef] end; simpl in *; bsimpl.
  all: eexists _, _; split_and!; [eassumption|..|exact Ef| | | |]; try done; simpl;
    repeat match goal with H : d_allowed _ = _ |- _ => rewrite H end; try done.
  - split; [done|]. by intros [? _].
  - split; [|done]. intros _. split; [done|]. by eexists.
  - split; [done|]. intros [_ (rbac & Hq & Ha)]. congruence.
Qed.

(** C5. A share request is authorised exactly when the link's grant and the principal's vault role
    both allow it: it is about the link's vault, it names an operation of the grant, a directory if
    one is made, and a path below the link's root by components, without parent components, and the
    filesystem policy allows the normalised path to the principal's role; the answer names that
    path; and one audit event, and no other change of the tables, is filed before it is returned, a
    success exactly for an allowed request. *)
Theorem authorize_composes p operation path target vault (w w' : World W) d :
  authorize p operation path target vault w = (Ok d, w') ->
  let asked := default (p_vault_id p) vault in
  let kind := default (if (operation == OpList) || (operation == Mkdir) then Directory else ShareScope.target_type (grant_ p)) target in
  normalizeVaultPath path = Ok (normalized_path d) /\
  (d_allowed d = true <->
     (p_vault_id p = asked /\ Z.land (ShareScope.allowed_ops (grant_ p)) (bit operation) <> 0 /\
      (operation = Mkdir -> default (ShareScope.target_type (grant_ p)) target = Directory) /\
      escape_free (splitComponents (p_root_path p)) /\ escape_free (splitComponents path) /\
      splitComponents (p_root_path p) `prefix_of` splitComponents path) /\
     exists rbac, SharePolicy.evaluate p (mkShareRequest asked (normalized_path d) operation kind ((operation !== Upload) && (operation !== Mkdir))) = Ok rbac /\
       FsPolicy.allowed rbac = true) /\
  exists e, tables w' = with_events (events (tables w) ++ [e]) (tables w) /\
    Audit.event_type e = $"share.scope.authorize" /\ Audit.share_session_id e = Some (share_session_id p) /\
    Audit.target_path e = Some (normalized_path d) /\ Audit.status e = (if d_allowed d then Success else Denied).
Proof.
  intros Hr asked kind. destruct (authorize_cases _ _ _ _ _ _ _ _ Hr) as (s & e & Hs & En & Hd & Ht). fold asked in Hs, Hd. fold kind in Hd.
  split; [rewrite En; exact (scope_path _ _ _ Hs)|]. split; [|exists e; by rewrite En].
  pose proof (authorize_sound _ _ _ Hs) as Hsound. cbn [q_vault_id q_operation q_path] in Hsound.
  unfold hasVault, principal_allows, allows, isMkdirTargetAllowed in Hsound. cbn [q_operation q_target_type] in Hsound.
  rewrite Hd, Hsound, En. apply and_iff_compat_r. rewrite Z.eqb_eq, negb_true_iff, Z.eqb_neq.
  assert (Hm : (if operation !== Mkdir then true else match target with Some t => t == Directory | None => ShareScope.target_type (grant_ p) == Directory end) = true
    <-> (operation = Mkdir -> default (ShareScope.target_type (grant_ p)) target = Directory)).
  { destruct (operation !== Mkdir) eqn:E; bsimpl.
    - split; [by intros _ ->|done].
    - destruct target; cbn; rewrite eqb_eq; tauto. }
  by rewrite Hm.
Qed.
End Authorisation.

(** ** Two defects *)
Module LifecycleDemo.
Import ManagerDemo.
Definition plain (s : str) : str := s.
Definition serve (r : Request) (w : World Z) : World Z := (run plain default_options default_authorizer r w).2.
Definition answer {A} (r : result Error A * World Z) (default : A) : A := match r.1 with Ok a => a | Err _ => default end.
Definition no_link : Link := demo_link Public.
Definition no_session : Session := Session.mk [] [] [] [] None None 0 0 0 None None None.
Definition no_principal : Principal :=
  mkPrincipal [] [] 0 0 0 [] (Link.grant no_link) Public false 0 None None None.
(** A link of the administrator, its token, a session of it and the principal of the session. *)
Definition creating mode := createLink plain admin (mkCreate (demo_link mode) None []) start.
Definition created mode : LinkTokenResult := answer (creating mode) (mkLinkToken no_link [] []).
Definition opening := openPublicSession plain default_options (lt_public_token (created Public)) None None (creating Public).2.
Definition opened : OpenSessionResult := answer opening (mkOpened Ready no_link no_session []).
Definition resolving := resolvePrincipal plain (os_session_token opened) None None opening.2.
Definition guest : Principal := answer resolving no_principal.
Definition uploading (name : str) : StartUploadRequest := mkStartUpload guest 9 ($"/docs/" ++ name) name name 5 None.
End LifecycleDemo.
Import ManagerDemo LifecycleDemo.

Definition two_uploads : World Z :=
  let '(a, w) := startUpload default_options (uploading $"a.txt") resolving.2 in
  let '(b, w) := startUpload default_options (uploading $"b.txt") w in
  let id r := match r with Ok u => Upload.id (us_upload u) | Err _ => [] end in
  let w := serve (RChunk guest (id a) 5) w in
  let w := serve (RChunk guest (id b) 5) w in
  let w := serve (RFinish (mkFinish guest (id a) 21 $"h" None)) w in
  serve (RFinish (mkFinish guest (id b) 22 $"h" None)) w.

(** The upload limits of a link count finished uploads only, when an upload starts: two
    uploads that run at the same time both finish on a link that allows one file. *)
Example running_uploads_escape_limits :
  let l := lt_link (created Public) in
  Link.max_upload_files l = Some 1 /\ length (completed_of (Link.id l) (tables two_uploads)) = 2%nat /\
  requireUploadQuota l 5 two_uploads = (Err (EDenied $"Share upload denied: file count limit reached"), (requireUploadQuota l 5 two_uploads).2).
Proof. vm_compute. split_and!; reflexivity. Qed.

(** The link an administrator protects by e-mail, and an update by a user who may share with the
    public but not by e-mail. *)
Definition protected : Link := lt_link (created EmailValidated).
Definition opened_up : Link :=
  Link.mk (Link.id protected) [] [] 0 None None 0 0 [] Directory LAccess Public 3 None None None None None None 0 0 None 0 0 0 None None None None Reject
    [] [] [] [] [].
Definition update_by_bob := updateLink plain bob (mkUpdate (Some opened_up) None None) (creating EmailValidated).2.

(** Whether a link may be updated is decided by the new link alone, whatever the existing one
    is: a user who is refused the management of a protected link, because it asks for e-mail
    addresses, updates it to a public link of the same root. *)
Theorem update_ignores_existing_link :
  (forall (actor : Actor) (one other updated : Link) (w : World Z), canUpdateLink actor one updated w = canUpdateLink actor other updated w) /\
  Link.access_mode protected = EmailValidated /\
  (getLinkForManagement bob (Link.id protected) (creating EmailValidated).2).1
    = Err (EDenied $"Share get denied: missing_share_public_validated_permission") /\
  exists l, update_by_bob.1 = Ok l /\ l ∈ links (tables update_by_bob.2) /\ Link.id l = Link.id protected /\
    Link.created_by l = Link.created_by protected /\ Link.root_path l = Link.root_path protected /\ Link.access_mode l = Public.
Proof.
  split; [intros actor one other updated w; simpl; by destruct (humanUser actor); repeat case_if|].
  split; [by vm_compute|]. split; [by vm_compute|]. exists (answer update_by_bob no_link).
  assert (E : update_by_bob.1 = Ok (answer update_by_bob no_link)) by by vm_compute.
  split; [exact E|]. split; [vm_compute; left|]. vm_compute. split_and!; reflexivity.
Qed.

(** ** Witnesses *)
Lemma wf_start : wf (tables start).
Proof. split; vm_compute; try constructor. Qed.
#[local] Notation history := (run_all plain default_options default_authorizer).
(** The link, with its open session, as the served requests leave them. *)
Definition create_request mode : Request := RCreate admin (mkCreate (demo_link mode) None []).
Definition open_request : Request := ROpen (lt_public_token (created Public)) None None.
Definition shared : World Z := history [create_request Public; open_request] start.
Lemma wf_shared : wf (tables shared).
Proof. apply (run_all_wf plain default_options default_authorizer _ start), wf_start. Qed.
Definition link_id : str := Link.id (lt_link (created Public)).

Lemma tables_stay_wellformed_witness :
  wf (tables start) /\ wf (tables shared) /\ events (tables start) `prefix_of` events (tables shared) /\ knows (tables start) (tables shared).
Proof.
  split; [exact wf_start|].
  exact (tables_stay_wellformed plain default_options default_authorizer [create_request Public; open_request] start wf_start).
Defined.

Lemma revoked_link_stays_closed_witness :
  let w1 := (revokeLink admin link_id shared).2 in
  wf (tables shared) /\ revokeLink admin link_id shared = (Ok tt, w1) /\
  shut_out plain default_options link_id (history [RUpdate admin (mkUpdate (Some (lt_link (created Public))) None None); RRotate admin link_id] w1).
Proof.
  assert (E : revokeLink admin link_id shared = (Ok tt, (revokeLink admin link_id shared).2)) by (vm_compute; reflexivity).
  split; [exact wf_shared|]. split; [exact E|].
  exact (revoked_link_stays_closed plain default_options default_authorizer admin link_id _ shared _ wf_shared E).
Defined.

Lemma rotation_runs : exists r w1, rotateLinkToken plain admin link_id shared = (Ok r, w1) /\
  is_ok (resolvePublicLink plain (lt_public_token r) w1).1 = true /\ is_ok (resolvePublicLink plain (lt_public_token (created Public)) w1).1 = false.
Proof.
  exists (answer (rotateLinkToken plain admin link_id shared) (mkLinkToken no_link [] [])), (rotateLinkToken plain admin link_id shared).2.
  vm_compute. split_and!; reflexivity.
Qed.
Lemma opened_on_link : Session.share_id (os_session opened) = key link_id /\ os_session opened ∈ sessions (tables shared).
Proof. vm_compute. split; [reflexivity|left]. Qed.
Lemma rotation_ends_sessions_witness : exists r w1, wf (tables shared) /\ rotateLinkToken plain admin link_id shared = (Ok r, w1) /\
  is_ok (resolvePublicLink plain (lt_public_token r) w1).1 = true /\ is_ok (resolvePublicLink plain (lt_public_token (created Public)) w1).1 = false /\
  (exists lookup secret, drew_token shared w1 (lookup, secret) /\ lt_public_token r = token_raw PublicShare lookup secret /\
     forall token l w', resolvePublicLink plain token (history [create_request Public] w1) = (Ok l, w') -> Link.id l = key link_id ->
       exists p, ShareTokens.parse token = Ok p /\ key (lookup_id p) = key lookup) /\
  forall token ip agent p w', resolvePrincipal plain token ip agent (history [create_request Public] w1) = (Ok p, w') ->
    share_session_id p <> Session.id (os_session opened).
Proof.
  destruct rotation_runs as (r & w1 & E & Hnew & Hold). exists r, w1. destruct opened_on_link as [Es Ei].
  destruct (rotation_ends_sessions plain default_options default_authorizer admin link_id [create_request Public] r shared w1 wf_shared E)
    as ((lookup & sec & Hd & Ht & Ho) & Hs & _).
  split; [exact wf_shared|]. split; [exact E|]. split; [exact Hnew|]. split; [exact Hold|]. split.
  - exists lookup, sec. split; [exact Hd|]. split; [exact Ht|]. intros token l w' Hr Hl.
    destruct (Ho eq_refl token l w' Hr Hl) as (p & Hp & Hk & _). exact (ex_intro _ p (conj Hp Hk)).
  - intros token ip agent p w'. exact (Hs (os_session opened) token ip agent p w' Ei Es).
Defined.


(** A link for one recipient, and the challenge sent to it. *)
Definition mail_create : CreateLinkRequest :=
  mkCreate (demo_link EmailValidated) None [mkRecipientRequest $"ann@example.org" (mkRoleRequest (Some 3) None [])].
Definition mail_token : str := lt_public_token (answer (createLink plain admin mail_create start) (mkLinkToken no_link [] [])).
Definition starting : StartEmailChallengeRequest := mkStartChallenge (Some mail_token) None $"Ann@Example.org" None None.
Definition no_challenge : Challenge := Challenge.mk [] [] None [] [] 0 0 0 None 0 None None.
Definition challenged : StartEmailChallengeResult :=
  answer (startEmailChallenge plain default_options starting (history [RCreate admin mail_create] start))
    (mkChallengeStarted no_link no_session no_challenge [] []).
Definition mailed : World Z := history [RCreate admin mail_create; RStart starting] start.
Lemma wf_mailed : wf (tables mailed).
Proof. apply (run_all_wf plain default_options default_authorizer _ start), wf_start. Qed.
Definition confirming (code : str) : ConfirmEmailChallengeRequest :=
  mkConfirm (Challenge.id (cs_challenge challenged)) (Session.id (cs_session challenged)) (cs_session_token challenged) code.

Lemma confirmation_runs : exists s w1, confirmEmailChallenge plain (confirming $"123456") mailed = (Ok s, w1) /\
  Session.isVerified s = true /\ is_ok (confirmEmailChallenge plain (confirming $"654321") mailed).1 = false.
Proof.
  exists (answer (confirmEmailChallenge plain (confirming $"123456") mailed) no_session), (confirmEmailChallenge plain (confirming $"123456") mailed).2.
  vm_compute. split_and!; reflexivity.
Qed.
Lemma email_challenge_single_use_witness : exists s w1, wf (tables mailed) /\ confirmEmailChallenge plain (confirming $"123456") mailed = (Ok s, w1) /\
  Session.isVerified s = true /\ is_ok (confirmEmailChallenge plain (confirming $"654321") mailed).1 = false /\
  (exists l c s0, confirmed plain (confirming $"123456") s mailed w1 l c s0) /\
  forall s' w', confirmEmailChallenge plain (confirming $"123456") (history [create_request Public] w1) <> (Ok s', w').
Proof.
  destruct confirmation_runs as (s & w1 & E & Hv & Hn). exists s, w1.
  destruct (email_challenge_single_use plain default_options default_authorizer (confirming $"123456") s [create_request Public] mailed w1 wf_mailed E)
    as [Hc Ho].
  split; [exact wf_mailed|]. split; [exact E|]. split; [exact Hv|]. split; [exact Hn|]. split; [exact Hc|].
  intros s' w'. exact (Ho (confirming $"123456") s' w' eq_refl).
Defined.

(** Three tries of a link that allows two downloads. *)
Lemma granted_downloads_bounded_witness :
  exists l, wf (tables shared) /\ l ∈ links (tables shared) /\ Link.id l = link_id /\ Link.max_downloads l = Some 2 /\ Link.download_count l = 0 /\
  granted plain default_options default_authorizer link_id [RConsume guest; RConsume guest; RConsume guest] shared = 2 /\
  granted plain default_options default_authorizer link_id [RConsume guest; RConsume guest; RConsume guest] shared <= Z.max 0 (2 - 0).
Proof.
  assert (Hl : exists l, l ∈ links (tables shared) /\ Link.id l = link_id /\ Link.max_downloads l = Some 2 /\ Link.download_count l = 0).
  { eexists. split; [vm_compute; left|]. vm_compute. split_and!; reflexivity. }
  destruct Hl as (l & Hl & Hi & Hm & Hc). exists l.
  split; [exact wf_shared|]. split; [exact Hl|]. split; [exact Hi|]. split; [exact Hm|]. split; [exact Hc|]. split; [vm_compute; reflexivity|].
  pose proof (granted_downloads_bounded plain default_options default_authorizer link_id 2 l [RConsume guest; RConsume guest; RConsume guest] shared
    wf_shared Hl Hi Hm eq_refl) as Hb. rewrite Hc in Hb. exact Hb.
Defined.

Lemma authorize_composes_witness :
  exists d e, let w := resolving.2 in
  authorize guest Download $"/docs/a.txt" None None w = (Ok d, (authorize guest Download $"/docs/a.txt" None None w).2) /\ d_allowed d = true /\
  tables (authorize guest Download $"/docs/a.txt" None None w).2 = with_events (events (tables w) ++ [e]) (tables w) /\ Audit.status e = Success.
Proof.
  assert (E : authorize guest Download $"/docs/a.txt" None None resolving.2
    = (Ok (answer (authorize guest Download $"/docs/a.txt" None None resolving.2) (mkScopeDecision false [] [])),
       (authorize guest Download $"/docs/a.txt" None None resolving.2).2)) by (vm_compute; reflexivity).
  assert (Ea : d_allowed (answer (authorize guest Download $"/docs/a.txt" None None resolving.2) (mkScopeDecision false [] [])) = true)
    by (vm_compute; reflexivity).
  destruct (authorize_composes guest Download $"/docs/a.txt" None None resolving.2 _ _ E) as (_ & _ & e & Et & _ & _ & _ & Es).
  rewrite Ea in Es. eexists _, e. split; [exact E|]. split; [exact Ea|]. split; [exact Et|exact Es].
Defined.
