(* ===== verification/TargetResolver.v ===== *)
(** * Link sharing: the entry behind a shared path

    [share/TargetResolver.cpp]: a request of a share principal names a path, of its vault or
    relative to the shared root; the resolver finds the entry and lets it through only inside
    the root, for a granted operation, when the entry the database returns is the one asked for
    and the share policy of [SharePolicy] allows it.  A listing resolves the children it
    returned without asking the database again ([resolveListedChild]).  The database is a class
    of queries that may fail; entries are those of the entry cache. *)
From S2P Require Import Prelude Paths Perm FsPolicy ShareScope SharePolicy ShareStore ShareManager.
From S2P Require FsCache.
#[local] Open Scope Z_scope.
Notation Entry := FsCache.Entry.

(** ** Data *)
Inductive TargetPathMode := VaultRelative | ShareRelative.
#[export] Instance TargetPathMode_eq : EqDecision TargetPathMode. Proof. solve_decision. Defined.

Record TargetResolveRequest := mkResolveRequest {
  rq_path : str; rq_operation : Operation; rq_path_mode : TargetPathMode;
  rq_expected_target_type : option TargetType; rq_vault_id : option Z }.

Record ResolvedTarget := mkResolvedTarget {
  t_vault_id : Z; t_root_entry_id : Z; t_root_path : str; t_requested_path : str; t_vault_path : str; t_share_path : str;
  t_operation : Operation; t_target_type : TargetType; t_root_entry : option Entry; t_entry : option Entry }.

(** The virtual interface of the lookups; [W] is the state of the database. *)
Class TargetEntryProvider (W : Type) := {
  getEntryById : Z -> W -> result Error (option Entry);
  getEntryByVaultPath : Z -> str -> W -> result Error (option Entry);
  provider_listChildren : Z -> W -> result Error (list (option Entry)) }.

(** The queries [QueryTargetEntryProvider] is made of. *)
Class EntryQueries (W : Type) := {
  q_getFSEntryById : Z -> W -> result Error (option Entry);
  q_getFileByPath : Z -> str -> W -> result Error (option Entry);
  q_directoryExists : Z -> str -> W -> result Error bool;
  q_getDirectoryByPath : Z -> str -> W -> result Error (option Entry);
  q_listDir : Z -> bool -> W -> result Error (list (option Entry)) }.

Definition query_getEntryByVaultPath {W} `{EntryQueries W} (vaultId : Z) (vaultPath : str) (w : W) : result Error (option Entry) :=
  let? file := q_getFileByPath vaultId vaultPath w in
  match file with
  | Some f => Ok (Some f)
  | None =>
      let? there := q_directoryExists vaultId vaultPath w in
      if negb there then Ok None else q_getDirectoryByPath vaultId vaultPath w
  end.
Definition QueryTargetEntryProvider {W} `{EntryQueries W} : TargetEntryProvider W := {|
  getEntryById := q_getFSEntryById;
  getEntryByVaultPath := query_getEntryByVaultPath;
  provider_listChildren := fun parentEntryId => q_listDir parentEntryId false |}.

(** ** Paths *)
(** The loop over the fields between slashes. *)
Fixpoint splitFields (fs components : list str) : result Error (list str) :=
  match fs with
  | [] => Ok components
  | c :: rest =>
      if is_empty c || (c == $".") then splitFields rest components
      else if c == dotdot then Err (EDenied $"Share filesystem path escapes share root")
      else splitFields rest (components ++ [c])
  end.
Definition splitStrict (path : str) : result Error (list str) :=
  check negb (is_empty path) else EArgument $"Share filesystem path is required" in
  check negb (bool_decide (nul ∈ path)) else EArgument $"Share filesystem path contains invalid byte" in
  splitFields (fields slash path []) [].

Definition assembleAbsolutePath (components : list str) : str :=
  if is_empty components then $"/" else concat (map (fun c => slash :: c) components).

Definition normalizeRequestedPath (path : str) : result Error str :=
  let? components := splitStrict path in Ok (assembleAbsolutePath components).

Definition normalizeVault (path : str) : result Error str := map_err EShare (normalizeVaultPath path).
Definition containsPath (root candidate : str) : result Error bool := map_err EShare (contains root candidate).

Definition joinRootAndSharePath (rootPath sharePath : str) : result Error str :=
  let? root := normalizeVault rootPath in
  let? share := normalizeRequestedPath sharePath in
  Ok (if share == $"/" then root else if root == $"/" then share else root ++ share).

(** [static_cast<int32_t>] of a [uint32_t]. *)
Definition i32 (z : Z) : Z := (z + 2 ^ 31) mod 2 ^ 32 - 2 ^ 31.

Definition entryHasVault (e : Entry) (vaultId : Z) : bool :=
  match FsCache.e_vault_id e with Some v => v =? i32 vaultId | None => false end.
Definition entryPath (e : Entry) : result Error str := normalizeVault (FsCache.e_path e).
Definition targetTypeOf (e : Entry) : TargetType := if FsCache.e_isDirectory e then Directory else File.

Definition requireEntryType (e : Entry) (expected : TargetType) (reason : str) : result Error unit :=
  check targetTypeOf e == expected else EInvalid reason in Ok tt.

Definition requireValidPrincipal (p : Principal) : result Error unit :=
  check negb (is_empty (share_id p) || is_empty (share_session_id p)) else ERuntime $"Share principal is not resolved" in
  check negb (p_vault_id p =? 0) else ERuntime $"Share principal has no vault" in
  check negb (p_root_entry_id p =? 0) else ERuntime $"Share principal has no root entry" in
  Ok tt.

Definition toVaultPath (p : Principal) (requestedPath : str) (mode : TargetPathMode) : result Error str :=
  let? _ := requireValidPrincipal p in
  if mode == ShareRelative then joinRootAndSharePath (p_root_path p) requestedPath
  else normalizeRequestedPath requestedPath.

Definition shareRelativePath (p : Principal) (vaultPath : str) : result Error str :=
  let? root := normalizeVault (p_root_path p) in
  let? candidate := normalizeRequestedPath vaultPath in
  let? inside := containsPath root candidate in
  check inside else EDenied $"Share filesystem target escapes share root" in
  Ok (if candidate == root then $"/" else if root == $"/" then candidate else drop (length root) candidate).

(** ** Resolution *)
(** [rbac::fs::policy::Share::evaluate] of a resolved target. *)
Definition evaluate_target (p : Principal) (t : ResolvedTarget) : result PolicyError FsPolicy.Decision :=
  SharePolicy.evaluate p (mkShareRequest (t_vault_id t) (t_vault_path t) (t_operation t) (t_target_type t)
                            (bool_decide (is_Some (t_entry t)))).

Definition authorizeScope (p : Principal) (vaultId : Z) (vaultPath : str) (operation : Operation) (expected : option TargetType) :
  result Error ScopeDecision :=
  let? d := map_err EShare (ShareScope.authorize p (mkScopeRequest vaultId vaultPath operation expected)) in
  check d_allowed d else EDenied ($"Share filesystem scope denied: " ++ d_reason d) in
  if target_type (grant_ p) == File then
    let? root := normalizeVault (p_root_path p) in
    check normalized_path d == root else EDenied $"Share file target does not allow descendants" in Ok d
  else Ok d.

Definition finishResolve (p : Principal) (vaultId : Z) (requestedPath normalizedPath : str) (operation : Operation)
  (expected : option TargetType) (rootEntry entry : option Entry) : result Error ResolvedTarget :=
  match entry with
  | None => Err (ENotFound $"Share filesystem target not found")
  | Some e =>
      check entryHasVault e vaultId else EDenied $"Share filesystem target vault mismatch" in
      let? path := entryPath e in
      check path == normalizedPath else EDenied $"Share filesystem target path mismatch" in
      let? inside := containsPath (p_root_path p) path in
      check inside else EDenied $"Share filesystem target escapes share root" in
      let targetType := targetTypeOf e in
      check match expected with Some t => targetType == t | None => true end else EInvalid $"Share filesystem target type mismatch" in
      check negb ((operation == OpList) && (targetType !== Directory)) else EInvalid $"Share filesystem list target is not a directory" in
      let? root := normalizeVault (p_root_path p) in
      let? sharePath := shareRelativePath p normalizedPath in
      let resolved := mkResolvedTarget vaultId (p_root_entry_id p) root requestedPath normalizedPath sharePath operation targetType
                        rootEntry (Some e) in
      let? decision := map_err EPolicy (evaluate_target p resolved) in
      check FsPolicy.allowed decision else EDenied ($"Share filesystem RBAC denied: " ++ fs_reasonToString (FsPolicy.reason decision)) in
      Ok resolved
  end.

(** [policy::requireEnabled] under the configuration in force. *)
Definition requireSharing (sharing : SharingConfig) (mode : AccessMode) : result Error unit :=
  match refusal sharing (Some mode) with Some why => Err (EDenied why) | None => Ok tt end.

Section Resolver.
Context {W : Type} `{TargetEntryProvider W} (sharing : SharingConfig).

Definition resolve (p : Principal) (r : TargetResolveRequest) (w : W) : result Error ResolvedTarget :=
  let? _ := requireSharing sharing (access_mode p) in
  let? _ := requireValidPrincipal p in
  let vaultId := default (p_vault_id p) (rq_vault_id r) in
  let? vaultPath := toVaultPath p (rq_path r) (rq_path_mode r) in
  let? scope := authorizeScope p vaultId vaultPath (rq_operation r) (rq_expected_target_type r) in
  let? rootEntry := getEntryById (p_root_entry_id p) w in
  match rootEntry with
  | None => Err (ENotFound $"Share root entry not found")
  | Some root =>
      check entryHasVault root (p_vault_id p) else EConflict $"Share root entry vault mismatch" in
      let? path := entryPath root in
      let? rootPath := normalizeVault (p_root_path p) in
      check path == rootPath else EConflict $"Share root entry has moved" in
      let? _ := requireEntryType root (target_type (grant_ p)) $"Share root entry type mismatch" in
      let? entry := getEntryByVaultPath vaultId (normalized_path scope) w in
      let? requested := normalizeRequestedPath (rq_path r) in
      finishResolve p vaultId requested (normalized_path scope) (rq_operation r) (rq_expected_target_type r) (Some root) entry
  end.

Definition resolveListedChild (p : Principal) (parent : ResolvedTarget) (child : option Entry) (operation : Operation) :
  result Error ResolvedTarget :=
  let? _ := requireSharing sharing (access_mode p) in
  let? _ := requireValidPrincipal p in
  match t_entry parent, t_root_entry parent with
  | Some pe, Some _ =>
      check t_target_type parent == Directory else EInvalid $"Share filesystem list target is not a directory" in
      match child with
      | None => Err (ERuntime $"Share filesystem list contains missing entry")
      | Some c =>
          check FsCache.e_parent_id c == Some (i32 (FsCache.e_id pe))
            else ERuntime $"Share filesystem entry is not a child of the listed directory" in
          let? vaultPath := entryPath c in
          let expected := targetTypeOf c in
          let? scope := authorizeScope p (t_vault_id parent) vaultPath operation (Some expected) in
          let? relative := shareRelativePath p vaultPath in
          let? requested := normalizeRequestedPath relative in
          finishResolve p (t_vault_id parent) requested (normalized_path scope) operation (Some expected) (t_root_entry parent) child
      end
  | _, _ => Err (EInvalid $"Share filesystem list target is not a directory")
  end.

Definition not_share {A} : result Error A := Err (ERuntime $"Share filesystem actor is required").
Definition resolve_actor (a : Actor) (r : TargetResolveRequest) (w : W) : result Error ResolvedTarget :=
  match a with ByShare (Some p) => resolve p r w | _ => not_share end.

Fixpoint checkChildren (p : Principal) (vaultId : Z) (entries : list (option Entry)) : result Error unit :=
  match entries with
  | [] => Ok tt
  | None :: _ => Err (ERuntime $"Share filesystem list contains missing entry")
  | Some e :: rest =>
      check entryHasVault e vaultId else ERuntime $"Share filesystem list contains cross-vault entry" in
      let? path := entryPath e in
      let? inside := containsPath (p_root_path p) path in
      check inside else ERuntime $"Share filesystem list contains entry outside share root" in
      checkChildren p vaultId rest
  end.
Definition listChildren (p : Principal) (target : ResolvedTarget) (w : W) : result Error (list (option Entry)) :=
  match t_entry target with
  | None => Err (ERuntime $"Share filesystem list target is missing")
  | Some e =>
      check t_target_type target == Directory else EInvalid $"Share filesystem list target is not a directory" in
      let? entries := provider_listChildren (FsCache.e_id e) w in
      let? _ := checkChildren p (t_vault_id target) entries in
      Ok entries
  end.
Definition listChildren_actor (a : Actor) (target : ResolvedTarget) (w : W) : result Error (list (option Entry)) :=
  match a with ByShare (Some p) => listChildren p target w | _ => not_share end.
End Resolver.

(** ** What the path functions accept *)
Definition requestable (path : str) : Prop := path <> [] /\ nul ∉ path /\ dotdot ∉ file_names path.

Lemma splitFields_ok fs acc l :
  splitFields fs acc = Ok l <->
  dotdot ∉ fs /\ l = acc ++ base.filter (fun c : str => c <> [] /\ c <> $".") fs.
Proof.
  revert acc l. induction fs as [|c fs IH]; intros acc l; simpl.
  { rewrite app_nil_r. split; [intros [= ->]; split; [set_solver|done]|by intros [_ ->]]. }
  destruct c as [|x c]; cbn [is_empty orb].
  { rewrite filter_cons_False by naive_solver. rewrite IH.
    split; intros [H ->]; split; try done; [|set_solver]. intros [Hd|Hd]%elem_of_cons; [done|naive_solver]. }
  destruct (x :: c == $".") eqn:E; bsimpl.
  { rewrite E. rewrite filter_cons_False by naive_solver. rewrite IH.
    split; intros [H ->]; split; try done; [|set_solver]. intros [Hd|Hd]%elem_of_cons; [done|naive_solver]. }
  rewrite filter_cons_True by done. destruct (x :: c == dotdot) eqn:E2; bsimpl.
  { rewrite E2. split; [done|]. intros [H _]. set_solver. }
  rewrite IH, <- app_assoc. split; intros [H ->]; split; try done; set_solver.
Qed.

Lemma foldl_scope_plain l st : dotdot ∉ l -> foldl scope_step st l = rev (base.filter (fun c : str => c <> $".") l) ++ st.
Proof.
  revert st. induction l as [|c l IH]; intros st Hd; simpl; [done|]. rewrite IH by set_solver.
  unfold scope_step. destruct (c == $".") eqn:E; bsimpl.
  - rewrite filter_cons_False by naive_solver. done.
  - rewrite filter_cons_True by done. simpl.
    replace (c == dotdot) with false by (symmetry; apply eqb_neq; set_solver). by rewrite <- app_assoc.
Qed.

Lemma splitComponents_plain path : dotdot ∉ file_names path ->
  splitComponents path = base.filter (fun c : str => c <> [] /\ c <> $".") (fields slash path []).
Proof.
  intros H. unfold splitComponents. rewrite foldl_scope_plain, app_nil_r, rev_involutive by done.
  unfold file_names. clear H. induction (fields slash path []) as [|c l IH]; [done|].
  destruct c as [|x c].
  - rewrite !filter_cons_False by naive_solver. done.
  - rewrite (filter_cons_True (fun s : str => is_empty s = false)) by done. rewrite !filter_cons, IH. repeat case_decide; naive_solver.
Qed.

Lemma render_concat l : concat (map (fun c => slash :: c) l) = render l.
Proof. induction l; simpl; congruence. Qed.

Lemma normalizeRequestedPath_ok path q :
  normalizeRequestedPath path = Ok q <-> requestable path /\ q = canon_path (splitComponents path).
Proof.
  unfold normalizeRequestedPath, splitStrict, requestable. rewrite rbind_Ok.
  assert (Hf : dotdot ∉ fields slash path [] <-> dotdot ∉ file_names path).
  { unfold file_names. rewrite list_elem_of_filter. split; [naive_solver|]. intros H Hin. by apply H. }
  assert (Ha : forall l, assembleAbsolutePath l = canon_path l).
  { intros l. unfold assembleAbsolutePath, canon_path. by rewrite render_concat. }
  setoid_rewrite Ha. destruct path as [|x path]; [naive_solver|]. simpl is_empty. cbn [negb].
  case_bool_decide; cbn [negb]; [naive_solver|]. split.
  - intros (l & Hl & [= <-]). apply splitFields_ok in Hl as [Hd ->]. split_and!; [done|done|tauto|].
    rewrite splitComponents_plain by tauto. done.
  - intros [(_ & _ & Hd) ->]. exists (splitComponents (x :: path)). split; [|done].
    apply splitFields_ok. split; [tauto|]. by rewrite splitComponents_plain.
Qed.

Lemma requestable_escape_free path : requestable path -> escape_free (splitComponents path).
Proof.
  intros (_ & _ & Hd). unfold escape_free. rewrite splitComponents_plain by done.
  intros [_ H]%list_elem_of_filter. apply Hd. unfold file_names. apply list_elem_of_filter. done.
Qed.

Lemma requestable_plain path : requestable path -> Forall plain (splitComponents path).
Proof. intros H. apply escape_free_plain; [apply splitComponents_canonical|by apply requestable_escape_free]. Qed.

(** A NUL byte of a rendered path is in a component. *)
Lemma canon_path_nul_free l : nul ∉ canon_path l <-> forall c, c ∈ l -> nul ∉ c.
Proof.
  assert (Hr : nul ∉ render l <-> forall c, c ∈ l -> nul ∉ c).
  { induction l as [|c l IH]; simpl; [set_solver|]. rewrite elem_of_cons, elem_of_app.
    assert (nul <> slash) by done. set_solver. }
  unfold canon_path. destruct l; [|exact Hr]. simpl. split; [set_solver|]. intros _ H.
  apply list_elem_of_In in H. vm_compute in H. intuition discriminate.
Qed.

Lemma canon_requestable l : Forall plain l -> (forall c, c ∈ l -> nul ∉ c) -> requestable (canon_path l).
Proof.
  intros Hp Hn. split_and!.
  - by destruct l.
  - by apply canon_path_nul_free.
  - assert (file_names (canon_path l) = l) as ->.
    { destruct l as [|c l]; [reflexivity|]. apply file_names_render. rewrite Forall_forall in Hp.
      intros x Hx. by destruct (Hp x Hx) as (? & _ & _ & ?). }
    rewrite Forall_forall in Hp. intros Hd. destruct (Hp _ Hd) as (_ & _ & H & _). by apply H.
Qed.

Lemma components_nul_free path : nul ∉ path -> forall c, c ∈ splitComponents path -> nul ∉ c.
Proof. intros H. apply canon_path_nul_free. by apply canon_path_nul. Qed.

Lemma plain_canonical l : Forall plain l -> canonical l.
Proof. intros H. by exists 0%nat, l. Qed.

Lemma canon_root l : canonical l -> (canon_path l == $"/") = is_empty l.
Proof.
  intros Hl. destruct l as [|c l]; [reflexivity|]. apply eqb_neq. intros H.
  pose proof (f_equal splitComponents H) as Hs. rewrite splitComponents_canon in Hs by done. by vm_compute in Hs.
Qed.

Lemma normalizeVault_ok path q : normalizeVault path = Ok q <-> nul ∉ path /\ q = canon_path (splitComponents path).
Proof.
  unfold normalizeVault. rewrite <- normalizeVaultPath_components. destruct (normalizeVaultPath path); simpl; naive_solver.
Qed.

Lemma containsPath_ok root candidate b : containsPath root candidate = Ok b <->
  contains root candidate = Ok b.
Proof. unfold containsPath. destruct (contains root candidate); simpl; naive_solver. Qed.

Lemma containsPath_true root candidate :
  containsPath root candidate = Ok true <->
  nul ∉ root /\ nul ∉ candidate /\ escape_free (splitComponents root) /\ escape_free (splitComponents candidate) /\
  splitComponents root `prefix_of` splitComponents candidate.
Proof.
  rewrite containsPath_ok. split.
  - intros H. pose proof H as H'. unfold contains in H'.
    apply rbind_Ok in H' as (? & [? _]%normalizeVaultPath_components & H').
    apply rbind_Ok in H' as (? & [? _]%normalizeVaultPath_components & _).
    destruct (contains_is_component_prefix_aux root candidate) as (b & Hb & Hspec); [done|done|].
    rewrite H in Hb. simplify_eq. naive_solver.
  - intros (Hr & Hc & H). destruct (contains_is_component_prefix_aux root candidate) as (b & Hb & Hspec); [done|done|].
    rewrite Hb. f_equal. by apply Hspec.
Qed.

Lemma joinRootAndSharePath_ok root share v :
  joinRootAndSharePath root share = Ok v <->
  nul ∉ root /\ requestable share /\ v = canon_path (splitComponents root ++ splitComponents share).
Proof.
  unfold joinRootAndSharePath. rewrite rbind_Ok. setoid_rewrite rbind_Ok.
  setoid_rewrite normalizeVault_ok. setoid_rewrite normalizeRequestedPath_ok.
  assert (Hv : requestable share ->
    (let root' := canon_path (splitComponents root) in let share' := canon_path (splitComponents share) in
     if share' == $"/" then root' else if root' == $"/" then share' else root' ++ share')
    = canon_path (splitComponents root ++ splitComponents share)).
  { intros Hs. cbv zeta. rewrite !canon_root by apply splitComponents_canonical.
    destruct (splitComponents share) as [|c l]; simpl is_empty; cbv iota; [by rewrite app_nil_r|].
    destruct (splitComponents root) as [|d r]; simpl is_empty; cbv iota; [done|].
    unfold canon_path. simpl is_empty. cbv iota. by rewrite render_app. }
  split.
  - intros (? & [? ->] & ? & [? ->] & [= <-]). split_and!; [done|done|by apply Hv].
  - intros (? & ? & ->). do 2 (eexists; split; [done|]). f_equal. by apply Hv.
Qed.

Lemma shareRelativePath_ok p v r :
  shareRelativePath p v = Ok r <->
  nul ∉ p_root_path p /\ requestable v /\ escape_free (splitComponents (p_root_path p)) /\
  exists k, splitComponents v = splitComponents (p_root_path p) ++ k /\ r = canon_path k.
Proof.
  unfold shareRelativePath.
  set (root := splitComponents (p_root_path p)). assert (Hc : canonical root) by apply splitComponents_canonical.
  assert (Hsub : forall k, requestable v -> splitComponents v = root ++ k ->
    (let r := canon_path root in let c := canon_path (splitComponents v) in
     if c == r then $"/" else if r == $"/" then c else drop (length r) c) = canon_path k).
  { intros k Hv Hk. cbv zeta. rewrite Hk. assert (Ck : canonical (root ++ k)) by (rewrite <- Hk; apply splitComponents_canonical).
    rewrite canon_root by done. destruct (canon_path (root ++ k) == canon_path root) eqn:E.
    - apply eqb_eq, (f_equal splitComponents) in E. rewrite !splitComponents_canon in E by done.
      rewrite <- (app_nil_r root) in E at 2. apply app_inv_head in E as ->. done.
    - destruct root as [|x root']; simpl is_empty; cbv iota; [done|].
      destruct k as [|y k]; [by rewrite app_nil_r, eqb_refl in E|].
      change (canon_path ((x :: root') ++ y :: k)) with (render ((x :: root') ++ y :: k)).
      rewrite render_app. change (canon_path (x :: root')) with (render (x :: root')). by rewrite drop_app_length. }
  split.
  - intros (? & [Hn ->]%normalizeVault_ok & Hr)%rbind_Ok. apply rbind_Ok in Hr as (? & [Hv ->]%normalizeRequestedPath_ok & Hr).
    apply rbind_Ok in Hr as (b & Hb & Hr). destruct b; [|done]. injection Hr as <-.
    apply containsPath_true in Hb as (_ & _ & He & _ & Hp). rewrite !splitComponents_canon in He, Hp by apply splitComponents_canonical.
    destruct Hp as [k Hk]. rewrite splitComponents_canon in Hk by apply splitComponents_canonical.
    split_and!; [done|done|done|]. exists k. split; [exact Hk|]. by apply Hsub.
  - intros (Hn & Hv & He & k & Hk & ->). apply rbind_Ok. eexists. split; [by apply normalizeVault_ok|].
    apply rbind_Ok. eexists. split; [by apply normalizeRequestedPath_ok|]. apply rbind_Ok. exists true. split.
    + apply containsPath_true. rewrite !splitComponents_canon by apply splitComponents_canonical.
      pose proof (requestable_escape_free _ Hv). destruct Hv as (_ & Hvn & _).
      split_and!; [by apply canon_path_nul|by apply canon_path_nul|done|done|]. exists k. done.
    + f_equal. by apply Hsub.
Qed.

(** ** What a resolution checked *)
Lemma requireSharing_ok sharing m u : requireSharing sharing m = Ok u <-> refusal sharing (Some m) = None.
Proof. unfold requireSharing. destruct u, (refusal _ _); naive_solver. Qed.

(** The targets a principal may reach: inside the root and granted. *)
Record in_scope (p : Principal) (vaultId : Z) (path : str) (op : Operation) : Prop := {
  scope_vault : hasVault p vaultId = true;
  scope_granted : principal_allows p op = true;
  scope_root : nul ∉ p_root_path p /\ escape_free (splitComponents (p_root_path p));
  scope_path : nul ∉ path /\ escape_free (splitComponents path);
  scope_inside : splitComponents (p_root_path p) `prefix_of` splitComponents path;
  scope_file : target_type (grant_ p) = File -> splitComponents path = splitComponents (p_root_path p) }.

Lemma authorizeScope_ok p v path op expected d :
  authorizeScope p v path op expected = Ok d ->
  in_scope p v path op /\ normalized_path d = canon_path (splitComponents path).
Proof.
  unfold authorizeScope. intros (d' & Hd & H)%rbind_Ok.
  destruct (ShareScope.authorize p _) as [d0|] eqn:Ha; simplify_eq/=.
  destruct (d_allowed d') eqn:Hall; [|done].
  assert (Hd : d = d' /\ (target_type (grant_ p) = File -> splitComponents path = splitComponents (p_root_path p))
               /\ nul ∉ p_root_path p /\ nul ∉ path /\ normalized_path d' = canon_path (splitComponents path)).
  { assert (Hn : nul ∉ p_root_path p /\ nul ∉ path /\ normalized_path d' = canon_path (splitComponents path)).
    { unfold ShareScope.authorize in Ha. apply rbind_Ok in Ha as (n & [Hn ->]%normalizeVaultPath_components & Ha). simpl in Hn.
      case_if_in Ha; [by simplify_eq|]. case_if_in Ha; [by simplify_eq|]. apply rbind_Ok in Ha as (b & Hb & Ha).
      unfold contains in Hb. apply rbind_Ok in Hb as (? & [Hr _]%normalizeVaultPath_components & _).
      repeat case_if_in Ha; by simplify_eq. }
    destruct Hn as (Hr & Hp & Hn). destruct (target_type (grant_ p) == File) eqn:Ef.
    - apply rbind_Ok in H as (root & [_ ->]%normalizeVault_ok & H). case_if_in H; [|done]. injection H as <-. bsimpl.
      rewrite Hn in E. apply (f_equal splitComponents) in E.
      rewrite !splitComponents_canon in E by apply splitComponents_canonical. done.
    - simplify_eq. bsimpl. naive_solver. }
  destruct Hd as (-> & Hf & Hr & Hp & Hnorm). split; [|done].
  unfold ShareScope.authorize in Ha. apply rbind_Ok in Ha as (n & [_ ->]%normalizeVaultPath_components & Ha). simpl in Ha.
  destruct (hasVault p v) eqn:Hv; [|by simplify_eq/=]. simpl in Ha. case_if_in Ha; [by simplify_eq|].
  apply rbind_Ok in Ha as (b & Hb & Ha). destruct b; [|by simplify_eq/=]. simpl in Ha.
  destruct (principal_allows p op) eqn:Ho; [|by simplify_eq/=].
  apply containsPath_ok, containsPath_true in Hb as (_ & _ & He & Hep & Hpre).
  rewrite splitComponents_canon in Hep, Hpre by apply splitComponents_canonical. by constructor.
Qed.

Lemma finishResolve_ok p v requested normalized op expected root entry t :
  finishResolve p v requested normalized op expected root entry = Ok t ->
  exists e, entry = Some e /\ entryHasVault e v = true /\ entryPath e = Ok normalized /\
    (forall k, expected = Some k -> targetTypeOf e = k) /\ (op = OpList -> targetTypeOf e = Directory) /\
    (exists d, evaluate_target p t = Ok d /\ FsPolicy.allowed d = true) /\
    exists rootPath share, normalizeVault (p_root_path p) = Ok rootPath /\ shareRelativePath p normalized = Ok share /\
    t = mkResolvedTarget v (p_root_entry_id p) rootPath requested normalized share op (targetTypeOf e) root (Some e).
Proof.
  unfold finishResolve. destruct entry as [e|]; [|done]. destruct (entryHasVault e v) eqn:Hv; [|done].
  intros (path & Hp & H)%rbind_Ok. destruct (path == normalized) eqn:Hn; [|done]. bsimpl. subst path.
  apply rbind_Ok in H as (b & _ & H). destruct b; [|done].
  destruct (match expected with Some _ => _ | None => _ end) eqn:Hexp; [|done].
  destruct (negb _) eqn:Hl in H; [|done]. apply rbind_Ok in H as (rp & Hr & H). apply rbind_Ok in H as (sp & Hs & H).
  apply rbind_Ok in H as (d & Hd & H). destruct (FsPolicy.allowed d) eqn:Ha; [|done]. injection H as <-.
  exists e. split_and!; try done.
  - intros k ->. by bsimpl.
  - intros ->. bsimpl. destruct Hl as [?|Hl]; [done|]. by bsimpl.
  - exists d. split; [|done]. destruct (evaluate_target _ _); by simplify_eq/=.
  - eauto.
Qed.

Lemma requireValidPrincipal_ok p : requireValidPrincipal p = Ok tt <-> isValidSharePrincipal p = true.
Proof.
  unfold requireValidPrincipal, isValidSharePrincipal.
  destruct (is_empty (share_id p)), (is_empty (share_session_id p)), (p_vault_id p =? 0), (p_root_entry_id p =? 0); done.
Qed.

Lemma toVaultPath_ok p path mode v : toVaultPath p path mode = Ok v -> nul ∉ v /\ v = canon_path (splitComponents v) /\ requestable path.
Proof.
  unfold toVaultPath. intros (? & _ & H)%rbind_Ok. destruct (mode == ShareRelative).
  - apply joinRootAndSharePath_ok in H as (Hr & Hs & ->).
    assert (Hc : canonical (splitComponents (p_root_path p) ++ splitComponents path)).
    { destruct (splitComponents_canonical (p_root_path p)) as (n & ps & Heq & Hp). exists n, (ps ++ splitComponents path).
      rewrite Heq, app_assoc. split; [done|]. apply Forall_app. split; [done|by apply requestable_plain]. }
    rewrite splitComponents_canon by done. split_and!; [|done|done]. apply canon_path_nul_free. intros c [Hin|Hin]%elem_of_app.
    + by eapply components_nul_free.
    + destruct Hs as (_ & Hn & _). by eapply components_nul_free.
  - apply normalizeRequestedPath_ok in H as [Hs ->]. rewrite splitComponents_canon by apply splitComponents_canonical.
    split_and!; [|done|done]. apply canon_path_nul. by destruct Hs as (_ & ? & _).
Qed.

(** The two directions of the translation of paths. *)
Lemma toVault_of_relative p v r :
  isValidSharePrincipal p = true -> shareRelativePath p v = Ok r -> toVaultPath p r ShareRelative = normalizeRequestedPath v.
Proof.
  intros Hp%requireValidPrincipal_ok. unfold toVaultPath. rewrite Hp. cbn [rbind].
  intros (Hn & Hv & He & k & Hk & ->)%shareRelativePath_ok. etransitivity; [|symmetry; by apply normalizeRequestedPath_ok].
  assert (Hpk : Forall plain k) by (pose proof (requestable_plain _ Hv) as Hf; rewrite Hk in Hf; by apply Forall_app in Hf as [_ ?]).
  apply joinRootAndSharePath_ok. split_and!; [done| |].
  - apply canon_requestable; [done|]. intros c Hc. destruct Hv as (_ & Hvn & _).
    eapply (components_nul_free v); [done|]. rewrite Hk. set_solver.
  - rewrite (splitComponents_canon k) by by apply plain_canonical. by rewrite Hk.
Qed.

Lemma relative_of_toVault p s v :
  escape_free (splitComponents (p_root_path p)) -> toVaultPath p s ShareRelative = Ok v ->
  shareRelativePath p v = normalizeRequestedPath s.
Proof.
  unfold toVaultPath. intros He (? & _ & (Hn & Hs & ->)%joinRootAndSharePath_ok)%rbind_Ok.
  etransitivity; [|symmetry; by apply normalizeRequestedPath_ok].
  assert (Hf : Forall plain (splitComponents (p_root_path p) ++ splitComponents s)).
  { apply Forall_app. split; [apply escape_free_plain; [apply splitComponents_canonical|done]|by apply requestable_plain]. }
  apply shareRelativePath_ok. split_and!; [done| |done|].
  - apply canon_requestable; [done|]. intros c [Hc|Hc]%elem_of_app; [by eapply components_nul_free|].
    destruct Hs as (_ & Hsn & _). by eapply components_nul_free.
  - exists (splitComponents s). split; [|done]. by apply splitComponents_canon, plain_canonical.
Qed.

Section ResolverFacts.
Context {W : Type} `{TargetEntryProvider W} (sharing : SharingConfig).

(** The checks of the shared root. *)
Definition root_verified (p : Principal) (w : W) (root : Entry) : Prop :=
  getEntryById (p_root_entry_id p) w = Ok (Some root) /\ entryHasVault root (p_vault_id p) = true /\
  entryPath root = normalizeVault (p_root_path p) /\ targetTypeOf root = target_type (grant_ p).

Lemma target_resolve_ok p r w t : resolve sharing p r w = Ok t ->
  refusal sharing (Some (access_mode p)) = None /\ isValidSharePrincipal p = true /\
  t_vault_id t = default (p_vault_id p) (rq_vault_id r) /\
  (exists v, toVaultPath p (rq_path r) (rq_path_mode r) = Ok v /\ t_vault_path t = v) /\
  in_scope p (t_vault_id t) (t_vault_path t) (rq_operation r) /\
  (exists root, root_verified p w root /\ t_root_entry t = Some root) /\
  exists e, getEntryByVaultPath (t_vault_id t) (t_vault_path t) w = Ok (Some e) /\
    finishResolve p (t_vault_id t) (t_requested_path t) (t_vault_path t) (rq_operation r) (rq_expected_target_type r)
      (t_root_entry t) (Some e) = Ok t.
Proof.
  unfold resolve. intros (? & Hsh%requireSharing_ok & R)%rbind_Ok. apply rbind_Ok in R as ([] & Hp%requireValidPrincipal_ok & R).
  apply rbind_Ok in R as (v & Hv & R). apply rbind_Ok in R as (d & Hd & R).
  apply authorizeScope_ok in Hd as [Hin Hn]. apply rbind_Ok in R as (o & Hroot & R). destruct o as [root|]; [|done].
  destruct (entryHasVault root _) eqn:Hrv; [|done]. apply rbind_Ok in R as (rp & Hrp & R). apply rbind_Ok in R as (rp' & Hrp' & R).
  destruct (rp == rp') eqn:Erp; [|done]. apply (proj1 (eqb_eq _ _)) in Erp. subst rp'. apply rbind_Ok in R as (? & Hty & R).
  unfold requireEntryType in Hty. destruct (targetTypeOf root == _) eqn:Ety; [|done]. apply (proj1 (eqb_eq _ _)) in Ety.
  apply rbind_Ok in R as (entry & He & R). apply rbind_Ok in R as (req & Hreq & R).
  pose proof (toVaultPath_ok _ _ _ _ Hv) as (_ & Hvc & _). rewrite <- Hvc in Hn. rewrite Hn in *.
  pose proof (finishResolve_ok _ _ _ _ _ _ _ _ _ R) as (e & -> & Hev & Hep & _ & _ & _ & ? & ? & _ & _ & ->). simpl in *.
  split_and!; try done; [by exists v|exists root; split; [|done]|by exists e].
  split_and!; [done|done|congruence|done].
Qed.
End ResolverFacts.

(** ** Properties *)

(** C12. No resolution leaves the shared root: whatever the database answers, a target is resolved
    only for a share actor whose kind of link is enabled, inside the link's vault and root (component
    by component, without parent components, and at the root itself for a file link), for a granted
    operation, on the entry the database holds at that path, of that vault and path, with the shared
    root unmoved, and after the share policy allowed it. *)
Theorem resolve_confined {W : Type} `{TargetEntryProvider W} sharing actor r (w : W) t :
  resolve_actor sharing actor r w = Ok t ->
  exists p e root, actor = ByShare (Some p) /\ refusal sharing (Some (access_mode p)) = None /\
    in_scope p (t_vault_id t) (t_vault_path t) (rq_operation r) /\ t_operation t = rq_operation r /\
    getEntryByVaultPath (t_vault_id t) (t_vault_path t) w = Ok (Some e) /\ t_entry t = Some e /\
    entryHasVault e (t_vault_id t) = true /\ entryPath e = Ok (t_vault_path t) /\ t_target_type t = targetTypeOf e /\
    (rq_operation r = OpList -> targetTypeOf e = Directory) /\ root_verified p w root /\ t_root_entry t = Some root /\
    exists d, evaluate_target p t = Ok d /\ FsPolicy.allowed d = true.
Proof.
  destruct actor as [|[p|]]; [done| |done]. simpl.
  intros (Hs & _ & _ & _ & Hin & (root & Hroot & Ht) & e & He & Hf)%target_resolve_ok.
  apply finishResolve_ok in Hf as (e' & [= <-] & Hev & Hep & _ & Hl & Hd & ? & ? & _ & _ & Heq).
  exists p, e, root. split_and!; try done; by rewrite Heq.
Qed.

(** C34. Share-relative paths and vault paths translate into each other: the vault path of the
    relative path of a target is the target's own path, normalised, and (for a root without parent
    components) the relative path of the vault path of a requested path is the requested path,
    normalised. *)
Theorem share_relative_roundtrip p :
  isValidSharePrincipal p = true ->
  (forall v r, shareRelativePath p v = Ok r -> toVaultPath p r ShareRelative = normalizeRequestedPath v) /\
  (forall s v, escape_free (splitComponents (p_root_path p)) -> toVaultPath p s ShareRelative = Ok v ->
     shareRelativePath p v = normalizeRequestedPath s).
Proof.
  intros Hp. split; intros; [by apply toVault_of_relative|by apply relative_of_toVault].
Qed.

(** C30. Listing is resolution: a child that the listing of a resolved directory returned, and that
    the database still holds at its path, resolves through the listing (which asks the database
    nothing) exactly as a request for its path would, errors included; a child outside the shared
    root does not resolve. *)
Theorem listed_child_agrees {W : Type} `{TargetEntryProvider W} sharing p r (w : W) parent pe c op :
  resolve sharing p r w = Ok parent -> t_entry parent = Some pe -> FsCache.e_isDirectory pe = true ->
  FsCache.e_parent_id c = Some (i32 (FsCache.e_id pe)) ->
  (forall path, entryPath c = Ok path -> getEntryByVaultPath (p_vault_id p) path w = Ok (Some c)) ->
  match (let? path := entryPath c in shareRelativePath p path) with
  | Ok relative =>
      resolveListedChild sharing p parent (Some c) op =
      resolve sharing p (mkResolveRequest relative op ShareRelative (Some (targetTypeOf c)) None) w
  | Err _ => is_ok (resolveListedChild sharing p parent (Some c) op) = false
  end.
Proof.
  intros R Hpe Hdir Hpar Hstored.
  apply target_resolve_ok in R as (Hsh%(requireSharing_ok _ _ tt) & Hp & _ & _ & Hin & (root & (Hr & Hrv & Hrp & Hrt) & Hroot) & e & _ & Hf).
  apply finishResolve_ok in Hf as (e' & [= <-] & _ & _ & _ & _ & _ & rp & ? & Hrp' & _ & Heq).
  assert (Hv : t_vault_id parent = p_vault_id p).
  { pose proof (scope_vault _ _ _ _ Hin) as Hv. unfold hasVault in Hv. lia. }
  assert (Hdt : t_target_type parent == Directory = true).
  { rewrite Heq in Hpe. simpl in Hpe. injection Hpe as <-. rewrite Heq. simpl. unfold targetTypeOf. by rewrite Hdir. }
  assert (Hlist : resolveListedChild sharing p parent (Some c) op =
    let? path := entryPath c in let? scope := authorizeScope p (t_vault_id parent) path op (Some (targetTypeOf c)) in
    let? relative := shareRelativePath p path in let? requested := normalizeRequestedPath relative in
    finishResolve p (t_vault_id parent) requested (normalized_path scope) op (Some (targetTypeOf c)) (t_root_entry parent) (Some c)).
  { unfold resolveListedChild. apply requireValidPrincipal_ok in Hp. by rewrite Hsh, Hp, Hpe, Hroot, Hdt, Hpar, eqb_refl. }
  rewrite Hlist. clear Hlist Heq. destruct (entryPath c) as [path|] eqn:Hc; [|done]. specialize (Hstored _ eq_refl). cbn [rbind].
  destruct (shareRelativePath p path) as [relative|] eqn:Hrel; cbn [rbind]; [|by destruct (authorizeScope _ _ _ _ _)].
  pose proof Hrel as (Hn & Hreq & _)%shareRelativePath_ok. pose proof (toVault_of_relative _ _ _ Hp Hrel) as Hto.
  apply normalizeVault_ok in Hc as [Hcn Hc].
  assert (Hcp : canon_path (splitComponents path) = path).
  { rewrite Hc. f_equal. apply splitComponents_canon, splitComponents_canonical. }
  rewrite (proj2 (normalizeRequestedPath_ok path path)) in Hto by done.
  unfold resolve. cbn [rq_path rq_path_mode rq_vault_id rq_operation rq_expected_target_type default].
  pose proof Hp as Hp'%requireValidPrincipal_ok. cbn [access_mode]. rewrite Hsh, Hp'. cbn [rbind]. rewrite Hto, Hv. cbn [rbind].
  destruct (authorizeScope p (p_vault_id p) path op (Some (targetTypeOf c))) as [d|] eqn:Hd; [|done]. cbn [rbind].
  apply authorizeScope_ok in Hd as [_ ->]. rewrite Hr. cbn [rbind]. rewrite Hrv, Hrp, Hrp'. cbn [rbind]. rewrite eqb_refl.
  unfold requireEntryType. rewrite Hrt, !eqb_refl. cbn [rbind].
  rewrite Hcp, Hstored, Hroot. cbn [rbind]. reflexivity.
Qed.

(** ** A shared folder *)
Module ResolverDemo.
Definition entry (id : Z) (parent : option Z) (path : str) (dir : bool) : Entry :=
  FsCache.mkEntry id $"" $"" 5 parent (Some 7) None path path path dir 0 0 0.
Definition tree : list Entry :=
  [entry 3 (Some 1) $"/docs" true; entry 4 (Some 3) $"/docs/a.txt" false; entry 5 (Some 3) $"/docs/sub" true;
   entry 6 (Some 1) $"/private" true].
#[export] Instance in_tree : TargetEntryProvider (list Entry) := {|
  getEntryById := fun id es => Ok (find (fun e => FsCache.e_id e =? id) es);
  getEntryByVaultPath := fun _ path es => Ok (find (fun e => FsCache.e_path e == path) es);
  provider_listChildren := fun id es => Ok (map Some (List.filter (fun e => FsCache.e_parent_id e == Some id) es)) |}.
Definition on : SharingConfig := mkSharing true true true.
Definition request (path : str) (op : Operation) (mode : TargetPathMode) : TargetResolveRequest :=
  mkResolveRequest path op mode None None.
Definition principal : Principal := ShareDemo.principal $"/docs".
Definition parent : result Error ResolvedTarget := resolve on principal (request $"/" OpList ShareRelative) tree.
End ResolverDemo.
#[local] Existing Instance ResolverDemo.in_tree.

Example resolver_examples :
  let at_path path op mode :=
    match resolve_actor ResolverDemo.on (ByShare (Some ResolverDemo.principal)) (ResolverDemo.request path op mode) ResolverDemo.tree with
    | Ok t => Ok (t_vault_path t, t_share_path t) | Err e => Err e end in
  at_path $"/a.txt" Download ShareRelative = Ok ($"/docs/a.txt", $"/a.txt") /\
  at_path $"docs//./a.txt" Download VaultRelative = Ok ($"/docs/a.txt", $"/a.txt") /\
  at_path $"/docs" Metadata VaultRelative = Ok ($"/docs", $"/") /\
  at_path $"/private" Metadata VaultRelative = Err (EDenied $"Share filesystem scope denied: outside_scope") /\
  at_path $"/../private" Metadata ShareRelative = Err (EDenied $"Share filesystem path escapes share root") /\
  at_path $"/new" Download ShareRelative = Err (ENotFound $"Share filesystem target not found") /\
  at_path $"/a.txt" OpList ShareRelative = Err (EInvalid $"Share filesystem list target is not a directory") /\
  at_path $"/a.txt" Upload ShareRelative = Err (EDenied $"Share filesystem scope denied: operation_not_granted").
Proof. vm_compute. split_and!; reflexivity. Qed.

Lemma resolve_confined_witness :
  exists t p, resolve_actor ResolverDemo.on (ByShare (Some ResolverDemo.principal))
      (ResolverDemo.request $"/a.txt" Download ShareRelative) ResolverDemo.tree = Ok t /\
    t_vault_path t = $"/docs/a.txt" /\ in_scope p 7 $"/docs/a.txt" Download.
Proof.
  destruct (resolve_actor ResolverDemo.on (ByShare (Some ResolverDemo.principal))
    (ResolverDemo.request $"/a.txt" Download ShareRelative) ResolverDemo.tree) as [t|e] eqn:R; [|vm_compute in R; discriminate R].
  assert (Ht : t_vault_id t = 7 /\ t_vault_path t = $"/docs/a.txt") by (vm_compute in R; injection R as <-; vm_compute; auto).
  destruct (resolve_confined ResolverDemo.on (ByShare (Some ResolverDemo.principal))
    (ResolverDemo.request $"/a.txt" Download ShareRelative) ResolverDemo.tree t R) as (p & e & root & _ & _ & Hin & _).
  exists t, p. destruct Ht as [Hv Hp]. rewrite Hv, Hp in Hin. split_and!; [reflexivity|exact Hp|exact Hin].
Defined.

Lemma share_relative_roundtrip_witness :
  isValidSharePrincipal ResolverDemo.principal = true /\
  toVaultPath ResolverDemo.principal $"/sub/x" ShareRelative = normalizeRequestedPath $"/docs/sub/x".
Proof.
  split; [vm_compute; reflexivity|].
  apply (share_relative_roundtrip ResolverDemo.principal); vm_compute; reflexivity.
Defined.

Lemma listed_child_agrees_witness :
  match ResolverDemo.parent with
  | Ok parent =>
      resolveListedChild ResolverDemo.on ResolverDemo.principal parent (Some (ResolverDemo.entry 4 (Some 3) $"/docs/a.txt" false)) Download =
      resolve ResolverDemo.on ResolverDemo.principal (mkResolveRequest $"/a.txt" Download ShareRelative (Some File) None) ResolverDemo.tree
  | Err _ => False
  end.
Proof.
  destruct ResolverDemo.parent as [parent|e] eqn:R; [|vm_compute in R; discriminate R].
  assert (Hp : t_entry parent = Some (ResolverDemo.entry 3 (Some 1) $"/docs" true)) by (vm_compute in R; injection R as <-; reflexivity).
  refine (listed_child_agrees ResolverDemo.on ResolverDemo.principal (ResolverDemo.request $"/" OpList ShareRelative) ResolverDemo.tree parent
    (ResolverDemo.entry 3 (Some 1) $"/docs" true) (ResolverDemo.entry 4 (Some 3) $"/docs/a.txt" false) Download R Hp _ _ _).
  - reflexivity.
  - reflexivity.
  - intros path Hpath. vm_compute in Hpath. injection Hpath as <-. vm_compute. reflexivity.
Defined.
