(* ===== verification/UploadModel.v ===== *)
(** * HTTP uploads: sessions, staging files and streams

    [protocols/http/upload/Coordinator.cpp] with the staging paths of
    [protocols/http/upload/staging].  A request creates an upload session for a list of files;
    each file's body is then streamed by its own request into a staging file, and a last
    request commits the complete files.  Sessions and streams are objects the code shares by
    pointer, so they live on a heap; staging files are directory entries of inodes, because a
    stream keeps writing to the inode it opened after its name is gone.  Each operation is one
    step; a body is a step per chunk. *)
From stdpp Require Import sorting.
From S2P Require Import Prelude Monad Paths Perm ShareTokens SharePolicy ShareScope ShareStore ShareManager TargetResolver.
#[local] Open Scope Z_scope.

(** ** Routes *)
Definition ampersand : Ascii.ascii := "&"%char.
Definition question : Ascii.ascii := "?"%char.
Definition isShareModeRequestTarget (target : str) : bool :=
  match split_first question target with
  | None => false
  | Some (_, query) => existsb (fun pair => (pair == $"share=1") || (pair == $"share=true")) (fields ampersand query [])
  end.

Definition safe_char (c : Ascii.ascii) : bool := is_alnum c || (c == "-"%char) || (c == "_"%char).
Definition safeIdComponent (value label : str) : result Error str :=
  check negb (is_empty value || (96 <? Z.of_nat (length value))) else EArgument ($"Invalid " ++ label) in
  check forallb safe_char value else EArgument ($"Invalid " ++ label) in
  Ok value.

Definition splitTargetPath (target : str) : list str :=
  let path := match split_first question target with Some (p, _) => p | None => target end in
  file_names path.

Record ParsedFileTarget := mkParsed { upload_id : str; file_id_ : str }.
Definition is_file_route (parts : list str) : option (str * str) :=
  match parts with [a; b; c; d] => if (a == $"upload") && (c == $"files") then Some (b, d) else None | _ => None end.
Definition isUploadFileRequest (put : bool) (target : str) : bool :=
  put && bool_decide (is_Some (is_file_route (splitTargetPath target))).
Definition parseUploadFileTarget (target : str) : result Error ParsedFileTarget :=
  match is_file_route (splitTargetPath target) with
  | None => Err (EArgument $"Invalid upload file route")
  | Some (u, f) =>
      let? u := safeIdComponent u $"upload id" in
      let? f := safeIdComponent f $"file id" in
      Ok (mkParsed u f)
  end.

(** ** Payloads

    A member of a JSON object: absent, null, of another type than the reader asks for, or the
    value the reader converts it to. *)
Inductive Field (A : Type) := Absent | Null | Wrong | Value (a : A).
Arguments Absent {A}. Arguments Null {A}. Arguments Wrong {A}. Arguments Value {A} a.

Definition type_error : Error := ERuntime $"type_error".
Definition out_of_range : Error := ERuntime $"out_of_range".
(** [j.at(name).get<T>()], [j.value(name, fallback)], and whether [j.contains(name)] holds a value. *)
Definition at_field {A} (m : Field A) : result Error A :=
  match m with Value a => Ok a | Absent => Err out_of_range | _ => Err type_error end.
Definition value_field {A} (m : Field A) (fallback : A) : result Error A :=
  match m with Absent => Ok fallback | Value a => Ok a | _ => Err type_error end.
Definition present {A} (m : Field A) : bool := match m with Absent | Null => false | _ => true end.
Definition contains_field {A} (m : Field A) : bool := match m with Absent => false | _ => true end.

Record Item := mkItem {
  i_file_id : Field str; i_vault_id : Field Z; i_path : Field str; i_filename : Field str;
  i_size_bytes : Field Z; i_size : Field Z; i_mime_type : Field str }.
(** The files array, when there is one; an element that is no object is [None]. *)
Record Payload := mkPayload { pl_files : option (list (option Item)); pl_vault_id : Field Z }.

(** The number is converted to a [uint64_t]. *)
Definition fileSizeFromJson (item : Item) : result Error Z :=
  let? n := (if contains_field (i_size_bytes item) then at_field (i_size_bytes item) else at_field (i_size item)) in
  Ok (n mod 2 ^ 64).
Definition mimeTypeFromJson (item : Item) : result Error (option str) :=
  if negb (present (i_mime_type item)) then Ok None else let? m := at_field (i_mime_type item) in Ok (Some m).

Definition backslash : Ascii.ascii := "092"%char.
Definition sanitizeFilename (filename : str) : result Error str :=
  check negb (is_empty filename) else EArgument $"Share upload filename is required" in
  check negb ((filename == $".") || (filename == $"..")) else EArgument $"Share upload filename is invalid" in
  check negb (bool_decide (slash ∈ filename) || bool_decide (backslash ∈ filename))
    else EArgument $"Share upload filename must be basename-only" in
  check negb (bool_decide (nul ∈ filename)) else EArgument $"Share upload filename contains invalid byte" in
  Ok filename.

Definition joinVaultPath (parent filename : str) : result Error str :=
  let? normalizedParent := normalizeVault parent in
  Ok (if normalizedParent == $"/" then $"/" ++ filename else normalizedParent ++ $"/" ++ filename).

(** [path::filename] and [path::parent_path] of a path without doubled slashes. *)
Definition path_filename (p : str) : str := match split_last slash p with Some (_, n) => n | None => p end.
Definition path_parent (p : str) : str :=
  match split_last slash p with Some ([], _) => $"/" | Some (d, _) => d | None => [] end.
Fixpoint doubled_slash (s : str) : bool :=
  match s with a :: ((b :: _) as s') => ((a == slash) && (b == slash)) || doubled_slash s' | _ => false end.

Record ShareTargetRequest := mkShareTarget {
  tr_parent_path : str; tr_parent_mode : TargetPathMode; tr_filename : str; tr_vault_id : option Z }.
Definition shareTargetRequest (item : Item) (payload : Payload) : result Error ShareTargetRequest :=
  let? vaultId := (if present (i_vault_id item) then let? v := at_field (i_vault_id item) in Ok (Some v)
                   else if present (pl_vault_id payload) then let? v := at_field (pl_vault_id payload) in Ok (Some v)
                   else Ok None) in
  let? path := (if present (i_path item) then at_field (i_path item) else Ok $"/") in
  let path := if is_empty path then $"/" else path in
  check negb (doubled_slash path) else ERuntime $"Share upload path contains duplicate slash" in
  let mode := match vaultId with Some _ => VaultRelative | None => ShareRelative end in
  if present (i_filename item) then
    let? name := at_field (i_filename item) in
    let? name := sanitizeFilename name in
    Ok (mkShareTarget path mode name vaultId)
  else
    let? name := sanitizeFilename (path_filename path) in
    let parent := path_parent path in
    Ok (mkShareTarget (if is_empty parent then $"/" else parent) mode name vaultId).

Example route_examples :
  isShareModeRequestTarget $"/upload/session?a=1&share=true" = true /\ isShareModeRequestTarget $"/upload?share=10" = false /\
  parseUploadFileTarget $"/upload/u1/files/f-2?share=1" = Ok (mkParsed $"u1" $"f-2") /\
  parseUploadFileTarget $"/upload/u1/files/f.2" = Err (EArgument $"Invalid file id") /\
  sanitizeFilename $"a/b" = Err (EArgument $"Share upload filename must be basename-only") /\
  joinVaultPath $"/docs/" $"x" = Ok $"/docs/x" /\
  shareTargetRequest (mkItem Absent Absent (Value $"/in/x.txt") Null Absent (Value 3) Absent) (mkPayload None Absent) =
    Ok (mkShareTarget $"/in" ShareRelative $"x.txt" None).
Proof. vm_compute. split_and!; reflexivity. Qed.

(** ** Staging: where a body waits, one of two builds *)
Class Staging := { insideMount : bool; pathFor : str -> Z -> str -> str }.
Definition private_staging (backing : str) : Staging := {|
  insideMount := false;
  pathFor := fun _ vaultId name => path_join (path_join (path_join backing $".upload-staging") (Prelude.to_string vaultId)) name |}.
Definition mount_staging : Staging := {|
  insideMount := true;
  pathFor := fun targetAbsPath _ name => path_join (path_parent targetAbsPath) name |}.
Definition staging_name (uploadId fileId : str) : str := $".upload-http-" ++ uploadId ++ $"-" ++ fileId ++ $".part".

(** ** State *)
Inductive UploadMode := Authenticated | ShareMode.
Inductive FileStatus := FPending | FReceiving | FComplete | FFailed.
#[export] Instance UploadMode_eq : EqDecision UploadMode. Proof. solve_decision. Defined.
#[export] Instance FileStatus_eq : EqDecision FileStatus. Proof. solve_decision. Defined.

Record UploadFileState := mkFile {
  file_id : str; f_vault_id : Z; vault_path : str; tmp_path : str; fuse_from : str; fuse_to : str;
  expected_size : Z; received_size : Z; mime_type : option str; status : FileStatus;
  share_upload_id : str; share_parent_path : str; share_final_path : str; share_original_filename : str;
  share_principal_snapshot : option Principal }.
Definition with_status (s : FileStatus) (f : UploadFileState) : UploadFileState :=
  mkFile (file_id f) (f_vault_id f) (vault_path f) (tmp_path f) (fuse_from f) (fuse_to f) (expected_size f) (received_size f) (mime_type f) s
    (share_upload_id f) (share_parent_path f) (share_final_path f) (share_original_filename f) (share_principal_snapshot f).
Definition with_received (n : Z) (f : UploadFileState) : UploadFileState :=
  mkFile (file_id f) (f_vault_id f) (vault_path f) (tmp_path f) (fuse_from f) (fuse_to f) (expected_size f) n (mime_type f) (status f)
    (share_upload_id f) (share_parent_path f) (share_final_path f) (share_original_filename f) (share_principal_snapshot f).

Record UploadSessionState := mkSession {
  s_id : str; s_mode : UploadMode; s_user_id : Z; s_share_session_id : str; files : gmap str UploadFileState;
  created_at : Z; last_activity : Z; finished : bool }.
Definition with_files fs (s : UploadSessionState) : UploadSessionState :=
  mkSession (s_id s) (s_mode s) (s_user_id s) (s_share_session_id s) fs (created_at s) (last_activity s) (finished s).
Definition with_owner user share (s : UploadSessionState) : UploadSessionState :=
  mkSession (s_id s) (s_mode s) user share (files s) (created_at s) (last_activity s) (finished s).
Definition with_activity t (s : UploadSessionState) : UploadSessionState :=
  mkSession (s_id s) (s_mode s) (s_user_id s) (s_share_session_id s) (files s) (created_at s) t (finished s).
Definition with_finished (s : UploadSessionState) : UploadSessionState :=
  mkSession (s_id s) (s_mode s) (s_user_id s) (s_share_session_id s) (files s) (created_at s) (last_activity s) true.

(** [FileStream::Impl]: the session and the file, the open output (its inode, the bytes its
    buffer holds, whether it is good), and the principal of a share upload. *)
Record Stream := mkStream {
  st_session : nat; st_file : str; st_inode : nat; st_open : bool; st_buffer : str; st_good : bool;
  st_principal : option Principal; st_finished : bool; st_failed : bool }.
Definition stream_out opened buffer good (s : Stream) : Stream :=
  mkStream (st_session s) (st_file s) (st_inode s) opened buffer good (st_principal s) (st_finished s) (st_failed s).
Definition stream_finished (s : Stream) : Stream :=
  mkStream (st_session s) (st_file s) (st_inode s) (st_open s) (st_buffer s) (st_good s) (st_principal s) true (st_failed s).
Definition stream_failed (s : Stream) : Stream :=
  mkStream (st_session s) (st_file s) (st_inode s) (st_open s) (st_buffer s) (st_good s) (st_principal s) (st_finished s) true.

(** What [Filesystem::createFile] is given, and what it returns. *)
Record NewFileContext := mkContext { cx_vault_id : Z; cx_path : str; cx_fuse_path : str; cx_user : Z; cx_source : option str }.
Record CreatedFile := mkCreated { cf_id : Z; cf_content_hash : option str; cf_mime_type : option str }.

(** The registry of sessions by upload id, the heap, the staging directory, the streams and the
    world of the share manager; then two histories, which no operation reads: the bytes counted
    as received for each file since its body was last begun, and the files given to
    [createFile] with the bytes staged for them. *)
Record Server (W : Type) := mkServer {
  registry : gmap str nat; heap : gmap nat UploadSessionState;
  names : gmap str nat; inodes : gmap nat str; next_inode : nat;
  streams : gmap nat Stream; next_stream : nat; world : World W;
  streamed : gmap (nat * str) str; committed : list (nat * str * NewFileContext) }.
Arguments mkServer {W}. Arguments registry {W}. Arguments heap {W}. Arguments names {W}. Arguments inodes {W}. Arguments next_inode {W}.
Arguments streams {W}. Arguments next_stream {W}. Arguments world {W}. Arguments streamed {W}. Arguments committed {W}.

Section Setters.
Context {W : Type}.
Definition with_registry r (s : Server W) := mkServer r (heap s) (names s) (inodes s) (next_inode s) (streams s) (next_stream s) (world s) (streamed s) (committed s).
Definition with_heap h (s : Server W) := mkServer (registry s) h (names s) (inodes s) (next_inode s) (streams s) (next_stream s) (world s) (streamed s) (committed s).
Definition with_disk n i k (s : Server W) := mkServer (registry s) (heap s) n i k (streams s) (next_stream s) (world s) (streamed s) (committed s).
Definition with_streams t k (s : Server W) := mkServer (registry s) (heap s) (names s) (inodes s) (next_inode s) t k (world s) (streamed s) (committed s).
Definition with_world (w : World W) (s : Server W) := mkServer (registry s) (heap s) (names s) (inodes s) (next_inode s) (streams s) (next_stream s) w (streamed s) (committed s).
Definition with_streamed b (s : Server W) := mkServer (registry s) (heap s) (names s) (inodes s) (next_inode s) (streams s) (next_stream s) (world s) b (committed s).
Definition with_committed c (s : Server W) := mkServer (registry s) (heap s) (names s) (inodes s) (next_inode s) (streams s) (next_stream s) (world s) (streamed s) c.
End Setters.

(** ** Outside

    A websocket session, as far as uploads read it; a request, with the device session the device
    listener set for its thread and the cookies it carries. *)
Record WsSession := mkWsSession {
  ws_user : option Z; ws_share_mode : bool; ws_share_session_id : str; ws_share_session_token : str;
  ws_ip : str; ws_agent : str; ws_closing : bool }.
Record UploadRequest := mkUploadRequest {
  rq_target : str; rq_device : option (option WsSession); rq_refresh : str; rq_share_refresh : str }.

Class UploadOutside (W : Type) := {
  steady_now : W -> Z * W;                                            (* nanoseconds *)
  draw_file_id : W -> str * W;                                        (* generateUUIDv4 *)
  validateRawRefreshToken : str -> W -> result Error (option WsSession) * W;
  validateRawShareRefreshToken : str -> W -> result Error (option WsSession) * W;
  setSharePrincipal : WsSession -> Principal -> W -> W;
  get_engine : Z -> W -> result Error bool * W;                       (* is there one *)
  freeSpace : Z -> W -> Z;
  absPath : Z -> str -> str; absRelToRoot : Z -> str -> str;          (* to the vault's and the mount's root *)
  may_write : Z -> Z -> str -> W -> bool;                             (* Vault::has of a user, a vault, a path *)
  cached : str -> W -> bool; evictPath : str -> W -> W;               (* the entry cache *)
  make_directory : Z -> str -> Z -> W -> bool * W;                    (* Filesystem::mkdir succeeded *)
  createFile : NewFileContext -> W -> result Error CreatedFile * W;
  runNow : Z -> W -> W;
  create_directories : str -> W -> option str * W;                    (* the failure *)
  opens : str -> W -> bool * W;
  unlinks : str -> W -> bool * W;
  flushes : nat -> W -> (nat * bool) * W;                             (* bytes that leave the buffer; good() *)
  closes : nat -> W -> nat * W;                                       (* bytes of the buffer that reach the disk *)
  damage : W -> str -> str;                                           (* contents after a failing write *)
  render_error : Error -> str }.                                      (* what() of the errors without a text here *)

Definition what {W} `{UploadOutside W} (e : Error) : str :=
  match e with
  | EDenied m | ENotFound m | EConflict m | EInvalid m | EArgument m | ERuntime m | EDatabase m => m
  | _ => render_error e
  end.

(** ** The coordinator *)
Definition nanoseconds : Z := 1000000000.
Definition kMaxHttpUploadFiles : nat := Z.to_nat 4096.
Definition kDefaultMaxHttpUploadFileBytes : Z := 8 * 1024 * 1024 * 1024.
Definition kUploadSessionTtl : Z := 30 * 60 * nanoseconds.
Definition kUploadSessionMaxAge : Z := 24 * 3600 * nanoseconds.

Definition uploadSessionExpired (s : UploadSessionState) (now : Z) : bool :=
  (last_activity s <? now - kUploadSessionTtl) || (created_at s <? now - kUploadSessionMaxAge).

Record FileResponse := mkFileResponse { fr_file_id : str; fr_path : str; fr_size : Z; fr_received : Z; fr_complete : bool; fr_transfer_id : option str }.
Definition fileResponseJson (f : UploadFileState) : FileResponse :=
  mkFileResponse (file_id f) (vault_path f) (expected_size f) (received_size f) (status f == FComplete)
    (if is_empty (share_upload_id f) then None else Some (share_upload_id f)).
(** An entry of the answer to a finish: the file's, or a share's [file_id], [transfer_id], [path] and [entry_id]. *)
Inductive FinishedFile := OwnFile (f : FileResponse) | ShareFile (file transfer path : str) (entry : Z).

Section Coordinator.
Context {W : Type} `{Outside W} `{Registry} `{ArrayText} `{UploadOutside W} `{TargetEntryProvider W} `{Staging}.
Context (hash : str -> str) (options : ManagerOptions).
Notation M A := (Monad.M (Server W) Error A).

(** *** The state behind the pointers *)
Definition outside_do {A} (f : W -> A * W) : M A := fun s =>
  let w := world s in let '(a, o) := f (outside w) in (Ok a, with_world (mkWorld (tables w) o (epoch w) (draft w)) s).
Definition outside_try {A} (f : W -> result Error A * W) : M A := fun s =>
  let w := world s in let '(r, o) := f (outside w) in (r, with_world (mkWorld (tables w) o (epoch w) (draft w)) s).
Definition in_world {A} (m : Monad.M (World W) Error A) : M A := fun s =>
  let '(r, w) := m (world s) in (r, with_world w s).
Definition ask {A} (f : W -> A) : M A := reads (fun s => Ok (f (outside (world s)))).
Definition tell (f : W -> W) : M unit := outside_do (fun w => (tt, f w)).
Definition pure {A} (r : result Error A) : M A := reads (fun _ => r).
Definition demand (b : bool) (e : Error) : M unit := pure (if b then Ok tt else Err e).
Definition quiet (m : M unit) : M unit := handle m (fun _ => ret tt).

Definition null_pointer : Error := ERuntime $"null".
Definition session_at (l : nat) : M UploadSessionState :=
  reads (fun s => match heap s !! l with Some u => Ok u | None => Err null_pointer end).
Definition edit_session (l : nat) (f : UploadSessionState -> UploadSessionState) : M unit :=
  modify (fun s => with_heap (alter f l (heap s)) s).
Definition edit_file (l : nat) (i : str) (f : UploadFileState -> UploadFileState) : M unit :=
  edit_session l (fun u => with_files (alter f i (files u)) u).
Definition file_at (l : nat) (i : str) : M UploadFileState :=
  let! u := session_at l in
  pure (match files u !! i with Some f => Ok f | None => Err (ERuntime $"Upload file not found") end).
Definition erase (uploadId : str) : M unit := modify (fun s => with_registry (delete uploadId (registry s)) s).

(** *** Staging files *)
Definition directories (path : str) : M unit :=
  let! failure := outside_do (create_directories (path_parent path)) in
  match failure with Some why => throw (ERuntime why) | None => ret tt end.
(** Open for writing and truncate: the inode of the name, or a new one. *)
Definition open_truncated (path : str) : M nat := fun s =>
  let i := default (next_inode s) (names s !! path) in
  (Ok i, with_disk (<[path := i]> (names s)) (<[i := []]> (inodes s)) (Nat.max (next_inode s) (S i)) s).
Definition open_staging (path why : str) : M nat :=
  directories path;;
  let! ok := outside_do (opens path) in
  demand ok (ERuntime why);; open_truncated path.
Definition createEmptyTempFile (path : str) : M unit := open_staging path $"Unable to create upload temp file";; ret tt.
Definition remove_file (path : str) : M unit :=
  let! ok := outside_do (unlinks path) in
  if ok : bool then modify (fun s => with_disk (delete path (names s)) (inodes s) (next_inode s) s) else ret tt.
Definition staged (path : str) (s : Server W) : option str := i ← names s !! path; inodes s !! i.

Definition cleanupFile (f : UploadFileState) : M unit :=
  remove_file (tmp_path f);;
  let! known := ask (cached (fuse_from f)) in
  if negb (is_empty (fuse_from f)) && known then tell (evictPath (fuse_from f)) else ret tt.

(** *** The share side of a file *)
Definition fail_upload (p : option Principal) (uploadId reason : str) : M unit :=
  match p with Some p => in_world (ShareManager.failUpload p uploadId reason) | None => ret tt end.
Definition failShareUploadIfNeeded (f : UploadFileState) (reason : str) : M unit :=
  if is_empty (share_upload_id f) then ret tt else quiet (fail_upload (share_principal_snapshot f) (share_upload_id f) reason).
Definition cancelShareUploadIfNeeded (f : UploadFileState) : M unit :=
  if is_empty (share_upload_id f) then ret tt
  else match share_principal_snapshot f with
       | Some p => quiet (in_world (ShareManager.cancelUpload p (share_upload_id f)))
       | None => ret tt
       end.

(** *** Cleaning up *)
Definition cleanup_one (l : nat) (mode : UploadMode) (reason : str) (failCompleted removeTemp markFailed : bool) (i : str) : M unit :=
  let! f := file_at l i in
  (if markFailed && (status f !== FComplete) then edit_file l i (with_status FFailed) else ret tt);;
  let! f := file_at l i in
  (if removeTemp : bool then cleanupFile f else ret tt);;
  if (mode == ShareMode) && (failCompleted || (status f !== FComplete)) then failShareUploadIfNeeded f reason else ret tt.
Definition file_ids (u : UploadSessionState) : list str := (map_to_list (files u)).*1.
Definition cleanupSession (l : nat) (reason : str) (failCompleted removeTemp markFailed : bool) : M unit :=
  quiet (let! u := session_at l in
         for_each (file_ids u) (cleanup_one l (s_mode u) reason failCompleted removeTemp markFailed)).

Definition uploadClock : M Z := outside_do steady_now.
Definition touchUploadSession (l : nat) : M unit := let! t := uploadClock in edit_session l (with_activity t).

Definition expire_one (now : Z) (e : str * nat) : M unit :=
  let! u := session_at e.2 in
  if uploadSessionExpired u now then cleanupSession e.2 $"http_upload_expired" true true false;; erase e.1 else ret tt.
Definition cleanupExpiredSessionsLocked : M unit :=
  let! now := uploadClock in
  let! s := get in
  quiet (for_each (map_to_list (registry s)) (expire_one now)).
Definition findSession (uploadId : str) : M nat :=
  cleanupExpiredSessionsLocked;;
  let! s := get in
  match registry s !! uploadId with Some l => ret l | None => throw (ERuntime $"Upload session not found") end.

(** *** Sessions and owners *)
Definition defaultSessionResolver (r : UploadRequest) : M (option WsSession) :=
  if isShareModeRequestTarget (rq_target r) then
    demand (negb (is_empty (rq_share_refresh r))) (ERuntime $"Share refresh token not set");;
    outside_try (validateRawShareRefreshToken (rq_share_refresh r))
  else
    demand (negb (is_empty (rq_refresh r))) (ERuntime $"Refresh token not set");;
    outside_try (validateRawRefreshToken (rq_refresh r)).
Definition sessionResolver (r : UploadRequest) : M (option WsSession) :=
  match rq_device r with
  | None => defaultSessionResolver r
  | Some device =>
      demand (negb (isShareModeRequestTarget (rq_target r))) (ERuntime $"share uploads are not served on the device listener");;
      match device with
      | Some s => demand (bool_decide (is_Some (ws_user s)) && negb (ws_closing s)) (ERuntime $"Unauthorized: this device session has ended");;
                  ret (Some s)
      | None => throw (ERuntime $"Unauthorized: this device session has ended")
      end
  end.

Definition user_of (s : option WsSession) : option Z := match s with Some s => ws_user s | None => None end.
(** The session of a ready share: [session->isShareMode() && !session->user]. *)
Definition share_of (s : option WsSession) : option WsSession :=
  match s with Some s => if ws_share_mode s && negb (bool_decide (is_Some (ws_user s))) then Some s else None | None => None end.

Definition verifySessionOwner (u : UploadSessionState) (session : option WsSession) : result Error unit :=
  if s_mode u == Authenticated then
    match user_of session with
    | None => Err (ERuntime $"Upload requires a user session")
    | Some user => check user =? s_user_id u else ERuntime $"Upload session owner mismatch" in Ok tt
    end
  else
    match share_of session with
    | None => Err (ERuntime $"Upload requires a ready share session")
    | Some s => check ws_share_session_id s == s_share_session_id u else ERuntime $"Upload share session mismatch" in Ok tt
    end.
Definition resolveAndVerify (r : UploadRequest) (l : nat) : M (option WsSession) :=
  let! session := sessionResolver r in
  let! u := session_at l in
  pure (verifySessionOwner u session);;
  touchUploadSession l;; ret session.

Definition refreshSharePrincipal (session : option WsSession) : M Principal :=
  match share_of session with
  | None => throw (ERuntime $"Upload requires a ready share session")
  | Some s =>
      demand (negb (is_empty (ws_share_session_token s))) (ERuntime $"Share session token is missing");;
      let! p := in_world (ShareManager.resolvePrincipal hash (ws_share_session_token s)
                  (if is_empty (ws_ip s) then None else Some (ws_ip s)) (if is_empty (ws_agent s) then None else Some (ws_agent s))) in
      tell (setSharePrincipal s p);; ret p
  end.
(** [rbacActor()] of a session whose principal was just refreshed. *)
Definition share_actor (p : Principal) : Actor := ByShare (Some p).

Definition engineFor (vaultId : Z) : M Z :=
  let! there := outside_try (get_engine vaultId) in
  demand there (ERuntime $"Unknown storage engine");; ret vaultId.
Definition enforceHumanWritePermission (user : option Z) (vaultId : Z) (vaultPath : str) : M unit :=
  match user with
  | None => throw (ERuntime $"Upload requires a user session")
  | Some user => let! ok := ask (may_write user vaultId vaultPath) in demand ok (ERuntime $"Permission denied")
  end.

Definition resolve_target (a : Actor) (r : TargetResolveRequest) : M ResolvedTarget :=
  reads (fun s => let w := outside (world s) in TargetResolver.resolve_actor (sharing w) a r w).
Definition mentions (part s : str) : bool := existsb (fun k => starts_with (drop k s) part) (seq 0 (S (length s))).
Definition ensureNoExistingShareTarget (a : Actor) (vaultId : Z) (finalVaultPath : str) : M unit :=
  let! found := handle (resolve_target a (mkResolveRequest finalVaultPath Upload VaultRelative None (Some vaultId));; ret true)
                  (fun e => if mentions $"target not found" (what e) then ret false else throw e) in
  if found : bool then
    match a with
    | ByShare (Some p) =>
        if duplicate_policy (grant_ p) == Reject then throw (ERuntime $"Share upload target already exists")
        else throw (ERuntime $"Share upload duplicate policy is not supported in this pass")
    | _ => throw (ERuntime $"Share upload actor principal is missing")
    end
  else ret tt.

(** The planned bytes of each vault, so far. *)
Definition reserveUploadSpace (planned : gmap Z Z) (vaultId size : Z) (message : str) : M (gmap Z Z) :=
  let! available := ask (freeSpace vaultId) in
  let before := default 0 (planned !! vaultId) in
  demand (negb ((available <? size) || (available - size <? before))) (ERuntime message);;
  ret (<[vaultId := before + size]> planned).

(** *** Streams *)
Definition stream_at (i : nat) : M Stream :=
  reads (fun s => match streams s !! i with Some t => Ok t | None => Err (ERuntime $"Upload stream is not open") end).
Definition edit_stream (i : nat) (f : Stream -> Stream) : M unit := modify (fun s => with_streams (alter f i (streams s)) (next_stream s) s).
Definition set_inode (i : nat) (f : str -> str) : M unit := modify (fun s => with_disk (names s) (alter f i (inodes s)) (next_inode s) s).

(** [ofstream::write]: the bytes go to the buffer, part of which is flushed at the end of the
    file; a failure spoils the file for this stream, and a closed stream only turns bad.
    [ofstream::close] flushes the rest and reports nothing. *)
Definition out_write (i : nat) (data : str) : M unit :=
  let! t := stream_at i in
  if negb (st_open t) then edit_stream i (stream_out false [] false) else
  let! flushed := outside_do (flushes (length (st_buffer t ++ data))) in
  let! spoil := ask damage in
  if st_good t && flushed.2 then
    set_inode (st_inode t) (fun c => c ++ take flushed.1 (st_buffer t ++ data));;
    edit_stream i (stream_out true (drop flushed.1 (st_buffer t ++ data)) true)
  else set_inode (st_inode t) spoil;; edit_stream i (stream_out true [] false).
Definition out_close (i : nat) : M unit :=
  let! t := stream_at i in
  if st_open t then
    let! flushed := outside_do (closes (length (st_buffer t))) in
    set_inode (st_inode t) (fun c => c ++ take flushed (st_buffer t));;
    edit_stream i (stream_out false [] (st_good t))
  else ret tt.

Definition count_bytes (l : nat) (i : str) (data : str) : M unit :=
  edit_file l i (fun f => with_received (received_size f + Z.of_nat (length data)) f);;
  modify (fun s => with_streamed (<[(l, i) := default [] (streamed s !! (l, i)) ++ data]> (streamed s)) s).
Definition write_data (i : nat) (t : Stream) (data : str) : M str :=
  let! f := file_at (st_session t) (st_file t) in
  demand (status f == FReceiving) (ERuntime $"Upload file is not receiving data");;
  demand (negb ((expected_size f <? received_size f) || (expected_size f - received_size f <? Z.of_nat (length data))))
    (ERuntime $"Upload exceeds expected size");;
  out_write i data;;
  let! after := stream_at i in
  demand (st_good after) (ERuntime $"Unable to write upload body");;
  count_bytes (st_session t) (st_file t) data;; ret (share_upload_id f).
Definition write (i : nat) (data : str) : M unit :=
  let! t := stream_at i in
  demand (negb (st_finished t || st_failed t)) (ERuntime $"Upload stream is already closed");;
  if is_empty data then ret tt
  else
    let! uploadId := write_data i t data in
    touchUploadSession (st_session t);;
    match st_principal t with
    | Some p => in_world (ShareManager.recordUploadChunk p uploadId (Z.of_nat (length data)))
    | None => ret tt
    end.

Definition finish (i : nat) : M (option FileResponse) :=
  let! t := stream_at i in
  if st_finished t then ret None
  else
    demand (negb (st_failed t)) (ERuntime $"Upload stream failed");;
    out_close i;;
    let! f := file_at (st_session t) (st_file t) in
    if negb (received_size f =? expected_size f) then
      edit_file (st_session t) (st_file t) (with_status FFailed);; throw (ERuntime $"Upload size mismatch")
    else
      edit_file (st_session t) (st_file t) (with_status FComplete);;
      touchUploadSession (st_session t);;
      edit_stream i stream_finished;;
      ret (Some (fileResponseJson (with_status FComplete f))).

Definition fail_body (i : nat) (t : Stream) (reason : str) : M unit :=
  edit_stream i stream_failed;;
  out_close i;;
  quiet (let! f := file_at (st_session t) (st_file t) in
         if status f == FFailed then ret tt
         else
           edit_file (st_session t) (st_file t) (with_status FFailed);;
           cleanupFile f;;
           fail_upload (st_principal t) (share_upload_id f) reason).
Definition fail (i : nat) (reason : str) : M unit :=
  let! s := get in
  match streams s !! i with
  | None => ret tt
  | Some t => if st_failed t || st_finished t then ret tt else fail_body i t reason
  end.
Definition forget_stream (i : nat) : M unit := modify (fun s => with_streams (delete i (streams s)) (next_stream s) s).
(** The end of a stream's life: destroyed, or another stream moved over it. *)
Definition destroy (i : nat) : M unit := fail i $"http_upload_stream_abandoned";; forget_stream i.
Definition replace_stream (i : nat) : M unit := fail i $"http_upload_stream_replaced";; forget_stream i.

(** *** Creating a session *)
(** The loop's variables: the ids and the targets seen, the planned bytes, the answers so far. *)
Record Plan := mkPlan { seen_ids : gset str; seen_targets : gset str; planned : gmap Z Z; answers : list FileResponse }.
Definition no_plan : Plan := mkPlan ∅ ∅ ∅ [].

Definition take_file_id (plan : Plan) (item : Item) : M str :=
  let! fallback := outside_do draw_file_id in
  let! id := pure (let? v := value_field (i_file_id item) fallback in safeIdComponent v $"file id") in
  demand (negb (bool_decide (id ∈ seen_ids plan))) (ERuntime $"Duplicate upload file id");; ret id.
Definition take_target (plan : Plan) (target : str) : M unit :=
  demand (negb (bool_decide (target ∈ seen_targets plan))) (ERuntime $"Duplicate upload target").
Definition target_key (vaultId : Z) (path : str) : str := Prelude.to_string vaultId ++ $":" ++ path.

(** The staging path of a file; the private build creates its directory. *)
Definition stagingFor (uploadId fileId : str) (vaultId : Z) (path : str) : M str :=
  let tmp := pathFor (absPath vaultId path) vaultId (staging_name uploadId fileId) in
  (if insideMount : bool then ret tt else directories tmp);; ret tmp.
Definition fuse_from_of (vaultId : Z) (tmp : str) : str := if insideMount : bool then absRelToRoot vaultId tmp else [].

(** The file joins the session; an empty one is complete at once. *)
Definition add_file (l : nat) (plan : Plan) (target : str) (p : gmap Z Z) (f : UploadFileState) : M Plan :=
  let! u := session_at l in
  demand (negb (bool_decide (is_Some (files u !! file_id f)))) (ERuntime $"Duplicate upload file id");;
  edit_session l (fun u => with_files (<[file_id f := f]> (files u)) u);;
  (if expected_size f =? 0 then createEmptyTempFile (tmp_path f);; edit_file l (file_id f) (with_status FComplete) else ret tt);;
  let! stored := file_at l (file_id f) in
  ret (mkPlan ({[file_id f]} ∪ seen_ids plan) ({[target]} ∪ seen_targets plan) p (answers plan ++ [fileResponseJson stored])).

Definition add_share_file (l : nat) (uploadId : str) (principal : Principal) (payload : Payload) (plan : Plan) (item : option Item) : M Plan :=
  match item with
  | None => throw type_error
  | Some item =>
      let! fileId := take_file_id plan item in
      let! target := pure (shareTargetRequest item payload) in
      let actor := share_actor principal in
      let! parent := resolve_target actor (mkResolveRequest (tr_parent_path target) Upload (tr_parent_mode target) (Some Directory) (tr_vault_id target)) in
      let! finalVaultPath := pure (joinVaultPath (t_vault_path parent) (tr_filename target)) in
      take_target plan (target_key (t_vault_id parent) finalVaultPath);;
      let! scope := in_world (ShareManager.authorize_actor actor Upload finalVaultPath (Some File) (Some (t_vault_id parent))) in
      demand (d_allowed scope) (ERuntime ($"Share upload scope denied: " ++ d_reason scope));;
      ensureNoExistingShareTarget actor (t_vault_id parent) finalVaultPath;;
      let! size := pure (fileSizeFromJson item) in
      let! mime := pure (mimeTypeFromJson item) in
      let! engine := engineFor (t_vault_id parent) in
      let! reserved := reserveUploadSpace (planned plan) (t_vault_id parent) size $"Share upload exceeds available vault storage" in
      let! tmpPath := stagingFor uploadId fileId engine finalVaultPath in
      let! started := in_world (ShareManager.startUpload options (mkStartUpload principal
        (match t_entry parent with Some e => FsCache.e_id e | None => 0 end) finalVaultPath (tr_filename target) (tr_filename target) size mime)) in
      add_file l plan (target_key (t_vault_id parent) finalVaultPath) reserved
        (mkFile fileId (t_vault_id parent) finalVaultPath tmpPath (fuse_from_of engine tmpPath) (absRelToRoot engine (absPath engine finalVaultPath))
           size 0 mime FPending (Upload.id (us_upload started)) (t_vault_path parent) finalVaultPath (tr_filename target) (Some principal))
  end.

Definition add_own_file (l : nat) (uploadId : str) (user : Z) (payload : Payload) (plan : Plan) (item : option Item) : M Plan :=
  match item with
  | None => throw type_error
  | Some item =>
      let! fileId := take_file_id plan item in
      let! vaultId := pure (if present (i_vault_id item) then at_field (i_vault_id item) else at_field (pl_vault_id payload)) in
      let! vaultPath := pure (at_field (i_path item)) in
      let! size := pure (fileSizeFromJson item) in
      demand (negb (kDefaultMaxHttpUploadFileBytes <? size)) (ERuntime $"Upload file exceeds maximum size");;
      let target := target_key vaultId (lexically_normal vaultPath) in
      take_target plan target;;
      let! engine := engineFor vaultId in
      enforceHumanWritePermission (Some user) engine vaultPath;;
      let! reserved := reserveUploadSpace (planned plan) vaultId size $"Upload exceeds available vault storage" in
      let! tmpPath := stagingFor uploadId fileId engine vaultPath in
      let fuseTo := absRelToRoot engine (absPath engine vaultPath) in
      let! known := ask (cached fuseTo) in
      demand (negb known) (ERuntime $"Upload target already exists");;
      let! made := outside_do (make_directory engine (path_parent fuseTo) user) in
      demand made (ERuntime $"Failed to create upload parent directory");;
      let! mime := pure (mimeTypeFromJson item) in
      add_file l plan target reserved
        (mkFile fileId vaultId vaultPath tmpPath (fuse_from_of engine tmpPath) fuseTo size 0 mime FPending [] [] [] [] None)
  end.

Fixpoint add_files (add : Plan -> option Item -> M Plan) (items : list (option Item)) (plan : Plan) : M Plan :=
  match items with [] => ret plan | i :: rest => let! plan := add plan i in add_files add rest plan end.

(** [make_shared<UploadSessionState>()] *)
Definition new_session (uploadId : str) (mode : UploadMode) : M nat :=
  let! t := uploadClock in
  let! s := get in
  let l := fresh (dom (heap s)) in
  modify (with_heap (<[l := mkSession uploadId mode 0 [] ∅ t 0 false]> (heap s)));;
  touchUploadSession l;; ret l.

Definition fill_share (l : nat) (uploadId : str) (payload : Payload) (items : list (option Item)) (session : option WsSession) : M Plan :=
  demand (bool_decide (is_Some (share_of session))) (ERuntime $"Upload requires a ready share session");;
  let! principal := refreshSharePrincipal session in
  edit_session l (with_owner 0 (share_session_id principal));;
  add_files (add_share_file l uploadId principal payload) items no_plan.
Definition fill_own (l : nat) (uploadId : str) (payload : Payload) (items : list (option Item)) (session : option WsSession) : M Plan :=
  match user_of session with
  | None => throw (ERuntime $"Upload requires a user session")
  | Some user =>
      edit_session l (with_owner user []);;
      add_files (add_own_file l uploadId user payload) items no_plan
  end.

(** [uploadId] is what [generateUUIDv4] returns. *)
Definition createSession (uploadId : str) (r : UploadRequest) (payload : Payload) : M (str * list FileResponse) :=
  match pl_files payload with
  | None => throw (EArgument $"Upload session requires files array")
  | Some items =>
      demand (negb (is_empty items)) (EArgument $"Upload session requires at least one file");;
      demand (negb (kMaxHttpUploadFiles <? length items)%nat) (ERuntime $"Upload session has too many files");;
      let shareMode := isShareModeRequestTarget (rq_target r) in
      let! session := sessionResolver r in
      let! l := new_session uploadId (if shareMode then ShareMode else Authenticated) in
      let! plan := handle (if shareMode then fill_share l uploadId payload items session else fill_own l uploadId payload items session)
                     (fun e => cleanupSession l $"http_upload_create_failed" true true false;; throw e) in
      cleanupExpiredSessionsLocked;;
      touchUploadSession l;;
      modify (fun s => with_registry (match registry s !! uploadId with Some _ => registry s | None => <[uploadId := l]> (registry s) end) s);;
      ret (uploadId, answers plan)
  end.

(** *** Streaming a body *)
Definition openable (mode : UploadMode) (f : UploadFileState) (contentLength : option Z) : result Error unit :=
  check negb (status f == FComplete) else ERuntime $"Upload file is already complete" in
  check negb (status f == FReceiving) else ERuntime $"Upload file is already receiving data" in
  check negb ((status f == FFailed) && (mode == ShareMode)) else ERuntime $"Upload file has failed" in
  check match contentLength with Some n => n =? expected_size f | None => true end else ERuntime $"Upload size mismatch" in
  Ok tt.
Definition open_stream (l : nat) (i : str) (inode : nat) (p : option Principal) : M nat := fun s =>
  (Ok (next_stream s), with_streamed (<[(l, i) := []]> (streamed s))
     (with_streams (<[next_stream s := mkStream l i inode true [] true p false false]> (streams s)) (S (next_stream s)) s)).
Definition beginFile (r : UploadRequest) (contentLength : option Z) : M nat :=
  let! parsed := pure (parseUploadFileTarget (rq_target r)) in
  let! l := findSession (upload_id parsed) in
  let! session := resolveAndVerify r l in
  let! u := session_at l in
  let! principal := (if s_mode u == ShareMode then let! p := refreshSharePrincipal session in ret (Some p) else ret None) in
  let! f := file_at l (file_id_ parsed) in
  pure (openable (s_mode u) f contentLength);;
  let! inode := open_staging (tmp_path f) $"Unable to open upload temp file" in
  edit_file l (file_id_ parsed) (fun f => with_status FReceiving (with_received 0 f));;
  open_stream l (file_id_ parsed) inode principal.

(** The PUT of a body ([protocols/http/Session.cpp]): its chunks, then the end of the body or the
    connection's failure; the stream is failed on any exception, and dies with the request. *)
Definition failing {A} (i : nat) (m : M A) : M A := handle m (fun e => fail i (what e);; forget_stream i;; throw e).
Definition handle_streaming_upload (r : UploadRequest) (contentLength : option Z) (chunks : list str) (broken : option str) :
  M (option FileResponse) :=
  let! i := beginFile r contentLength in
  let! response := failing i (for_each chunks (write i);;
                              match broken with Some why => throw (ERuntime why) | None => finish i end) in
  destroy i;; ret response.

(** *** Committing *)
Definition checkCompletedUploadFile (f : UploadFileState) : M str :=
  reads (fun s =>
    match staged (tmp_path f) s with
    | None => Err (ERuntime ($"Uploaded temp file is missing: " ++ tmp_path f))
    | Some c => check Z.of_nat (length c) =? expected_size f else ERuntime $"Uploaded temp file size mismatch" in Ok c
    end).
Definition commitCompletedUploadFile (l : nat) (f : UploadFileState) (user : Z) : M CreatedFile :=
  let! content := checkCompletedUploadFile f in
  let context := mkContext (f_vault_id f) (vault_path f) (fuse_to f) user (if 0 <? expected_size f then Some content else None) in
  modify (fun s => with_committed (committed s ++ [(l, file_id f, context)]) s);;
  let! created := outside_try (createFile context) in
  remove_file (tmp_path f);; ret created.

Fixpoint finish_own (l : nat) (user : Z) (fs : list UploadFileState) : M (list FinishedFile) :=
  match fs with
  | [] => ret []
  | f :: rest =>
      commitCompletedUploadFile l f user;;
      let! others := finish_own l user rest in
      ret (OwnFile (fileResponseJson f) :: others)
  end.
Definition finish_share_file (l : nat) (p : Principal) (f : UploadFileState) : M FinishedFile :=
  let actor := share_actor p in
  let! parent := resolve_target actor (mkResolveRequest (share_parent_path f) Upload VaultRelative (Some Directory) (Some (f_vault_id f))) in
  let! scope := in_world (ShareManager.authorize_actor actor Upload (share_final_path f) (Some File) (Some (t_vault_id parent))) in
  demand (d_allowed scope) (ERuntime ($"Share upload scope denied: " ++ d_reason scope));;
  ensureNoExistingShareTarget actor (t_vault_id parent) (share_final_path f);;
  let! created := commitCompletedUploadFile l f (link_created_by p) in
  in_world (ShareManager.finishUpload (mkFinish p (share_upload_id f) (cf_id created) (default [] (cf_content_hash created)) (cf_mime_type created)));;
  let! relative := pure (shareRelativePath p (share_final_path f)) in
  ret (ShareFile (file_id f) (share_upload_id f) relative (cf_id created)).
Fixpoint finish_share (l : nat) (p : Principal) (fs : list UploadFileState) : M (list FinishedFile) :=
  match fs with
  | [] => ret []
  | f :: rest => let! one := finish_share_file l p f in let! others := finish_share l p rest in ret (one :: others)
  end.

Definition ready_to_commit (u : UploadSessionState) : result Error (list UploadFileState) :=
  check negb (finished u) else ERuntime $"Upload session is already finished" in
  let fs := (map_to_list (files u)).*2 in
  check forallb (fun f => (status f == FComplete) && (received_size f =? expected_size f)) fs else ERuntime $"Upload session has incomplete files" in
  Ok fs.
(** The vaults in the order of [std::set]. *)
Definition vaults_of (fs : list UploadFileState) : list Z := merge_sort Z.le (base.elements (list_to_set (map f_vault_id fs) : gset Z)).

Definition commit_all (l : nat) (mode : UploadMode) (session : option WsSession) (fs : list UploadFileState) : M (list FinishedFile) :=
  if mode == Authenticated then
    match user_of session with
    | None => throw (ERuntime $"Upload requires a user session")
    | Some user => finish_own l user fs
    end
  else
    let! p := refreshSharePrincipal session in
    demand (negb (link_created_by p =? 0)) (ERuntime $"Share upload link creator user is missing");;
    finish_share l p fs.
Definition commit_failed {A} (l : nat) (mode : UploadMode) (fs : list UploadFileState) (e : Error) : M A :=
  (if mode == ShareMode then for_each fs (fun f => failShareUploadIfNeeded f (what e))
   else cleanupSession l $"http_upload_finish_failed" false true false);;
  throw e.

Definition finishSession (r : UploadRequest) (uploadId : str) : M (str * list FinishedFile) :=
  let! uploadId := pure (safeIdComponent uploadId $"upload id") in
  let! l := findSession uploadId in
  let! session := resolveAndVerify r l in
  let! u := session_at l in
  let! fs := pure (ready_to_commit u) in
  let! entries := handle (commit_all l (s_mode u) session fs) (commit_failed l (s_mode u) fs) in
  edit_session l with_finished;;
  cleanupSession l $"http_upload_finished" false false false;;
  erase uploadId;;
  for_each (vaults_of fs) (fun v => tell (runNow v));;
  ret (uploadId, entries).

(** *** Giving up *)
Definition cancelSession (r : UploadRequest) (uploadId : str) : M str :=
  let! uploadId := pure (safeIdComponent uploadId $"upload id") in
  cleanupExpiredSessionsLocked;;
  let! s := get in
  match registry s !! uploadId with
  | None => ret uploadId
  | Some l =>
      resolveAndVerify r l;;
      let! u := session_at l in
      (if s_mode u == ShareMode then for_each (map_to_list (files u)).*2 (fun f => cleanupFile f;; cancelShareUploadIfNeeded f)
       else cleanupSession l $"http_upload_cancelled" false true false);;
      erase uploadId;; ret uploadId
  end.
Definition abortAll (reason : str) : M unit :=
  let reason := if is_empty reason then $"http_upload_aborted" else reason in
  let! s := get in
  modify (with_registry ∅);;
  for_each (map_to_list (registry s)).*2 (fun l => cleanupSession l reason true true true).
End Coordinator.

(** ** A small installation

    One vault 7 with a mount at [/m]; users [alice] (1) and [bob] (2); every tick of the counter is
    a millisecond of the steady clock. *)
Module UploadDemo.
#[export] Existing Instance ManagerDemo.demo_outside.
#[export] Existing Instance ManagerDemo.demo_registry.
#[export] Existing Instance ManagerDemo.demo_array.
Definition ws (user : option Z) (share token : str) : WsSession := mkWsSession user (negb (is_empty share)) share token [] [] false.
#[export] Instance demo_uploads : UploadOutside Z := {|
  steady_now n := (n * 1000000, n + 1); draw_file_id n := (ManagerDemo.demo_uuid n, n + 1);
  validateRawRefreshToken t n := (if t == $"alice" then Ok (Some (ws (Some 1) [] [])) else if t == $"bob" then Ok (Some (ws (Some 2) [] [])) else Ok None, n);
  validateRawShareRefreshToken t n := (Err (ERuntime $"unknown"), n);
  setSharePrincipal _ _ n := n; get_engine v n := (Ok (v =? 7), n); freeSpace _ _ := 100;
  absPath _ p := $"/data/v7/" ++ p; absRelToRoot _ p := $"/m/" ++ p; may_write _ _ _ _ := true; cached _ _ := false; evictPath _ n := n;
  make_directory _ _ _ n := (true, n); createFile c n := (Ok (mkCreated (100 + n) None None), n + 1); runNow _ n := n;
  create_directories _ n := (None, n); opens _ n := (true, n); unlinks _ n := (true, n); flushes k n := ((k, true), n); closes k n := (k, n);
  damage _ c := c; render_error _ := [] |}.
#[export] Instance demo_entries : TargetEntryProvider Z := {|
  getEntryById _ _ := Ok None; getEntryByVaultPath _ _ _ := Ok None; provider_listChildren _ _ := Ok [] |}.
#[export] Instance demo_staging : Staging := private_staging $"/backing".
Definition start : Server Z := mkServer ∅ ∅ ∅ ∅ O ∅ O ManagerDemo.start ∅ [].
Definition request (target who : str) : UploadRequest := mkUploadRequest target None who [].
Definition item (id path : str) (size : Z) : option Item := Some (mkItem (Value id) Absent (Value path) Absent (Value size) Absent Absent).
Definition upload : str := ManagerDemo.demo_uuid 4096.
Definition create (items : list (option Item)) 
  : Monad.M (Server Z) Error (str * list FileResponse) := createSession id default_options upload (request $"/upload/session" $"alice") (mkPayload (Some items) (Value 7)).
Definition put_file (fid : str) : option Z -> list str -> option str -> Monad.M (Server Z) Error (option FileResponse) := handle_streaming_upload id (request ($"/upload/" ++ upload ++ $"/files/" ++ fid) $"alice").
Definition commit (who : str) : Monad.M (Server Z) Error (str * list FinishedFile) := finishSession id (request ($"/upload/" ++ upload ++ $"/finish") who) upload.
End UploadDemo.
#[local] Existing Instance ManagerDemo.demo_outside.
#[local] Existing Instance ManagerDemo.demo_registry.
#[local] Existing Instance ManagerDemo.demo_array.
#[local] Existing Instance UploadDemo.demo_uploads.
#[local] Existing Instance UploadDemo.demo_entries.
#[local] Existing Instance UploadDemo.demo_staging.

Example upload_examples :
  let run {A} (m : Monad.M (Server Z) Error A) := m UploadDemo.start in
  let two := UploadDemo.create [UploadDemo.item $"a" $"docs/a" 5; UploadDemo.item $"b" $"docs/b" 0] in
  (run (two;; UploadDemo.put_file $"a" (Some 5) [$"he"; $"llo"] None;; UploadDemo.commit $"alice")).1 =
    Ok (UploadDemo.upload, [OwnFile (mkFileResponse $"b" $"docs/b" 0 0 true None); OwnFile (mkFileResponse $"a" $"docs/a" 5 5 true None)]) /\
  map (fun c => (cx_path c.2, cx_source c.2)) (committed (run (two;; UploadDemo.put_file $"a" None [$"he"; $"llo"] None;; UploadDemo.commit $"alice")).2) =
    [($"docs/b", None); ($"docs/a", Some $"hello")] /\
  (run (two;; UploadDemo.commit $"alice")).1 = Err (ERuntime $"Upload session has incomplete files") /\
  (run (two;; UploadDemo.put_file $"a" None [$"hell"] None)).1 = Err (ERuntime $"Upload size mismatch") /\
  (run (two;; UploadDemo.put_file $"a" None [$"hello!"] None)).1 = Err (ERuntime $"Upload exceeds expected size") /\
  (run (two;; UploadDemo.put_file $"a" None [$"hello"] None;; UploadDemo.commit $"bob")).1 = Err (ERuntime $"Upload session owner mismatch") /\
  (run (UploadDemo.create [UploadDemo.item $"a" $"x" 60; UploadDemo.item $"b" $"y" 41])).1 = Err (ERuntime $"Upload exceeds available vault storage") /\
  (run (UploadDemo.create [UploadDemo.item $"a" $"x" 6; UploadDemo.item $"b" $"./x" 4])).1 = Err (ERuntime $"Duplicate upload target").
Proof. vm_compute. split_and!; reflexivity. Qed.
