(* ===== verification/UploadSteps.v ===== *)
(** * HTTP uploads: what every operation keeps

    The invariant of sessions, staging files and streams, the steps that change them, and the
    proof that every operation of [UploadModel] keeps it, whatever the world answers. *)
From S2P Require Import Prelude Monad Paths Perm ShareTokens SharePolicy ShareScope ShareStore ShareManager TargetResolver UploadModel.
#[local] Open Scope Z_scope.

(** ** The invariant *)
Definition id_of (h : gmap nat UploadSessionState) (l : nat) : option str := s_id <$> h !! l.
Definition file_of (h : gmap nat UploadSessionState) (l : nat) (i : str) : option UploadFileState := u ← h !! l; files u !! i.

Section Invariant.
Context {W : Type}.
Implicit Types (s : Server W).

Definition bytes_of (b : gmap (nat * str) str) (l : nat) (i : str) : str := default [] (b !! (l, i)).
Definition bytes s (l : nat) (i : str) : str := bytes_of (streamed s) l i.
Definition registered s (l : nat) : Prop := exists id, registry s !! id = Some l.

Record file_ok (h : gmap nat UploadSessionState) (b : gmap (nat * str) str) (l : nat) (i : str) (f : UploadFileState) : Prop := {
  fo_id : file_id f = i;
  fo_path : exists id, id_of h l = Some id /\ path_filename (tmp_path f) = staging_name id i;
  fo_size : 0 <= received_size f <= expected_size f;
  fo_complete : status f = FComplete -> received_size f = expected_size f;
  fo_bytes : Z.of_nat (length (bytes_of b l i)) = received_size f }.

(** An open stream: no other name leads to its inode, and its buffer continues what is on disk. *)
Record open_ok (r : gmap str nat) (ns : gmap str nat) (inode : option str) (b : str) (t : Stream) (f : UploadFileState) : Prop := {
  oo_status : status f <> FComplete;
  oo_receiving : (exists id, r !! id = Some (st_session t)) -> status f = FReceiving;
  oo_name : forall p, ns !! p = Some (st_inode t) -> p = tmp_path f;
  oo_inode : forall k, ns !! tmp_path f = Some k -> k = st_inode t;
  oo_data : if st_good t then exists c, inode = Some c /\ c ++ st_buffer t = b else received_size f < expected_size f }.
Definition open_in s (t : Stream) (f : UploadFileState) : Prop :=
  open_ok (registry s) (names s) (inodes s !! st_inode t) (bytes s (st_session t) (st_file t)) t f.

Record Inv s : Prop := {
  i_reg : forall id l, registry s !! id = Some l -> id_of (heap s) l = Some id;
  i_ids : forall l l' id, id_of (heap s) l = Some id -> id_of (heap s) l' = Some id -> l = l';
  i_len : forall l id, id_of (heap s) l = Some id -> length id = 36%nat;
  i_file : forall l i f, file_of (heap s) l i = Some f -> file_ok (heap s) (streamed s) l i f;
  i_bytes : forall l i b, streamed s !! (l, i) = Some b -> is_Some (file_of (heap s) l i);
  i_names : forall p p' k, names s !! p = Some k -> names s !! p' = Some k -> p = p';
  i_inode : forall p k, names s !! p = Some k -> (k < next_inode s)%nat;
  i_streams : forall n t, streams s !! n = Some t -> (n < next_stream s)%nat /\ (st_inode t < next_inode s)%nat /\
    exists f, file_of (heap s) (st_session t) (st_file t) = Some f /\ (st_open t = true -> open_in s t f);
  i_one : forall n m t t', streams s !! n = Some t -> streams s !! m = Some t' -> st_open t = true -> st_open t' = true ->
    (st_session t = st_session t' /\ st_file t = st_file t') \/ st_inode t = st_inode t' -> n = m;
  i_complete : forall l i f c, file_of (heap s) l i = Some f -> status f = FComplete -> staged (tmp_path f) s = Some c ->
    c `prefix_of` bytes s l i;
  i_committed : forall l i cx, (l, i, cx) ∈ committed s -> exists f, file_of (heap s) l i = Some f /\ status f = FComplete /\
    cx_vault_id cx = f_vault_id f /\ cx_path cx = vault_path f /\
    cx_source cx = (if 0 <? expected_size f then Some (bytes s l i) else None) }.

(** No two files share a staging path. *)
Lemma staging_name_inj u i u' i' : length u = length u' -> staging_name u i = staging_name u' i' -> u = u' /\ i = i'.
Proof.
  unfold staging_name. intros Hl H. apply app_inv_head in H.
  destruct (app_inj_1 _ _ _ _ Hl H) as [-> H']. by apply app_inv_head, app_inv_tail in H'.
Qed.
Lemma tmp_path_inj s l i f l' i' f' : Inv s -> file_of (heap s) l i = Some f -> file_of (heap s) l' i' = Some f' ->
  tmp_path f = tmp_path f' -> l = l' /\ i = i'.
Proof.
  intros Hi Hf Hf' Hp. destruct (fo_path _ _ _ _ _ (i_file _ Hi _ _ _ Hf)) as (u & Hu & Hn).
  destruct (fo_path _ _ _ _ _ (i_file _ Hi _ _ _ Hf')) as (u' & Hu' & Hn'). rewrite Hp, Hn' in Hn.
  apply staging_name_inj in Hn as [-> ->]; [|rewrite (i_len _ Hi _ _ Hu), (i_len _ Hi _ _ Hu'); done].
  split; [|done]. by eapply i_ids.
Qed.

(** The world is not part of it. *)
Lemma inv_world s w : Inv s -> Inv (with_world w s).
Proof. intros Hi. destruct Hi. by constructor. Qed.

(** ** The steps *)
Definition edit_at (h : gmap nat UploadSessionState) l i (g : UploadFileState -> UploadFileState) : gmap nat UploadSessionState :=
  alter (fun u => with_files (alter g i (files u)) u) l h.
Lemma id_of_alter h l (g : UploadSessionState -> UploadSessionState) l' : (forall u, s_id (g u) = s_id u) -> id_of (alter g l h) l' = id_of h l'.
Proof.
  intros Hg. unfold id_of. destruct (decide (l = l')) as [<-|Hne]; [|by rewrite lookup_alter_ne].
  rewrite lookup_alter_eq. destruct (h !! l); simpl; [by rewrite Hg|done].
Qed.
Lemma id_of_edit h l i g l' : id_of (edit_at h l i g) l' = id_of h l'.
Proof. by apply id_of_alter. Qed.
Lemma file_of_edit h l i g : file_of (edit_at h l i g) l i = g <$> file_of h l i.
Proof. unfold file_of, edit_at. rewrite lookup_alter_eq. destruct (h !! l); simpl; [|done]. by rewrite lookup_alter_eq. Qed.
Lemma file_of_edit_ne h l i g l' i' : ~ (l = l' /\ i = i') -> file_of (edit_at h l i g) l' i' = file_of h l' i'.
Proof.
  intros Hne. unfold file_of, edit_at. destruct (decide (l = l')) as [<-|?]; [|by rewrite lookup_alter_ne].
  rewrite lookup_alter_eq. destruct (h !! l); simpl; [|done]. apply lookup_alter_ne. naive_solver.
Qed.
Lemma file_of_alter h l (g : UploadSessionState -> UploadSessionState) l' i' : (forall u, files (g u) = files u) -> file_of (alter g l h) l' i' = file_of h l' i'.
Proof.
  intros Hg. unfold file_of. destruct (decide (l = l')) as [<-|?]; [|by rewrite lookup_alter_ne].
  rewrite lookup_alter_eq. destruct (h !! l); simpl; [by rewrite Hg|done].
Qed.

(** No open stream on a file. *)
Definition quiet_at s l i : Prop := forall n t, streams s !! n = Some t -> st_open t = true -> ~ (st_session t = l /\ st_file t = i).

(** What is not a file or an id of a session. *)
Lemma inv_edit_session s l (g : UploadSessionState -> UploadSessionState) :
  (forall u, s_id (g u) = s_id u) -> (forall u, files (g u) = files u) -> Inv s -> Inv (with_heap (alter g l (heap s)) s).
Proof.
  intros Hid Hfs Hi. assert (Hid' : forall l', id_of (alter g l (heap s)) l' = id_of (heap s) l') by (intros; by apply id_of_alter).
  assert (Hf' : forall l' i', file_of (alter g l (heap s)) l' i' = file_of (heap s) l' i') by (intros; by apply file_of_alter).
  destruct Hi; split; simpl; try done.
  - intros id l' Hr. rewrite Hid'. eauto.
  - intros l1 l2 id. rewrite !Hid'. eauto.
  - intros l1 id. rewrite !Hid'. eauto.
  - intros l1 i1 f. rewrite Hf'. intros Hf. destruct (i_file0 _ _ _ Hf). split; try done. by rewrite Hid'.
  - intros l1 i1 b Hb. rewrite Hf'. eauto.
  - intros n t Ht. rewrite Hf'. eauto.
  - intros l1 i1 f c. rewrite Hf'. eauto.
  - intros l1 i1 cx Hc. rewrite Hf'. eauto.
Qed.

Lemma inv_new_session s l u : Inv s -> heap s !! l = None -> files u = ∅ -> length (s_id u) = 36%nat ->
  (forall l', id_of (heap s) l' <> Some (s_id u)) -> Inv (with_heap (<[l := u]> (heap s)) s).
Proof.
  intros Hi Hl Hfs Hlen Hnew.
  assert (Hid : forall l', id_of (<[l := u]> (heap s)) l' = if decide (l = l') then Some (s_id u) else id_of (heap s) l').
  { intros l'. unfold id_of. case_decide; [subst; by rewrite lookup_insert_eq|by rewrite lookup_insert_ne]. }
  assert (Hid' : forall l' id, id_of (heap s) l' = Some id -> id_of (<[l := u]> (heap s)) l' = Some id).
  { intros l' id Hx. rewrite Hid, decide_False; [done|]. intros <-. unfold id_of in Hx. by rewrite Hl in Hx. }
  assert (Hf : forall l' i', file_of (<[l := u]> (heap s)) l' i' = file_of (heap s) l' i').
  { intros l' i'. unfold file_of. destruct (decide (l = l')) as [<-|?]; [|by rewrite lookup_insert_ne].
    rewrite lookup_insert_eq, Hl. simpl. by rewrite Hfs. }
  destruct Hi; split; simpl; try done.
  - eauto.
  - intros l1 l2 id. rewrite !Hid. repeat case_decide; try congruence; try naive_solver.
  - intros l1 id. rewrite Hid. case_decide; [by intros [= <-]|eauto].
  - intros l1 i1 f. rewrite Hf. intros Hf1. destruct (i_file0 _ _ _ Hf1) as [? (id & ? & ?) ???]. split; try done. eauto.
  - intros l1 i1 b. rewrite Hf. eauto.
  - intros n t Ht. rewrite Hf. eauto.
  - intros l1 i1 f c. rewrite Hf. eauto.
  - intros l1 i1 cx Hc. rewrite Hf. eauto.
Qed.

Lemma inv_add_file s l u f : Inv s -> heap s !! l = Some u -> files u !! file_id f = None ->
  path_filename (tmp_path f) = staging_name (s_id u) (file_id f) -> 0 <= expected_size f -> received_size f = 0 -> status f = FPending ->
  Inv (with_heap (alter (fun u => with_files (<[file_id f := f]> (files u)) u) l (heap s)) s).
Proof.
  intros Hi Hl Hnew Hname Hexp Hrec Hst. set (h := alter _ l (heap s)).
  assert (Hid : forall l', id_of h l' = id_of (heap s) l') by (intros; by apply id_of_alter).
  assert (Hf : forall l' i' g, file_of h l' i' = Some g <-> (l' = l /\ i' = file_id f /\ g = f) \/ file_of (heap s) l' i' = Some g).
  { intros l' i' g. unfold h, file_of. destruct (decide (l = l')) as [<-|?]; [|rewrite lookup_alter_ne by done; naive_solver].
    rewrite lookup_alter_eq, Hl. simpl. destruct (decide (file_id f = i')) as [<-|?].
    - rewrite lookup_insert_eq, Hnew. naive_solver.
    - rewrite lookup_insert_ne by done. naive_solver. }
  assert (Hnone : file_of (heap s) l (file_id f) = None) by (unfold file_of; by rewrite Hl).
  assert (Hb : bytes s l (file_id f) = []).
  { unfold bytes, bytes_of. destruct (streamed s !! (l, file_id f)) as [b|] eqn:Hb; [|done].
    apply (i_bytes _ Hi) in Hb. rewrite Hnone in Hb. by destruct Hb. }
  destruct Hi; split; simpl; try done.
  - intros id l' Hr. rewrite Hid. eauto.
  - intros l1 l2 id. rewrite !Hid. eauto.
  - intros l1 id. rewrite Hid. eauto.
  - intros l1 i1 g [(-> & -> & ->)|Hg]%Hf.
    + unfold bytes in Hb. split; rewrite ?Hrec, ?Hb, ?Hst; try done.
      exists (s_id u). split; [|done]. rewrite Hid. unfold id_of. by rewrite Hl.
    + destruct (i_file0 _ _ _ Hg). split; try done. by rewrite Hid.
  - intros l1 i1 b Hx. destruct (i_bytes0 _ _ _ Hx) as [g Hg]. exists g. apply Hf. by right.
  - intros n t Ht. destruct (i_streams0 _ _ Ht) as (? & ? & g & Hg & ?). split_and!; [done..|]. exists g. split; [apply Hf; by right|done].
  - intros l1 i1 g c [(-> & -> & ->)|Hg]%Hf; [by rewrite Hst|eauto].
  - intros l1 i1 cx Hc. destruct (i_committed0 _ _ _ Hc) as (g & Hg & ?). exists g. split; [apply Hf; by right|done].
Qed.

Lemma inv_status s l i f x : Inv s -> file_of (heap s) l i = Some f -> status f <> FComplete ->
  (registered s l \/ x = FComplete -> quiet_at s l i) ->
  (x = FComplete -> received_size f = expected_size f /\ forall c, staged (tmp_path f) s = Some c -> c `prefix_of` bytes s l i) ->
  Inv (with_heap (edit_at (heap s) l i (with_status x)) s).
Proof.
  intros Hi Hl Hst Hq Hc.
  assert (Hid : forall l', id_of (edit_at (heap s) l i (with_status x)) l' = id_of (heap s) l') by (intros; by apply id_of_edit).
  assert (Hf : forall l' i', file_of (edit_at (heap s) l i (with_status x)) l' i' =
            if decide (l = l' /\ i = i') then Some (with_status x f) else file_of (heap s) l' i').
  { intros. case_decide as Hd; [destruct Hd as [<- <-]; by rewrite file_of_edit, Hl|by apply file_of_edit_ne]. }
  destruct Hi; split; simpl; try done.
  - intros id l' Hr. rewrite Hid. eauto.
  - intros l1 l2 id. rewrite !Hid. eauto.
  - intros l1 id. rewrite Hid. eauto.
  - intros l1 i1 g. rewrite Hf. case_decide as Hd.
    + destruct Hd as [<- <-]. intros [= <-]. destruct (i_file0 _ _ _ Hl). split; simpl; try done; [by rewrite Hid|].
      intros ->. by apply Hc.
    + intros Hg. destruct (i_file0 _ _ _ Hg). split; try done. by rewrite Hid.
  - intros l1 i1 b Hx. rewrite Hf. case_decide; eauto.
  - intros n t Ht. destruct (i_streams0 _ _ Ht) as (? & ? & g & Hg & Ho). split_and!; [done..|]. rewrite Hf. case_decide as Hd; [|eauto].
    destruct Hd as [-> ->]. exists (with_status x f). split; [done|]. intros Hopen. assert (g = f) as -> by congruence.
    destruct (Ho Hopen). split; simpl; try done.
    + intros ->. exact (Hq (or_intror eq_refl) n t Ht Hopen (conj eq_refl eq_refl)).
    + intros Hr. destruct (Hq (or_introl Hr) n t Ht Hopen (conj eq_refl eq_refl)).
  - intros l1 i1 g c. rewrite Hf. case_decide as Hd; [destruct Hd as [<- <-]; intros [= <-]|eauto]. simpl. intros ->. by apply Hc.
  - intros l1 i1 cx Hcx. destruct (i_committed0 _ _ _ Hcx) as (g & Hg & Hgs & ?). rewrite Hf. case_decide as Hd; [|eauto].
    destruct Hd as [-> ->]. congruence.
Qed.

Lemma inv_unlink s p : Inv s -> Inv (with_disk (delete p (names s)) (inodes s) (next_inode s) s).
Proof.
  intros Hi. assert (Hn : forall p' k, delete p (names s) !! p' = Some k -> names s !! p' = Some k) by (intros p' k [_ ?]%lookup_delete_Some; done).
  destruct Hi; split; simpl; try done.
  - eauto.
  - eauto.
  - intros n t Ht. destruct (i_streams0 _ _ Ht) as (? & ? & g & Hg & Ho). split_and!; [done..|]. exists g. split; [done|].
    intros Hopen. destruct (Ho Hopen). split; simpl; eauto.
  - intros l i f c Hf Hst Hc. apply (i_complete0 _ _ _ _ Hf Hst). unfold staged in *. simpl in Hc.
    destruct (delete p (names s) !! tmp_path f) as [k|] eqn:E; [|done]. rewrite (Hn _ _ E). done.
Qed.

Lemma inv_unregister s r : Inv s -> (forall id l, r !! id = Some l -> registry s !! id = Some l) -> Inv (with_registry r s).
Proof.
  intros Hi Hr. destruct Hi; split; simpl; try done; [eauto|].
  intros n t Ht. destruct (i_streams0 _ _ Ht) as (? & ? & g & Hg & Ho). split_and!; [done..|]. exists g. split; [done|].
  intros Hopen. destruct (Ho Hopen). split; simpl; try done. intros [id Hx]. apply oo_receiving0. eauto.
Qed.
Lemma inv_register s id l : Inv s -> id_of (heap s) l = Some id -> (forall n t, streams s !! n = Some t -> st_session t <> l) ->
  Inv (with_registry (<[id := l]> (registry s)) s).
Proof.
  intros Hi Hl Hnone. destruct Hi; split; simpl; try done.
  - intros id' l' [[<- <-]|[_ Hx]]%lookup_insert_Some; eauto.
  - intros n t Ht. destruct (i_streams0 _ _ Ht) as (? & ? & g & Hg & Ho). split_and!; [done..|]. exists g. split; [done|].
    intros Hopen. destruct (Ho Hopen). split; simpl; try done.
    intros (id' & [[_ Hx]|[_ Hx]]%lookup_insert_Some); [by destruct (Hnone _ _ Ht)|eauto].
Qed.

(** The flags of a stream, and its end. *)
Definition same_output (t t' : Stream) : Prop :=
  st_session t' = st_session t /\ st_file t' = st_file t /\ st_inode t' = st_inode t /\ st_buffer t' = st_buffer t /\ st_good t' = st_good t /\
  (st_open t' = true -> st_open t = true).
Lemma inv_streams s ts k : Inv s -> (next_stream s <= k)%nat ->
  (forall n t', ts !! n = Some t' -> exists t, streams s !! n = Some t /\ same_output t t') -> Inv (with_streams ts k s).
Proof.
  intros Hi Hk Hts. destruct Hi; split; simpl; try done.
  - intros n t' Ht'. destruct (Hts _ _ Ht') as (t & Ht & Es & Ef & Ei & Eb & Eg & Eo).
    destruct (i_streams0 _ _ Ht) as (? & ? & g & Hg & Ho). rewrite Es, Ef, Ei. split_and!; [lia|done|]. exists g. split; [done|].
    intros Hopen. destruct (Ho (Eo Hopen)). unfold open_in. rewrite Es, Ef, Ei. split; rewrite ?Es, ?Ei, ?Eb, ?Eg; done.
  - intros n m t1' t2' H1 H2 O1 O2 Hsame. destruct (Hts _ _ H1) as (t1 & Ht1 & Es1 & Ef1 & Ei1 & _ & _ & Eo1).
    destruct (Hts _ _ H2) as (t2 & Ht2 & Es2 & Ef2 & Ei2 & _ & _ & Eo2). rewrite Es1, Es2, Ef1, Ef2, Ei1, Ei2 in Hsame. eauto.
Qed.
Lemma inv_committing s l i f cx : Inv s -> file_of (heap s) l i = Some f -> status f = FComplete ->
  cx_vault_id cx = f_vault_id f -> cx_path cx = vault_path f -> cx_source cx = (if 0 <? expected_size f then Some (bytes s l i) else None) ->
  Inv (with_committed (committed s ++ [(l, i, cx)]) s).
Proof.
  intros Hi Hf Hst Hv Hp Hc. destruct Hi; split; simpl; try done.
  intros l1 i1 cx1 [Hx|Hx]%elem_of_app; [eauto|]. apply list_elem_of_singleton in Hx. simplify_eq. exists f. done.
Qed.

(** *** The disk *)
Definition opened s path : nat := default (next_inode s) (names s !! path).
Definition truncated s path : Server W :=
  with_disk (<[path := opened s path]> (names s)) (<[opened s path := []]> (inodes s)) (Nat.max (next_inode s) (S (opened s path))) s.

Lemma opened_fresh s path p k : Inv s -> names s !! p = Some k -> p <> path -> k <> opened s path.
Proof.
  intros Hi Hp Hne ->. unfold opened in *. destruct (names s !! path) as [k'|] eqn:E; simpl in *.
  - apply Hne. by eapply i_names.
  - pose proof (i_inode _ Hi _ _ Hp). lia.
Qed.
Lemma opened_other s l i f n t g : Inv s -> file_of (heap s) l i = Some f -> quiet_at s l i -> streams s !! n = Some t -> st_open t = true ->
  file_of (heap s) (st_session t) (st_file t) = Some g -> st_inode t <> opened s (tmp_path f) /\ tmp_path g <> tmp_path f.
Proof.
  intros Hi Hf Hq Ht Ho Hg. destruct (i_streams _ Hi _ _ Ht) as (_ & Hk & g' & Hg' & Hok). assert (g' = g) as -> by congruence.
  assert (Hne : tmp_path g <> tmp_path f).
  { intros Heq. destruct (tmp_path_inj _ _ _ _ _ _ _ Hi Hg Hf Heq). by eapply Hq. }
  split; [|done]. unfold opened. destruct (names s !! tmp_path f) as [k|] eqn:E; simpl; [|lia].
  intros <-. apply Hne. symmetry. by apply (oo_name _ _ _ _ _ _ (Hok Ho)).
Qed.

Lemma inv_truncated s l i f : Inv s -> file_of (heap s) l i = Some f -> status f <> FComplete -> quiet_at s l i -> Inv (truncated s (tmp_path f)).
Proof.
  intros Hi Hf Hst Hq. assert (Hname : forall p k, <[tmp_path f := opened s (tmp_path f)]> (names s) !! p = Some k ->
    (p = tmp_path f /\ k = opened s (tmp_path f)) \/ (p <> tmp_path f /\ names s !! p = Some k)).
  { intros p k [[<- <-]|[? ?]]%lookup_insert_Some; auto. }
  pose proof Hi as Hi'. destruct Hi as [? ? ? ? ? Hn Hk Hs Ho Hc Hm]. unfold truncated. split; simpl; try done.
  - intros p p' k [[Hp Hx]|[Hp Hx]]%Hname [[Hp' Hx']|[Hp' Hx']]%Hname; [congruence| | |by eapply Hn].
    + by destruct (opened_fresh s (tmp_path f) p' k Hi' Hx' Hp').
    + by destruct (opened_fresh s (tmp_path f) p k Hi' Hx Hp).
  - intros p k [[-> ->]|[_ H1]]%Hname; [lia|]. pose proof (Hk _ _ H1). lia.
  - intros n t Ht. destruct (Hs _ _ Ht) as (? & ? & g & Hg & Hok). split_and!; [done|lia|]. exists g. split; [done|].
    intros Hopen. destruct (opened_other _ _ _ _ _ _ _ Hi' Hf Hq Ht Hopen Hg) as [Hne Hnp]. destruct (Hok Hopen) as [? ? Hpn Hpi ?].
    split; simpl; try done.
    + intros p [[-> ?]|[_ ?]]%Hname; [done|eauto].
    + intros k [[? _]|[_ ?]]%Hname; [done|eauto].
    + by rewrite lookup_insert_ne.
  - intros l1 i1 g c Hg Hgs Hstaged. apply (Hc _ _ _ _ Hg Hgs). unfold staged in *. simpl in Hstaged.
    destruct (decide (tmp_path g = tmp_path f)) as [Heq|Hne].
    { destruct (tmp_path_inj _ _ _ _ _ _ _ Hi' Hg Hf Heq) as [-> ->]. congruence. }
    rewrite lookup_insert_ne in Hstaged by done. destruct (names s !! tmp_path g) as [k|] eqn:E; [|done]. simpl in *.
    rewrite lookup_insert_ne in Hstaged; [done|]. intros Heq. by eapply (opened_fresh s _ _ _ Hi' E Hne).
Qed.

(** A body begins: the file's staging file is empty and nothing else writes to it. *)
Definition begun s l i (p : option Principal) (k : nat) : Server W :=
  with_streamed (<[(l, i) := []]> (streamed s))
    (with_streams (<[next_stream s := mkStream l i k true [] true p false false]> (streams s)) (S (next_stream s))
       (with_heap (edit_at (heap s) l i (fun f => with_status FReceiving (with_received 0 f))) s)).
Lemma inv_begun s l i f p k : Inv s -> file_of (heap s) l i = Some f -> status f <> FComplete -> quiet_at s l i ->
  names s !! tmp_path f = Some k -> inodes s !! k = Some [] ->
  (forall n t, streams s !! n = Some t -> st_open t = true -> st_inode t <> k) -> Inv (begun s l i p k).
Proof.
  intros Hi Hl Hst Hq Hname Hempty Hother. set (g := fun f => with_status FReceiving (with_received 0 f)).
  assert (Hid : forall l', id_of (edit_at (heap s) l i g) l' = id_of (heap s) l') by (intros; by apply id_of_edit).
  assert (Hf : forall l' i', file_of (edit_at (heap s) l i g) l' i' = if decide (l = l' /\ i = i') then Some (g f) else file_of (heap s) l' i').
  { intros. case_decide as Hd; [destruct Hd as [<- <-]; by rewrite file_of_edit, Hl|by apply file_of_edit_ne]. }
  assert (Hb : forall l' i', bytes_of (<[(l, i) := []]> (streamed s)) l' i' = if decide (l = l' /\ i = i') then [] else bytes_of (streamed s) l' i').
  { intros l' i'. unfold bytes_of. case_decide as Hd; [destruct Hd as [<- <-]; by rewrite lookup_insert_eq|].
    rewrite lookup_insert_ne; [done|]. intros [=]. auto. }
  pose proof Hi as Hi'. destruct Hi. unfold open_in in *. unfold begun, bytes in *. split; unfold open_in; unfold bytes; simpl; try done.
  - intros id l' Hr. rewrite Hid. eauto.
  - intros l1 l2 id. rewrite !Hid. eauto.
  - intros l1 id. rewrite Hid. eauto.
  - intros l1 i1 f1. rewrite Hf. case_decide as Hd.
    + intros [= <-]. destruct Hd as [<- <-]. destruct (i_file0 _ _ _ Hl) as [? ? ? ? ?].
      split; simpl; try done; [by rewrite Hid|lia|rewrite Hb, decide_True by done; done].
    + intros Hg. destruct (i_file0 _ _ _ Hg). split; try done; [by rewrite Hid|]. by rewrite Hb, decide_False.
  - intros l1 i1 b [[[= <- <-] _]|[_ Hx]]%lookup_insert_Some; rewrite Hf; [by rewrite decide_True|]. case_decide; eauto.
  - intros n t [[<- <-]|[Hne Ht]]%lookup_insert_Some; simpl.
    + split_and!; [lia|eauto|]. exists (g f). rewrite Hf, decide_True by done. split; [done|]. intros _. split; simpl; try done.
      * intros p' Hp'. eauto.
      * intros k' Hk'. congruence.
      * exists []. rewrite Hb, decide_True by done. done.
    + destruct (i_streams0 _ _ Ht) as (? & ? & g1 & Hg1 & Ho). split_and!; [lia|done|]. rewrite Hf.
      case_decide as Hd; [|exists g1; split; [done|]; intros Hopen; destruct (Ho Hopen); split; simpl; try done; by rewrite Hb, decide_False].
      exists (g f). split; [done|]. intros Hopen. destruct Hd as [? ?]. by destruct (Hq n t Ht Hopen).
  - intros n m t t' [[<- <-]|[? Ht]]%lookup_insert_Some [[<- <-]|[? Ht']]%lookup_insert_Some Hopen Hopen'; simpl; try done; [| |eauto].
    + intros [[? ?]|?]; [by destruct (Hq m t' Ht' Hopen')|]. by destruct (Hother m t' Ht' Hopen').
    + intros [[? ?]|?]; [by destruct (Hq n t Ht Hopen)|]. by destruct (Hother n t Ht Hopen).
  - intros l1 i1 f1 c. rewrite Hf. case_decide as Hd; [by intros [= <-]|]. intros Hg Hgs Hc. rewrite Hb, decide_False by done. eauto.
  - intros l1 i1 cx Hcx. destruct (i_committed0 _ _ _ Hcx) as (g1 & Hg1 & Hgs & ?). rewrite Hf, Hb. case_decide as Hd; [|eauto].
    destruct Hd as [<- <-]. congruence.
Qed.

(** An inode only one stream may write, and that stream. *)
Definition set_output s (k : nat) (c : str -> str) n (g : Stream -> Stream) : Server W :=
  with_streams (alter g n (streams s)) (next_stream s) (with_disk (names s) (alter c k (inodes s)) (next_inode s) s).
Lemma staged_alter s k c p : staged p (with_disk (names s) (alter c k (inodes s)) (next_inode s) s) =
  match names s !! p with Some k' => if decide (k = k') then c <$> (inodes s !! k') else inodes s !! k' | None => None end.
Proof.
  unfold staged. simpl. destruct (names s !! p) as [k'|]; simpl; [|done].
  case_decide as Hd; [subst; by rewrite lookup_alter_eq|by rewrite lookup_alter_ne].
Qed.

(** What a stream's output may become: closed, with the buffer's first bytes on disk, or spoiled
    while bytes are missing. *)
Definition output_step s (t t' : Stream) (c : str -> str) (f : UploadFileState) : Prop :=
  st_session t' = st_session t /\ st_file t' = st_file t /\ st_inode t' = st_inode t /\
  (st_open t' = true -> if st_good t' then exists x, inodes s !! st_inode t = Some x /\ c x ++ st_buffer t' = bytes s (st_session t) (st_file t)
                        else received_size f < expected_size f).
Lemma altered_output s n t g m t1 : streams s !! n = Some t -> st_open t = true ->
  st_session (g t) = st_session t -> st_file (g t) = st_file t -> st_inode (g t) = st_inode t ->
  alter g n (streams s) !! m = Some t1 -> st_open t1 = true ->
  exists t0, streams s !! m = Some t0 /\ st_open t0 = true /\ st_session t1 = st_session t0 /\ st_file t1 = st_file t0 /\ st_inode t1 = st_inode t0.
Proof.
  intros Hn Hopen Es Ef Ei Hm Hop. destruct (decide (n = m)) as [<-|?].
  - rewrite lookup_alter_eq, Hn in Hm. injection Hm as <-. by exists t.
  - rewrite lookup_alter_ne in Hm by done. by exists t1.
Qed.
Lemma inv_output s n t g c f : Inv s -> streams s !! n = Some t -> st_open t = true -> file_of (heap s) (st_session t) (st_file t) = Some f ->
  output_step s t (g t) c f -> Inv (set_output s (st_inode t) c n g).
Proof.
  intros Hi Hn Hopen Hf (Es & Ef & Ei & Hout). pose proof Hi as Hi'. unfold set_output.
  destruct Hi as [? ? ? ? ? ? ? Hs Ho Hc Hm]. split; simpl; try done.
  - intros m t' Ht'. destruct (decide (n = m)) as [<-|Hne].
    + rewrite lookup_alter_eq, Hn in Ht'. injection Ht' as <-. destruct (Hs _ _ Hn) as (? & ? & g1 & Hg1 & Hok).
      rewrite Es, Ef, Ei. split_and!; [done|done|]. assert (g1 = f) as -> by congruence. exists f. split; [done|].
      intros Hopen'. destruct (Hok Hopen) as [? ? ? ? _]. unfold open_in. rewrite Es, Ef, Ei.
      split; simpl; rewrite ?Es, ?Ei; try done. specialize (Hout Hopen'). destruct (st_good (g t)); [|done].
      destruct Hout as (x & Hx & Hb). exists (c x). rewrite lookup_alter_eq, Hx. done.
    + rewrite lookup_alter_ne in Ht' by done. destruct (Hs _ _ Ht') as (? & ? & g1 & Hg1 & Hok). split_and!; [done|done|].
      exists g1. split; [done|]. intros Hopen'. destruct (Hok Hopen'). split; simpl; try done.
      rewrite lookup_alter_ne; [done|]. intros Hx. apply Hne. by eapply Ho; eauto.
  - intros m m' t1 t2 H1 H2 O1 O2 Hsame.
    destruct (altered_output _ _ _ _ _ _ Hn Hopen Es Ef Ei H1 O1) as (? & ? & ? & E1 & E2 & E3).
    destruct (altered_output _ _ _ _ _ _ Hn Hopen Es Ef Ei H2 O2) as (? & ? & ? & E4 & E5 & E6).
    rewrite E1, E2, E3, E4, E5, E6 in Hsame. eauto.
  - intros l i f1 x Hf1 Hst Hx. apply (Hc _ _ _ _ Hf1 Hst). unfold staged in *. simpl in Hx.
    destruct (names s !! tmp_path f1) as [k|] eqn:E; [|done]. simpl in *. rewrite lookup_alter_ne in Hx; [done|]. intros <-.
    destruct (Hs _ _ Hn) as (_ & _ & g1 & Hg1 & Hok). destruct (Hok Hopen) as [Hnc _ Hp _ _]. specialize (Hp _ E).
    assert (g1 = f) as -> by congruence. destruct (tmp_path_inj _ _ _ _ _ _ _ Hi' Hf1 Hf Hp) as [-> ->]. congruence.
Qed.

(** Bytes arrive: they are counted and continue the output. *)
Definition counted s l i data : Server W :=
  with_streamed (<[(l, i) := bytes s l i ++ data]> (streamed s))
    (with_heap (edit_at (heap s) l i (fun f => with_received (received_size f + Z.of_nat (length data)) f)) s).
Lemma inv_received s n t g c f data : Inv s -> streams s !! n = Some t -> st_open t = true -> file_of (heap s) (st_session t) (st_file t) = Some f ->
  status f = FReceiving -> received_size f + Z.of_nat (length data) <= expected_size f ->
  st_session (g t) = st_session t -> st_file (g t) = st_file t -> st_inode (g t) = st_inode t -> st_good (g t) = true ->
  (exists x, inodes s !! st_inode t = Some x /\ c x ++ st_buffer (g t) = bytes s (st_session t) (st_file t) ++ data) ->
  Inv (counted (set_output s (st_inode t) c n g) (st_session t) (st_file t) data).
Proof.
  intros Hi Hn Hopen Hf Hst Hfit Es Ef Ei Eg Hdata. set (l := st_session t) in *. set (i := st_file t) in *.
  set (gf := fun f => with_received (received_size f + Z.of_nat (length data)) f).
  assert (Hid : forall l', id_of (edit_at (heap s) l i gf) l' = id_of (heap s) l') by (intros; by apply id_of_edit).
  assert (Hfile : forall l' i', file_of (edit_at (heap s) l i gf) l' i' = if decide (l = l' /\ i = i') then Some (gf f) else file_of (heap s) l' i').
  { intros. case_decide as Hd; [destruct Hd as [<- <-]; by rewrite file_of_edit, Hf|by apply file_of_edit_ne]. }
  assert (Hb : forall l' i', bytes_of (<[(l, i) := bytes_of (streamed s) l i ++ data]> (streamed s)) l' i' =
            if decide (l = l' /\ i = i') then bytes_of (streamed s) l i ++ data else bytes_of (streamed s) l' i').
  { intros l' i'. unfold bytes_of at 1. case_decide as Hd; [destruct Hd as [<- <-]; by rewrite lookup_insert_eq|].
    rewrite lookup_insert_ne; [done|]. intros [=]. auto. }
  pose proof Hi as Hi'. destruct Hi as [? ? ? Hfo Hby ? ? Hs Ho Hc Hm]. unfold counted, set_output. unfold open_in in *. unfold bytes in *.
  assert (Hmine : forall m t', streams s !! m = Some t' -> st_open t' = true -> n <> m -> ~ (l = st_session t' /\ i = st_file t') /\ st_inode t <> st_inode t').
  { intros m t' Ht' Hop Hne. split; intros Hx; apply Hne; eapply Ho; eauto. }
  split; unfold open_in; unfold bytes; simpl; try done.
  - intros id l' Hr. rewrite Hid. eauto.
  - intros l1 l2 id. rewrite !Hid. eauto.
  - intros l1 id. rewrite Hid. eauto.
  - intros l1 i1 f1. rewrite Hfile. case_decide as Hd.
    + intros [= <-]. destruct Hd as [<- <-]. destruct (Hfo _ _ _ Hf) as [? ? ? ? Hlen]. split; simpl; try done; [by rewrite Hid|lia|by rewrite Hst|].
      rewrite Hb, decide_True, length_app by done. lia.
    + intros Hg. destruct (Hfo _ _ _ Hg). split; try done; [by rewrite Hid|]. by rewrite Hb, decide_False.
  - intros l1 i1 b [[[= <- <-] _]|[_ Hx]]%lookup_insert_Some; rewrite Hfile; [by rewrite decide_True|]. case_decide; eauto.
  - intros m t' Ht'. destruct (decide (n = m)) as [<-|Hne].
    + rewrite lookup_alter_eq, Hn in Ht'. injection Ht' as <-. destruct (Hs _ _ Hn) as (? & ? & g1 & Hg1 & Hok). fold l i in Hg1, Hok.
      assert (g1 = f) as -> by congruence. rewrite Es, Ef, Ei. split_and!; [done|done|]. exists (gf f). rewrite Hfile, decide_True by done.
      split; [done|]. intros _. destruct (Hok Hopen) as [? ? ? ? _]. split; simpl; rewrite ?Es, ?Ei, ?Eg; try done.
      destruct Hdata as (x & Hx & Hxb). exists (c x). rewrite lookup_alter_eq, Hx, Hb, decide_True by done. done.
    + rewrite lookup_alter_ne in Ht' by done. destruct (Hs _ _ Ht') as (? & ? & g1 & Hg1 & Hok). split_and!; [done|done|].
      rewrite Hfile. case_decide as Hd.
      * exists (gf f). split; [done|]. intros Hopen'. by destruct (Hmine _ _ Ht' Hopen' Hne) as [[] _].
      * exists g1. split; [done|]. intros Hopen'. destruct (Hmine _ _ Ht' Hopen' Hne) as [_ Hk]. destruct (Hok Hopen').
        split; simpl; try done. rewrite Hb, decide_False, lookup_alter_ne by done. done.
  - intros m m' t1 t2 H1 H2 O1 O2 Hsame.
    destruct (altered_output _ _ _ _ _ _ Hn Hopen Es Ef Ei H1 O1) as (? & ? & ? & E1 & E2 & E3).
    destruct (altered_output _ _ _ _ _ _ Hn Hopen Es Ef Ei H2 O2) as (? & ? & ? & E4 & E5 & E6).
    rewrite E1, E2, E3, E4, E5, E6 in Hsame. eauto.
  - intros l1 i1 f1 x. rewrite Hfile. case_decide as Hd; [intros [= <-]; simpl; by rewrite Hst|]. intros Hf1 Hst1 Hx.
    rewrite Hb, decide_False by done. apply (Hc _ _ _ _ Hf1 Hst1). unfold staged in *. simpl in Hx.
    destruct (names s !! tmp_path f1) as [k|] eqn:E; [|done]. simpl in *. rewrite lookup_alter_ne in Hx; [done|]. intros <-.
    destruct (Hs _ _ Hn) as (_ & _ & g1 & Hg1 & Hok). destruct (Hok Hopen) as [Hnc _ Hp _ _]. specialize (Hp _ E).
    assert (g1 = f) as -> by (fold l i in Hg1; congruence). destruct (tmp_path_inj _ _ _ _ _ _ _ Hi' Hf1 Hf Hp) as [-> ->]. by apply Hd.
  - intros l1 i1 cx Hcx. destruct (Hm _ _ _ Hcx) as (g1 & Hg1 & Hgs & ?). rewrite Hfile, Hb. case_decide as Hd; [|eauto].
    destruct Hd as [<- <-]. congruence.
Qed.
End Invariant.

(** ** The operations *)
Create HintDb uploads.

Section Operations.
Context {W : Type} `{Outside W} `{Registry} `{ArrayText} `{UploadOutside W} `{TargetEntryProvider W} `{Staging}.
Context (hash : str -> str) (options : ManagerOptions).
Notation M A := (Monad.M (Server W) Error A).
Implicit Types (s : Server W) (P : Server W -> Prop).

(** *** Computations that change the world only *)
Definition moved s s' : Prop := exists w, s' = with_world w s.
#[export] Instance moved_preorder : PreOrder moved.
Proof.
  split.
  - intros [? ? ? ? ? ? ? w ? ?]. by exists w.
  - intros s1 s2 s3 [w1 ->] [w2 ->]. by exists w2.
Qed.
Definition worldly {A} (m : M A) : Prop := ensures moved m.
Definition stable P : Prop := forall s w, P s -> P (with_world w s).

Lemma worldly_frame {A} P (m : M A) : worldly m -> stable P -> hoare P m (fun _ => P) P.
Proof. intros Hm HP s Hs. destruct (Hm s) as [w Hw]. destruct (m s) as [[a|e] s']; simpl in *; subst; by apply HP. Qed.

Lemma worldly_bind {A B} (m : M A) (k : A -> M B) : worldly m -> (forall a, worldly (k a)) -> worldly (bind m k).
Proof. apply (ensures_bind moved). Qed.
Lemma worldly_handle {A} (m : M A) h : worldly m -> (forall e, worldly (h e)) -> worldly (handle m h).
Proof. apply (ensures_handle moved). Qed.
Lemma worldly_for_each {A} (l : list A) (f : A -> M unit) : (forall x, worldly (f x)) -> worldly (for_each l f).
Proof. apply (ensures_for_each moved). Qed.
Lemma worldly_ret {A} (a : A) : worldly (ret a).
Proof. apply (ensures_ret moved). Qed.
Lemma worldly_throw {A} (e : Error) : worldly (throw (A := A) e).
Proof. apply (ensures_throw moved). Qed.
Lemma worldly_reads {A} (f : Server W -> result Error A) : worldly (reads f).
Proof. intros s. reflexivity. Qed.
Lemma worldly_get : worldly get.
Proof. intros s. reflexivity. Qed.
Lemma worldly_outside_do {A} (f : W -> A * W) : worldly (outside_do f).
Proof. intros s. unfold outside_do. destruct (f _). by eexists. Qed.
Lemma worldly_outside_try {A} (f : W -> result Error A * W) : worldly (outside_try f).
Proof. intros s. unfold outside_try. destruct (f _). by eexists. Qed.
Lemma worldly_in_world {A} (m : Monad.M (World W) Error A) : worldly (in_world m).
Proof. intros s. unfold in_world. destruct (m _). by eexists. Qed.
End Operations.
#[export] Hint Resolve worldly_ret worldly_throw worldly_reads worldly_get worldly_outside_do worldly_outside_try worldly_in_world : uploads.
#[export] Hint Unfold ask tell pure demand quiet session_at file_at uploadClock directories stream_at engineFor resolve_target : uploads.
Ltac worldly_step :=
  lazymatch goal with
  | |- worldly (bind _ _) => apply worldly_bind; [|intros ?]
  | |- worldly (handle _ _) => apply worldly_handle; [|intros ?]
  | |- worldly (for_each _ _) => apply worldly_for_each; intros ?
  | |- worldly (if ?b then _ else _) => destruct b
  | |- worldly (match ?x with _ => _ end) => destruct x
  | |- _ => first [solve [auto with uploads] | progress autounfold with uploads]
  end.
Ltac worldly := repeat worldly_step.

Section Operations.
Context {W : Type} `{Outside W} `{Registry} `{ArrayText} `{UploadOutside W} `{TargetEntryProvider W} `{Staging}.
Context (hash : str -> str) (options : ManagerOptions).
Notation M A := (Monad.M (Server W) Error A).
Implicit Types (s : Server W) (P : Server W -> Prop).

Lemma worldly_resolver r : worldly (sessionResolver (W := W) r).
Proof. unfold sessionResolver, defaultSessionResolver. worldly. Qed.
Lemma worldly_refresh session : worldly (refreshSharePrincipal hash session).
Proof. unfold refreshSharePrincipal. worldly. Qed.
Lemma worldly_directories path : worldly (directories (W := W) path).
Proof. worldly. Qed.
Lemma worldly_fail_upload p i r : worldly (fail_upload p i r).
Proof. unfold fail_upload. worldly. Qed.
Lemma worldly_failShare f r : worldly (failShareUploadIfNeeded f r).
Proof. unfold failShareUploadIfNeeded, fail_upload. worldly. Qed.
Lemma worldly_cancelShare f : worldly (cancelShareUploadIfNeeded f).
Proof. unfold cancelShareUploadIfNeeded. worldly. Qed.
Lemma worldly_no_existing a v p : worldly (ensureNoExistingShareTarget a v p).
Proof. unfold ensureNoExistingShareTarget. worldly. Qed.
Lemma worldly_reserve p v n m : worldly (reserveUploadSpace p v n m).
Proof. unfold reserveUploadSpace. worldly. Qed.
Lemma worldly_write_permission u v p : worldly (enforceHumanWritePermission u v p).
Proof. unfold enforceHumanWritePermission. worldly. Qed.
Lemma worldly_stagingFor u f v p : worldly (stagingFor u f v p).
Proof. unfold stagingFor. worldly. Qed.
Lemma worldly_evict f : worldly (let! known := ask (cached (fuse_from f)) in
  if negb (is_empty (fuse_from f)) && known then tell (evictPath (fuse_from f)) else ret tt).
Proof. worldly. Qed.

(** *** What cleaning up keeps: a predicate closed under its steps *)
Record soft P : Prop := {
  soft_world : stable P;
  soft_unlink : forall s p, P s -> P (with_disk (delete p (names s)) (inodes s) (next_inode s) s);
  soft_meta : forall s l g, (forall u, s_id (g u) = s_id u) -> (forall u, files (g u) = files u) -> P s -> P (with_heap (alter g l (heap s)) s) }.
Lemma soft_inv : soft Inv.
Proof. split; [intros ??; apply inv_world|intros ??; apply inv_unlink|intros ????? ; by apply inv_edit_session]. Qed.
Lemma soft_and P P' : soft P -> soft P' -> soft (fun s => P s /\ P' s).
Proof. intros [] []. split; [intros ?? []|intros ?? []|intros ????? []]; split; auto. Qed.

Record calm P : Prop := {
  calm_world : stable P;
  calm_unlink : forall s p, P s -> P (with_disk (delete p (names s)) (inodes s) (next_inode s) s) }.
Lemma soft_calm P : soft P -> calm P.
Proof. intros []. by split. Qed.
Lemma calm_and P P' : calm P -> calm P' -> calm (fun s => P s /\ P' s).
Proof. intros [] []. split; [intros ?? []|intros ?? []]; split; auto. Qed.

Lemma remove_file_frame P p : calm P -> hoare P (remove_file p) (fun _ => P) P.
Proof.
  intros HP. unfold remove_file. eapply hoare_bind; [apply worldly_frame; [worldly|apply HP]|]. intros []; [|apply (hoare_ret tt (fun _ => P))].
  intros s Hs. by apply HP.
Qed.
Lemma cleanupFile_frame P f : calm P -> hoare P (cleanupFile f) (fun _ => P) P.
Proof.
  intros HP. unfold cleanupFile. eapply hoare_bind; [by apply remove_file_frame|]. intros ?. apply worldly_frame; [apply worldly_evict|apply HP].
Qed.
Lemma touch_frame P l : soft P -> hoare P (touchUploadSession l) (fun _ => P) P.
Proof.
  intros HP. unfold touchUploadSession. eapply hoare_bind; [apply worldly_frame; [worldly|apply HP]|]. intros t s Hs. by apply HP.
Qed.
Lemma quiet_frame P (m : M unit) Q : hoare P m (fun _ => P) Q -> (forall s, Q s -> P s) -> hoare P (quiet m) (fun _ => P) P.
Proof. intros Hm HQ. eapply hoare_handle; [exact Hm|]. intros e. intros s Hs. simpl. auto. Qed.
Lemma resolveAndVerify_frame P r l : soft P -> hoare P (resolveAndVerify r l) (fun _ => P) P.
Proof.
  intros HP. unfold resolveAndVerify. eapply hoare_bind; [apply worldly_frame; [apply worldly_resolver|apply HP]|]. intros session.
  do 2 (eapply hoare_bind; [apply worldly_frame; [worldly|apply HP]|]; intros ?).
  eapply hoare_bind; [by apply touch_frame|]. intros ?. apply (hoare_ret session (fun _ => P)).
Qed.

Lemma session_at_spec P l : hoare P (session_at l) (fun u s => P s /\ heap s !! l = Some u) P.
Proof. eapply hoare_conseq; [apply hoare_reads|done| |done]. intros u s [? Hu]. split; [done|]. by destruct (heap s !! l); simplify_eq. Qed.
Lemma file_at_spec P l i : hoare P (file_at l i) (fun f s => P s /\ file_of (heap s) l i = Some f) P.
Proof.
  unfold file_at, file_of. intros s Hs. pose proof (session_at_spec P l s Hs) as Hu. unfold bind.
  destruct (session_at l s) as [[u|e] s'] eqn:E; [|done]. destruct Hu as [Hs' Hu].
  assert (s' = s) as -> by by injection E. unfold pure, reads. destruct (files u !! i) eqn:F; [|done]. split; [done|]. by rewrite Hu.
Qed.
Lemma stream_at_spec P i : hoare P (stream_at i) (fun t s => P s /\ streams s !! i = Some t) P.
Proof. intros s Hs. unfold stream_at, reads. destruct (streams s !! i); done. Qed.
Lemma pure_spec {A} P (r : result Error A) : hoare P (pure r) (fun a s => P s /\ r = Ok a) P.
Proof. intros s Hs. unfold pure, reads. by destruct r. Qed.
Lemma demand_spec P b e : hoare P (demand (W := W) b e) (fun _ s => P s /\ b = true) P.
Proof. intros s Hs. unfold demand, pure, reads. by destruct b. Qed.

(** *** Cleaning up a session *)
Section Cleanup.
Context (P : Server W -> Prop) (HP : calm P) (mark : bool).
(** Files are only marked failed where no request can reopen them. *)
Context (Hmark : mark = true -> forall s l i, P s -> ~ registered s l /\ P (with_heap (edit_at (heap s) l i (with_status FFailed)) s)).
Let PI s := Inv s /\ P s.
Let calm_PI : calm PI.
Proof. apply calm_and; [apply soft_calm, soft_inv|done]. Qed.

Lemma cleanup_one_frame l mode reason fc rt i : hoare PI (cleanup_one l mode reason fc rt mark i) (fun _ => PI) PI.
Proof.
  unfold cleanup_one. eapply hoare_bind; [apply file_at_spec|]. intros f.
  eapply (hoare_bind _ _ _ (fun _ => PI)).
  { destruct mark eqn:Em; simpl; [|intros s [? _]; done]. destruct (status f !== FComplete) eqn:Ef; [|intros s [? _]; done]. bsimpl.
    intros s [[Hi Hs] Hf]. destruct (Hmark eq_refl s l i Hs) as [Hr Hs']. split; [|done].
    eapply inv_status; [done|exact Hf|done|intros [?|?]; done|done]. }
  intros ?. eapply hoare_bind; [apply (worldly_frame PI); [worldly|apply calm_PI]|]. intros f'.
  eapply hoare_bind; [|intros ?; apply worldly_frame; [|apply calm_PI]; destruct (_ && _); [apply worldly_failShare|worldly]].
  destruct rt; [apply cleanupFile_frame, calm_PI|apply (hoare_ret tt (fun _ => PI))].
Qed.
Lemma cleanupSession_frame l reason fc rt : hoare PI (cleanupSession l reason fc rt mark) (fun _ => PI) PI.
Proof.
  unfold cleanupSession. eapply quiet_frame; [|done]. eapply hoare_bind; [apply (worldly_frame PI); [worldly|apply calm_PI]|]. intros u.
  apply hoare_for_each. intros i _. apply cleanup_one_frame.
Qed.
End Cleanup.

(** *** Expiry and lookup *)
Lemma unmarked P : false = true -> forall s l i, P s -> ~ registered s l /\ P (with_heap (edit_at (heap s) l i (with_status FFailed)) s).
Proof. done. Qed.

Definition shrinks P : Prop := forall s r, (forall id l, r !! id = Some l -> registry s !! id = Some l) -> P s -> P (with_registry r s).
Lemma shrinks_inv : shrinks Inv.
Proof. intros s r Hr Hi. by apply inv_unregister. Qed.
Lemma erase_frame P id : shrinks P -> hoare P (erase id) (fun _ => P) P.
Proof. intros HP s Hs. apply HP; [|done]. by intros i l [_ ?]%lookup_delete_Some. Qed.

Lemma expire_frame P : calm P -> shrinks P ->
  hoare (fun s => Inv s /\ P s) cleanupExpiredSessionsLocked (fun _ s => Inv s /\ P s) (fun s => Inv s /\ P s).
Proof.
  intros HP Hr. assert (calm (fun s => Inv s /\ P s)) as HPI by (apply calm_and; [apply soft_calm, soft_inv|done]).
  unfold cleanupExpiredSessionsLocked. eapply hoare_bind; [apply (worldly_frame (fun s => Inv s /\ P s)); [worldly|apply HPI]|]. intros now.
  eapply hoare_bind; [apply (worldly_frame (fun s => Inv s /\ P s)); [worldly|apply HPI]|]. intros s0.
  apply (quiet_frame _ _ (fun s => Inv s /\ P s)); [|done]. apply hoare_for_each. intros [id l] _. unfold expire_one. simpl.
  eapply hoare_bind; [apply (worldly_frame (fun s => Inv s /\ P s)); [worldly|apply HPI]|]. intros u.
  destruct (uploadSessionExpired u now); [|apply (hoare_ret tt (fun _ s => Inv s /\ P s))].
  eapply hoare_bind; [apply cleanupSession_frame; [done|apply unmarked]|]. intros ?.
  apply erase_frame. intros s r Hsub [Hi Hs]. split; [by apply inv_unregister|by apply Hr].
Qed.
Lemma findSession_spec P id : calm P -> shrinks P ->
  hoare (fun s => Inv s /\ P s) (findSession id) (fun l s => (Inv s /\ P s) /\ registry s !! id = Some l) (fun s => Inv s /\ P s).
Proof.
  intros HP Hr. unfold findSession. eapply hoare_bind; [by apply expire_frame|]. intros ?.
  eapply hoare_bind; [apply hoare_get|]. intros s0. destruct (registry s0 !! id) as [l|] eqn:E.
  - intros s [Hs <-]. done.
  - intros s [Hs <-]. done.
Qed.
Lemma soft_registered id l : soft (fun s => registry s !! id = Some l).
Proof. split; repeat intro; eauto. Qed.

(** *** The life of a stream *)
Definition live_open s : Prop := forall n t, streams s !! n = Some t -> st_finished t = false -> st_failed t = false -> st_open t = true.
(** As left by an exception: the stream itself may be closed, and then its file has failed. *)
Definition ready n s : Prop := forall t, streams s !! n = Some t -> st_finished t = false -> st_failed t = false ->
  st_open t = true \/ exists f, file_of (heap s) (st_session t) (st_file t) = Some f /\ status f = FFailed.
Definition live_except n s : Prop := forall m t, m <> n -> streams s !! m = Some t -> st_finished t = false -> st_failed t = false -> st_open t = true.
Lemma soft_live : soft live_open.
Proof. split; repeat intro; eauto. Qed.
Lemma shrinks_live : shrinks live_open.
Proof. repeat intro; eauto. Qed.
Lemma soft_live_except n : soft (live_except n).
Proof. split; repeat intro; eauto. Qed.

Lemma quiet_registered s l i f : Inv s -> registered s l -> file_of (heap s) l i = Some f -> status f <> FReceiving -> quiet_at s l i.
Proof.
  intros Hi Hr Hf Hst n t Ht Ho [<- <-]. destruct (i_streams _ Hi _ _ Ht) as (_ & _ & g & Hg & Hok).
  assert (g = f) as -> by congruence. by apply Hst, (oo_receiving _ _ _ _ _ _ (Hok Ho)).
Qed.
Lemma openable_ok m f n u : openable m f n = Ok u -> status f <> FComplete /\ status f <> FReceiving.
Proof. unfold openable. repeat case_if; try done. intros _. bsimpl. done. Qed.

Lemma open_staging_spec P path why : stable P ->
  hoare P (open_staging path why) (fun k s' => exists s, P s /\ s' = truncated s path /\ k = opened s path) P.
Proof.
  intros HP. unfold open_staging. eapply hoare_bind; [by apply worldly_frame; [apply worldly_directories|]|]. intros ?.
  eapply hoare_bind; [apply worldly_frame; [worldly|done]|]. intros ok.
  eapply hoare_bind; [apply demand_spec|]. intros ? s [Hs _]. by exists s.
Qed.

Definition good s : Prop := Inv s /\ live_open s.
Lemma soft_good : soft good.
Proof. apply soft_and; [apply soft_inv|apply soft_live]. Qed.
Lemma stable_good : stable good.
Proof. apply soft_good. Qed.

Lemma begun_good s l i f p : Inv s -> live_open s -> registered s l -> file_of (heap s) l i = Some f -> status f <> FComplete -> status f <> FReceiving ->
  good (begun (truncated s (tmp_path f)) l i p (opened s (tmp_path f))).
Proof.
  intros Hi Hl Hr Hf Hc Hrc. pose proof (quiet_registered _ _ _ _ Hi Hr Hf Hrc) as Hq. split.
  - eapply inv_begun; [by eapply inv_truncated|exact Hf|done|done| | |].
    + simpl. apply lookup_insert_eq.
    + simpl. apply lookup_insert_eq.
    + intros n t Ht Ho. simpl in Ht. destruct (i_streams _ Hi _ _ Ht) as (_ & _ & g & Hg & _).
      by destruct (opened_other _ _ _ _ _ _ _ Hi Hf Hq Ht Ho Hg).
  - intros n t. simpl. intros [[<- <-]|[_ Ht]]%lookup_insert_Some; [done|]. by apply Hl in Ht.
Qed.
(** A body being received: its stream is in use, and these bytes have come so far. *)
Definition running n l i (b : str) s : Prop := exists t, streams s !! n = Some t /\ st_session t = l /\ st_file t = i /\
  st_finished t = false /\ st_failed t = false /\ bytes s l i = b.
Lemma soft_running n l i b : soft (running n l i b).
Proof. split; repeat intro; assumption. Qed.

Lemma beginFile_spec r len : hoare good (beginFile hash r len)
  (fun n s => good s /\ exists parsed l, parseUploadFileTarget (rq_target r) = Ok parsed /\ registry s !! upload_id parsed = Some l /\
                running n l (file_id_ parsed) [] s) good.
Proof.
  unfold beginFile. eapply hoare_bind; [apply (pure_spec good)|]. intros parsed. apply hoare_fact. intros Hparsed.
  eapply hoare_bind; [apply findSession_spec; [apply soft_calm, soft_live|apply shrinks_live]|]. intros l.
  set (P := fun s => (Inv s /\ live_open s) /\ registry s !! upload_id parsed = Some l).
  assert (HP : soft P) by (apply soft_and; [apply soft_good|apply soft_registered]).
  assert (Hgood : forall A (m : M A) Q, hoare P m Q P -> hoare P m Q good).
  { intros A m Q Hm. eapply hoare_conseq; [exact Hm|done|done|]. by intros s [? _]. }
  eapply hoare_bind; [apply Hgood, (resolveAndVerify_frame P), HP|]. intros session.
  eapply hoare_bind; [apply Hgood, (worldly_frame P); [worldly|apply HP]|]. intros u.
  eapply hoare_bind; [apply Hgood, (worldly_frame P); [destruct (s_mode u == ShareMode); [apply worldly_bind; [apply worldly_refresh|intros ?; worldly]|worldly]|apply HP]|].
  intros principal. eapply hoare_bind; [apply Hgood, file_at_spec|]. intros f.
  set (P' := fun s => P s /\ file_of (heap s) l (file_id_ parsed) = Some f).
  assert (HP' : stable P') by (intros s w [? ?]; split; [by apply HP|done]).
  eapply hoare_bind; [eapply hoare_err; [apply (pure_spec P')|by intros s [[? _] _]]|]. intros ok.
  eapply hoare_bind; [eapply hoare_err; [apply (open_staging_spec (fun s => P' s /\ openable (s_mode u) f len = Ok ok))|by intros s [[[? _] _] _]]|].
  { intros s w [? ?]. split; [by apply HP'|done]. }
  intros k s' (s & ((([Hi Hl] & Hr) & Hf) & Hok) & -> & ->). apply openable_ok in Hok as [Hc Hrc].
  split; [exact (begun_good s l (file_id_ parsed) f principal Hi Hl (ex_intro _ (upload_id parsed) Hr) Hf Hc Hrc)|].
  exists parsed, l. split_and!; [done|exact Hr|]. eexists. split; [apply lookup_insert_eq|]. split_and!; try done.
  unfold bytes, bytes_of. simpl. by rewrite lookup_insert_eq.
Qed.
Lemma beginFile_good r len : hoare good (beginFile hash r len) (fun _ => good) good.
Proof. eapply hoare_conseq; [apply beginFile_spec|done|by intros n s [? _]|done]. Qed.

Lemma moved_outside_do {A} (f : W -> A * W) s : exists a w, outside_do f s = (Ok a, with_world w s).
Proof. unfold outside_do. destruct (f _) as [a o]. by eexists _, _. Qed.
Lemma stream_at_run i t s : streams s !! i = Some t -> stream_at i s = (Ok t, s).
Proof. intros Ht. unfold stream_at, reads. by rewrite Ht. Qed.

Lemma file_at_run l i f s : file_of (heap s) l i = Some f -> file_at l i s = (Ok f, s).
Proof.
  unfold file_of. destruct (heap s !! l) as [u|] eqn:Eu; simpl; [|done]. intros Hf. unfold file_at.
  rewrite (bind_run _ _ s u s); [unfold pure, reads; by rewrite Hf|]. unfold session_at, reads. by rewrite Eu.
Qed.
Lemma out_write_run i t data s : streams s !! i = Some t -> st_open t = true -> exists w s', out_write i data s = (Ok tt, s') /\
  ((exists k, st_good t = true /\
      s' = set_output (with_world w s) (st_inode t) (fun c => c ++ take k (st_buffer t ++ data)) i (stream_out true (drop k (st_buffer t ++ data)) true)) \/
   (exists c, s' = set_output (with_world w s) (st_inode t) c i (stream_out true [] false))).
Proof.
  intros Ht Ho. unfold out_write. rewrite (bind_run _ _ _ _ _ (stream_at_run _ _ _ Ht)), Ho. cbn [negb].
  destruct (moved_outside_do (flushes (length (st_buffer t ++ data))) s) as ([k ok] & w & E). rewrite (bind_run _ _ _ _ _ E).
  destruct (st_good t && ok) eqn:Eg; (exists w; eexists; split; [cbn; unfold bind, ask, reads; cbn; rewrite Eg; reflexivity|]).
  - left. exists k. bsimpl. done.
  - right. by eexists.
Qed.
Lemma out_close_run i t s : streams s !! i = Some t -> exists w s', out_close i s = (Ok tt, s') /\
  ((st_open t = false /\ s' = s) \/
   (st_open t = true /\ exists k, s' = set_output (with_world w s) (st_inode t) (fun c => c ++ take k (st_buffer t)) i (stream_out false [] (st_good t)))).
Proof.
  intros Ht. unfold out_close. rewrite (bind_run _ _ _ _ _ (stream_at_run _ _ _ Ht)). destruct (st_open t) eqn:Ho.
  - destruct (moved_outside_do (closes (length (st_buffer t))) s) as (k & w & E). rewrite (bind_run _ _ _ _ _ E).
    exists w. eexists. split; [reflexivity|]. right. split; [done|]. by exists k.
  - exists (world s), s. split; [done|]. by left.
Qed.

Lemma write_data_good i t data f s : good s -> streams s !! i = Some t -> st_open t = true -> file_of (heap s) (st_session t) (st_file t) = Some f ->
  status f = FReceiving -> received_size f + Z.of_nat (length data) <= expected_size f -> data <> [] ->
  match (out_write i data;; let! after := stream_at i in
         demand (st_good after) (ERuntime $"Unable to write upload body");;
         count_bytes (st_session t) (st_file t) data;; ret (share_upload_id f)) s with
  | (Ok _, s') => good s' /\ exists w c g, s' = counted (set_output (with_world w s) (st_inode t) c i g) (st_session t) (st_file t) data /\
                    st_session (g t) = st_session t /\ st_file (g t) = st_file t /\ st_finished (g t) = st_finished t /\ st_failed (g t) = st_failed t
  | (Err _, s') => good s'
  end.
Proof.
  intros [Hi Hl] Ht Ho Hf Hst Hfit Hne. destruct (out_write_run i t data s Ht Ho) as (w & s' & E & Hout). rewrite (bind_run _ _ _ _ _ E).
  pose proof (inv_world _ w Hi) as Hiw. assert (Hlive : forall c g, st_open (g t) = true -> live_open (set_output (with_world w s) (st_inode t) c i g)).
  { intros c g Hg n t'. simpl. destruct (decide (i = n)) as [<-|?]; [rewrite lookup_alter_eq, Ht; simpl; intros [= <-]; done|].
    rewrite lookup_alter_ne by done. apply Hl. }
  destruct (i_streams _ Hi _ _ Ht) as (_ & _ & f' & Hf' & Hok). assert (f' = f) as -> by congruence. specialize (Hok Ho).
  destruct Hout as [(k & Hg & ->)|(c & ->)].
  - erewrite bind_run by (apply stream_at_run; simpl; by rewrite lookup_alter_eq, Ht). split; [split; [|by apply Hlive]|by eexists w, _, _].
    pose proof (oo_data _ _ _ _ _ _ Hok) as Hd. rewrite Hg in Hd. destruct Hd as (x & Hx & Hb).
    refine (inv_received (with_world w s) i t (stream_out true (drop k (st_buffer t ++ data)) true) (fun c => c ++ take k (st_buffer t ++ data)) f data
      Hiw Ht Ho Hf Hst Hfit eq_refl eq_refl eq_refl eq_refl _).
    exists x. split; [done|]. simpl. rewrite <- app_assoc, take_drop, app_assoc, Hb. done.
  - erewrite bind_run by (apply stream_at_run; simpl; by rewrite lookup_alter_eq, Ht). simpl. split; [|by apply Hlive].
    eapply inv_output; [exact Hiw|exact Ht|done|exact Hf|]. split_and!; try done. simpl. intros _.
    destruct data; [done|]. simpl in Hfit. lia.
Qed.
Lemma write_spec i l fi b data : hoare (fun s => good s /\ running i l fi b s) (write i data) (fun _ s => good s /\ running i l fi (b ++ data) s) good.
Proof.
  set (P b s := good s /\ running i l fi b s).
  assert (HP : forall b, soft (P b)) by (intros b'; apply soft_and; [apply soft_good|apply soft_running]).
  unfold write. eapply hoare_bind; [eapply hoare_err; [apply (stream_at_spec (P b))|by intros s [? _]]|]. intros t.
  eapply hoare_bind; [eapply hoare_err; [apply (demand_spec (fun s => P b s /\ streams s !! i = Some t))|by intros s [[? _] _]]|]. intros ?.
  destruct data as [|x data0] eqn:Edata; [rewrite app_nil_r; by intros s [[? _] _]|]. rewrite <- Edata. cbn [is_empty].
  replace (is_empty data) with false by by rewrite Edata.
  eapply (hoare_bind _ _ _ (fun _ => P (b ++ data))).
  - unfold write_data. set (Q := fun s => (P b s /\ streams s !! i = Some t) /\ negb (st_finished t || st_failed t) = true).
    eapply hoare_bind; [eapply hoare_err; [apply (file_at_spec Q)|by intros s [[[? _] _] _]]|]. intros f.
    do 2 (eapply hoare_bind; [eapply hoare_err; [apply demand_spec|unfold Q, P; cbv beta; tauto]|]; intros ?).
    intros s ((((([[Hi Hl] (t' & Ht' & <- & <- & Hfi & Hfa & Hb)] & Ht) & Hn) & Hf) & Hst) & Hfit). assert (t' = t) as -> by congruence.
    bsimpl. pose proof (write_data_good i t data f s (conj Hi Hl) Ht (Hl _ _ Ht Hfi Hfa) Hf Hst ltac:(lia) ltac:(by rewrite Edata)) as Hg.
    destruct ((out_write i data;; _) s) as [[x0|e] s'] eqn:E; [|exact Hg]. destruct Hg as [Hg (w & c & g & -> & Es & Ef & Efi & Efa)].
    split; [done|]. exists (g t). simpl. rewrite lookup_alter_eq, Ht. split_and!; [done|done|done|congruence|congruence|].
    unfold bytes, bytes_of in *. simpl. by rewrite lookup_insert_eq, <- Hb.
  - intros u. eapply hoare_bind; [eapply hoare_err; [apply touch_frame, HP|by intros s [? _]]|]. intros ?.
    eapply hoare_err; [apply worldly_frame; [|apply HP]|by intros s [? _]]. destruct (st_principal t); worldly.
Qed.
Lemma write_good i data : hoare good (write i data) (fun _ => good) good.
Proof.
  intros s Hs. destruct (streams s !! i) as [t|] eqn:Ht.
  - destruct (st_finished t || st_failed t) eqn:Hclosed.
    + unfold write. rewrite (bind_run _ _ _ _ _ (stream_at_run _ _ _ Ht)), Hclosed. exact Hs.
    + apply orb_false_iff in Hclosed as [Hfi Hfa].
      pose proof (write_spec i (st_session t) (st_file t) _ data s (conj Hs (ex_intro _ t (conj Ht (conj eq_refl (conj eq_refl (conj Hfi (conj Hfa eq_refl)))))))) as Hw.
      destruct (write i data s) as [[?|?] s']; [by destruct Hw|done].
  - unfold write, bind, stream_at, reads. by rewrite Ht.
Qed.

(** Ending a stream leaves nothing open on its file. *)
Lemma closed_quiet s i t c g : Inv s -> streams s !! i = Some t -> st_open t = true -> st_open (g t) = false ->
  quiet_at (set_output s (st_inode t) c i g) (st_session t) (st_file t).
Proof.
  intros Hi Ht Ho Hg n t'. simpl. destruct (decide (i = n)) as [<-|Hne].
  - rewrite lookup_alter_eq, Ht. simpl. intros [= <-]. congruence.
  - rewrite lookup_alter_ne by done. intros Ht' Ho' [? ?]. apply Hne. eapply (i_one _ Hi i n t t'); eauto.
Qed.
Lemma close_inv s i t k : Inv s -> streams s !! i = Some t -> st_open t = true ->
  Inv (set_output s (st_inode t) (fun c => c ++ take k (st_buffer t)) i (stream_out false [] (st_good t))).
Proof.
  intros Hi Ht Ho. destruct (i_streams _ Hi _ _ Ht) as (_ & _ & f & Hf & _). by eapply inv_output.
Qed.

(** The two ends of a body: short, or complete with its bytes on disk. *)
Definition ended s i t k x : Server W :=
  let s1 := set_output s (st_inode t) (fun c => c ++ take k (st_buffer t)) i (stream_out false [] (st_good t)) in
  with_heap (edit_at (heap s1) (st_session t) (st_file t) (with_status x)) s1.
Lemma ended_inv s i t k f x : Inv s -> streams s !! i = Some t -> st_open t = true -> file_of (heap s) (st_session t) (st_file t) = Some f ->
  (x = FComplete -> received_size f = expected_size f) -> Inv (ended s i t k x).
Proof.
  intros Hi Ht Ho Hf Hx. destruct (i_streams _ Hi _ _ Ht) as (_ & _ & f' & Hf' & Hok). assert (f' = f) as -> by congruence. specialize (Hok Ho).
  unfold ended. eapply inv_status; [by apply close_inv|exact Hf|apply Hok|intros _; by apply closed_quiet|].
  intros Hc. specialize (Hx Hc). split; [done|]. intros c Hstaged.
  pose proof (oo_data _ _ _ _ _ _ Hok) as Hd. destruct (st_good t); [|lia]. destruct Hd as (y & Hy & Hb).
  unfold set_output, staged in Hstaged. simpl in Hstaged. destruct (names s !! tmp_path f) as [k'|] eqn:Ek; [|done]. simpl in Hstaged.
  rewrite (oo_inode _ _ _ _ _ _ Hok _ Ek), lookup_alter_eq, Hy in Hstaged. injection Hstaged as <-.
  change (y ++ take k (st_buffer t) `prefix_of` bytes s (st_session t) (st_file t)). rewrite <- Hb.
  exists (drop k (st_buffer t)). by rewrite <- app_assoc, take_drop.
Qed.
Lemma ended_live s i t k x : live_open s -> live_except i (ended s i t k x).
Proof. intros Hl m t' Hne Ht'. simpl in Ht'. rewrite lookup_alter_ne in Ht' by done. by eapply Hl. Qed.
Lemma touch_run l s : exists t w, touchUploadSession l s = (Ok tt, with_heap (alter (with_activity t) l (heap s)) (with_world w s)).
Proof.
  unfold touchUploadSession, uploadClock. destruct (moved_outside_do steady_now s) as (t & w & E). rewrite (bind_run _ _ _ _ _ E). by exists t, w.
Qed.

Definition closed_complete s i t k tm w : Server W :=
  let s2 := ended s i t k FComplete in
  let s3 := with_heap (alter (with_activity tm) (st_session t) (heap s2)) (with_world w s2) in
  with_streams (alter stream_finished i (streams s3)) (next_stream s3) s3.
Lemma finish_run i t f s : streams s !! i = Some t -> st_finished t = false -> st_failed t = false -> st_open t = true ->
  file_of (heap s) (st_session t) (st_file t) = Some f -> exists w k,
  if received_size f =? expected_size f
  then exists tm w2, finish i s = (Ok (Some (fileResponseJson (with_status FComplete f))), closed_complete (with_world w s) i t k tm w2)
  else finish i s = (Err (ERuntime $"Upload size mismatch"), ended (with_world w s) i t k FFailed).
Proof.
  intros Ht Hfi Hfa Ho Hf. unfold finish. rewrite (bind_run _ _ _ _ _ (stream_at_run _ _ _ Ht)), Hfi, Hfa.
  rewrite (bind_run _ _ s tt s) by reflexivity.
  destruct (out_close_run i t s Ht) as (w & s' & E & [[? _]|[_ (k & ->)]]); [congruence|]. rewrite (bind_run _ _ _ _ _ E). clear E.
  exists w, k. set (s1 := set_output _ _ _ _ _). assert (Hf1 : file_of (heap s1) (st_session t) (st_file t) = Some f) by done.
  rewrite (bind_run _ _ _ _ _ (file_at_run _ _ _ _ Hf1)). destruct (received_size f =? expected_size f); cbn [negb]; [|reflexivity].
  set (s2 := with_heap (edit_at (heap s1) (st_session t) (st_file t) (with_status FComplete)) s1).
  rewrite (bind_run _ _ s1 tt s2) by reflexivity. destruct (touch_run (st_session t) s2) as (tm & w2 & E2). rewrite (bind_run _ _ _ _ _ E2).
  exists tm, w2. reflexivity.
Qed.
Lemma closed_complete_good s i t k tm w f : good s -> streams s !! i = Some t -> st_open t = true -> file_of (heap s) (st_session t) (st_file t) = Some f ->
  received_size f = expected_size f -> good (closed_complete s i t k tm w).
Proof.
  intros [Hi Hl] Ht Ho Hf Hr. pose proof (ended_inv s i t k f FComplete Hi Ht Ho Hf (fun _ => Hr)) as Hi2.
  pose proof (ended_live s i t k FComplete Hl) as Hl2. unfold closed_complete. cbv zeta. set (s2 := ended s i t k FComplete) in *.
  set (s3 := with_heap _ _). assert (Hi3 : Inv s3) by (apply (inv_edit_session (with_world w s2)); [done|done|by apply inv_world]).
  assert (Hl3 : live_except i s3) by exact Hl2. clearbody s3. split.
  - apply (inv_streams s3 (alter stream_finished i (streams s3)) (next_stream s3)); [done|lia|].
    intros n t1 [(<- & t0 & Ht0 & ->)|[_ Hn]]%lookup_alter_Some; eexists; (split; [eassumption|]); by split_and!.
  - intros n t1. simpl. intros [(<- & t0 & _ & ->)|[? Hn]]%lookup_alter_Some; [done|]. by eapply Hl3.
Qed.
Lemma good_ready i s : good s -> Inv s /\ live_except i s /\ ready i s.
Proof. intros [Hi Hl]. split_and!; [done|by intros m t _; apply Hl|]. intros t Ht Hfi Hfa. left. by eapply Hl. Qed.
Lemma short_ready s i t k f : good s -> streams s !! i = Some t -> st_open t = true -> file_of (heap s) (st_session t) (st_file t) = Some f ->
  Inv (ended s i t k FFailed) /\ live_except i (ended s i t k FFailed) /\ ready i (ended s i t k FFailed).
Proof.
  intros [Hi Hl] Ht Ho Hf. split_and!; [by eapply ended_inv|by apply ended_live|]. intros t' Ht' _ _. right.
  simpl in Ht'. rewrite lookup_alter_eq, Ht in Ht'. injection Ht' as <-. exists (with_status FFailed f). split; [|done].
  change (file_of (edit_at (heap s) (st_session t) (st_file t) (with_status FFailed)) (st_session t) (st_file t) = Some (with_status FFailed f)).
  by rewrite file_of_edit, Hf.
Qed.
Lemma finish_good i : hoare good (finish i) (fun _ => good) (fun s => Inv s /\ live_except i s /\ ready i s).
Proof.
  intros s Hs. destruct (streams s !! i) as [t|] eqn:Ht; [|unfold finish, bind, stream_at, reads; rewrite Ht; by apply good_ready].
  destruct (st_finished t) eqn:Hfi; [unfold finish; by rewrite (bind_run _ _ _ _ _ (stream_at_run _ _ _ Ht)), Hfi|].
  destruct (st_failed t) eqn:Hfa; [unfold finish; rewrite (bind_run _ _ _ _ _ (stream_at_run _ _ _ Ht)), Hfi, Hfa; by apply good_ready|].
  pose proof Hs as [Hi Hl]. pose proof (Hl _ _ Ht Hfi Hfa) as Ho. destruct (i_streams _ Hi _ _ Ht) as (_ & _ & f & Hf & _).
  destruct (finish_run i t f s Ht Hfi Hfa Ho Hf) as (w & k & E). destruct (received_size f =? expected_size f) eqn:Er.
  - destruct E as (tm & w2 & ->). apply (closed_complete_good (with_world w s) i t k tm w2 f); [by apply stable_good|done..|lia].
  - rewrite E. apply (short_ready (with_world w s) i t k f); [by apply stable_good|done..].
Qed.
Lemma finish_spec i l fi b : hoare (fun s => good s /\ running i l fi b s) (finish i)
  (fun x s => good s /\ (exists t, streams s !! i = Some t /\ st_finished t = true) /\ bytes s l fi = b /\
     exists f, file_of (heap s) l fi = Some f /\ status f = FComplete /\ x = Some (fileResponseJson f))
  (fun s => Inv s /\ live_except i s /\ ready i s).
Proof.
  intros s [Hs (t & Ht & <- & <- & Hfi & Hfa & Hb)]. pose proof (finish_good i s Hs) as Hg.
  pose proof Hs as [Hi Hl]. pose proof (Hl _ _ Ht Hfi Hfa) as Ho. destruct (i_streams _ Hi _ _ Ht) as (_ & _ & f & Hf & _).
  destruct (finish_run i t f s Ht Hfi Hfa Ho Hf) as (w & k & E). destruct (received_size f =? expected_size f); [|by rewrite E in *].
  destruct E as (tm & w2 & E). rewrite E in Hg |- *. split; [exact Hg|]. split_and!.
  - exists (stream_finished (stream_out false [] (st_good t) t)). simpl. by rewrite !lookup_alter_eq, Ht.
  - exact Hb.
  - exists (with_status FComplete f). split; [|done]. unfold closed_complete. simpl. rewrite file_of_alter by done.
    change (file_of (edit_at (heap s) (st_session t) (st_file t) (with_status FComplete)) (st_session t) (st_file t) = Some (with_status FComplete f)).
    by rewrite file_of_edit, Hf.
Qed.

(** Failing a stream closes it, whatever came before. *)
Lemma fail_good i why : hoare (fun s => Inv s /\ live_except i s /\ ready i s) (fail i why) (fun _ s => Inv s /\ live_except i s) (fun _ => False).
Proof.
  intros s (Hi & Hl & Hr). unfold fail. rewrite (bind_run _ _ s s s) by reflexivity.
  destruct (streams s !! i) as [t|] eqn:Ht; [|done]. destruct (st_failed t) eqn:Efa; [done|]. destruct (st_finished t) eqn:Efi; [done|]. cbn [orb].
  unfold fail_body. set (s1 := with_streams (alter stream_failed i (streams s)) (next_stream s) s).
  rewrite (bind_run _ _ s tt s1) by reflexivity.
  assert (Ht1 : streams s1 !! i = Some (stream_failed t)) by (simpl; by rewrite lookup_alter_eq, Ht).
  assert (Hi1 : Inv s1).
  { apply inv_streams; [done|lia|]. intros n t1 [(<- & t0 & Ht0 & ->)|[_ Hn]]%lookup_alter_Some; eexists; (split; [eassumption|]); by split_and!. }
  assert (Hl1 : live_except i s1) by (intros m t' Hne Hm; simpl in Hm; rewrite lookup_alter_ne in Hm by done; by eapply Hl).
  destruct (i_streams _ Hi _ _ Ht) as (_ & _ & f & Hf & Hok).
  set (P := fun s => Inv s /\ live_except i s). assert (HP : soft P) by (apply soft_and; [apply soft_inv|apply soft_live_except]).
  destruct (out_close_run i _ s1 Ht1) as (w & s2 & E & Hs2). rewrite (bind_run _ _ _ _ _ E). clear E.
  assert (Hrest : hoare P (quiet (cleanupFile f;; fail_upload (st_principal t) (share_upload_id f) why)) (fun _ => P) (fun _ => False)).
  { eapply (hoare_handle _ _ _ _ P); [|intros e s' Hs'; exact Hs']. eapply hoare_bind; [by apply cleanupFile_frame, soft_calm|]. intros ?.
    apply worldly_frame; [apply worldly_fail_upload|apply HP]. }
  destruct Hs2 as [[Ho ->]|[Ho (k & ->)]]; cbn [stream_failed st_open st_inode st_buffer st_good] in *.
  - destruct (Hr t Ht Efi Efa) as [?|(f' & Hf' & Hst)]; [congruence|]. assert (f' = f) as -> by congruence.
    unfold quiet, handle. rewrite (bind_run _ _ _ _ _ (file_at_run (st_session t) (st_file t) f s1 Hf)), Hst. done.
  - set (s2 := set_output _ _ _ _ _). assert (Hf2 : file_of (heap s2) (st_session t) (st_file t) = Some f) by done.
    pose proof (ended_inv (with_world w s1) i (stream_failed t) k f FFailed (inv_world _ w Hi1) Ht1 Ho Hf ltac:(done)) as He.
    assert (Hl2 : live_except i s2) by (intros m t' Hne Hm; simpl in Hm; rewrite lookup_alter_ne in Hm by done; by eapply Hl1).
    assert (Hi2 : Inv s2) by (apply (close_inv (with_world w s1) i (stream_failed t) k); [by apply inv_world|done|done]).
    unfold quiet, handle. rewrite (bind_run _ _ _ _ _ (file_at_run _ _ _ _ Hf2)). destruct (status f == FFailed); [done|].
    set (s3 := with_heap (edit_at (heap s2) (st_session t) (st_file t) (with_status FFailed)) s2).
    rewrite (bind_run _ _ s2 tt s3) by reflexivity. apply (Hrest s3). split; [exact He|exact Hl2].
Qed.
Lemma forget_good i : hoare (fun s => Inv s /\ live_except i s) (forget_stream i) (fun _ => good) good.
Proof.
  intros s [Hi Hl]. split.
  - apply inv_streams; [done|lia|]. intros n t [_ Hn]%lookup_delete_Some. exists t. split; [done|]. by split_and!.
  - intros n t. simpl. intros [? Hn]%lookup_delete_Some. by eapply Hl.
Qed.
Lemma end_stream_good i why : hoare good (fail i why;; forget_stream i) (fun _ => good) good.
Proof.
  eapply hoare_bind; [|intros ?; apply forget_good]. eapply hoare_conseq; [apply fail_good|apply good_ready|done|done].
Qed.
Lemma failing_good {A} i (m : M A) : hoare good m (fun _ => good) (fun s => Inv s /\ live_except i s /\ ready i s) ->
  hoare good (failing i m) (fun _ => good) good.
Proof.
  intros Hm. unfold failing. eapply hoare_handle; [exact Hm|]. intros e.
  eapply hoare_bind; [eapply hoare_err; [apply fail_good|done]|]. intros ?.
  eapply hoare_bind; [apply forget_good|]. intros ?. apply (hoare_throw e (fun _ => good)).
Qed.
Lemma put_good r len chunks broken : hoare good (handle_streaming_upload hash r len chunks broken) (fun _ => good) good.
Proof.
  unfold handle_streaming_upload. eapply hoare_bind; [apply beginFile_good|]. intros i.
  eapply hoare_bind; [|intros x; eapply hoare_bind; [apply end_stream_good|]; intros ?; apply (hoare_ret x (fun _ => good))].
  apply failing_good. eapply hoare_bind; [eapply hoare_err; [apply hoare_for_each; intros c _; apply write_good|apply good_ready]|]. intros ?.
  destruct broken; [intros s Hs; by apply good_ready|apply finish_good].
Qed.

(** *** Committing *)
Definition ready_files l (fs : list UploadFileState) s : Prop :=
  forall f, f ∈ fs -> file_of (heap s) l (file_id f) = Some f /\ status f = FComplete.
Lemma soft_ready_files l fs : soft (ready_files l fs).
Proof.
  split; [repeat intro; eauto..|]. intros s l' g _ Hg Hr f Hf. simpl. rewrite file_of_alter by done. by apply Hr.
Qed.
Lemma ready_to_commit_files s l u fs : Inv s -> heap s !! l = Some u -> ready_to_commit u = Ok fs -> ready_files l fs s.
Proof.
  intros Hi Hu. unfold ready_to_commit. destruct (finished u); [done|]. cbn [negb]. destruct (forallb _ _) eqn:Hall; [|done].
  intros [= <-] f Hf. rewrite forallb_forall in Hall. pose proof (Hall f (proj1 (list_elem_of_In _ _) Hf)) as Hfc. bsimpl.
  apply list_elem_of_fmap in Hf as ([i f'] & -> & Hm%elem_of_map_to_list). simpl in *.
  assert (Hfile : file_of (heap s) l i = Some f') by (unfold file_of; by rewrite Hu).
  destruct (i_file _ Hi _ _ _ Hfile) as [-> _ _ _ _]. done.
Qed.

Lemma commit_good l f user fs : f ∈ fs ->
  hoare (fun s => good s /\ ready_files l fs s) (commitCompletedUploadFile l f user) (fun _ s => good s /\ ready_files l fs s)
    (fun s => good s /\ ready_files l fs s).
Proof.
  intros Hin. set (P := fun s => good s /\ ready_files l fs s). assert (HP : soft P) by (apply soft_and; [apply soft_good|apply soft_ready_files]).
  unfold commitCompletedUploadFile. intros s [[Hi Hl] Hr]. destruct (Hr f Hin) as [Hf Hst].
  unfold bind at 1, checkCompletedUploadFile, reads. destruct (staged (tmp_path f) s) as [c|] eqn:Ec; [|by split].
  destruct (Z.of_nat (length c) =? expected_size f) eqn:Elen; [|by split]. cbv zeta. set (cx := mkContext _ _ _ _ _).
  destruct (i_file _ Hi _ _ _ Hf) as [_ _ _ Hfull Hb]. specialize (Hfull Hst).
  assert (Hc : c = bytes s l (file_id f)).
  { destruct (i_complete _ Hi _ _ _ _ Hf Hst Ec) as [k Hk]. pose proof (f_equal length Hk) as Hlen. rewrite length_app in Hlen.
    unfold bytes in Hlen. destruct k; [by rewrite Hk, app_nil_r|]. simpl in Hlen. lia. }
  set (s1 := with_committed (committed s ++ [(l, file_id f, cx)]) s).
  rewrite (bind_run _ _ s tt s1) by reflexivity.
  assert (HP1 : P s1).
  { split; [split; [|exact Hl]|exact Hr]. eapply inv_committing; [done|exact Hf|done..|]. simpl. by rewrite <- Hc. }
  assert (Hrest : hoare P (let! created := outside_try (createFile cx) in remove_file (tmp_path f);; ret created) (fun _ => P) P).
  { eapply hoare_bind; [apply worldly_frame; [worldly|apply HP]|]. intros created.
    eapply hoare_bind; [by apply remove_file_frame, soft_calm|]. intros ?. apply (hoare_ret created (fun _ => P)). }
  exact (Hrest s1 HP1).
Qed.

Section Commits.
Context (l : nat) (all : list UploadFileState).
Let P s := good s /\ ready_files l all s.
Let soft_P : soft P.
Proof. apply soft_and; [apply soft_good|apply soft_ready_files]. Qed.
Lemma finish_own_good user fs : fs ⊆ all -> hoare P (finish_own l user fs) (fun _ => P) P.
Proof.
  induction fs as [|f fs IH]; intros Hsub; simpl; [apply (hoare_ret [] (fun _ => P))|].
  eapply hoare_bind; [apply commit_good; set_solver|]. intros ?. eapply hoare_bind; [apply IH; set_solver|]. intros others.
  apply (hoare_ret _ (fun _ => P)).
Qed.
Lemma finish_share_good p fs : fs ⊆ all -> hoare P (finish_share l p fs) (fun _ => P) P.
Proof.
  assert (Hw : forall A (m : M A), worldly m -> hoare P m (fun _ => P) P) by (intros; apply worldly_frame; [done|apply soft_P]).
  induction fs as [|f fs IH]; intros Hsub; simpl; [apply (hoare_ret [] (fun _ => P))|].
  eapply hoare_bind; [|intros one; eapply hoare_bind; [apply IH; set_solver|]; intros others; apply (hoare_ret _ (fun _ => P))].
  unfold finish_share_file. cbv zeta. do 3 (eapply hoare_bind; [apply Hw; worldly|]; intros ?).
  eapply hoare_bind; [apply Hw, worldly_no_existing|]. intros ?. eapply hoare_bind; [apply commit_good; set_solver|]. intros created.
  do 2 (eapply hoare_bind; [apply Hw; worldly|]; intros ?). apply (hoare_ret _ (fun _ => P)).
Qed.
Lemma commit_all_good mode session : hoare P (commit_all hash l mode session all) (fun _ => P) P.
Proof.
  assert (Hw : forall A (m : M A), worldly m -> hoare P m (fun _ => P) P) by (intros; apply worldly_frame; [done|apply soft_P]).
  unfold commit_all. destruct (mode == Authenticated).
  - destruct (user_of session); [by apply finish_own_good|apply Hw; worldly].
  - eapply hoare_bind; [apply Hw, worldly_refresh|]. intros p. eapply hoare_bind; [apply Hw; worldly|]. intros ?. by apply finish_share_good.
Qed.
End Commits.

Lemma cleanup_good l reason fc rt : hoare good (cleanupSession l reason fc rt false) (fun _ => good) good.
Proof. apply (cleanupSession_frame live_open (soft_calm _ soft_live) false (unmarked live_open)). Qed.
Lemma erase_good id : hoare good (erase id) (fun _ => good) good.
Proof. apply erase_frame. intros s r Hr [Hi Hl]. split; [by apply inv_unregister|exact Hl]. Qed.

Lemma finishSession_good r id : hoare good (finishSession hash r id) (fun _ => good) good.
Proof.
  assert (Hw : forall A (m : M A), worldly m -> hoare good m (fun _ => good) good) by (intros; apply worldly_frame; [done|apply stable_good]).
  unfold finishSession. eapply hoare_bind; [apply Hw; worldly|]. intros id'.
  eapply (hoare_bind _ _ _ (fun _ => good)).
  { eapply hoare_conseq; [apply (findSession_spec live_open); [apply soft_calm, soft_live|apply shrinks_live]|by intros s|by intros l s [? _]|by intros s]. }
  intros l. eapply hoare_bind; [apply resolveAndVerify_frame, soft_good|]. intros session.
  eapply hoare_bind; [apply (session_at_spec good)|]. intros u.
  eapply hoare_bind; [eapply hoare_err; [apply (pure_spec (fun s => good s /\ heap s !! l = Some u))|by intros s [? _]]|]. intros fs.
  eapply hoare_bind; [eapply (hoare_handle _ _ _ _ good)|].
  - eapply hoare_conseq; [apply (commit_all_good l fs)| |intros ? s Hs; exact (proj1 Hs)|by intros s [? _]].
    intros s [[[Hi Hl] Hu] Hfs]. split; [by split|]. by eapply ready_to_commit_files.
  - intros e. unfold commit_failed. eapply hoare_bind; [|intros ?; apply (hoare_throw e (fun _ => good))].
    destruct (s_mode u == ShareMode); [apply Hw, worldly_for_each; intros f; apply worldly_failShare|apply cleanup_good].
  - intros entries. eapply (hoare_bind _ _ _ (fun _ => good)).
    { intros s Hs. by apply soft_good. }
    intros ?. eapply hoare_bind; [apply cleanup_good|]. intros ?. eapply hoare_bind; [apply erase_good|]. intros ?.
    eapply hoare_bind; [apply Hw; worldly|]. intros ?. apply (hoare_ret _ (fun _ => good)).
Qed.

Lemma cancelSession_good r id : hoare good (cancelSession r id) (fun _ => good) good.
Proof.
  assert (Hw : forall A (m : M A), worldly m -> hoare good m (fun _ => good) good) by (intros; apply worldly_frame; [done|apply stable_good]).
  unfold cancelSession. eapply hoare_bind; [apply Hw; worldly|]. intros id'.
  eapply hoare_bind; [apply (expire_frame live_open); [apply soft_calm, soft_live|apply shrinks_live]|]. intros ?.
  eapply (hoare_bind _ _ _ (fun _ => good)); [by intros s Hs|]. intros s0. destruct (registry s0 !! id') as [l|]; [|apply (hoare_ret _ (fun _ => good))].
  eapply hoare_bind; [apply resolveAndVerify_frame, soft_good|]. intros ?. eapply hoare_bind; [apply Hw; worldly|]. intros u.
  eapply (hoare_bind _ _ _ (fun _ => good)).
  { destruct (s_mode u == ShareMode); [|apply cleanup_good]. apply hoare_for_each. intros f _.
    eapply hoare_bind; [apply cleanupFile_frame, soft_calm, soft_good|]. intros ?. apply Hw, worldly_cancelShare. }
  intros ?. eapply hoare_bind; [apply erase_good|]. intros ?. apply (hoare_ret _ (fun _ => good)).
Qed.

Lemma abortAll_good reason : hoare good (abortAll reason) (fun _ => good) good.
Proof.
  unfold abortAll. cbv zeta. eapply (hoare_bind _ _ _ (fun _ => good)); [by intros s Hs|]. intros s0.
  set (P := fun s => live_open s /\ registry s = ∅).
  assert (HP : calm P) by (split; [intros s w [? ?]|intros s p [? ?]]; by split).
  eapply (hoare_bind _ _ _ (fun _ s => Inv s /\ P s)).
  { intros s [Hi Hl]. split; [apply inv_unregister; [done|]|by split]. intros id l Hx. by rewrite lookup_empty in Hx. }
  intros ?. eapply hoare_conseq; [apply (hoare_for_each _ _ (fun s => Inv s /\ P s) (fun s => Inv s /\ P s))|done|intros ? s (? & ? & _); by split|intros s (? & ? & _); by split].
  intros l _. apply (cleanupSession_frame P HP true). intros _ s l' i [Hl Hr]. split; [|by split].
  intros [id Hx]. by rewrite Hr, lookup_empty in Hx.
Qed.

(** *** Creating a session *)
(** Staging files are told apart by their names, in both builds. *)
Class StagingOk := pathFor_name : forall target vaultId name, slash ∉ name -> name <> [] -> path_filename (pathFor target vaultId name) = name.
End Operations.

Lemma path_filename_join dir name : slash ∉ name -> name <> [] -> path_filename (path_join dir name) = name.
Proof.
  intros Hs Hne. assert (Hlast : forall a, split_last slash (a ++ slash :: name) = Some (a, name)).
  { assert (Hn : forall b, slash ∉ b -> split_last slash b = None).
    { induction b as [|x b IH]; intros Hb; simpl; [done|]. rewrite IH by set_solver. by rewrite (proj2 (eqb_neq x slash)) by set_solver. }
    induction a as [|x a IH]; simpl; [by rewrite Hn by done|by rewrite IH]. }
  assert (Hnone : split_last slash name = None).
  { destruct (split_last slash name) as [[a b]|] eqn:E; [|done]. apply split_last_spec in E as [-> _]. set_solver. }
  unfold path_filename, path_join. destruct (ends_with_slash dir || is_empty dir) eqn:E.
  - apply orb_true_iff in E as [E|E].
    + unfold ends_with_slash, back in E. destruct dir as [|x dir _] using rev_ind; [done|]. rewrite last_snoc in E. bsimpl. simplify_eq.
      rewrite <- app_assoc. simpl. by rewrite Hlast.
    + destruct dir; [|done]. simpl. by rewrite Hnone.
  - change ($"/" ++ name) with (slash :: name). by rewrite Hlast.
Qed.
#[export] Instance private_staging_ok backing : @StagingOk (private_staging backing).
Proof. intros target v name Hs Hne. by apply path_filename_join. Qed.
#[export] Instance mount_staging_ok : @StagingOk mount_staging.
Proof. intros target v name Hs Hne. by apply path_filename_join. Qed.

Lemma staging_name_plain u i : slash ∉ u -> slash ∉ i -> slash ∉ staging_name u i /\ staging_name u i <> [].
Proof.
  intros Hu Hi. unfold staging_name. split; [|done]. rewrite !elem_of_app.
  intros [Hx|[Hx|[Hx|[Hx|Hx]]]]; try done; apply list_elem_of_In in Hx; vm_compute in Hx; intuition discriminate.
Qed.
Lemma safe_no_slash i label v : safeIdComponent i label = Ok v -> v = i /\ slash ∉ v.
Proof.
  unfold safeIdComponent. case_if; [|done]. destruct (forallb safe_char i) eqn:E1; [|done]. intros [= <-]. split; [done|]. intros Hin.
  rewrite forallb_forall in E1. specialize (E1 slash (proj1 (list_elem_of_In _ _) Hin)). done.
Qed.
