(* ===== verification/UploadLifecycle.v ===== *)
(** * HTTP uploads: what the runs of the coordinator keep and promise

    Creation keeps the invariant of [UploadSteps]; the runs are sequences of operations by any
    requests, with anything the world does in between; the properties of uploads follow. *)
From S2P Require Import Prelude Monad Paths Perm ShareTokens SharePolicy ShareScope ShareStore ShareManager TargetResolver UploadModel UploadSteps.
#[local] Open Scope Z_scope.

Section Creation.
Context {W : Type} `{Outside W} `{Registry} `{ArrayText} `{UploadOutside W} `{TargetEntryProvider W} `{Staging} `{!StagingOk}.
Context (hash : str -> str) (options : ManagerOptions).
Notation M A := (Monad.M (Server W) Error A).
Implicit Types (s : Server W) (P : Server W -> Prop).

(** A session being filled: known by its id, and no stream is on it. *)
Definition filling l u s : Prop := live_open s /\ (id_of (heap s) l = Some u /\ forall n t, streams s !! n = Some t -> st_session t <> l).
Lemma soft_filling l u : soft (filling l u).
Proof.
  apply soft_and; [apply soft_live|]. split; [repeat intro; naive_solver..|].
  intros s l' g Hid _ [Hu Hn]. split; [|exact Hn]. simpl. by rewrite id_of_alter.
Qed.
Lemma shrinks_filling l u : shrinks (filling l u).
Proof. repeat intro; done. Qed.
Definition fill l u s : Prop := Inv s /\ filling l u s.
Lemma soft_fill l u : soft (fill l u).
Proof. apply soft_and; [apply soft_inv|apply soft_filling]. Qed.

Lemma filling_quiet l u i s : filling l u s -> quiet_at s l i.
Proof. intros (_ & _ & Hn) n t Ht _ [<- _]. by destruct (Hn _ _ Ht). Qed.

Lemma createEmpty_spec l u i f : hoare (fun s => fill l u s /\ file_of (heap s) l i = Some f /\ status f = FPending)
  (createEmptyTempFile (tmp_path f))
  (fun _ s => fill l u s /\ file_of (heap s) l i = Some f /\ staged (tmp_path f) s = Some []) (fill l u).
Proof.
  unfold createEmptyTempFile. eapply hoare_bind.
  - eapply hoare_err; [apply (open_staging_spec (fun s => fill l u s /\ file_of (heap s) l i = Some f /\ status f = FPending))|by intros s [? _]].
    intros s w [? ?]. split; [by apply soft_fill|done].
  - intros k s' (s & ([Hi Hfil] & Hf & Hst) & -> & ->). simpl. split_and!; [split|exact Hf|].
    + eapply inv_truncated; [done|exact Hf|by rewrite Hst|by eapply filling_quiet].
    + exact Hfil.
    + unfold staged. simpl. by rewrite lookup_insert_eq; simpl; rewrite lookup_insert_eq.
Qed.

Lemma add_file_fill l u plan target p f : path_filename (tmp_path f) = staging_name u (file_id f) -> 0 <= expected_size f -> received_size f = 0 ->
  status f = FPending -> hoare (fill l u) (add_file l plan target p f) (fun _ => fill l u) (fill l u).
Proof.
  intros Hname Hexp Hrec Hst. unfold add_file. eapply hoare_bind; [apply (session_at_spec (fill l u))|]. intros v.
  eapply hoare_bind; [eapply hoare_err; [apply (demand_spec (fun s => fill l u s /\ heap s !! l = Some v))|by intros s [? _]]|]. intros ?.
  eapply (hoare_bind _ _ _ (fun _ s => fill l u s /\ file_of (heap s) l (file_id f) = Some f /\ status f = FPending)).
  { intros s [[[Hi (Hlive & Hid & Hn)] Hv] Hnew]. apply negb_true_iff, bool_decide_eq_false in Hnew. simpl. split_and!; [split|..|done].
    - eapply inv_add_file; [done|exact Hv|by destruct (files v !! file_id f); [destruct Hnew|]|..|done|done|done].
      unfold id_of in Hid. rewrite Hv in Hid. injection Hid as ->. done.
    - split; [exact Hlive|]. split; [|exact Hn]. simpl. by rewrite id_of_alter.
    - unfold file_of. simpl. rewrite lookup_alter_eq, Hv. simpl. apply lookup_insert_eq. }
  intros ?. eapply (hoare_bind _ _ _ (fun _ => fill l u)).
  - destruct (expected_size f =? 0) eqn:Ez; [|by intros s [? _]].
    eapply hoare_bind; [apply createEmpty_spec|]. intros ? s ([Hi Hfil] & Hf & Hstaged). apply Z.eqb_eq in Ez. simpl. split.
    + eapply inv_status; [done|exact Hf|by rewrite Hst|intros _; by eapply filling_quiet|]. intros _. split; [lia|].
      intros c Hc. rewrite Hc in Hstaged. injection Hstaged as ->. apply prefix_nil.
    + destruct Hfil as (? & Hid & ?). split; [done|]. split; [|done]. simpl.
      change (id_of (edit_at (heap s) l (file_id f) (with_status FComplete)) l = Some u). by rewrite id_of_edit.
  - intros ?. eapply hoare_bind; [apply (worldly_frame (fill l u)); [worldly|apply soft_fill]|]. intros stored. apply (hoare_ret _ (fun _ => fill l u)).
Qed.

Lemma take_file_id_spec P plan item : stable P -> hoare P (take_file_id plan item) (fun i s => P s /\ slash ∉ i) P.
Proof.
  intros HP. unfold take_file_id. eapply hoare_bind; [apply worldly_frame; [worldly|done]|]. intros fallback.
  eapply hoare_bind; [apply (pure_spec P)|]. intros i.
  eapply hoare_bind; [eapply hoare_err; [apply demand_spec|by intros s [? _]]|]. intros ? s [[Hs Hi] _]. split; [done|].
  apply rbind_Ok in Hi as (v & _ & Hi). by apply safe_no_slash in Hi as [-> ?].
Qed.
Lemma stagingFor_spec P u i v path : stable P ->
  hoare P (stagingFor u i v path) (fun tmp s => P s /\ tmp = pathFor (absPath v path) v (staging_name u i)) P.
Proof.
  intros HP. unfold stagingFor. cbv zeta. eapply hoare_bind; [apply worldly_frame; [worldly|done]|]. intros ? s Hs. done.
Qed.
Lemma size_spec P item : hoare P (pure (W := W) (fileSizeFromJson item)) (fun n s => P s /\ 0 <= n) P.
Proof.
  eapply hoare_conseq; [apply (pure_spec P)|done| |done]. intros n s [Hs Hn]. split; [done|]. unfold fileSizeFromJson in Hn.
  apply rbind_Ok in Hn as (z & _ & [= <-]). apply Z.mod_pos_bound. lia.
Qed.

#[local] Hint Unfold take_target : uploads.
Section Adding.
Context (l : nat) (u : str) (Hu : slash ∉ u) (payload : Payload).
Let F : forall A (m : M A), worldly m -> hoare (fill l u) m (fun _ => fill l u) (fill l u).
Proof. intros A m Hm. apply worldly_frame; [done|apply soft_fill]. Qed.
Let stable_fill : stable (fill l u).
Proof. apply soft_fill. Qed.

Lemma add_share_file_fill principal plan item : hoare (fill l u) (add_share_file options l u principal payload plan item) (fun _ => fill l u) (fill l u).
Proof.
  unfold add_share_file. destruct item as [item|]; [|apply F; worldly].
  eapply hoare_bind; [by apply take_file_id_spec|]. intros fid. apply hoare_fact. intros Hfid.
  eapply hoare_bind; [apply F; worldly|]. intros target. cbv zeta.
  do 5 (eapply hoare_bind; [apply F; worldly|intros ?]). eapply hoare_bind; [apply F, worldly_no_existing|]. intros ?.
  eapply hoare_bind; [apply size_spec|]. intros size. apply hoare_fact. intros Hsize.
  do 2 (eapply hoare_bind; [apply F; worldly|intros ?]). eapply hoare_bind; [apply F, worldly_reserve|]. intros reserved.
  eapply hoare_bind; [by apply stagingFor_spec|]. intros tmp. apply hoare_fact. intros ->.
  eapply hoare_bind; [apply F; worldly|]. intros started. apply add_file_fill; [|done..]. simpl.
  destruct (staging_name_plain u fid Hu Hfid). by apply pathFor_name.
Qed.
Lemma add_own_file_fill user plan item : hoare (fill l u) (add_own_file l u user payload plan item) (fun _ => fill l u) (fill l u).
Proof.
  unfold add_own_file. destruct item as [item|]; [|apply F; worldly].
  eapply hoare_bind; [by apply take_file_id_spec|]. intros fid. apply hoare_fact. intros Hfid.
  do 2 (eapply hoare_bind; [apply F; worldly|intros ?]).
  eapply hoare_bind; [apply size_spec|]. intros size. apply hoare_fact. intros Hsize. cbv zeta.
  do 3 (eapply hoare_bind; [apply F; worldly|intros ?]). eapply hoare_bind; [apply F, worldly_write_permission|]. intros ?.
  eapply hoare_bind; [apply F, worldly_reserve|]. intros reserved.
  eapply hoare_bind; [by apply stagingFor_spec|]. intros tmp. apply hoare_fact. intros ->. cbv zeta.
  do 5 (eapply hoare_bind; [apply F; worldly|intros ?]). apply add_file_fill; [|done..]. simpl.
  destruct (staging_name_plain u fid Hu Hfid). by apply pathFor_name.
Qed.
Lemma add_files_fill add items plan : (forall plan i, hoare (fill l u) (add plan i) (fun _ => fill l u) (fill l u)) ->
  hoare (fill l u) (add_files (W := W) add items plan) (fun _ => fill l u) (fill l u).
Proof.
  intros Hadd. revert plan. induction items as [|i items IH]; intros plan; simpl; [apply (hoare_ret _ (fun _ => fill l u))|].
  eapply hoare_bind; [apply Hadd|]. intros plan'. apply IH.
Qed.
Lemma set_owner_fill user share : hoare (fill l u) (edit_session l (with_owner user share)) (fun _ => fill l u) (fill l u).
Proof. intros s Hs. by apply soft_fill. Qed.
Lemma fill_share_fill items session : hoare (fill l u) (fill_share hash options l u payload items session) (fun _ => fill l u) (fill l u).
Proof.
  unfold fill_share. eapply hoare_bind; [apply F; worldly|]. intros ?. eapply hoare_bind; [apply F, worldly_refresh|]. intros p.
  eapply hoare_bind; [apply set_owner_fill|]. intros ?. apply add_files_fill. intros plan i. apply add_share_file_fill.
Qed.
Lemma fill_own_fill items session : hoare (fill l u) (fill_own l u payload items session) (fun _ => fill l u) (fill l u).
Proof.
  unfold fill_own. destruct (user_of session) as [user|]; [|apply F; worldly].
  eapply hoare_bind; [apply set_owner_fill|]. intros ?. apply add_files_fill. intros plan i. apply add_own_file_fill.
Qed.
End Adding.

(** An id that was never drawn before. *)
Definition new_id u s : Prop := length u = 36%nat /\ slash ∉ u /\ forall l, id_of (heap s) l <> Some u.

Lemma new_session_fill u mode : hoare (fun s => good s /\ new_id u s) (new_session u mode) (fun l s => fill l u s) (fun s => good s).
Proof.
  unfold new_session. eapply hoare_bind.
  - eapply hoare_err; [apply (worldly_frame (fun s => good s /\ new_id u s)); [worldly|]|by intros s [? _]].
    intros s w [Hg Hn]. split; [by apply stable_good|exact Hn].
  - intros t. eapply hoare_bind; [apply (hoare_get _ good)|]. intros s0. cbv zeta.
    set (l := fresh (dom (heap s0))). eapply (hoare_bind _ _ _ (fun _ => fill l u)).
    + intros s [[[Hi Hl] (Hlen & _ & Hnew)] <-]. simpl.
      assert (Hfresh : heap s0 !! l = None) by (apply not_elem_of_dom, is_fresh). split; [|split; [exact Hl|]].
      * eapply inv_new_session; [done|done|done|done|]. simpl. exact Hnew.
      * split; [unfold id_of; simpl; by rewrite lookup_insert_eq|]. intros n t' Ht' Heq. destruct (i_streams _ Hi _ _ Ht') as (_ & _ & f & Hf & _).
        unfold file_of in Hf. by rewrite Heq, Hfresh in Hf.
    + intros ?. eapply hoare_bind; [eapply hoare_err; [apply touch_frame, soft_fill|by intros s (? & ? & _)]|]. intros ?.
      apply (hoare_ret l (fun l => fill l u)).
Qed.

Lemma createSession_good u r payload : hoare (fun s => good s /\ new_id u s) (createSession hash options u r payload) (fun _ => good) good.
Proof.
  assert (Hst : stable (fun s => good s /\ new_id u s)) by (intros s w [Hg Hn]; split; [by apply stable_good|exact Hn]).
  assert (Hweak : forall s, good s /\ new_id u s -> good s) by (by intros s [? _]).
  unfold createSession. destruct (pl_files payload) as [items|]; [|intros s [? _]; done].
  do 2 (eapply hoare_bind; [eapply hoare_err; [apply (worldly_frame (fun s => good s /\ new_id u s)); [worldly|done]|exact Hweak]|intros ?]).
  cbv zeta. eapply hoare_bind; [eapply hoare_err; [apply (worldly_frame (fun s => good s /\ new_id u s)); [apply worldly_resolver|done]|exact Hweak]|].
  intros session. assert (Hslash : slash ∉ u -> hoare (fun s => good s /\ new_id u s)
    (let! l := new_session u (if isShareModeRequestTarget (rq_target r) then ShareMode else Authenticated) in
     let! plan := handle (if isShareModeRequestTarget (rq_target r) then fill_share hash options l u payload items session
                          else fill_own l u payload items session)
                    (fun e => cleanupSession l $"http_upload_create_failed" true true false;; throw e) in
     cleanupExpiredSessionsLocked;; touchUploadSession l;;
     modify (fun s => with_registry (match registry s !! u with Some _ => registry s | None => <[u := l]> (registry s) end) s);;
     ret (u, answers plan)) (fun _ => good) good).
  { intros Hu. eapply hoare_bind; [apply new_session_fill|]. intros l.
    assert (Hgood : forall s, fill l u s -> good s) by (intros s (? & ? & _); by split).
    eapply hoare_bind.
    - eapply (hoare_handle _ _ _ _ (fill l u)); [destruct (isShareModeRequestTarget _); [by apply fill_share_fill|by apply fill_own_fill]|]. intros e.
      eapply hoare_bind; [eapply hoare_err; [apply (cleanupSession_frame (filling l u) (soft_calm _ (soft_filling l u)) false (unmarked _))|exact Hgood]|].
      intros ? s Hs. by apply Hgood.
    - intros plan. eapply hoare_bind; [eapply hoare_err; [apply (expire_frame (filling l u)); [apply soft_calm, soft_filling|apply shrinks_filling]|exact Hgood]|]. intros ?.
      eapply hoare_bind; [eapply hoare_err; [apply (touch_frame (fill l u)), soft_fill|exact Hgood]|]. intros ?.
      intros s [Hi (Hl & Hid & Hn)]. simpl. split; [|exact Hl]. destruct (registry s !! u) eqn:E.
      + apply inv_unregister; [done|]. intros ? ? Hx. exact Hx.
      + by apply inv_register. }
  intros s Hs. by apply Hslash; [destruct Hs as [_ (_ & ? & _)]|].
Qed.
End Creation.

(** ** Runs *)
Section Runs.
Context {W : Type} `{Outside W} `{Registry} `{ArrayText} `{UploadOutside W} `{TargetEntryProvider W} `{Staging} `{!StagingOk}.
Context (hash : str -> str) (options : ManagerOptions).
Notation M A := (Monad.M (Server W) Error A).
Implicit Types (s : Server W).

(** An operation: a request, or one event of the PUT whose stream is [i]; an exception inside a
    PUT fails and ends its stream. *)
Inductive Call :=
| Create (uploadId : str) (r : UploadRequest) (payload : Payload)
| Put (r : UploadRequest) (contentLength : option Z) (chunks : list str) (broken : option str)
| Begin (r : UploadRequest) (contentLength : option Z)
| Chunk (i : nat) (data : str)
| EndOfBody (i : nat)
| Break (i : nat) (why : str)
| FinishUpload (r : UploadRequest) (uploadId : str)
| CancelUpload (r : UploadRequest) (uploadId : str)
| AbortAll (reason : str).
Definition call (c : Call) : M unit :=
  match c with
  | Create u r payload => createSession hash options u r payload;; ret tt
  | Put r len chunks broken => handle_streaming_upload hash r len chunks broken;; ret tt
  | Begin r len => beginFile hash r len;; ret tt
  | Chunk i data => failing i (write i data)
  | EndOfBody i => failing i (finish i);; destroy i
  | Break i why => fail i why;; forget_stream i
  | FinishUpload r u => finishSession hash r u;; ret tt
  | CancelUpload r u => cancelSession r u;; ret tt
  | AbortAll reason => abortAll reason
  end.
(** UUIDs are texts of 36 characters that do not repeat. *)
Definition admissible (c : Call) s : Prop := match c with Create u _ _ => new_id u s | _ => True end.

(** One operation by anyone, or anything that happens elsewhere in the world. *)
Inductive step : Server W -> Server W -> Prop :=
| step_call c s : admissible c s -> step s (call c s).2
| step_elsewhere w s : step s (with_world w s).
Definition boot (w : World W) : Server W := mkServer ∅ ∅ ∅ ∅ O ∅ O w ∅ [].
Definition reachable s : Prop := exists w, rtc step (boot w) s.

Lemma ignore_good {A} (m : M A) : hoare good m (fun _ => good) good -> hoare good (m;; ret tt) (fun _ => good) good.
Proof. intros Hm. eapply hoare_bind; [exact Hm|]. intros a. apply (hoare_ret tt (fun _ => good)). Qed.
Lemma hoare_state {A} P (m : M A) : hoare P m (fun _ => good) good -> forall s, P s -> good (m s).2.
Proof. intros Hm s Hs. specialize (Hm s Hs). by destruct (m s) as [[a|e] s']. Qed.
Lemma call_good c s : good s -> admissible c s -> good (call c s).2.
Proof.
  intros Hs Hc. destruct c; simpl in *.
  - apply (hoare_state (fun s => good s /\ new_id uploadId s)); [|done]. eapply hoare_bind; [apply createSession_good|]. intros a. apply (hoare_ret tt (fun _ => good)).
  - apply (hoare_state good); [apply ignore_good, put_good|done].
  - apply (hoare_state good); [apply ignore_good, beginFile_good|done].
  - apply (hoare_state good); [|done]. apply failing_good. eapply hoare_err; [apply (write_good hash)|apply good_ready].
  - apply (hoare_state good); [|done]. eapply hoare_bind; [apply failing_good, finish_good|]. intros a. apply end_stream_good.
  - apply (hoare_state good); [apply end_stream_good|done].
  - apply (hoare_state good); [apply ignore_good, finishSession_good|done].
  - apply (hoare_state good); [apply ignore_good, cancelSession_good|done].
  - apply (hoare_state good); [apply abortAll_good|done].
Qed.
Lemma boot_good w : good (boot w).
Proof.
  split; [|intros n t; simpl; by rewrite lookup_empty].
  split; unfold id_of, file_of; simpl; intros *; rewrite ?lookup_empty; try done. by intros ?%elem_of_nil.
Qed.
Lemma reachable_good s : reachable s -> good s.
Proof.
  intros [w Hr]. pose proof (boot_good w) as Hg. revert Hg. induction Hr as [|s1 s2 s3 Hstep _ IH]; [done|]. intros Hg. apply IH.
  inversion Hstep; subst; [by apply call_good|]. by apply stable_good.
Qed.
End Runs.

Section Properties.
Context {W : Type} `{Outside W} `{Registry} `{ArrayText} `{UploadOutside W} `{TargetEntryProvider W} `{Staging} `{!StagingOk}.
Context (hash : str -> str) (options : ManagerOptions).
Notation M A := (Monad.M (Server W) Error A).
Implicit Types (s : Server W).

(** *** A whole body *)
Lemma chunks_spec i l fi b chunks :
  hoare (fun s => good s /\ running i l fi b s) (for_each chunks (write i)) (fun _ s => good s /\ running i l fi (b ++ concat chunks) s) good.
Proof.
  revert b. induction chunks as [|c chunks IH]; intros b; simpl.
  - rewrite app_nil_r. apply (hoare_ret tt (fun _ s => good s /\ running i l fi b s)).
  - eapply hoare_bind; [apply (write_spec hash)|]. intros ?. rewrite app_assoc. apply IH.
Qed.
Lemma failing_spec {A} P Q i (m : M A) : hoare P m Q (fun s => Inv s /\ live_except i s /\ ready i s) -> hoare P (failing i m) Q good.
Proof.
  intros Hm. unfold failing. eapply hoare_handle; [exact Hm|]. intros e.
  eapply hoare_bind; [eapply hoare_err; [apply fail_good|done]|]. intros ?.
  eapply hoare_bind; [apply forget_good|]. intros ?. apply (hoare_throw e Q).
Qed.
Lemma destroy_finished i t s : streams s !! i = Some t -> st_finished t = true -> destroy i s = (Ok tt, with_streams (delete i (streams s)) (next_stream s) s).
Proof.
  intros Ht Hf. unfold destroy, fail. rewrite (bind_run _ _ s tt s); [reflexivity|].
  rewrite (bind_run _ _ s s s) by reflexivity. by rewrite Ht, Hf, orb_true_r.
Qed.

(** *** The expiry pass *)
Lemma cleanup_rows h r l reason fc rt :
  hoare (fun s => Inv s /\ (heap s = h /\ registry s = r)) (cleanupSession l reason fc rt false)
    (fun _ s => Inv s /\ (heap s = h /\ registry s = r)) (fun s => Inv s /\ (heap s = h /\ registry s = r)).
Proof.
  apply (cleanupSession_frame (fun s : Server W => heap s = h /\ registry s = r)); [|exact (unmarked (fun s : Server W => heap s = h /\ registry s = r))].
  split; [intros s w [? ?]|intros s p [? ?]..]; by split.
Qed.
Lemma cleanup_ok l reason fc rt s : cleanupSession l reason fc rt false s = (Ok tt, (cleanupSession l reason fc rt false s).2).
Proof. unfold cleanupSession, quiet, handle. by destruct (bind _ _ s) as [[[]|e] s']. Qed.
Definition keeps_entry (h : gmap nat UploadSessionState) now (l : nat) : Prop := exists u, h !! l = Some u /\ uploadSessionExpired u now = false.
Lemma expire_rows h now entries r0 :
  NoDup entries.*1 -> (forall id l, (id, l) ∈ entries -> is_Some (h !! l)) ->
  hoare (fun s => Inv s /\ heap s = h /\ registry s = r0) (for_each entries (expire_one now))
    (fun _ s => heap s = h /\ forall id l, registry s !! id = Some l <->
       r0 !! id = Some l /\ (id ∈ entries.*1 -> forall l', (id, l') ∈ entries -> keeps_entry h now l')) (fun _ => False).
Proof.
  revert r0. induction entries as [|[id0 l0] entries IH]; intros r0 Hnd Hin.
  { intros s (_ & Hh & Hr). split; [done|]. intros id l. rewrite Hr. split; [|by intros [? _]]. intros ?. split; [done|]. by intros ?%elem_of_nil. }
  rewrite fmap_cons in Hnd. apply NoDup_cons in Hnd as [Hnew Hnd]. destruct (Hin id0 l0) as [u Hu]; [set_solver|].
  assert (Hin' : forall id l, (id, l) ∈ entries -> is_Some (h !! l)) by (intros id l Hx; apply (Hin id l); set_solver).
  intros s (Hi & Hh & Hr). set (gone := uploadSessionExpired u now).
  assert (Hone : exists s1, expire_one now (id0, l0) s = (Ok tt, s1) /\ Inv s1 /\ heap s1 = h /\ registry s1 = if gone then delete id0 r0 else r0).
  { unfold expire_one. rewrite (bind_run _ _ s u s) by (unfold session_at, reads; by rewrite Hh; cbn; rewrite Hu).
    fold gone. destruct gone; [|by exists s]. rewrite (bind_run _ _ _ _ _ (cleanup_ok l0 $"http_upload_expired" true true s)).
    pose proof (cleanup_rows h r0 l0 $"http_upload_expired" true true s (conj Hi (conj Hh Hr))) as Hc.
    rewrite cleanup_ok in Hc. destruct Hc as (Hi1 & Hh1 & <-).
    eexists. split; [reflexivity|]. split_and!; [|done|done]. apply inv_unregister; [done|]. by intros id l [_ ?]%lookup_delete_Some. }
  destruct Hone as (s1 & Hone & Hi1 & Hh1 & Hr1). pose proof (IH _ Hnd Hin' s1 (conj Hi1 (conj Hh1 Hr1))) as HIH.
  change (for_each ((id0, l0) :: entries) (expire_one now)) with (bind (expire_one now (id0, l0)) (fun _ => for_each entries (expire_one now))).
  rewrite (bind_run _ _ _ _ _ Hone). destruct (for_each entries (expire_one now) s1) as [[x|e] s3]; [|done]. destruct HIH as [Hh3 Hrows].
  split; [done|]. intros id l. rewrite Hrows, fmap_cons. clear Hrows. destruct gone eqn:Ex; [rewrite lookup_delete_Some|]; split.
  - intros [[Hne Hid] Hk]. split; [done|]. intros Hx l' [[= ? ?]|Hl']%elem_of_cons; [congruence|]. apply Hk; [|done].
    apply list_elem_of_fmap. by exists (id, l').
  - intros [Hid Hk]. split; [split; [|done]|].
    + intros <-. destruct (Hk (list_elem_of_here _ _) l0 (list_elem_of_here _ _)) as (u' & Hu' & Hx). unfold gone in Ex. congruence.
    + intros Hx l' Hl'. apply Hk; by right.
  - intros [Hid Hk]. split; [done|]. intros _ l' [[= -> ->]|Hl']%elem_of_cons; [by exists u|]. apply Hk; [|done].
    apply list_elem_of_fmap. by exists (id, l').
  - intros [Hid Hk]. split; [done|]. intros Hx l' Hl'. apply Hk; by right.
Qed.

(** C11. What is committed is what was sent: in every run of creations, bodies (chunk by chunk,
    interleaved, broken off, retried), commits, cancellations and expiries, each file handed to the
    filesystem is a complete file of its session and carries exactly the bytes received since its
    body was last begun, as many as the session announced: no short, mixed or overlong body is
    ever committed, although nothing reports a failing close. *)
Theorem committed_whole_bodies s l i cx : reachable hash options s -> (l, i, cx) ∈ committed s ->
  exists f, file_of (heap s) l i = Some f /\ status f = FComplete /\ cx_vault_id cx = f_vault_id f /\ cx_path cx = vault_path f /\
    Z.of_nat (length (bytes s l i)) = expected_size f /\ default [] (cx_source cx) = bytes s l i.
Proof.
  intros [Hi _]%reachable_good Hc. destruct (i_committed _ Hi _ _ _ Hc) as (f & Hf & Hst & Hv & Hp & Hs). exists f.
  destruct (i_file _ Hi _ _ _ Hf) as [_ _ _ Hfull Hb]. specialize (Hfull Hst). unfold bytes.
  split_and!; try done; [lia|]. rewrite Hs. destruct (Z.ltb_spec 0 (expected_size f)); [done|]. simpl.
  destruct (bytes_of (streamed s) l i); [done|]. simpl in Hb. lia.
Qed.

(** C13. The sessions stay well formed in every run: no more bytes are received than announced and a
    complete file has them all, at most one stream is open on a file, while its session is
    registered a stream is open only on a file that is receiving (a session that [AbortAll] or an
    expiry took out of the registry may keep an open stream on a file they failed), two files never
    share a staging path, and the staging file of a complete file holds a prefix of its bytes. *)
Theorem uploads_stay_wellformed s : reachable hash options s ->
  (forall l i f, file_of (heap s) l i = Some f -> 0 <= received_size f <= expected_size f /\
     received_size f = Z.of_nat (length (bytes s l i)) /\
     (status f = FComplete -> received_size f = expected_size f /\ forall c, staged (tmp_path f) s = Some c -> c `prefix_of` bytes s l i)) /\
  (forall n m t t', streams s !! n = Some t -> streams s !! m = Some t' -> st_open t = true -> st_open t' = true ->
     st_session t = st_session t' -> st_file t = st_file t' -> n = m) /\
  (forall n t, streams s !! n = Some t -> st_open t = true -> registered s (st_session t) ->
     exists f, file_of (heap s) (st_session t) (st_file t) = Some f /\ status f = FReceiving) /\
  (forall l i f l' i' f', file_of (heap s) l i = Some f -> file_of (heap s) l' i' = Some f' -> tmp_path f = tmp_path f' -> l = l' /\ i = i').
Proof.
  intros [Hi _]%reachable_good. split_and!.
  - intros l i f Hf. destruct (i_file _ Hi _ _ _ Hf) as [_ _ Hs Hfull Hb]. split_and!; [lia..|done|]. intros Hst. split; [auto|].
    intros c Hc. by eapply i_complete.
  - intros n m t t' Hn Hm Ho Ho' Hs Hf. eapply (i_one _ Hi); eauto.
  - intros n t Hn Ho Hr. destruct (i_streams _ Hi _ _ Hn) as (_ & _ & f & Hf & Hok). exists f. split; [done|]. by apply (Hok Ho).
  - intros *. by apply tmp_path_inj.
Qed.

(** C14. A PUT that is answered with success stored its body: the file the request names is complete,
    was announced with the size of the body, its bytes are the chunks of the body in order, and the
    answer is that file. *)
Theorem put_stores_body s r len chunks x s' : reachable hash options s ->
  handle_streaming_upload hash r len chunks None s = (Ok x, s') ->
  exists parsed l f, parseUploadFileTarget (rq_target r) = Ok parsed /\ file_of (heap s') l (file_id_ parsed) = Some f /\
    status f = FComplete /\ expected_size f = Z.of_nat (length (concat chunks)) /\ bytes s' l (file_id_ parsed) = concat chunks /\
    x = Some (fileResponseJson f).
Proof.
  intros Hs%reachable_good E. pose proof (beginFile_spec hash r len s Hs) as Hb. unfold handle_streaming_upload, bind at 1 in E.
  destruct (beginFile hash r len s) as [[i|e] s1]; [|done]. destruct Hb as (Hs1 & parsed & l & Hparsed & _ & Hrun).
  assert (Hm : hoare (fun s => good s /\ running i l (file_id_ parsed) [] s) (failing i (for_each chunks (write i);; finish i))
    (fun x s => good s /\ (exists t, streams s !! i = Some t /\ st_finished t = true) /\ bytes s l (file_id_ parsed) = concat chunks /\
       exists f, file_of (heap s) l (file_id_ parsed) = Some f /\ status f = FComplete /\ x = Some (fileResponseJson f)) good).
  { apply failing_spec. eapply hoare_bind; [eapply hoare_err; [apply chunks_spec|apply good_ready]|]. intros ?. apply finish_spec. }
  specialize (Hm s1 (conj Hs1 Hrun)). unfold bind at 1 in E.
  destruct (failing i (for_each chunks (write i);; finish i) s1) as [[y|e] s2] eqn:Ef; [|done].
  destruct Hm as ([Hi2 _] & (t & Ht & Htf) & Hbytes & f & Hf & Hst & ->).
  unfold bind in E. rewrite (destroy_finished i t s2 Ht Htf) in E. injection E as <- <-.
  exists parsed, l, f. destruct (i_file _ Hi2 _ _ _ Hf) as [_ _ _ Hfull Hlen]. specialize (Hfull Hst). unfold bytes in *.
  rewrite Hbytes in Hlen. split_and!; try done. lia.
Qed.

(** C31. Expiry is exact: a pass over the registry, made before every lookup, removes the sessions
    that were idle for more than 30 minutes or are more than 24 hours old on the clock it read, and
    no other. *)
Theorem expiry_exact s : reachable hash options s ->
  exists now w, steady_now (outside (world s)) = (now, w) /\
  forall id l, registry (cleanupExpiredSessionsLocked s).2 !! id = Some l <->
    registry s !! id = Some l /\ exists u, heap s !! l = Some u /\ now - 30 * 60 * 10 ^ 9 <= last_activity u /\ now - 24 * 3600 * 10 ^ 9 <= created_at u.
Proof.
  intros [Hi _]%reachable_good. destruct (steady_now (outside (world s))) as [now w] eqn:Ec. exists now, w. split; [done|].
  unfold cleanupExpiredSessionsLocked, uploadClock, outside_do. unfold bind at 1. rewrite Ec. unfold bind at 1, get.
  set (s1 := with_world _ s). assert (Hi1 : Inv s1) by by apply inv_world.
  pose proof (expire_rows (heap s) now (map_to_list (registry s)) (registry s) (NoDup_fst_map_to_list _)) as Hx.
  assert (Hin : forall id l, (id, l) ∈ map_to_list (registry s) -> is_Some (heap s !! l)).
  { intros id l Hl%elem_of_map_to_list. pose proof (i_reg _ Hi _ _ Hl) as Hid. unfold id_of in Hid. by destruct (heap s !! l). }
  specialize (Hx Hin s1 (conj Hi1 (conj eq_refl eq_refl))). change (registry s1) with (registry s). unfold quiet, handle.
  destruct (for_each _ _ s1) as [[x|e] s2]; [|done]. destruct Hx as [_ Hrows]. intros id l. simpl. rewrite Hrows.
  assert (Hk : forall l', keeps_entry (heap s) now l' <->
    exists u, heap s !! l' = Some u /\ now - 30 * 60 * 10 ^ 9 <= last_activity u /\ now - 24 * 3600 * 10 ^ 9 <= created_at u).
  { intros l'. unfold keeps_entry, uploadSessionExpired, kUploadSessionTtl, kUploadSessionMaxAge, nanoseconds.
    split; intros (u & Hu & Hx); exists u; (split; [done|]); [bsimpl; lia|]. apply orb_false_iff. lia. }
  split; intros [Hid Hrest]; (split; [done|]).
  - apply Hk, Hrest; [apply list_elem_of_fmap; exists (id, l); split; [done|]|]; by apply elem_of_map_to_list.
  - intros _ l' Hl'%elem_of_map_to_list. assert (l' = l) as -> by congruence. by apply Hk.
Qed.

(** Who owns an upload session: the user who created it, or a share session without a user that
    has the id it was created for. *)
Definition owns (u : UploadSessionState) (session : WsSession) : Prop :=
  match s_mode u with
  | Authenticated => ws_user session = Some (s_user_id u)
  | ShareMode => ws_share_mode session = true /\ ws_user session = None /\ ws_share_session_id session = s_share_session_id u
  end.
Lemma verified_owns u session : verifySessionOwner u session = Ok tt -> exists x, session = Some x /\ owns u x.
Proof.
  unfold verifySessionOwner, user_of, share_of, owns. intros Hv. destruct session as [x|]; [|by destruct (s_mode u)].
  exists x. split; [done|]. destruct (s_mode u); simpl in Hv.
  - destruct (ws_user x) as [n|]; [|done]. case_if_in Hv; [|done]. by bsimpl; subst.
  - destruct (ws_share_mode x), (ws_user x); simpl in Hv; try done. case_if_in Hv; [|done]. by bsimpl.
Qed.
(** C15. A session answers to its owner alone: a request whose session is not that of the user who
    created the upload (or, for a share, not the user-less share session it was created in) neither
    streams, nor commits, nor cancels; each fails and, beyond the expiry pass every lookup makes,
    leaves sessions, staging files and streams as they were. *)
Theorem strangers_change_nothing s r id len : reachable hash options s ->
  let s1 := (cleanupExpiredSessionsLocked s).2 in
  (forall l u x, registry s1 !! id = Some l -> heap s1 !! l = Some u -> (sessionResolver r s1).1 = Ok (Some x) -> ~ owns u x) ->
  registry s1 !! id <> None ->
  let untouched {A} (m : M A) := is_ok (m s).1 = false /\ (moved s (m s).2 \/ moved s1 (m s).2) in
  (forall parsed, parseUploadFileTarget (rq_target r) = Ok parsed -> upload_id parsed = id -> untouched (beginFile hash r len)) /\
  untouched (finishSession hash r id) /\ untouched (cancelSession r id).
Proof.
  intros [Hi _]%reachable_good s1 Hstranger Hthere untouched.
  assert (Hclean : cleanupExpiredSessionsLocked s = (Ok tt, s1)).
  { unfold s1, cleanupExpiredSessionsLocked. destruct (moved_outside_do steady_now s) as (t & w & E). unfold uploadClock.
    rewrite (bind_run _ _ _ _ _ E). unfold bind, get, quiet, handle. by destruct (for_each _ _ _) as [[[]|e] s']. }
  destruct (registry s1 !! id) as [l|] eqn:El; [|done].
  assert (Hfind : findSession id s = (Ok l, s1)) by (unfold findSession; rewrite (bind_run _ _ _ _ _ Hclean); unfold bind, get; by rewrite El).
  assert (Hheap : is_Some (heap s1 !! l)).
  { pose proof (expire_frame (fun _ => True) ltac:(by split) ltac:(by intros ?) s (conj Hi I)) as Hx. rewrite Hclean in Hx. destruct Hx as [Hi1 _].
    pose proof (i_reg _ Hi1 _ _ El) as Hid. unfold id_of in Hid. by destruct (heap s1 !! l). }
  destruct Hheap as [u Hu].
  assert (Hverify : exists e w, resolveAndVerify r l s1 = (Err e, with_world w s1)).
  { unfold resolveAndVerify. destruct (worldly_resolver r s1) as [w Hw]. destruct (sessionResolver r s1) as [[session|e] s2] eqn:Es; simpl in Hw; subst s2.
    - rewrite (bind_run _ _ _ _ _ Es). unfold bind at 1, session_at, reads. simpl. rewrite Hu.
      unfold bind, pure, reads. destruct (verifySessionOwner u session) as [[]|e] eqn:Ev; [|by exists e, w].
      apply verified_owns in Ev as (x & -> & Hx). by destruct (Hstranger l u x eq_refl Hu eq_refl).
    - unfold bind at 1. rewrite Es. by exists e, w. }
  destruct Hverify as (e & w & Hverify). assert (Hdone : forall A (m : M A), m s = (Err e, with_world w s1) -> untouched A m).
  { intros A m Hm. unfold untouched. rewrite Hm. split; [done|]. right. by exists w. }
  split_and!.
  - intros parsed Hp Hid. apply Hdone. unfold beginFile. rewrite (bind_run _ _ s parsed s) by (unfold pure, reads; by rewrite Hp).
    rewrite Hid, (bind_run _ _ _ _ _ Hfind). unfold bind at 1. by rewrite Hverify.
  - unfold finishSession. destruct (safeIdComponent id $"upload id") as [id'|e'] eqn:Eid.
    + apply Hdone. rewrite (bind_run _ _ s id' s) by (unfold pure, reads; done). apply safe_no_slash in Eid as [-> _].
      rewrite (bind_run _ _ _ _ _ Hfind). unfold bind at 1. by rewrite Hverify.
    + split; [done|]. left. by exists (world s); destruct s.
  - unfold cancelSession. destruct (safeIdComponent id $"upload id") as [id'|e'] eqn:Eid.
    + apply Hdone. rewrite (bind_run _ _ s id' s) by (unfold pure, reads; done). apply safe_no_slash in Eid as [-> _].
      rewrite (bind_run _ _ _ _ _ Hclean). unfold bind at 1, get. rewrite El. unfold bind at 1. by rewrite Hverify.
    + split; [done|]. left. by exists (world s); destruct s.
Qed.

(** *** A body that ends short *)
Lemma close_keeps_tables i t s : streams s !! i = Some t -> st_open t = true -> exists o k,
  out_close i s = (Ok tt, set_output (with_world (mkWorld (tables (world s)) o (epoch (world s)) (draft (world s))) s) (st_inode t)
                            (fun c => c ++ take k (st_buffer t)) i (stream_out false [] (st_good t))).
Proof.
  intros Ht Ho. unfold out_close. rewrite (bind_run _ _ _ _ _ (stream_at_run _ _ _ Ht)), Ho. unfold outside_do, bind at 1.
  destruct (closes _ _) as [k o]. by exists o, k.
Qed.
Lemma fail_failed i t f why s : streams s !! i = Some t -> st_finished t = false -> st_failed t = false -> st_open t = false ->
  file_of (heap s) (st_session t) (st_file t) = Some f -> status f = FFailed ->
  fail i why s = (Ok tt, with_streams (alter stream_failed i (streams s)) (next_stream s) s).
Proof.
  intros Ht Hfi Hfa Ho Hf Hst. unfold fail. rewrite (bind_run _ _ s s s) by reflexivity. rewrite Ht, Hfi, Hfa. cbn [orb]. unfold fail_body.
  set (s1 := with_streams (alter stream_failed i (streams s)) (next_stream s) s). rewrite (bind_run _ _ s tt s1) by reflexivity.
  assert (Ht1 : streams s1 !! i = Some (stream_failed t)) by (simpl; by rewrite lookup_alter_eq, Ht).
  assert (Hclose : out_close i s1 = (Ok tt, s1)) by (unfold out_close; rewrite (bind_run _ _ _ _ _ (stream_at_run _ _ _ Ht1)); simpl; by rewrite Ho).
  rewrite (bind_run _ _ _ _ _ Hclose). unfold quiet, handle. rewrite (bind_run _ _ _ _ _ (file_at_run _ _ f s1 Hf)). by rewrite Hst.
Qed.

(** A body that ends short is refused and its file fails, but nothing else happens: the staging
    file stays, and no table of the share manager changes, so the upload it had started is never
    recorded as failed by the stream's failure, although a share's file may not be sent again. *)
Theorem short_body_unrecorded s i t f : reachable hash options s -> streams s !! i = Some t -> st_finished t = false -> st_failed t = false ->
  file_of (heap s) (st_session t) (st_file t) = Some f -> received_size f <> expected_size f ->
  exists s', failing i (finish i) s = (Err (ERuntime $"Upload size mismatch"), s') /\
    file_of (heap s') (st_session t) (st_file t) = Some (with_status FFailed f) /\ names s' = names s /\ tables (world s') = tables (world s) /\
    forall len, openable ShareMode (with_status FFailed f) len = Err (ERuntime $"Upload file has failed").
Proof.
  intros [_ Hl]%reachable_good Ht Hfi Hfa Hf Hne. pose proof (Hl _ _ Ht Hfi Hfa) as Ho.
  unfold failing, finish, handle. rewrite (bind_run _ _ _ _ _ (stream_at_run _ _ _ Ht)), Hfi, Hfa. rewrite (bind_run _ _ s tt s) by reflexivity.
  destruct (close_keeps_tables i t s Ht Ho) as (o & k & E). rewrite (bind_run _ _ _ _ _ E). clear E. set (s1 := set_output _ _ _ _ _).
  rewrite (bind_run _ _ _ _ _ (file_at_run _ _ f s1 Hf)). rewrite (proj2 (Z.eqb_neq _ _) Hne). cbn [negb].
  set (s2 := with_heap (edit_at (heap s1) (st_session t) (st_file t) (with_status FFailed)) s1).
  change (bind (edit_file _ _ _) _ s1) with (@Err Error (option FileResponse) (ERuntime $"Upload size mismatch"), s2). cbn iota beta.
  assert (Hf2 : file_of (heap s2) (st_session t) (st_file t) = Some (with_status FFailed f)).
  { change (file_of (edit_at (heap s) (st_session t) (st_file t) (with_status FFailed)) (st_session t) (st_file t) = Some (with_status FFailed f)).
    by rewrite file_of_edit, Hf. }
  assert (Ht2 : streams s2 !! i = Some (stream_out false [] (st_good t) t)) by (simpl; by rewrite lookup_alter_eq, Ht).
  rewrite (bind_run _ _ _ _ _ (fail_failed i _ _ (what _) s2 Ht2 Hfi Hfa eq_refl Hf2 eq_refl)).
  eexists. split; [reflexivity|]. split_and!; [exact Hf2|done..].
Qed.
End Properties.

(** ** Concrete runs *)
#[local] Existing Instance ManagerDemo.demo_outside.
#[local] Existing Instance ManagerDemo.demo_registry.
#[local] Existing Instance ManagerDemo.demo_array.
#[local] Existing Instance UploadDemo.demo_uploads.
#[local] Existing Instance UploadDemo.demo_entries.
#[local] Existing Instance UploadDemo.demo_staging.
Notation after := (foldl (fun (s : Server Z) c => (call id default_options c s).2)).
Notation creating := (Create UploadDemo.upload (UploadDemo.request $"/upload/session" $"alice")
  (mkPayload (Some [UploadDemo.item $"a" $"docs/a" 5; UploadDemo.item $"b" $"docs/b" 0]) (Value 7))).
Notation asking := (UploadDemo.request ($"/upload/" ++ UploadDemo.upload ++ $"/files/a")).
Notation putting := (Put (asking $"alice") (Some 5) [$"he"; $"llo"] None).
Notation finishing := (FinishUpload (UploadDemo.request ($"/upload/" ++ UploadDemo.upload ++ $"/finish") $"alice") UploadDemo.upload).
Notation begun_calls := [creating; Begin (asking $"alice") None; Chunk 0 $"hel"].
#[local] Instance demo_staging_ok : StagingOk := private_staging_ok $"/backing".

Lemma after_reachable (cs : list Call) s : reachable id default_options s ->
  (forall c, c ∈ cs -> match c with Create _ _ _ => False | _ => True end) -> reachable id default_options (after s cs).
Proof.
  revert s. induction cs as [|c cs IH]; intros s Hs Hcs; [done|]. cbn [foldl]. apply IH; [|set_solver]. destruct Hs as [w Hs]. exists w.
  eapply rtc_r; [exact Hs|]. apply step_call. assert (Hc : c ∈ c :: cs) by left. specialize (Hcs _ Hc). by destruct c.
Qed.
Lemma created_reachable cs : (forall c, c ∈ cs -> match c with Create _ _ _ => False | _ => True end) ->
  reachable id default_options (after UploadDemo.start (creating :: cs)).
Proof.
  intros Hcs. cbn [foldl]. apply after_reachable; [|done]. exists ManagerDemo.start. apply rtc_once.
  apply (step_call id default_options creating UploadDemo.start). split_and!.
  - vm_compute. reflexivity.
  - apply (bool_decide_unpack (slash ∉ UploadDemo.upload)). vm_compute. exact I.
  - intros l. unfold id_of. simpl. by rewrite lookup_empty.
Qed.
Ltac no_creation := let c := fresh in let Hc := fresh in intros c Hc; repeat (apply elem_of_cons in Hc as [->|Hc]; [exact I|]); by apply elem_of_nil in Hc.

Lemma committed_whole_bodies_witness :
  exists l i cx, let s := after UploadDemo.start [creating; putting; finishing] in (l, i, cx) ∈ committed s /\
  exists f, file_of (heap s) l i = Some f /\ status f = FComplete /\ cx_vault_id cx = f_vault_id f /\ cx_path cx = vault_path f /\
    Z.of_nat (length (bytes s l i)) = expected_size f /\ default [] (cx_source cx) = bytes s l i.
Proof.
  assert (Hin : exists l i cx, (l, i, cx) ∈ committed (after UploadDemo.start [creating; putting; finishing])) by
    (do 3 eexists; apply list_elem_of_In; vm_compute; right; left; reflexivity).
  destruct Hin as (l & i & cx & Hin). exists l, i, cx. split; [exact Hin|].
  exact (committed_whole_bodies id default_options _ l i cx (created_reachable [putting; finishing] ltac:(no_creation)) Hin).
Defined.
Lemma uploads_stay_wellformed_witness : exists f, file_of (heap (after UploadDemo.start begun_calls)) 0 $"a" = Some f /\ status f = FReceiving /\
  0 <= received_size f <= expected_size f /\ received_size f = Z.of_nat (length (bytes (after UploadDemo.start begun_calls) 0 $"a")).
Proof.
  assert (Hf : exists f, file_of (heap (after UploadDemo.start begun_calls)) 0 $"a" = Some f /\ status f = FReceiving)
    by (eexists; split; vm_compute; reflexivity).
  revert Hf. generalize (created_reachable [Begin (asking $"alice") None; Chunk 0 $"hel"] ltac:(no_creation)).
  generalize (after UploadDemo.start begun_calls). intros s Hr (f & Hf & Hst).
  destruct (proj1 (uploads_stay_wellformed id default_options s Hr) _ _ _ Hf) as (Hb & Hl & _). exact (ex_intro _ f (conj Hf (conj Hst (conj Hb Hl)))).
Defined.
Lemma run_ok {A} (m : Monad.M (Server Z) Error A) s a : (m s).1 = Ok a -> m s = (Ok a, (m s).2).
Proof. destruct (m s) as [x s']. by intros [= ->]. Qed.
Notation streaming := (handle_streaming_upload id (asking $"alice") (Some 5) [$"he"; $"llo"] None).
Lemma put_stores_body_witness :
  streaming (after UploadDemo.start [creating]) = (Ok (Some (mkFileResponse $"a" $"docs/a" 5 5 true None)), (streaming (after UploadDemo.start [creating])).2) /\
  exists parsed l f, parseUploadFileTarget (rq_target (asking $"alice")) = Ok parsed /\
    file_of (heap (streaming (after UploadDemo.start [creating])).2) l (file_id_ parsed) = Some f /\ status f = FComplete /\
    expected_size f = Z.of_nat (length (concat [$"he"; $"llo"])) /\
    bytes (streaming (after UploadDemo.start [creating])).2 l (file_id_ parsed) = concat [$"he"; $"llo"].
Proof.
  assert (E : streaming (after UploadDemo.start [creating]) = (Ok (Some (mkFileResponse $"a" $"docs/a" 5 5 true None)), (streaming (after UploadDemo.start [creating])).2))
    by (apply run_ok; vm_compute; reflexivity).
  split; [exact E|]. revert E. generalize (created_reachable [] ltac:(no_creation)). generalize (after UploadDemo.start [creating]).
  intros s Hr E. destruct (put_stores_body id default_options s (asking $"alice") (Some 5) [$"he"; $"llo"] _ _ Hr E) as (parsed & l & f & Hp & Hf & Hs & He & Hb & _).
  exact (ex_intro _ parsed (ex_intro _ l (ex_intro _ f (conj Hp (conj Hf (conj Hs (conj He Hb))))))).
Defined.
Lemma expiry_exact_witness :
  let s := after UploadDemo.start [creating] in exists now w, steady_now (outside (world s)) = (now, w) /\
  forall id l, registry (cleanupExpiredSessionsLocked s).2 !! id = Some l <->
    registry s !! id = Some l /\ exists u, heap s !! l = Some u /\ now - 30 * 60 * 10 ^ 9 <= last_activity u /\ now - 24 * 3600 * 10 ^ 9 <= created_at u.
Proof. exact (expiry_exact id default_options _ (created_reachable [] ltac:(no_creation))). Defined.
Notation foreign_bob s := (forall l u x, registry (cleanupExpiredSessionsLocked s).2 !! UploadDemo.upload = Some l ->
  heap (cleanupExpiredSessionsLocked s).2 !! l = Some u -> (sessionResolver (asking $"bob") (cleanupExpiredSessionsLocked s).2).1 = Ok (Some x) -> ~ owns u x).
Lemma strangers_change_nothing_witness :
  (beginFile id (asking $"bob") None (after UploadDemo.start [creating])).1 = Err (ERuntime $"Upload session owner mismatch") /\
  is_ok (finishSession id (asking $"bob") UploadDemo.upload (after UploadDemo.start [creating])).1 = false /\
  is_ok (cancelSession (asking $"bob") UploadDemo.upload (after UploadDemo.start [creating])).1 = false.
Proof.
  split; [vm_compute; reflexivity|].
  assert (Hthere : registry (cleanupExpiredSessionsLocked (after UploadDemo.start [creating])).2 !! UploadDemo.upload <> None) by (vm_compute; discriminate).
  assert (Hstranger : foreign_bob (after UploadDemo.start [creating])).
  { intros l u x. assert (E : registry (cleanupExpiredSessionsLocked (after UploadDemo.start [creating])).2 !! UploadDemo.upload = Some 0%nat)
      by (vm_compute; reflexivity). rewrite E. intros [= <-]. vm_compute (heap _ !! _). intros [= <-]. cbn. intros [= <-]. vm_compute. discriminate. }
  revert Hthere Hstranger. generalize (created_reachable [] ltac:(no_creation)). generalize (after UploadDemo.start [creating]). intros s Hr Hthere Hstranger.
  destruct (strangers_change_nothing id default_options s (asking $"bob") UploadDemo.upload None Hr Hstranger Hthere)
    as (_ & [Hf _] & [Hc _]). exact (conj Hf Hc).
Defined.
Notation short_stream s t f := (streams s !! 0%nat = Some t /\ st_finished t = false /\ st_failed t = false /\
  file_of (heap s) (st_session t) (st_file t) = Some f /\ received_size f = 3 /\ expected_size f = 5).
Lemma short_body_unrecorded_witness : exists t f, short_stream (after UploadDemo.start begun_calls) t f /\
  exists s', failing 0 (finish 0) (after UploadDemo.start begun_calls) = (Err (ERuntime $"Upload size mismatch"), s') /\
    tables (world s') = tables (world (after UploadDemo.start begun_calls)).
Proof.
  assert (Ht : exists t f, short_stream (after UploadDemo.start begun_calls) t f).
  { do 2 eexists. split; [vm_compute; reflexivity|]. split; [reflexivity|]. split; [reflexivity|]. split; [vm_compute; reflexivity|]. split; reflexivity. }
  revert Ht. generalize (created_reachable [Begin (asking $"alice") None; Chunk 0 $"hel"] ltac:(no_creation)). generalize (after UploadDemo.start begun_calls).
  intros s Hr (t & f & Ht & Hfi & Hfa & Hf & Hre & Hex). exists t, f. split; [by split_and!|].
  destruct (short_body_unrecorded id default_options s 0%nat t f Hr Ht Hfi Hfa Hf ltac:(lia)) as (s' & E & _ & _ & Htb & _).
  exact (ex_intro _ s' (conj E Htb)).
Defined.
