(* ===== verification/AuthModel.v ===== *)
(** * Sessions: tokens, the session manager and the websocket router's gate

    [auth/session/Issuer.cpp], [Validator.cpp], [Manager.cpp], the tokens of [auth/model],
    [auth/Manager.cpp] (sign-in and revocation), the refresh token queries, the session part of
    [protocols/ws/Session.cpp], the sweep of [ConnectionLifecycleManager.cpp] and the command gate
    of [protocols/ws/Router.cpp].  Sessions are shared by pointer, so they live on a heap; the
    tokens of a session belong to it alone (the code copies or reloads them, never shares them),
    so they are values.  JSON web tokens, password hashes, draws and clocks are the class
    [AuthOutside]; the canonical accounts and the table of refresh tokens are part of the state. *)
From S2P Require Import Prelude Monad ShareScope.
#[local] Open Scope Z_scope.

(** ** Time: [system_clock] in nanoseconds; [time_point_cast<seconds>] truncates *)
Definition second : Z := 1000000000.
Definition to_seconds (t : Z) : Z := Z.quot t second * second.
Definition minutes (n : Z) : Z := n * 60 * second.
Definition days (n : Z) : Z := n * 86400 * second.

(** ** Tokens *)
Record TokenClaims := mkClaims { c_jti : str; c_subject : str; c_tokenKind : str; c_issuedAt : Z; c_expiresAt : Z }.
Record Token := mkToken {
  rawToken : str; jti : str; subject : str; userId : Z; issuedAt : Z; expiresAt : Z; revoked : bool }.
Record RefreshToken := mkRefresh { token : Token; hashedToken : str; userAgent : str; ipAddress : str; lastUsed : Z }.
Definition accessTokenKind : str := $"access".
Definition refreshTokenKind : str := $"refresh".
Definition shareRefreshTokenKind : str := $"share_refresh".

Definition with_raw raw (t : Token) : Token := mkToken raw (jti t) (subject t) (userId t) (issuedAt t) (expiresAt t) (revoked t).
Definition with_owner u (t : Token) : Token := mkToken (rawToken t) (jti t) (subject t) u (issuedAt t) (expiresAt t) (revoked t).
Definition revoke (t : Token) : Token := mkToken (rawToken t) (jti t) (subject t) (userId t) (issuedAt t) (expiresAt t) true.
Definition on_token (f : Token -> Token) (r : RefreshToken) : RefreshToken :=
  mkRefresh (f (token r)) (hashedToken r) (userAgent r) (ipAddress r) (lastUsed r).
Definition with_hash h (r : RefreshToken) : RefreshToken := mkRefresh (token r) h (userAgent r) (ipAddress r) (lastUsed r).

Definition isExpired (t : Token) (now : Z) : bool := expiresAt t <? now.
Definition token_isValid (t : Token) (now : Z) : bool := negb (revoked t) && negb (isExpired t now).
Definition refresh_isValid (r : RefreshToken) (now : Z) : bool :=
  negb (is_empty (hashedToken r)) && negb (revoked (token r)) && negb (isExpired (token r) now).
Definition timeRemaining (t : Token) (now : Z) : Z := Z.quot (expiresAt t - now) second.
Definition divergesFrom (a b : RefreshToken) : bool :=
  (hashedToken a == hashedToken b) &&
  ((jti (token a) !== jti (token b)) || (userAgent a !== userAgent b) || (ipAddress a !== ipAddress b) ||
   negb (issuedAt (token a) =? issuedAt (token b)) || negb (expiresAt (token a) =? expiresAt (token b)) ||
   negb (lastUsed a =? lastUsed b) || (revoked (token a) !== revoked (token b))).

(** ** Sessions *)
Inductive SessionMode := Unauthenticated | Human | SharePending | Share | Device | DevicePairing.
#[export] Instance SessionMode_eq : EqDecision SessionMode. Proof. solve_decision. Defined.
Record Session := mkSession {
  uuid : str; user : option Z; agent : str; address : str; mode : SessionMode;
  sharePrincipal : option Principal; shareSessionId : str; shareSessionToken : str;
  accessToken_ : option Token; refreshToken_ : option RefreshToken; shareRefreshToken_ : option RefreshToken;
  sendAccessToken : bool; closing : bool; connectionOpenedAt : Z; handshakeComplete : bool }.

Definition with_user u m (s : Session) : Session :=
  mkSession (uuid s) u (agent s) (address s) m (sharePrincipal s) (shareSessionId s) (shareSessionToken s) (accessToken_ s) (refreshToken_ s)
    (shareRefreshToken_ s) (sendAccessToken s) (closing s) (connectionOpenedAt s) (handshakeComplete s).
Definition with_peer a ip (s : Session) : Session :=
  mkSession (uuid s) (user s) a ip (mode s) (sharePrincipal s) (shareSessionId s) (shareSessionToken s) (accessToken_ s) (refreshToken_ s)
    (shareRefreshToken_ s) (sendAccessToken s) (closing s) (connectionOpenedAt s) (handshakeComplete s).
Definition with_share p id tok m (s : Session) : Session :=
  mkSession (uuid s) (user s) (agent s) (address s) m p id tok (accessToken_ s) (refreshToken_ s)
    (shareRefreshToken_ s) (sendAccessToken s) (closing s) (connectionOpenedAt s) (handshakeComplete s).
Definition with_access t (s : Session) : Session :=
  mkSession (uuid s) (user s) (agent s) (address s) (mode s) (sharePrincipal s) (shareSessionId s) (shareSessionToken s) t (refreshToken_ s)
    (shareRefreshToken_ s) (sendAccessToken s) (closing s) (connectionOpenedAt s) (handshakeComplete s).
Definition with_refresh t (s : Session) : Session :=
  mkSession (uuid s) (user s) (agent s) (address s) (mode s) (sharePrincipal s) (shareSessionId s) (shareSessionToken s) (accessToken_ s) t
    (shareRefreshToken_ s) (sendAccessToken s) (closing s) (connectionOpenedAt s) (handshakeComplete s).
Definition with_share_refresh t (s : Session) : Session :=
  mkSession (uuid s) (user s) (agent s) (address s) (mode s) (sharePrincipal s) (shareSessionId s) (shareSessionToken s) (accessToken_ s)
    (refreshToken_ s) t (sendAccessToken s) (closing s) (connectionOpenedAt s) (handshakeComplete s).
Definition sendAccessTokenOnNextResponse (s : Session) : Session :=
  mkSession (uuid s) (user s) (agent s) (address s) (mode s) (sharePrincipal s) (shareSessionId s) (shareSessionToken s) (accessToken_ s)
    (refreshToken_ s) (shareRefreshToken_ s) true (closing s) (connectionOpenedAt s) (handshakeComplete s).
Definition with_closing (s : Session) : Session :=
  mkSession (uuid s) (user s) (agent s) (address s) (mode s) (sharePrincipal s) (shareSessionId s) (shareSessionToken s) (accessToken_ s)
    (refreshToken_ s) (shareRefreshToken_ s) (sendAccessToken s) true (connectionOpenedAt s) (handshakeComplete s).
Definition with_handshake (s : Session) : Session :=
  mkSession (uuid s) (user s) (agent s) (address s) (mode s) (sharePrincipal s) (shareSessionId s) (shareSessionToken s) (accessToken_ s)
    (refreshToken_ s) (shareRefreshToken_ s) (sendAccessToken s) (closing s) (connectionOpenedAt s) true.

Definition isSharePending (s : Session) : bool := mode s == SharePending.
Definition isShareMode (s : Session) : bool := mode s == Share.
Definition isShareSession (s : Session) : bool := isSharePending s || isShareMode s.
Definition isDeviceSession (s : Session) : bool := mode s == Device.
Definition isDevicePairing (s : Session) : bool := mode s == DevicePairing.
Definition onDeviceListener (s : Session) : bool := isDeviceSession s || isDevicePairing s.
Definition clearShareSession (s : Session) : Session :=
  with_share None [] [] (match user s with Some _ => Human | None => Unauthenticated end) s.

Definition humanRefreshJti (s : Session) : option str :=
  match refreshToken_ s with Some t => if is_empty (jti (token t)) then None else Some (jti (token t)) | None => None end.
Definition shareRefreshJti (s : Session) : option str :=
  match shareRefreshToken_ s with Some t => if is_empty (jti (token t)) then None else Some (jti (token t)) | None => None end.
Definition buildAccessTokenSubject (s : Session) : str := uuid s.
Definition buildRefreshTokenSubject (s : Session) : str := address s ++ $":" ++ agent s.

(** ** State *)
(** A row of [refresh_tokens]; its key is the column [jti]. *)
Record Row := mkRow {
  row_user : Z; row_hash : str; row_issued : Z; row_expires : Z; row_ip : str; row_agent : str; row_revoked : bool; row_last_used : Z }.
Definition row_token (j : str) (r : Row) : RefreshToken :=
  mkRefresh (mkToken [] j [] (row_user r) (row_issued r) (row_expires r) (row_revoked r)) (row_hash r) (row_agent r) (row_ip r) (row_last_used r).
(** A canonical account, as far as sessions read it; one that was deleted stays, not authorizing. *)
Record Account := mkAccount { systemOnly : bool; authorizing : bool }.
Record ValidatedStamp := mkStamp { stamp_at : Z; stamp_epoch : Z }.

(** The heap, the manager's indexes (the last one keeps duplicates) and stamps, the refresh token
    table, the accounts, the world; then a history no operation reads: each time the password of a
    user was verified on a session, with the id of the session's refresh token. *)
Record Server (W : Type) := mkServer {
  heap : gmap nat Session; sessionsByUUID : gmap str nat; sessionsByRefreshJti : gmap str nat; shareSessionsByRefreshJti : gmap str nat;
  sessionsByUserId : list (Z * nat); validatedAt : gmap str ValidatedStamp; rows : gmap str Row; accounts : gmap Z Account;
  outside : W; logins : list (Z * str) }.
Arguments mkServer {W}. Arguments heap {W}. Arguments sessionsByUUID {W}. Arguments sessionsByRefreshJti {W}.
Arguments shareSessionsByRefreshJti {W}. Arguments sessionsByUserId {W}. Arguments validatedAt {W}. Arguments rows {W}.
Arguments accounts {W}. Arguments outside {W}. Arguments logins {W}.

Section Setters.
Context {W : Type}.
Definition with_heap h (s : Server W) := mkServer h (sessionsByUUID s) (sessionsByRefreshJti s) (shareSessionsByRefreshJti s) (sessionsByUserId s) (validatedAt s) (rows s) (accounts s) (outside s) (logins s).
Definition with_uuids m (s : Server W) := mkServer (heap s) m (sessionsByRefreshJti s) (shareSessionsByRefreshJti s) (sessionsByUserId s) (validatedAt s) (rows s) (accounts s) (outside s) (logins s).
Definition with_humans m (s : Server W) := mkServer (heap s) (sessionsByUUID s) m (shareSessionsByRefreshJti s) (sessionsByUserId s) (validatedAt s) (rows s) (accounts s) (outside s) (logins s).
Definition with_shares m (s : Server W) := mkServer (heap s) (sessionsByUUID s) (sessionsByRefreshJti s) m (sessionsByUserId s) (validatedAt s) (rows s) (accounts s) (outside s) (logins s).
Definition with_users m (s : Server W) := mkServer (heap s) (sessionsByUUID s) (sessionsByRefreshJti s) (shareSessionsByRefreshJti s) m (validatedAt s) (rows s) (accounts s) (outside s) (logins s).
Definition with_validated m (s : Server W) := mkServer (heap s) (sessionsByUUID s) (sessionsByRefreshJti s) (shareSessionsByRefreshJti s) (sessionsByUserId s) m (rows s) (accounts s) (outside s) (logins s).
Definition with_rows m (s : Server W) := mkServer (heap s) (sessionsByUUID s) (sessionsByRefreshJti s) (shareSessionsByRefreshJti s) (sessionsByUserId s) (validatedAt s) m (accounts s) (outside s) (logins s).
Definition with_accounts m (s : Server W) := mkServer (heap s) (sessionsByUUID s) (sessionsByRefreshJti s) (shareSessionsByRefreshJti s) (sessionsByUserId s) (validatedAt s) (rows s) m (outside s) (logins s).
Definition with_outside (w : W) (s : Server W) := mkServer (heap s) (sessionsByUUID s) (sessionsByRefreshJti s) (shareSessionsByRefreshJti s) (sessionsByUserId s) (validatedAt s) (rows s) (accounts s) w (logins s).
Definition with_logins l (s : Server W) := mkServer (heap s) (sessionsByUUID s) (sessionsByRefreshJti s) (shareSessionsByRefreshJti s) (sessionsByUserId s) (validatedAt s) (rows s) (accounts s) (outside s) l.
End Setters.

(** ** Outside

    The token library knows the secret; decoding checks the signature, the issuer and, against its
    clock, the expiry.  [password_verifies text stored] is libsodium's check of a password hash. *)
Inductive Thrown := InvalidArgument (m : str) | RuntimeError (m : str) | DatabaseError (m : str) | ConversionError (m : str) | NullDereference.
Record Credentials := mkCredentials { cr_id : Z; cr_systemOnly : bool; cr_active : bool; cr_passwordHash : str }.
Class AuthOutside (W : Type) := {
  system_now : W -> Z * W; steady_now : W -> Z * W; draw_uuid : W -> str * W;
  jwt_sign : W -> TokenClaims -> str; jwt_decode : W -> str -> option TokenClaims;
  sha256_hex : str -> str; password_verifies : str -> str -> bool;
  transaction_fails : W -> option str * W;
  access_token_expiry_minutes : W -> Z; refresh_token_expiry_days : W -> Z; policyEpoch : W -> Z;
  credentialsByName : W -> str -> option Credentials }.
(** What the code relies on: the id in a token is a function of its text, signing a drawn id puts it
    there, an empty text is no token, and no drawn id is empty. *)
Class AuthOutsideOk (W : Type) `{AuthOutside W} := {
  raw_jti : str -> str;
  decode_jti : forall w raw c, jwt_decode w raw = Some c -> c_jti c = raw_jti raw;
  sign_jti : forall v w c, c_jti c = (draw_uuid v).1 -> raw_jti (jwt_sign w c) = c_jti c;
  decode_empty : forall w, jwt_decode w [] = None;
  draw_nonempty : forall w, (draw_uuid w).1 <> [] }.

Section Auth.
Context {W : Type} `{AuthOutside W}.
Notation M A := (Monad.M (Server W) Thrown A).

(** *** State and exceptions *)
Definition draw {A} (f : W -> A * W) : M A := fun s => let '(a, w) := f (outside s) in (Ok a, with_outside w s).
Definition ask {A} (f : W -> A) : M A := reads (fun s => Ok (f (outside s))).
Definition require (b : bool) (e : Thrown) : M unit := if b then ret tt else throw e.
Definition system_clock : M Z := draw system_now.
Definition session_at (l : nat) : M Session :=
  reads (fun s => match heap s !! l with Some x => Ok x | None => Err NullDereference end).
Definition edit (l : nat) (f : Session -> Session) : M unit := modify (fun s => with_heap (alter f l (heap s)) s).
Definition quietly (m : M unit) : M unit := handle m (fun _ => ret tt).
(** A query: the transaction fails, or the table is read or changed. *)
Definition query {A} (f : gmap str Row -> A * gmap str Row) : M A :=
  let! failure := draw transaction_fails in
  match failure with
  | Some why => throw (DatabaseError why)
  | None => fun s => let '(a, r) := f (rows s) in (Ok a, with_rows r s)
  end.
(** [User::systemOnly] and [authorizing] of a canonical account. *)
Definition user_systemOnly (a : gmap Z Account) (u : Z) : bool := match a !! u with Some x => systemOnly x | None => false end.
Definition user_authorizing (a : gmap Z Account) (u : Z) : bool := match a !! u with Some x => authorizing x | None => false end.
Definition account_of (u : Z) : M (option Account) := reads (fun s => Ok (accounts s !! u)).

(** *** Hashes *)
Inductive TokenMatch := Mismatch | Digest | Legacy.
Definition kTokenDigestPrefix : str := $"sha256:".
Definition tokenDigest (raw : str) : str := kTokenDigestPrefix ++ sha256_hex raw.
Definition is_lower_hex (c : Ascii.ascii) : bool := in_chars "0" "9" c || in_chars "a" "f" c.
Definition isPwhashString (stored : str) : bool :=
  (length stored <? 128)%nat && (starts_with stored $"$argon2id$" || starts_with stored $"$argon2i$").
Definition verifyToken (raw stored : str) : TokenMatch :=
  match strip_prefix kTokenDigestPrefix stored with
  | Some hex =>
      if negb (length hex =? 64)%nat || negb (forallb is_lower_hex hex) then Mismatch
      else if take (length (tokenDigest raw)) stored == tokenDigest raw then Digest else Mismatch
  | None => if isPwhashString stored && password_verifies raw stored then Legacy else Mismatch
  end.

(** *** Queries *)
Definition rows_set (t : RefreshToken) : M unit :=
  let! used := system_clock in
  let! taken := query (fun r => (bool_decide (is_Some (r !! jti (token t))), r)) in
  require (negb taken) (DatabaseError $"duplicate key");;
  modify (fun s => with_rows (<[jti (token t) := mkRow (userId (token t)) (hashedToken t) (to_seconds (issuedAt (token t)))
    (to_seconds (expiresAt (token t))) (ipAddress t) (userAgent t) false (to_seconds used)]> (rows s)) s).
(** The column [user_id], an integer, is read as an unsigned short: a greater one is not converted. *)
Definition short_id (r : Row) : bool := (0 <=? row_user r) && (row_user r <=? 65535).
Definition rows_get (j : str) : M (option RefreshToken) :=
  let! found := query (fun r => (r !! j, r)) in
  match found with
  | None => ret None
  | Some r => require (short_id r) (ConversionError $"user_id");; ret (Some (row_token j r))
  end.
Definition revoked_row (r : Row) : Row :=
  mkRow (row_user r) (row_hash r) (row_issued r) (row_expires r) (row_ip r) (row_agent r) true (row_last_used r).
Definition rehashed_row (h : str) (r : Row) : Row :=
  mkRow (row_user r) h (row_issued r) (row_expires r) (row_ip r) (row_agent r) (row_revoked r) (row_last_used r).
Definition rows_rewriteHash (j legacyHash digest : str) : M bool :=
  query (fun r => match r !! j with
    | Some x => if row_hash x == legacyHash then (true, <[j := rehashed_row digest x]> r) else (false, r)
    | None => (false, r) end).
Definition rows_refresh (j : str) : M unit := query (fun r => (tt, alter revoked_row j r)).
Definition rows_revokeAll (u : Z) : M unit :=
  query (fun r => (tt, (fun x => if row_user x =? u then revoked_row x else x) <$> r)).

(** *** A session's own operations *)
Definition setAuthenticatedUser (l : nat) (u : Z) : M unit :=
  let! a := reads (fun s => Ok (accounts s)) in
  require (negb (user_systemOnly a u)) (RuntimeError $"System-only users cannot authenticate WebSocket sessions");;
  edit l (fun x => with_user (Some u) Human (clearShareSession x));;
  let! x := session_at l in
  match refreshToken_ x with
  | None => throw (RuntimeError $"Cannot set authenticated user without a refresh token in session")
  | Some t => edit l (with_refresh (Some (on_token (with_owner u) t)))
  end.
Definition setPendingShareSession (l : nat) (id tok : str) : M unit :=
  let! x := session_at l in
  require (negb (bool_decide (is_Some (user x)))) (RuntimeError $"Cannot attach share session to authenticated user session");;
  require (negb (is_empty id)) (InvalidArgument $"Share session id is required");;
  require (negb (is_empty tok)) (InvalidArgument $"Share session token is required");;
  edit l (with_share None id tok SharePending).
Definition setSharePrincipal (l : nat) (p : option Principal) (tok : str) : M unit :=
  let! x := session_at l in
  require (negb (bool_decide (is_Some (user x)))) (RuntimeError $"Cannot attach share principal to authenticated user session");;
  match p with
  | None => throw (InvalidArgument $"Share principal is required")
  | Some p =>
      require (negb (is_empty tok)) (InvalidArgument $"Share session token is required");;
      edit l (with_share (Some p) (share_session_id p) tok Share)
  end.

(** *** Issuing tokens *)
Definition rejectSystemOnlyHumanToken (x : Session) : M unit :=
  let! a := reads (fun s => Ok (accounts s)) in
  require (negb (match user x with Some u => user_systemOnly a u | None => false end)) (RuntimeError $"System-only users cannot receive normal user tokens").
Definition finalizeAndSignToken (x : Session) (subject : str) (ttl : Z) (kind : str) : M Token :=
  let! now := system_clock in
  let now := to_seconds now in
  let exp := now + to_seconds ttl in
  let! id := draw draw_uuid in
  let! raw := ask (fun w => jwt_sign w (mkClaims id subject kind now exp)) in
  ret (mkToken raw id subject (default 0 (user x)) now exp false).
Definition accessToken (l : nat) : M unit :=
  let! x := session_at l in
  rejectSystemOnlyHumanToken x;;
  let! ttl := ask access_token_expiry_minutes in
  let! t := finalizeAndSignToken x (buildAccessTokenSubject x) (minutes ttl) accessTokenKind in
  edit l (fun x => sendAccessTokenOnNextResponse (with_access (Some t) x)).
Definition new_refresh (x : Session) (kind failed : str) : M RefreshToken :=
  let! ttl := ask refresh_token_expiry_days in
  let! used := system_clock in
  let! t := finalizeAndSignToken x (buildRefreshTokenSubject x) (days ttl) kind in
  let hashed := tokenDigest (rawToken t) in
  require (negb (is_empty hashed)) (RuntimeError failed);;
  ret (mkRefresh t hashed (agent x) (address x) used).
Definition refreshToken (l : nat) : M unit :=
  let! x := session_at l in
  rejectSystemOnlyHumanToken x;;
  let! t := new_refresh x refreshTokenKind $"Failed to hash refresh token" in
  edit l (with_refresh (Some t)).
Definition shareRefreshToken (l : nat) : M unit :=
  let! x := session_at l in
  let! t := new_refresh x shareRefreshTokenKind $"Failed to hash share refresh token" in
  edit l (with_share_refresh (Some t)).
Definition decode (raw : str) : M (option TokenClaims) := ask (fun w => jwt_decode w raw).

(** *** The manager's indexes *)
Definition get (tok : str) : M (option nat) :=
  reads (fun s => Ok (match sessionsByUUID s !! tok with Some l => Some l | None => sessionsByRefreshJti s !! tok end)).
Definition getShareByRefreshJti (tok : str) : M (option nat) := reads (fun s => Ok (shareSessionsByRefreshJti s !! tok)).
Definition getSessionsByUserId (u : Z) : M (list nat) := reads (fun s => Ok (filter (fun e => e.1 = u) (sessionsByUserId s)).*2).
Definition getActive : M (list nat) := reads (fun s => Ok (map_to_list (sessionsByUUID s)).*2).

(** The entries of an index without those of [l] or under [j]. *)
Definition without (l : nat) (j : option str) (m : gmap str nat) : gmap str nat :=
  filter (fun e => negb ((Some e.1 == j) || (e.2 =? l)%nat) = true) m.
Definition eraseSessionIndexesLocked (l : nat) (x : Session) (j : option str) : M unit :=
  modify (fun s => with_validated (match j with Some j => delete j (validatedAt s) | None => validatedAt s end) s);;
  modify (fun s => with_uuids (delete (uuid x) (sessionsByUUID s)) s);;
  modify (fun s => with_humans (without l j (sessionsByRefreshJti s)) s);;
  modify (fun s => with_shares (without l j (shareSessionsByRefreshJti s)) s);;
  modify (fun s => with_users (filter (fun e => e.2 <> l) (sessionsByUserId s)) s).

Definition indexHumanRefreshTokenLocked (l : nat) (x : Session) (m : gmap str nat) : gmap str nat :=
  match humanRefreshJti x with
  | Some j => if isShareSession x then m else <[j := l]> m
  | None => m
  end.
Definition indexShareRefreshTokenLocked (l : nat) (x : Session) (m : gmap str nat) : gmap str nat :=
  match shareRefreshJti x with
  | Some j => match user x with Some _ => m | None => <[j := l]> m end
  | None => m
  end.
Definition stale (l : nat) (old : option str) (current : str) (unfit : bool) (e : str * nat) : bool :=
  (Some e.1 == old) || ((e.2 =? l)%nat && (e.1 !== current)) || ((e.2 =? l)%nat && unfit).
Definition reindexHuman (l : nat) (x : Session) (old : option str) (m : gmap str nat) : gmap str nat :=
  indexHumanRefreshTokenLocked l x
    (filter (fun e => stale l old (default [] (humanRefreshJti x)) (isShareSession x) e = false) m).
Definition reindexShare (l : nat) (x : Session) (old : option str) (m : gmap str nat) : gmap str nat :=
  indexShareRefreshTokenLocked l x
    (filter (fun e => stale l old (default [] (shareRefreshJti x)) (bool_decide (is_Some (user x))) e = false) m).
Definition index_uuid (l : nat) (x : Session) : M unit := modify (fun s => with_uuids (<[uuid x := l]> (sessionsByUUID s)) s).
Definition reindexHumanRefreshTokenLocked (l : nat) (x : Session) (old : option str) : M unit :=
  modify (fun s => with_humans (reindexHuman l x old (sessionsByRefreshJti s)) s).
Definition reindexShareRefreshTokenLocked (l : nat) (x : Session) (old : option str) : M unit :=
  modify (fun s => with_shares (reindexShare l x old (shareSessionsByRefreshJti s)) s).
Definition cache (l : nat) : M unit :=
  let! x := session_at l in
  index_uuid l x;;
  reindexHumanRefreshTokenLocked l x None;;
  reindexShareRefreshTokenLocked l x None;;
  match user x with
  | Some u => modify (fun s => with_users (sessionsByUserId s ++ [(u, l)]) s)
  | None => ret tt
  end.

Definition rotateRefreshToken (l : nat) : M unit :=
  let! x := session_at l in
  let old := humanRefreshJti x in
  refreshToken l;;
  let! x := session_at l in
  index_uuid l x;; reindexHumanRefreshTokenLocked l x old.
Definition rotateShareRefreshToken (l : nat) : M unit :=
  let! x := session_at l in
  let old := shareRefreshJti x in
  shareRefreshToken l;;
  let! x := session_at l in
  index_uuid l x;; reindexShareRefreshTokenLocked l x old.

(** [humanRefreshJti], or else [shareRefreshJti]: what [remove] and [invalidate] erase. *)
Definition erased_jti (x : Session) : option str := match humanRefreshJti x with Some j => Some j | None => shareRefreshJti x end.
Definition remove (l : nat) : M unit :=
  let! x := session_at l in
  eraseSessionIndexesLocked l x (erased_jti x).
Definition hardInvalidate (l : nat) : M unit :=
  edit l (fun x => with_refresh (on_token revoke <$> refreshToken_ x) x);;
  let! x := session_at l in
  match humanRefreshJti x with Some j => rows_refresh j | None => ret tt end;;
  edit l (fun x => with_refresh (on_token (with_raw []) <$> (with_hash [] <$> refreshToken_ x)) x).
Definition tokens_invalidate (l : nat) : M unit :=
  edit l (fun x => with_access (revoke <$> accessToken_ x) x);;
  let! x := session_at l in
  (match refreshToken_ x with Some _ => hardInvalidate l | None => ret tt end);;
  edit l (fun x => with_share_refresh (on_token (with_raw []) <$> (with_hash [] <$> (on_token revoke <$> shareRefreshToken_ x))) x).
Definition invalidate (l : nat) : M unit :=
  let! x := session_at l in
  let j := erased_jti x in
  tokens_invalidate l;;
  eraseSessionIndexesLocked l x j.

(** *** Validating *)
Definition hasUsableAccessToken (x : Session) : M bool :=
  match accessToken_ x with
  | None => ret false
  | Some t => let! now := system_clock in ret (token_isValid t now)
  end.
Definition hasUsableRefreshToken (x : Session) : M bool :=
  match refreshToken_ x with
  | None => ret false
  | Some t => let! now := system_clock in ret (refresh_isValid t now)
  end.
Definition hasUsableRefreshContext (x : Session) : bool :=
  match refreshToken_ x with
  | None => false
  | Some t => negb (is_empty (rawToken (token t)) && is_empty (hashedToken t))
  end.
Definition softValidateActiveSession (l : nat) : M bool :=
  let! x := session_at l in
  let! a := reads (fun s => Ok (accounts s)) in
  match user x with
  | None => ret false
  | Some u =>
      if user_systemOnly a u then ret false
      else let! access := hasUsableAccessToken x in
           if access then hasUsableRefreshToken x else ret false
  end.

Definition undecodable : Thrown := RuntimeError $"Invalid refresh token: unable to decode claims".
Definition validateClaims (t : Token) (claims : option TokenClaims) : M unit :=
  match claims with
  | None => throw undecodable
  | Some c =>
      let! now := system_clock in
      require (negb (c_expiresAt c <? now)) (RuntimeError $"Refresh token has expired");;
      require (to_seconds (issuedAt t) =? to_seconds (c_issuedAt c)) (RuntimeError $"Issued at time mismatch in refresh token");;
      require (to_seconds (c_expiresAt c) =? to_seconds (expiresAt t)) (RuntimeError $"Expiration time mismatch in refresh token");;
      require (negb (is_empty (c_jti c))) (RuntimeError $"Missing JTI in refresh token");;
      require (c_jti c == jti t) (RuntimeError $"JTI mismatch in refresh token");;
      require (negb (is_empty (c_subject c))) (RuntimeError $"Missing subject in refresh token")
  end.
Definition validateRefreshClaims (x : Session) (claims : option TokenClaims) : M unit :=
  match claims with
  | None => throw undecodable
  | Some c =>
      let! now := system_clock in
      require (negb (c_expiresAt c <? now)) (RuntimeError $"Refresh token has expired");;
      require (negb (is_empty (c_jti c))) (RuntimeError $"Missing JTI in refresh token");;
      require (negb (is_empty (c_subject c))) (RuntimeError $"Missing subject in refresh token");;
      require (c_subject c == buildRefreshTokenSubject x) (RuntimeError $"Refresh token subject mismatch")
  end.
Definition validateAccessToken (l : nat) (access : str) : M bool :=
  handle
    (let! x := session_at l in
     let! usable := hasUsableAccessToken x in
     if negb usable then ret false
     else match accessToken_ x with
       | None => ret false
       | Some t =>
           if rawToken t !== access then ret false
           else let! claims := decode access in
                validateClaims t claims;;
                match claims with
                | Some c => ret (c_subject c == buildAccessTokenSubject x)
                | None => throw NullDereference
                end
       end)
    (fun _ => ret false).

Definition kind_allowed (c : TokenClaims) : bool := is_empty (c_tokenKind c) || (c_tokenKind c == refreshTokenKind).
Definition copy_prior (l : nat) (prior : Session) (t : RefreshToken) (raw : str) (c : TokenClaims) : M bool :=
  handle
    (validateClaims (token t) (Some c);;
     let! x := session_at l in
     if c_subject c !== buildRefreshTokenSubject x then ret false
     else
       edit l (with_refresh (Some (on_token (with_raw raw) t)));;
       match user prior with
       | None => ret true
       | Some u =>
           let! a := reads (fun s => Ok (accounts s)) in
           require (negb (user_systemOnly a u)) (RuntimeError $"System-only users cannot rehydrate human sessions");;
           setAuthenticatedUser l u;; ret true
       end)
    (fun _ => ret false).
Definition tryRehydrateFromPriorSession (l : nat) (raw : str) (claims : option TokenClaims) : M bool :=
  match claims with
  | None => ret false
  | Some c =>
      let! found := get (c_jti c) in
      match found with
      | None => ret false
      | Some p =>
          if (p =? l)%nat then ret false
          else
            let! prior := session_at p in
            match refreshToken_ prior with
            | None => ret false
            | Some t =>
                if isShareSession prior || (rawToken (token t) !== raw) || negb (kind_allowed c) then ret false
                else copy_prior l prior t raw c
            end
      end
  end.

Definition verifyStoredRefreshTokenHash (raw : str) (stored : RefreshToken) : M RefreshToken :=
  match verifyToken raw (hashedToken stored) with
  | Mismatch => throw (RuntimeError $"Refresh token hash mismatch")
  | Digest => ret stored
  | Legacy =>
      let digest := tokenDigest raw in
      handle (let! rewritten := rows_rewriteHash (jti (token stored)) (hashedToken stored) digest in
              ret (if rewritten : bool then with_hash digest stored else stored))
             (fun _ => ret stored)
  end.
Definition stored_user (l : nat) (u : Z) : M unit :=
  let! a := account_of u in
  match a with
  | None => invalidate l;; throw (RuntimeError $"No user found for refresh token")
  | Some a =>
      if systemOnly a then invalidate l;; throw (RuntimeError $"System-only users cannot use human refresh tokens")
      else if negb (authorizing a) then invalidate l;; throw (RuntimeError $"Deactivated users cannot use refresh tokens")
      else ret tt
  end.
Definition rehydrateFromStoredRefreshToken (l : nat) (raw : str) (claims : option TokenClaims) : M unit :=
  match claims with
  | None => throw undecodable
  | Some c =>
      let! found := rows_get (c_jti c) in
      match found with
      | None => throw (RuntimeError $"No stored refresh token found for JTI")
      | Some stored =>
          let! now := system_clock in
          require (refresh_isValid stored now) (RuntimeError $"Stored refresh token is not valid");;
          validateClaims (token stored) claims;;
          let! x := session_at l in
          require (c_subject c == buildRefreshTokenSubject x) (RuntimeError $"Refresh token subject mismatch");;
          match refreshToken_ x with
          | None => throw NullDereference
          | Some incoming =>
              require (negb (divergesFrom incoming stored)) (RuntimeError $"Potential token tampering detected");;
              let! stored := verifyStoredRefreshTokenHash raw stored in
              stored_user l (userId (token stored));;
              edit l (with_refresh (Some (on_token (with_raw raw) stored)));;
              setAuthenticatedUser l (userId (token stored))
          end
      end
  end.
Definition validateRefreshToken (l : nat) : M unit :=
  let! x := session_at l in
  require (hasUsableRefreshContext x) (RuntimeError $"No valid refresh token context found for session");;
  match refreshToken_ x with
  | None => throw NullDereference
  | Some t =>
      let raw := rawToken (token t) in
      let! claims := decode raw in
      match claims with
      | None => throw (RuntimeError $"Invalid refresh token: unable to decode claims")
      | Some c =>
          require (kind_allowed c) (RuntimeError $"Refresh token kind mismatch");;
          validateRefreshClaims x claims;;
          let! copied := tryRehydrateFromPriorSession l raw claims in
          if copied : bool then ret tt else rehydrateFromStoredRefreshToken l raw claims
      end
  end.

(** *** The manager's operations *)
Definition tryRehydrate (l : nat) : M unit :=
  handle (validateRefreshToken l;; accessToken l;; cache l) (fun _ => rotateRefreshToken l).

(** The history: the password of [u] was verified on the session. *)
Definition note_login (l : nat) (u : Z) : M unit :=
  let! x := session_at l in
  modify (fun s => with_logins (logins s ++ [(u, default [] ((fun t => jti (token t)) <$> refreshToken_ x))]) s).
Definition promote (l : nat) : M unit :=
  let! x := session_at l in
  match user x with
  | None => throw (InvalidArgument $"Invalid session data for promotion")
  | Some u =>
      let! a := reads (fun s => Ok (accounts s)) in
      require (negb (user_systemOnly a u)) (RuntimeError $"System-only users cannot be promoted to human sessions");;
      let! usable := hasUsableRefreshToken x in
      (if usable : bool then ret tt else rotateRefreshToken l);;
      note_login l u;;
      accessToken l;;
      let! active := softValidateActiveSession l in
      require active (InvalidArgument $"Invalid session data for promotion");;
      edit l (fun x => with_refresh (on_token (with_owner u) <$> refreshToken_ x) x);;
      let! x := session_at l in
      match refreshToken_ x with
      | None => throw NullDereference
      | Some t =>
          let! existing := rows_get (jti (token t)) in
          match existing with
          | Some stored => edit l (with_refresh (Some stored));; cache l
          | None =>
              rows_set t;;
              let! stored := rows_get (jti (token t)) in
              edit l (with_refresh stored);;
              match stored with
              | None => throw (RuntimeError $"Failed to retrieve updated refresh token during promotion")
              | Some _ => cache l
              end
          end
      end
  end.

Definition refreshed_or_invalid (l : nat) : M unit :=
  handle (validateRefreshToken l) (fun _ => throw (InvalidArgument $"Invalid refresh token during access token renewal")).
Definition renewAccessToken (l : nat) (existing : str) : M unit :=
  let! x := session_at l in
  (if bool_decide (is_Some (user x)) then ret tt else refreshed_or_invalid l);;
  let! valid := validateAccessToken l existing in
  (if valid : bool then ret tt else refreshed_or_invalid l);;
  accessToken l;; cache l.

Definition validate (l : nat) (access : str) : M bool :=
  handle
    (let! x := session_at l in
     let! a := reads (fun s => Ok (accounts s)) in
     if onDeviceListener x then
       ret (isDeviceSession x && negb (closing x) &&
            match user x with Some u => negb (user_systemOnly a u) && user_authorizing a u | None => false end)
     else match user x with
       | None => validateRefreshToken l;; accessToken l;; cache l;; ret true
       | Some _ =>
           let! valid := validateAccessToken l access in
           if valid : bool then
             let! x := session_at l in
             let! now := system_clock in
             (if match accessToken_ x with Some t => timeRemaining t now <? 5 * 60 | None => false end then accessToken l else ret tt);;
             cache l;; ret true
           else validateRefreshToken l;; accessToken l;; cache l;; ret true
       end)
    (fun _ => ret false).

Definition kRevalidateAfter : Z := 30 * second.
Definition refreshTokenSubjectFromStoredToken (t : RefreshToken) : str := ipAddress t ++ $":" ++ userAgent t.
(** [make_shared<Session>()] *)
Definition new_session : M nat :=
  let! id := draw draw_uuid in
  let! now := system_clock in
  let! s := Monad.get in
  let l := fresh (dom (heap s)) in
  modify (with_heap (<[l := mkSession id None [] [] Unauthenticated None [] [] None None None false false now false]> (heap s)));;
  ret l.
Definition rehydrateHumanSessionFromStoredRefreshToken (raw : str) (c : TokenClaims) : M nat :=
  let! found := rows_get (c_jti c) in
  match found with
  | None => throw (InvalidArgument $"No stored refresh token found for validation")
  | Some stored =>
      let! now := system_clock in
      require (refresh_isValid stored now) (InvalidArgument $"Stored refresh token is not valid");;
      validateClaims (token stored) (Some c);;
      require (c_subject c == refreshTokenSubjectFromStoredToken stored) (RuntimeError $"Refresh token subject mismatch");;
      let! stored := verifyStoredRefreshTokenHash raw stored in
      let! a := account_of (userId (token stored)) in
      match a with
      | None => throw (RuntimeError $"No user found for refresh token")
      | Some a =>
          require (negb (systemOnly a)) (RuntimeError $"System-only users cannot rehydrate human sessions");;
          require (authorizing a) (RuntimeError $"Deactivated users cannot rehydrate sessions");;
          let! l := new_session in
          edit l (fun x => with_refresh (Some (on_token (with_raw raw) stored)) (with_peer (userAgent stored) (ipAddress stored) x));;
          setAuthenticatedUser l (userId (token stored));;
          ret l
      end
  end.

(** The cookie's text goes into a session whose token has none. *)
Definition adopt_raw (l : nat) (t : RefreshToken) (raw : str) : M unit :=
  if is_empty (rawToken (token t)) then edit l (fun x => with_refresh (on_token (with_raw raw) <$> refreshToken_ x) x)
  else require (rawToken (token t) == raw) (InvalidArgument $"Refresh token mismatch for validation").
Definition is_fresh (j : str) (now : Z) : M bool :=
  reads (fun s => Ok (match validatedAt s !! j with
    | Some st => (now - stamp_at st <? kRevalidateAfter) && (stamp_epoch st =? policyEpoch (outside s)) && bool_decide (is_Some (sessionsByRefreshJti s !! j))
    | None => false end)).
Definition stamp (j : str) (now : Z) : M unit :=
  modify (fun s => if bool_decide (is_Some (sessionsByRefreshJti s !! j)) then with_validated (<[j := mkStamp now (policyEpoch (outside s))]> (validatedAt s)) s else s).
Definition valid_refresh (l : nat) : M bool :=
  let! x := session_at l in
  match refreshToken_ x with
  | None => throw NullDereference
  | Some t => let! now := system_clock in ret (refresh_isValid t now)
  end.
Definition validateRawRefreshToken (raw : str) : M nat :=
  let! claims := decode raw in
  match claims with
  | None => throw (InvalidArgument $"Invalid refresh token for validation")
  | Some c =>
      require (negb (is_empty (c_jti c))) (InvalidArgument $"Invalid refresh token for validation");;
      require (kind_allowed c) (InvalidArgument $"Refresh token kind is not human refresh");;
      let! found := get (c_jti c) in
      match found with
      | None => rehydrateHumanSessionFromStoredRefreshToken raw c
      | Some l =>
          let! x := session_at l in
          match refreshToken_ x with
          | None => throw (InvalidArgument $"Session does not contain a refresh token for validation")
          | Some t =>
              adopt_raw l t raw;;
              let! now := draw steady_now in
              let! known := is_fresh (c_jti c) now in
              let! good := (if known then valid_refresh l else ret false) in
              (if good : bool then ret tt else validateRefreshToken l;; stamp (c_jti c) now);;
              let! x := session_at l in
              let! a := reads (fun s => Ok (accounts s)) in
              match user x with
              | None => throw (InvalidArgument $"Refresh token did not resolve to a human session")
              | Some u =>
                  require (negb (isShareSession x)) (InvalidArgument $"Refresh token did not resolve to a human session");;
                  require (negb (user_systemOnly a u)) (InvalidArgument $"System-only users cannot use human refresh tokens");;
                  ret l
              end
          end
      end
  end.

(** *** Share sessions *)
Definition isShareRefreshKind (c : TokenClaims) : bool := c_tokenKind c == shareRefreshTokenKind.
Definition hydrateShareRefreshToken (l : nat) (raw : str) (c : TokenClaims) : M unit :=
  let! x := session_at l in
  require (isShareRefreshKind c) (InvalidArgument $"Invalid share refresh token kind");;
  require (c_subject c == buildRefreshTokenSubject x) (RuntimeError $"Share refresh token subject mismatch");;
  let! used := system_clock in
  let old := default (mkRefresh (mkToken [] [] [] 0 used used false) [] [] [] used) (shareRefreshToken_ x) in
  edit l (with_share_refresh (Some (mkRefresh
    (mkToken raw (c_jti c) (c_subject c) (userId (token old)) (c_issuedAt c) (c_expiresAt c) (revoked (token old)))
    (tokenDigest raw) (agent x) (address x) (lastUsed old)))).
Definition copyShareState (l p : nat) : M unit :=
  let! source := session_at p in
  if (l =? p)%nat || bool_decide (is_Some (user source)) then ret tt
  else if isShareMode source && bool_decide (is_Some (sharePrincipal source)) then setSharePrincipal l (sharePrincipal source) (shareSessionToken source)
  else if isSharePending source && negb (is_empty (shareSessionId source)) && negb (is_empty (shareSessionToken source))
  then setPendingShareSession l (shareSessionId source) (shareSessionToken source)
  else ret tt.
Definition tryRehydrateShareRefresh (l : nat) : M unit :=
  let! x := session_at l in
  let raw := match shareRefreshToken_ x with Some t => rawToken (token t) | None => [] end in
  if is_empty raw then rotateShareRefreshToken l
  else
    handle
      (let! claims := decode raw in
       match claims with
       | None => throw (RuntimeError $"Invalid share refresh token claims")
       | Some c =>
           require (negb (is_empty (c_jti c))) (RuntimeError $"Invalid share refresh token claims");;
           hydrateShareRefreshToken l raw c;;
           let! prior := getShareByRefreshJti (c_jti c) in
           (match prior with Some p => copyShareState l p | None => ret tt end);;
           cache l
       end)
      (fun _ => rotateShareRefreshToken l).
Definition validateRawShareRefreshToken (raw : str) : M nat :=
  let! claims := decode raw in
  match claims with
  | None => throw (InvalidArgument $"Invalid share refresh token for validation")
  | Some c =>
      require (negb (is_empty (c_jti c))) (InvalidArgument $"Invalid share refresh token for validation");;
      require (isShareRefreshKind c) (InvalidArgument $"Refresh token kind is not share refresh");;
      let! found := getShareByRefreshJti (c_jti c) in
      match found with
      | None => throw (InvalidArgument $"No share session found for refresh token validation")
      | Some l =>
          let! x := session_at l in
          require (negb (bool_decide (is_Some (user x)))) (InvalidArgument $"Share refresh token resolved to a human session");;
          require (isShareMode x) (InvalidArgument $"Share session is not ready for preview");;
          match shareRefreshToken_ x with
          | None => throw (InvalidArgument $"Share session does not contain a refresh token")
          | Some t =>
              (if is_empty (rawToken (token t)) then edit l (fun x => with_share_refresh (on_token (with_raw raw) <$> shareRefreshToken_ x) x)
               else require (rawToken (token t) == raw) (InvalidArgument $"Share refresh token mismatch for validation"));;
              let! now := system_clock in
              require (refresh_isValid t now) (InvalidArgument $"Share refresh token is not valid");;
              validateClaims (token t) claims;;
              require (c_subject c == buildRefreshTokenSubject x) (RuntimeError $"Share refresh token subject mismatch");;
              ret l
          end
      end
  end.

(** *** Signing in, and revoking *)
(** [identities::Manager::recordLogin] writes the time of the sign-in. *)
Definition recordLogin (u : Z) : M unit := query (fun r => (tt, r)).
Definition loginUser (name password : str) (l : nat) : M unit :=
  let! found := ask (fun w => credentialsByName w name) in
  match found with
  | None => throw (RuntimeError ($"User not found: " ++ name))
  | Some c =>
      require (negb (cr_systemOnly c)) (RuntimeError $"System-only users cannot log in");;
      require (cr_active c) (RuntimeError $"This account is deactivated");;
      require (password_verifies password (cr_passwordHash c)) (RuntimeError ($"Invalid password for user: " ++ name));;
      recordLogin (cr_id c);;
      let! a := account_of (cr_id c) in
      require (bool_decide (is_Some a)) (RuntimeError ($"User not found: " ++ name));;
      note_login l (cr_id c);;
      setAuthenticatedUser l (cr_id c);;
      promote l
  end.

(** *** Websocket sessions *)
Definition close (l : nat) : M unit :=
  let! x := session_at l in
  if closing x then ret tt else edit l with_closing;; remove l.
Definition accept : M nat := let! l := new_session in cache l;; ret l.
Definition placeholder (raw : str) (now : Z) : RefreshToken := mkRefresh (mkToken raw [] [] 0 now now false) [] [] [] now.
Definition hydrateFromRequest (l : nat) (share : bool) (cookie ip ua : str) : M unit :=
  edit l (with_peer ua ip);;
  let! now := system_clock in
  if share then
    edit l (with_share_refresh (Some (placeholder cookie now)));; tryRehydrateShareRefresh l
  else
    edit l (with_refresh (Some (placeholder cookie now)));; tryRehydrate l;;
    let! x := session_at l in
    match user x with
    | Some _ => ret tt
    | None =>
        match refreshToken_ x with
        | None => throw (RuntimeError $"invariant violation: refresh token missing after hydration/bootstrap")
        | Some t =>
            let! now := system_clock in
            require (refresh_isValid t now) (RuntimeError $"invariant violation: refresh token invalid after hydration/bootstrap")
        end
    end.
Definition onHeadersRead (l : nat) (share : bool) (cookie ip ua : str) : M unit :=
  handle (hydrateFromRequest l share cookie ip ua) (fun _ => close l).
Definition onHandshakeAccepted (l : nat) : M unit := edit l with_handshake.
(** A device connection: the certificate settled who it is. *)
Definition acceptDevice (ip ua : str) (deviceUser : option Z) : M nat :=
  let! a := reads (fun s => Ok (accounts s)) in
  require (negb (match deviceUser with Some u => user_systemOnly a u | None => false end)) (RuntimeError $"System-only users cannot own devices");;
  let! l := new_session in
  edit l (fun x => with_user deviceUser (match deviceUser with Some _ => Device | None => DevicePairing end) (with_peer ua ip x));;
  cache l;; ret l.

(** [Deps::authManager->revokeSessions]: rows first, then the live sessions. *)
Definition revoke_one (l : nat) : M unit :=
  quietly (invalidate l;; let! x := session_at l in if isDeviceSession x then close l else ret tt).
Definition revokeSessions (u : Z) : M unit :=
  rows_revokeAll u;;
  let! live := getSessionsByUserId u in
  for_each live revoke_one.

(** *** The sweep *)
Inductive SweepVerdict := Keep | UnauthenticatedTimeout | InvalidRefreshToken | DeviceEnded.
Definition kDevicePairingLifetime : Z := minutes 15.
Definition verdict (a : gmap Z Account) (x : Session) (now timeout : Z) : SweepVerdict :=
  let expired := connectionOpenedAt x + timeout <? now in
  if negb (handshakeComplete x) then (if expired then UnauthenticatedTimeout else Keep)
  else if isDevicePairing x then (if connectionOpenedAt x + kDevicePairingLifetime <? now then DeviceEnded else Keep)
  else if isDeviceSession x then
    (if match user x with Some u => user_authorizing a u | None => false end then Keep else DeviceEnded)
  else if negb (bool_decide (is_Some (user x))) && negb (isShareSession x) && expired then UnauthenticatedTimeout
  else
    match (match refreshToken_ x with Some t => Some t | None => shareRefreshToken_ x end) with
    | Some t => if refresh_isValid t now then Keep else InvalidRefreshToken
    | None => InvalidRefreshToken
    end.
Definition sweep_one (timeout : Z) (l : nat) : M unit :=
  let! x := session_at l in
  let! now := system_clock in
  let! a := reads (fun s => Ok (accounts s)) in
  match verdict a x now timeout with
  | Keep => ret tt
  | _ => quietly (invalidate l);; close l
  end.
Definition sweepActiveSessions (timeout : Z) : M unit :=
  let! live := getActive in for_each live (sweep_one timeout).

(** *** The router's gate *)
Definition containsCommand (commands : list str) (command : str) : bool := existsb (eqb command) commands.
Definition kHelloCommand : str := $"meta.hello".
Definition isSessionLifecycleCommand := containsCommand [$"auth.login"; $"auth.logout"; $"auth.refresh"; $"auth.isAuthenticated"].
Definition isPublicShareCommand := containsCommand [$"share.session.open"; $"share.email.challenge.start"; $"share.email.challenge.confirm"].
Definition isShareFilesystemCommand := containsCommand [$"share.fs.metadata"; $"share.fs.list"].
Definition isShareNativeFilesystemCommand := containsCommand [$"fs.metadata"; $"fs.list"].
Definition isShareNativeDownloadCommand := containsCommand [$"fs.download.start"; $"fs.download.chunk"; $"fs.download.cancel"].
Definition isShareNativeUploadCommand := containsCommand [$"fs.upload.start"; $"fs.upload.finish"; $"fs.upload.cancel"].
Definition isShareDownloadCommand := containsCommand [$"share.download.start"; $"share.download.chunk"; $"share.download.cancel"].
Definition isSharePreviewCommand := containsCommand [$"share.preview.get"].
Definition isShareUploadCommand := containsCommand [$"share.upload.start"; $"share.upload.finish"; $"share.upload.cancel"].
Definition isShareModeCommand (c : str) : bool :=
  isPublicShareCommand c || isShareFilesystemCommand c || isShareNativeFilesystemCommand c || isShareNativeDownloadCommand c ||
  isShareNativeUploadCommand c || isShareDownloadCommand c || isSharePreviewCommand c || isShareUploadCommand c.
Definition isDevicePairCommand := containsCommand [$"device.pair.request"; $"device.pair.confirm"; $"device.pair.status"].
Definition isDeviceOnlyCommand := containsCommand [$"device.identity.rotate"; $"device.server.identity"].

Inductive CommandAuthDecision := Allow | RequireHumanAuth | Deny | DenyDeviceUnknown.
Definition share_scoped (c : str) : bool :=
  isPublicShareCommand c || isShareFilesystemCommand c || isShareDownloadCommand c || isSharePreviewCommand c || isShareUploadCommand c.
Definition classifyCommand (a : gmap Z Account) (c : str) (x : Session) : CommandAuthDecision :=
  if isDevicePairing x then
    if isDevicePairCommand c || (c == $"meta.contract.get") || (c == kHelloCommand) then Allow else DenyDeviceUnknown
  else if isDeviceSession x then
    if closing x || match user x with Some u => user_systemOnly a u || negb (user_authorizing a u) | None => true end then Deny
    else if isSessionLifecycleCommand c && (c !== $"auth.isAuthenticated") then Deny
    else if c == $"auth.register" then Deny
    else if share_scoped c then Deny else Allow
  else if isDevicePairCommand c || isDeviceOnlyCommand c then Deny
  else if isSharePending x then (if isPublicShareCommand c then Allow else Deny)
  else if isShareMode x then (if isShareModeCommand c then Allow else Deny)
  else match user x with
    | Some u =>
        if user_systemOnly a u || negb (user_authorizing a u) then Deny
        else if share_scoped c then Deny
        else if isSessionLifecycleCommand c then Allow else RequireHumanAuth
    | None => if isSessionLifecycleCommand c || isPublicShareCommand c then Allow else Deny
    end.

(** [Router::routeMessage] up to the rate limits ([WsLimits]): may the command's handler run? *)
Definition admits (l : nat) (command access : str) : M bool :=
  let! x := session_at l in
  let! a := reads (fun s => Ok (accounts s)) in
  match classifyCommand a command x with
  | Deny | DenyDeviceUnknown => ret false
  | RequireHumanAuth => validate l access
  | Allow => ret true
  end.
(** A message; an exception of the handler is answered with an error. *)
Definition routeMessage (l : nat) (command access : str) (handler : M unit) : M unit :=
  let! admitted := admits l command access in
  if admitted then quietly handler else ret tt.

(** *** Handlers that change sessions *)
Definition auth_login (name password : str) (l : nat) : M unit :=
  loginUser name password l;;
  let! active := softValidateActiveSession l in
  require active (RuntimeError $"Failed to validate session after login");;
  edit l sendAccessTokenOnNextResponse.
Definition auth_refresh (access : str) (l : nat) : M Z :=
  renewAccessToken l access;;
  let! x := session_at l in
  match user x with Some u => ret u | None => throw (RuntimeError $"Failed to resolve user during token refresh") end.
Definition auth_logout (l : nat) : M unit := invalidate l.
(** The answer's user, when the session counts as authenticated: [*session->user]. *)
Definition isUserAuthenticated (access : str) (l : nat) : M (option Z) :=
  let! valid := validate l access in
  if valid : bool then
    let! x := session_at l in
    match user x with Some u => ret (Some u) | None => throw NullDereference end
  else ret None.
(** The share commands, with what the share manager answered.  [share.session.open] for the link
    [requested]: a ready principal, or a session [id] that waits for an e-mail, or an exception;
    [share.email.challenge.start]: the session the challenge belongs to, if there is one;
    [share.email.challenge.confirm], when the code was right. *)
Definition requireNonHumanShareBootstrap (x : Session) : M unit :=
  require (negb (bool_decide (is_Some (user x)))) (RuntimeError $"Share session commands require a public websocket session").
Definition attachReadyPrincipal (l : nat) (p : Principal) (tok : str) : M unit := setSharePrincipal l (Some p) tok.
Definition sessions_open (l : nat) (requested : str) (answer : option (option Principal)) (id tok : str) : M unit :=
  let! x := session_at l in
  requireNonHumanShareBootstrap x;;
  if isShareMode x && match sharePrincipal x with Some p => share_id p == requested | None => false end then ret tt
  else
    (if isShareSession x then edit l clearShareSession else ret tt);;
    match answer with
    | None => throw (RuntimeError $"Share session could not be opened")
    | Some (Some p) => attachReadyPrincipal l p tok;; cache l
    | Some None => setPendingShareSession l id tok;; cache l
    end.
Definition startEmailChallenge (l : nat) (answer : option (str * str)) : M unit :=
  let! x := session_at l in
  requireNonHumanShareBootstrap x;;
  require (negb (isShareMode x)) (RuntimeError $"Share session is already verified");;
  match answer with
  | Some (id, tok) => if is_empty tok then ret tt else setPendingShareSession l id tok
  | None => ret tt
  end.
Definition confirmEmailChallenge (l : nat) (p : Principal) (tok : str) : M unit :=
  let! x := session_at l in
  requireNonHumanShareBootstrap x;;
  require (negb (isShareMode x)) (RuntimeError $"Share session is already verified");;
  require (negb (is_empty tok)) (InvalidArgument $"Share session token is required");;
  attachReadyPrincipal l p tok;; cache l.
End Auth.

(** ** A small installation

    Every tick of the counter is a millisecond; a token's text spells out its claims and its digest keeps the digits; [alice] is user
    1 and [bob] is user 2, each with the own name as password. *)
Module AuthDemo.
Definition spell (c : TokenClaims) : str :=
  c_jti c ++ $"|" ++ c_subject c ++ $"|" ++ c_tokenKind c ++ $"|" ++ to_string (c_issuedAt c) ++ $"|" ++ to_string (c_expiresAt c).
Definition read (raw : str) : option TokenClaims :=
  match fields "|"%char raw [] with [j; s; k; i; e] => Some (mkClaims j s k (decimal_value i) (decimal_value e)) | _ => None end.
Definition id (n : Z) : str := repeat "i"%char (S (Z.to_nat n)).
Fixpoint first_field (raw : str) : str := match raw with [] => [] | c :: r => if c == "|"%char then [] else c :: first_field r end.
#[export] Instance demo_auth : AuthOutside Z := {|
  system_now n := (1000 * second + n * 1000000, n + 1); steady_now n := (n * 1000000, n + 1); draw_uuid n := (id n, n + 1);
  jwt_sign _ c := spell c;
  jwt_decode n raw := match read raw with Some c => if c_expiresAt c <? 1000 * second + n * 1000000 then None else Some c | None => None end;
  sha256_hex raw := take 64 (map (fun c => if is_digit c then c else "a"%char) raw ++ repeat "0"%char 64); password_verifies text stored := text == stored; transaction_fails n := (None, n + 1);
  access_token_expiry_minutes _ := 15; refresh_token_expiry_days _ := 7; policyEpoch _ := 0;
  credentialsByName _ name := if name == $"alice" then Some (mkCredentials 1 false true $"alice")
                              else if name == $"bob" then Some (mkCredentials 2 false true $"bob") else None |}.
Lemma fields_first raw acc : exists l, fields "|"%char raw acc = (rev acc ++ first_field raw) :: l.
Proof.
  revert acc. induction raw as [|c raw IH]; intros acc; simpl; [rewrite app_nil_r; eauto|].
  destruct (c == "|"%char); [rewrite app_nil_r; eauto|]. destruct (IH (c :: acc)) as [l ->].
  exists l. simpl. by rewrite <- app_assoc.
Qed.
Lemma first_field_id n rest : first_field (id n ++ $"|" ++ rest) = id n.
Proof. unfold id. induction (S (Z.to_nat n)) as [|k IH]; [done|]. simpl. by f_equal. Qed.
#[export] Instance demo_auth_ok : AuthOutsideOk Z.
Proof.
  refine {| raw_jti := first_field |}.
  - intros w raw c. unfold jwt_decode. simpl. unfold read. destruct (fields_first raw []) as [l ->].
    intros Hc. repeat case_match; simplify_eq; done.
  - intros v w c Hc. unfold jwt_sign. simpl. unfold spell. rewrite Hc. apply first_field_id.
  - done.
  - done.
Defined.
Definition start : Server Z := mkServer ∅ ∅ ∅ ∅ [] ∅ ∅ {[ 1 := mkAccount false true; 2 := mkAccount false true ]} 0 [].
End AuthDemo.
