(* ===== verification/AuthSteps.v ===== *)
(** * Sessions: what every operation keeps

    The invariant that ties sessions, refresh token rows and the manager's index to the history of
    verified passwords, and the proof that every operation of [AuthModel] keeps it, whatever the
    world answers.  [here g l P] is the shape of every assertion: the invariant, and a fact on the
    session [l].  A gap names a session that an operation is in the middle of changing. *)
From S2P Require Import Prelude Monad ShareScope AuthModel.
#[local] Open Scope Z_scope.

Definition jti_of (t : RefreshToken) : str := jti (token t).
Definition raw_of (t : RefreshToken) : str := rawToken (token t).
Definition token_id (x : Session) : str := default [] (jti_of <$> refreshToken_ x).
Definition named (x : Session) : Prop := forall t, refreshToken_ x = Some t -> jti_of t <> [].
Record Gaps := mkGaps { unopened : option nat; unnoted : option nat; unindexed : option nat }.
Definition no_gap : Gaps := mkGaps None None None.
Definition opening (l : nat) : Gaps := mkGaps (Some l) None None.

Section Invariant.
Context {W : Type} `{AuthOutside W} `{!AuthOutsideOk W}.
Notation M A := (Monad.M (Server W) Thrown A).
Implicit Types (s : Server W) (x y : Session) (h : list (Z * str)).

(** A session by itself, given the history [h] and the index [m] of refresh token ids. *)
Record Sound (g : Gaps) (l : nat) h (m : gmap str nat) x : Prop := {
  so_login : unnoted g <> Some l -> mode x <> Device -> forall u, user x = Some u -> (u, token_id x) ∈ h;
  so_named : is_Some (user x) -> named x;
  so_token : forall t, refreshToken_ x = Some t -> raw_of t <> [] -> jti_of t <> [] -> jti_of t = raw_jti (raw_of t);
  so_device : mode x = Device -> refreshToken_ x = None;
  so_open : unopened g <> Some l -> closing x = false -> named x;
  so_index : unindexed g <> Some l -> forall j, m !! j = Some l -> humanRefreshJti x = Some j }.
Record Inv (g : Gaps) s : Prop := {
  i_row : forall j r, rows s !! j = Some r -> (row_user r, j) ∈ logins s;
  i_session : forall l x, heap s !! l = Some x -> Sound g l (logins s) (sessionsByRefreshJti s) x;
  i_live : forall j l, sessionsByRefreshJti s !! j = Some l -> is_Some (heap s !! l) }.
Definition at_ (l : nat) (P : list (Z * str) -> gmap Z Account -> Session -> Prop) s : Prop :=
  exists x, heap s !! l = Some x /\ P (logins s) (accounts s) x.
Definition here g l P s : Prop := Inv g s /\ at_ l P s.

(** Most steps leave what the invariant looks at; a row may be rewritten, with its owner. *)
Definition same s s' : Prop :=
  heap s = heap s' /\ sessionsByRefreshJti s = sessionsByRefreshJti s' /\ logins s = logins s' /\ accounts s = accounts s' /\
  forall j r', rows s' !! j = Some r' -> exists r, rows s !! j = Some r /\ row_user r = row_user r'.
#[export] Instance same_preorder : PreOrder same.
Proof.
  split; [intros s; repeat split; eauto|]. intros s1 s2 s3 (? & ? & ? & ? & Hr12) (? & ? & ? & ? & Hr23). do 4 (split; [congruence|]).
  intros j r3 Hr. destruct (Hr23 _ _ Hr) as (r2 & Hr2 & Hu). destruct (Hr12 _ _ Hr2) as (r1 & Hr1 & Hu1).
  exists r1. split; [done|congruence].
Qed.
Lemma same_but s s' : heap s = heap s' -> sessionsByRefreshJti s = sessionsByRefreshJti s' -> logins s = logins s' ->
  accounts s = accounts s' -> rows s = rows s' -> same s s'.
Proof. unfold same. intros -> -> -> -> ->. repeat split; eauto. Qed.
Lemma same_inv g s s' : same s s' -> Inv g s -> Inv g s'.
Proof.
  intros (Hh & Hj & Hl & Ha & Hr) [Irow ? ?]. split; rewrite <- ?Hh, <- ?Hj, <- ?Hl; try assumption.
  intros j r' Hr'. destruct (Hr _ _ Hr') as (r & Hr0 & <-). by apply Irow.
Qed.
Lemma same_at l P s s' : same s s' -> at_ l P s -> at_ l P s'.
Proof. intros (Hh & Hj & Hl & Ha & Hr). unfold at_. by rewrite Hh, Hl, Ha. Qed.
Definition calm {A} (m : M A) : Prop := ensures same m.
(** An assertion that calm steps leave. *)
Class Calm (P : Server W -> Prop) := calm_stable : forall s s', same s s' -> P s -> P s'.
#[export] Instance calm_inv g : Calm (Inv g).
Proof. intros s s'. apply same_inv. Qed.
#[export] Instance calm_here g l P : Calm (here g l P).
Proof. intros s s' Hs [Hi Ha]. split; [by eapply same_inv|by eapply same_at]. Qed.
#[export] Instance calm_told u j : Calm (fun s => (u, j) ∈ logins s).
Proof. intros s s' (_ & _ & -> & _). done. Qed.
#[export] Instance calm_unknown j : Calm (fun s => sessionsByRefreshJti s !! j = None).
Proof. intros s s' (_ & -> & _). done. Qed.
#[export] Instance calm_and (P Q : Server W -> Prop) : Calm P -> Calm Q -> Calm (fun s => P s /\ Q s).
Proof. intros HP HQ s s' Hs [H1 H2]. split; by eapply calm_stable. Qed.
Lemma calm_frame {A} P `{!Calm P} (m : M A) : calm m -> hoare P m (fun _ => P) P.
Proof. intros Hm s Hs. specialize (Hm s). destruct (m s) as [[a|e] s']; by eapply calm_stable. Qed.
Lemma calm_bind {A B} (m : M A) (k : A -> M B) : calm m -> (forall a, calm (k a)) -> calm (bind m k).
Proof. apply (ensures_bind same). Qed.
Lemma calm_handle {A} (m : M A) (k : Thrown -> M A) : calm m -> (forall e, calm (k e)) -> calm (handle m k).
Proof. apply (ensures_handle same). Qed.
Lemma calm_ret {A} (a : A) : calm (ret a).
Proof. intros s. reflexivity. Qed.
Lemma calm_throw {A} e : calm (throw (A := A) e).
Proof. intros s. reflexivity. Qed.
Lemma calm_reads {A} (f : Server W -> result Thrown A) : calm (reads f).
Proof. intros s. reflexivity. Qed.
Lemma calm_draw {A} (f : W -> A * W) : calm (draw f).
Proof. intros s. unfold draw. destruct (f (outside s)). by apply same_but. Qed.
Lemma calm_require b e : calm (require b e).
Proof. intros s. destruct b; reflexivity. Qed.
Lemma calm_query {A} (f : gmap str Row -> A * gmap str Row) :
  (forall r j (e' : Row), (f r).2 !! j = Some e' -> exists e, r !! j = Some e /\ row_user e = row_user e') -> calm (query f).
Proof.
  intros Hf. unfold query. apply calm_bind; [apply calm_draw|]. intros [why|] s; [reflexivity|].
  specialize (Hf (rows s)). destruct (f (rows s)) as [b r]. repeat split. simpl in *. apply Hf.
Qed.
Lemma calm_read {A} (f : gmap str Row -> A) : calm (query (fun r => (f r, r))).
Proof. apply calm_query. intros r j x' Hx. by exists x'. Qed.
Lemma calm_modify f : (forall s, same s (f s)) -> calm (modify f).
Proof. intros Hf s. apply Hf. Qed.
End Invariant.

(** Follow the program; every step leaves what the invariant looks at. *)
Ltac calm := repeat first
  [ solve [eauto 2 with auth] | apply calm_ret | apply calm_throw | apply calm_reads | apply calm_draw | apply calm_require | apply calm_read
  | apply calm_bind; [|intros ?] | apply calm_handle; [|intros ?]
  | progress unfold ask, session_at, system_clock, decode, account_of, AuthModel.get, getShareByRefreshJti, getSessionsByUserId, getActive, rows_get
  | progress cbv zeta
  | match goal with |- calm (match ?b with _ => _ end) => destruct b end ].
#[export] Hint Extern 1 (calm (modify _)) => apply calm_modify; intros ?; by apply same_but : auth.

Section Calm.
Context {W : Type} `{AuthOutside W} `{!AuthOutsideOk W}.
Implicit Types (s : Server W) (x : Session).
Notation calm m := (calm (W := W) m).

Lemma calm_hasAccess x : calm (hasUsableAccessToken x).
Proof. unfold hasUsableAccessToken. calm. Qed.
Lemma calm_hasRefresh x : calm (hasUsableRefreshToken x).
Proof. unfold hasUsableRefreshToken. calm. Qed.
Lemma calm_soft l : calm (softValidateActiveSession l).
Proof. unfold softValidateActiveSession, hasUsableAccessToken, hasUsableRefreshToken. calm. Qed.
Lemma calm_claims t c : calm (validateClaims t c).
Proof. unfold validateClaims. calm. Qed.
Lemma calm_refresh_claims x c : calm (validateRefreshClaims x c).
Proof. unfold validateRefreshClaims. calm. Qed.
Lemma calm_validateAccess l a : calm (validateAccessToken l a).
Proof. unfold validateAccessToken, hasUsableAccessToken, validateClaims. calm. Qed.
Lemma calm_sign x sub ttl k : calm (finalizeAndSignToken x sub ttl k).
Proof. unfold finalizeAndSignToken. calm. Qed.
Lemma calm_new_refresh x k f : calm (new_refresh x k f).
Proof. unfold new_refresh, finalizeAndSignToken. calm. Qed.
Lemma calm_reject x : calm (rejectSystemOnlyHumanToken x).
Proof. unfold rejectSystemOnlyHumanToken. calm. Qed.
Lemma calm_fresh j n : calm (is_fresh j n).
Proof. unfold is_fresh. calm. Qed.
Lemma calm_valid_refresh l : calm (valid_refresh l).
Proof. unfold valid_refresh. calm. Qed.
Lemma calm_stamp j n : calm (stamp j n).
Proof. apply calm_modify. intros s. case_bool_decide; by apply same_but. Qed.
Lemma calm_index_uuid l x : calm (index_uuid l x).
Proof. apply calm_modify. intros s. by apply same_but. Qed.
Lemma calm_reindexShare l x old : calm (reindexShareRefreshTokenLocked l x old).
Proof. apply calm_modify. intros s. by apply same_but. Qed.
Lemma calm_recordLogin u : calm (recordLogin u).
Proof. apply (calm_read (fun _ => tt)). Qed.
Lemma calm_rows_refresh j : calm (rows_refresh j).
Proof.
  apply calm_query. intros r k x'. simpl. destruct (decide (k = j)) as [->|Hk].
  - rewrite lookup_alter_eq, fmap_Some. intros (x & Hx & ->). by exists x.
  - rewrite lookup_alter_ne by done. eauto.
Qed.
Lemma calm_revokeAll u : calm (rows_revokeAll u).
Proof.
  apply calm_query. intros r k x'. simpl. rewrite lookup_fmap, fmap_Some. intros (x & Hx & ->). exists x. split; [done|]. by case_if.
Qed.
Lemma calm_rewriteHash j old new : calm (rows_rewriteHash j old new).
Proof.
  apply calm_query. intros r k x'. destruct (r !! j) as [x|] eqn:Hj; [|by eauto]. case_if; simpl; [|by eauto].
  destruct (decide (k = j)) as [->|Hk]; [rewrite lookup_insert_eq; intros [= <-]; eauto|rewrite lookup_insert_ne by done; eauto].
Qed.
Lemma calm_verify raw t : calm (verifyStoredRefreshTokenHash raw t).
Proof. unfold verifyStoredRefreshTokenHash. pose proof calm_rewriteHash. calm. Qed.
End Calm.
#[export] Hint Resolve calm_hasAccess calm_hasRefresh calm_soft calm_claims calm_refresh_claims calm_validateAccess calm_sign calm_new_refresh
  calm_reject calm_fresh calm_valid_refresh calm_stamp calm_index_uuid calm_reindexShare calm_recordLogin calm_rows_refresh calm_revokeAll calm_rewriteHash calm_verify : auth.

(** ** Triples about a session *)
Section Triples.
Context {W : Type} `{AuthOutside W} `{!AuthOutsideOk W}.
Notation M A := (Monad.M (Server W) Thrown A).
Notation Fact := (list (Z * str) -> gmap Z Account -> Session -> Prop).
Notation here := (here (W := W)).
Implicit Types (s : Server W) (x y : Session) (g : Gaps) (P : Fact).

Lemma at_weaken l P (Q : Fact) s : (forall h a x, P h a x -> Q h a x) -> at_ l P s -> at_ l Q s.
Proof. intros HPQ (x & Hx & Hp). exists x. eauto. Qed.
Lemma here_weaken g l P (Q : Fact) s : (forall h a x, P h a x -> Q h a x) -> here g l P s -> here g l Q s.
Proof. intros HPQ [Hi Hp]. split; [done|by eapply at_weaken]. Qed.
Lemma here_inv g l P s : here g l P s -> Inv g s.
Proof. by intros []. Qed.
Lemma hoare_session {B} g l P (k : Session -> M B) Q R :
  (forall x, hoare (here g l (fun h a y => y = x /\ P h a y)) (k x) Q R) -> hoare (here g l P) (let! x := session_at l in k x) Q R.
Proof.
  intros Hk s (Hi & x & Hx & Hp). unfold bind, session_at, reads. rewrite Hx. apply (Hk x). split; [done|]. by exists x.
Qed.
Lemma hoare_session_any {B} g l (k : Session -> M B) Q (R : Server W -> Prop) :
  (forall x, hoare (here g l (fun _ _ y => y = x)) (k x) Q R) -> (forall s, Inv g s -> R s) -> hoare (Inv g) (let! x := session_at l in k x) Q R.
Proof.
  intros Hk HR s Hi. unfold bind, session_at, reads. destruct (heap s !! l) as [x|] eqn:Hx; [|by apply HR].
  apply (Hk x). split; [done|]. by exists x.
Qed.
Lemma hoare_accounts {B} g l P (k : gmap Z Account -> M B) Q R :
  (forall b, hoare (here g l (fun h a y => a = b /\ P h a y)) (k b) Q R) ->
  hoare (here g l P) (let! b := reads (fun s => Ok (accounts s)) in k b) Q R.
Proof. intros Hk s (Hi & x & Hx & Hp). simpl. apply (Hk (accounts s)). split; [done|]. by exists x. Qed.
Lemma hoare_calm {A B} (C : Server W -> Prop) `{!Calm C} (m : M A) (k : A -> M B) Q (R : Server W -> Prop) :
  calm m -> (forall b, hoare C (k b) Q R) -> (forall s, C s -> R s) -> hoare C (bind m k) Q R.
Proof. intros Hm Hk HR. eapply hoare_bind; [eapply hoare_err; [by apply calm_frame|done]|apply Hk]. Qed.
(** A calm step whose answer says something. *)
Lemma hoare_answer {A B} (C : Server W -> Prop) `{!Calm C} (m : M A) (D : A -> Prop) (k : A -> M B) Q (R : Server W -> Prop) :
  calm m -> (forall s b s', m s = (Ok b, s') -> D b) -> (forall b, D b -> hoare C (k b) Q R) -> (forall s, C s -> R s) ->
  hoare C (bind m k) Q R.
Proof.
  intros Hm HD Hk HR s Hs. unfold bind. pose proof (calm_frame C m Hm s Hs) as Hf. pose proof (HD s) as Hd.
  destruct (m s) as [[b|e] s']; [|by apply HR]. by apply Hk; [eapply Hd|].
Qed.
Lemma hoare_total {A B} (C : Server W -> Prop) `{!Calm C} (m : M A) (k : A -> M B) Q (R : Server W -> Prop) :
  calm m -> (forall s, exists b s', m s = (Ok b, s')) -> (forall b, hoare C (k b) Q R) -> hoare C (bind m k) Q R.
Proof.
  intros Hm Ht Hk s Hs. unfold bind. pose proof (calm_frame C m Hm s Hs) as Hf. destruct (Ht s) as (b & s' & Hb).
  rewrite Hb in *. by apply Hk.
Qed.
Lemma hoare_require {B} (C : Server W -> Prop) b e (k : M B) Q (R : Server W -> Prop) :
  (b = true -> hoare C k Q R) -> (b = false -> forall s, C s -> R s) -> hoare C (require b e;; k) Q R.
Proof. intros Hk HR s Hs. destruct b; simpl; [by apply Hk|by apply HR]. Qed.
(** What the assertion and the invariant say without the state. *)
Lemma hoare_known {A} g l P (C : Prop) (m : M A) Q R :
  (forall h a k x, P h a x -> Sound g l h k x -> C) -> (C -> hoare (here g l P) m Q R) -> hoare (here g l P) m Q R.
Proof. intros HC Hm s Hs. apply Hm; [|done]. destruct Hs as (Hi & x & Hx & Hp). eapply HC; [done|by apply Hi]. Qed.
Lemma hoare_sound {A} g l P (m : M A) Q R :
  hoare (here g l (fun h a x => P h a x /\ exists k, Sound g l h k x)) m Q R -> hoare (here g l P) m Q R.
Proof. intros Hm s (Hi & x & Hx & Hp). apply Hm. split; [done|]. exists x. repeat split; [done..|]. eexists. by apply Hi. Qed.

Lemma inv_edit g g' s l x y : Inv g s -> heap s !! l = Some x ->
  (forall l' h m z, l' <> l -> Sound g l' h m z -> Sound g' l' h m z) ->
  Sound g' l (logins s) (sessionsByRefreshJti s) y -> Inv g' (with_heap (<[l := y]> (heap s)) s).
Proof.
  intros [Hr Hs Hl] Hx Hg Hy. split; [done| |]; simpl.
  - intros l' z. destruct (decide (l' = l)) as [->|Hne]; [rewrite lookup_insert_eq; by intros [= <-]|rewrite lookup_insert_ne by done; eauto].
  - intros j l' Hj. destruct (decide (l' = l)) as [->|Hne]; [rewrite lookup_insert_eq; eauto|rewrite lookup_insert_ne by done; by eapply Hl].
Qed.
Lemma edit_run l f s x : heap s !! l = Some x -> edit l f s = (Ok tt, with_heap (<[l := f x]> (heap s)) s).
Proof.
  intros Hx. unfold edit, modify. f_equal. f_equal.
  apply map_eq. intros l'. destruct (decide (l' = l)) as [->|Hne]; [by rewrite lookup_alter_eq, lookup_insert_eq, Hx|by rewrite lookup_alter_ne, lookup_insert_ne].
Qed.
Lemma hoare_edit_gap g g' l f P (Q : Fact) R : (forall l' h m z, l' <> l -> Sound g l' h m z -> Sound g' l' h m z) ->
  (forall h a m x, P h a x -> Sound g l h m x -> Sound g' l h m (f x) /\ Q h a (f x)) -> hoare (here g l P) (edit l f) (fun _ => here g' l Q) R.
Proof.
  intros Hg Hf s (Hi & x & Hx & Hp). rewrite (edit_run _ _ _ _ Hx).
  destruct (Hf _ _ _ _ Hp (i_session _ _ Hi _ _ Hx)) as [Hs Hq]. split; [by eapply inv_edit|].
  exists (f x). simpl. by rewrite lookup_insert_eq.
Qed.
Lemma hoare_edit g l f P (Q : Fact) R :
  (forall h a m x, P h a x -> Sound g l h m x -> Sound g l h m (f x) /\ Q h a (f x)) -> hoare (here g l P) (edit l f) (fun _ => here g l Q) R.
Proof. by apply hoare_edit_gap. Qed.
End Triples.

(** ** The steps of one session *)
Section OneSession.
Context {W : Type} `{AuthOutside W} `{!AuthOutsideOk W}.
Notation M A := (Monad.M (Server W) Thrown A).
Notation Fact := (list (Z * str) -> gmap Z Account -> Session -> Prop).
Notation here := (here (W := W)).
Implicit Types (s : Server W) (x y : Session) (g : Gaps) (P : Fact).

(** A fact about user, mode and refresh token; a fact about user and mode. *)
Definition Loose P : Prop := forall h a x y, user y = user x -> mode y = mode x -> refreshToken_ y = refreshToken_ x -> P h a x -> P h a y.
Definition Looser P : Prop := forall h a x y, user y = user x -> mode y = mode x -> P h a x -> P h a y.

Lemma sound_keeps g l h m x y : Sound g l h m x -> user y = user x -> mode y = mode x ->
  (closing y = false -> closing x = false) -> refreshToken_ y = refreshToken_ x -> Sound g l h m y.
Proof.
  intros [] Hu Hm Hc Ht. unfold named, token_id, humanRefreshJti in *.
  constructor; unfold named, token_id, humanRefreshJti; rewrite ?Hu, ?Hm, ?Ht; auto.
Qed.
(** A token may be exchanged for another of the same id. *)
Lemma sound_token g l h m x t t' y : Sound g l h m x -> refreshToken_ x = Some t -> refreshToken_ y = Some t' ->
  user y = user x -> mode y = mode x -> (closing y = false -> closing x = false) ->
  jti_of t' = jti_of t -> (raw_of t' <> [] -> jti_of t' <> [] -> jti_of t' = raw_jti (raw_of t')) -> Sound g l h m y.
Proof.
  intros [] Ht Ht' Hu Hm Hc Hj Hr. unfold named, token_id, humanRefreshJti in *. rewrite Ht in *. simpl in *.
  constructor; unfold named, token_id, humanRefreshJti; rewrite ?Hu, ?Hm, ?Ht'; simpl; fold (jti_of t'); rewrite ?Hj.
  - auto.
  - intros Hsome t'' [= <-]. rewrite Hj. eauto.
  - intros t'' [= <-]. auto.
  - intros Hd. by specialize (so_device0 Hd).
  - intros Ho Hcl t'' [= <-]. rewrite Hj. eauto.
  - auto.
Qed.

Lemma hoare_gentle g l f P R :
  (forall x, user (f x) = user x /\ mode (f x) = mode x /\ (closing (f x) = false -> closing x = false) /\ refreshToken_ (f x) = refreshToken_ x) ->
  Loose P -> hoare (here g l P) (edit l f) (fun _ => here g l P) R.
Proof.
  intros Hf HP. apply hoare_edit. intros h a m x Hp Hs. destruct (Hf x) as (Hu & Hm & Hc & Ht).
  split; [by eapply sound_keeps|by eapply HP].
Qed.

Lemma sign_total x sub ttl kind s : exists t s', finalizeAndSignToken x sub ttl kind s = (Ok t, s').
Proof.
  unfold finalizeAndSignToken, system_clock, ask, reads, bind, draw, ret. destruct (system_now _) as [now w]. simpl.
  destruct (draw_uuid _) as [j w']. simpl. eauto.
Qed.
Lemma accessToken_triple g l P : Loose P ->
  hoare (here g l P) (accessToken l) (fun _ => here g l P)
    (here g l (fun h a x => P h a x /\ exists u, user x = Some u /\ user_systemOnly a u = true)).
Proof.
  intros HP. unfold accessToken. apply hoare_session. intros x. unfold rejectSystemOnlyHumanToken.
  apply hoare_bind with (Q := fun _ => here g l P).
  - apply hoare_accounts. intros b s (Hi & y & Hy & <- & -> & Hp).
    unfold require. destruct (user x) as [u|] eqn:Hu; simpl; [destruct (user_systemOnly (accounts s) u) eqn:Hso; simpl|].
    all: split; [done|]; exists x; repeat split; eauto.
  - intros _. apply hoare_total; [apply _|calm|intros s; by eexists _, _|intros ttl].
    apply hoare_total; [apply _|calm|intros s; apply sign_total|intros t; by apply hoare_gentle].
Qed.

(** *** The index *)
Lemma reindexHuman_entry l x old m j l' : reindexHuman l x old m !! j = Some l' ->
  if (l' =? l)%nat then humanRefreshJti x = Some j \/ (humanRefreshJti x = None /\ m !! j = Some l /\ j = []) else m !! j = Some l'.
Proof.
  assert (Hfilter : forall c, filter (fun e => stale l old c (isShareSession x) e = false) m !! j = Some l' ->
    m !! j = Some l' /\ ((l' =? l)%nat = true -> j = c)).
  { intros c. rewrite map_lookup_filter_Some. intros [Hj Hs]. split; [done|]. intros Hl. unfold stale in Hs. simpl in Hs. rewrite Hl in Hs. simpl in Hs. by bsimpl. }
  unfold reindexHuman, indexHumanRefreshTokenLocked. destruct (humanRefreshJti x) as [i|]; simpl.
  - destruct (isShareSession x).
    + intros Hj. apply Hfilter in Hj as [Hj Hc]. destruct (l' =? l)%nat; [left; by rewrite Hc|done].
    + destruct (decide (j = i)) as [->|Hne]; [rewrite lookup_insert_eq|rewrite lookup_insert_ne by done].
      * intros [= <-]. rewrite Nat.eqb_refl. by left.
      * intros Hj. apply Hfilter in Hj as [Hj Hc]. destruct (l' =? l)%nat; [by rewrite Hc in Hne|done].
  - intros Hj. apply Hfilter in Hj as [Hj Hc]. destruct (l' =? l)%nat eqn:Hl; [|done].
    apply Nat.eqb_eq in Hl as ->. right. split; [done|]. split; [done|by apply Hc].
Qed.
Lemma hoare_reindex g l x old P R : unindexed g = None \/ (unindexed g = Some l /\ is_Some (humanRefreshJti x)) ->
  hoare (here g l (fun h a y => y = x /\ P h a y)) (reindexHumanRefreshTokenLocked l x old)
    (fun _ => here (mkGaps (unopened g) (unnoted g) None) l (fun h a y => y = x /\ P h a y)) R.
Proof.
  intros Hg s ([Hr Hs Hl] & y & Hy & -> & Hp). simpl. split; [|by exists x]. split; [done| |]; simpl.
  - intros l' z Hz. destruct (Hs _ _ Hz). constructor; try assumption. intros _ j Hj. apply reindexHuman_entry in Hj.
    destruct (l' =? l)%nat eqn:Hl'; [apply Nat.eqb_eq in Hl' as ->|].
    + assert (z = x) as -> by congruence. destruct Hj as [Hj|(Hn & Hj & ->)]; [done|].
      destruct Hg as [Hg|[_ [i Hi]]]; [|congruence]. apply so_index0; [by rewrite Hg|done].
    + apply so_index0; [|done]. destruct Hg as [->|[-> _]]; [done|]. intros [= ->]. by rewrite Nat.eqb_refl in Hl'.
  - intros j l' Hj. apply reindexHuman_entry in Hj. destruct (l' =? l)%nat eqn:Hl'; [apply Nat.eqb_eq in Hl' as ->; eauto|eauto].
Qed.
Lemma cache_triple g l P R : unindexed g = None -> hoare (here g l P) (cache l) (fun _ => here g l P) R.
Proof.
  intros Hg. unfold cache. apply hoare_session. intros x.
  eapply hoare_total; [apply _|calm|by intros; eexists _, _|intros _].
  eapply hoare_bind; [apply hoare_reindex; by left|intros []; cbn beta].
  replace (mkGaps _ _ _) with g by (destruct g; simpl in *; by subst).
  eapply hoare_pre with (P' := here g l P); [|intros s; apply here_weaken; tauto].
  eapply hoare_total; [apply _|calm|by intros; eexists _, _|intros _].
  destruct (user x) as [u|]; [|apply hoare_ret with (Q := fun _ => here g l P)].
  intros s Hs. simpl. eapply calm_stable; [|exact Hs]. by apply same_but.
Qed.
Lemma hoare_erase g l k x j P R : hoare (here g l P) (eraseSessionIndexesLocked k x j) (fun _ => here g l P) R.
Proof.
  unfold eraseSessionIndexesLocked. do 2 (eapply hoare_total; [apply _|calm|by intros; eexists _, _|intros _]).
  eapply hoare_bind with (Q := fun _ => here g l P).
  - intros s ([Hr Hs Hl] & Hp). simpl. split; [|done]. split; [done| |]; simpl.
    + intros l' z Hz. destruct (Hs _ _ Hz). constructor; try assumption. intros Hg i. unfold without. rewrite map_lookup_filter_Some.
      intros [Hi _]. by apply so_index0.
    + intros i l'. unfold without. rewrite map_lookup_filter_Some. intros [Hi _]. by eapply Hl.
  - intros _. eapply hoare_total; [apply _|calm|by intros; eexists _, _|intros _].
    intros s Hs. simpl. eapply calm_stable; [|exact Hs]. by apply same_but.
Qed.

(** *** Who a session is *)
Definition acts_as (u : Z) : Fact := fun _ a x => user x = Some u /\ mode x = Human /\ named x /\ is_Some (refreshToken_ x) /\ user_systemOnly a u = false.
Lemma setAuthenticatedUser_triple g l u P :
  (forall h a x, P h a x -> (u, token_id x) ∈ h /\ named x) ->
  hoare (here g l P) (setAuthenticatedUser l u)
    (fun _ => here g l (fun h a y => acts_as u h a y /\ exists x, P h a x /\ token_id y = token_id x))
    (here g l (fun h a y => P h a y \/ exists x, P h a x /\ refreshToken_ x = None)).
Proof.
  intros HP. unfold setAuthenticatedUser. apply hoare_accounts. intros b.
  apply hoare_require; [|intros _ s; apply here_weaken; tauto]. intros Hu. apply negb_true_iff in Hu.
  apply hoare_bind with (Q := fun _ => here g l (fun h a y => exists x, P h a x /\ refreshToken_ y = refreshToken_ x /\
    user y = Some u /\ mode y = Human /\ user_systemOnly a u = false)).
  - apply hoare_edit. intros h a m x [-> Hp] []. destruct (HP _ _ _ Hp) as [Hin Hn]. split; [|exists x; eauto].
    constructor; simpl; try done.
    + by intros _ _ v [= <-].
  - intros []. apply hoare_session. intros y. destruct (refreshToken_ y) as [t|] eqn:Ht.
    + apply hoare_edit. intros h a m z (-> & x & Hp & Hx & Huy & Hm & Hso) Hs. rewrite Hx in Ht. destruct (HP _ _ _ Hp) as [Hin Hn].
      rewrite <- Hx in Ht. split; [eapply (sound_token _ _ _ _ y t (on_token (with_owner u) t)); try done; apply (so_token _ _ _ _ _ Hs t Ht)|].
      rewrite Hx in Ht.
      split; [|exists x; split; [done|]; unfold token_id; simpl; by rewrite Ht].
      repeat split; try done. intros t' [= <-]. by apply (Hn t).
    + intros s Hs. simpl. eapply here_weaken; [|exact Hs]. intros h a z (-> & x & Hp & Hx & _). right. exists x. by rewrite <- Hx.
Qed.

(** *** Ending a session *)
Lemma cleared_sound g l h m x f : Sound g l h m x -> (forall t, jti (token (f t)) = jti (token t)) -> (forall t, rawToken (token (f t)) = rawToken (token t) \/ rawToken (token (f t)) = []) ->
  Sound g l h m (with_refresh (f <$> refreshToken_ x) x).
Proof.
  intros Hs Hj Hr. destruct (refreshToken_ x) as [t|] eqn:Ht; [|by eapply sound_keeps].
  apply (sound_token _ _ _ _ x t (f t)); try done; [apply Hj|].
  unfold raw_of, jti_of. rewrite Hj. destruct (Hr t) as [->| ->]; [|done]. apply (so_token _ _ _ _ _ Hs t Ht).
Qed.
Lemma hoare_clear g l f P R : (forall t, jti (token (f t)) = jti (token t)) -> (forall t, rawToken (token (f t)) = rawToken (token t) \/ rawToken (token (f t)) = []) ->
  Looser P -> hoare (here g l P) (edit l (fun x => with_refresh (f <$> refreshToken_ x) x)) (fun _ => here g l P) R.
Proof. intros Hj Hr HP. apply hoare_edit. intros h a m x Hp Hs. split; [by apply cleared_sound|by apply (HP h a x)]. Qed.
Lemma loose_looser P : Looser P -> Loose P.
Proof. intros HP h a x y ? ? _. by apply HP. Qed.
Lemma invalidate_triple g l P : Looser P -> hoare (here g l P) (invalidate l) (fun _ => here g l P) (here g l P).
Proof.
  intros HP. assert (HL := loose_looser _ HP). unfold invalidate. apply hoare_session. intros x.
  eapply hoare_pre with (P' := here g l P); [|intros s; apply here_weaken; tauto].
  eapply hoare_bind with (Q := fun _ => here g l P); [|intros []; apply hoare_erase]. unfold tokens_invalidate.
  eapply hoare_bind with (Q := fun _ => here g l P); [by apply hoare_gentle|intros []]. apply hoare_session. intros y.
  eapply hoare_pre with (P' := here g l P); [|intros s; apply here_weaken; tauto].
  eapply hoare_bind with (Q := fun _ => here g l P); [|intros []; by apply hoare_gentle].
  destruct (refreshToken_ y); [|apply hoare_ret with (Q := fun _ => here g l P)].
  unfold hardInvalidate. eapply hoare_bind with (Q := fun _ => here g l P); [apply hoare_clear; eauto|intros []]. apply hoare_session. intros z.
  eapply hoare_pre with (P' := here g l P); [|intros s; apply here_weaken; tauto].
  eapply hoare_calm; [apply _|calm| |done]. intros [].
  eapply hoare_pre; [apply hoare_edit with (P := P) (Q := P)|done].
  intros h a m w Hp Hs. split; [|by apply (HP h a w)].
  apply (cleared_sound g l h m w (fun t => on_token (with_raw []) (with_hash [] t))) in Hs; [|done|by right].
  eapply sound_keeps; [exact Hs|done..|]. by destruct (refreshToken_ w).
Qed.
Lemma remove_triple g l P R : hoare (here g l P) (remove l) (fun _ => here g l P) R.
Proof.
  unfold remove. apply hoare_session. intros x. eapply hoare_pre with (P' := here g l P); [apply hoare_erase|].
  intros s. apply here_weaken. tauto.
Qed.

(** *** Bringing a session back *)
(** A token may be exchanged for one of another id when it had none. *)
Lemma sound_exchange g l h m x t t' y : Sound g l h m x -> refreshToken_ x = Some t -> refreshToken_ y = Some t' ->
  user y = user x -> mode y = mode x -> closing y = closing x -> jti_of t' <> [] -> (jti_of t <> [] -> jti_of t' = jti_of t) ->
  (raw_of t' <> [] -> jti_of t' = raw_jti (raw_of t')) -> Sound g l h m y.
Proof.
  intros Hs Ht Ht' Hu Hm Hc Hn Hj Hr. destruct (decide (jti_of t = [])) as [He|He].
  - destruct Hs. assert (user x = None) as Hux.
    { destruct (user x) eqn:Hux; [|done]. by destruct (so_named0 ltac:(eauto) t Ht). }
    constructor; unfold named, token_id, humanRefreshJti in *; rewrite ?Hu, ?Hm, ?Ht', ?Hux; simpl; fold (jti_of t'); try done.
    + intros t'' [= <-]. auto.
    + intros Hd. specialize (so_device0 Hd). congruence.
    + by intros _ _ t'' [= <-].
    + intros Hi j Hmj. specialize (so_index0 Hi j Hmj). rewrite Ht in so_index0. simpl in so_index0. fold (jti_of t) in so_index0. by rewrite He in so_index0.
  - apply (sound_token _ _ _ _ x t t'); try done; [by rewrite Hc|auto|auto].
Qed.

Definition who (U : option Z) (md : SessionMode) : Fact := fun _ _ x => user x = U /\ mode x = md.
Definition carries raw x : Prop := exists t, refreshToken_ x = Some t /\ raw_of t = raw.
Definition resolved (U : option Z) (md : SessionMode) : Fact := fun h a x =>
  named x /\ is_Some (refreshToken_ x) /\ (who U md h a x \/ exists u, acts_as u h a x).
Lemma who_looser U md : Looser (who U md).
Proof. by intros h a x y Hu Hm [<- <-]. Qed.

Lemma claims_answer t claims s r s' : validateClaims t claims s = (Ok r, s') -> exists c, claims = Some c /\ c_jti c = jti t /\ c_jti c <> [].
Proof.
  destruct claims as [c|]; [|done]. unfold validateClaims. intros Hr. apply bind_ok in Hr as (now & u & _ & Hr).
  exists c. split; [done|].
  repeat (apply bind_ok in Hr as (? & ? & Hq & Hr); unfold require in Hq; destruct (_ : bool) eqn:? in Hq; [clear Hq|done]).
  unfold require in Hr. bsimpl. destruct (c_jti c); done.
Qed.
Lemma decode_answer raw s r s' : decode raw s = (Ok r, s') -> forall c, r = Some c -> c_jti c = raw_jti raw /\ raw <> [].
Proof.
  unfold decode, ask, reads. intros [= <- <-] c Hc. split; [by eapply decode_jti|].
  intros ->. by rewrite decode_empty in Hc.
Qed.

(** The raw text fixes the id, so taking over a token with that id keeps a session sound. *)
Lemma adopt_sound g l h m x raw t : Sound g l h m x -> carries raw x -> raw <> [] -> jti_of t = raw_jti raw -> jti_of t <> [] ->
  Sound g l h m (with_refresh (Some (on_token (with_raw raw) t)) x).
Proof.
  intros Hs (t0 & Ht & Hraw) Hn Hj Hj0. apply (sound_exchange _ _ _ _ x t0 (on_token (with_raw raw) t)); try done.
  intros Ht0. transitivity (raw_jti raw); [done|]. rewrite <- Hraw. symmetry. by apply (so_token _ _ _ _ _ Hs t0 Ht); [rewrite Hraw|].
Qed.
Lemma copy_prior_triple g l prior t raw c U md : raw <> [] -> c_jti c = raw_jti raw ->
  hoare (here g l (fun h a x => who U md h a x /\ carries raw x /\ forall u, user prior = Some u -> (u, jti_of t) ∈ h))
    (copy_prior l prior t raw c)
    (fun b => here g l (fun h a x => if b : bool then resolved U md h a x else who U md h a x /\ carries raw x)) (fun _ => False).
Proof.
  intros Hraw Hc. unfold copy_prior. apply hoare_handle with (X := here g l (fun h a x => who U md h a x /\ carries raw x)).
  2:{ by intros _ s Hs. }
  eapply hoare_answer; [apply _|apply calm_claims|apply claims_answer| |intros s; apply here_weaken; tauto].
  intros [] (c' & [= <-] & Hct & Hcn). cbn beta. apply hoare_session. intros x. case_if.
  { intros s. apply here_weaken. tauto. }
  eapply hoare_bind with (Q := fun _ => here g l (fun h a y => who U md h a y /\ carries raw y /\ named y /\ token_id y = jti_of t /\
    forall u, user prior = Some u -> (u, jti_of t) ∈ h)).
  { apply hoare_edit. intros h a m y (-> & [Hu Hm] & Hcar & Hp) Hs. split; [apply adopt_sound; auto; unfold jti_of; by rewrite <- Hct|].
    repeat split; try done; [by eexists|]. intros t' [= <-]. unfold jti_of. simpl. by rewrite <- Hct. }
  intros []. destruct (user prior) as [u|].
  - apply hoare_accounts. intros b. apply hoare_require; [|intros _ s; apply here_weaken; tauto]. intros _.
    eapply hoare_bind.
    + eapply hoare_err; [apply setAuthenticatedUser_triple|].
      * intros h a y (-> & _ & _ & Hny & Hid & Hp). rewrite Hid. auto.
      * intros s. apply here_weaken. intros h a y [(_ & ? & ? & _)|(z & (_ & _ & (t0 & Ht0 & _) & _) & Hz)]; [done|congruence].
    + intros [] s. apply here_weaken. intros h a y [Ha _]. pose proof Ha as (_ & _ & ? & ? & _). unfold resolved. eauto.
  - intros s. apply here_weaken. intros h a y (Hw & (t0 & Ht0 & _) & Hn & _). unfold resolved. eauto.
Qed.
Lemma hoare_other {B} g l p P (k : Session -> M B) Q (R : Server W -> Prop) : unnoted g = None ->
  (forall x, hoare (here g l (fun h a y => P h a y /\ forall u t, user x = Some u -> refreshToken_ x = Some t -> (u, jti_of t) ∈ h)) (k x) Q R) ->
  (forall s, here g l P s -> R s) -> hoare (here g l P) (let! x := session_at p in k x) Q R.
Proof.
  intros Hg Hk HR s Hs. unfold bind, session_at, reads. destruct (heap s !! p) as [x|] eqn:Hx; [|by apply HR].
  apply (Hk x). destruct Hs as (Hi & y & Hy & Hp). split; [done|]. exists y. repeat split; try done. intros u t Hu Ht.
  destruct (i_session _ _ Hi _ _ Hx). replace (jti_of t) with (token_id x) by (unfold token_id; by rewrite Ht).
  apply so_login0; [by rewrite Hg| |done]. intros Hd. specialize (so_device0 Hd). congruence.
Qed.
Lemma prior_triple g l raw c U md : unnoted g = None -> raw <> [] -> c_jti c = raw_jti raw ->
  hoare (here g l (fun h a x => who U md h a x /\ carries raw x)) (tryRehydrateFromPriorSession l raw (Some c))
    (fun b => here g l (fun h a x => if b : bool then resolved U md h a x else who U md h a x /\ carries raw x))
    (here g l (fun h a x => who U md h a x /\ carries raw x)).
Proof.
  intros Hg Hraw Hc. unfold tryRehydrateFromPriorSession. eapply hoare_calm; [apply _|calm| |done]. intros [p|]; [|by intros s Hs].
  destruct (p =? l)%nat; [by intros s Hs|]. apply hoare_other; [done| |done]. intros prior.
  destruct (refreshToken_ prior) as [t|]; [|intros s; apply here_weaken; tauto]. case_if; [intros s; apply here_weaken; tauto|].
  eapply hoare_conseq; [by apply (copy_prior_triple g l prior t raw c U md)| |done|by intros s []].
  intros s. apply here_weaken. intros h a x [[Hw Hcar] Hp]. repeat split; try apply Hw; eauto.
Qed.
(** What a lookup does: the transaction fails, or the row is read, whose user id may not convert. *)
Lemma rows_get_run j (s : Server W) : rows_get j s =
  let '(failure, w) := transaction_fails (outside s) in
  match failure with
  | Some why => (Err (DatabaseError why), with_outside w s)
  | None =>
      (match rows s !! j with
       | None => Ok None
       | Some r => if short_id r then Ok (Some (row_token j r)) else Err (ConversionError $"user_id")
       end, with_rows (rows s) (with_outside w s))
  end.
Proof.
  unfold rows_get, query, bind, draw. destruct (transaction_fails (outside s)) as [[why|] w]; [done|]. simpl.
  destruct (rows s !! j) as [r|]; [|done]. by destruct (short_id r).
Qed.
Lemma wide_user_unreadable j r (s : Server W) : rows s !! j = Some r -> 65535 < row_user r -> is_ok (rows_get j s).1 = false.
Proof.
  intros Hj Hr. rewrite rows_get_run, Hj. destruct (transaction_fails _) as [[why|] w]; [done|]. unfold short_id.
  assert ((row_user r <=? 65535) = false) as -> by lia. by rewrite andb_false_r.
Qed.
Lemma hoare_rows_get {B} g l P j (k : option RefreshToken -> M B) Q (R : Server W -> Prop) :
  (forall o, hoare (here g l (fun h a x => P h a x /\ forall t, o = Some t -> raw_of t = [] /\ jti_of t = j /\ (userId (token t), j) ∈ h)) (k o) Q R) ->
  (forall s, here g l P s -> R s) -> hoare (here g l P) (let! o := rows_get j in k o) Q R.
Proof.
  intros Hk HR s Hs. pose proof (calm_frame (here g l P) (draw transaction_fails) (calm_draw _) s Hs) as Hd.
  unfold bind. rewrite rows_get_run. unfold draw in Hd. destruct (transaction_fails (outside s)) as [[why|] w]; [by apply HR|].
  destruct Hd as (Hi & x & Hx & Hp).
  assert (Hi' : Inv g (with_rows (rows s) (with_outside w s))) by (by eapply calm_stable; [|exact Hi]; apply same_but).
  destruct (rows s !! j) as [r|] eqn:Hj; [destruct (short_id r)|].
  - apply Hk. split; [exact Hi'|]. exists x. do 2 (split; [done|]). intros t [= <-]. split_and!; [done..|]. by apply (i_row _ _ Hi).
  - apply HR. split; [exact Hi'|]. by exists x.
  - apply Hk. split; [exact Hi'|]. exists x. do 2 (split; [done|]). done.
Qed.
Lemma verify_answer raw t s t' s' : verifyStoredRefreshTokenHash raw t s = (Ok t', s') -> token t' = token t.
Proof.
  unfold verifyStoredRefreshTokenHash, handle, ret, bind. intros Hr. repeat case_match; simplify_eq; done.
Qed.
Lemma stored_user_triple g l u U md P :
  hoare (here g l (fun h a x => who U md h a x /\ P h a x)) (stored_user l u)
    (fun _ => here g l (fun h a x => who U md h a x /\ P h a x)) (here g l (who U md)).
Proof.
  assert (Hend : forall e, hoare (here g l (fun h a x => who U md h a x /\ P h a x)) (invalidate l;; throw (A := unit) e)
    (fun _ => here g l (fun h a x => who U md h a x /\ P h a x)) (here g l (who U md))).
  { intros e. eapply hoare_pre with (P' := here g l (who U md)); [|intros s; apply here_weaken; tauto].
    eapply hoare_bind with (Q := fun _ => here g l (who U md)); [apply invalidate_triple, who_looser|intros []; by intros s]. }
  unfold stored_user. eapply hoare_calm; [apply _|calm| |intros s; apply here_weaken; tauto]. intros [b|]; [|apply Hend].
  destruct (systemOnly b); [apply Hend|]. destruct (negb (authorizing b)); [apply Hend|]. by intros s Hs.
Qed.
(** The stored row takes the session over: its token first, then its owner. *)
Lemma take_over_triple g l t raw u U md : raw <> [] -> jti_of t = raw_jti raw -> jti_of t <> [] ->
  hoare (here g l (fun h a x => who U md h a x /\ carries raw x /\ (u, jti_of t) ∈ h))
    (edit l (with_refresh (Some (on_token (with_raw raw) t)));; setAuthenticatedUser l u)
    (fun _ => here g l (resolved U md)) (here g l (who U md)).
Proof.
  intros Hraw Hj Hn. eapply hoare_bind with (Q := fun _ => here g l (fun h a y =>
    who U md h a y /\ is_Some (refreshToken_ y) /\ named y /\ token_id y = jti_of t /\ (u, jti_of t) ∈ h)).
  { apply hoare_edit. intros h a m y ([Hu Hm] & Hcar & Hin) Hs. split; [by apply adopt_sound|].
    split; [done|]. split; [eauto|]. split; [by intros t' [= <-]|done]. }
  intros []. eapply hoare_conseq; [apply setAuthenticatedUser_triple with (P := fun h a y =>
    who U md h a y /\ is_Some (refreshToken_ y) /\ named y /\ token_id y = jti_of t /\ (u, jti_of t) ∈ h)| | |].
  - intros h a y (_ & _ & Hny & Hid & Hin). by rewrite Hid.
  - done.
  - intros [] s. apply here_weaken. intros h a y [Ha _]. pose proof Ha as (_ & _ & ? & ? & _). unfold resolved. eauto.
  - intros s. apply here_weaken. intros h a y [[Hw _]|(z & (Hw & [t0 Ht0] & _) & Hz)]; [done|congruence].
Qed.
Lemma stored_triple g l raw c U md : raw <> [] -> c_jti c = raw_jti raw ->
  hoare (here g l (fun h a x => who U md h a x /\ carries raw x)) (rehydrateFromStoredRefreshToken l raw (Some c))
    (fun _ => here g l (resolved U md)) (here g l (who U md)).
Proof.
  intros Hraw Hc. unfold rehydrateFromStoredRefreshToken.
  assert (Hout : forall P s, here g l (fun h a x => (who U md h a x /\ carries raw x) /\ P h a x) s -> here g l (who U md) s).
  { intros P s. apply here_weaken. tauto. }
  apply hoare_rows_get; [|intros s; apply here_weaken; tauto]. intros [stored|]; [|intros s Hs; exact (Hout _ s Hs)].
  eapply hoare_calm; [apply _|calm| |intros s Hs; exact (Hout _ s Hs)]. intros now.
  apply hoare_require; [intros _|intros _ s Hs; exact (Hout _ s Hs)].
  eapply hoare_answer; [apply _|apply calm_claims|apply claims_answer| |intros s Hs; exact (Hout _ s Hs)].
  intros [] (c' & [= <-] & Hcj & Hcn). cbn beta. apply hoare_session. intros x.
  eapply hoare_pre with (P' := here g l (fun h a y => (who U md h a y /\ carries raw y) /\ (userId (token stored), jti_of stored) ∈ h)).
  2:{ intros s. apply here_weaken. intros h a y (-> & Hw & Hst). destruct (Hst stored eq_refl) as (_ & Hj & Hin). split; [done|]. by rewrite Hj. }
  apply hoare_require; [intros _|intros _ s Hs; exact (Hout _ s Hs)].
  destruct (refreshToken_ x) as [incoming|]; [|intros s Hs; exact (Hout _ s Hs)].
  apply hoare_require; [intros _|intros _ s Hs; exact (Hout _ s Hs)].
  eapply hoare_answer; [apply _|apply calm_verify|intros; by eapply verify_answer| |intros s Hs; exact (Hout _ s Hs)].
  intros t Ht. cbn beta in Ht. unfold jti_of in *. rewrite <- Ht. fold (jti_of t).
  eapply hoare_bind with (Q := fun _ => here g l (fun h a y => who U md h a y /\ carries raw y /\ (userId (token t), jti_of t) ∈ h)).
  { eapply hoare_pre; [apply stored_user_triple|]. intros s. apply here_weaken. tauto. }
  intros []. apply take_over_triple; [done| |]; unfold jti_of; by rewrite Ht, <- Hcj.
Qed.
Lemma validateRefreshToken_triple g l U md : unnoted g = None ->
  hoare (here g l (who U md)) (validateRefreshToken l) (fun _ => here g l (resolved U md)) (here g l (who U md)).
Proof.
  intros Hg. unfold validateRefreshToken. apply hoare_session. intros x.
  assert (Hout : forall P s, here g l (fun h a y => P h a y /\ who U md h a y) s -> here g l (who U md) s).
  { intros P s. apply here_weaken. tauto. }
  apply hoare_require; [intros _|intros _ s Hs; exact (Hout _ s Hs)]. destruct (refreshToken_ x) as [t|] eqn:Ht; [|intros s Hs; exact (Hout _ s Hs)].
  cbv zeta. eapply hoare_answer; [apply _|calm|exact (decode_answer _)| |intros s Hs; exact (Hout _ s Hs)].
  intros [c|] Hd; [|intros s Hs; exact (Hout _ s Hs)]. destruct (Hd c eq_refl) as [Hc Hraw].
  apply hoare_require; [intros _|intros _ s Hs; exact (Hout _ s Hs)].
  eapply hoare_calm; [apply _|apply calm_refresh_claims| |intros s Hs; exact (Hout _ s Hs)]. intros [].
  eapply hoare_pre with (P' := here g l (fun h a y => who U md h a y /\ carries (raw_of t) y)).
  2:{ intros s. apply here_weaken. intros h a y [-> Hw]. split; [done|]. by exists t. }
  eapply hoare_bind; [eapply hoare_err; [by apply prior_triple|intros s; apply here_weaken; tauto]|].
  intros [|]; cbn beta; [by intros s Hs|]. by apply stored_triple.
Qed.

(** *** Rotation *)
Lemma new_refresh_answer x k f s t s' : new_refresh x k f s = (Ok t, s') -> jti_of t <> [] /\ jti_of t = raw_jti (raw_of t).
Proof.
  unfold new_refresh. intros Ht. apply bind_ok in Ht as (ttl & s1 & _ & Ht). apply bind_ok in Ht as (used & s2 & _ & Ht).
  apply bind_ok in Ht as (v & s3 & Hv & Ht). cbv zeta in Ht. apply bind_ok in Ht as ([] & s4 & _ & Ht).
  injection Ht as <- <-. unfold finalizeAndSignToken in Hv. apply bind_ok in Hv as (now & s5 & _ & Hv). cbv zeta in Hv.
  apply bind_ok in Hv as (j & s6 & Hj & Hv). apply bind_ok in Hv as (raw & s7 & Hraw & Hv). injection Hv as <- <-.
  unfold ask, reads in Hraw. injection Hraw as <- <-. unfold jti_of, raw_of. simpl. unfold draw in Hj.
  destruct (draw_uuid (outside s5)) as [j' w] eqn:Hd. injection Hj as <- <-. assert (j' = (draw_uuid (outside s5)).1) as Hj' by by rewrite Hd.
  split; [rewrite Hj'; apply draw_nonempty|]. symmetry. by eapply sign_jti.
Qed.
Definition settled x : Prop := named x /\ is_Some (refreshToken_ x).
Lemma rotate_triple g l U md : md <> Device -> unnoted g = None -> unindexed g = None ->
  hoare (here g l (who U md)) (rotateRefreshToken l)
    (fun _ => here (mkGaps (unopened g) (Some l) None) l (fun h a x => who U md h a x /\ settled x)) (here g l (who U md)).
Proof.
  intros Hmd Hg0 Hg. unfold rotateRefreshToken. apply hoare_session. intros x. cbv zeta.
  eapply hoare_pre with (P' := here g l (who U md)); [|intros s; apply here_weaken; tauto].
  eapply hoare_bind with (Q := fun _ => here (mkGaps (unopened g) (Some l) (Some l)) l (fun h a y => who U md h a y /\ settled y)).
  - unfold refreshToken. apply hoare_session. intros y.
    eapply hoare_pre with (P' := here g l (who U md)); [|intros s; apply here_weaken; tauto].
    eapply hoare_calm; [apply _|apply calm_reject| |done]. intros [].
    eapply hoare_answer; [apply _|apply calm_new_refresh|intros s b s' Hb; exact (new_refresh_answer _ _ _ _ _ _ Hb)| |done].
    intros t [Hn Hr]. eapply hoare_edit_gap.
    + intros l' h m z Hne []. constructor; try done; simpl; intros _; [apply so_login0; by rewrite Hg0|apply so_index0; by rewrite Hg].
    + intros h a m z [Hu Hm] []. split.
      * constructor; simpl; try done; [by intros _ t' [= <-]|by intros t' [= <-]|congruence|by intros _ _ t' [= <-]].
      * repeat split; try done; by intros t' [= <-].
  - intros []. apply hoare_session. intros y. eapply hoare_total; [apply _|calm|by intros; eexists _, _|intros []].
    eapply hoare_known with (C := is_Some (humanRefreshJti y)).
    + intros h a k z (-> & _ & Hn & [t Ht]) _. unfold humanRefreshJti. rewrite Ht. specialize (Hn t Ht). unfold jti_of in Hn.
      destruct (jti (token t)); [done|eauto].
    + intros Hy. eapply hoare_conseq; [apply hoare_reindex with (g := mkGaps (unopened g) (Some l) (Some l)) (P := fun h a z => who U md h a z /\ settled z); right; split; [done|exact Hy]|done| |done].
      intros [] s. apply here_weaken. tauto.
Qed.
(** The gap of a rotated session closes when nobody is signed in there, or the history knows. *)
Lemma gap_close o i l P s : here (mkGaps o (Some l) i) l P s ->
  (forall h a x u, P h a x -> user x = Some u -> (u, token_id x) ∈ h) -> here (mkGaps o None i) l P s.
Proof.
  intros ([Hr Hs Hl] & x & Hx & Hp) Hin. split; [|by exists x]. split; try done. intros l' y Hy. destruct (Hs _ _ Hy).
  constructor; try done. simpl in *. intros _ Hd u Hu. destruct (decide (l' = l)) as [->|Hne].
  - assert (y = x) as -> by congruence. by eapply Hin.
  - apply so_login0; congruence.
Qed.
Lemma resolved_loose U md : Loose (resolved U md).
Proof.
  intros h a x y Hu Hm Ht (Hn & Hs & Hw). unfold resolved, acts_as, who, named in *. rewrite Ht, Hu, Hm. done.
Qed.
Lemma resolved_authorized u md h a x v : resolved None md h a x -> user x = Some v -> user_systemOnly a v = true -> u = v -> False.
Proof. intros (_ & _ & [[Hu _]|(w & Hu & _ & _ & _ & Hso)]) Hv Hsv _; congruence. Qed.
Lemma tryRehydrate_triple g l md : md <> Device -> unnoted g = None -> unindexed g = None ->
  hoare (here g l (who None md)) (tryRehydrate l) (fun _ => here g l (fun _ _ x => settled x)) (here g l (who None md)).
Proof.
  intros Hmd Hn Hi. unfold tryRehydrate. eapply hoare_handle with (X := here g l (who None md)).
  - eapply hoare_bind; [by apply validateRefreshToken_triple|]. intros []. cbn beta.
    eapply hoare_bind; [eapply hoare_err; [apply accessToken_triple, resolved_loose|]|].
    + intros s. apply here_weaken. intros h a x [Hres (u & Hu & Hso)]. by destruct (resolved_authorized u _ _ _ _ _ Hres Hu Hso).
    + intros []. eapply hoare_conseq; [by apply cache_triple|done| |done]. intros [] s. apply here_weaken. intros h a x (? & ? & _). done.
  - intros e. eapply hoare_conseq; [by apply rotate_triple|done| |done]. intros [] s Hs.
    destruct g as [o n i]. simpl in *. subst. eapply here_weaken; [|eapply gap_close; [exact Hs|]].
    + intros h a x [_ ?]. done.
    + intros h a x u [[Hu _] _]. congruence.
Qed.

(** *** Signing in *)
Lemma note_login_triple g l u (P : gmap Z Account -> Session -> Prop) R :
  hoare (here g l (fun _ a x => P a x)) (note_login l u) (fun _ => here g l (fun h a x => P a x /\ (u, token_id x) ∈ h)) R.
Proof.
  unfold note_login. apply hoare_session. intros x s ([Hr Hs Hl] & y & Hy & -> & Hp). simpl.
  split; [|exists x; repeat split; [done..|apply elem_of_app; right; by apply list_elem_of_singleton]].
  split; simpl; [intros j r Hj; apply elem_of_app; eauto| |done].
  intros l' z Hz. destruct (Hs _ _ Hz). constructor; try done. intros. apply elem_of_app. eauto.
Qed.
Lemma gap_open l P s : here no_gap l P s -> here (mkGaps None (Some l) None) l P s.
Proof.
  intros ([Hr Hs Hl] & Hp). split; [|done]. split; try done. intros l' y Hy. destruct (Hs _ _ Hy). constructor; try done.
  intros _. by apply so_login0.
Qed.
Lemma rows_set_triple g l P t : (forall h a x, P h a x -> (userId (token t), jti_of t) ∈ h) ->
  hoare (here g l P) (rows_set t) (fun _ s => here g l P s /\ is_Some (rows s !! jti_of t)) (here g l P).
Proof.
  intros HP. unfold rows_set. eapply hoare_calm; [apply _|calm| |done]. intros used.
  eapply hoare_calm; [apply _|apply (calm_read (fun r => bool_decide (is_Some (r !! jti (token t)))))| |done]. intros taken.
  apply hoare_require; [intros _|done]. intros s ([Hr Hs Hl] & Hp). simpl.
  split; [split; [|done]|unfold jti_of; rewrite lookup_insert_eq; eauto]. split; [|done..]. simpl.
  intros j r. destruct (decide (j = jti_of t)) as [->|Hne].
  - unfold jti_of. rewrite lookup_insert_eq. intros [= <-]. simpl. destruct Hp as (x & _ & Hp). by eapply HP.
  - rewrite lookup_insert_ne by done. apply Hr.
Qed.
Lemma hoare_rows_get_known {B} g l P j (k : option RefreshToken -> M B) Q (R : Server W -> Prop) :
  (forall t, raw_of t = [] -> jti_of t = j -> hoare (here g l (fun h a x => P h a x /\ (userId (token t), j) ∈ h)) (k (Some t)) Q R) ->
  (forall s, here g l P s -> R s) -> hoare (fun s => here g l P s /\ is_Some (rows s !! j)) (let! o := rows_get j in k o) Q R.
Proof.
  intros Hk HR s [Hs [r Hj]]. pose proof (calm_frame (here g l P) (draw transaction_fails) (calm_draw _) s Hs) as Hd.
  unfold bind. rewrite rows_get_run, Hj. unfold draw in Hd. destruct (transaction_fails (outside s)) as [[why|] w]; [by apply HR|].
  destruct Hd as (Hi & x & Hx & Hp).
  assert (Hi' : Inv g (with_rows (rows s) (with_outside w s))) by (by eapply calm_stable; [|exact Hi]; apply same_but).
  destruct (short_id r).
  - apply Hk; [done..|]. split; [exact Hi'|]. exists x. do 2 (split; [done|]). by apply (i_row _ _ Hi).
  - apply HR. split; [exact Hi'|]. by exists x.
Qed.
Definition any : Fact := fun _ _ _ => True.
Lemma here_any g l P s : here g l P s -> here g l any s.
Proof. by apply here_weaken. Qed.
(** The stored row replaces a token of the same id. *)
Lemma store_triple g l j t P R : raw_of t = [] -> jti_of t = j ->
  (forall h a x, P h a x -> is_Some (refreshToken_ x) /\ token_id x = j) ->
  hoare (here g l P) (edit l (with_refresh (Some t))) (fun _ => here g l any) R.
Proof.
  intros Hraw Hj HP. apply hoare_edit. intros h a m x Hp Hs. split; [|done]. destruct (HP _ _ _ Hp) as [[t0 Ht0] Hid].
  eapply (sound_token _ _ _ _ x t0 t); try done. unfold token_id in Hid. rewrite Ht0 in Hid. simpl in Hid. congruence.
Qed.
Lemma usable_answer x s s' : hasUsableRefreshToken x s = (Ok true, s') -> is_Some (refreshToken_ x).
Proof. unfold hasUsableRefreshToken. destruct (refreshToken_ x); [eauto|done]. Qed.
Lemma promote_triple l u : hoare (here no_gap l (fun h a x => who (Some u) Human h a x /\ named x /\ (u, token_id x) ∈ h))
  (promote l) (fun _ => here no_gap l any) (here no_gap l any).
Proof.
  unfold promote. apply hoare_session. intros x. eapply hoare_known with (C := user x = Some u); [intros h a k y (-> & [Hu _] & _) _; done|].
  intros Hu. rewrite Hu. apply hoare_accounts. intros b. apply hoare_require; [intros _|intros _ s; apply here_any].
  eapply hoare_answer with (D := fun v => v = true -> is_Some (refreshToken_ x));
    [apply _|calm|intros s v s' Hv ->; by eapply usable_answer| |intros s; apply here_any]. intros usable Husable.
  eapply hoare_bind with (Q := fun _ => here (mkGaps None (Some l) None) l (fun _ _ y => who (Some u) Human [] ∅ y /\ settled y)).
  { destruct usable.
    - intros s Hs. simpl. apply gap_open. eapply here_weaken; [|exact Hs]. intros h a y (-> & -> & Hw & Hn & _).
      repeat split; try done; try apply Hw. auto.
    - eapply hoare_conseq; [by apply rotate_triple with (g := no_gap) (U := Some u) (md := Human)| | |intros s; apply here_any].
      + intros s. apply here_weaken. tauto.
      + done. }
  intros []. eapply hoare_bind with (Q := fun _ => here no_gap l (fun h a y => who (Some u) Human h a y /\ settled y /\ (u, token_id y) ∈ h)).
  { eapply hoare_conseq; [apply note_login_triple with (P := fun _ y => who (Some u) Human [] ∅ y /\ settled y)|done| |intros s Hs; exact Hs].
    intros [] s Hs. eapply here_weaken; [|eapply gap_close; [exact Hs|]].
    - intros h a y ([Hw ?] & ?). done.
    - intros h a y v [[[Hv _] _] Hin] Hv'. congruence. }
  intros []. set (P := fun h a y => who (Some u) Human h a y /\ settled y /\ (u, token_id y) ∈ h).
  assert (HP : Loose P).
  { intros h a y z Hzu Hzm Hzt (Hw & Hst & Hin). unfold P, who, settled, named, token_id in *. by rewrite Hzu, Hzm, Hzt. }
  eapply hoare_bind with (Q := fun _ => here no_gap l P); [eapply hoare_err; [by apply accessToken_triple|intros s; apply here_any]|].
  intros []. eapply hoare_calm; [apply _|calm| |intros s; apply here_any]. intros active.
  apply hoare_require; [intros _|intros _ s; apply here_any].
  eapply hoare_bind with (Q := fun _ => here no_gap l (fun h a y => P h a y /\ forall t, refreshToken_ y = Some t -> userId (token t) = u)).
  { apply hoare_edit. intros h a m y ((Hyu & Hym) & [Hn [t Ht]] & Hin) Hs. unfold P, who, settled, named, token_id in *. rewrite Ht in *. simpl in *.
    split; [eapply (sound_token _ _ _ _ y t); try done; apply (so_token _ _ _ _ _ Hs t Ht)|].
    repeat split; try done; intros t' [= <-]; [by apply (Hn t)|done]. }
  intros []. apply hoare_session. intros y. destruct (refreshToken_ y) as [t|] eqn:Ht; [|intros s; apply here_any].
  eapply hoare_pre with (P' := here no_gap l (fun h a z => is_Some (refreshToken_ z) /\ token_id z = jti_of t /\ (userId (token t), jti_of t) ∈ h)).
  2:{ intros s. apply here_weaken. intros h a z (-> & (_ & [_ ?] & Hin) & Hown). rewrite (Hown t Ht). unfold token_id in *. rewrite Ht in *. done. }
  apply hoare_rows_get; [|intros s; apply here_any]. intros [stored|].
  - eapply hoare_known with (C := raw_of stored = [] /\ jti_of stored = jti_of t).
    { intros h a k z (_ & Hst) _. by destruct (Hst stored eq_refl) as (? & ? & _). }
    intros [Hraw Hj]. eapply hoare_bind; [apply (store_triple _ _ (jti_of t)); [done..|]|intros []; by apply cache_triple].
    intros h a z ((? & ? & _) & _). done.
  - eapply hoare_bind; [eapply hoare_err; [apply rows_set_triple|intros s; apply here_any]|].
    { intros h a z ((_ & _ & Hin) & _). done. }
    intros []. apply hoare_rows_get_known; [|intros s; apply here_any]. intros stored Hraw Hj.
    eapply hoare_bind; [apply (store_triple _ _ (jti_of t)); [done..|]|intros []; by apply cache_triple].
    intros h a z (((? & ? & _) & _) & _). done.
Qed.
End OneSession.
