(* ===== verification/AuthLifecycle.v ===== *)
(** * Sessions: requests and connections as steps of a server

    The operations of the manager and of the websocket sessions as steps of a server, each keeping
    the invariant of [AuthSteps]; and the relation of steps that connections, messages, HTTP
    requests, the sweep and revocation make, with its runs. *)
From S2P Require Import Prelude Monad ShareScope AuthModel AuthSteps.
#[local] Open Scope Z_scope.

Section Requests.
Context {W : Type} `{AuthOutside W} `{!AuthOutsideOk W}.
Notation M A := (Monad.M (Server W) Thrown A).
Notation here := (here (W := W)).
Implicit Types (s : Server W) (x y : Session) (g : Gaps).

(** An operation on an existing session keeps the invariant; one that starts from nothing does. *)
Definition fine g l {A} (m : M A) : Prop := hoare (here g l any) m (fun _ => here g l any) (here g l any).
Definition safe {A} (m : M A) : Prop := hoare (Inv (W := W) no_gap) m (fun _ => Inv no_gap) (Inv no_gap).

Lemma fine_triple g l {A} (m : M A) : fine g l m -> hoare (here g l any) m (fun _ => here g l any) (here g l any).
Proof. done. Qed.
Lemma fine_bind g l {A B} (m : M A) (k : A -> M B) : fine g l m -> (forall a, fine g l (k a)) -> fine g l (bind m k).
Proof. apply hoare_bind. Qed.
Lemma fine_handle g l {A} (m : M A) k : fine g l m -> (forall e, fine g l (k e)) -> fine g l (handle m k).
Proof. apply hoare_handle. Qed.
Lemma fine_calm g l {A} (m : M A) : calm m -> fine g l m.
Proof. apply calm_frame, _. Qed.
Lemma fine_gentle g l f :
  (forall x, user (f x) = user x /\ mode (f x) = mode x /\ (closing (f x) = false -> closing x = false) /\ refreshToken_ (f x) = refreshToken_ x) ->
  fine g l (edit l f).
Proof. intros Hf. by apply hoare_gentle. Qed.
Lemma fine_cache g l : unindexed g = None -> fine g l (cache l).
Proof. by apply cache_triple. Qed.
Lemma fine_remove g l : fine g l (remove l).
Proof. apply remove_triple. Qed.
Lemma fine_invalidate g l : fine g l (invalidate l).
Proof. by apply invalidate_triple. Qed.
Lemma fine_access g l : fine g l (accessToken l).
Proof. eapply hoare_err; [by apply accessToken_triple|intros s; apply here_any]. Qed.
Lemma fine_refresh g l : unnoted g = None -> fine g l (validateRefreshToken l).
Proof.
  intros Hg s (Hi & x & Hx & _). pose proof (validateRefreshToken_triple g l (user x) (mode x) Hg s) as Hv.
  destruct (validateRefreshToken l s) as [[[]|e] s']; (eapply here_any; apply Hv; split; [done|by exists x]).
Qed.
Lemma safe_fine l {A} (k : Session -> M A) : (forall x, fine no_gap l (k x)) -> safe (let! x := session_at l in k x).
Proof.
  intros Hk. apply hoare_session_any; [|done]. intros x. eapply hoare_conseq; [apply Hk|..].
  - intros s. apply here_any.
  - intros a s. apply here_inv.
  - intros s. apply here_inv.
Qed.
End Requests.

(** Follow a program on one session. *)
Ltac fine := repeat (cbv zeta; match goal with
  | |- fine _ _ (bind _ _) => apply fine_bind; [|intros ?]
  | |- fine _ _ (handle _ _) => apply fine_handle; [|intros ?]
  | |- fine _ _ (match ?b with _ => _ end) => destruct b
  | |- fine _ _ (cache _) => apply fine_cache; solve [done]
  | |- fine _ _ (remove _) => apply fine_remove
  | |- fine _ _ (invalidate _) => apply fine_invalidate
  | |- fine _ _ (accessToken _) => apply fine_access
  | |- fine _ _ (validateRefreshToken _) => apply fine_refresh; solve [done]
  | |- fine _ _ (edit _ _) => apply fine_gentle; solve [intros ?; repeat split; done]
  | |- fine _ _ _ => first [solve [auto 1] | apply fine_calm; solve [calm]]
  end).

Section Operations.
Context {W : Type} `{AuthOutside W} `{!AuthOutsideOk W}.
Notation M A := (Monad.M (Server W) Thrown A).
Notation here := (here (W := W)).
Notation fine := (fine (W := W)).
Implicit Types (s : Server W) (x y : Session) (g : Gaps).

Lemma fine_renew l token : fine no_gap l (renewAccessToken l token).
Proof. unfold renewAccessToken, refreshed_or_invalid. fine. Qed.
Lemma fine_validate l token : fine no_gap l (validate l token).
Proof. unfold validate. fine. Qed.
Lemma fine_close l : fine no_gap l (close l).
Proof. unfold close. fine. Qed.
Lemma fine_logout l : fine no_gap l (auth_logout l).
Proof. apply fine_invalidate. Qed.
Lemma fine_isAuthenticated l token : fine no_gap l (isUserAuthenticated token l).
Proof. unfold isUserAuthenticated. pose proof fine_validate. fine. Qed.

(** *** Share sessions *)
Lemma fine_share g l p id tok md : md <> Device -> hoare (here g l (fun _ _ x => user x = None)) (edit l (with_share p id tok md)) (fun _ => here g l any) (here g l any).
Proof.
  intros Hmd. apply hoare_edit. intros h a m x Hu []. split; [|done].
  constructor; unfold named, token_id in *; simpl; try done; rewrite ?Hu; done.
Qed.
Lemma fine_pending g l id tok : fine g l (setPendingShareSession l id tok).
Proof.
  unfold setPendingShareSession. apply hoare_session. intros x.
  apply hoare_require; [intros Hu|intros _ s; apply here_any]. bsimpl.
  do 2 (apply hoare_require; [intros _|intros _ s; apply here_any]).
  eapply hoare_pre; [by apply fine_share|]. intros s. apply here_weaken. intros h a y [-> _]. destruct (user x); [|done]. by destruct Hu.
Qed.
Lemma fine_principal g l p tok : fine g l (setSharePrincipal l p tok).
Proof.
  unfold setSharePrincipal. apply hoare_session. intros x.
  apply hoare_require; [intros Hu|intros _ s; apply here_any]. bsimpl. destruct p as [p|]; [|intros s; apply here_any].
  apply hoare_require; [intros _|intros _ s; apply here_any].
  eapply hoare_pre; [by apply fine_share|]. intros s. apply here_weaken. intros h a y [-> _]. destruct (user x); [|done]. by destruct Hu.
Qed.
Lemma fine_rotateShare g l : fine g l (rotateShareRefreshToken l).
Proof. unfold rotateShareRefreshToken, shareRefreshToken. fine. Qed.
Lemma fine_copyShare g l p : fine g l (copyShareState l p).
Proof. unfold copyShareState. pose proof fine_pending. pose proof fine_principal. fine. Qed.
Lemma fine_hydrateShare g l raw c : fine g l (hydrateShareRefreshToken l raw c).
Proof. unfold hydrateShareRefreshToken. fine. Qed.
Lemma fine_rehydrateShare g l : unindexed g = None -> fine g l (tryRehydrateShareRefresh l).
Proof.
  intros Hg. unfold tryRehydrateShareRefresh. pose proof (fine_rotateShare g l). pose proof (fine_hydrateShare g l).
  pose proof (fine_copyShare g l). pose proof (fine_cache g l Hg). fine.
Qed.
Lemma fine_open l req answer id tok : fine no_gap l (sessions_open l req answer id tok).
Proof.
  unfold sessions_open, requireNonHumanShareBootstrap, attachReadyPrincipal.
  pose proof (fine_pending no_gap l). pose proof (fine_principal no_gap l). apply hoare_session. intros x.
  apply hoare_require; [intros Hu|intros _ s; apply here_any]. bsimpl.
  case_if; [intros s; apply here_any|].
  eapply hoare_bind with (Q := fun _ => here no_gap l any); [|intros []; apply fine_triple; fine].
  destruct (isShareSession x) eqn:Hshare; [|intros s; apply here_any].
  apply hoare_edit. intros h a m y [-> _] []. split; [|done]. destruct (user x) eqn:Hux; [by destruct Hu|].
  constructor; unfold clearShareSession, named, token_id in *; simpl; rewrite ?Hux; try done.
Qed.
Lemma fine_start l answer : fine no_gap l (startEmailChallenge l answer).
Proof. unfold startEmailChallenge, requireNonHumanShareBootstrap. pose proof (fine_pending no_gap l). fine. Qed.
Lemma fine_confirm l p tok : fine no_gap l (confirmEmailChallenge l p tok).
Proof.
  unfold confirmEmailChallenge, requireNonHumanShareBootstrap, attachReadyPrincipal. pose proof (fine_principal no_gap l). fine.
Qed.

(** *** Signing in *)
Lemma loginUser_triple l name password : hoare (here no_gap l (fun _ _ x => closing x = false)) (loginUser name password l)
  (fun _ => here no_gap l any) (here no_gap l any).
Proof.
  eapply hoare_sound, hoare_pre with (P' := here no_gap l (fun _ _ x => named x)).
  2:{ intros s. apply here_weaken. intros h a x (Hc & k & Hs). by eapply so_open. }
  unfold loginUser. eapply hoare_calm; [apply _|calm| |intros s; apply here_any]. intros [c|]; [|intros s; apply here_any].
  do 3 (apply hoare_require; [intros _|intros _ s; apply here_any]).
  eapply hoare_calm; [apply _|apply calm_recordLogin| |intros s; apply here_any]. intros [].
  eapply hoare_calm; [apply _|calm| |intros s; apply here_any]. intros b. apply hoare_require; [intros _|intros _ s; apply here_any].
  eapply hoare_bind; [apply note_login_triple with (P := fun _ x => named x)|]. intros []. cbn beta.
  eapply hoare_bind; [eapply hoare_err; [apply setAuthenticatedUser_triple|intros s; apply here_any]|].
  { intros h a x []. done. }
  intros []. eapply hoare_pre; [apply promote_triple with (u := cr_id c)|]. intros s. apply here_weaken.
  intros h a y ((Hu & Hm & Hn & _ & _) & x & [_ Hin] & ->). done.
Qed.
Lemma login_triple l name password : hoare (here no_gap l (fun _ _ x => closing x = false)) (auth_login name password l)
  (fun _ => here no_gap l any) (here no_gap l any).
Proof. unfold auth_login. eapply hoare_bind; [apply loginUser_triple|intros []]. change (fine no_gap l (let! active := softValidateActiveSession l in
  require active (RuntimeError $"Failed to validate session after login");; edit l sendAccessTokenOnNextResponse)). fine. Qed.

(** *** New sessions *)
Definition blank (x : Session) : Prop := user x = None /\ refreshToken_ x = None /\ mode x = Unauthenticated.
Lemma new_session_triple (C : list (Z * str) -> Prop) : hoare (fun s => Inv no_gap s /\ C (logins s)) new_session
  (fun l => here no_gap l (fun h _ x => blank x /\ C h)) (Inv (W := W) no_gap).
Proof.
  intros s Hs. unfold new_session, bind, draw. destruct (draw_uuid (outside s)) as [id w]. unfold system_clock, draw. simpl.
  destruct (system_now w) as [now w']. simpl. destruct Hs as [[Hr Hs Hl] HC].
  assert (Hfresh : heap s !! fresh (dom (heap s)) = None) by (apply not_elem_of_dom, fin_sets.is_fresh).
  split; [split; simpl; [done| |]|eexists; simpl; by rewrite lookup_insert_eq].
  - intros l x. destruct (decide (l = fresh (dom (heap s)))) as [->|Hne].
    + rewrite lookup_insert_eq. intros [= <-]. constructor; try done. intros _ j Hj. destruct (Hl _ _ Hj). congruence.
    + rewrite lookup_insert_ne by done. apply Hs.
  - intros j l Hj. destruct (decide (l = fresh (dom (heap s)))) as [->|Hne]; [rewrite lookup_insert_eq; eauto|].
    rewrite lookup_insert_ne by done. by eapply Hl.
Qed.
Lemma safe_calm {A} (m : M A) : calm m -> safe m.
Proof. apply calm_frame, _. Qed.
Lemma here_safe {A} l (P : Session -> Prop) (m : M A) : fine no_gap l m ->
  hoare (here no_gap l (fun _ _ x => P x)) m (fun _ => Inv no_gap) (Inv no_gap).
Proof.
  intros Hm. eapply hoare_conseq; [apply Hm| | |]; [intros s; apply here_any|intros a s; apply here_inv|intros s; apply here_inv].
Qed.
Lemma safe_new {A} (k : nat -> M A) : (forall l, hoare (here no_gap l (fun _ _ x => blank x)) (k l) (fun _ => Inv no_gap) (Inv no_gap)) ->
  safe (let! l := new_session in k l).
Proof.
  intros Hk. eapply hoare_bind; [eapply hoare_pre; [apply (new_session_triple (fun _ => True))|done]|].
  intros l. eapply hoare_pre; [apply Hk|]. intros s. apply here_weaken. tauto.
Qed.
Lemma safe_accept : safe accept.
Proof. unfold accept. apply safe_new. intros l. apply here_safe. fine. Qed.
Lemma safe_acceptDevice ip ua u : safe (acceptDevice ip ua u).
Proof.
  unfold acceptDevice. eapply hoare_bind with (Q := fun _ => Inv no_gap); [apply hoare_err with (R' := Inv no_gap); [by intros s|done]|intros a].
  apply hoare_require; [intros _|done]. apply safe_new. intros l.
  eapply hoare_bind with (Q := fun _ => here no_gap l any).
  - apply hoare_edit. intros h b m x (Hu & Ht & Hm) Hs. split; [|done].
    constructor; unfold named, token_id, humanRefreshJti; simpl; rewrite ?Ht; try done; [by destruct u|].
    intros Hi j Hj. pose proof (so_index _ _ _ _ _ Hs Hi j Hj) as Hx. unfold humanRefreshJti in Hx. by rewrite Ht in Hx.
  - intros []. apply here_safe with (P := fun _ => True). fine.
Qed.

(** *** A connection's headers *)
Lemma opened l P s : here (opening l) l P s -> (forall h a x, P h a x -> closing x = false -> named x) -> here no_gap l any s.
Proof.
  intros ([Hr Hs Hl] & x & Hx & Hp) Hn. split; [|by exists x]. split; try done. intros l' y Hy. destruct (Hs _ _ Hy).
  constructor; try done. intros _ Hc. destruct (decide (l' = l)) as [->|Hne].
  - assert (y = x) as -> by congruence. by eapply Hn.
  - apply so_open; [|done]. simpl. congruence.
Qed.
Lemma unopened_weaken l P s : here no_gap l P s -> here (opening l) l P s.
Proof.
  intros ([Hr Hs Hl] & Hp). split; [|done]. split; try done. intros l' y Hy. destruct (Hs _ _ Hy). constructor; try done.
  intros _. by apply so_open.
Qed.
Lemma close_opening l : hoare (here (opening l) l any) (close l) (fun _ => here no_gap l any) (here no_gap l any).
Proof.
  unfold close. apply hoare_session. intros x. destruct (closing x) eqn:Hc.
  - intros s Hs. simpl. eapply opened; [exact Hs|]. intros h a y [-> _] Hy. congruence.
  - eapply hoare_bind with (Q := fun _ => here no_gap l any); [|intros []; apply fine_remove].
    eapply hoare_conseq; [apply hoare_edit with (P := any) (Q := fun _ _ y => closing y = true)|intros s; apply here_any| |done].
    + intros h a m y _ Hs. split; [|done]. by eapply (sound_keeps _ _ _ _ y).
    + intros [] s Hs. eapply opened; [exact Hs|]. simpl. intros h a y Hy. congruence.
Qed.
Lemma headers_triple l share cookie ip ua : hoare (here no_gap l (fun _ _ x => blank x)) (onHeadersRead l share cookie ip ua)
  (fun _ => here no_gap l any) (here no_gap l any).
Proof.
  unfold onHeadersRead. eapply hoare_handle with (X := here (opening l) l any); [|intros _; apply close_opening].
  unfold hydrateFromRequest. eapply hoare_bind with (Q := fun _ => here no_gap l (fun _ _ x => blank x)); [apply hoare_gentle; [by repeat split|intros h a x y; unfold blank; by intros -> -> ->]|intros []].
  eapply hoare_total; [apply _|calm|intros s; unfold system_clock, draw; destruct (system_now _); eauto|intros now]. destruct share.
  - eapply hoare_conseq with (P' := here no_gap l any) (Q' := fun _ => here no_gap l any) (R' := here no_gap l any); [|intros s; apply here_any|done|apply unopened_weaken].
    pose proof (fine_rehydrateShare no_gap l eq_refl). change (fine no_gap l
      (edit l (with_share_refresh (Some (placeholder cookie now)));; tryRehydrateShareRefresh l)). fine.
  - eapply hoare_bind with (Q := fun _ => here (opening l) l (who None Unauthenticated)).
    { eapply hoare_edit_gap.
      - intros l' h m z Hne []. constructor; try done. intros _. by apply so_open.
      - intros h a m x (Hu & Ht & Hm) []. split; [|done].
        constructor; unfold named, token_id, humanRefreshJti in *; simpl; rewrite ?Hu, ?Hm; try done; [by intros t [= <-]|].
        rewrite Ht in so_index. intros Hi j Hj. by specialize (so_index Hi j Hj). }
    intros []. eapply hoare_bind; [eapply hoare_err; [by apply tryRehydrate_triple|intros s; apply here_any]|]. intros []. cbn beta.
    eapply hoare_conseq; [apply (calm_frame (here (opening l) l (fun _ _ x => settled x))); calm|done| |intros s; apply here_any].
    intros [] s Hs. eapply opened; [exact Hs|]. by intros h a x [].
Qed.

(** *** HTTP requests *)
Lemma hoare_rows_get_any {B} j (k : option RefreshToken -> M B) Q R :
  (forall o, hoare (fun s => Inv no_gap s /\ forall t, o = Some t -> jti_of t = j /\ (userId (token t), j) ∈ logins s) (k o) Q R) ->
  (forall s, Inv no_gap s -> R s) -> hoare (Inv no_gap) (let! o := rows_get j in k o) Q R.
Proof.
  intros Hk HR s Hs. pose proof (calm_frame (Inv no_gap) (draw transaction_fails) (calm_draw _) s Hs) as Hd.
  unfold bind. rewrite rows_get_run. unfold draw in Hd. destruct (transaction_fails (outside s)) as [[why|] w]; [by apply HR|].
  assert (Hi' : Inv no_gap (with_rows (rows s) (with_outside w s))) by (by eapply calm_stable; [|exact Hd]; apply same_but).
  destruct (rows s !! j) as [r|] eqn:Hj; [destruct (short_id r)|]; [apply Hk|by apply HR|apply Hk]; (split; [exact Hi'|]); [|done].
  intros t [= <-]. split; [done|]. by apply (i_row _ _ Hs).
Qed.
Lemma restore_triple raw c : raw <> [] -> c_jti c = raw_jti raw -> safe (rehydrateHumanSessionFromStoredRefreshToken raw c).
Proof.
  intros Hraw Hc. unfold rehydrateHumanSessionFromStoredRefreshToken. apply hoare_rows_get_any; [|done].
  intros [stored|]; [|by intros s []].
  eapply hoare_pre with (P' := fun s => Inv no_gap s /\ (userId (token stored), c_jti c) ∈ logins s /\ jti_of stored = c_jti c).
  2:{ intros s [Hi Hst]. by destruct (Hst stored eq_refl). }
  assert (Hout : forall s, Inv no_gap s /\ (userId (token stored), c_jti c) ∈ logins s /\ jti_of stored = c_jti c -> Inv no_gap s) by tauto.
  assert (Calm (fun s : Server W => Inv no_gap s /\ (userId (token stored), c_jti c) ∈ logins s /\ jti_of stored = c_jti c)).
  { intros s s' Hs (Hi & Hin & Hj). split; [by eapply same_inv|split; [destruct Hs as (_ & _ & Hlog & _); by rewrite <- Hlog|done]]. }
  eapply hoare_calm; [apply _|calm| |done]. intros now. apply hoare_require; [intros _|done].
  eapply hoare_answer; [apply _|apply calm_claims|apply claims_answer| |done]. intros [] (c' & [= <-] & Hcj & Hcn). cbn beta.
  apply hoare_require; [intros _|done].
  eapply hoare_answer; [apply _|apply calm_verify|intros; by eapply verify_answer| |done]. intros t Ht. cbn beta in Ht. rewrite Ht.
  eapply hoare_calm; [apply _|calm| |done]. intros [b|]; [|done].
  do 2 (apply hoare_require; [intros _|done]).
  eapply hoare_bind; [eapply hoare_pre; [apply (new_session_triple (fun h => (userId (token stored), c_jti c) ∈ h))|]|].
  { by intros s (? & ? & _). }
  intros l. cbn beta. assert (Hjt : jti_of t = c_jti c) by (unfold jti_of; by rewrite Ht).
  eapply hoare_bind with (Q := fun _ => here no_gap l (fun h _ x => (userId (token stored), token_id x) ∈ h /\ named x)).
  - eapply hoare_err with (R' := here no_gap l any); [apply hoare_edit with (Q := fun h _ x => (userId (token stored), token_id x) ∈ h /\ named x)|intros s; apply here_inv].
    intros h a m x ((Hu & Htx & Hm) & Hin) Hs. unfold token_id, named. simpl. fold (jti_of (on_token (with_raw raw) t)).
    replace (jti_of (on_token (with_raw raw) t)) with (c_jti c) by done.
    split; [|split; [done|by intros t' [= <-]; rewrite <- Hjt in Hcn]].
    constructor; unfold named, token_id, humanRefreshJti; simpl; rewrite ?Hu, ?Hm; try done.
    + intros t' [= <-] _ _. transitivity (c_jti c); [done|]. by rewrite Hc.
    + intros _ _ t' [= <-]. by rewrite <- Hjt in Hcn.
    + intros Hi j Hj. pose proof (so_index _ _ _ _ _ Hs Hi j Hj) as Hx. unfold humanRefreshJti in Hx. by rewrite Htx in Hx.
  - intros []. eapply hoare_bind with (Q := fun _ => Inv no_gap); [|intros []; by intros s].
    eapply hoare_conseq; [by apply setAuthenticatedUser_triple with (P := fun h _ x => (userId (token stored), token_id x) ∈ h /\ named x)|done| |].
    + intros [] s. apply here_inv.
    + intros s. apply here_inv.
Qed.
(** The id of a refresh token that the request carries is the id of no session. *)
Definition foreign raw (s : Server W) : Prop := sessionsByUUID s !! raw_jti raw = None.
Lemma validateRaw_triple raw : hoare (fun s => Inv no_gap s /\ foreign raw s) (validateRawRefreshToken raw) (fun _ => Inv no_gap) (Inv no_gap).
Proof.
  intros s [Hs Hf]. unfold validateRawRefreshToken.
  destruct (decode raw s) as [r s'] eqn:Hd. assert (Hd' := Hd). unfold decode, ask, reads in Hd'. injection Hd' as <- <-.
  rewrite (bind_run _ _ _ _ _ Hd). pose proof (decode_answer _ _ _ _ Hd) as Hc.
  destruct (jwt_decode (outside s) raw) as [c|]; [|done]. destruct (Hc c eq_refl) as [Hj Hraw].
  unfold require. destruct (negb (is_empty (c_jti c))); [|done]. destruct (kind_allowed c); [|done].
  unfold bind at 1, ret at 1. unfold bind at 1, ret at 1. unfold AuthModel.get, bind at 1, reads at 1.
  unfold foreign in Hf. rewrite Hj, Hf. rewrite <- Hj. destruct (sessionsByRefreshJti s !! c_jti c) as [l|] eqn:Hl; [|by apply restore_triple].
  destruct (i_live _ _ Hs _ _ Hl) as [x Hx]. pose proof (so_index _ _ _ _ _ (i_session _ _ Hs _ _ Hx) ltac:(done) _ Hl) as Hjx.
  assert (Hh : here no_gap l (fun _ _ y => y = x) s) by (split; [done|by exists x]).
  revert s Hs Hf Hd Hc Hl Hx Hh. clear -Hjx Hj Hraw. intros s _ _ _ _ _ _. revert s.
  change (hoare (here no_gap l (fun _ _ y => y = x)) (let! x := session_at l in
    match refreshToken_ x with
    | None => throw (InvalidArgument $"Session does not contain a refresh token for validation")
    | Some t =>
        adopt_raw l t raw;;
        let! now := draw steady_now in
        let! known := is_fresh (c_jti c) now in
        let! good := (if known then valid_refresh l else ret false) in
        (if good : bool then ret tt else validateRefreshToken l;; stamp (c_jti c) now);;
        let! x := session_at l in
        let! a := reads (fun s => Ok (accounts s)) in
        match user x with
        | None => throw (InvalidArgument $"Refresh token did not resolve to a human session")
        | Some u =>
            require (negb (isShareSession x)) (InvalidArgument $"Refresh token did not resolve to a human session");;
            require (negb (user_systemOnly a u)) (InvalidArgument $"System-only users cannot use human refresh tokens");;
            ret l
        end
    end) (fun _ => Inv no_gap) (Inv no_gap)).
  apply hoare_session. intros y. eapply hoare_known with (C := y = x); [intros h a k z [-> ->] _; done|]. intros ->.
  unfold humanRefreshJti in Hjx. destruct (refreshToken_ x) as [t|] eqn:Ht; [|done].
  eapply hoare_bind with (Q := fun _ => here no_gap l any).
  - unfold adopt_raw. destruct (is_empty (rawToken (token t))).
    + apply hoare_edit. intros h a m z [-> _] Hs. split; [|done]. rewrite Ht. simpl.
      eapply (sound_token _ _ _ _ x t (on_token (with_raw raw) t)); try done. intros _ _. unfold jti_of, raw_of. simpl.
      destruct (is_empty (jti (token t))); [done|]. injection Hjx as ->. done.
    + intros s Hs. destruct (_ == raw); simpl; [by eapply here_any|by eapply here_inv].
  - intros []. apply here_safe with (P := fun _ => True). fine.
Qed.
Lemma safe_rawShare raw : safe (validateRawShareRefreshToken raw).
Proof.
  unfold validateRawShareRefreshToken. eapply hoare_calm; [apply _|calm| |done]. intros [c|]; [|by intros s Hs].
  do 2 (apply hoare_require; [intros _|done]). eapply hoare_calm; [apply _|calm| |done]. intros [l|]; [|by intros s Hs].
  apply safe_fine. intros x. fine.
Qed.

(** *** The whole server *)
Lemma safe_quietly (m : M unit) : safe m -> safe (quietly m).
Proof. intros Hm. eapply hoare_handle; [apply Hm|]. by intros e s. Qed.
Lemma safe_bind {A B} (m : M A) (k : A -> M B) : safe m -> (forall a, safe (k a)) -> safe (bind m k).
Proof. apply hoare_bind. Qed.
Lemma safe_each {A} (l : list A) (f : A -> M unit) : (forall a, safe (f a)) -> safe (for_each l f).
Proof. intros Hf. apply hoare_for_each. intros a _. apply Hf. Qed.
Lemma safe_session {A} l (k : Session -> M A) : fine no_gap l (let! x := session_at l in k x) -> safe (let! x := session_at l in k x).
Proof.
  intros Hk s Hs. destruct (heap s !! l) as [x|] eqn:Hx.
  - assert (here no_gap l any s) as Hh by (split; [done|by exists x]). specialize (Hk s Hh).
    destruct (bind _ _ s) as [[a|e] s']; by eapply here_inv.
  - unfold bind, session_at, reads. by rewrite Hx.
Qed.
Lemma safe_invalidate l : safe (invalidate l).
Proof. apply safe_session, fine_invalidate. Qed.
Lemma safe_close l : safe (close l).
Proof. apply safe_session, fine_close. Qed.
Lemma safe_revoke u : safe (revokeSessions u).
Proof.
  unfold revokeSessions. apply safe_bind; [apply safe_calm, calm_revokeAll|intros []]. apply safe_bind; [apply safe_calm; calm|intros live].
  apply safe_each. intros l. apply safe_quietly, safe_bind; [apply safe_invalidate|intros []]. apply safe_session. pose proof fine_close. fine.
Qed.
Lemma safe_sweep timeout : safe (sweepActiveSessions timeout).
Proof.
  unfold sweepActiveSessions. apply safe_bind; [apply safe_calm; calm|intros live]. apply safe_each. intros l.
  apply safe_session. pose proof fine_close. unfold quietly. fine.
Qed.
End Operations.

(** ** Runs *)
(** The handlers of messages that concern sessions; any other leaves them ([Other] is also a
    message whose handler the rate limits refuse). *)
Inductive Request :=
| Login (name password : str) | Refresh | Logout | IsAuthenticated
| Open (requested : str) (answer : option (option Principal)) (id tok : str) | StartChallenge (answer : option (str * str))
| Confirm (p : Principal) (tok : str) | Other (command : str).
Definition command_of (r : Request) : str :=
  match r with
  | Login _ _ => $"auth.login" | Refresh => $"auth.refresh" | Logout => $"auth.logout" | IsAuthenticated => $"auth.isAuthenticated"
  | Open _ _ _ _ => $"share.session.open" | StartChallenge _ => $"share.email.challenge.start" | Confirm _ _ => $"share.email.challenge.confirm" | Other c => c
  end.
Inductive Event :=
| Connect | ConnectDevice (ip ua : str) (owner : option Z) | Headers (l : nat) (share : bool) (cookie ip ua : str) | Accepted (l : nat)
| Message (l : nat) (access : str) (r : Request) | Http (cookie : str) | HttpShare (cookie : str)
| Revoke (u : Z) | Sweep (timeout : Z) | Closed (l : nat).

Section Runs.
Context {W : Type} `{AuthOutside W}.
Notation M A := (Monad.M (Server W) Thrown A).
Implicit Types (s : Server W).
Definition discard {A} (m : M A) : M unit := m;; ret tt.
Definition handler (l : nat) (access : str) (r : Request) : M unit :=
  match r with
  | Login name password => auth_login name password l
  | Refresh => discard (auth_refresh access l)
  | Logout => auth_logout l
  | IsAuthenticated => discard (isUserAuthenticated access l)
  | Open requested answer id tok => sessions_open l requested answer id tok
  | StartChallenge answer => startEmailChallenge l answer
  | Confirm p tok => confirmEmailChallenge l p tok
  | Other _ => ret tt
  end.
Definition perform (e : Event) : M unit :=
  match e with
  | Connect => discard accept
  | ConnectDevice ip ua owner => discard (acceptDevice ip ua owner)
  | Headers l share cookie ip ua => onHeadersRead l share cookie ip ua
  | Accepted l => onHandshakeAccepted l
  | Message l access r => routeMessage l (command_of r) access (handler l access r)
  | Http cookie => discard (validateRawRefreshToken cookie)
  | HttpShare cookie => discard (validateRawShareRefreshToken cookie)
  | Revoke u => revokeSessions u
  | Sweep timeout => sweepActiveSessions timeout
  | Closed l => close l
  end.
(** Headers are read once, on a new session; messages arrive on an open connection; the cookie of an
    HTTP request carries the id of a token, and no session has that id. *)
Definition enabled `{!AuthOutsideOk W} (e : Event) s : Prop :=
  match e with
  | Headers l _ _ _ _ => exists x, heap s !! l = Some x /\ blank x
  | Accepted l => is_Some (heap s !! l)
  | Message l _ _ => exists x, heap s !! l = Some x /\ handshakeComplete x = true /\ closing x = false
  | Http cookie => foreign cookie s
  | _ => True
  end.
(** A step: an event, or the world, the accounts and the rows change elsewhere (an account is
    deactivated, a row is revoked or deleted, time passes). *)
Inductive step `{!AuthOutsideOk W} : option Event -> Server W -> Server W -> Prop :=
| step_event e s : enabled e s -> step (Some e) s (perform e s).2
| step_elsewhere s w a r :
    (forall j r', r !! j = Some r' -> exists x, rows s !! j = Some x /\ row_user x = row_user r') ->
    step None s (with_outside w (with_accounts a (with_rows r s))).
Inductive run `{!AuthOutsideOk W} : list (option Event) -> Server W -> Server W -> Prop :=
| run_nil s : run [] s s
| run_step es e s1 s2 s3 : run es s1 s2 -> step e s2 s3 -> run (es ++ [e]) s1 s3.
(** A server that starts: no sessions, and every row a sign-in of the past. *)
Definition starts s : Prop := heap s = ∅ /\ sessionsByRefreshJti s = ∅ /\ forall j r, rows s !! j = Some r -> (row_user r, j) ∈ logins s.
End Runs.

Section Invariance.
Context {W : Type} `{AuthOutside W} `{!AuthOutsideOk W}.
Notation M A := (Monad.M (Server W) Thrown A).
Notation here := (here (W := W)).
Implicit Types (s : Server W).

Lemma fine_admits l c access : fine no_gap l (admits (W := W) l c access).
Proof. unfold admits. pose proof fine_validate. fine. Qed.
Lemma fine_route l c access (m : M unit) : fine no_gap l m -> fine no_gap l (routeMessage l c access m).
Proof. intros Hm. unfold routeMessage, quietly. pose proof fine_admits. fine. Qed.
(** Signing in needs no authenticated session. *)
Lemma login_unguarded (a : gmap Z Account) x : classifyCommand a $"auth.login" x <> RequireHumanAuth.
Proof.
  unfold classifyCommand.
  assert (isDevicePairCommand $"auth.login" = false) as -> by done. assert (isDeviceOnlyCommand $"auth.login" = false) as -> by done.
  assert (isSessionLifecycleCommand $"auth.login" = true) as -> by done. simpl.
  repeat case_match; done.
Qed.
Lemma calm_admits_login l access : calm (W := W) (admits l $"auth.login" access).
Proof.
  unfold admits. apply calm_bind; [calm|intros x]. apply calm_bind; [calm|intros b]. pose proof (login_unguarded b x).
  destruct (classifyCommand b $"auth.login" x); [calm|done|calm|calm].
Qed.
Lemma route_login_triple l access name password : hoare (here no_gap l (fun _ _ x => closing x = false))
  (routeMessage l $"auth.login" access (auth_login name password l)) (fun _ => here no_gap l any) (here no_gap l any).
Proof.
  unfold routeMessage. eapply hoare_calm; [apply _|apply calm_admits_login| |intros s; apply here_any]. intros [|]; [|intros s; apply here_any].
  unfold quietly. eapply hoare_handle; [apply login_triple|]. by intros e s Hs.
Qed.
Lemma safe_run {A} l (m : M A) s : fine no_gap l m -> is_Some (heap s !! l) -> Inv no_gap s -> Inv no_gap (m s).2.
Proof.
  intros Hm [x Hx] Hi. assert (here no_gap l any s) as Hh by (split; [done|by exists x]). specialize (Hm s Hh).
  destruct (m s) as [[a|e] s']; by eapply here_inv.
Qed.
Lemma safe_state {A} (m : M A) s : safe m -> Inv no_gap s -> Inv no_gap (m s).2.
Proof. intros Hm Hi. specialize (Hm s Hi). by destruct (m s) as [[a|e] s']. Qed.
Lemma perform_inv e s : enabled e s -> Inv no_gap s -> Inv no_gap (perform e s).2.
Proof.
  intros He Hi.
  assert (Hd : forall A (m : M A), safe m -> safe (discard m)).
  { intros A m Hm. apply safe_bind; [done|]. by intros _ s'. }
  destruct e as [|ip ua owner|l share cookie ip ua|l|l access r|cookie|cookie|u|timeout|l]; cbn [perform enabled] in *.
  - apply safe_state; [apply Hd, safe_accept|done].
  - apply safe_state; [apply Hd, safe_acceptDevice|done].
  - destruct He as (x & Hx & Hb). pose proof (headers_triple l share cookie ip ua s (conj Hi (ex_intro _ x (conj Hx Hb)))) as Ht.
    destruct (onHeadersRead l share cookie ip ua s) as [[v|e] s']; by eapply here_inv.
  - apply (safe_run l); [unfold onHandshakeAccepted; fine|done..].
  - destruct He as (x & Hx & _ & Hc). destruct r as [name password| | | |req answer id tok|answer|p tok|c]; simpl.
    + pose proof (route_login_triple l access name password s (conj Hi (ex_intro _ x (conj Hx Hc)))) as Ht.
      destruct (routeMessage _ _ _ _ s) as [[v|e] s']; by eapply here_inv.
    + apply (safe_run l); [|eauto|done]. apply fine_route. unfold discard, auth_refresh. pose proof fine_renew. fine.
    + apply (safe_run l); [|eauto|done]. apply fine_route, fine_logout.
    + apply (safe_run l); [|eauto|done]. apply fine_route. unfold discard. pose proof fine_isAuthenticated. fine.
    + apply (safe_run l); [|eauto|done]. apply fine_route, fine_open.
    + apply (safe_run l); [|eauto|done]. apply fine_route, fine_start.
    + apply (safe_run l); [|eauto|done]. apply fine_route, fine_confirm.
    + apply (safe_run l); [|eauto|done]. apply fine_route. fine.
  - pose proof (validateRaw_triple cookie s (conj Hi He)) as Ht. unfold discard, bind.
    destruct (validateRawRefreshToken cookie s) as [[v|e] s']; exact Ht.
  - apply safe_state; [apply Hd, safe_rawShare|done].
  - apply safe_state; [apply safe_revoke|done].
  - apply safe_state; [apply safe_sweep|done].
  - apply safe_state; [apply safe_close|done].
Qed.
Lemma step_inv e s s' : step e s s' -> Inv no_gap s -> Inv no_gap s'.
Proof.
  intros [e' s0 He|s0 w a r Hr] Hi; [by apply perform_inv|]. destruct Hi as [Hrow Hs Hl]. split; simpl; [|done|done].
  intros j r' Hj. destruct (Hr _ _ Hj) as (x & Hx & <-). by apply Hrow.
Qed.
Lemma starts_inv s : starts s -> Inv no_gap s.
Proof. intros (Hh & Hm & Hr). split; [done|by intros l x; rewrite Hh|by intros j l; rewrite Hm]. Qed.
Lemma run_inv es s s' : starts s -> run es s s' -> Inv no_gap s'.
Proof. intros Hs Hr. induction Hr as [|es e s1 s2 s3 _ IH Hstep]; [by apply starts_inv|]. eapply step_inv; eauto. Qed.
End Invariance.
