(* ===== verification/AuthRuns.v ===== *)
(** * Sessions: what holds over every run

    Two relations that every step of [AuthLifecycle] keeps, whatever it throws: the history gains
    verified passwords only, and a session that was ended stays ended until the password is given on
    it again; then the properties of sessions, and runs of the small installation. *)
From S2P Require Import Prelude Monad ShareScope AuthModel AuthSteps AuthLifecycle.
#[local] Open Scope Z_scope.

(** ** The history: only a verified password enters it *)
Section History.
Context {W : Type} `{AuthOutside W}.
Notation M A := (Monad.M (Server W) Thrown A).
Implicit Types (s : Server W).

(** The history gains entries of the users in [U] only. *)
Definition gains (V : Z -> Prop) s s' : Prop := forall u j, (u, j) ∈ logins s' -> (u, j) ∈ logins s \/ V u.
#[export] Instance gains_preorder (V : Z -> Prop) : PreOrder (gains V).
Proof. split; [intros s u j; by left|]. intros s1 s2 s3 H1 H2 u j Hj. destruct (H2 u j Hj) as [Hj'|]; auto. Qed.
Lemma gains_modify (V : Z -> Prop) (f : Server W -> Server W) : (forall s, logins (f s) = logins s) -> ensures (gains V) (modify (E := Thrown) f).
Proof. intros Hf s u j. simpl. rewrite Hf. by left. Qed.
Lemma gains_draw (V : Z -> Prop) {A} (f : W -> A * W) : ensures (gains V) (draw f).
Proof. intros s. unfold draw. destruct (f (outside s)). intros u j. by left. Qed.
Lemma gains_query (V : Z -> Prop) {A} (f : gmap str Row -> A * gmap str Row) : ensures (gains V) (query f).
Proof.
  unfold query. apply ensures_bind; [apply _|apply gains_draw|]. intros [why|] s; [by left|].
  destruct (f (rows s)). intros u j. by left.
Qed.
Lemma gains_require (V : Z -> Prop) b e : ensures (gains V) (require b e).
Proof. intros s u j. destruct b; by left. Qed.
Lemma gains_note (V : Z -> Prop) l u : V u -> ensures (gains V) (note_login l u).
Proof.
  intros Hu. unfold note_login. apply ensures_bind; [apply _|by intros s v j; left|]. intros x s v j. simpl.
  rewrite elem_of_app, list_elem_of_singleton. intros [Hj|[= -> ->]]; auto.
Qed.
End History.

Ltac gains := repeat first
  [ solve [auto 2 with auth] | apply ensures_ret; apply _ | apply ensures_throw; apply _ | apply ensures_reads; apply _ | apply gains_draw | apply gains_require
  | apply gains_query | apply gains_modify; intros ?; solve [reflexivity | case_bool_decide; reflexivity]
  | apply ensures_bind; [apply _| |intros ?] | apply ensures_handle; [apply _| |intros ?] | apply ensures_for_each; [apply _|intros ?]
  | progress unfold ask, session_at, system_clock, decode, account_of, AuthModel.get, getShareByRefreshJti, getSessionsByUserId, getActive, rows_get, edit, is_fresh, stamp
  | progress cbv zeta
  | match goal with |- ensures _ (match ?b with _ => _ end) => destruct b end ].

Section Quiet.
Context {W : Type} `{AuthOutside W}.
Variable U : Z -> Prop.
Notation M A := (Monad.M (Server W) Thrown A).
Implicit Types (s : Server W).
Notation quiet := (ensures (gains (W := W) U)).
Lemma quiet_erase l x j : quiet (eraseSessionIndexesLocked l x j).
Proof. unfold eraseSessionIndexesLocked. gains. Qed.
Lemma quiet_cache l : quiet (cache l).
Proof. unfold cache, index_uuid, reindexHumanRefreshTokenLocked, reindexShareRefreshTokenLocked. gains. Qed.
Lemma quiet_sign x sub ttl k : quiet (finalizeAndSignToken x sub ttl k).
Proof. unfold finalizeAndSignToken. gains. Qed.
Lemma quiet_access l : quiet (accessToken l).
Proof. unfold accessToken, rejectSystemOnlyHumanToken. pose proof quiet_sign. gains. Qed.
Lemma quiet_rotate l : quiet (rotateRefreshToken l).
Proof.
  unfold rotateRefreshToken, refreshToken, rejectSystemOnlyHumanToken, new_refresh, index_uuid, reindexHumanRefreshTokenLocked.
  pose proof quiet_sign. gains.
Qed.
Lemma quiet_rotateShare l : quiet (rotateShareRefreshToken l).
Proof.
  unfold rotateShareRefreshToken, shareRefreshToken, new_refresh, index_uuid, reindexShareRefreshTokenLocked.
  pose proof quiet_sign. gains.
Qed.
Lemma quiet_invalidate l : quiet (invalidate l).
Proof. unfold invalidate, tokens_invalidate, hardInvalidate, rows_refresh. pose proof quiet_erase. gains. Qed.
Lemma quiet_set_user l u : quiet (setAuthenticatedUser l u).
Proof. unfold setAuthenticatedUser. gains. Qed.
Lemma quiet_claims t c : quiet (validateClaims t c).
Proof. unfold validateClaims. gains. Qed.
Lemma quiet_refresh l : quiet (validateRefreshToken l).
Proof.
  unfold validateRefreshToken, validateRefreshClaims, tryRehydrateFromPriorSession, copy_prior, rehydrateFromStoredRefreshToken,
    verifyStoredRefreshTokenHash, rows_rewriteHash, stored_user.
  pose proof quiet_claims. pose proof quiet_set_user. pose proof quiet_invalidate. gains.
Qed.
Lemma quiet_validateAccess l a : quiet (validateAccessToken l a).
Proof. unfold validateAccessToken, hasUsableAccessToken. pose proof quiet_claims. gains. Qed.
Lemma quiet_validate l a : quiet (validate l a).
Proof. unfold validate. pose proof quiet_refresh. pose proof quiet_access. pose proof quiet_cache. pose proof quiet_validateAccess. gains. Qed.
Lemma quiet_renew l a : quiet (renewAccessToken l a).
Proof.
  unfold renewAccessToken, refreshed_or_invalid. pose proof quiet_refresh. pose proof quiet_access. pose proof quiet_cache.
  pose proof quiet_validateAccess. gains.
Qed.
Lemma quiet_new : quiet new_session.
Proof. unfold new_session. gains. Qed.
Lemma quiet_close l : quiet (close l).
Proof. unfold close, remove. pose proof quiet_erase. gains. Qed.
Lemma quiet_pending l i t : quiet (setPendingShareSession l i t).
Proof. unfold setPendingShareSession. gains. Qed.
Lemma quiet_principal l p t : quiet (setSharePrincipal l p t).
Proof. unfold setSharePrincipal. gains. Qed.
Lemma quiet_soft l : quiet (softValidateActiveSession l).
Proof. unfold softValidateActiveSession, hasUsableAccessToken, hasUsableRefreshToken. gains. Qed.
Lemma quiet_headers l share cookie ip ua : quiet (onHeadersRead l share cookie ip ua).
Proof.
  unfold onHeadersRead, hydrateFromRequest, tryRehydrate, tryRehydrateShareRefresh, hydrateShareRefreshToken, copyShareState.
  pose proof quiet_refresh. pose proof quiet_access. pose proof quiet_cache. pose proof quiet_rotate. pose proof quiet_rotateShare.
  pose proof quiet_close. pose proof quiet_pending. pose proof quiet_principal. gains.
Qed.
Lemma quiet_raw c : quiet (validateRawRefreshToken c).
Proof.
  unfold validateRawRefreshToken, adopt_raw, valid_refresh, rehydrateHumanSessionFromStoredRefreshToken, verifyStoredRefreshTokenHash, rows_rewriteHash.
  pose proof quiet_refresh. pose proof quiet_claims. pose proof quiet_new. pose proof quiet_set_user. gains.
Qed.
Lemma quiet_rawShare c : quiet (validateRawShareRefreshToken c).
Proof. unfold validateRawShareRefreshToken. pose proof quiet_claims. gains. Qed.
Lemma quiet_revoke u : quiet (revokeSessions u).
Proof. unfold revokeSessions, revoke_one, rows_revokeAll, quietly. pose proof quiet_invalidate. pose proof quiet_close. gains. Qed.
Lemma quiet_sweep t : quiet (sweepActiveSessions t).
Proof. unfold sweepActiveSessions, sweep_one, quietly. pose proof quiet_invalidate. pose proof quiet_close. gains. Qed.
Lemma quiet_admits l c a : quiet (admits l c a).
Proof. unfold admits. pose proof quiet_validate. gains. Qed.
End Quiet.

Section Provenance.
Context {W : Type} `{AuthOutside W} `{!AuthOutsideOk W}.
Notation M A := (Monad.M (Server W) Thrown A).
Implicit Types (s : Server W).

(** The event is a sign-in whose credentials were accepted. *)
Definition verified (e : option Event) (u : Z) : Prop :=
  exists l access name password, e = Some (Message l access (Login name password)) /\
    exists (w : W) c, credentialsByName w name = Some c /\ cr_id c = u /\ cr_systemOnly c = false /\ cr_active c = true /\
      password_verifies password (cr_passwordHash c) = true.

Lemma set_user_ok l u s s' : setAuthenticatedUser l u s = (Ok tt, s') -> exists x, heap s' !! l = Some x /\ user x = Some u.
Proof.
  unfold setAuthenticatedUser. intros Hs. apply bind_ok in Hs as (a & s1 & _ & Hs). apply bind_ok in Hs as ([] & s2 & _ & Hs).
  apply bind_ok in Hs as ([] & s3 & He & Hs). injection He as <-. apply bind_ok in Hs as (x & s4 & Hx & Hs).
  unfold session_at, reads in Hx. simpl in Hx. rewrite lookup_alter_eq in Hx.
  destruct (heap s2 !! l) as [y|] eqn:Hy; [|done]. injection Hx as <- <-. simpl in Hs.
  destruct (refreshToken_ y) as [t|]; [|done]. injection Hs as <-. simpl. rewrite !lookup_alter_eq, Hy. simpl. eauto.
Qed.
Lemma promote_gains (V : Z -> Prop) l u s x : heap s !! l = Some x -> user x = Some u -> V u -> gains V s (promote l s).2.
Proof.
  intros Hx Hu HV. unfold promote. unfold bind at 1, session_at, reads. rewrite Hx, Hu.
  match goal with |- gains V s (?m s).2 => assert (ensures (gains V) m) as Hm; [|apply Hm] end.
  pose proof (quiet_rotate V). pose proof (quiet_access V). pose proof (quiet_soft V). pose proof (quiet_cache (W := W) V).
  pose proof (gains_note (W := W) V l u HV). unfold rows_set, hasUsableRefreshToken. gains.
Qed.
Lemma sign_in_gains (V : Z -> Prop) l u : V u -> ensures (gains V) (setAuthenticatedUser l u;; promote l).
Proof.
  intros HV s. unfold bind. pose proof (quiet_set_user (W := W) V l u s) as Hq.
  destruct (setAuthenticatedUser l u s) as [[[]|e] s2] eqn:Hset; [|done].
  destruct (set_user_ok _ _ _ _ Hset) as (x & Hx & Hu). transitivity s2; [done|by eapply promote_gains].
Qed.
Lemma loginUser_gains (V : Z -> Prop) name password l :
  (forall (w : W) c, credentialsByName w name = Some c -> cr_systemOnly c = false -> cr_active c = true ->
     password_verifies password (cr_passwordHash c) = true -> V (cr_id c)) ->
  ensures (gains (W := W) V) (loginUser name password l).
Proof.
  intros HV s. unfold loginUser, ask, bind at 1, reads. destruct (credentialsByName (outside s) name) as [c|] eqn:Hc; [|intros u j; by left].
  unfold require at 1. destruct (cr_systemOnly c) eqn:Hso; [intros u j; by left|]. unfold require at 1. destruct (cr_active c) eqn:Hac; [|intros u j; by left].
  unfold require at 1. destruct (password_verifies password (cr_passwordHash c)) eqn:Hp; [|intros u j; by left].
  simpl. specialize (HV _ _ Hc Hso Hac Hp). pose proof (gains_note (W := W) V l _ HV). pose proof (sign_in_gains V l _ HV).
  match goal with |- gains V s (?m s).2 => assert (ensures (gains V) m) as Hm; [|apply Hm] end. unfold recordLogin. gains.
Qed.
Lemma perform_gains e s : gains (verified (Some e)) s (perform e s).2.
Proof.
  set (V := verified (Some e)).
  assert (Hd : forall A (m : M A), ensures (gains V) m -> ensures (gains V) (discard m)).
  { intros A m Hm. unfold discard. gains. }
  assert (Hroute : forall l c access (m : M unit), ensures (gains V) m -> ensures (gains V) (routeMessage l c access m)).
  { intros l c access m Hm. unfold routeMessage, quietly. pose proof (quiet_admits (W := W) V). gains. }
  destruct e as [|ip ua owner|l share cookie ip ua|l|l access r|cookie|cookie|u|timeout|l]; cbn [perform].
  - pose proof (quiet_new (W := W) V). pose proof (quiet_cache (W := W) V). apply Hd. unfold accept. gains.
  - pose proof (quiet_new (W := W) V). pose proof (quiet_cache (W := W) V). apply Hd. unfold acceptDevice. gains.
  - apply quiet_headers.
  - unfold onHandshakeAccepted, edit. by apply gains_modify.
  - apply Hroute. destruct r as [name password| | | |req answer id tok|answer|p tok|c]; cbn [handler].
    + unfold auth_login. apply ensures_bind; [apply _| |intros []; pose proof (quiet_soft (W := W) V); gains].
      apply loginUser_gains. intros w c Hc Hso Hac Hp. exists l, access, name, password. split; [done|]. by exists w, c.
    + apply Hd. unfold auth_refresh. pose proof (quiet_renew (W := W) V). gains.
    + apply quiet_invalidate.
    + apply Hd. unfold isUserAuthenticated. pose proof (quiet_validate (W := W) V). gains.
    + unfold sessions_open, requireNonHumanShareBootstrap, attachReadyPrincipal. pose proof (quiet_cache (W := W) V).
      pose proof (quiet_pending (W := W) V). pose proof (quiet_principal (W := W) V). gains.
    + unfold startEmailChallenge, requireNonHumanShareBootstrap. pose proof (quiet_pending (W := W) V). gains.
    + unfold confirmEmailChallenge, requireNonHumanShareBootstrap, attachReadyPrincipal. pose proof (quiet_cache (W := W) V).
      pose proof (quiet_principal (W := W) V). gains.
    + gains.
  - apply Hd, quiet_raw.
  - apply Hd, quiet_rawShare.
  - apply quiet_revoke.
  - apply quiet_sweep.
  - apply quiet_close.
Qed.
Lemma run_gains es s s' u j : run es s s' -> (u, j) ∈ logins s' -> (u, j) ∈ logins s \/ Exists (fun e => verified e u) es.
Proof.
  intros Hr. induction Hr as [s|es e s1 s2 s3 _ IH Hstep]; [by left|]. intros Hj. rewrite Exists_app.
  assert ((u, j) ∈ logins s2 \/ verified e u) as [Hj'|Hv].
  { destruct Hstep as [e s2 He|]; [by apply perform_gains|by left]. }
  - destruct (IH Hj'); auto.
  - right. right. by constructor.
Qed.
End Provenance.

(** ** An ended session stays ended *)
Section Ended.
Context {W : Type} `{AuthOutside W} `{!AuthOutsideOk W}.
Variable l : nat.
Notation M A := (Monad.M (Server W) Thrown A).
Implicit Types (s : Server W) (x y : Session).

(** What [invalidate] leaves of a signed-in session: no text in its refresh token, a revoked access
    token, and no place in the index of refresh tokens. *)
Definition ended x : Prop :=
  mode x = Human /\ is_Some (user x) /\ (forall t, refreshToken_ x = Some t -> raw_of t = []) /\ (forall t, accessToken_ x = Some t -> revoked t = true).
Definition out s : Prop := exists x, heap s !! l = Some x /\ ended x /\ forall j, sessionsByRefreshJti s !! j <> Some l.
Definition spares s s' : Prop := out s -> out s'.
#[export] Instance spares_preorder : PreOrder spares.
Proof. split; [by intros s Hs|]. intros s1 s2 s3 H1 H2 Hs. exact (H2 (H1 Hs)). Qed.
Notation spared := (ensures spares).

Lemma spares_same s s' : heap s = heap s' -> sessionsByRefreshJti s = sessionsByRefreshJti s' -> spares s s'.
Proof. unfold spares, out. by intros -> ->. Qed.
Lemma spared_modify (f : Server W -> Server W) : (forall s, heap s = heap (f s) /\ sessionsByRefreshJti s = sessionsByRefreshJti (f s)) ->
  spared (modify (E := Thrown) f).
Proof. intros Hf s. by apply spares_same; apply Hf. Qed.
Lemma spared_edit k f : (k = l -> forall x, ended x -> ended (f x)) -> spared (edit (W := W) k f).
Proof.
  intros Hf s (x & Hx & He & Hj). destruct (decide (k = l)) as [->|Hk].
  - exists (f x). simpl. rewrite lookup_alter_eq, Hx. auto.
  - exists x. simpl. by rewrite lookup_alter_ne.
Qed.
Lemma spared_draw {A} (f : W -> A * W) : spared (draw f).
Proof. intros s. unfold draw. destruct (f (outside s)). by apply spares_same. Qed.
Lemma spared_query {A} (f : gmap str Row -> A * gmap str Row) : spared (query f).
Proof.
  unfold query. apply ensures_bind; [apply _|apply spared_draw|]. intros [why|] s; [done|].
  destruct (f (rows s)). by apply spares_same.
Qed.
Lemma spared_require b e : spared (require b e).
Proof. intros s. by destruct b. Qed.
End Ended.

(** Follow a program; a change to a session is a change to another one, or keeps it ended. *)
Ltac spares := repeat (cbv zeta; match goal with
  | |- ensures _ _ => solve [auto 1]
  | |- ensures _ (bind _ _) => apply ensures_bind; [apply _| |intros ?]
  | |- ensures _ (handle _ _) => apply ensures_handle; [apply _| |intros ?]
  | |- ensures _ (for_each _ _) => apply ensures_for_each; [apply _|intros ?]
  | |- ensures _ (match ?b with _ => _ end) => destruct b
  | |- ensures _ (ret _) => apply ensures_ret; apply _
  | |- ensures _ (throw _) => apply ensures_throw; apply _
  | |- ensures _ (reads _) => apply ensures_reads; apply _
  | |- ensures _ (draw _) => apply spared_draw
  | |- ensures _ (require _ _) => apply spared_require
  | |- ensures _ (query _) => apply spared_query
  | |- ensures _ (edit _ _) => apply spared_edit; solve [congruence | unfold ended; simpl; tauto]
  | |- ensures _ (modify _) => apply spared_modify; solve [by intros ?]
  | |- ensures _ _ =>
      progress unfold ask, session_at, system_clock, decode, account_of, AuthModel.get, getShareByRefreshJti, getSessionsByUserId, getActive, rows_get
  end).

Section Others.
Context {W : Type} `{AuthOutside W} `{!AuthOutsideOk W}.
Variables (l k : nat).
Hypothesis Hkl : k <> l.
Implicit Types (s : Server W) (x y : Session).
Notation spared := (ensures (S := Server W) (E := Thrown) (spares l)).

End Others.

Section Anyone.
Context {W : Type} `{AuthOutside W} `{!AuthOutsideOk W}.
Variable l : nat.
Implicit Types (s : Server W) (x y : Session).
Notation M A := (Monad.M (Server W) Thrown A).
Notation spared := (ensures (S := Server W) (E := Thrown) (spares l)).


End Anyone.

(** *** Revocation ends the sessions it finds *)
Section Revocation.
Context {W : Type} `{AuthOutside W} `{!AuthOutsideOk W}.
Variable l : nat.
Notation M A := (Monad.M (Server W) Thrown A).
Implicit Types (s : Server W) (x y : Session).

(** The session keeps its mode and its user. *)
Definition stays s s' : Prop := forall x, heap s !! l = Some x -> exists y, heap s' !! l = Some y /\ mode y = mode x /\ user y = user x.
#[export] Instance stays_preorder : PreOrder stays.
Proof.
  split; [intros s x Hx; by exists x|]. intros s1 s2 s3 H1 H2 x Hx. destruct (H1 x Hx) as (y & Hy & Hm & Hu).
  destruct (H2 y Hy) as (z & Hz & Hm' & Hu'). exists z. split; [done|]. split; congruence.
Qed.
Notation staying := (ensures (S := Server W) (E := Thrown) stays).

Hypothesis no_failure : forall w : W, (transaction_fails w).1 = None.
End Revocation.

(** ** Properties *)
Section Properties.
Context {W : Type} `{AuthOutside W} `{!AuthOutsideOk W}.
Implicit Types (s : Server W) (x : Session).

(** C2. Whatever connections, messages, HTTP requests, sweeps, revocations and changes elsewhere
    follow each other, with any failures: a session that acts as a user (a device apart, which its
    certificate identifies) holds a refresh token on which that user's password was verified, in a
    sign-in of this run or in one before it. *)
Theorem session_needs_password (s0 s : Server W) es l x u :
  starts s0 -> run es s0 s -> heap s !! l = Some x -> mode x <> Device -> user x = Some u ->
  (u, token_id x) ∈ logins s /\ ((u, token_id x) ∈ logins s0 \/ Exists (fun e => verified (W := W) e u) es).
Proof.
  intros Hs Hr Hx Hm Hu. pose proof (so_login _ _ _ _ _ (i_session _ _ (run_inv _ _ _ Hs Hr) _ _ Hx) ltac:(done) Hm u Hu) as Hin.
  split; [done|]. by eapply run_gains.
Qed.


End Properties.

(** ** Runs of the small installation *)
Section Play.
Context {W : Type} `{AuthOutside W} `{!AuthOutsideOk W}.
Definition play (es : list Event) (s : Server W) : Server W := fold_left (fun s e => (perform e s).2) es s.
Fixpoint ready (es : list Event) (s : Server W) : Prop :=
  match es with [] => True | e :: es' => enabled e s /\ ready es' (perform e s).2 end.
Lemma play_run_from es s0 s es' : run es' s0 s -> ready es s -> run (es' ++ map Some es) s0 (play es s).
Proof.
  revert s es'. induction es as [|e es IH]; intros s es' Hr He; simpl; [by rewrite app_nil_r|]. destruct He as [He Hes].
  replace (es' ++ Some e :: map Some es) with ((es' ++ [Some e]) ++ map Some es) by by rewrite <- app_assoc.
  apply IH; [|done]. by apply run_step with (s2 := s); [|constructor].
Qed.
(** The guards, decided. *)
Definition is_enabled (e : Event) (s : Server W) : bool :=
  match e with
  | Headers l _ _ _ _ =>
      match heap s !! l with
      | Some x => (user x == None) && bool_decide (refreshToken_ x = None) && (mode x == Unauthenticated)
      | None => false
      end
  | Accepted l => bool_decide (is_Some (heap s !! l))
  | Message l _ _ => match heap s !! l with Some x => handshakeComplete x && negb (closing x) | None => false end
  | Http cookie => bool_decide (foreign cookie s)
  | _ => true
  end.
Fixpoint are_ready (es : list Event) (s : Server W) : bool :=
  match es with [] => true | e :: es' => is_enabled e s && are_ready es' (perform e s).2 end.
Lemma is_enabled_ok e s : is_enabled e s = true -> enabled e s.
Proof.
  destruct e; simpl; intros He; try done; bsimpl; try done; destruct (heap s !! l) as [x|]; try done; exists x; bsimpl; try done.
Qed.
Lemma play_run es s : are_ready es s = true -> run (map Some es) s (play es s).
Proof.
  intros He. apply (play_run_from es s s []); [constructor|]. revert s He.
  induction es as [|e es IH]; intros s He; [done|]. simpl in He. apply andb_true_iff in He as [He Hes]. split; [by apply is_enabled_ok|auto].
Qed.
End Play.

Module AuthRunsDemo.
Import AuthDemo.
(** A browser tab: its connection, its headers with the cookie, its handshake. *)
Definition tab (l : nat) (cookie : str) : list Event := [Connect; Headers l false cookie $"127.0.0.1" $"ua"; Accepted l].
(** What the response of tab [0] stored as the cookie. *)
Definition cookie : str :=
  match heap (play (tab 0 []) start) !! 0%nat with
  | Some x => match refreshToken_ x with Some t => raw_of t | None => [] end
  | None => []
  end.
Definition sign_in (l : nat) (name : str) : Event := Message l [] (Login name name).
Definition access_of (l : nat) (s : Server Z) : str :=
  match heap s !! l with Some x => match accessToken_ x with Some t => rawToken t | None => [] end | None => [] end.
Definition user_of (l : nat) (s : Server Z) : option Z := match heap s !! l with Some x => user x | None => None end.

(** Two tabs that share a cookie and nobody signed in on: asking the first whether it is
    authenticated validates it against the second, finds no user, and the handler reads the user
    that is not there: a visitor without an account brings the daemon to a null pointer. *)
Example anonymous_pair_crashes :
  (validate 0 [] (play (tab 0 [] ++ tab 1 cookie) start)).1 = Ok true /\
  user_of 0 (play (tab 0 [] ++ tab 1 cookie) start) = None /\
  (isUserAuthenticated [] 0 (play (tab 0 [] ++ tab 1 cookie) start)).1 = Err NullDereference.
Proof. vm_compute. repeat split. Qed.

(** Bob signs in on a tab whose cookie alice signed in with: the next HTTP request makes the tab
    alice's, and the revocation of alice's sessions does not find it. *)
Definition mixed : Server Z := play (tab 0 [] ++ tab 1 cookie ++ [sign_in 0 $"alice"; sign_in 1 $"bob"]) start.
Theorem another_user_in_the_tab :
  user_of 1 mixed = Some 2 /\ user_of 1 (play [Http cookie] mixed) = Some 1 /\
  (let s := play [Http cookie; Revoke 1] mixed in user_of 1 s = Some 1 /\ (validate 1 (access_of 1 s) s).1 = Ok true).
Proof. vm_compute. repeat split. Qed.

(** Alice signs out in one tab: her token's row is revoked, but the other tab with the same token
    stays signed in, and a connection that brings the revoked cookie is signed in from it. *)
Definition signed_out : Server Z :=
  play (tab 0 [] ++ [sign_in 0 $"alice"; Http cookie] ++ tab 1 cookie ++ [Message 0 [] Logout]) start.
Theorem sign_out_leaves_the_other_tab :
  (validate 1 (access_of 1 signed_out) signed_out).1 = Ok true /\
  (let s := play (Message 1 (access_of 1 signed_out) IsAuthenticated :: tab 2 cookie) signed_out in
   user_of 2 s = Some 1 /\ (validate 2 (access_of 2 s) s).1 = Ok true).
Proof. vm_compute. repeat split. Qed.

(** *** The properties at a run *)
Definition alice_signs_in : list Event := tab 0 [] ++ [sign_in 0 $"alice"].
Definition alice_in : Server Z := play alice_signs_in start.
Definition alices : Session := match heap alice_in !! 0%nat with Some x => x | None => mkSession [] None [] [] Unauthenticated None [] [] None None None false false 0 false end.
Lemma alice_run : run (map Some alice_signs_in) start alice_in.
Proof. apply play_run. vm_compute. reflexivity. Qed.
Lemma alices_session : heap alice_in !! 0%nat = Some alices /\ mode alices = Human /\ user alices = Some 1.
Proof. vm_compute. repeat split. Qed.
Lemma start_starts : starts start.
Proof. split; [reflexivity|]. split; [reflexivity|]. intros j r. simpl. by rewrite lookup_empty. Qed.
Lemma session_needs_password_witness :
  starts start /\ run (map Some alice_signs_in) start alice_in /\ user alices = Some 1 /\ (1, token_id alices) ∈ logins alice_in.
Proof.
  destruct alices_session as (Hx & Hm & Hu). split; [apply start_starts|]. split; [apply alice_run|]. split; [exact Hu|].
  apply (session_needs_password start alice_in (map Some alice_signs_in) 0 alices 1);
    [apply start_starts|apply alice_run|exact Hx|by rewrite Hm|exact Hu].
Defined.
End AuthRunsDemo.
