(* ===== verification/SyncModel.v ===== *)
(** * Sync model: files, baselines, conflicts and the remote policy

    The value layer of cloud sync: the fields of [fs::model::File] a pass reads,
    [sync/model/Baseline.cpp] (what both sides agreed on), [sync/model/Conflict.cpp]
    and [sync/model/RemotePolicy.cpp] (the strategy and conflict-policy tables, the
    request-budget presets).  Strings are byte strings, times are seconds. *)
From S2P Require Import Prelude.
Local Open Scope Z_scope.

(** ** Files *)
Record File := mkFile {
  id : Z; path : str; size_bytes : Z; updated_at : Z; vault_id : option Z;
  encryption_iv : str; mime_type : option str; content_hash : option str;
  remote_storage_class : option str; remote_etag : option str; remote_restore_status : option str;
  encrypted_with_key_version : Z }.

(** [File::operator==]: size and path of the entry, then the file's own fields. *)
Definition file_eq (a b : File) : bool :=
  (size_bytes a =? size_bytes b) && (path a == path b) && (encryption_iv a == encryption_iv b) &&
  (mime_type a == mime_type b) && (content_hash a == content_hash b) &&
  (encrypted_with_key_version a =? encrypted_with_key_version b).

(** [std::toupper] in the C locale. *)
Definition toupper (c : Ascii.ascii) : Ascii.ascii :=
  let n := Ascii.nat_of_ascii c in
  if (97 <=? n)%nat && (n <=? 122)%nat then Ascii.ascii_of_nat (n - 32) else c.

Definition requiresArchiveRestoreForBodyGet (f : File) : bool :=
  match remote_storage_class f with
  | None => false
  | Some c =>
      let storageClass := map toupper c in
      if (storageClass == $"GLACIER") || (storageClass == $"DEEP_ARCHIVE") then true
      else if (storageClass == $"INTELLIGENT_TIERING") &&
              match remote_restore_status f with Some s => negb (is_empty s) | None => false end
      then true
      else false
  end.

(** ** Baselines *)
Record Baseline := mkBaseline {
  b_file_id : Z; b_content_hash : option str; b_size_bytes : Z;
  b_remote_content_hash : option str; b_remote_etag : option str; b_remote_size_bytes : option Z }.

Definition kReplayMarker : str := $"vh-replay".
Definition quote : Ascii.ascii := "034"%char.

Definition baselineUnquoted (etag : str) : str :=
  match etag with
  | a :: ((_ :: _) as rest) =>
      if (a == quote) && match last rest with Some z => z == quote | None => false end
      then rev (tail (rev rest)) else etag
  | _ => etag
  end.

Definition agreed (local remote : File) : Baseline :=
  mkBaseline (id local) (content_hash local) (size_bytes local)
    (content_hash remote) (remote_etag remote) (Some (size_bytes remote)).

Definition afterUpload (local : File) : Baseline :=
  mkBaseline (id local) (content_hash local) (size_bytes local)
    (content_hash local) None (Some (size_bytes local)).

Definition afterDownload (local remote : File) : Baseline := agreed local remote.

Definition afterReplay (fileId : Z) (generationHash : option str) (generationSize : Z) (etag : option str) : Baseline :=
  mkBaseline fileId (Some kReplayMarker) generationSize generationHash
    (match etag with Some e => if is_empty e then None else Some e | None => None end)
    (Some generationSize).

Definition publishing (b : Baseline) : bool :=
  match b_content_hash b with Some h => h == kReplayMarker | None => false end.

Definition sameAs (a b : Baseline) : bool :=
  (b_file_id a =? b_file_id b) && (b_content_hash a == b_content_hash b) &&
  (b_size_bytes a =? b_size_bytes b) && (b_remote_content_hash a == b_remote_content_hash b) &&
  (b_remote_etag a == b_remote_etag b) && (b_remote_size_bytes a == b_remote_size_bytes b).

Definition localChangedSince (local : File) (base : Baseline) : bool :=
  match content_hash local, b_content_hash base with
  | Some h, Some b => h !== b
  | _, _ => negb (size_bytes local =? b_size_bytes base)
  end.

Definition remoteChangedSince (remote : File) (base : Baseline) : bool :=
  match content_hash remote, b_remote_content_hash base with
  | Some h, Some b => h !== b
  | _, _ =>
      match remote_etag remote, b_remote_etag base with
      | Some e, Some b => baselineUnquoted e !== baselineUnquoted b
      | _, _ =>
          match b_remote_size_bytes base with
          | Some s => negb (size_bytes remote =? s)
          | None => negb (size_bytes remote =? b_size_bytes base)
          end
      end
  end.

Inductive Divergence := InSync | LocalOnly | RemoteOnly | Both | Unknown.
#[export] Instance Divergence_eq : EqDecision Divergence. Proof. solve_decision. Defined.

Definition classify (local remote : File) (base : option Baseline) : Divergence :=
  match base with
  | None => Unknown
  | Some b =>
      let localMoved := localChangedSince local b in
      let remoteMoved := remoteChangedSince remote b in
      if localMoved && remoteMoved then Both
      else if localMoved then LocalOnly
      else if remoteMoved then RemoteOnly
      else InSync
  end.

Definition divergence_toString (d : Divergence) : str :=
  match d with
  | InSync => $"in_sync" | LocalOnly => $"local_only" | RemoteOnly => $"remote_only"
  | Both => $"both" | Unknown => $"unknown"
  end.

(** ** Conflicts *)
Inductive ConflictType := MISMATCH | ENCRYPTION | BOTH.
Inductive Resolution :=
| UNRESOLVED | KEPT_LOCAL | KEPT_REMOTE | KEPT_BOTH | OVERWRITTEN | FIXED_REMOTE_ENCRYPTION.
#[export] Instance Resolution_eq : EqDecision Resolution. Proof. solve_decision. Defined.

Record ConflictReason := mkReason { code : str; message : str }.

Record Conflict := mkConflict {
  c_id : Z; c_event_id : Z; c_file_id : Z; c_resolved_at : Z; c_created_at : Z;
  c_type : ConflictType; c_resolution : Resolution; c_local : File; c_upstream : File;
  c_reasons : list ConflictReason; failed_to_decrypt_upstream : bool }.

(** A conflict with nothing but its two artifacts, as [maybeBuildConflict] starts it. *)
Definition new_conflict (local upstream : File) (decrypt_failed : bool) : Conflict :=
  mkConflict 0 0 0 0 0 MISMATCH UNRESOLVED local upstream [] decrypt_failed.

Definition hashes_differ (local upstream : File) : bool :=
  match content_hash local, content_hash upstream with Some a, Some b => a !== b | _, _ => false end.

Definition analyze (c : Conflict) : Conflict :=
  let local := c_local c in
  let upstream := c_upstream c in
  let r1 := if hashes_differ local upstream then [mkReason $"hash_mismatch" $"Content hashes differ."] else [] in
  let r2 := if negb (size_bytes local =? size_bytes upstream) then [mkReason $"size_mismatch" $"File sizes differ."] else [] in
  let reasons := r1 ++ r2 in
  let '(ty, more) :=
    if failed_to_decrypt_upstream c then
      (if is_empty reasons then ENCRYPTION else BOTH,
       (if encrypted_with_key_version upstream <=? 0
        then [mkReason $"upstream_bad_key_version" $"Upstream key version is invalid."] else []) ++
       (if is_empty (encryption_iv upstream)
        then [mkReason $"upstream_no_iv" $"Missing upstream encryption IV."] else []))
    else (MISMATCH, []) in
  mkConflict (c_id c) (c_event_id c) (c_file_id c) (c_resolved_at c) (c_created_at c) ty (c_resolution c)
    local upstream (reasons ++ more) (failed_to_decrypt_upstream c).

Definition typeToString (t : ConflictType) : str :=
  match t with MISMATCH => $"mismatch" | ENCRYPTION => $"encryption" | BOTH => $"both" end.
Definition parseType (s : str) : ConflictType :=
  if s == $"mismatch" then MISMATCH else if s == $"encryption" then ENCRYPTION
  else if s == $"both" then BOTH else MISMATCH.
Definition resolutionToString (r : Resolution) : str :=
  match r with
  | UNRESOLVED => $"unresolved" | KEPT_LOCAL => $"kept_local" | KEPT_REMOTE => $"kept_remote"
  | KEPT_BOTH => $"kept_both" | OVERWRITTEN => $"overwritten"
  | FIXED_REMOTE_ENCRYPTION => $"fixed_remote_encryption"
  end.
Definition parseResolution (s : str) : Resolution :=
  if s == $"unresolved" then UNRESOLVED else if s == $"kept_local" then KEPT_LOCAL
  else if s == $"kept_remote" then KEPT_REMOTE else if s == $"kept_both" then KEPT_BOTH
  else if s == $"overwritten" then OVERWRITTEN
  else if s == $"fixed_remote_encryption" then FIXED_REMOTE_ENCRYPTION else UNRESOLVED.

(** ** The remote policy *)
Inductive Strategy := Cache | Sync | Mirror.
Inductive ConflictPolicy := KeepLocal | KeepRemote | KeepNewest | Ask.
#[export] Instance Strategy_eq : EqDecision Strategy. Proof. solve_decision. Defined.
#[export] Instance ConflictPolicy_eq : EqDecision ConflictPolicy. Proof. solve_decision. Defined.

Inductive ActionType := EnsureDirectories | Upload | Download | IndexRemoteOnly | DeleteLocal | DeleteRemote.
#[export] Instance ActionType_eq : EqDecision ActionType. Proof. solve_decision. Defined.

Record S3RequestBudget := mkBudget {
  max_list_requests : option Z; max_head_requests : option Z; max_get_requests : option Z;
  max_put_requests : option Z; max_copy_requests : option Z; max_delete_requests : option Z;
  max_downloaded_bytes : option Z }.

Inductive S3BudgetPreset := Conservative | Balanced | Bulk | Unlimited.

Definition unlimited_budget : S3RequestBudget := mkBudget None None None None None None None.
Definition gib : Z := 1024 * 1024 * 1024.

Definition s3RequestBudgetForPreset (preset : S3BudgetPreset) : S3RequestBudget :=
  match preset with
  | Conservative => mkBudget (Some 10) (Some 100) (Some 100) (Some 100) (Some 20) (Some 100) (Some gib)
  | Balanced => mkBudget (Some 100) (Some 1000) (Some 1000) (Some 1000) (Some 100) (Some 1000) (Some (10 * gib))
  | Bulk => mkBudget (Some 1000) (Some 10000) (Some 10000) (Some 10000) (Some 1000) (Some 10000) (Some (100 * gib))
  | Unlimited => unlimited_budget
  end.

Inductive SyncError :=
| UnknownPreset (s : str) | UnknownStrategy (s : str) | UnknownConflictPolicy (s : str)
| RequestBudgetExceeded (planned remaining : Z)
| InsufficientDiskSpace (required available : Z).

Definition s3BudgetPresetFromString (s : str) : result SyncError S3BudgetPreset :=
  if s == $"conservative" then Ok Conservative else if s == $"balanced" then Ok Balanced
  else if s == $"bulk" then Ok Bulk else if s == $"unlimited" then Ok Unlimited
  else Err (UnknownPreset s).
Definition preset_to_string (p : S3BudgetPreset) : str :=
  match p with
  | Conservative => $"conservative" | Balanced => $"balanced" | Bulk => $"bulk" | Unlimited => $"unlimited"
  end.

Definition sameBudget (a b : S3RequestBudget) : bool :=
  (max_list_requests a == max_list_requests b) && (max_head_requests a == max_head_requests b) &&
  (max_get_requests a == max_get_requests b) && (max_put_requests a == max_put_requests b) &&
  (max_copy_requests a == max_copy_requests b) && (max_delete_requests a == max_delete_requests b) &&
  (max_downloaded_bytes a == max_downloaded_bytes b).

Definition s3BudgetIsUnlimited (b : S3RequestBudget) : bool := sameBudget b (s3RequestBudgetForPreset Unlimited).

Definition s3BudgetPresetName (b : S3RequestBudget) : str :=
  match List.find (fun p => sameBudget b (s3RequestBudgetForPreset p)) [Conservative; Balanced; Bulk; Unlimited] with
  | Some p => preset_to_string p
  | None => $"custom"
  end.

Record RemotePolicy := mkPolicy {
  strategy : Strategy; conflict_policy : ConflictPolicy; s3_request_budget : S3RequestBudget;
  max_remote_index_age : option Z }.

Definition strategy_to_string (s : Strategy) : str :=
  match s with Cache => $"cache" | Sync => $"sync" | Mirror => $"mirror" end.
Definition conflict_policy_to_string (c : ConflictPolicy) : str :=
  match c with KeepLocal => $"keep_local" | KeepRemote => $"keep_remote" | KeepNewest => $"keep_newest" | Ask => $"ask" end.
Definition strategyFromString (s : str) : result SyncError Strategy :=
  if s == $"cache" then Ok Cache else if s == $"sync" then Ok Sync else if s == $"mirror" then Ok Mirror
  else Err (UnknownStrategy s).
Definition rsConflictPolicyFromString (s : str) : result SyncError ConflictPolicy :=
  if s == $"keep_local" then Ok KeepLocal else if s == $"keep_remote" then Ok KeepRemote
  else if s == $"keep_newest" then Ok KeepNewest else if s == $"ask" then Ok Ask
  else Err (UnknownConflictPolicy s).

Definition with_resolution (c : Conflict) (r : Resolution) : Conflict :=
  mkConflict (c_id c) (c_event_id c) (c_file_id c) (c_resolved_at c) (c_created_at c) (c_type c) r
    (c_local c) (c_upstream c) (c_reasons c) (failed_to_decrypt_upstream c).

(** [resolve_conflict]: whether the policy decided, and the conflict with its resolution. *)
Definition resolve_conflict (p : RemotePolicy) (c : Conflict) : bool * Conflict :=
  match conflict_policy p with
  | Ask => (false, c)
  | KeepLocal => (true, with_resolution c KEPT_LOCAL)
  | KeepRemote => (true, with_resolution c KEPT_REMOTE)
  | KeepNewest =>
      if (updated_at (c_local c) =? 0) || (updated_at (c_upstream c) =? 0) then (false, c)
      else if updated_at (c_upstream c) <? updated_at (c_local c)
           then (true, with_resolution c KEPT_LOCAL) else (true, with_resolution c KEPT_REMOTE)
  end.

Definition wantsEnsureDirectories (p : RemotePolicy) : bool := strategy p !== Mirror.

Definition downloadRemoteOnly (p : RemotePolicy) : bool :=
  match strategy p with
  | Cache | Sync => true
  | Mirror => match conflict_policy p with KeepLocal => false | KeepRemote | KeepNewest | Ask => true end
  end.

Definition uploadLocalOnly (p : RemotePolicy) : bool :=
  match strategy p with
  | Cache | Sync => true
  | Mirror => match conflict_policy p with KeepLocal => true | KeepRemote | KeepNewest | Ask => false end
  end.

Definition deleteRemoteLeftovers (p : RemotePolicy) : bool :=
  if strategy p !== Mirror then false
  else match conflict_policy p with KeepLocal => true | KeepRemote | KeepNewest | Ask => false end.

Definition propagatesRemoteRemoval (p : RemotePolicy) : bool :=
  negb ((strategy p == Mirror) && (conflict_policy p == KeepLocal)).

Definition deleteLocalLeftovers (p : RemotePolicy) : bool :=
  if strategy p !== Mirror then false
  else match conflict_policy p with KeepRemote => true | KeepLocal | KeepNewest | Ask => false end.

Definition decideForBoth (p : RemotePolicy) (L R : File) : option ActionType :=
  let lts := updated_at L in
  let rts := updated_at R in
  match strategy p with
  | Cache =>
      if (lts =? 0) || (rts =? 0) then None
      else if lts <? rts then Some Download else None
  | Sync =>
      if (lts =? 0) || (rts =? 0) then Some Download
      else if rts <? lts then Some Upload
      else if lts <? rts then Some Download
      else None
  | Mirror =>
      match conflict_policy p with
      | KeepLocal => Some Upload
      | KeepRemote => Some Download
      | KeepNewest =>
          if (lts =? 0) || (rts =? 0) then None
          else if rts <? lts then Some Upload
          else if lts <? rts then Some Download
          else None
      | Ask => None
      end
  end.
