(* ===== verification/SyncPlanner.v ===== *)
(** * Sync planner: what one pass of a cloud vault does to each file

    [sync/Planner.cpp] and the conflict bookkeeping of [sync/Cloud.cpp] it calls
    ([handleConflict], [noteInSync], [closeOpenConflict], [flushConflictState]),
    with the download preflight of [sync/model/RemotePolicy.cpp].  The state of a
    pass is threaded explicitly; the queued writes are what
    [db::query::sync::Conflict::applyPass] stores. *)
From stdpp Require Import sorting.
From S2P Require Import Prelude SyncModel.
Local Open Scope Z_scope.

Record Action := mkAction {
  type : ActionType; key : str; local : option File; remote : option File; freeAfterDownload : bool }.

(** ** The pass *)
Record ConflictSide := mkSide { side_hash : option str; side_size : Z; side_etag : option str }.
Record ConflictRecord := mkRecord { record_id : Z; record_local : ConflictSide; record_remote : ConflictSide }.

(** [db::query::sync::sideMatches]. *)
Definition sideMatches (side : ConflictSide) (hash : option str) (sz : Z) (etag : option str) : bool :=
  match side_hash side, hash with
  | Some a, Some b => (a == b) && (side_size side =? sz)
  | _, _ =>
      match side_etag side, etag with
      | Some a, Some b => a == b
      | _, _ => (side_size side =? sz) && (side_hash side == hash)
      end
  end.

(** What the pass reads: the two sides by path, the keys removed upstream, the
    scope's changed keys (none for a regular pass), the policy, the clock. *)
Record Context := mkContext {
  localMap : gmap str File; s3Map : gmap str File; removedKeys : list str;
  scope_changed : option (list str); policy : RemotePolicy; event_id : Z; now : Z }.

(** What the pass keeps: baselines and open conflicts as loaded, the writes queued,
    the conflicts put on the event, the archived downloads left out. *)
Record PassState := mkState {
  baselines : gmap Z Baseline; openConflicts : gmap Z ConflictRecord;
  new_baselines : list Baseline; new_open : list Conflict; new_close : list (Z * str);
  event_conflicts : list Conflict; archive_tier_downloads_skipped : Z }.

Definition with_baselines (s : PassState) (l : list Baseline) : PassState :=
  mkState (baselines s) (openConflicts s) l (new_open s) (new_close s) (event_conflicts s) (archive_tier_downloads_skipped s).
Definition with_open (s : PassState) (l : list Conflict) : PassState :=
  mkState (baselines s) (openConflicts s) (new_baselines s) l (new_close s) (event_conflicts s) (archive_tier_downloads_skipped s).
Definition with_close (s : PassState) (l : list (Z * str)) : PassState :=
  mkState (baselines s) (openConflicts s) (new_baselines s) (new_open s) l (event_conflicts s) (archive_tier_downloads_skipped s).
Definition with_event (s : PassState) (l : list Conflict) : PassState :=
  mkState (baselines s) (openConflicts s) (new_baselines s) (new_open s) (new_close s) l (archive_tier_downloads_skipped s).
Definition skip_archived (s : PassState) : PassState :=
  mkState (baselines s) (openConflicts s) (new_baselines s) (new_open s) (new_close s) (event_conflicts s)
    (archive_tier_downloads_skipped s + 1).

Definition baselineFor (s : PassState) (fileId : Z) : option Baseline := baselines s !! fileId.

Definition hasOpenConflict (s : PassState) (fileId : Z) : bool :=
  bool_decide (is_Some (openConflicts s !! fileId)) && negb (existsb (fun c => fst c =? fileId) (new_close s)).

Definition closeOpenConflict (s : PassState) (fileId : Z) (resolution : str) : PassState :=
  if negb (hasOpenConflict s fileId) then s else with_close s (new_close s ++ [(fileId, resolution)]).

Definition noteInSync (s : PassState) (L R : File) : PassState :=
  if id L =? 0 then s
  else
    let s := if hasOpenConflict s (id L) then closeOpenConflict s (id L) $"converged" else s in
    let a := agreed L R in
    match baselineFor s (id L) with
    | Some current => if sameAs current a then s else with_baselines s (new_baselines s ++ [a])
    | None => with_baselines s (new_baselines s ++ [a])
    end.

Definition hasPotentialConflict (L R : File) (upstream_decryption_failure : bool) : bool :=
  if upstream_decryption_failure then true
  else if negb (size_bytes L =? size_bytes R) then true
  else if hashes_differ L R then true
  else false.

Definition stamp (c : Conflict) (created : Z) (file event : Z) : Conflict :=
  mkConflict (c_id c) event file (c_resolved_at c) created (c_type c) (c_resolution c) (c_local c)
    (c_upstream c) (c_reasons c) (failed_to_decrypt_upstream c).
Definition with_resolved_at (c : Conflict) (t : Z) : Conflict :=
  mkConflict (c_id c) (c_event_id c) (c_file_id c) t (c_created_at c) (c_type c) (c_resolution c) (c_local c)
    (c_upstream c) (c_reasons c) (failed_to_decrypt_upstream c).
Definition with_id (c : Conflict) (i : Z) : Conflict :=
  mkConflict i (c_event_id c) (c_file_id c) (c_resolved_at c) (c_created_at c) (c_type c) (c_resolution c)
    (c_local c) (c_upstream c) (c_reasons c) (failed_to_decrypt_upstream c).

Definition maybeBuildConflict (ctx : Context) (L R : File) : option Conflict :=
  if negb (hasPotentialConflict L R false) then None
  else
    let c := analyze (new_conflict L R false) in
    if is_empty (c_reasons c) then None else Some (stamp c (now ctx) (id L) (event_id ctx)).

(** [handleConflict]: the new state, whether the conflict stays unresolved, and the
    conflict as the caller sees it afterwards.  The event holds the same object the
    caller and the queue hold, so it is recorded in its final form. *)
Definition handleConflict (ctx : Context) (s : PassState) (c : Conflict) : PassState * bool * Conflict :=
  let '(ok, c) := resolve_conflict (policy ctx) c in
  let opened := openConflicts s !! c_file_id c in
  if ok then
    let c := with_resolved_at c (now ctx) in
    let s := with_event s (event_conflicts s ++ [c]) in
    let s := match opened with
             | Some _ => closeOpenConflict s (c_file_id c) (resolutionToString (c_resolution c))
             | None => s
             end in
    (s, false, c)
  else
    match opened with
    | Some rec =>
        let c := with_id c (record_id rec) in
        let s := with_event s (event_conflicts s ++ [c]) in
        let same := sideMatches (record_local rec) (content_hash (c_local c)) (size_bytes (c_local c)) None &&
                    sideMatches (record_remote rec) (content_hash (c_upstream c)) (size_bytes (c_upstream c))
                      (remote_etag (c_upstream c)) in
        if same then (s, true, c) else (with_open s (new_open s ++ [c]), true, c)
    | None =>
        let s := with_event s (event_conflicts s ++ [c]) in
        (with_open s (new_open s ++ [c]), true, c)
    end.

(** [flushConflictState], for what the pass queued. *)
Definition flushConflictState (s : PassState) : PassState :=
  mkState (foldl (fun m b => <[b_file_id b := b]> m) (baselines s) (new_baselines s))
    (foldl (fun m c => delete (fst c) m) (openConflicts s) (new_close s))
    [] [] [] (event_conflicts s) (archive_tier_downloads_skipped s).

(** ** Keys in order: bytewise, without duplicates *)
Fixpoint str_leb (a b : str) : bool :=
  match a, b with
  | [], _ => true
  | _ :: _, [] => false
  | x :: a', y :: b' =>
      let m := Ascii.nat_of_ascii x in
      let n := Ascii.nat_of_ascii y in
      if (m <? n)%nat then true else if (n <? m)%nat then false else str_leb a' b'
  end.
Definition str_le (a b : str) : Prop := str_leb a b = true.
#[export] Instance str_le_dec a b : Decision (str_le a b).
Proof. unfold str_le. apply _. Defined.

(** [std::unique]: one of each run of equal neighbours. *)
Fixpoint unique (l : list str) : list str :=
  match l with
  | x :: ((y :: _) as l') => if x == y then unique l' else x :: unique l'
  | _ => l
  end.

Definition allKeysSorted (ctx : Context) : list str :=
  unique (merge_sort str_le (map fst (map_to_list (localMap ctx)) ++ map fst (map_to_list (s3Map ctx)))).

(** ** One key *)
Definition changed (ctx : Context) (k : str) : bool :=
  match scope_changed ctx with Some l => bool_decide (k ∈ l) | None => false end.

(** A local file without a remote one. *)
Definition planLocalOnly (ctx : Context) (s : PassState) (k : str) (L : File) : PassState * list Action :=
  let s := if hasOpenConflict s (id L) then closeOpenConflict s (id L) $"superseded" else s in
  let follows_removal :=
    bool_decide (k ∈ removedKeys ctx) && propagatesRemoteRemoval (policy ctx) &&
    negb (deleteLocalLeftovers (policy ctx)) &&
    match baselineFor s (id L) with Some b => negb (localChangedSince L b) | None => false end in
  if follows_removal then (s, [mkAction DeleteLocal k (Some L) None false])
  else if uploadLocalOnly (policy ctx) then (s, [mkAction Upload k (Some L) None false])
  else (s, []).

(** A remote object without a local file. *)
Definition planRemoteOnly (ctx : Context) (s : PassState) (k : str) (R : File) : PassState * list Action :=
  if downloadRemoteOnly (policy ctx) then
    let indexOnly := strategy (policy ctx) == Cache in
    if negb indexOnly && requiresArchiveRestoreForBodyGet R then (skip_archived s, [])
    else (s, [mkAction (if indexOnly then IndexRemoteOnly else Download) k None (Some R) indexOnly])
  else (s, []).

Definition transfer (t : ActionType) (k : str) (L R : File) : list Action :=
  [mkAction t k (Some L) (Some R) false].

(** A download of a body, unless it needs an archive restore first. *)
Definition download_or_skip (s : PassState) (k : str) (L R : File) : PassState * list Action :=
  if requiresArchiveRestoreForBodyGet R then (skip_archived s, []) else (s, transfer Download k L R).

(** The decision by strategy and policy, for a pair that is not in conflict. *)
Definition planByPolicy (ctx : Context) (s : PassState) (k : str) (L R : File) : PassState * list Action :=
  match decideForBoth (policy ctx) L R with
  | Some a =>
      if (a == Download) && requiresArchiveRestoreForBodyGet R then (skip_archived s, [])
      else (s, transfer a k L R)
  | None => (s, [])
  end.

(** The conflict path, after the divergence is known. *)
Definition planConflict (ctx : Context) (s : PassState) (k : str) (L R : File) : PassState * list Action :=
  match maybeBuildConflict ctx L R with
  | Some c =>
      let '(s, unresolved, c) := handleConflict ctx s c in
      if unresolved then (s, [])
      else match c_resolution c with
           | KEPT_LOCAL => (s, transfer Upload k L R)
           | KEPT_REMOTE => (s, transfer Download k L R)
           | _ => (s, [])
           end
  | None => planByPolicy ctx s k L R
  end.

Definition planDivergent (ctx : Context) (s : PassState) (k : str) (L R : File) : PassState * list Action :=
  let divergence := if hasOpenConflict s (id L) then Unknown else classify L R (baselineFor s (id L)) in
  let divergence := if changed ctx k && (divergence == LocalOnly) then Both else divergence in
  if divergence == InSync then (s, [])
  else if (conflict_policy (policy ctx) == Ask) && negb (hasOpenConflict s (id L)) then
    match divergence with
    | InSync => (s, [])
    | LocalOnly => (s, transfer Upload k L R)
    | RemoteOnly => download_or_skip s k L R
    | Both | Unknown => planConflict ctx s k L R
    end
  else planConflict ctx s k L R.

(** Both sides exist. *)
Definition planBoth (ctx : Context) (s : PassState) (k : str) (L R : File) : PassState * list Action :=
  let takes_event :=
    changed ctx k && negb (hasOpenConflict s (id L)) &&
    match baselineFor s (id L) with Some b => negb (localChangedSince L b) | None => false end in
  if takes_event then download_or_skip s k L R
  else
    let finishes_replay :=
      negb (hasOpenConflict s (id L)) &&
      match baselineFor s (id L) with Some b => publishing b && negb (remoteChangedSince R b) | None => false end in
    if finishes_replay then (s, transfer Upload k L R)
    else if file_eq L R then (noteInSync s L R, [])
    else if negb (hasPotentialConflict L R false) then planByPolicy ctx (noteInSync s L R) k L R
    else planDivergent ctx s k L R.

Definition planKey (ctx : Context) (s : PassState) (k : str) : PassState * list Action :=
  match localMap ctx !! k, s3Map ctx !! k with
  | Some L, None => planLocalOnly ctx s k L
  | None, Some R => planRemoteOnly ctx s k R
  | Some L, Some R => planBoth ctx s k L R
  | None, None => (s, [])
  end.

Fixpoint planKeys (ctx : Context) (s : PassState) (keys : list str) : PassState * list Action :=
  match keys with
  | [] => (s, [])
  | k :: ks =>
      let '(s, a) := planKey ctx s k in
      let '(s, rest) := planKeys ctx s ks in
      (s, a ++ rest)
  end.

(** ** Leftovers, preflight, [build] *)
Definition remoteLeftovers (ctx : Context) : list Action :=
  omap (fun kr => if bool_decide (is_Some (localMap ctx !! fst kr)) then None
                  else Some (mkAction DeleteRemote (fst kr) None (Some (snd kr)) false))
    (map_to_list (s3Map ctx)).
Definition localLeftovers (ctx : Context) : list Action :=
  omap (fun kl => if bool_decide (is_Some (s3Map ctx !! fst kl)) then None
                  else Some (mkAction DeleteLocal (fst kl) (Some (snd kl)) None false))
    (map_to_list (localMap ctx)).

Definition u64 (z : Z) : Z := z mod 2 ^ 64.

(** The bodies a plan downloads to keep. *)
Definition plannedDownloads (plan : list Action) : list File :=
  omap (fun a => if (type a == Download) && negb (freeAfterDownload a)
                 then match remote a with Some r => Some r | None => local a end else None) plan.

Definition computeReqFreeSpaceForDownload (files : list File) : Z :=
  foldl (fun t f => u64 (t + size_bytes f)) 0 files.

(** [preflightSpaceForPlan], for the bytes already downloaded under the request
    budget and the free space of the vault. *)
Definition preflightSpaceForPlan (p : RemotePolicy) (used available : Z) (plan : list Action) : result SyncError unit :=
  let downloads := plannedDownloads plan in
  if is_empty downloads then Ok tt
  else
    let required := computeReqFreeSpaceForDownload downloads in
    let? _ := match max_downloaded_bytes (s3_request_budget p) with
              | Some limit =>
                  let remaining := if limit <=? used then 0 else limit - used in
                  if remaining <? required then Err (RequestBudgetExceeded required remaining) else Ok tt
              | None => Ok tt
              end in
    if required <=? available then Ok tt else Err (InsufficientDiskSpace required available).

Definition unchecked_plan (ctx : Context) (s : PassState) : PassState * list Action :=
  let first := if wantsEnsureDirectories (policy ctx) then [mkAction EnsureDirectories [] None None false] else [] in
  let '(s, plan) := planKeys ctx s (allKeysSorted ctx) in
  let plan := first ++ plan in
  let plan := if deleteRemoteLeftovers (policy ctx) then plan ++ remoteLeftovers ctx else plan in
  let plan := if deleteLocalLeftovers (policy ctx) then plan ++ localLeftovers ctx else plan in
  (s, plan).

Definition build (ctx : Context) (s : PassState) (used available : Z) : result SyncError (PassState * list Action) :=
  let '(s, plan) := unchecked_plan ctx s in
  let? _ := preflightSpaceForPlan (policy ctx) used available plan in
  Ok (s, plan).

Definition planPass (ctx : Context) (s : PassState) (used available : Z) : result SyncError (PassState * list Action) :=
  let? '(s, plan) := build ctx s used available in
  Ok (flushConflictState s, plan).

(** ** The request estimate of a plan *)
Record S3CostEstimate := mkEstimate {
  list_requests : Z; head_requests : Z; get_requests : Z; put_requests : Z; copy_requests : Z;
  delete_requests : Z; planned_body_download_bytes : Z; planned_upload_bytes : Z;
  remote_index_objects : Z }.

Definition no_cost : S3CostEstimate := mkEstimate 0 0 0 0 0 0 0 0 0.

Definition file_size (f : option File) : Z := match f with Some x => size_bytes x | None => 0 end.

(** What one action adds, and whether it changes the remote index. *)
Definition addAction (e : S3CostEstimate) (a : Action) : S3CostEstimate :=
  match type a with
  | Upload =>
      mkEstimate (list_requests e) (head_requests e) (get_requests e) (u64 (put_requests e + 1)) (copy_requests e)
        (delete_requests e) (planned_body_download_bytes e)
        (match local a with Some l => u64 (planned_upload_bytes e + size_bytes l) | None => planned_upload_bytes e end)
        (remote_index_objects e)
  | Download =>
      mkEstimate (list_requests e) (u64 (head_requests e + 2)) (u64 (get_requests e + 1)) (put_requests e)
        (copy_requests e) (delete_requests e)
        (match remote a with
         | Some r => u64 (planned_body_download_bytes e + size_bytes r)
         | None => match local a with
                   | Some l => u64 (planned_body_download_bytes e + size_bytes l)
                   | None => planned_body_download_bytes e
                   end
         end)
        (planned_upload_bytes e) (remote_index_objects e)
  | IndexRemoteOnly =>
      mkEstimate (list_requests e) (head_requests e) (get_requests e) (put_requests e) (copy_requests e)
        (delete_requests e) (planned_body_download_bytes e) (planned_upload_bytes e) (u64 (remote_index_objects e + 1))
  | DeleteRemote =>
      mkEstimate (list_requests e) (head_requests e) (get_requests e) (put_requests e) (copy_requests e)
        (u64 (delete_requests e + 1)) (planned_body_download_bytes e) (planned_upload_bytes e) (remote_index_objects e)
  | EnsureDirectories | DeleteLocal => e
  end.

Definition mutatesRemoteIndex (a : Action) : bool := (type a == Upload) || (type a == DeleteRemote).

Definition addManifest (e : S3CostEstimate) : S3CostEstimate :=
  mkEstimate (list_requests e) (u64 (head_requests e + 2)) (get_requests e) (u64 (put_requests e + 1))
    (copy_requests e) (delete_requests e) (planned_body_download_bytes e) (planned_upload_bytes e)
    (remote_index_objects e).

(** The vault whose replay backlog is added: that of the first uploaded or
    remotely deleted file that knows its vault. *)
Definition replay_vault (a : Action) : option Z :=
  let file := match local a with Some l => Some l | None => remote a end in
  if mutatesRemoteIndex a then match file with Some f => vault_id f | None => None end else None.

(** The requests of the actions, and of the manifest when the index changes. *)
Definition requestEstimate (plan : list Action) : S3CostEstimate :=
  let e := foldl addAction no_cost plan in
  if existsb mutatesRemoteIndex plan then addManifest e else e.

(** The database's answer: the backlog of the vault (truncated to 32 bits) for a plan. *)
Definition estimateS3Cost (addPlannedReplays : Z -> list Action -> S3CostEstimate -> S3CostEstimate)
  (plan : list Action) : S3CostEstimate :=
  let e := requestEstimate plan in
  match head (omap replay_vault plan) with
  | Some v => addPlannedReplays (v mod 2 ^ 32) plan e
  | None => e
  end.

(** ** Keys *)
Lemma ascii_nat_inj x y : Ascii.nat_of_ascii x = Ascii.nat_of_ascii y -> x = y.
Proof. intros H. by rewrite <- (Ascii.ascii_nat_embedding x), <- (Ascii.ascii_nat_embedding y), H. Qed.

#[export] Instance str_le_total : Total str_le.
Proof.
  unfold str_le. intros a. induction a as [|x a IH]; intros [|y b]; simpl; auto.
  destruct (Nat.ltb_spec (Ascii.nat_of_ascii x) (Ascii.nat_of_ascii y)),
    (Nat.ltb_spec (Ascii.nat_of_ascii y) (Ascii.nat_of_ascii x)); auto; lia.
Qed.

#[export] Instance str_le_trans : Transitive str_le.
Proof.
  unfold str_le. intros a. induction a as [|x a IH]; intros [|y b] [|z c]; simpl; try done.
  destruct (Nat.ltb_spec (Ascii.nat_of_ascii x) (Ascii.nat_of_ascii y)),
    (Nat.ltb_spec (Ascii.nat_of_ascii y) (Ascii.nat_of_ascii x)),
    (Nat.ltb_spec (Ascii.nat_of_ascii y) (Ascii.nat_of_ascii z)),
    (Nat.ltb_spec (Ascii.nat_of_ascii z) (Ascii.nat_of_ascii y)),
    (Nat.ltb_spec (Ascii.nat_of_ascii x) (Ascii.nat_of_ascii z)),
    (Nat.ltb_spec (Ascii.nat_of_ascii z) (Ascii.nat_of_ascii x)); try done; try lia. by eauto.
Qed.

#[export] Instance str_le_antisymm : AntiSymm (=) str_le.
Proof.
  unfold str_le. intros a. induction a as [|x a IH]; intros [|y b]; simpl; try done.
  destruct (Nat.ltb_spec (Ascii.nat_of_ascii x) (Ascii.nat_of_ascii y)),
    (Nat.ltb_spec (Ascii.nat_of_ascii y) (Ascii.nat_of_ascii x)); try done; try lia.
  intros H1 H2. f_equal; [apply ascii_nat_inj; lia|by apply IH].
Qed.

Lemma unique_cons x y l : unique (x :: y :: l) = if x == y then unique (y :: l) else x :: unique (y :: l).
Proof. reflexivity. Qed.

Lemma elem_of_unique x l : x ∈ unique l <-> x ∈ l.
Proof.
  induction l as [|y [|z l] IH]; [done|done|]. rewrite unique_cons. case_if; bsimpl.
  - subst. rewrite IH. set_solver.
  - rewrite !elem_of_cons, IH. set_solver.
Qed.

Lemma unique_sorted_nodup l : StronglySorted str_le l -> NoDup (unique l).
Proof.
  induction l as [|y [|z l] IH]; [constructor|intros _; by apply NoDup_singleton|].
  intros [Hs Hall]%StronglySorted_inv. rewrite unique_cons. case_if; bsimpl; [by apply IH|].
  constructor; [|by apply IH]. rewrite elem_of_unique. intros Hin.
  rewrite Forall_forall in Hall. apply E. apply (anti_symm str_le).
  - apply Hall. set_solver.
  - apply StronglySorted_inv in Hs as [_ Hz]. apply elem_of_cons in Hin as [->|Hin]; [by destruct (E eq_refl)|].
    rewrite Forall_forall in Hz. by apply Hz.
Qed.

Lemma allKeysSorted_spec ctx :
  NoDup (allKeysSorted ctx) /\
  forall k, k ∈ allKeysSorted ctx <-> is_Some (localMap ctx !! k) \/ is_Some (s3Map ctx !! k).
Proof.
  unfold allKeysSorted. split.
  - apply unique_sorted_nodup. apply (StronglySorted_merge_sort str_le).
  - intros k. rewrite elem_of_unique, (merge_sort_Permutation str_le), elem_of_app, !list_elem_of_fmap.
    split.
    + intros [([k' f] & -> & H%elem_of_map_to_list)|([k' f] & -> & H%elem_of_map_to_list)]; simpl; eauto.
    + intros [[f H%elem_of_map_to_list]|[f H%elem_of_map_to_list]]; [left|right]; by exists (k, f).
Qed.

(** ** The actions of one key in the whole plan *)
Definition is_for (k : str) (a : Action) : bool := (key a == k) && (type a !== EnsureDirectories).
Definition actions_of (k : str) (plan : list Action) : list Action := List.filter (is_for k) plan.

(** The conflict state as loaded does not change while planning. *)
Definition same_loaded (s s' : PassState) : Prop := baselines s' = baselines s /\ openConflicts s' = openConflicts s.

Lemma same_loaded_refl s : same_loaded s s.
Proof. done. Qed.
Lemma same_loaded_trans s1 s2 s3 : same_loaded s1 s2 -> same_loaded s2 s3 -> same_loaded s1 s3.
Proof. unfold same_loaded. intuition congruence. Qed.
#[export] Hint Resolve same_loaded_refl : vh.

Lemma closeOpenConflict_loaded s i r : same_loaded s (closeOpenConflict s i r).
Proof. unfold closeOpenConflict. by case_if. Qed.
Lemma noteInSync_loaded s L R : same_loaded s (noteInSync s L R).
Proof.
  unfold noteInSync. case_if; [done|]. set (s1 := if hasOpenConflict s (id L) then _ else s).
  assert (same_loaded s s1) by (unfold s1; case_if; [apply closeOpenConflict_loaded|done]).
  destruct (baselineFor s1 (id L)) as [b|]; [case_if|]; done.
Qed.
Lemma handleConflict_loaded ctx s c s' b c' : handleConflict ctx s c = (s', b, c') -> same_loaded s s'.
Proof.
  unfold handleConflict. destruct (resolve_conflict _ _) as [[] c1].
  - intros [= <- _ _]. destruct (openConflicts s !! _); [|done].
    eapply same_loaded_trans; [|apply closeOpenConflict_loaded]. done.
  - destruct (openConflicts s !! _); [case_if|]; by intros [= <- _ _].
Qed.
#[export] Hint Resolve closeOpenConflict_loaded noteInSync_loaded handleConflict_loaded : vh.

Lemma decideForBoth_type p L R t : decideForBoth p L R = Some t -> t = Upload \/ t = Download.
Proof. unfold decideForBoth. destruct (strategy p), (conflict_policy p); repeat case_if; naive_solver. Qed.

(** One key gives at most one action, for that key and its two sides. *)
Definition sides (k : str) (l r : option File) (a : Action) : Prop :=
  is_for k a = true /\ local a = l /\ remote a = r.
Definition well_planned (k : str) (l r : option File) (s : PassState) (res : PassState * list Action) : Prop :=
  same_loaded s (fst res) /\ (length (snd res) <= 1)%nat /\ Forall (sides k l r) (snd res).

Lemma well_planned_none k l r s s' : same_loaded s s' -> well_planned k l r s (s', []).
Proof. intros H. split_and!; [done|simpl; lia|constructor]. Qed.
Lemma well_planned_one k s s' t l r f :
  t <> EnsureDirectories -> same_loaded s s' -> well_planned k l r s (s', [mkAction t k l r f]).
Proof.
  intros Ht H. split_and!; [done|simpl; lia|]. constructor; [|constructor]. split; [|done].
  unfold is_for. cbn [key type]. by rewrite eqb_refl, (proj2 (eqb_neq _ _) Ht).
Qed.
Lemma well_planned_transfer k s s' t L R :
  t <> EnsureDirectories -> same_loaded s s' -> well_planned k (Some L) (Some R) s (s', transfer t k L R).
Proof. apply well_planned_one. Qed.
#[export] Hint Resolve well_planned_none well_planned_transfer well_planned_one : vh.

Lemma planByPolicy_well ctx s s0 k L R :
  same_loaded s0 s -> well_planned k (Some L) (Some R) s0 (planByPolicy ctx s k L R).
Proof.
  intros H. unfold planByPolicy. destruct (decideForBoth _ _ _) as [t|] eqn:E; [|auto with vh].
  case_if; [auto with vh|]. apply well_planned_transfer; [|done].
  by destruct (decideForBoth_type _ _ _ _ E) as [->| ->].
Qed.

Lemma planConflict_well ctx s k L R : well_planned k (Some L) (Some R) s (planConflict ctx s k L R).
Proof.
  unfold planConflict. destruct (maybeBuildConflict ctx L R) as [c|]; [|by apply planByPolicy_well].
  destruct (handleConflict ctx s c) as [[s' b] c'] eqn:E. apply handleConflict_loaded in E.
  destruct b; [auto with vh|]. destruct (c_resolution c'); auto with vh.
Qed.

Lemma planBoth_well ctx s k L R : well_planned k (Some L) (Some R) s (planBoth ctx s k L R).
Proof.
  assert (Hd : well_planned k (Some L) (Some R) s (download_or_skip s k L R)).
  { unfold download_or_skip. case_if; [|auto with vh]. by apply well_planned_none. }
  unfold planBoth. case_if; [done|]. case_if; [by apply well_planned_transfer|].
  case_if; [auto with vh|]. case_if; [apply planByPolicy_well; auto with vh|].
  unfold planDivergent. case_if; [auto with vh|]. case_if; [|apply planConflict_well].
  match goal with |- context [match ?d with InSync => _ | _ => _ end] => destruct d end;
    auto using planConflict_well with vh; by apply well_planned_transfer.
Qed.

Lemma planKey_well ctx s k :
  well_planned k (localMap ctx !! k) (s3Map ctx !! k) s (planKey ctx s k).
Proof.
  unfold planKey. destruct (localMap ctx !! k) as [L|], (s3Map ctx !! k) as [R|]; auto with vh.
  - apply planBoth_well.
  - unfold planLocalOnly. repeat case_if; auto with vh.
  - unfold planRemoteOnly. repeat case_if; auto with vh. by apply well_planned_none.
Qed.

Lemma planKey_for ctx s k : Forall (fun a => is_for k a = true) (snd (planKey ctx s k)).
Proof. destruct (planKey_well ctx s k) as (_ & _ & H). eapply Forall_impl; [exact H|]. by intros a [? _]. Qed.

Lemma actions_of_all k l : Forall (fun a => is_for k a = true) l -> actions_of k l = l.
Proof. induction 1 as [|a l Ha _ IH]; simpl; [done|]. by rewrite Ha, IH. Qed.
Lemma actions_of_other k k' l : k <> k' -> Forall (fun a => is_for k' a = true) l -> actions_of k l = [].
Proof.
  intros Hk. induction 1 as [|a l Ha _ IH]; simpl; [done|]. unfold is_for in *. bsimpl.
  replace (key a == k) with false; [done|]. symmetry. apply eqb_neq. congruence.
Qed.
Lemma actions_of_app k l1 l2 : actions_of k (l1 ++ l2) = actions_of k l1 ++ actions_of k l2.
Proof. apply List.filter_app. Qed.

Lemma planKeys_actions ctx s keys k :
  NoDup keys ->
  same_loaded s (fst (planKeys ctx s keys)) /\
  (k ∉ keys -> actions_of k (snd (planKeys ctx s keys)) = []) /\
  (k ∈ keys -> exists sk, same_loaded s sk /\
     actions_of k (snd (planKeys ctx s keys)) = snd (planKey ctx sk k)).
Proof.
  revert s. induction keys as [|x keys IH]; intros s Hnd; simpl.
  { split_and!; [done|done|set_solver]. }
  apply NoDup_cons in Hnd as [Hx Hnd].
  pose proof (planKey_well ctx s x) as (Hl & _ & _). pose proof (planKey_for ctx s x) as Hf.
  destruct (planKey ctx s x) as [s1 a] eqn:E1. simpl in Hl, Hf.
  destruct (IH s1 Hnd) as (Hl2 & Hno & Hyes).
  destruct (planKeys ctx s1 keys) as [s2 rest]. simpl in *. split_and!.
  - by eapply same_loaded_trans.
  - rewrite not_elem_of_cons. intros [Hkx Hk].
    by rewrite actions_of_app, (actions_of_other k x), Hno.
  - rewrite elem_of_cons. intros Hk. rewrite actions_of_app.
    destruct (decide (k = x)) as [->|Hkx].
    + exists s. split; [done|]. rewrite actions_of_all, Hno, app_nil_r by done. by rewrite E1.
    + destruct Hk as [?|Hk]; [done|]. destruct (Hyes Hk) as (sk & Hsk & Heq).
      exists sk. split; [by eapply same_loaded_trans|]. by rewrite (actions_of_other k x), Heq.
Qed.

(** The leftovers, key by key. *)
Lemma omap_actions_none (f : str * File -> option Action) l k :
  (forall kv a, f kv = Some a -> is_for (fst kv) a = true) ->
  (forall v, (k, v) ∈ l -> f (k, v) = None) -> actions_of k (omap f l) = [].
Proof.
  intros Hf. induction l as [|[k' v] l IH]; intros Hno; simpl; [done|].
  assert (Hl : forall w, (k, w) ∈ l -> f (k, w) = None) by (intros w Hw; apply Hno; set_solver).
  destruct (f (k', v)) as [a|] eqn:E; simpl; [|by apply IH].
  assert (is_for k a = false) as ->; [|by apply IH].
  pose proof (Hf _ _ E) as Ha. simpl in Ha. unfold is_for in *. bsimpl.
  destruct (key a == k) eqn:Ek; [|done]. bsimpl. exfalso.
  assert (k' = k) as -> by congruence. rewrite Hno in E by set_solver. done.
Qed.

Lemma omap_actions_one (f : str * File -> option Action) l k v :
  NoDup (map fst l) -> (forall kv a, f kv = Some a -> is_for (fst kv) a = true) ->
  (k, v) ∈ l -> actions_of k (omap f l) = match f (k, v) with Some a => [a] | None => [] end.
Proof.
  intros Hnd Hf. revert Hnd. induction l as [|[k' w] l IH]; intros Hnd Hin; [set_solver|].
  simpl in Hnd. apply NoDup_cons in Hnd as [Hk' Hnd]. simpl.
  apply elem_of_cons in Hin as [[= <- <-]|Hin].
  - assert (Hrest : actions_of k (omap f l) = []).
    { apply omap_actions_none; [done|]. intros w Hw. destruct Hk'. apply list_elem_of_fmap. by exists (k, w). }
    destruct (f (k, v)) as [a|] eqn:E; simpl; [|done].
    pose proof (Hf _ _ E) as Ha. simpl in Ha. rewrite Ha. f_equal. exact Hrest.
  - assert (k <> k').
    { intros ->. apply Hk'. apply list_elem_of_fmap. by exists (k', v). }
    destruct (f (k', w)) as [a|] eqn:E; simpl; [|by apply IH].
    assert (is_for k a = false) as ->; [|by apply IH].
    pose proof (Hf _ _ E) as Ha. simpl in Ha. unfold is_for in *. bsimpl.
    replace (key a == k) with false; [done|]. symmetry. apply eqb_neq. congruence.
Qed.

(** What the leftover loops do to one key. *)
Definition leftover_actions (ctx : Context) (k : str) : list Action :=
  match localMap ctx !! k, s3Map ctx !! k with
  | None, Some R => if deleteRemoteLeftovers (policy ctx) then [mkAction DeleteRemote k None (Some R) false] else []
  | Some L, None => if deleteLocalLeftovers (policy ctx) then [mkAction DeleteLocal k (Some L) None false] else []
  | _, _ => []
  end.

Lemma remoteLeftovers_of ctx k :
  actions_of k (remoteLeftovers ctx) =
  match localMap ctx !! k, s3Map ctx !! k with
  | None, Some R => [mkAction DeleteRemote k None (Some R) false] | _, _ => [] end.
Proof.
  unfold remoteLeftovers. set (f := fun kr : str * File => _).
  assert (Hf : forall kv a, f kv = Some a -> is_for (fst kv) a = true).
  { intros [k' r] a. unfold f. case_if; [done|]. intros [= <-]. unfold is_for. simpl fst. cbn [key type].
    by rewrite eqb_refl. }
  destruct (s3Map ctx !! k) as [R|] eqn:ER.
  - rewrite (omap_actions_one f _ k R) by first [exact Hf|apply NoDup_fst_map_to_list|by apply elem_of_map_to_list].
    unfold f. simpl. destruct (localMap ctx !! k); by simpl.
  - rewrite omap_actions_none; [by destruct (localMap ctx !! k)|done|].
    intros v Hv%elem_of_map_to_list. congruence.
Qed.

Lemma localLeftovers_of ctx k :
  actions_of k (localLeftovers ctx) =
  match localMap ctx !! k, s3Map ctx !! k with
  | Some L, None => [mkAction DeleteLocal k (Some L) None false] | _, _ => [] end.
Proof.
  unfold localLeftovers. set (f := fun kr : str * File => _).
  assert (Hf : forall kv a, f kv = Some a -> is_for (fst kv) a = true).
  { intros [k' r] a. unfold f. case_if; [done|]. intros [= <-]. unfold is_for. simpl fst. cbn [key type].
    by rewrite eqb_refl. }
  destruct (localMap ctx !! k) as [L|] eqn:EL.
  - rewrite (omap_actions_one f _ k L) by first [exact Hf|apply NoDup_fst_map_to_list|by apply elem_of_map_to_list].
    unfold f. simpl. destruct (s3Map ctx !! k); by simpl.
  - rewrite omap_actions_none; [done|done|]. intros v Hv%elem_of_map_to_list. congruence.
Qed.

(** The actions of one key: those of [planKey] in some state of the pass, then the leftovers. *)
Lemma plan_actions ctx s k : exists sk, same_loaded s sk /\
  actions_of k (snd (unchecked_plan ctx s)) = snd (planKey ctx sk k) ++ leftover_actions ctx k.
Proof.
  destruct (allKeysSorted_spec ctx) as [Hnd Hin].
  destruct (planKeys_actions ctx s (allKeysSorted ctx) k Hnd) as (_ & Hno & Hyes).
  unfold unchecked_plan. destruct (planKeys ctx s (allKeysSorted ctx)) as [s' plan]. simpl in *.
  set (first := if wantsEnsureDirectories (policy ctx) then _ else _).
  assert (Hfirst : actions_of k first = []).
  { unfold first. case_if; [|done]. simpl. unfold is_for. cbn [key type]. by rewrite eqb_refl, andb_false_r. }
  match goal with |- exists _, _ /\ actions_of k ?whole = _ =>
    assert (Hleft : actions_of k whole = actions_of k plan ++ leftover_actions ctx k) end.
  { unfold leftover_actions.
    destruct (deleteLocalLeftovers (policy ctx)), (deleteRemoteLeftovers (policy ctx));
      rewrite ?actions_of_app, Hfirst, ?remoteLeftovers_of, ?localLeftovers_of;
      destruct (localMap ctx !! k), (s3Map ctx !! k); rewrite ?app_nil_r; done. }
  rewrite Hleft. destruct (decide (k ∈ allKeysSorted ctx)) as [Hk|Hk].
  - destruct (Hyes Hk) as (sk & Hsk & ->). eauto.
  - exists s. split; [done|]. rewrite Hno by done.
    unfold leftover_actions, planKey. rewrite Hin in Hk.
    destruct (localMap ctx !! k), (s3Map ctx !! k); [exfalso; eauto..|done].
Qed.

Lemma key_actions_single ctx sk k :
  (length (snd (planKey ctx sk k) ++ leftover_actions ctx k) <= 1)%nat.
Proof.
  pose proof (planKey_well ctx sk k) as (_ & Hlen & _). rewrite length_app.
  unfold leftover_actions. unfold planKey in *.
  destruct (localMap ctx !! k) as [L|], (s3Map ctx !! k) as [R|]; try (simpl; lia).
  - destruct (deleteLocalLeftovers (policy ctx)) eqn:Ed; [|simpl; lia].
    unfold planLocalOnly. rewrite Ed. simpl negb. rewrite andb_false_r. simpl.
    unfold deleteLocalLeftovers in Ed. unfold uploadLocalOnly.
    destruct (strategy (policy ctx)); [done..|]. destruct (conflict_policy (policy ctx)); done || (simpl; lia).
  - destruct (deleteRemoteLeftovers (policy ctx)) eqn:Ed; [|simpl; lia].
    unfold planRemoteOnly. unfold deleteRemoteLeftovers in Ed. unfold downloadRemoteOnly.
    destruct (strategy (policy ctx)); [done..|]. destruct (conflict_policy (policy ctx)); done || (simpl; lia).
Qed.

(** ** What a transfer between two existing sides may do *)

(** Under [ask], a transfer that replaces one side needs that side unchanged since
    the last agreement. *)
Definition ask_justified (ctx : Context) (s : PassState) (L R : File) (a : Action) : Prop :=
  conflict_policy (policy ctx) = Ask -> hasPotentialConflict L R false = true ->
  exists b, baselineFor s (id L) = Some b /\
    (type a = Download -> localChangedSince L b = false) /\
    (type a = Upload -> remoteChangedSince R b = false).

Lemma maybeBuildConflict_Some ctx L R :
  hasPotentialConflict L R false = true -> exists c, maybeBuildConflict ctx L R = Some c.
Proof.
  intros H. unfold maybeBuildConflict. rewrite H. simpl negb. cbv iota.
  unfold hasPotentialConflict in H. unfold analyze, new_conflict. simpl.
  destruct (hashes_differ L R); simpl; [eauto|].
  destruct (negb (size_bytes L =? size_bytes R)); [simpl; eauto|done].
Qed.

Lemma planConflict_ask ctx s k L R :
  conflict_policy (policy ctx) = Ask -> hasPotentialConflict L R false = true ->
  snd (planConflict ctx s k L R) = [].
Proof.
  intros Ha Hp. unfold planConflict. destruct (maybeBuildConflict_Some ctx L R Hp) as [c ->].
  unfold handleConflict, resolve_conflict. rewrite Ha.
  destruct (openConflicts s !! c_file_id c); [case_if|]; done.
Qed.

Lemma planByPolicy_type ctx s k L R a :
  a ∈ snd (planByPolicy ctx s k L R) -> type a = Upload \/ type a = Download.
Proof.
  unfold planByPolicy. destruct (decideForBoth _ _ _) as [t|] eqn:E; [|set_solver].
  case_if; [set_solver|]. intros ->%list_elem_of_singleton. by eapply decideForBoth_type.
Qed.

Lemma planConflict_type ctx s k L R a :
  a ∈ snd (planConflict ctx s k L R) -> type a = Upload \/ type a = Download.
Proof.
  unfold planConflict. destruct (maybeBuildConflict ctx L R) as [c|]; [|apply planByPolicy_type].
  destruct (handleConflict ctx s c) as [[s' b] c']. destruct b; [set_solver|].
  destruct (c_resolution c'); try set_solver; intros ->%list_elem_of_singleton; auto.
Qed.

Lemma classify_LocalOnly L R base :
  classify L R base = LocalOnly -> exists b, base = Some b /\ remoteChangedSince R b = false.
Proof.
  unfold classify. destruct base as [b|]; [|done]. intros H. exists b. split; [done|].
  by destruct (localChangedSince L b), (remoteChangedSince R b).
Qed.
Lemma classify_RemoteOnly L R base :
  classify L R base = RemoteOnly -> exists b, base = Some b /\ localChangedSince L b = false.
Proof.
  unfold classify. destruct base as [b|]; [|done]. intros H. exists b. split; [done|].
  by destruct (localChangedSince L b), (remoteChangedSince R b).
Qed.

Ltac justify b := exists b; split_and!; [done|by intros; try discriminate|by intros; try discriminate].

Lemma planBoth_action ctx s k L R a :
  a ∈ snd (planBoth ctx s k L R) ->
  (type a = Upload \/ type a = Download) /\ ask_justified ctx s L R a.
Proof.
  assert (Hd : a ∈ snd (download_or_skip s k L R) -> a = mkAction Download k (Some L) (Some R) false).
  { unfold download_or_skip. case_if; [set_solver|]. by intros ->%list_elem_of_singleton. }
  unfold planBoth. case_if.
  { intros ->%Hd. split; [by right|]. intros _ _. bsimpl.
    destruct (baselineFor s (id L)) as [b|]; [|done]. bsimpl. justify b. }
  case_if.
  { intros ->%list_elem_of_singleton. split; [by left|]. intros _ _. bsimpl.
    destruct (baselineFor s (id L)) as [b|]; [|done]. bsimpl. justify b. }
  case_if; [set_solver|]. case_if.
  { intros Ha. split; [by eapply planByPolicy_type|]. intros _ Hp. by rewrite Hp in *. }
  unfold planDivergent.
  destruct (hasOpenConflict s (id L)) eqn:Eo; simpl negb.
  { change (Unknown == LocalOnly) with false. rewrite !andb_false_r. cbv iota.
    change (Unknown == InSync) with false. cbv iota.
    intros Ha. split; [by eapply planConflict_type|].
    intros Hask Hp. rewrite planConflict_ask in Ha by done. set_solver. }
  rewrite andb_true_r. set (d := if changed ctx k && _ then Both else _).
  case_if; [set_solver|]. case_if; bsimpl.
  - destruct d eqn:Ed; try (by set_solver).
    + intros ->%list_elem_of_singleton. split; [by left|]. intros _ _.
      destruct (classify_LocalOnly L R (baselineFor s (id L))) as (b & ? & ?); [|justify b].
      unfold d in Ed. by case_if_in Ed.
    + intros ->%Hd. split; [by right|]. intros _ _.
      destruct (classify_RemoteOnly L R (baselineFor s (id L))) as (b & ? & ?); [|justify b].
      unfold d in Ed. by case_if_in Ed.
    + intros Ha. split; [by eapply planConflict_type|]. intros Hask Hp.
      rewrite planConflict_ask in Ha by done. set_solver.
    + intros Ha. split; [by eapply planConflict_type|]. intros Hask Hp.
      rewrite planConflict_ask in Ha by done. set_solver.
  - intros Ha. split; [by eapply planConflict_type|]. intros Hask Hp. congruence.
Qed.

Lemma planLocalOnly_action ctx s k L a :
  a ∈ snd (planLocalOnly ctx s k L) ->
  (type a = Upload /\ uploadLocalOnly (policy ctx) = true) \/
  (type a = DeleteLocal /\ k ∈ removedKeys ctx /\ deleteLocalLeftovers (policy ctx) = false /\
   exists b, baselineFor s (id L) = Some b /\ localChangedSince L b = false).
Proof.
  unfold planLocalOnly. set (s1 := if hasOpenConflict s (id L) then _ else s).
  assert (Hb : baselineFor s1 (id L) = baselineFor s (id L)).
  { unfold baselineFor, s1. case_if; [|done]. by rewrite (proj1 (closeOpenConflict_loaded s (id L) _)). }
  rewrite Hb. case_if.
  - intros ->%list_elem_of_singleton. right. bsimpl. destruct (baselineFor s (id L)) as [b|]; [|done].
    bsimpl. split_and!; eauto.
  - case_if; [|set_solver]. intros ->%list_elem_of_singleton. by left.
Qed.

Lemma planRemoteOnly_action ctx s k R a :
  a ∈ snd (planRemoteOnly ctx s k R) -> type a = Download \/ type a = IndexRemoteOnly.
Proof.
  unfold planRemoteOnly. case_if; [|set_solver]. case_if; [set_solver|].
  intros ->%list_elem_of_singleton. simpl. case_if; auto.
Qed.

(** Every action of the plan but the directory setup is one of its key's. *)
Lemma plan_action_key ctx s a :
  a ∈ snd (unchecked_plan ctx s) -> type a <> EnsureDirectories ->
  exists sk, same_loaded s sk /\ a ∈ snd (planKey ctx sk (key a)) ++ leftover_actions ctx (key a).
Proof.
  intros Hin Ht. destruct (plan_actions ctx s (key a)) as (sk & Hsk & Heq). exists sk. split; [done|].
  rewrite <- Heq. unfold actions_of. apply list_elem_of_In, filter_In. split; [by apply list_elem_of_In|].
  unfold is_for. by rewrite eqb_refl, (proj2 (eqb_neq _ _) Ht).
Qed.

(** ** Carrying a plan out: the keys each side holds afterwards *)
Definition exec (st : gset str * gset str) (a : Action) : gset str * gset str :=
  let '(l, r) := st in
  match type a with
  | EnsureDirectories => (l, r)
  | Upload => (l, {[key a]} ∪ r)
  | Download | IndexRemoteOnly => ({[key a]} ∪ l, r)
  | DeleteLocal => (l ∖ {[key a]}, r)
  | DeleteRemote => (l, r ∖ {[key a]})
  end.

(** What the actions of one key make of its presence. *)
Definition exec1 (st : bool * bool) (a : Action) : bool * bool :=
  match type a with
  | EnsureDirectories => st
  | Upload => (fst st, true)
  | Download | IndexRemoteOnly => (true, snd st)
  | DeleteLocal => (false, snd st)
  | DeleteRemote => (fst st, false)
  end.

Definition present (k : str) (st : gset str * gset str) : bool * bool :=
  (bool_decide (k ∈ fst st), bool_decide (k ∈ snd st)).

Lemma present_exec k st a :
  present k (exec st a) = if is_for k a then exec1 (present k st) a else present k st.
Proof.
  unfold is_for, present, exec, exec1. destruct st as [l r]. simpl.
  destruct (key a == k) eqn:E; bsimpl; simpl.
  - subst. destruct (type a); simpl; f_equal; repeat case_bool_decide; done || (exfalso; set_solver).
  - destruct (type a); simpl; f_equal; repeat case_bool_decide; done || (exfalso; set_solver).
Qed.

Lemma present_exec_plan k plan st :
  present k (foldl exec st plan) = foldl exec1 (present k st) (actions_of k plan).
Proof.
  revert st. induction plan as [|a plan IH]; intros st; simpl; [done|].
  rewrite IH, present_exec. by destruct (is_for k a).
Qed.

Lemma present_loaded ctx k :
  present k (dom (localMap ctx), dom (s3Map ctx)) =
  (bool_decide (is_Some (localMap ctx !! k)), bool_decide (is_Some (s3Map ctx !! k))).
Proof.
  unfold present. simpl. f_equal; apply bool_decide_ext; apply elem_of_dom.
Qed.

Lemma exec1_transfers l : Forall (fun a => type a = Upload \/ type a = Download) l ->
  foldl exec1 (true, true) l = (true, true).
Proof.
  induction 1 as [|a l Ha _ IH]; simpl; [done|]. unfold exec1 at 2. by destruct Ha as [-> | ->].
Qed.

(** One key after its actions: on both sides or on none. *)
Lemma converges_key ctx sk k :
  (strategy (policy ctx) <> Mirror \/ conflict_policy (policy ctx) = KeepLocal \/
   conflict_policy (policy ctx) = KeepRemote) ->
  (strategy (policy ctx) = Cache \/ forall k R, s3Map ctx !! k = Some R -> localMap ctx !! k = None ->
     requiresArchiveRestoreForBodyGet R = false) ->
  let st := foldl exec1 (bool_decide (is_Some (localMap ctx !! k)), bool_decide (is_Some (s3Map ctx !! k)))
              (snd (planKey ctx sk k) ++ leftover_actions ctx k) in
  fst st = snd st.
Proof.
  intros Hpol Harch. unfold planKey, leftover_actions.
  destruct (localMap ctx !! k) as [L|] eqn:EL, (s3Map ctx !! k) as [R|] eqn:ER; simpl.
  - rewrite app_nil_r, exec1_transfers; [done|]. apply Forall_forall. intros a Ha.
    by apply planBoth_action in Ha as [? _].
  - unfold planLocalOnly. case_if.
    { bsimpl. simpl. by destruct (deleteLocalLeftovers (policy ctx)). }
    unfold uploadLocalOnly, deleteLocalLeftovers.
    destruct (strategy (policy ctx)), (conflict_policy (policy ctx)); simpl; naive_solver.
  - unfold planRemoteOnly, downloadRemoteOnly, deleteRemoteLeftovers.
    assert (Ha : negb (strategy (policy ctx) == Cache) && requiresArchiveRestoreForBodyGet R = false).
    { destruct Harch as [->|H]; [done|]. rewrite (H k) by done. apply andb_false_r. }
    rewrite Ha. destruct (strategy (policy ctx)), (conflict_policy (policy ctx)); simpl; naive_solver.
  - done.
Qed.

(** ** Counting a plan *)
Definition body_of (a : Action) : Z :=
  match remote a with Some r => size_bytes r | None => file_size (local a) end.
Definition sum_of (t : ActionType) (f : Action -> Z) (plan : list Action) : Z :=
  foldr Z.add 0 (map f (List.filter (fun a => type a == t) plan)).

Definition count_of (t : ActionType) (plan : list Action) : Z :=
  Z.of_nat (length (List.filter (fun a => type a == t) plan)).

Lemma u64_add a b : u64 (u64 a + b) = u64 (a + b).
Proof. unfold u64. apply Zplus_mod_idemp_l. Qed.

Lemma count_of_snoc t plan a : count_of t (plan ++ [a]) = count_of t plan + if type a == t then 1 else 0.
Proof.
  unfold count_of. rewrite List.filter_app, length_app. cbn [List.filter].
  destruct (type a == t); simpl; lia.
Qed.

Lemma sum_of_snoc t f plan a : sum_of t f (plan ++ [a]) = sum_of t f plan + if type a == t then f a else 0.
Proof.
  unfold sum_of. rewrite List.filter_app, map_app. cbn [List.filter].
  assert (Hf : forall l, foldr Z.add 0 (l ++ map f (if type a == t then [a] else [])) =
                    foldr Z.add 0 l + if type a == t then f a else 0).
  { induction l as [|x l IH]; simpl; [destruct (type a == t); simpl; lia|]. rewrite IH. lia. }
  apply Hf.
Qed.

(** Decide the equality tests between constructors. *)
Ltac eval_eqb :=
  repeat match goal with
  | |- context [@eqb ActionType ?i ?x ?y] =>
      let b := eval vm_compute in (@eqb ActionType i x y) in change (@eqb ActionType i x y) with b
  end.

Lemma addActions_count plan :
  foldl addAction no_cost plan =
  mkEstimate 0 (u64 (2 * count_of Download plan)) (u64 (count_of Download plan)) (u64 (count_of Upload plan)) 0
    (u64 (count_of DeleteRemote plan)) (u64 (sum_of Download body_of plan))
    (u64 (sum_of Upload (fun a => file_size (local a)) plan)) (u64 (count_of IndexRemoteOnly plan)).
Proof.
  induction plan as [|a plan IH] using rev_ind; [done|].
  rewrite foldl_app, IH. cbn [foldl]. rewrite !count_of_snoc, !sum_of_snoc.
  unfold addAction, body_of, file_size. destruct (type a); eval_eqb; cbn;
    destruct (local a), (remote a); f_equal; rewrite ?u64_add; f_equal; lia.
Qed.

(** ** Properties *)

(** A plan treats every file once: for each key it holds at most one action
    besides the directory setup, so no file is both transferred and deleted, and
    the action carries exactly the two sides the pass loaded for that key. *)
Theorem one_action_per_key ctx s k :
  let acts := actions_of k (snd (unchecked_plan ctx s)) in
  (length acts <= 1)%nat /\
  forall a, a ∈ acts -> local a = localMap ctx !! k /\ remote a = s3Map ctx !! k.
Proof.
  simpl. destruct (plan_actions ctx s k) as (sk & _ & ->).
  split; [apply key_actions_single|]. intros a [Hin|Hin]%elem_of_app.
  - pose proof (planKey_well ctx sk k) as (_ & _ & Hf). rewrite Forall_forall in Hf.
    by destruct (Hf a Hin) as (_ & ? & ?).
  - unfold leftover_actions in Hin.
    destruct (localMap ctx !! k), (s3Map ctx !! k); try set_solver; case_if_in Hin; try set_solver;
      by apply list_elem_of_singleton in Hin as ->.
Qed.

(** C36. Deletions are justified: a plan removes a local file only when the remote
    side lacks it and either the mirror follows the remote side or the provider
    reported the removal and the local copy is unchanged since both sides agreed;
    it removes a remote object only when the local side lacks it and the mirror
    follows the local side. *)
Theorem deletions_justified ctx s a :
  a ∈ snd (unchecked_plan ctx s) ->
  (type a = DeleteLocal -> exists L, localMap ctx !! key a = Some L /\ s3Map ctx !! key a = None /\
     ((strategy (policy ctx) = Mirror /\ conflict_policy (policy ctx) = KeepRemote) \/
      (key a ∈ removedKeys ctx /\
       exists b, baselines s !! id L = Some b /\ localChangedSince L b = false))) /\
  (type a = DeleteRemote -> localMap ctx !! key a = None /\ is_Some (s3Map ctx !! key a) /\
     strategy (policy ctx) = Mirror /\ conflict_policy (policy ctx) = KeepLocal).
Proof.
  intros Hin. split; intros Ht; (destruct (plan_action_key ctx s a Hin) as (sk & [Hb _] & Ha); [by rewrite Ht|]);
    apply elem_of_app in Ha as [Ha|Ha]; unfold planKey, leftover_actions in Ha;
    destruct (localMap ctx !! key a) as [L|], (s3Map ctx !! key a) as [R|]; try (by set_solver).
  - apply planBoth_action in Ha as [[?|?] _]; congruence.
  - exists L. split_and!; try done. right.
    apply planLocalOnly_action in Ha as [[? _]|(_ & ? & _ & b & Hbl & ?)]; [congruence|].
    split; [done|]. exists b. by rewrite <- Hb.
  - apply planRemoteOnly_action in Ha as [?|?]; congruence.
  - exists L. split_and!; try done. left. case_if_in Ha; [|set_solver].
    unfold deleteLocalLeftovers in E. by destruct (strategy (policy ctx)), (conflict_policy (policy ctx)).
  - case_if_in Ha; [|set_solver]. apply list_elem_of_singleton in Ha. by rewrite Ha in Ht.
  - apply planBoth_action in Ha as [[?|?] _]; congruence.
  - apply planLocalOnly_action in Ha as [[? _]|(? & _)]; congruence.
  - apply planRemoteOnly_action in Ha as [?|?]; congruence.
  - case_if_in Ha; [|set_solver]. apply list_elem_of_singleton in Ha. by rewrite Ha in Ht.
  - case_if_in Ha; [|set_solver]. split_and!; try done.
    + unfold deleteRemoteLeftovers in E. by destruct (strategy (policy ctx)).
    + unfold deleteRemoteLeftovers in E. by destruct (strategy (policy ctx)), (conflict_policy (policy ctx)).
Qed.

(** C25. Under [ask] no change is overwritten without a decision: for a file whose
    sides differ in size or known hash, a planned download happens only when the
    local copy is unchanged since the last agreement, and a planned upload only
    when the remote object is. *)
Theorem ask_overwrites_no_change ctx s k L R a :
  conflict_policy (policy ctx) = Ask ->
  localMap ctx !! k = Some L -> s3Map ctx !! k = Some R -> hasPotentialConflict L R false = true ->
  a ∈ actions_of k (snd (unchecked_plan ctx s)) ->
  exists b, baselines s !! id L = Some b /\
    ((type a = Download /\ localChangedSince L b = false) \/
     (type a = Upload /\ remoteChangedSince R b = false)).
Proof.
  intros Hask HL HR Hp Ha. destruct (plan_actions ctx s k) as (sk & [Hb _] & Heq). rewrite Heq in Ha.
  apply elem_of_app in Ha as [Ha|Ha]; unfold planKey, leftover_actions in Ha; rewrite HL, HR in Ha; [|set_solver].
  apply planBoth_action in Ha as [Ht Hj]. destruct (Hj Hask Hp) as (b & Hbl & Hd & Hu).
  exists b. unfold baselineFor in Hbl. rewrite <- Hb. split; [done|]. destruct Ht; auto.
Qed.

(** C37. A carried-out plan makes both sides hold the same files: under the cache
    and sync strategies and under a directed mirror, when no new remote object is
    archived (or bodies are not fetched), executing every action leaves exactly
    the same keys locally and remotely. *)
Theorem executed_plan_converges ctx s :
  (strategy (policy ctx) <> Mirror \/ conflict_policy (policy ctx) = KeepLocal \/
   conflict_policy (policy ctx) = KeepRemote) ->
  (strategy (policy ctx) = Cache \/ forall k R, s3Map ctx !! k = Some R -> localMap ctx !! k = None ->
     requiresArchiveRestoreForBodyGet R = false) ->
  let st := foldl exec (dom (localMap ctx), dom (s3Map ctx)) (snd (unchecked_plan ctx s)) in
  fst st = snd st.
Proof.
  intros Hpol Harch. simpl. apply set_eq. intros k.
  pose proof (present_exec_plan k (snd (unchecked_plan ctx s)) (dom (localMap ctx), dom (s3Map ctx))) as Hex.
  destruct (plan_actions ctx s k) as (sk & _ & Heq). rewrite Heq in Hex.
  set (st := foldl exec _ _) in *.
  assert (Hgoal : fst (present k st) = snd (present k st)).
  { rewrite Hex, present_loaded. by apply converges_key. }
  unfold present in Hgoal. simpl in Hgoal.
  by rewrite <- (bool_decide_eq_true (k ∈ st.1)), <- (bool_decide_eq_true (k ∈ st.2)), Hgoal.
Qed.

(** The request estimate counts the plan: one GET and two HEADs per download,
    one PUT per upload, one DELETE per remote deletion, the planned bytes, and one
    PUT with two HEADs for the manifest exactly when the remote index changes, all
    modulo 2^64. *)
Theorem request_estimate_counts plan :
  let n t := count_of t plan in
  let m := if existsb mutatesRemoteIndex plan then 1 else 0 in
  requestEstimate plan =
  mkEstimate 0 (u64 (2 * n Download + 2 * m)) (u64 (n Download)) (u64 (n Upload + m)) 0 (u64 (n DeleteRemote))
    (u64 (sum_of Download body_of plan)) (u64 (sum_of Upload (fun a => file_size (local a)) plan))
    (u64 (n IndexRemoteOnly)).
Proof.
  simpl. unfold requestEstimate. rewrite addActions_count.
  case_if; unfold addManifest; simpl; f_equal; rewrite ?u64_add; f_equal; lia.
Qed.

Lemma computeReq_sum files : computeReqFreeSpaceForDownload files = u64 (foldr Z.add 0 (map size_bytes files)).
Proof.
  unfold computeReqFreeSpaceForDownload.
  assert (H : forall l t, foldl (fun t f => u64 (t + size_bytes f)) (u64 t) l = u64 (t + foldr Z.add 0 (map size_bytes l))).
  { induction l as [|f l IH]; intros t; simpl; [by rewrite Z.add_0_r|].
    rewrite u64_add, IH. f_equal. lia. }
  apply (H files 0).
Qed.

(** A pass starts transferring only what fits: planning succeeds exactly when
    nothing is downloaded to keep, or the bytes of all planned downloads (modulo
    2^64) fit the free space and, under a downloaded-bytes budget, what is left
    of it; and then the plan is the computed one. *)
Theorem preflight_exact ctx s used available :
  let plan := snd (unchecked_plan ctx s) in
  let required := u64 (foldr Z.add 0 (map size_bytes (plannedDownloads plan))) in
  build ctx s used available = Ok (unchecked_plan ctx s) <->
  plannedDownloads plan = [] \/
  (required <= available /\
   forall limit, max_downloaded_bytes (s3_request_budget (policy ctx)) = Some limit ->
     required = 0 \/ used + required <= limit).
Proof.
  simpl. unfold build. destruct (unchecked_plan ctx s) as [s' plan]. simpl. unfold preflightSpaceForPlan.
  destruct (plannedDownloads plan) as [|f fs] eqn:Ed; [simpl; tauto|].
  set (required := u64 _). rewrite (computeReq_sum (f :: fs)). fold required. simpl is_empty. cbv iota.
  assert (Hr : 0 <= required) by (unfold required, u64; apply Z.mod_pos_bound; lia).
  destruct (max_downloaded_bytes _) as [limit|]; simpl.
  - destruct (Z.leb_spec limit used); simpl.
    + destruct (Z.ltb_spec 0 required); simpl.
      * split; [done|]. intros [?|[_ H']]; [done|]. destruct (H' _ eq_refl); lia.
      * destruct (Z.leb_spec required available); simpl; [|split; [done|intros [?|[? _]]; [done|lia]]].
        split; [|done]. intros _. right. split; [done|]. intros ? [= <-]. lia.
    + destruct (Z.ltb_spec (limit - used) required); simpl.
      * split; [done|]. intros [?|[_ H']]; [done|]. destruct (H' _ eq_refl); lia.
      * destruct (Z.leb_spec required available); simpl; [|split; [done|intros [?|[? _]]; [done|lia]]].
        split; [|done]. intros _. right. split; [done|]. intros ? [= <-]. lia.
  - destruct (Z.leb_spec required available); simpl; [|split; [done|intros [?|[? _]]; [done|lia]]].
    split; [|done]. intros _. right. split; [done|]. by intros.
Qed.

(** A two-sided change of equal size escapes [ask]: when the remote row has no
    hash (a listing's row), the sizes agree and the last agreement shows by hash
    and ETag that both sides changed, the pass notes the pair as in sync, records
    no conflict, and transfers by modification time. *)
Theorem same_size_change_escapes_ask ctx s k L R b :
  conflict_policy (policy ctx) = Ask -> changed ctx k = false ->
  openConflicts s !! id L = None -> baselineFor s (id L) = Some b -> publishing b = false ->
  classify L R (Some b) = Both ->
  content_hash R = None -> is_Some (content_hash L) -> size_bytes L = size_bytes R ->
  planBoth ctx s k L R = planByPolicy ctx (noteInSync s L R) k L R /\
  new_open (fst (planBoth ctx s k L R)) = new_open s.
Proof.
  intros Hask Hch Hopen Hb Hpub Hboth HR HL Hsz.
  assert (Hplan : planBoth ctx s k L R = planByPolicy ctx (noteInSync s L R) k L R).
  { unfold planBoth. rewrite Hch, Hb, Hpub. simpl. rewrite andb_false_r.
    assert (file_eq L R = false) as ->.
    { unfold file_eq. destruct HL as [h ->]. rewrite HR.
      change (Some h == None) with false. by rewrite !andb_false_r. }
    unfold hasPotentialConflict, hashes_differ. rewrite HR, Hsz, Z.eqb_refl.
    by destruct (content_hash L). }
  split; [done|]. rewrite Hplan.
  assert (Hn : new_open (noteInSync s L R) = new_open s).
  { unfold noteInSync, hasOpenConflict. rewrite Hopen. simpl.
    case_if; [done|]. destruct (baselineFor _ _); [case_if|]; done. }
  unfold planByPolicy. destruct (decideForBoth _ _ _); [case_if|]; done.
Qed.

Module SyncDemo.
Definition file (i : Z) (p : string) (size mtime : Z) (hash etag : option string) : File :=
  mkFile i (lit p) size mtime (Some 7) [] None (option_map lit hash) None (option_map lit etag) None 1.
Definition local_a := file 1 "/a" 10 100 (Some "h1"%string) None.
Definition remote_a := file 0 "/a" 12 200 None (Some "e2"%string).
Definition remote_same := file 0 "/a" 10 200 None (Some "e2"%string).
Definition local_b := file 2 "/b" 5 100 (Some "hb"%string) None.
Definition base : Baseline := mkBaseline 1 (Some $"h0") 10 None (Some $"e1") (Some 10).
Definition base_unchanged : Baseline := mkBaseline 1 (Some $"h1") 10 None (Some $"e1") (Some 12).
Definition policy (st : Strategy) (cp : ConflictPolicy) : RemotePolicy :=
  mkPolicy st cp (s3RequestBudgetForPreset Balanced) None.
Definition ctx (st : Strategy) (cp : ConflictPolicy) (r : File) : Context :=
  mkContext {[ $"/a" := local_a; $"/b" := local_b ]} {[ $"/a" := r ]} [$"/b"] None (policy st cp) 1 500.
Definition state (b : Baseline) : PassState := mkState {[ 1 := b; 2 := mkBaseline 2 (Some $"hb") 5 None None None ]} ∅ [] [] [] [] 0.
End SyncDemo.

Example planner_examples :
  let kinds st cp r b := map (fun a => (type a, key a)) (snd (unchecked_plan (SyncDemo.ctx st cp r) (SyncDemo.state b))) in
  kinds Sync Ask SyncDemo.remote_a SyncDemo.base = [(EnsureDirectories, []); (DeleteLocal, $"/b")] /\
  kinds Sync Ask SyncDemo.remote_a SyncDemo.base_unchanged =
    [(EnsureDirectories, []); (Download, $"/a"); (DeleteLocal, $"/b")] /\
  kinds Sync Ask SyncDemo.remote_same SyncDemo.base =
    [(EnsureDirectories, []); (Download, $"/a"); (DeleteLocal, $"/b")] /\
  kinds Mirror KeepLocal SyncDemo.remote_a SyncDemo.base = [(Upload, $"/a"); (Upload, $"/b")].
Proof. by vm_compute. Qed.

Lemma deletions_justified_witness :
  let a := mkAction DeleteLocal $"/b" (Some SyncDemo.local_b) None false in
  let ctx := SyncDemo.ctx Sync Ask SyncDemo.remote_a in
  a ∈ snd (unchecked_plan ctx (SyncDemo.state SyncDemo.base)) /\
  exists L, localMap ctx !! $"/b" = Some L.
Proof.
  intros a ctx.
  assert (Hin : a ∈ snd (unchecked_plan ctx (SyncDemo.state SyncDemo.base))).
  { apply list_elem_of_In. vm_compute. right. left. reflexivity. }
  split; [exact Hin|].
  destruct (proj1 (deletions_justified ctx _ a Hin) eq_refl) as (L & HL & _). exists L. exact HL.
Defined.

Lemma ask_overwrites_no_change_witness :
  let a := mkAction Download $"/a" (Some SyncDemo.local_a) (Some SyncDemo.remote_a) false in
  let ctx := SyncDemo.ctx Sync Ask SyncDemo.remote_a in
  exists b, baselines (SyncDemo.state SyncDemo.base_unchanged) !! 1 = Some b /\
    ((type a = Download /\ localChangedSince SyncDemo.local_a b = false) \/
     (type a = Upload /\ remoteChangedSince SyncDemo.remote_a b = false)).
Proof.
  intros a ctx.
  apply (ask_overwrites_no_change ctx (SyncDemo.state SyncDemo.base_unchanged) $"/a" SyncDemo.local_a SyncDemo.remote_a a).
  - reflexivity.
  - vm_compute. reflexivity.
  - vm_compute. reflexivity.
  - vm_compute. reflexivity.
  - apply list_elem_of_In. vm_compute. left. reflexivity.
Defined.

Lemma executed_plan_converges_witness :
  let ctx := SyncDemo.ctx Mirror KeepLocal SyncDemo.remote_a in
  let st := foldl exec (dom (localMap ctx), dom (s3Map ctx)) (snd (unchecked_plan ctx (SyncDemo.state SyncDemo.base))) in
  fst st = snd st.
Proof.
  apply executed_plan_converges.
  - right. left. reflexivity.
  - right. intros k R Hk _. destruct (decide (k = $"/a")) as [->|Hne].
    + vm_compute in Hk. injection Hk as <-. reflexivity.
    + unfold SyncDemo.ctx in Hk. cbn [s3Map] in Hk. rewrite lookup_singleton_ne in Hk by congruence. discriminate.
Defined.

Lemma same_size_change_escapes_ask_witness :
  let ctx := SyncDemo.ctx Sync Ask SyncDemo.remote_same in
  let s := SyncDemo.state SyncDemo.base in
  planBoth ctx s $"/a" SyncDemo.local_a SyncDemo.remote_same =
    planByPolicy ctx (noteInSync s SyncDemo.local_a SyncDemo.remote_same) $"/a" SyncDemo.local_a SyncDemo.remote_same /\
  new_open (fst (planBoth ctx s $"/a" SyncDemo.local_a SyncDemo.remote_same)) = [].
Proof.
  apply (same_size_change_escapes_ask (SyncDemo.ctx Sync Ask SyncDemo.remote_same) (SyncDemo.state SyncDemo.base)
    $"/a" SyncDemo.local_a SyncDemo.remote_same SyncDemo.base); try (vm_compute; reflexivity).
  exists $"h1". reflexivity.
Defined.
