(* ===== verification/HttpRange.v ===== *)
(** * Byte ranges and representations served over HTTP

    [protocols/http/Range.cpp] (the Range header and its resolution against a
    size), the representation server of [protocols/http/handler/Common.cpp]
    ([noneMatchHits], [serve], [errorFor], the content-type choice) and the
    query parameters of the S3 gateway that use them
    ([protocols/s3/Router.cpp]).  [std::uint64_t] is Z with its bound written
    out. *)
From S2P Require Import Prelude.
Local Open Scope Z_scope.

Definition uint64_max : Z := 2 ^ 64 - 1.
Definition uint64 (n : Z) : Prop := 0 <= n < 2 ^ 64.

(** ** Range.cpp *)
Record Spec := mkSpec { first : option Z; last : option Z }.
Record Parsed := mkParsedRange { spec : option Spec; multi : bool; malformed : bool }.
Record Resolved := mkResolved { r_first : Z; r_last : Z }.
#[export] Instance Spec_eq : EqDecision Spec. Proof. solve_decision. Defined.
#[export] Instance Resolved_eq : EqDecision Resolved. Proof. solve_decision. Defined.

(** [last - first + 1] in [uint64_t]. *)
Definition length_of (r : Resolved) : Z := (r_last r - r_first r + 1) mod 2 ^ 64.

Definition is_blank (c : Ascii.ascii) : bool := (c == " "%char) || (c == "009"%char).
Definition trim (v : str) : str := trim_by is_blank v.

(** [number]: digits only, none on overflow of [uint64_t]. *)
Definition number (v : str) : option Z :=
  if is_empty v || negb (forallb is_digit v) then None
  else let out := decimal_value v in if out <=? uint64_max then Some out else None.

Definition minus : Ascii.ascii := "-"%char.
Definition comma : Ascii.ascii := ","%char.

Definition parseOne (item : str) : option Spec :=
  match split_first minus (trim item) with
  | None => None
  | Some (before, after) =>
      let firstRaw := trim before in
      let lastRaw := trim after in
      if is_empty firstRaw then
        match number lastRaw with
        | None => None
        | Some suffix => Some (mkSpec None (Some suffix))
        end
      else
        match number firstRaw with
        | None => None
        | Some f =>
            if is_empty lastRaw then Some (mkSpec (Some f) None)
            else match number lastRaw with
                 | None => None
                 | Some l => if l <? f then None else Some (mkSpec (Some f) (Some l))
                 end
        end
  end.

(** The [while] loop of [parse] over the comma-separated items: the number of
    nonempty items and the first of them, or none when one does not parse. *)
Fixpoint parse_items (items : list str) (count : nat) (fst_ : option Spec) : option (nat * option Spec) :=
  match items with
  | [] => Some (count, fst_)
  | item :: rest =>
      if is_empty (trim item) then parse_items rest count fst_
      else match parseOne item with
           | None => None
           | Some s => parse_items rest (S count) (if (count =? 0)%nat then Some s else fst_)
           end
  end.

Definition malformed_header : Parsed := mkParsedRange None false true.

Definition parse (header : str) : Parsed :=
  let header := trim header in
  let unit := $"bytes" in
  if (length header <=? length unit)%nat || negb (bool_decide (header !! length unit = Some "="%char))
  then malformed_header
  else if negb (map tolower (take (length unit) header) == unit) then malformed_header
  else
    match parse_items (fields comma (drop (S (length unit)) header) []) 0 None with
    | None => malformed_header
    | Some (count, fst_) =>
        if (count =? 0)%nat then malformed_header
        else if (1 <? count)%nat then mkParsedRange None true false
        else mkParsedRange fst_ false false
    end.

Definition resolve (s : Spec) (size : Z) : option Resolved :=
  if size =? 0 then None
  else match first s with
  | None =>
      match last s with
      | None => None
      | Some n0 =>
          if n0 =? 0 then None
          else let n := Z.min n0 size in Some (mkResolved (size - n) (size - 1))
      end
  | Some f =>
      if size <=? f then None
      else
        let l := match last s with Some l => Z.min l (size - 1) | None => size - 1 end in
        if l <? f then None else Some (mkResolved f l)
  end.

Definition contentRange (range : Resolved) (size : Z) : str :=
  $"bytes " ++ to_string (r_first range) ++ $"-" ++ to_string (r_last range) ++ $"/" ++ to_string size.

Definition unsatisfiedContentRange (size : Z) : str := $"bytes */" ++ to_string size.

(** ** handler/Common.cpp *)
Definition kInlineRangeCap : Z := 16 * 1024 * 1024.

Definition weakless (tag : str) : str :=
  match strip_prefix $"W/" tag with Some rest => rest | None => tag end.

(** [noneMatchHits]: the loop of the [rest] view is over the comma-separated
    fields; a view emptied by the last comma ends it, so an empty last field is
    not compared. *)
Fixpoint none_match_loop (items : list str) (etag : str) : bool :=
  match items with
  | [] => false
  | item :: rest =>
      if is_empty item && is_empty rest then false
      else if weakless (trim item) == weakless etag then true
      else none_match_loop rest etag
  end.

Definition noneMatchHits (header etag : str) : bool :=
  if is_empty header then false
  else if trim header == $"*" then true
  else none_match_loop (fields comma header []) etag.

Definition safeContentType (mime : str) (inlineDisposition : bool) : str :=
  if is_empty mime then $"application/octet-stream"
  else if negb inlineDisposition then mime
  else if (starts_with mime $"image/" && (mime !== $"image/svg+xml")) ||
          starts_with mime $"video/" || starts_with mime $"audio/" then mime
  else if mime == $"image/svg+xml" then mime
  else $"application/octet-stream".

(** Header fields: names are compared without case, and [set] replaces. *)
Definition Headers := gmap str str.
Definition set_header (name value : str) (h : Headers) : Headers := <[map tolower name := value]> h.
Definition erase_header (name : str) (h : Headers) : Headers := delete (map tolower name) h.

(** The request as the server reads it: an absent field reads as an empty text. *)
Record HttpRequest := mkHttpRequest {
  is_head : bool; if_none_match : str; range_field : str; if_range : str }.

(** [ServeSpec], with the results of its callbacks for this response: [open_] is
    none when no callback is set, [Some None] when it returns a null reader, and
    [admit_] maps "starts at byte 0" to its verdict.  Readers and [onFinish] are
    opaque handles. *)
Record ServeSpec := mkServe {
  size_ : Z; etag : str; lastModified : Z; contentType : str; contentDisposition_ : str;
  cacheControl : str; extraHeaders : list (str * str); capOpenEndedRanges : bool;
  open_ : option (option Z); admit_ : option (bool -> bool); onFinish : option Z }.

(** A response under construction: the HTTP version and the keep-alive flag, copied
    from the request, are left out. *)
Record StreamResponse := mkStream {
  result_ : Z; headers : Headers; offset : Z; length_ : Z; headOnly : bool;
  reader : option Z; on_finish : option Z }.

Definition addOriginalBytesHardening (s : ServeSpec) : ServeSpec :=
  mkServe (size_ s) (etag s) (lastModified s) (contentType s) (contentDisposition_ s) (cacheControl s)
    (extraHeaders s ++
      [($"X-Content-Type-Options", $"nosniff");
       ($"Content-Security-Policy",
        $"sandbox; default-src 'none'; img-src 'self' data: blob:; media-src 'self' blob:; style-src 'unsafe-inline'");
       ($"Cross-Origin-Resource-Policy", $"same-origin")])
    (capOpenEndedRanges s) (open_ s) (admit_ s) (onFinish s).

(** A response is a stream, or a JSON error of a status, an error code, a message
    and perhaps a Retry-After; its fixed header fields (JSON content type, no-store)
    are left out. *)
Record JsonError := mkJsonError { je_status : Z; je_code : str; je_message : str; je_retry : option str }.
Inductive Response := Stream (r : StreamResponse) | Json (e : JsonError).

Definition jsonError (status : Z) (code message : str) : Response := Json (mkJsonError status code message None).

(** The exceptions the lanes throw; [what] is their message. *)
Inductive Exn :=
| Unauthorized (what : str) | Forbidden (what : str) | NotFound (what : str) | BadRequest (what : str)
| ContentUnavailable (what : str) | IntegrityError (what : str) | Busy (what : str)
| LimitExceeded (what : str) | LengthError (what : str) | InvalidInput (what : str) | OtherException (what : str).

Definition errorFor (e : Exn) : Response :=
  match e with
  | Unauthorized w => jsonError 401 $"unauthorized" w
  | Forbidden w => jsonError 403 $"denied" w
  | NotFound _ => jsonError 404 $"not_found" $"Not found"
  | BadRequest w => jsonError 400 $"invalid" w
  | ContentUnavailable w => Json (mkJsonError 503 $"content_unavailable" w (Some $"30"))
  | IntegrityError _ => jsonError 500 $"integrity_failed" $"The stored content failed its integrity check"
  | Busy _ => Json (mkJsonError 503 $"busy" $"Preview rendering is busy; retry shortly" (Some $"2"))
  | LimitExceeded w | LengthError w => jsonError 413 $"limit_exceeded" w
  | InvalidInput w => jsonError 422 $"invalid_input" w
  | OtherException _ => jsonError 500 $"internal" $"Internal error"
  end.

(** [httpDate]: [gmtime_r] and [strftime] of "%a, %d %b %Y %H:%M:%S GMT" for a
    nonnegative time (the year at least 1970). *)
Definition two (n : Z) : str := (if n <? 10 then $"0" else []) ++ to_string n.
Definition day_names : list str := [$"Sun"; $"Mon"; $"Tue"; $"Wed"; $"Thu"; $"Fri"; $"Sat"].
Definition month_names : list str :=
  [$"Jan"; $"Feb"; $"Mar"; $"Apr"; $"May"; $"Jun"; $"Jul"; $"Aug"; $"Sep"; $"Oct"; $"Nov"; $"Dec"].
Definition civil (days : Z) : Z * Z * Z :=
  let z := days + 719468 in
  let era := z / 146097 in
  let doe := z - era * 146097 in
  let yoe := (doe - doe / 1460 + doe / 36524 - doe / 146096) / 365 in
  let doy := doe - (365 * yoe + yoe / 4 - yoe / 100) in
  let mp := (5 * doy + 2) / 153 in
  let d := doy - (153 * mp + 2) / 5 + 1 in
  let m := if mp <? 10 then mp + 3 else mp - 9 in
  (yoe + era * 400 + (if m <=? 2 then 1 else 0), m, d).
Definition httpDate (t : Z) : str :=
  let days := t / 86400 in
  let s := t mod 86400 in
  let '(y, m, d) := civil days in
  nth (Z.to_nat ((days + 4) mod 7)) day_names [] ++ $", " ++ two d ++ $" " ++
  nth (Z.to_nat (m - 1)) month_names [] ++ $" " ++ to_string y ++ $" " ++
  two (s / 3600) ++ $":" ++ two (s / 60 mod 60) ++ $":" ++ two (s mod 60) ++ $" GMT".

(** The headers set before any branch of [serve]. *)
Definition base_headers (s : ServeSpec) : Headers :=
  let h := set_header $"Accept-Ranges" $"bytes" ∅ in
  let h := set_header $"ETag" (etag s) h in
  let h := if 0 <? lastModified s then set_header $"Last-Modified" (httpDate (lastModified s)) h else h in
  let h := set_header $"Cache-Control" (cacheControl s) h in
  let h := set_header $"X-Accel-Buffering" $"no" h in
  fold_left (fun h '(name, value) => set_header name value h) (extraHeaders s) h.

(** The Range part of [serve]: unsatisfiable, or the bytes to send and the
    Content-Range to set when they are partial. *)
Inductive Selection := Unsatisfiable | Whole | Part (off len : Z) (content_range : str).

Definition if_range_honoured (req : HttpRequest) (s : ServeSpec) : bool :=
  let ifRange := trim (if_range req) in
  is_empty ifRange || (starts_with ifRange ["034"%char] && (ifRange == etag s)).

Definition select (req : HttpRequest) (s : ServeSpec) : Selection :=
  if is_empty (range_field req) then Whole
  else
    match spec (parse (range_field req)), if_range_honoured req s with
    | Some rs, true =>
        match resolve rs (size_ s) with
        | None => Unsatisfiable
        | Some r =>
            let len := length_of r in
            let open_ended := match last rs, first rs with None, Some _ => true | _, _ => false end in
            let len := if capOpenEndedRanges s && open_ended then Z.min len kInlineRangeCap else len in
            Part (r_first r) len
              (contentRange (mkResolved (r_first r) ((r_first r + len - 1) mod 2 ^ 64)) (size_ s))
        end
    | _, _ => Whole
    end.

Definition no_content_reader : str := $"No content reader".

Definition serve (req : HttpRequest) (s : ServeSpec) : result str Response :=
  let h := base_headers s in
  if noneMatchHits (if_none_match req) (etag s) then
    Ok (Stream (mkStream 304 h 0 0 true None (onFinish s)))
  else
    let h := set_header $"Content-Type" (contentType s) h in
    let h := if is_empty (contentDisposition_ s) then h
             else set_header $"Content-Disposition" (contentDisposition_ s) h in
    match select req s with
    | Unsatisfiable =>
        let h := set_header $"Content-Range" (unsatisfiedContentRange (size_ s)) h in
        Ok (Stream (mkStream 416 (erase_header $"Content-Disposition" h) 0 0 false None (onFinish s)))
    | sel =>
        let '(off, len, partial, h) :=
          match sel with
          | Part off len cr => (off, len, true, set_header $"Content-Range" cr h)
          | _ => (0, size_ s, false, h)
          end in
        let status := if partial : bool then 206 else 200 in
        if is_head req then Ok (Stream (mkStream status h off len true None (onFinish s)))
        else if match admit_ s with Some ok => negb (ok (off =? 0)) | None => false end then
          Ok (jsonError 403 $"max_downloads_reached" $"This link's download limit was reached")
        else if 0 <? len then
          match open_ s with
          | Some (Some rd) => Ok (Stream (mkStream status h off len false (Some rd) (onFinish s)))
          | _ => Err no_content_reader
          end
        else Ok (Stream (mkStream status h off len false None (onFinish s)))
    end.

(** ** s3/Error.cpp and the query parameters of s3/Router.cpp *)
Record S3Error := mkS3Error { code : str; message : str; status : Z; resource : str }.
Definition invalidArgument (msg res : str) : S3Error := mkS3Error $"InvalidArgument" msg 400 res.
Definition invalidRange (res : str) : S3Error :=
  mkS3Error $"InvalidRange" $"The requested range is not satisfiable" 416 res.
Definition notImplemented (msg res : str) : S3Error := mkS3Error $"NotImplemented" msg 501 res.

(** The gateway's Range: absent is none; several ranges and malformed headers are
    errors (the web lanes ignore both). *)
Definition parseRange (raw target : str) : result S3Error (option Spec) :=
  if is_empty raw then Ok None
  else
    let parsed := parse raw in
    if multi parsed then Err (notImplemented $"Multipart byte ranges are not supported" target)
    else match malformed parsed, spec parsed with
         | false, Some s => Ok (Some s)
         | _, _ => Err (invalidRange target)
         end.

(** [std::stoul] and [std::stoull] of a digit string: none is [out_of_range]. *)
Definition stoull (digits : str) : option Z :=
  let v := decimal_value digits in if v <=? uint64_max then Some v else None.

Definition parsePartNumber (query : gmap str str) : result S3Error Z :=
  match query !! $"partNumber" with
  | None => Err (invalidArgument $"partNumber must be an integer between 1 and 10000" [])
  | Some text =>
      check negb (is_empty text) && forallb is_digit text
        else invalidArgument $"partNumber must be an integer between 1 and 10000" text in
      match stoull text with
      | None => Err (invalidArgument $"partNumber must be between 1 and 10000" text)
      | Some value =>
          if (value =? 0) || (10000 <? value)
          then Err (invalidArgument $"partNumber must be between 1 and 10000" text)
          else Ok value
      end
  end.

Definition parseMaxKeys (query : gmap str str) : result S3Error Z :=
  match query !! $"max-keys" with
  | None => Ok 1000
  | Some text =>
      check negb (is_empty text) && forallb is_digit text
        else invalidArgument $"max-keys must be a non-negative integer" text in
      match stoull text with
      | None => Err (invalidArgument $"max-keys is too large" text)
      | Some value =>
          if 2 ^ 32 - 1 <? value then Err (invalidArgument $"max-keys is too large" text) else Ok value
      end
  end.

Definition parseEncodingType (query : gmap str str) : result S3Error (option str) :=
  match query !! $"encoding-type" with
  | None => Ok None
  | Some text =>
      if is_empty text then Ok None
      else if text == $"url" then Ok (Some text)
      else Err (invalidArgument $"encoding-type must be url when specified" text)
  end.

(** ** Examples *)
Example range_examples :
  parse $"bytes=0-99" = mkParsedRange (Some (mkSpec (Some 0) (Some 99))) false false /\
  parse $" Bytes= 5 - ,," = mkParsedRange (Some (mkSpec (Some 5) None)) false false /\
  parse $"bytes=-7" = mkParsedRange (Some (mkSpec None (Some 7))) false false /\
  parse $"bytes=0-1,4-5" = mkParsedRange None true false /\
  parse $"bytes=9-3" = malformed_header /\ parse $"bytes=" = malformed_header /\
  parse $"bytes=18446744073709551616-" = malformed_header /\
  contentRange (mkResolved 0 99) 1000 = $"bytes 0-99/1000" /\
  httpDate 1709210096 = $"Thu, 29 Feb 2024 12:34:56 GMT" /\
  httpDate 86399 = $"Thu, 01 Jan 1970 23:59:59 GMT".
Proof. vm_compute. split_and!; reflexivity. Qed.

(** ** Specification *)
(** The bytes a range asks of a representation of [size] bytes. *)
Definition selects (s : Spec) (size i : Z) : Prop :=
  0 <= i < size /\
  match first s, last s with
  | Some a, Some b => a <= i <= b
  | Some a, None => a <= i
  | None, Some n => size - n <= i
  | None, None => False
  end.

(** What [parse] yields: fields of 64 bits, at least one, in order. *)
Definition wf_spec (s : Spec) : Prop :=
  match first s, last s with
  | Some a, Some b => uint64 a /\ uint64 b /\ a <= b
  | Some a, None => uint64 a
  | None, Some n => uint64 n
  | None, None => False
  end.

Definition spec_text (s : Spec) : str :=
  match first s with Some a => to_string a | None => [] end ++ [minus] ++
  match last s with Some b => to_string b | None => [] end.

Lemma resolve_exact s size : wf_spec s -> uint64 size ->
  match resolve s size with
  | Some r => 0 <= r_first r <= r_last r /\ r_last r < size /\ length_of r = r_last r - r_first r + 1 /\
              forall i, selects s size i <-> r_first r <= i <= r_last r
  | None => forall i, ~ selects s size i
  end.
Proof.
  unfold wf_spec, uint64, selects, resolve. destruct s as [[a|] [b|]]; cbn [first last]; try done; intros Hs Hsize.
  - destruct (Z.eqb_spec size 0); [lia|]. destruct (Z.leb_spec size a); [lia|].
    destruct (Z.ltb_spec (Z.min b (size - 1)) a); [lia|]. unfold length_of. cbn [r_first r_last].
    rewrite Z.mod_small by lia. split_and!; lia.
  - destruct (Z.eqb_spec size 0); [lia|]. destruct (Z.leb_spec size a); [lia|].
    destruct (Z.ltb_spec (size - 1) a); [lia|]. unfold length_of. cbn [r_first r_last].
    rewrite Z.mod_small by lia. split_and!; lia.
  - destruct (Z.eqb_spec size 0); [lia|]. destruct (Z.eqb_spec b 0); [lia|]. unfold length_of. cbn [r_first r_last].
    rewrite Z.mod_small by lia. split_and!; lia.
Qed.

(** *** Reading back a printed range *)
Lemma digits_not_blank s : forallb is_digit s = true -> trim s = s.
Proof.
  intros Hs. apply (trim_by_none is_blank is_digit); [done|]. intros c Hc. unfold is_blank.
  destruct (c == " "%char) eqn:E1; bsimpl; [by subst|]. destruct (c == "009"%char) eqn:E2; bsimpl; [by subst|]. done.
Qed.

Lemma number_to_string n : uint64 n -> number (to_string n) = Some n.
Proof.
  intros Hn. destruct (to_string_spec n Hn) as (Hne & Hd & Hv). unfold number.
  rewrite Hd, Hv. destruct (to_string n); [done|]. cbn [is_empty orb negb]. cbv zeta.
  rewrite (proj2 (Z.leb_le _ _)); [done|]. unfold uint64, uint64_max in *. lia.
Qed.

Lemma is_digit_value c : is_digit c = true -> 0 <= digit_value c.
Proof.
  unfold is_digit, in_chars, digit_value. rewrite andb_true_iff, !Nat.leb_le.
  change (Ascii.nat_of_ascii "0") with 48%nat. lia.
Qed.

Lemma number_uint64 v n : number v = Some n -> uint64 n.
Proof.
  unfold number. destruct (is_empty v || negb (forallb is_digit v)) eqn:E; [done|]. cbv zeta.
  destruct (Z.leb_spec (decimal_value v) uint64_max); [|done]. intros [= <-].
  bsimpl. unfold uint64, uint64_max in *. split; [|lia].
  assert (Hpos : forall s acc, forallb is_digit s = true -> 0 <= acc -> 0 <= digits_to acc s).
  { induction s as [|c s IH]; intros acc Hs Hacc; [done|]. cbn [forallb] in Hs. bsimpl.
    unfold digits_to. cbn [fold_left]. apply IH; [done|]. pose proof (is_digit_value c ltac:(done)). lia. }
  by apply Hpos.
Qed.

Lemma digits_no c s : forallb is_digit s = true -> is_digit c = false -> c ∉ s.
Proof. apply forallb_not_elem. Qed.

Definition range_char (c : Ascii.ascii) : bool := is_digit c || (c == minus).

Lemma range_char_spec c : range_char c = true -> is_blank c = false /\ c <> comma.
Proof.
  unfold range_char. intros Hc. split; [|intros ->; by vm_compute in Hc].
  destruct (is_blank c) eqn:E; [|done]. unfold is_blank in E.
  apply orb_true_iff in E as [E|E]; rewrite eqb_eq in E; subst; vm_compute in Hc; discriminate.
Qed.

Lemma spec_text_chars s : wf_spec s -> forallb range_char (spec_text s) = true.
Proof.
  intros Hs. assert (Hd : forall n, uint64 n -> forallb range_char (to_string n) = true).
  { intros n Hn. destruct (to_string_spec n Hn) as (_ & H & _). rewrite forallb_forall in *.
    intros c Hc. unfold range_char. rewrite (H c Hc). reflexivity. }
  unfold spec_text. rewrite !forallb_app. change (forallb range_char [minus]) with true.
  unfold wf_spec in Hs. destruct s as [[a|] [b|]]; cbn [first last] in *; rewrite ?Hd by tauto; done.
Qed.

Lemma spec_text_trim s : wf_spec s -> trim (spec_text s) = spec_text s.
Proof.
  intros Hs. apply (trim_by_none is_blank range_char); [by apply spec_text_chars|]. apply range_char_spec.
Qed.

Lemma parseOne_spec_text s : wf_spec s -> parseOne (spec_text s) = Some s.
Proof.
  intros Hs. unfold parseOne. rewrite spec_text_trim by done.
  assert (Hd : forall n, uint64 n -> minus ∉ to_string n /\ trim (to_string n) = to_string n /\
                 is_empty (to_string n) = false).
  { intros n Hn. destruct (to_string_spec n Hn) as (Hne & H & _). split_and!.
    - by apply digits_no.
    - by apply digits_not_blank.
    - by destruct (to_string n). }
  unfold spec_text, wf_spec in *. destruct s as [[a|] [b|]]; cbn [first last] in *; try done.
  - destruct Hs as (Ha & Hb & Hab). destruct (Hd a Ha) as (H1 & H2 & H3), (Hd b Hb) as (_ & H4 & H5).
    cbn [app]. rewrite split_first_app, H2, H3, number_to_string, H4, H5, number_to_string by done.
    by rewrite (proj2 (Z.ltb_ge _ _)) by lia.
  - destruct (Hd a Hs) as (H1 & H2 & H3). cbn [app].
    rewrite split_first_app, H2, H3, number_to_string by done. done.
  - destruct (Hd b Hs) as (H1 & H2 & H3). cbn [app]. cbn [split_first]. rewrite eqb_refl.
    rewrite H2. change (is_empty (trim [])) with true. cbv iota. by rewrite number_to_string.
Qed.

Lemma parseOne_wf item s : parseOne item = Some s -> wf_spec s.
Proof.
  unfold parseOne. destruct (split_first minus (trim item)) as [[b a]|]; [|done]. cbv zeta.
  case_if.
  - destruct (number (trim a)) eqn:En; [|done]. intros [= <-]. by apply number_uint64 in En.
  - destruct (number (trim b)) as [f|] eqn:Ef; [|done]. apply number_uint64 in Ef.
    case_if; [by intros [= <-]|]. destruct (number (trim a)) as [l|] eqn:El; [|done]. apply number_uint64 in El.
    destruct (Z.ltb_spec l f); [done|]. by intros [= <-].
Qed.

Lemma parse_items_wf items n f m g :
  parse_items items n f = Some (m, g) ->
  (n = O -> f = None) -> (forall s, f = Some s -> wf_spec s) -> (n <> O -> is_Some f) ->
  (m = O -> g = None) /\ (forall s, g = Some s -> wf_spec s) /\ (m <> O -> is_Some g).
Proof.
  revert n f; induction items as [|i items IH]; intros n f; cbn [parse_items].
  - intros [= <- <-]. auto.
  - case_if; [apply IH|]. destruct (parseOne i) as [s|] eqn:Es; [|done]. intros H Hn Hf Hn'.
    apply (IH _ _ H); [done| |].
    + case_if; [intros ? [= <-]; by eapply parseOne_wf|done].
    + case_if; [eauto|]. apply Nat.eqb_neq in E0. auto.
Qed.

Lemma fields_single c s cur : c ∉ s -> fields c s cur = [rev cur ++ s].
Proof.
  revert cur; induction s as [|x s IH]; intros cur Hc; cbn [fields]; [by rewrite app_nil_r|].
  rewrite (proj2 (eqb_neq x c)) by set_solver. rewrite IH by set_solver. cbn [rev]. by rewrite <- app_assoc.
Qed.

Lemma spec_text_nonempty s : spec_text s <> [].
Proof. unfold spec_text. destruct (first s); [by destruct (to_string z)|done]. Qed.

Lemma header_trim u s : wf_spec s -> map tolower u = $"bytes" ->
  trim (u ++ $"=" ++ spec_text s) = u ++ $"=" ++ spec_text s.
Proof.
  intros Hs Hu. apply trim_by_id.
  - destruct u as [|c u]; [done|]. cbn [app]. destruct (is_blank c) eqn:E; [|done]. unfold is_blank in E.
    apply orb_true_iff in E as [E|E]; rewrite eqb_eq in E; subst; discriminate Hu.
  - pose proof (spec_text_chars s Hs) as Hc. rewrite forallb_forall in Hc.
    rewrite !rev_app_distr. pose proof (spec_text_nonempty s) as Hne.
    destruct (rev (spec_text s)) as [|c r] eqn:Er.
    { destruct Hne. by rewrite <- (rev_involutive (spec_text s)), Er. }
    cbn [app]. apply range_char_spec, Hc, in_rev. rewrite Er. by left.
Qed.

Lemma parse_spec_text u s : wf_spec s -> map tolower u = $"bytes" ->
  parse (u ++ $"=" ++ spec_text s) = mkParsedRange (Some s) false false.
Proof.
  intros Hs Hu. unfold parse. cbv zeta. rewrite header_trim by done.
  assert (Hlen : length u = 5%nat) by (rewrite <- (length_map tolower), Hu; done).
  change (length $"bytes") with 5%nat. rewrite <- Hlen.
  rewrite length_app, take_app_length, Hu, eqb_refl. cbn [negb].
  replace (S (length u)) with (length (u ++ $"=")) by (rewrite length_app; change (length $"=") with 1%nat; lia).
  rewrite lookup_app_r, Nat.sub_diag by lia. rewrite (app_assoc u), drop_app_length.
  rewrite fields_single; [|intros Hin; apply list_elem_of_In in Hin; pose proof (spec_text_chars s Hs) as Hc;
    rewrite forallb_forall in Hc; by apply Hc, range_char_spec in Hin as [_ ?]].
  cbn [rev app parse_items]. rewrite spec_text_trim, parseOne_spec_text by done.
  rewrite (proj2 (Nat.leb_gt _ _)) by (rewrite ?length_app; change (length $"=") with 1%nat; lia). cbn [orb].
  rewrite bool_decide_true by done.
  pose proof (spec_text_nonempty s) as Hne. by destruct (spec_text s).
Qed.

Lemma parse_outcomes h :
  (exists s, wf_spec s /\ parse h = mkParsedRange (Some s) false false) \/
  parse h = mkParsedRange None true false \/ parse h = malformed_header.
Proof.
  unfold parse. cbv zeta. case_if; [auto|]. case_if; [auto|].
  destruct (parse_items _ _ _) as [[n g]|] eqn:Ep; [|auto].
  destruct (parse_items_wf _ _ _ _ _ Ep) as (H1 & H2 & H3); [done..|].
  case_if; [auto|]. case_if; [auto|]. apply Nat.eqb_neq in E1. destruct (H3 E1) as [s ->]. left. eauto.
Qed.

(** Range headers: the text of any well-formed range (64-bit bounds in order),
    under the unit "bytes" in any case, parses to exactly that range; and every
    header parses to exactly one of a single well-formed range, "several ranges"
    and "malformed". *)
Theorem range_header_exact :
  (forall u s, wf_spec s -> map tolower u = $"bytes" ->
     parse (u ++ $"=" ++ spec_text s) = mkParsedRange (Some s) false false) /\
  (forall h, (exists s, wf_spec s /\ parse h = mkParsedRange (Some s) false false) \/
     parse h = mkParsedRange None true false \/ parse h = mkParsedRange None false true).
Proof. split; [apply parse_spec_text|apply parse_outcomes]. Qed.

Lemma range_header_exact_witness :
  parse ($"BYTES" ++ $"=" ++ spec_text (mkSpec (Some 7) (Some 18446744073709551615))) =
    mkParsedRange (Some (mkSpec (Some 7) (Some 18446744073709551615))) false false.
Proof.
  apply (proj1 range_header_exact); [|reflexivity]. unfold wf_spec, uint64. cbn [first last]. lia.
Defined.

(** *** The representation server *)
(** The If-Range condition is absent, or a strong entity tag that is the representation's. *)
Definition range_applies (req : HttpRequest) (s : ServeSpec) : Prop :=
  trim (if_range req) = [] \/ (trim (if_range req) = etag s /\ exists rest, etag s = "034"%char :: rest).
Lemma honoured_applies req s : if_range_honoured req s = true -> range_applies req s.
Proof.
  unfold if_range_honoured, range_applies. cbv zeta. intros Hh. bsimpl. destruct Hh as [Hh|[Hq E]].
  - left. by apply is_empty_true.
  - right. bsimpl. split; [done|]. rewrite E in Hq. apply starts_with_spec in Hq as [rest ->]. by exists rest.
Qed.
Lemma select_exact req s : uint64 (size_ s) ->
  match select req s with
  | Whole => True
  | Unsatisfiable => exists rs, spec (parse (range_field req)) = Some rs /\ forall i, ~ selects rs (size_ s) i
  | Part off len cr => exists rs, spec (parse (range_field req)) = Some rs /\ range_applies req s /\
      0 <= off /\ 0 < len /\ off + len <= size_ s /\ cr = contentRange (mkResolved off (off + len - 1)) (size_ s) /\
      (forall i, off <= i < off + len -> selects rs (size_ s) i) /\
      (forall i, selects rs (size_ s) i -> off <= i /\
         (i < off + len \/ capOpenEndedRanges s = true /\ last rs = None /\ len = kInlineRangeCap))
  end.
Proof.
  intros Hsize. unfold select. case_if; [done|].
  destruct (parse_outcomes (range_field req)) as [(rs & Hwf & Hp)|[Hp|Hp]];
    rewrite Hp; cbn [spec malformed_header]; [|done..].
  destruct (if_range_honoured req s) eqn:Eh; [|done].
  pose proof (resolve_exact rs (size_ s) Hwf Hsize) as Hr.
  destruct (resolve rs (size_ s)) as [[a b]|]; [|by eauto].
  cbn [r_first r_last] in *. destruct Hr as (Hb & Hbs & -> & Hsel). unfold uint64 in Hsize.
  exists rs. cbv zeta.
  set (c := capOpenEndedRanges s && _).
  set (len := if c then Z.min (b - a + 1) kInlineRangeCap else b - a + 1).
  assert (Hlen : 0 < len <= b - a + 1 /\
    (len = b - a + 1 \/ capOpenEndedRanges s = true /\ last rs = None /\ len = kInlineRangeCap)).
  { unfold len, c, kInlineRangeCap. destruct (capOpenEndedRanges s); cbn [andb]; [|lia].
    destruct (last rs); [lia|]. destruct (first rs); [|lia].
    destruct (Z.min_spec (b - a + 1) (16 * 1024 * 1024)) as [[? ->]|[? ->]]; split; auto; lia. }
  destruct Hlen as [Hlen Hcap]. rewrite Z.mod_small by lia.
  split_and!; [done|by apply honoured_applies|lia..|done| |].
  - intros i Hi. apply Hsel. lia.
  - intros i Hi%Hsel. split; [lia|]. destruct Hcap as [->|?]; [left; lia|by right].
Qed.

(** C39. The representation server sends exactly the bytes asked for: a stream
    response never leaves the representation and opens a reader only for a GET
    with bytes to send; a 206 covers bytes the (single, well-formed) range
    selects, with no If-Range or one that is the representation's own strong tag,
    all of them unless an open-ended inline range was capped at 16 MiB, and its Content-Range names the bytes sent; a 416 means the
    range selects no byte; a 200 is the whole representation; a 304 sends none. *)
Theorem serve_sends_selected_bytes req s r :
  uint64 (size_ s) -> serve req s = Ok (Stream r) ->
  0 <= offset r /\ 0 <= length_ r /\ offset r + length_ r <= size_ s /\
  (reader r <> None -> is_head req = false /\ 0 < length_ r) /\
  ((result_ r = 304 /\ noneMatchHits (if_none_match req) (etag s) = true /\ length_ r = 0) \/
   (result_ r = 200 /\ offset r = 0 /\ length_ r = size_ s) \/
   (exists rs, spec (parse (range_field req)) = Some rs /\
     ((result_ r = 416 /\ length_ r = 0 /\ forall i, ~ selects rs (size_ s) i) \/
      (result_ r = 206 /\ range_applies req s /\ 0 < length_ r /\
       headers r !! $"content-range" =
         Some (contentRange (mkResolved (offset r) (offset r + length_ r - 1)) (size_ s)) /\
       (forall i, offset r <= i < offset r + length_ r -> selects rs (size_ s) i) /\
       (forall i, selects rs (size_ s) i -> offset r <= i /\
          (i < offset r + length_ r \/
           capOpenEndedRanges s = true /\ last rs = None /\ length_ r = kInlineRangeCap)))))).
Proof.
  intros Hsize. pose proof Hsize as [Hs0 _]. unfold serve. cbv zeta.
  destruct (noneMatchHits _ _) eqn:En.
  { intros [= <-]. cbn. split_and!; try lia; done. }
  pose proof (select_exact req s Hsize) as Hsel.
  destruct (select req s) as [| |off len cr].
  - destruct Hsel as (rs & Hp & Hn). intros [= <-]. cbn. split_and!; try lia; [done|]. right; right. eauto 10.
  - destruct (is_head req); [intros [= <-]; cbn; split_and!; try lia; done|].
    case_if; [done|]. destruct (Z.ltb_spec 0 (size_ s)).
    + destruct (open_ s) as [[rd|]|]; [|done..]. intros [= <-]. cbn. split_and!; try lia; done.
    + intros [= <-]. cbn. split_and!; try lia; done.
  - destruct Hsel as (rs & Hp & Hh & H0 & H1 & H2 & -> & Hsub & Hsup).
    rewrite (proj2 (Z.ltb_lt _ _)) by done.
    destruct (is_head req); [|case_if; [done|]; destruct (open_ s) as [[rd|]|]; [|done..]]; intros [= <-];
      cbn [offset length_ reader result_ headers]; (split_and!; try lia; try done);
      right; right; exists rs; (split; [done|]); right; (split_and!; try done); apply lookup_insert_eq.
Qed.

Module Demo.
Definition video : ServeSpec :=
  mkServe 50000000 ["034"%char; "e"%char; "034"%char] 0 $"video/mp4" [] $"private, no-transform" [] true
    (Some (Some 1)) None None.
Definition seek : HttpRequest := mkHttpRequest false [] $"bytes=1000-" [].
Definition seek_response : StreamResponse :=
  mkStream 206
    (set_header $"Content-Range" $"bytes 1000-16778215/50000000"
      (set_header $"Content-Type" $"video/mp4" (base_headers video))) 1000 kInlineRangeCap false (Some 1) None.
End Demo.

Lemma serve_sends_selected_bytes_witness :
  serve Demo.seek Demo.video = Ok (Stream Demo.seek_response) /\
  offset Demo.seek_response + length_ Demo.seek_response <= size_ Demo.video.
Proof.
  assert (serve Demo.seek Demo.video = Ok (Stream Demo.seek_response)) as H by (vm_compute; reflexivity).
  split; [exact H|]. apply (serve_sends_selected_bytes Demo.seek Demo.video); [|exact H].
  unfold uint64. cbn. lia.
Defined.
