(* ===== verification/S3Policy.v ===== *)
(** * S3 gateway policy: what a gateway credential may do

    [rbac/s3/policy/Evaluator.cpp] and [rbac/s3/policy/Decision.cpp], with the
    credential's effective role as [db/query/s3/Gateway.cpp] assembles it (the
    SQL queries are the interface [GatewayDb]; the merge of the override lists
    is modelled). *)
From S2P Require Import Prelude Paths Glob Perm FsPolicy.
Local Open Scope Z_scope.

Inductive S3Action :=
| ListBuckets | HeadBucket | CreateBucket | DeleteBucket | ListObjects | HeadObject | GetObject
| PutObject | DeleteObject | DeleteObjects | CopyObjectSource | CopyObjectDestination
| CreateMultipartUpload | UploadPart | CompleteMultipartUpload | AbortMultipartUpload
| ListMultipartUploads | ListParts | ManageBucketBinding | ManageCredential | ManageBudget.

Inductive S3Reason :=
| S3Allowed | MissingPrincipal | MissingVault | NoFilesystemMapping | PrincipalRbacDenied
| GlobalPrincipalRequired | MissingDefaultRole | VaultNotSelected | EffectiveCredentialRoleDenied
| DefaultRoleDenied | PerVaultOverrideDenied | CredentialRoleMissing | CredentialRoleDenied.

Record S3Decision := mkS3Decision {
  s3_allowed : bool; s3_reason : S3Reason; principal_allowed : bool; credential_allowed : bool;
  credential_decision : option Decision }.

(** The principal as the evaluator reads it: its authorization view and
    [User::isAdmin] (which, like [isSuperAdmin], needs an authorizing account). *)
Record Principal := mkPrincipal { p_view : View; p_isAdmin : bool }.
Definition isSuperAdmin (p : Principal) : bool := authorizing (p_view p) && superAdmin (p_view p).
Definition isAdmin (p : Principal) : bool := authorizing (p_view p) && p_isAdmin p.

Record S3PolicyRequest := mkS3Request {
  principal : option Principal; credential_id : Z; scope_mode : str; s3_vault_id : Z;
  vault_path : str; fuse_path : option str; action : S3Action;
  object_exists : bool; is_directory_marker : bool; target_user_id : option Z }.

(** ** The database of the gateway *)
Record SelectedVault := mkSelected { sv_vault_id : Z; sv_enabled : bool }.
Record DefaultVaultRole := mkDefaultRole { dr_enabled : bool }.

(** One row of a role assignment: its id and the role's permissions without
    overrides. *)
Record RoleRow := mkRoleRow { assignment_id : Z; row_files : Files; row_directories : Directories }.

Class GatewayDb := {
  listCredentialSelectedVaults : Z -> list SelectedVault;
  getCredentialDefaultVaultRole : Z -> option DefaultVaultRole;
  selectedVaultRow : Z -> Z -> bool;
  credentialDefaultRoleRow : Z -> Z -> option RoleRow;
  credentialVaultRoleRow : Z -> Z -> option RoleRow;
  credentialDefaultRoleOverrides : Z -> list Override;
  credentialRoleOverrides : Z -> list Override;
  permission_id : str -> Z
}.

Definition glob_path (o : Override) : str := source (pattern o).

Section Db.
Context `{GatewayDb}.

(** A per-vault rule replaces the default rule of the same permission and path,
    or is appended. *)
Definition same_rule (candidate rule : Override) : bool :=
  (permission_id (qualified_name candidate) =? permission_id (qualified_name rule)) &&
  (glob_path candidate == glob_path rule).

Fixpoint put_rule (defaults : list Override) (rule : Override) : list Override :=
  match defaults with
  | [] => [rule]
  | d :: ds => if same_rule d rule then rule :: ds else d :: put_rule ds rule
  end.

Definition mergeDefaultAndPerVaultOverrides (defaults perVault : list Override) : list Override :=
  fold_left put_rule perVault defaults.

Definition getEffectiveCredentialVaultRole (credentialId vaultId : Z) (scopeMode : str) : option Filesystem :=
  if scopeMode == $"user_access" then None
  else if (scopeMode == $"vault_allowlist") && negb (selectedVaultRow credentialId vaultId) then None
  else
    match credentialDefaultRoleRow credentialId vaultId with
    | None => None
    | Some defaultRole =>
        let overrides := credentialDefaultRoleOverrides (assignment_id defaultRole) in
        let '(roleRow, overrides) :=
          match credentialVaultRoleRow credentialId vaultId with
          | Some perVaultRole =>
              (perVaultRole, mergeDefaultAndPerVaultOverrides overrides
                               (credentialRoleOverrides (assignment_id perVaultRole)))
          | None => (defaultRole, overrides)
          end in
        Some (mkFilesystem (row_files roleRow) (row_directories roleRow) overrides)
    end.
End Db.

(** ** Evaluator.cpp *)
Definition principalHas `{FsEnv} (request : S3PolicyRequest) (a : FilesystemAction) : bool :=
  match principal request with
  | None => false
  | Some p =>
      if isSuperAdmin p then true
      else has (Some (p_view p)) a (Some (s3_vault_id request))
             (Some (default (vault_path request) (fuse_path request))) None
  end.

Definition filesystemActionFor (a : S3Action) (objectExists isDirectoryMarker : bool) : option FilesystemAction :=
  match a with
  | ListBuckets | HeadBucket | ListObjects | ListMultipartUploads => Some List_
  | HeadObject | GetObject | CopyObjectSource | ListParts => Some Read
  | PutObject | CopyObjectDestination | CreateMultipartUpload | UploadPart | CompleteMultipartUpload =>
      if isDirectoryMarker then Some Touch else if objectExists then Some Overwrite else Some Write
  | DeleteObject | DeleteObjects | AbortMultipartUpload => Some Delete
  | CreateBucket | DeleteBucket | ManageBucketBinding | ManageCredential | ManageBudget => None
  end.

Definition default_role_enabled `{GatewayDb} (credential : Z) : bool :=
  match getCredentialDefaultVaultRole credential with Some r => dr_enabled r | None => false end.

Definition s3_evaluate `{FsEnv} `{GatewayDb} (request : S3PolicyRequest) : S3Decision :=
  let cred_denied r := mkS3Decision false r true false None in
  match principal request with
  | None => mkS3Decision false MissingPrincipal false false None
  | Some p =>
      if s3_vault_id request =? 0 then mkS3Decision false MissingVault false false None
      else match filesystemActionFor (action request) (object_exists request) (is_directory_marker request) with
      | None => mkS3Decision false NoFilesystemMapping false false None
      | Some fsAction =>
          if negb (principalHas request fsAction) then mkS3Decision false PrincipalRbacDenied false false None
          else if credential_id request =? 0 then mkS3Decision true S3Allowed true true None
          else if scope_mode request == $"user_access" then mkS3Decision true S3Allowed true true None
          else if (scope_mode request == $"global") && negb (isAdmin p) then cred_denied GlobalPrincipalRequired
          else if (scope_mode request == $"vault_allowlist") &&
                  negb (existsb (fun v => (sv_vault_id v =? s3_vault_id request) && sv_enabled v)
                          (listCredentialSelectedVaults (credential_id request))) then
            cred_denied VaultNotSelected
          else if ((scope_mode request == $"vault_allowlist") || (scope_mode request == $"global")) &&
                  negb (default_role_enabled (credential_id request)) then
            cred_denied MissingDefaultRole
          else match getEffectiveCredentialVaultRole (credential_id request) (s3_vault_id request) (scope_mode request) with
          | None => cred_denied CredentialRoleMissing
          | Some credentialRole =>
              let d := evaluateResolved credentialRole
                         (mkResolved fsAction (vault_path request) (object_exists request)
                            (is_directory_marker request || (vault_path request == $"/"))) in
              if negb (allowed d) then mkS3Decision false EffectiveCredentialRoleDenied true false (Some d)
              else mkS3Decision true S3Allowed true true (Some d)
          end
      end
  end.

(** ** ObjectStore.cpp: the gateway's uses of the evaluator *)
Definition s3ActionForFilesystemAction (a : FilesystemAction) : S3Action :=
  match a with
  | List_ => ListObjects
  | Read | Lookup | Preview => GetObject
  | Delete => DeleteObject
  | Write | Touch | Overwrite | Rename | Move | Copy | Link => PutObject
  | ShareInternal | SharePublic | SharePublicValidated => GetObject
  end.

Record GatewayAccessContext := mkAccess { dev_context : bool; access_credential_id : Z; access_scope_mode : str }.

Definition credentialAllows `{FsEnv} `{GatewayDb} (access : GatewayAccessContext) (actor : option Principal)
  (vaultId : Z) (a : FilesystemAction) : bool :=
  if dev_context access || (access_credential_id access =? 0) then true
  else match actor with
  | None => false
  | Some _ =>
      if vaultId =? 0 then false
      else s3_allowed (s3_evaluate (mkS3Request actor (access_credential_id access) (access_scope_mode access)
                         vaultId $"/" (Some $"/") (s3ActionForFilesystemAction a) true true None))
  end.

(** [ResolvedBucket]: the fields the checks read. *)
Record Bucket := mkBucket {
  gateway_access : option GatewayAccessContext; bucket_engine : option Engine;
  bucket_actor : option Principal; bucket_vault_id : Z }.

Definition credentialAllowsAdmin `{FsEnv} `{GatewayDb} (bucket : Bucket) : bool :=
  match gateway_access bucket with
  | None => true
  | Some access =>
      if dev_context access || (access_credential_id access =? 0) then true
      else match bucket_engine bucket with
      | None => false
      | Some engine =>
          s3_allowed (s3_evaluate (mkS3Request (bucket_actor bucket) (access_credential_id access)
            (access_scope_mode access) (bucket_vault_id bucket) $"/" (Some (vaultPathToFusePath engine $"/"))
            DeleteObject true true None))
      end
  end.

(** ** Decision.cpp *)
Definition s3_reasonToString (r : S3Reason) : str :=
  match r with
  | S3Allowed => $"allowed" | MissingPrincipal => $"missing_principal" | MissingVault => $"missing_vault"
  | NoFilesystemMapping => $"no_filesystem_mapping" | PrincipalRbacDenied => $"principal_rbac_denied"
  | GlobalPrincipalRequired => $"global_principal_required" | MissingDefaultRole => $"missing_default_role"
  | VaultNotSelected => $"vault_not_selected"
  | EffectiveCredentialRoleDenied => $"effective_credential_role_denied"
  | DefaultRoleDenied => $"default_role_denied" | PerVaultOverrideDenied => $"per_vault_override_denied"
  | CredentialRoleMissing => $"credential_role_missing" | CredentialRoleDenied => $"credential_role_denied"
  end.

Definition s3_actionToString (a : S3Action) : str :=
  match a with
  | ListBuckets => $"ListBuckets" | HeadBucket => $"HeadBucket" | CreateBucket => $"CreateBucket"
  | DeleteBucket => $"DeleteBucket" | ListObjects => $"ListObjects" | HeadObject => $"HeadObject"
  | GetObject => $"GetObject" | PutObject => $"PutObject" | DeleteObject => $"DeleteObject"
  | DeleteObjects => $"DeleteObjects" | CopyObjectSource => $"CopyObjectSource"
  | CopyObjectDestination => $"CopyObjectDestination" | CreateMultipartUpload => $"CreateMultipartUpload"
  | UploadPart => $"UploadPart" | CompleteMultipartUpload => $"CompleteMultipartUpload"
  | AbortMultipartUpload => $"AbortMultipartUpload" | ListMultipartUploads => $"ListMultipartUploads"
  | ListParts => $"ListParts" | ManageBucketBinding => $"ManageBucketBinding"
  | ManageCredential => $"ManageCredential" | ManageBudget => $"ManageBudget"
  end.

(** The [toString] of a decision. *)
Definition bool_text (b : bool) : str := if b then $"true" else $"false".

Definition s3_toString (d : S3Decision) : str :=
  $"S3 policy decision: " ++ s3_reasonToString (s3_reason d) ++
  $", principal_allowed=" ++ bool_text (principal_allowed d) ++
  $", credential_allowed=" ++ bool_text (credential_allowed d) ++
  match credential_decision d with
  | Some c => $", credential_fs_reason=" ++ fs_reasonToString (reason c)
  | None => []
  end.

(** ** Theorems *)
Section Merge.
Context `{GatewayDb}.

(** The key under which two rules are the same. *)
Definition rule_key (o : Override) : Z * str := (permission_id (qualified_name o), glob_path o).
Definition rule_of (k : Z * str) (rules : list Override) : option Override :=
  List.find (fun o => bool_decide (rule_key o = k)) rules.

Lemma same_rule_key a b : same_rule a b = bool_decide (rule_key a = rule_key b).
Proof.
  unfold same_rule, rule_key. apply eq_true_iff_eq.
  rewrite andb_true_iff, Z.eqb_eq, eqb_eq, bool_decide_eq_true. split; [by intros [-> ->]|by intros [= -> ->]].
Qed.

Lemma put_rule_lookup k d r :
  rule_of k (put_rule d r) = if bool_decide (rule_key r = k) then Some r else rule_of k d.
Proof.
  unfold rule_of. induction d as [|x d IH]; cbn [put_rule List.find]; [done|]. rewrite same_rule_key.
  destruct (bool_decide (rule_key x = rule_key r)) eqn:E; cbn [List.find].
  - rewrite bool_decide_eq_true in E. rewrite E. by case_if.
  - rewrite bool_decide_eq_false in E. rewrite IH.
    destruct (bool_decide (rule_key x = k)) eqn:E2; [|done]. rewrite bool_decide_eq_true in E2. subst.
    by rewrite bool_decide_false by congruence.
Qed.

Lemma put_rule_keys d r :
  map rule_key (put_rule d r) = if bool_decide (rule_key r ∈ map rule_key d) then map rule_key d
                                else map rule_key d ++ [rule_key r].
Proof.
  induction d as [|x d IH]; cbn [put_rule map]; [done|]. rewrite same_rule_key.
  destruct (bool_decide (rule_key x = rule_key r)) eqn:E; bsimpl; cbn [map].
  - rewrite E. by rewrite bool_decide_true by apply list_elem_of_here.
  - rewrite IH, (bool_decide_ext (rule_key r ∈ rule_key x :: map rule_key d) (rule_key r ∈ map rule_key d))
      by (rewrite elem_of_cons; naive_solver).
    by case_if.
Qed.

Lemma put_rule_nodup d r : NoDup (map rule_key d) -> NoDup (map rule_key (put_rule d r)).
Proof.
  intros Hd. rewrite put_rule_keys. case_bool_decide; [done|].
  apply NoDup_app. split_and!; [done| |apply NoDup_singleton]. intros x Hx ->%list_elem_of_singleton. done.
Qed.

Lemma merge_lookup k d p :
  rule_of k (mergeDefaultAndPerVaultOverrides d p) =
  match rule_of k (rev p) with Some r => Some r | None => rule_of k d end.
Proof.
  unfold mergeDefaultAndPerVaultOverrides. induction p as [|r p IH] using rev_ind; [done|].
  rewrite fold_left_app, rev_app_distr. cbn [fold_left rev app]. rewrite put_rule_lookup, IH.
  unfold rule_of at 3. cbn [List.find]. by case_if.
Qed.

Lemma merge_nodup d p : NoDup (map rule_key d) -> NoDup (map rule_key (mergeDefaultAndPerVaultOverrides d p)).
Proof.
  unfold mergeDefaultAndPerVaultOverrides. revert d; induction p as [|r p IH]; intros d Hd; [done|].
  by apply IH, put_rule_nodup.
Qed.
End Merge.

Section Gate.
Context `{GatewayDb}.

Lemma selected_spec credential vault :
  existsb (fun v => (sv_vault_id v =? vault) && sv_enabled v) (listCredentialSelectedVaults credential) = true <->
  exists v, v ∈ listCredentialSelectedVaults credential /\ sv_vault_id v = vault /\ sv_enabled v = true.
Proof.
  rewrite existsb_exists. split; intros (v & Hin & Hv); exists v.
  - apply andb_true_iff in Hv as [?%Z.eqb_eq ?]. split_and!; [by apply list_elem_of_In|done..].
  - split; [by apply list_elem_of_In|]. apply andb_true_iff. by rewrite Z.eqb_eq.
Qed.

Lemma default_role_spec credential :
  default_role_enabled credential = true <->
  exists r, getCredentialDefaultVaultRole credential = Some r /\ dr_enabled r = true.
Proof. unfold default_role_enabled. destruct (getCredentialDefaultVaultRole credential); naive_solver. Qed.
End Gate.

(** Merging a credential's rules: for every permission and path the merged
    list answers with the last per-vault rule, and with the default rule only when
    no per-vault rule has that key; defaults with distinct keys stay distinct. *)
Theorem per_vault_rules_win `{GatewayDb} defaults perVault :
  NoDup (map rule_key defaults) ->
  NoDup (map rule_key (mergeDefaultAndPerVaultOverrides defaults perVault)) /\
  forall k, rule_of k (mergeDefaultAndPerVaultOverrides defaults perVault) =
            match rule_of k (rev perVault) with Some r => Some r | None => rule_of k defaults end.
Proof. intros Hd. split; [by apply merge_nodup|]. intros k. apply merge_lookup. Qed.

(** C28. A gateway credential never widens its principal: a request is allowed
    exactly when the action maps to a filesystem action the principal itself has
    on the vault and, unless there is no credential or its scope is the user's
    access, the credential's effective role allows the action too, a global scope
    belongs to an admin, an allow-listed scope has the vault enabled, and both
    scopes have an enabled default role.  The decision's flags agree with it. *)
Theorem s3_allowed_iff `{FsEnv} `{GatewayDb} req :
  (s3_allowed (s3_evaluate req) = true <->
   exists p fsAction,
     principal req = Some p /\ s3_vault_id req <> 0 /\
     filesystemActionFor (action req) (object_exists req) (is_directory_marker req) = Some fsAction /\
     principalHas req fsAction = true /\
     (credential_id req = 0 \/ scope_mode req = $"user_access" \/
      exists role,
        getEffectiveCredentialVaultRole (credential_id req) (s3_vault_id req) (scope_mode req) = Some role /\
        allowed (evaluateResolved role (mkResolved fsAction (vault_path req) (object_exists req)
                   (is_directory_marker req || (vault_path req == $"/")))) = true /\
        (scope_mode req = $"global" -> isAdmin p = true) /\
        (scope_mode req = $"vault_allowlist" ->
           exists v, v ∈ listCredentialSelectedVaults (credential_id req) /\
                     sv_vault_id v = s3_vault_id req /\ sv_enabled v = true) /\
        (scope_mode req = $"global" \/ scope_mode req = $"vault_allowlist" ->
           exists r, getCredentialDefaultVaultRole (credential_id req) = Some r /\ dr_enabled r = true))) /\
  (s3_allowed (s3_evaluate req) = true <-> s3_reason (s3_evaluate req) = S3Allowed) /\
  s3_allowed (s3_evaluate req) =
    principal_allowed (s3_evaluate req) && credential_allowed (s3_evaluate req).
Proof.
  unfold s3_evaluate. cbv zeta.
  destruct (principal req) as [p|] eqn:Ep; [|naive_solver].
  destruct (Z.eqb_spec (s3_vault_id req) 0); [naive_solver|].
  destruct (filesystemActionFor _ _ _) as [a|] eqn:Ea; [|naive_solver].
  destruct (principalHas req a) eqn:Eh; cbn [negb]; [|naive_solver].
  destruct (Z.eqb_spec (credential_id req) 0); [split; [naive_solver|done]|].
  destruct (scope_mode req == $"user_access") eqn:Eu; bsimpl; [split; [naive_solver|done]|].
  setoid_rewrite <- selected_spec. setoid_rewrite <- default_role_spec.
  case_if; [bsimpl; split; [naive_solver|done]|]. case_if; [bsimpl; split; [naive_solver|done]|].
  case_if; [bsimpl; split; [naive_solver|done]|].
  destruct (getEffectiveCredentialVaultRole _ _ _) as [role|] eqn:Er; [|split; [naive_solver|done]].
  case_if; bsimpl; (split; [|done]); [naive_solver|].
  split; [|done]. intros _. exists p, a. split_and!; try done. right; right. exists role.
  split_and!; naive_solver.
Qed.

Module Demo.
(** One vault (7) and a credential (3) allow-listed for it with a read role. *)
#[local] Instance env : FsEnv := {
  getEngine v := if v =? 7 then Some FsPolicy.Demo.engine else None;
  resolveStorageEngine _ := None;
  getEntry _ := None;
  account i := if i =? 1 then Some (1, false) else None }.

#[local] Instance db : GatewayDb := {
  listCredentialSelectedVaults _ := [mkSelected 7 true];
  getCredentialDefaultVaultRole _ := Some (mkDefaultRole true);
  selectedVaultRow _ v := v =? 7;
  credentialDefaultRoleRow _ _ := Some (mkRoleRow 1 Files_ReadOnly Directories_ReadOnly);
  credentialVaultRoleRow _ _ := None;
  credentialDefaultRoleOverrides _ := [];
  credentialRoleOverrides _ := [];
  permission_id name := Z.of_nat (length name) }.

Definition rule (path : string) (e : OverrideOpt) : Override :=
  mkOverride $"vault.fs.files.download" e true (FsPolicy.Demo.compiled (lit path)).

Definition root : Principal := mkPrincipal (mkView true 9 true ∅ [] None) true.
Definition request (mode : string) (a : S3Action) : S3PolicyRequest :=
  mkS3Request (Some root) 3 (lit mode) 7 $"/docs/a" None a true false None.

Example s3_decisions :
  s3_reason (s3_evaluate (request "vault_allowlist" GetObject)) = S3Allowed /\
  s3_reason (s3_evaluate (request "vault_allowlist" PutObject)) = EffectiveCredentialRoleDenied /\
  s3_reason (s3_evaluate (request "user_access" PutObject)) = S3Allowed /\
  s3_reason (s3_evaluate (request "vault_allowlist" CreateBucket)) = NoFilesystemMapping /\
  s3_toString (s3_evaluate (request "vault_allowlist" PutObject)) =
    $"S3 policy decision: effective_credential_role_denied, principal_allowed=true, credential_allowed=false, credential_fs_reason=DeniedByBasePermissions".
Proof. vm_compute. split_and!; reflexivity. Qed.
End Demo.

Lemma per_vault_rules_win_witness :
  let d := [Demo.rule "/a" ALLOW; Demo.rule "/b" ALLOW] in
  let p := [Demo.rule "/b" DENY; Demo.rule "/c" DENY] in
  @mergeDefaultAndPerVaultOverrides Demo.db d p = [Demo.rule "/a" ALLOW; Demo.rule "/b" DENY; Demo.rule "/c" DENY] /\
  NoDup (map (@rule_key Demo.db) (@mergeDefaultAndPerVaultOverrides Demo.db d p)).
Proof.
  cbv zeta. split; [vm_compute; reflexivity|].
  apply (@per_vault_rules_win Demo.db).
  apply (bool_decide_unpack _). vm_compute. exact I.
Defined.
