(* ===== verification/PriceBudget.v ===== *)
(** * Price budgets of the S3 providers

    [storage/s3/pricing/PriceBudget.cpp]: policies limit what a run, a day or a month may
    cost; a preflight checks an estimate against every policy that applies, and reserves
    it in a ledger; the run commits or releases its reservations; an approved override
    lets one run exceed a limit; operators are notified.

    The tables are lists in the order of their serial ids.  A transaction is a function of
    the tables that fails or returns new ones; the operations of several transactions run
    in [Monad].  Amounts are decimals with eight places (NUMERIC(20,8) in the tables, 50
    digits in the code): integers of 10^-8 units. *)
From stdpp Require Import sorting.
From S2P Require Import Prelude Monad.
#[local] Open Scope Z_scope.

(** ** Modes, scopes, windows *)
Inductive PriceBudgetMode := Off | Report | Warn | Enforce.
Inductive PriceBudgetScope := Global | Provider | Vault | GatewayCredential | GatewayCredentialVault.
Inductive PriceBudgetWindow := PerRun | Daily | Monthly.
#[export] Instance mode_eq : EqDecision PriceBudgetMode. Proof. solve_decision. Defined.
#[export] Instance scope_eq : EqDecision PriceBudgetScope. Proof. solve_decision. Defined.
#[export] Instance window_eq : EqDecision PriceBudgetWindow. Proof. solve_decision. Defined.

Definition modeToString (mode : PriceBudgetMode) : str :=
  match mode with Off => $"off" | Report => $"report" | Warn => $"warn" | Enforce => $"enforce" end.
Definition scopeToString (scope : PriceBudgetScope) : str :=
  match scope with
  | Global => $"global" | Provider => $"provider" | Vault => $"vault"
  | GatewayCredential => $"gateway_credential" | GatewayCredentialVault => $"gateway_credential_vault"
  end.
Definition windowToString (window : PriceBudgetWindow) : str :=
  match window with PerRun => $"per_run" | Daily => $"daily" | Monthly => $"monthly" end.

Definition lower (s : str) : str := map tolower s.

Definition priceBudgetModeFromString (value : str) : result str PriceBudgetMode :=
  let normalized := lower value in
  if normalized == $"off" then Ok Off
  else if normalized == $"report" then Ok Report
  else if (normalized == $"warn") || (normalized == $"warning") then Ok Warn
  else if (normalized == $"enforce") || (normalized == $"enforced") then Ok Enforce
  else Err ($"unknown price budget mode: " ++ normalized).
Definition priceBudgetScopeFromString (value : str) : result str PriceBudgetScope :=
  let normalized := lower value in
  if normalized == $"global" then Ok Global
  else if normalized == $"provider" then Ok Provider
  else if normalized == $"vault" then Ok Vault
  else if (normalized == $"gateway_credential") || (normalized == $"gateway-credential") then Ok GatewayCredential
  else if (normalized == $"gateway_credential_vault") || (normalized == $"gateway-credential-vault") then Ok GatewayCredentialVault
  else Err ($"unknown price budget scope: " ++ normalized).
Definition priceBudgetWindowFromString (value : str) : result str PriceBudgetWindow :=
  let normalized := lower value in
  if (normalized == $"per_run") || (normalized == $"run") then Ok PerRun
  else if (normalized == $"daily") || (normalized == $"day") then Ok Daily
  else if (normalized == $"monthly") || (normalized == $"month") then Ok Monthly
  else Err ($"unknown price budget window: " ++ normalized).

Definition isSupportedPriceBudgetProvider (providerKey : str) : bool :=
  (providerKey == $"aws-s3") || (providerKey == $"cloudflare-r2").

(** ** Decimals

    Boost's decimal of a text with at most eight places, exactly; the texts the tables
    and the estimator hold have this form. *)
Definition unit_ : Z := 100000000.
Definition trim (s : str) : str := trim_by is_space s.

Definition unsignedDecimal (s : str) : result str Z :=
  let '(i, f) := match split_first dot s with Some p => p | None => (s, []) end in
  if forallb is_digit (i ++ f) && negb (is_empty (i ++ f)) && (length f <=? 8)%nat
  then Ok (decimal_value i * unit_ + decimal_value f * 10 ^ (8 - Z.of_nat (length f)))
  else Err $"not a decimal".
Definition budgetDecimalFromString (value : str) : result str Z :=
  match value with
  | [] => Ok 0
  | "-"%char :: s => let? z := unsignedDecimal s in Ok (- z)
  | _ => unsignedDecimal value
  end.

(** [std::fixed << std::setprecision(8)] *)
Fixpoint fixed_digits (n : nat) (z : Z) : str :=
  match n with O => [] | S n => fixed_digits n (z / 10) ++ [digit_char (z mod 10)] end.
Definition budgetFormatDecimal (value : Z) : str :=
  (if value <? 0 then $"-" else []) ++ Prelude.to_string (Z.abs value / unit_) ++ dot :: fixed_digits 8 (Z.abs value mod unit_).

(** The characters after the optional dot: digits, at most one dot, at most 8 places. *)
Fixpoint decimal_scan (s : str) (dot_ digit : bool) (fractional : nat) : option (bool * nat) :=
  match s with
  | [] => Some (digit, fractional)
  | ch :: s' =>
      if is_digit ch then decimal_scan s' dot_ true (if dot_ then S fractional else fractional)
      else if (ch == dot) && negb dot_ then decimal_scan s' true digit fractional
      else None
  end.
Definition isValidPriceBudgetDecimal (value : str) : bool :=
  let text := trim value in
  if is_empty text || starts_with text $"-" then false
  else match decimal_scan text false false 0 with
       | Some (digit, fractional) =>
           if negb digit || (8 <? fractional)%nat then false
           else match budgetDecimalFromString text with Ok z => 0 <=? z | Err _ => false end
       | None => false
       end.

Definition isValidPriceBudgetCurrency (value : str) : bool :=
  negb ((length value <? 3)%nat || (8 <? length value)%nat) && forallb is_alnum value.
Definition toupper (c : Ascii.ascii) : Ascii.ascii :=
  if in_chars "a" "z" c then Ascii.ascii_of_nat (Ascii.nat_of_ascii c - 32) else c.
Definition normalizePriceBudgetCurrency (value : str) : str := map toupper (trim value).

(** A value of a NUMERIC(20,8) column. *)
Definition numeric (z : Z) : result str Z := check Z.abs z <? 10 ^ 20 else $"numeric field overflow" in Ok z.

Example decimal_examples :
  budgetDecimalFromString $"12.5" = Ok 1250000000 /\ budgetFormatDecimal 1250000000 = $"12.50000000" /\
  budgetFormatDecimal (-1) = $"-0.00000001" /\ budgetDecimalFromString $"-0.00000001" = Ok (-1) /\
  isValidPriceBudgetDecimal $" 3. " = true /\ isValidPriceBudgetDecimal $"." = false /\
  isValidPriceBudgetDecimal $"1.123456789" = false /\ isValidPriceBudgetDecimal $"1e3" = false.
Proof. vm_compute. split_and!; reflexivity. Qed.

(** ** Records *)
Record PriceBudgetPolicy := mkPolicy {
  p_id : Z; p_scope : PriceBudgetScope; p_provider_key : option str; p_vault_id : option Z; p_gateway_credential_id : option Z;
  p_mode : PriceBudgetMode; p_currency : str; max_run_cost : option str; max_daily_cost : option str; max_monthly_cost : option str;
  require_verified_catalog : bool; allow_stale_catalog : bool; max_catalog_age_seconds : option Z; is_active : bool }.
Record PriceBudgetReservation := mkReservation { r_id : Z; r_policy_id : Z; r_window : PriceBudgetWindow }.
Record PriceBudgetWindowCheck := mkCheck {
  c_policy_id : Z; c_scope : PriceBudgetScope; c_mode : PriceBudgetMode; c_window : PriceBudgetWindow; c_currency : str;
  c_limit : option str; c_used_before : str; c_remaining_before : str; c_requested : str; c_exceeded : bool }.
Record PriceBudgetDecision := mkDecision {
  allowed : bool; stalled : bool; warnings : list str; exceeded_policy_id : option Z; exceeded_scope : str; limit : str;
  used_before : str; remaining_before : str; requested : str; currency : str; reason : str; policies : list PriceBudgetPolicy;
  checks : list PriceBudgetWindowCheck; blocking_checks : list PriceBudgetWindowCheck; blocking_policy_ids : list Z;
  primary_blocking_check : option PriceBudgetWindowCheck; primary_blocking_scope : str; primary_blocking_window : str;
  reservations : list PriceBudgetReservation }.
Definition new_decision : PriceBudgetDecision :=
  mkDecision true false [] None [] [] [] [] [] [] [] [] [] [] [] None [] [] [].

Record PriceEstimateReport := mkEstimate {
  available : bool; supported : bool; stale : bool; estimated_cost : str; e_currency : str; catalog_verified : bool;
  catalog_age_seconds : option Z; estimate_mode : str; free_tier_policy : str; unavailable_reason : str }.
Record PriceBudgetPreflightRequest := mkRequest {
  vault_id : Z; run_uuid : str; provider_key : str; provider_supported : bool; estimate : PriceEstimateReport; dry_run : bool;
  override_policy_ids : list Z; gateway_credential_id : option Z; request_uuid : str; operation : str; object_key : option str;
  gateway_scopes_only : bool; synthetic : bool; usage_source : option str }.

Inductive LedgerStatus := Reserved | Committed | Released | Expired.
#[export] Instance ledger_status_eq : EqDecision LedgerStatus. Proof. solve_decision. Defined.
Record PriceBudgetLedgerEntry := mkEntry {
  l_id : Z; l_policy_id : Z; l_run_uuid : str; l_vault_id : Z; l_gateway_credential_id : option Z; l_request_uuid : option str;
  l_operation : option str; l_object_key : option str; l_estimated_cost : Z; l_usage_source : option str; l_synthetic : bool;
  l_provider_key : str; l_currency : str; l_window : PriceBudgetWindow; l_window_start : Z; l_window_end : Z;
  l_reserved_cost : Z; l_committed_cost : option Z; l_status : LedgerStatus; l_created_at : Z }.
Definition set_status (st : LedgerStatus) (committed : option Z) (e : PriceBudgetLedgerEntry) : PriceBudgetLedgerEntry :=
  mkEntry (l_id e) (l_policy_id e) (l_run_uuid e) (l_vault_id e) (l_gateway_credential_id e) (l_request_uuid e) (l_operation e)
    (l_object_key e) (l_estimated_cost e) (l_usage_source e) (l_synthetic e) (l_provider_key e) (l_currency e) (l_window e)
    (l_window_start e) (l_window_end e) (l_reserved_cost e) committed st (l_created_at e).

Inductive OverrideStatus := ORequested | OApproved | ODenied | OExpired | OUsed.
#[export] Instance override_status_eq : EqDecision OverrideStatus. Proof. solve_decision. Defined.
Record PriceBudgetOverride := mkOverride {
  o_id : Z; o_run_uuid : option str; o_vault_id : Z; o_requested_by : option Z; o_approved_by : option Z; o_status : OverrideStatus;
  o_reason : option str; o_policy_ids : list Z; o_estimated_cost : option Z; o_currency : str; o_expires_at : Z; o_created_at : Z;
  o_decided_at : option Z; o_used_at : option Z }.
Record PriceBudgetOverrideRequest := mkOverrideRequest {
  or_run_uuid : option str; or_vault_id : Z; or_requested_by : Z; or_reason : option str; or_policy_ids : list Z;
  or_estimated_cost : option str; or_currency : str; or_ttl_minutes : Z }.

Record PriceBudgetNotification := mkNotification {
  n_id : Z; n_type : str; n_severity : str; n_title : str; n_message : str; n_scope : option str; n_vault_id : option Z;
  n_provider_key : option str; n_policy_id : option Z; n_run_uuid : option str; n_acknowledged_at : option Z;
  n_acknowledged_by : option Z; n_created_at : Z; n_expires_at : option Z }.

(** The tables, with the next value of each serial id. *)
Record Tables := mkTables {
  policy_rows : list PriceBudgetPolicy; next_policy : Z; ledger : list PriceBudgetLedgerEntry; next_entry : Z;
  overrides : list PriceBudgetOverride; next_override : Z; notifications : list PriceBudgetNotification; next_notification : Z }.
Definition with_ledger l n t :=
  mkTables (policy_rows t) (next_policy t) l n (overrides t) (next_override t) (notifications t) (next_notification t).
Definition with_policies l n t :=
  mkTables l n (ledger t) (next_entry t) (overrides t) (next_override t) (notifications t) (next_notification t).
Definition with_overrides l n t :=
  mkTables (policy_rows t) (next_policy t) (ledger t) (next_entry t) l n (notifications t) (next_notification t).
Definition with_notifications l n t :=
  mkTables (policy_rows t) (next_policy t) (ledger t) (next_entry t) (overrides t) (next_override t) l n.

(** ** Which policies apply, which windows they have *)
Definition limitForWindow (policy : PriceBudgetPolicy) (window : PriceBudgetWindow) : option str :=
  match window with PerRun => max_run_cost policy | Daily => max_daily_cost policy | Monthly => max_monthly_cost policy end.
Definition has_limit (o : option str) : bool := match o with Some _ => true | None => false end.
Definition configuredWindows (policy : PriceBudgetPolicy) : list PriceBudgetWindow :=
  let windows := (if has_limit (max_run_cost policy) then [PerRun] else [])
    ++ (if has_limit (max_daily_cost policy) then [Daily] else [])
    ++ (if has_limit (max_monthly_cost policy) then [Monthly] else []) in
  if is_empty windows then [PerRun] else windows.

Definition no_key (key : option str) (providerKey : str) : bool := match key with None => true | Some k => k == providerKey end.
Definition policyWhereClause (vaultId : Z) (providerKey : str) (gatewayCredentialId : option Z) (includeInactive gatewayScopesOnly : bool)
  (p : PriceBudgetPolicy) : bool :=
  (includeInactive || (is_active p && (p_mode p !== Off))) &&
  ((negb gatewayScopesOnly &&
      ((p_scope p == Global) || ((p_scope p == Provider) && (p_provider_key p == Some providerKey))
       || ((p_scope p == Vault) && (p_vault_id p == Some vaultId) && no_key (p_provider_key p) providerKey)))
   || match gatewayCredentialId with
      | Some id =>
          ((p_scope p == GatewayCredential) && (p_gateway_credential_id p == Some id) && no_key (p_provider_key p) providerKey)
          || ((p_scope p == GatewayCredentialVault) && (p_gateway_credential_id p == Some id) && (p_vault_id p == Some vaultId)
              && no_key (p_provider_key p) providerKey)
      | None => false
      end).

Definition policyIdentityWhere (scope : PriceBudgetScope) (providerKey : option str) (vaultId gatewayCredentialId : option Z) :
  result str (PriceBudgetPolicy -> bool) :=
  match scope with
  | Global => Ok (fun p => p_scope p == Global)
  | Provider =>
      match providerKey with
      | None => Err $"provider budget requires provider key"
      | Some _ => Ok (fun p => (p_scope p == Provider) && (p_provider_key p == providerKey))
      end
  | Vault =>
      match vaultId with
      | None => Err $"vault budget requires vault id"
      | Some _ => Ok (fun p => (p_scope p == Vault) && (p_vault_id p == vaultId) && (p_provider_key p == providerKey))
      end
  | GatewayCredential =>
      match gatewayCredentialId with
      | None => Err $"gateway credential budget requires gateway credential id"
      | Some _ => Ok (fun p => (p_scope p == GatewayCredential) && (p_gateway_credential_id p == gatewayCredentialId) && (p_provider_key p == providerKey))
      end
  | GatewayCredentialVault =>
      match gatewayCredentialId, vaultId with
      | None, _ => Err $"gateway credential vault budget requires gateway credential id"
      | _, None => Err $"gateway credential vault budget requires vault id"
      | Some _, Some _ => Ok (fun p => (p_scope p == GatewayCredentialVault) && (p_gateway_credential_id p == gatewayCredentialId)
                                       && (p_vault_id p == vaultId) && (p_provider_key p == providerKey))
      end
  end.

Definition credential_label (o : option Z) : str := match o with Some id => $":credential:" ++ Prelude.to_string id | None => [] end.
Definition scopeLabel (policy : PriceBudgetPolicy) : str :=
  scopeToString (p_scope policy) ++ match p_provider_key policy with Some k => $":" ++ k | None => [] end
  ++ credential_label (p_gateway_credential_id policy)
  ++ match p_vault_id policy with Some id => $":" ++ Prelude.to_string id | None => [] end.

(** ** The decision *)
Definition add_warning w d :=
  mkDecision (allowed d) (stalled d) (warnings d ++ [w]) (exceeded_policy_id d) (exceeded_scope d) (limit d) (used_before d) (remaining_before d)
    (requested d) (currency d) (reason d) (policies d) (checks d) (blocking_checks d) (blocking_policy_ids d) (primary_blocking_check d)
    (primary_blocking_scope d) (primary_blocking_window d) (reservations d).
Definition appendWarning (decision : PriceBudgetDecision) (policy : PriceBudgetPolicy) (warning : str) : PriceBudgetDecision :=
  add_warning ($"policy " ++ Prelude.to_string (p_id policy) ++ $" (" ++ scopeLabel policy ++ $"): " ++ warning) decision.
Definition setBlocked (d : PriceBudgetDecision) (policy : PriceBudgetPolicy) (reason : str) : PriceBudgetDecision :=
  if stalled d then d
  else mkDecision false true (warnings d) (Some (p_id policy)) (scopeLabel policy) (limit d) (used_before d) (remaining_before d)
    (requested d) (p_currency policy) reason (policies d) (checks d) (blocking_checks d) (blocking_policy_ids d) (primary_blocking_check d)
    (primary_blocking_scope d) (primary_blocking_window d) (reservations d).
Definition add_check c blocking d :=
  mkDecision (allowed d) (stalled d) (warnings d) (exceeded_policy_id d) (exceeded_scope d) (limit d) (used_before d) (remaining_before d)
    (requested d) (currency d) (reason d) (policies d) (checks d ++ [c]) (blocking_checks d ++ blocking) (blocking_policy_ids d)
    (primary_blocking_check d) (primary_blocking_scope d) (primary_blocking_window d) (reservations d).
Definition with_found_policies l d :=
  mkDecision (allowed d) (stalled d) (warnings d) (exceeded_policy_id d) (exceeded_scope d) (limit d) (used_before d) (remaining_before d)
    (requested d) (currency d) (reason d) l (checks d) (blocking_checks d) (blocking_policy_ids d)
    (primary_blocking_check d) (primary_blocking_scope d) (primary_blocking_window d) (reservations d).
Definition with_reservations l d :=
  mkDecision (allowed d) (stalled d) (warnings d) (exceeded_policy_id d) (exceeded_scope d) (limit d) (used_before d) (remaining_before d)
    (requested d) (currency d) (reason d) (policies d) (checks d) (blocking_checks d) (blocking_policy_ids d)
    (primary_blocking_check d) (primary_blocking_scope d) (primary_blocking_window d) l.

Definition kBudgetMode : str := $"budget_conservative".
Definition kBudgetFreeTierPolicy : str := $"ignore_account_wide_free_tiers".
Definition estimateCanBeReserved (e : PriceEstimateReport) : bool :=
  available e && (estimate_mode e == kBudgetMode) && (free_tier_policy e == kBudgetFreeTierPolicy)
  && negb (is_empty (estimated_cost e)) && negb (is_empty (e_currency e)).
Definition containsId (values : list Z) (id : Z) : bool := existsb (fun v => v =? id) values.
Definition kExceeded : str := $"S3 price budget exceeded".
Definition isLimitExceededReason (reason : str) : bool := starts_with reason kExceeded.
Definition isGatewayCredentialScope (scope : PriceBudgetScope) : bool := (scope == GatewayCredential) || (scope == GatewayCredentialVault).
Definition windowPriority (window : PriceBudgetWindow) : Z := match window with Monthly => 0 | Daily => 1 | PerRun => 2 end.

(** A check's remaining amount, as the sort reads it back from its text. *)
Definition remainingForSort (check_ : PriceBudgetWindowCheck) : Z :=
  if is_empty (c_remaining_before check_) then 0
  else match budgetDecimalFromString (c_remaining_before check_) with Ok z => z | Err _ => 0 end.
Definition isGatewaySpecificScope := isGatewayCredentialScope.

Definition primaryBlockingLess (a b : PriceBudgetWindowCheck) (preferGatewayCredentialVault : bool) : bool :=
  let aWindow := windowPriority (c_window a) in
  let bWindow := windowPriority (c_window b) in
  if negb (aWindow =? bWindow) then aWindow <? bWindow
  else if preferGatewayCredentialVault && isGatewaySpecificScope (c_scope a) && isGatewaySpecificScope (c_scope b)
          && (c_scope a !== c_scope b)
  then c_scope a == GatewayCredentialVault
  else let aRemaining := remainingForSort a in
       let bRemaining := remainingForSort b in
       if negb (aRemaining =? bRemaining) then aRemaining <? bRemaining else c_policy_id a <? c_policy_id b.

(** [std::min_element]: the first of the smallest. *)
Definition min_element {A} (less : A -> A -> bool) (x : A) (l : list A) : A := fold_left (fun m y => if less y m then y else m) l x.

(** [std::set] of ids, in order. *)
Fixpoint insert_id (id : Z) (l : list Z) : list Z :=
  match l with [] => [id] | x :: l' => if id <? x then id :: l else if id =? x then l else x :: insert_id id l' end.
Definition id_set (l : list Z) : list Z := fold_left (fun s id => insert_id id s) l [].

Definition preferVault (l : list PriceBudgetWindowCheck) : bool :=
  existsb (fun c => c_scope c == GatewayCredentialVault) l && negb (existsb (fun c => c_scope c == GatewayCredential) l).
Definition finalizeBlockingDecision (d : PriceBudgetDecision) : PriceBudgetDecision :=
  match blocking_checks d with
  | [] => d
  | c :: l =>
      let primary := min_element (fun a b => primaryBlockingLess a b (preferVault (c :: l))) c l in
      mkDecision false true (warnings d) (Some (c_policy_id primary)) (scopeToString (c_scope primary)) (default [] (c_limit primary))
        (c_used_before primary) (c_remaining_before primary) (c_requested primary) (c_currency primary)
        (kExceeded ++ $" for " ++ windowToString (c_window primary) ++ $" " ++ scopeToString (c_scope primary)
         ++ $" policy " ++ Prelude.to_string (c_policy_id primary))
        (policies d) (checks d) (blocking_checks d) (id_set (map c_policy_id (blocking_checks d))) (Some primary)
        (scopeToString (c_scope primary)) (windowToString (c_window primary)) (reservations d)
  end.

(** Why a policy cannot be evaluated for the request. *)
Definition policyIssue (request : PriceBudgetPreflightRequest) (policy : PriceBudgetPolicy) : option str :=
  let e := estimate request in
  if negb (provider_supported request) && (p_scope policy !== Global) && negb (synthetic request && isGatewayCredentialScope (p_scope policy))
  then Some $"price budget cannot be evaluated: provider is unsupported for local S3 pricing"
  else if negb (supported e) then Some ($"price budget cannot be evaluated: " ++ unavailable_reason e)
  else if negb (available e) then Some ($"price budget cannot be evaluated: " ++ unavailable_reason e)
  else if (estimate_mode e !== kBudgetMode) || (free_tier_policy e !== kBudgetFreeTierPolicy)
  then Some $"price budget cannot be evaluated from a non-budget-conservative estimate"
  else if require_verified_catalog policy && negb (catalog_verified e)
  then Some $"price budget cannot be evaluated: verified pricing catalog is required"
  else if stale e && negb (allow_stale_catalog policy) then Some $"price budget cannot be evaluated: pricing catalog is stale"
  else if stale e && allow_stale_catalog policy
          && match max_catalog_age_seconds policy, catalog_age_seconds e with Some m, Some a => m <? a | _, _ => false end
  then Some $"price budget cannot be evaluated: stale pricing catalog is older than policy max age"
  else if normalizePriceBudgetCurrency (e_currency e) !== normalizePriceBudgetCurrency (p_currency policy)
  then Some ($"price budget currency mismatch: estimate is " ++ e_currency e ++ $", policy is " ++ p_currency policy)
  else None.

(** ** The ledger *)
Definition second : Z := 1000000.
Definition kStaleReservationAge : Z := 24 * 3600 * second.

(** [date_trunc] of the database's calendar, and the next day and month. *)
Class Calendar := { day_of : Z -> Z; month_of : Z -> Z; next_day : Z -> Z; next_month : Z -> Z }.

Definition expire_reservations (now : Z) (t : Tables) : Tables :=
  with_ledger (map (fun e => if (l_status e == Reserved) && (l_created_at e <? now - kStaleReservationAge)
                             then set_status Expired (l_committed_cost e) e else e) (ledger t)) (next_entry t) t.

Section Ledger.
Context `{Calendar}.

Definition windowStart (window : PriceBudgetWindow) (now : Z) : Z :=
  match window with PerRun => now | Daily => day_of now | Monthly => month_of now end.
Definition windowEnd (window : PriceBudgetWindow) (now : Z) : Z :=
  match window with PerRun => now + second | Daily => next_day (day_of now) | Monthly => next_month (month_of now) end.

(** [COALESCE(committed_cost, reserved_cost)] of the rows reserved or committed. *)
Definition activeLedgerCost (e : PriceBudgetLedgerEntry) : Z := default (l_reserved_cost e) (l_committed_cost e).
Definition counts (policyId : Z) (window : PriceBudgetWindow) (start : Z) (e : PriceBudgetLedgerEntry) : bool :=
  (l_policy_id e =? policyId) && (l_window e == window) && (l_window_start e =? start)
  && ((l_status e == Reserved) || (l_status e == Committed)).
Definition used (l : list PriceBudgetLedgerEntry) (policyId : Z) (window : PriceBudgetWindow) (start : Z) : Z :=
  foldr (fun e acc => (if counts policyId window start e then activeLedgerCost e else 0) + acc) 0 l.
Definition usedForWindow (t : Tables) (policy : PriceBudgetPolicy) (window : PriceBudgetWindow) (now : Z) : result str str :=
  if window == PerRun then Ok $"0.00000000"
  else let? u := numeric (used (ledger t) (p_id policy) window (windowStart window now)) in Ok (budgetFormatDecimal u).

(** ** The preflight *)
Definition window_check (t : Tables) (now : Z) (policy : PriceBudgetPolicy) (req : Z)
  (window : PriceBudgetWindow) : result str PriceBudgetWindowCheck :=
  let? usedText := usedForWindow t policy window now in
  match limitForWindow policy window with
  | Some limitText =>
      let? lim := budgetDecimalFromString limitText in
      let? u := budgetDecimalFromString usedText in
      Ok (mkCheck (p_id policy) (p_scope policy) (p_mode policy) window (p_currency policy) (Some limitText) usedText
            (budgetFormatDecimal (lim - u)) (budgetFormatDecimal req) (lim <? u + req))
  | None => Ok (mkCheck (p_id policy) (p_scope policy) (p_mode policy) window (p_currency policy) None usedText [] (budgetFormatDecimal req) false)
  end.

Definition check_window (request : PriceBudgetPreflightRequest) (t : Tables) (now : Z) (policy : PriceBudgetPolicy) (req : Z)
  (window : PriceBudgetWindow) (d : PriceBudgetDecision) : result str PriceBudgetDecision :=
  let? c := window_check t now policy req window in
  let seen := add_check c [] d in
  if negb (c_exceeded c) then Ok seen
  else match p_mode policy with
       | Enforce =>
           if containsId (override_policy_ids request) (p_id policy)
           then Ok (appendWarning seen policy ($"S3 price budget exceedance for " ++ windowToString window
                                               ++ $" was allowed by an approved single-run override"))
           else Ok (add_check c [c] d)
       | Warn => Ok (appendWarning seen policy ($"S3 price budget would exceed " ++ windowToString window ++ $" limit "
                       ++ default [] (c_limit c) ++ $" " ++ p_currency policy ++ $" with request " ++ c_requested c))
       | _ => Ok seen
       end.
Fixpoint check_windows request t now policy req (ws : list PriceBudgetWindow) (d : PriceBudgetDecision) : result str PriceBudgetDecision :=
  match ws with
  | [] => Ok d
  | w :: ws' => let? d := check_window request t now policy req w d in check_windows request t now policy req ws' d
  end.

Definition unevaluated (d : PriceBudgetDecision) (policy : PriceBudgetPolicy) (why : str) : PriceBudgetDecision :=
  if p_mode policy == Enforce then setBlocked d policy why else appendWarning d policy why.

(** One policy: the decision, and whether it can be reserved. *)
Definition check_policy (request : PriceBudgetPreflightRequest) (t : Tables) (now : Z) (policy : PriceBudgetPolicy)
  (d : PriceBudgetDecision) : result str (PriceBudgetDecision * bool) :=
  if p_mode policy == Off then Ok (d, false)
  else match policyIssue request policy with
       | Some why => Ok (unevaluated d policy why, false)
       | None =>
           if negb (estimateCanBeReserved (estimate request)) then Ok (unevaluated d policy $"price budget cannot be evaluated", false)
           else
             let? req := budgetDecimalFromString (estimated_cost (estimate request)) in
             let? d := check_windows request t now policy req (configuredWindows policy) d in
             Ok (d, true)
       end.
Fixpoint check_policies request t now (l : list PriceBudgetPolicy) (d : PriceBudgetDecision) (ids : list Z) :
  result str (PriceBudgetDecision * list Z) :=
  match l with
  | [] => Ok (d, ids)
  | p :: l' => let? '(d, ok) := check_policy request t now p d in
               check_policies request t now l' d (if ok then ids ++ [p_id p] else ids)
  end.

Definition some_text (s : str) : option str := if is_empty s then None else Some s.
Definition nonempty (o : option str) : option str := match o with Some s => some_text s | None => None end.
Definition reserve (request : PriceBudgetPreflightRequest) (now : Z) (policy : PriceBudgetPolicy) (window : PriceBudgetWindow)
  (s : PriceBudgetDecision * Tables) : result str (PriceBudgetDecision * Tables) :=
  let '(d, t) := s in
  let? cost := budgetDecimalFromString (estimated_cost (estimate request)) in
  let? cost := numeric cost in
  let e := mkEntry (next_entry t) (p_id policy) (run_uuid request) (vault_id request) (gateway_credential_id request)
             (some_text (request_uuid request)) (some_text (operation request)) (nonempty (object_key request)) cost
             (nonempty (usage_source request)) (synthetic request) (provider_key request) (p_currency policy) window
             (windowStart window now) (windowEnd window now) cost None Reserved now in
  Ok (with_reservations (reservations d ++ [mkReservation (next_entry t) (p_id policy) window]) d,
      with_ledger (ledger t ++ [e]) (next_entry t + 1) t).
Fixpoint reserve_windows request now policy (ws : list PriceBudgetWindow) (s : PriceBudgetDecision * Tables) :
  result str (PriceBudgetDecision * Tables) :=
  match ws with
  | [] => Ok s
  | w :: ws' => let? s := reserve request now policy w s in reserve_windows request now policy ws' s
  end.
Fixpoint reserve_policies request now (ids : list Z) (l : list PriceBudgetPolicy) (s : PriceBudgetDecision * Tables) :
  result str (PriceBudgetDecision * Tables) :=
  match l with
  | [] => Ok s
  | p :: l' =>
      let? s :=
        (if (p_mode p == Off) || negb (containsId ids (p_id p))
            || (normalizePriceBudgetCurrency (e_currency (estimate request)) !== normalizePriceBudgetCurrency (p_currency p))
         then Ok s else reserve_windows request now p (configuredWindows p) s) in
      reserve_policies request now ids l' s
  end.

Definition found_policies (request : PriceBudgetPreflightRequest) (t : Tables) : list PriceBudgetPolicy :=
  filter (fun p => policyWhereClause (vault_id request) (provider_key request) (gateway_credential_id request)
                     false (gateway_scopes_only request) p = true) (policy_rows t).
Definition preflight (request : PriceBudgetPreflightRequest) (now : Z) (t : Tables) : result str (PriceBudgetDecision * Tables) :=
  let t := expire_reservations now t in
  let found := found_policies request t in
  let d := with_found_policies found new_decision in
  if is_empty found then Ok (d, t)
  else
    let? '(d, ids) := check_policies request t now found d [] in
    let d := finalizeBlockingDecision d in
    if stalled d || dry_run request || negb (estimateCanBeReserved (estimate request)) then Ok (d, t)
    else reserve_policies request now ids found (d, t).

(** ** Settling reservations *)
Definition reservationIds (l : list PriceBudgetReservation) : list Z := filter (fun id => id <> 0) (map r_id l).
Definition settle (f : PriceBudgetLedgerEntry -> PriceBudgetLedgerEntry) (ids : list Z) (t : Tables) : Tables :=
  with_ledger (map (fun e => if containsId ids (l_id e) && (l_status e == Reserved) then f e else e) (ledger t)) (next_entry t) t.
Definition commit_rows (final : option Z) (ids : list Z) (t : Tables) : Tables :=
  settle (fun e => set_status Committed (Some (default (l_reserved_cost e) final)) e) ids t.
Definition commit (rs : list PriceBudgetReservation) (finalCost : option str) (t : Tables) : result str Tables :=
  let ids := reservationIds rs in
  if is_empty ids then Ok t
  else match finalCost with
       | None => Ok (commit_rows None ids t)
       | Some text =>
           if negb (isValidPriceBudgetDecimal text) then Err ($"invalid committed S3 price budget decimal: " ++ text)
           else let? z := budgetDecimalFromString (trim text) in let? z := numeric z in Ok (commit_rows (Some z) ids t)
       end.
Definition release (rs : list PriceBudgetReservation) (t : Tables) : Tables :=
  let ids := reservationIds rs in
  if is_empty ids then t else settle (fun e => set_status Released (l_committed_cost e) e) ids t.
Definition expireStaleReservations (now : Z) (t : Tables) : Tables := expire_reservations now t.
End Ledger.

(** ** Policies *)
Definition validatePolicyForWrite (p : PriceBudgetPolicy) : result str unit :=
  check isValidPriceBudgetCurrency (p_currency p) else $"invalid currency: " ++ p_currency p in
  match find (fun v => negb (isValidPriceBudgetDecimal v)) (omap id [max_run_cost p; max_daily_cost p; max_monthly_cost p]) with
  | Some v => Err ($"invalid budget decimal: " ++ v)
  | None =>
      let key := has_limit (p_provider_key p) in
      let vault := negb (p_vault_id p == None) in
      let credential := negb (p_gateway_credential_id p == None) in
      let monthly := has_limit (max_monthly_cost p) in
      if (p_scope p == Global) && (key || vault || credential)
      then Err $"global price budget cannot include provider_key, vault_id, or gateway_credential_id"
      else if (p_scope p == Provider) && (negb key || vault || credential)
      then Err $"provider price budget requires provider_key and no vault_id or gateway_credential_id"
      else if (p_scope p == Vault) && (negb vault || credential) then Err $"vault price budget requires vault_id"
      else if (p_scope p == GatewayCredential) && (negb credential || vault || negb monthly)
      then Err $"gateway credential price budget requires gateway_credential_id, monthly cost, and no vault_id"
      else if (p_scope p == GatewayCredentialVault) && (negb credential || negb vault || negb monthly)
      then Err $"gateway credential vault price budget requires gateway_credential_id, vault_id, and monthly cost"
      else Ok tt
  end.

(** [::numeric] of an optional text, stored in a NUMERIC(20,8) column and read back. *)
Definition numeric_text (o : option str) : result str (option str) :=
  match o with
  | Some v => if is_empty v then Ok None
              else let? z := budgetDecimalFromString (trim v) in let? z := numeric z in Ok (Some (budgetFormatDecimal z))
  | None => Ok None
  end.

Definition upsert_row (policy : PriceBudgetPolicy) (t : Tables) : result str (PriceBudgetPolicy * Tables) :=
  let? identity := policyIdentityWhere (p_scope policy) (p_provider_key policy) (p_vault_id policy) (p_gateway_credential_id policy) in
  let? run := numeric_text (max_run_cost policy) in
  let? daily := numeric_text (max_daily_cost policy) in
  let? monthly := numeric_text (max_monthly_cost policy) in
  match find identity (policy_rows t) with
  | None =>
      let row := mkPolicy (next_policy t) (p_scope policy) (nonempty (p_provider_key policy)) (p_vault_id policy) (p_gateway_credential_id policy)
                   (p_mode policy) (p_currency policy) run daily monthly (require_verified_catalog policy) (allow_stale_catalog policy)
                   (max_catalog_age_seconds policy) true in
      Ok (row, with_policies (policy_rows t ++ [row]) (next_policy t + 1) t)
  | Some old =>
      let row := mkPolicy (p_id old) (p_scope old) (p_provider_key old) (p_vault_id old) (p_gateway_credential_id old)
                   (p_mode policy) (p_currency policy) run daily monthly (require_verified_catalog policy) (allow_stale_catalog policy)
                   (max_catalog_age_seconds policy) true in
      Ok (row, with_policies (map (fun p => if p_id p =? p_id old then row else p) (policy_rows t)) (next_policy t) t)
  end.

Definition disabled (p : PriceBudgetPolicy) : PriceBudgetPolicy :=
  mkPolicy (p_id p) (p_scope p) (p_provider_key p) (p_vault_id p) (p_gateway_credential_id p) Off (p_currency p) (max_run_cost p)
    (max_daily_cost p) (max_monthly_cost p) (require_verified_catalog p) (allow_stale_catalog p) (max_catalog_age_seconds p) false.
Definition disable_row scope providerKey vaultId gatewayCredentialId (t : Tables) : result str (option Z * Tables) :=
  let? identity := policyIdentityWhere scope providerKey vaultId gatewayCredentialId in
  Ok (option_map p_id (find identity (policy_rows t)),
      with_policies (map (fun p => if identity p then disabled p else p) (policy_rows t)) (next_policy t) t).

(** ** Overrides *)
Definition set_override st approved reason decided used_at run o :=
  mkOverride (o_id o) run (o_vault_id o) (o_requested_by o) approved st reason (o_policy_ids o) (o_estimated_cost o) (o_currency o)
    (o_expires_at o) (o_created_at o) decided used_at.
Definition expire_overrides (now : Z) (t : Tables) : Tables :=
  with_overrides (map (fun o => if ((o_status o == ORequested) || (o_status o == OApproved)) && (o_expires_at o <=? now)
      then set_override OExpired (o_approved_by o) (o_reason o) (Some (default now (o_decided_at o))) (o_used_at o) (o_run_uuid o) o
      else o) (overrides t)) (next_override t) t.

(** [a @> b AND a <@ b] of two arrays *)
Definition same_ids (a b : list Z) : bool := forallb (containsId a) b && forallb (containsId b) a.
Definition consumable (vaultId : Z) (policyIds : list Z) (runUuid : option str) (now : Z) (o : PriceBudgetOverride) : bool :=
  (o_vault_id o =? vaultId) && (o_status o == OApproved) && (now <? o_expires_at o) && same_ids (o_policy_ids o) policyIds
  && match nonempty runUuid with
     | Some run => match o_run_uuid o with None => true | Some r => r == run end
     | None => true
     end.
Definition sooner (a b : PriceBudgetOverride) : bool :=
  (o_expires_at a <? o_expires_at b) || ((o_expires_at a =? o_expires_at b) && (o_id a <? o_id b)).
Definition update_override (id : Z) (f : PriceBudgetOverride -> PriceBudgetOverride) (t : Tables) : Tables :=
  with_overrides (map (fun o => if o_id o =? id then f o else o) (overrides t)) (next_override t) t.
Definition use (now : Z) (runUuid : option str) (o : PriceBudgetOverride) : PriceBudgetOverride :=
  set_override OUsed (o_approved_by o) (o_reason o) (o_decided_at o) (Some now)
    (match nonempty runUuid with Some run => Some (default run (o_run_uuid o)) | None => o_run_uuid o end) o.
Definition consume_row vaultId policyIds runUuid (now : Z) (t : Tables) : result str (option PriceBudgetOverride * Tables) :=
  match filter (fun o => consumable vaultId policyIds runUuid now o = true) (overrides t) with
  | [] => Ok (None, t)
  | o :: l => let o := min_element sooner o l in
              Ok (Some (use now runUuid o), update_override (o_id o) (use now runUuid) t)
  end.

Definition minute : Z := 60 * second.
Definition clamp (v lo hi : Z) : Z := Z.min (Z.max v lo) hi.
Definition check_request (r : PriceBudgetOverrideRequest) : result str str :=
  if or_vault_id r =? 0 then Err $"override request requires vault_id"
  else if or_requested_by r =? 0 then Err $"override request requires requested_by"
  else if is_empty (or_policy_ids r) then Err $"override request requires policy_ids"
  else
    let? _ := match or_estimated_cost r with
              | Some c => if isValidPriceBudgetDecimal c then Ok tt else Err ($"invalid override estimated cost: " ++ c)
              | None => Ok tt
              end in
    let currency := normalizePriceBudgetCurrency (if is_empty (or_currency r) then $"USD" else or_currency r) in
    check isValidPriceBudgetCurrency currency else $"invalid override currency: " ++ currency in Ok currency.
Definition request_row (r : PriceBudgetOverrideRequest) (currency : str) (now : Z) (t : Tables) : result str (PriceBudgetOverride * Tables) :=
  let ttlMinutes := clamp (if or_ttl_minutes r =? 0 then 30 else or_ttl_minutes r) 1 120 in
  let? cost := match or_estimated_cost r with
               | Some c => let? z := budgetDecimalFromString (trim c) in let? z := numeric z in Ok (Some z)
               | None => Ok None
               end in
  let row := mkOverride (next_override t) (nonempty (or_run_uuid r)) (or_vault_id r) (Some (or_requested_by r)) None ORequested
               (nonempty (or_reason r)) (or_policy_ids r) cost currency (now + ttlMinutes * minute) now None None in
  Ok (row, with_overrides (overrides t ++ [row]) (next_override t + 1) t).

(** [UPDATE ... WHERE id = ... AND ... RETURNING *] *)
Definition decide_row (overrideId : Z) (pending : PriceBudgetOverride -> bool) (f : PriceBudgetOverride -> PriceBudgetOverride) (conflict : str)
  (t : Tables) : result str (PriceBudgetOverride * Tables) :=
  match find (fun o => (o_id o =? overrideId) && pending o) (overrides t) with
  | None => Err conflict
  | Some o => Ok (f o, update_override overrideId f t)
  end.
Definition approve (approvedBy now : Z) (o : PriceBudgetOverride) : PriceBudgetOverride :=
  set_override OApproved (Some approvedBy) (o_reason o) (Some now) (o_used_at o) (o_run_uuid o) o.
Definition approve_row (overrideId approvedBy now : Z) : Tables -> result str (PriceBudgetOverride * Tables) :=
  decide_row overrideId (fun o => (o_status o == ORequested) && (now <? o_expires_at o)) (approve approvedBy now)
    $"S3 price budget override is not pending or has expired".
Definition deny (deniedBy : Z) (reason : option str) (now : Z) (o : PriceBudgetOverride) : PriceBudgetOverride :=
  set_override ODenied (Some deniedBy) (match nonempty reason with Some r => Some r | None => o_reason o end) (Some now) (o_used_at o) (o_run_uuid o) o.
Definition deny_row (overrideId deniedBy : Z) (reason : option str) (now : Z) : Tables -> result str (PriceBudgetOverride * Tables) :=
  decide_row overrideId (fun o => o_status o == ORequested) (deny deniedBy reason now) $"S3 price budget override is not pending".

(** ** Notifications *)
Definition kNotificationSeverityRanks : list (str * Z) := [($"info", 1); ($"warning", 2); ($"error", 3); ($"critical", 4)].
Definition priceBudgetNotificationSeverityRank (severity : str) : Z :=
  match find (fun nr => nr.1 == severity) kNotificationSeverityRanks with Some nr => nr.2 | None => 0 end.
Record PriceBudgetNotificationSummary := mkSummary { open_count : Z; worst_severity : option str }.
Definition mergePriceBudgetNotificationSummary (into add : PriceBudgetNotificationSummary) : PriceBudgetNotificationSummary :=
  mkSummary ((open_count into + open_count add) mod 2 ^ 32)
    (match worst_severity add with
     | None => worst_severity into
     | Some a => match worst_severity into with
                 | Some i => if priceBudgetNotificationSeverityRank i <? priceBudgetNotificationSeverityRank a then Some a else Some i
                 | None => Some a
                 end
     end).

Fixpoint contains_text (s p : str) : bool :=
  starts_with s p || match s with [] => false | _ :: s' => contains_text s' p end.
Definition notificationTypeForPricingEvaluationIssue (reason : str) : str :=
  let lowered := lower reason in
  if contains_text lowered $"provider is unsupported" || contains_text lowered $"provider has no price" then $"pricing.provider_unsupported"
  else if contains_text lowered $"verified pricing catalog" then $"pricing.catalog_unverified"
  else if contains_text lowered $"catalog is stale" || contains_text lowered $"stale pricing catalog" then $"pricing.catalog_stale"
  else $"pricing.catalog_unverified".
Definition kTitles : list (str * str) :=
  [($"budget.sync_blocked", $"S3 price budget blocked sync"); ($"budget.warn_threshold", $"S3 price budget warning");
   ($"budget.override_requested", $"S3 price budget override requested"); ($"budget.override_approved", $"S3 price budget override approved");
   ($"budget.override_denied", $"S3 price budget override denied"); ($"budget.override_used", $"S3 price budget override used");
   ($"budget.policy_changed", $"S3 price budget policy changed"); ($"budget.predicted_overage", $"S3 price budget projected overage");
   ($"pricing.catalog_stale", $"S3 pricing catalog is stale"); ($"pricing.catalog_unverified", $"S3 pricing catalog is unverified");
   ($"pricing.provider_unsupported", $"S3 pricing provider is unsupported")].
Definition notificationTitleForType (type : str) : str :=
  match find (fun kv => kv.1 == type) kTitles with Some kv => kv.2 | None => $"S3 pricing budget event" end.
Definition shouldEmailBudgetNotification (n : PriceBudgetNotification) : bool :=
  (n_type n == $"budget.override_requested") || ((n_type n == $"budget.sync_blocked") && (n_severity n == $"critical"))
  || ((n_type n == $"budget.predicted_overage") && (n_severity n == $"critical")).

(** A notification before it is stored. *)
Definition note type severity message scope vaultId providerKey policyId runUuid : PriceBudgetNotification :=
  mkNotification 0 type severity (notificationTitleForType type) message scope vaultId providerKey policyId runUuid None None 0 None.
Definition makeDecisionNotification (r : PriceBudgetPreflightRequest) (d : PriceBudgetDecision) (type severity message : str) : PriceBudgetNotification :=
  note type severity message (some_text (exceeded_scope d)) (Some (vault_id r)) (Some (provider_key r)) (exceeded_policy_id d) (some_text (run_uuid r)).
Definition store_note (n : PriceBudgetNotification) (now : Z) (t : Tables) : PriceBudgetNotification * Tables :=
  let row := mkNotification (next_notification t) (n_type n) (n_severity n)
    (if is_empty (n_title n) then notificationTitleForType (n_type n) else n_title n) (n_message n) (nonempty (n_scope n)) (n_vault_id n)
    (nonempty (n_provider_key n)) (n_policy_id n) (nonempty (n_run_uuid n)) None None now (n_expires_at n) in
  (row, with_notifications (notifications t ++ [row]) (next_notification t + 1) t).

Definition open_ (now : Z) (n : PriceBudgetNotification) : bool :=
  (n_acknowledged_at n == None) && match n_expires_at n with Some e => now <? e | None => true end.
(** [ORDER BY rank DESC, created_at DESC, id DESC], the first. *)
Definition worse (a b : PriceBudgetNotification) : bool :=
  let ra := priceBudgetNotificationSeverityRank (n_severity a) in
  let rb := priceBudgetNotificationSeverityRank (n_severity b) in
  (rb <? ra) || ((ra =? rb) && ((n_created_at b <? n_created_at a) || ((n_created_at a =? n_created_at b) && (n_id b <? n_id a)))).
Definition summary_of (l : list PriceBudgetNotification) : PriceBudgetNotificationSummary :=
  mkSummary (Z.of_nat (length l)) (match l with [] => None | n :: l' => Some (n_severity (min_element worse n l')) end).
(** The groups by vault, in the order of their first row. *)
Definition summarizeOpenNotifications (vaultId : option Z) (now : Z) (t : Tables) : list (option Z * PriceBudgetNotificationSummary) :=
  let rows := filter (fun n => open_ now n && match vaultId with Some id => n_vault_id n == Some id | None => true end = true) (notifications t) in
  map (fun v => (v, summary_of (filter (fun n => n_vault_id n = v) rows))) (remove_dups (map n_vault_id rows)).

Definition acknowledge_row (notificationId userId now : Z) (t : Tables) : result str (PriceBudgetNotification * Tables) :=
  let f n := mkNotification (n_id n) (n_type n) (n_severity n) (n_title n) (n_message n) (n_scope n) (n_vault_id n) (n_provider_key n)
               (n_policy_id n) (n_run_uuid n) (Some now) (Some userId) (n_created_at n) (n_expires_at n) in
  match find (fun n => n_id n =? notificationId) (notifications t) with
  | None => Err $"operator notification not found"
  | Some n => Ok (f n, with_notifications (map (fun n => if n_id n =? notificationId then f n else n) (notifications t)) (next_notification t) t)
  end.

(** ** Listings: [ORDER BY created_at DESC, id DESC LIMIT ...] *)
Section Newest.
Context {A : Type} (created_at id : A -> Z).
Definition newer (a b : A) : Prop := created_at b < created_at a \/ (created_at a = created_at b /\ id b <= id a).
#[export] Instance newer_dec a b : Decision (newer a b).
Proof. unfold newer. apply _. Defined.
Definition newest (limit max : Z) (l : list A) : list A := take (Z.to_nat (Z.max 1 (Z.min limit max))) (merge_sort newer l).
End Newest.
Definition is_or_any (o v : option Z) : bool := match o with Some _ => v == o | None => true end.
Definition listLedger (limit : Z) (vaultId gatewayCredentialId : option Z) (t : Tables) : list PriceBudgetLedgerEntry :=
  newest l_created_at l_id limit 1000
    (filter (fun e => is_or_any vaultId (Some (l_vault_id e)) && is_or_any gatewayCredentialId (l_gateway_credential_id e) = true) (ledger t)).
Definition listNotifications (limit : Z) (vaultId : option Z) (includeAcknowledged : bool) (now : Z) (t : Tables) : list PriceBudgetNotification :=
  newest n_created_at n_id limit 500
    (filter (fun n => match n_expires_at n with Some e => now <? e | None => true end
                      && (includeAcknowledged || (n_acknowledged_at n == None)) && is_or_any vaultId (n_vault_id n) = true) (notifications t)).
Definition list_overrides (limit : Z) (vaultId : option Z) (includeExpired : bool) (t : Tables) : list PriceBudgetOverride :=
  newest o_created_at o_id limit 500
    (filter (fun o => (includeExpired || (o_status o !== OExpired)) && is_or_any vaultId (Some (o_vault_id o)) = true) (overrides t)).

(** ** Texts *)
Definition newline : str := ["010"%char].
Definition line (s : str) : str := s ++ newline.
Definition check_line (c : PriceBudgetWindowCheck) : str :=
  line ($"      - policy " ++ Prelude.to_string (c_policy_id c) ++ $" " ++ scopeToString (c_scope c) ++ $" " ++ windowToString (c_window c)
        ++ $": requested " ++ c_requested c ++ $" " ++ c_currency c
        ++ match c_limit c with
           | Some l => $", remaining before " ++ c_remaining_before c ++ $", limit " ++ l ++ (if c_exceeded c then $" (exceeded)" else [])
           | None => $", no limit"
           end).
Definition formatPriceBudgetDecisionForDryRun (d : PriceBudgetDecision) : str :=
  line $"  Price budget decision:"
  ++ line ($"    Applicable policies: " ++ Prelude.to_string (Z.of_nat (length (policies d))))
  ++ line ($"    Result: " ++ (if allowed d then (if is_empty (warnings d) then $"pass" else $"warn") else $"fail"))
  ++ (if is_empty (reason d) then [] else line ($"    Reason: " ++ reason d))
  ++ (if is_empty (warnings d) then [] else line $"    Warnings:" ++ concat (map (fun w => line ($"      - " ++ w)) (warnings d)))
  ++ (if is_empty (checks d) then [] else line $"    Budget windows:" ++ concat (map check_line (checks d)))
  ++ $"    Enforcement would stall: " ++ (if stalled d then $"yes" else $"no").

Definition or_unknown (s : str) : str := if is_empty s then $"unknown" else s.
Definition formatGatewayBudgetDenialForS3 (d : PriceBudgetDecision) (r : PriceBudgetPreflightRequest) : str :=
  let c := primary_blocking_check d in
  let of_check {A} (f : PriceBudgetWindowCheck -> A) (a : A) := match c with Some c => f c | None => a end in
  (if synthetic r then $"S3 gateway synthetic local budget exceeded: " else $"S3 gateway price budget exceeded: ")
  ++ $"scope=" ++ (if is_empty (primary_blocking_scope d) then or_unknown (exceeded_scope d) else primary_blocking_scope d)
  ++ $", policy_id=" ++ Prelude.to_string (of_check c_policy_id (default 0 (exceeded_policy_id d)))
  ++ $", window=" ++ of_check (fun c => windowToString (c_window c)) (or_unknown (primary_blocking_window d))
  ++ $", limit=" ++ of_check (fun c => default [] (c_limit c)) (limit d)
  ++ $", used_before=" ++ of_check c_used_before (used_before d)
  ++ $", remaining=" ++ of_check c_remaining_before (remaining_before d)
  ++ $", requested=" ++ of_check c_requested (requested d)
  ++ $", currency=" ++ of_check c_currency (currency d)
  ++ $", provider_key=" ++ provider_key r
  ++ $", vault_id=" ++ Prelude.to_string (vault_id r)
  ++ $", gateway_credential_id=" ++ match gateway_credential_id r with Some id => Prelude.to_string id | None => $"none" end
  ++ $", operation=" ++ operation r
  ++ $", request_uuid=" ++ request_uuid r.

(** ** The service: transactions one after the other

    A transaction may fail by the server; the clock stands during one. *)
Class Server (W : Type) := { transaction_fails : W -> option str * W; db_now : W -> Z }.
Record World (W : Type) := mkWorld { tables : Tables; server : W; outbox : list PriceBudgetNotification }.
Arguments mkWorld {W}. Arguments tables {W}. Arguments server {W}. Arguments outbox {W}.

Section Service.
Context {W : Type} `{Server W} `{Calendar}.
Notation M A := (Monad.M (World W) str A).

Definition exec {A} (f : Z -> Tables -> result str (A * Tables)) : M A := fun w =>
  let '(fails, s) := transaction_fails (server w) in
  let w := mkWorld (tables w) s (outbox w) in
  match fails with
  | Some m => (Err m, w)
  | None => match f (db_now s) (tables w) with
            | Ok (a, t) => (Ok a, mkWorld t s (outbox w))
            | Err m => (Err m, w)
            end
  end.
Definition exec_unit (f : Z -> Tables -> Tables) : M unit := exec (fun now t => Ok (tt, f now t)).
Definition lift {A} (r : result str A) : M A := reads (fun _ => r).

Definition createNotification (n : PriceBudgetNotification) : M PriceBudgetNotification :=
  let! saved := exec (fun now t => Ok (store_note n now t)) in
  (if shouldEmailBudgetNotification saved then modify (fun w => mkWorld (tables w) (server w) (outbox w ++ [saved])) else ret tt);;
  ret saved.
Definition notify (n : PriceBudgetNotification) : M unit := createNotification n;; ret tt.
Definition expireOverrides : M unit := exec_unit expire_overrides.

Definition consumeApprovedOverride (vaultId : Z) (policyIds : list Z) (runUuid : option str) : M (option PriceBudgetOverride) :=
  if is_empty policyIds then ret None
  else
    expireOverrides;;
    let! consumed := exec (consume_row vaultId policyIds runUuid) in
    (match consumed with
     | Some o => notify (note $"budget.override_used" $"info" $"Approved S3 price budget override was consumed by a sync run."
                           (Some $"single_run") (Some (o_vault_id o)) None (head policyIds) runUuid)
     | None => ret tt
     end);;
    ret consumed.

Definition recordPreflightNotifications (r : PriceBudgetPreflightRequest) (d : PriceBudgetDecision) : M unit :=
  if dry_run r || is_empty (policies d) then ret tt
  else
    (if stalled d then
       notify (makeDecisionNotification r d
         (if isLimitExceededReason (reason d) then $"budget.sync_blocked" else notificationTypeForPricingEvaluationIssue (reason d))
         $"critical" (if is_empty (reason d) then $"S3 price budget enforcement stalled this sync before remote work." else reason d))
     else ret tt);;
    for_each (warnings d) (fun w =>
      notify (makeDecisionNotification r d
        (if contains_text w $"would exceed" || contains_text w $"exceedance" then $"budget.warn_threshold"
         else notificationTypeForPricingEvaluationIssue w) $"warning" w)).

Definition upsertPolicy (policy : PriceBudgetPolicy) : M PriceBudgetPolicy :=
  lift (validatePolicyForWrite policy);;
  let policy := mkPolicy (p_id policy) (p_scope policy) (p_provider_key policy) (p_vault_id policy) (p_gateway_credential_id policy) (p_mode policy)
    (normalizePriceBudgetCurrency (p_currency policy)) (max_run_cost policy) (max_daily_cost policy) (max_monthly_cost policy)
    (require_verified_catalog policy) (allow_stale_catalog policy) (max_catalog_age_seconds policy) (is_active policy) in
  let! saved := exec (fun _ => upsert_row policy) in
  notify (note $"budget.policy_changed" (if p_mode saved == Enforce then $"warning" else $"info")
            ($"S3 price budget policy " ++ Prelude.to_string (p_id saved) ++ $" was saved.") (Some (scopeToString (p_scope saved)))
            (p_vault_id saved) (p_provider_key saved) (Some (p_id saved)) None);;
  ret saved.
Definition disablePolicy scope providerKey vaultId gatewayCredentialId : M bool :=
  let! disabledId := exec (fun _ => disable_row scope providerKey vaultId gatewayCredentialId) in
  match disabledId with
  | Some id =>
      notify (note $"budget.policy_changed" $"info" ($"S3 price budget policy " ++ Prelude.to_string id ++ $" was disabled.")
                (Some (scopeToString scope)) vaultId providerKey (Some id) None);;
      ret true
  | None => ret false
  end.

Definition override_note (type severity message : str) (o : PriceBudgetOverride) : PriceBudgetNotification :=
  note type severity message (Some $"single_run") (Some (o_vault_id o)) None (head (o_policy_ids o)) (o_run_uuid o).
Definition requestOverride (r : PriceBudgetOverrideRequest) : M PriceBudgetOverride :=
  let! currency := lift (check_request r) in
  let! saved := exec (request_row r currency) in
  notify (override_note $"budget.override_requested" $"warning" $"A single-run S3 price budget override was requested." saved);;
  ret saved.
Definition approveOverride (overrideId approvedBy : Z) : M PriceBudgetOverride :=
  expireOverrides;;
  let! saved := exec (approve_row overrideId approvedBy) in
  notify (override_note $"budget.override_approved" $"info" $"A single-run S3 price budget override was approved." saved);;
  ret saved.
Definition denyOverride (overrideId deniedBy : Z) (reason : option str) : M PriceBudgetOverride :=
  expireOverrides;;
  let! saved := exec (deny_row overrideId deniedBy reason) in
  notify (override_note $"budget.override_denied" $"info" $"A single-run S3 price budget override was denied." saved);;
  ret saved.
Definition acknowledgeNotification (notificationId userId : Z) : M PriceBudgetNotification := exec (acknowledge_row notificationId userId).

Definition listOverrides (limit : Z) (vaultId : option Z) (includeExpired : bool) : M (list PriceBudgetOverride) :=
  expireOverrides;; exec (fun _ t => Ok (list_overrides limit vaultId includeExpired t, t)).

Definition preflight_ (r : PriceBudgetPreflightRequest) : M PriceBudgetDecision := exec (preflight r).
Definition commit_ (rs : list PriceBudgetReservation) (finalCost : option str) : M unit :=
  exec (fun _ t => let? t := commit rs finalCost t in Ok (tt, t)).
Definition release_ (rs : list PriceBudgetReservation) : M unit := exec_unit (fun _ => release rs).
End Service.

Definition exceededEnforcePolicyIds (d : PriceBudgetDecision) : list Z :=
  if negb (is_empty (blocking_policy_ids d)) then blocking_policy_ids d
  else let ids := id_set (map c_policy_id (filter (fun c => c_exceeded c && (c_mode c == Enforce) = true) (checks d))) in
       if is_empty ids && isLimitExceededReason (reason d) then match exceeded_policy_id d with Some id => [id] | None => ids end else ids.
Definition isLimitOverrideEligible (d : PriceBudgetDecision) : bool :=
  stalled d && isLimitExceededReason (reason d) && negb (is_empty (exceededEnforcePolicyIds d)).

(** ** Decimals are read back *)
Lemma fixed_digits_spec n z : 0 <= z < 10 ^ Z.of_nat n ->
  length (fixed_digits n z) = n /\ forallb is_digit (fixed_digits n z) = true /\ digits_to 0 (fixed_digits n z) = z.
Proof.
  revert z. induction n as [|n IH]; intros z Hz; [split_and!; try done; change (10 ^ Z.of_nat 0) with 1 in Hz; cbn; lia|].
  rewrite Nat2Z.inj_succ, Z.pow_succ_r in Hz by lia. pose proof (Z.mod_pos_bound z 10 ltac:(lia)) as Hm.
  destruct (digit_char_spec _ Hm) as [Hd Hv].
  destruct (IH (z / 10)) as (H1 & H2 & H3). { split; [apply Z.div_pos; lia|apply Z.div_lt_upper_bound; lia]. }
  cbn [fixed_digits]. split_and!.
  - rewrite length_app, H1. cbn. lia.
  - rewrite forallb_app, H2. cbn. by rewrite Hd.
  - rewrite digits_to_app, H3. unfold digits_to. cbn. rewrite Hv. pose proof (Z.div_mod z 10 ltac:(lia)). lia.
Qed.

Lemma digits_no_dot s : forallb is_digit s = true -> dot ∉ s.
Proof. intros Hs. by eapply forallb_not_elem. Qed.

Lemma format_shape z : Z.abs z < 10 ^ 27 -> exists i f, budgetFormatDecimal z = (if z <? 0 then $"-" else []) ++ i ++ dot :: f /\
  i <> [] /\ forallb is_digit i = true /\ forallb is_digit f = true /\ length f = 8%nat /\
  decimal_value i * unit_ + decimal_value f = Z.abs z.
Proof.
  intros Hz. exists (Prelude.to_string (Z.abs z / unit_)), (fixed_digits 8 (Z.abs z mod unit_)).
  pose proof (Z.mod_pos_bound (Z.abs z) unit_ ltac:(done)) as Hm.
  destruct (to_string_spec (Z.abs z / unit_)) as (H1 & H2 & H3).
  { split; [apply Z.div_pos; lia|]. apply Z.div_lt_upper_bound; unfold unit_; lia. }
  destruct (fixed_digits_spec 8 (Z.abs z mod unit_)) as (F1 & F2 & F3); [done|].
  split_and!; try done. unfold decimal_value in *. unfold digits_to in *. rewrite H3, F3. pose proof (Z.div_mod (Z.abs z) unit_ ltac:(done)). lia.
Qed.

Lemma unsigned_shape i f : i <> [] -> forallb is_digit i = true -> forallb is_digit f = true -> length f = 8%nat ->
  unsignedDecimal (i ++ dot :: f) = Ok (decimal_value i * unit_ + decimal_value f).
Proof.
  intros Hi Di Df Lf. unfold unsignedDecimal. rewrite split_first_app by by apply digits_no_dot.
  rewrite forallb_app, Di, Df, Lf. cbn [andb]. assert (is_empty (i ++ f) = false) as -> by by destruct i. cbn [negb andb Nat.leb].
  f_equal. change (8 - Z.of_nat 8) with 0. lia.
Qed.

Lemma digits_not_space s : forallb is_digit s = true -> forall c, c ∈ s -> is_space c = false.
Proof. intros Hs c Hc. destruct (is_space c) eqn:E; [|done]. exfalso. rewrite forallb_forall in Hs. apply list_elem_of_In, Hs in Hc.
  unfold is_space, is_digit, in_chars in *. bsimpl. destruct E as [->|E]; [done|]. bsimpl. rewrite !Nat.leb_le in *.
  change (Ascii.nat_of_ascii "0"%char) with 48%nat in *. change (Ascii.nat_of_ascii "013"%char) with 13%nat in *. lia.
Qed.

Lemma decimal_scan_digits s rest dt dg n : forallb is_digit s = true ->
  decimal_scan (s ++ rest) dt dg n = decimal_scan rest dt (dg || negb (is_empty s)) (if dt then n + length s else n)%nat.
Proof.
  revert dg n. induction s as [|c s IH]; intros dg n Hs; cbn [app length is_empty negb].
  - rewrite orb_false_r. by destruct dt; rewrite ?Nat.add_0_r.
  - cbn [forallb] in Hs. bsimpl. match goal with E : is_digit c = true |- _ => cbn [decimal_scan]; rewrite E end. rewrite IH by done.
    rewrite orb_true_r. cbn [orb]. f_equal. destruct dt; lia.
Qed.

Lemma unsigned_decimal_first c s : c <> "-"%char -> budgetDecimalFromString (c :: s) = unsignedDecimal (c :: s).
Proof. intros Hc. unfold budgetDecimalFromString. destruct c as [[] [] [] [] [] [] [] []]; done. Qed.
Lemma format_parse z : Z.abs z < 10 ^ 27 -> budgetDecimalFromString (budgetFormatDecimal z) = Ok z.
Proof.
  intros Hz. destruct (format_shape z Hz) as (i & f & E & Hi & Di & Df & Lf & V). rewrite E.
  pose proof (unsigned_shape i f Hi Di Df Lf) as U. rewrite V in U.
  destruct i as [|c i]; [done|]. case_if; bsimpl.
  - change ($"-" ++ ?s) with ("-"%char :: s). cbn [budgetDecimalFromString]. rewrite U. cbn. f_equal. lia.
  - cbn [app] in *. rewrite unsigned_decimal_first by (by intros ->). rewrite U. f_equal. lia.
Qed.

(** An amount survives its text: what the code formats with eight places is read back
    as the same amount, sign included, for every value of a money column and sums far
    beyond; and the text of an amount that is not negative is a valid budget decimal. *)
Theorem price_decimal_roundtrip z : Z.abs z < 10 ^ 27 ->
  budgetDecimalFromString (budgetFormatDecimal z) = Ok z /\
  (0 <= z -> isValidPriceBudgetDecimal (budgetFormatDecimal z) = true).
Proof.
  intros Hz. split; [by apply format_parse|]. intros Hpos. unfold isValidPriceBudgetDecimal, trim.
  pose proof (format_parse z Hz) as P. destruct (format_shape z Hz) as (i & f & E & Hi & Di & Df & Lf & _). rewrite E in *.
  destruct i as [|c i]; [done|]. assert (c <> "-"%char) as Hc by (intros ->; by cbn in Di).
  rewrite (proj2 (Z.ltb_ge z 0)) in * by lia. cbn [app] in *.
  assert (trim_by is_space (c :: i ++ dot :: f) = c :: i ++ dot :: f) as ->.
  { apply trim_by_id.
    - apply (digits_not_space (c :: i)); [done|left].
    - rewrite app_comm_cons, rev_app_distr. cbn [rev]. rewrite <- app_assoc. destruct (rev f) as [|x r] eqn:Er.
      + apply (f_equal length) in Er. rewrite length_rev, Lf in Er. done.
      + cbn. apply (digits_not_space f); [done|]. apply list_elem_of_In, in_rev. rewrite Er. by left. }
  cbn [is_empty orb]. assert (starts_with (c :: i ++ dot :: f) $"-" = false) as ->.
  { unfold starts_with, strip_prefix. change $"-" with ["-"%char]. cbn. by destruct ("-"%char == c) eqn:Ec; bsimpl. }
  pose proof (decimal_scan_digits f [] true true 0 Df) as Sf. rewrite app_nil_r, Lf in Sf.
  assert (decimal_scan (c :: i ++ dot :: f) false false 0 = Some (true, 8%nat)) as ->.
  { rewrite app_comm_cons, decimal_scan_digits by done. exact Sf. }
  cbn [negb orb]. change (8 <? 8)%nat with false. cbn iota. rewrite P. by apply Z.leb_le.
Qed.

(** ** What a preflight reserves *)
Section Reserving.
Context `{Calendar}.
Implicit Types (r : PriceBudgetPreflightRequest) (p : PriceBudgetPolicy) (d : PriceBudgetDecision) (t : Tables) (e : PriceBudgetLedgerEntry)
  (w : PriceBudgetWindow).

Definition reservable r (ids : list Z) p : bool :=
  (p_mode p !== Off) && containsId ids (p_id p)
  && (normalizePriceBudgetCurrency (e_currency (estimate r)) == normalizePriceBudgetCurrency (p_currency p)).
(** A policy and window of each row. *)
Definition slots_of p : list (Z * PriceBudgetWindow) := map (fun w => (p_id p, w)) (configuredWindows p).
Definition slots r ids (l : list PriceBudgetPolicy) : list (Z * PriceBudgetWindow) :=
  flat_map (fun p => if reservable r ids p then slots_of p else []) l.
Definition slot e : Z * PriceBudgetWindow := (l_policy_id e, l_window e).
Definition reservation_of e : PriceBudgetReservation := mkReservation (l_id e) (l_policy_id e) (l_window e).

Definition fresh r (now : Z) e : Prop :=
  l_status e = Reserved /\ l_committed_cost e = None /\ l_created_at e = now /\ l_window_start e = windowStart (l_window e) now /\
  l_run_uuid e = run_uuid r /\ l_vault_id e = vault_id r /\
  budgetDecimalFromString (estimated_cost (estimate r)) = Ok (l_reserved_cost e).
(** [new] rows appended, the reservations of the decision with them. *)
Definition reserves r now (new : list PriceBudgetLedgerEntry) d t d' t' : Prop :=
  t' = with_ledger (ledger t ++ new) (next_entry t + Z.of_nat (length new)) t /\
  d' = with_reservations (reservations d ++ map reservation_of new) d /\
  Forall (fresh r now) new /\ map l_id new = map (fun k => next_entry t + Z.of_nat k) (seq 0 (length new)).

Lemma reserves_nil r now d t : reserves r now [] d t d t.
Proof.
  unfold reserves. cbn. rewrite !app_nil_r. split_and!; try done; [|by destruct d].
  destruct t. unfold with_ledger. cbn. f_equal. lia.
Qed.
Lemma reserves_app r now n1 n2 d t d1 t1 d2 t2 : reserves r now n1 d t d1 t1 -> reserves r now n2 d1 t1 d2 t2 ->
  reserves r now (n1 ++ n2) d t d2 t2.
Proof.
  intros (-> & -> & F1 & I1) (-> & -> & F2 & I2). unfold reserves. cbn. rewrite !length_app, !map_app, <- !app_assoc. split_and!.
  - unfold with_ledger. cbn. f_equal. lia.
  - done.
  - by apply Forall_app.
  - rewrite I1, I2. cbn [next_entry with_ledger]. rewrite seq_app, map_app. f_equal.
    rewrite <- (Nat.add_0_r (0 + length n1)), <- fmap_add_seq. rewrite map_map. apply map_ext. intros k. lia.
Qed.

Lemma reserve_spec r now p w d t d' t' : reserve r now p w (d, t) = Ok (d', t') ->
  exists new, reserves r now new d t d' t' /\ map slot new = [(p_id p, w)].
Proof.
  unfold reserve. intros (cost & Hc & (z & Hn & [= <- <-])%rbind_Ok)%rbind_Ok.
  unfold numeric in Hn. case_if_in Hn; [|done]. injection Hn as <-.
  eexists [_]. split.
  - split_and!; [reflexivity|reflexivity| |cbn; f_equal; lia]. repeat constructor. exact Hc.
  - reflexivity.
Qed.
Lemma reserve_windows_spec r now p ws d t d' t' : reserve_windows r now p ws (d, t) = Ok (d', t') ->
  exists new, reserves r now new d t d' t' /\ map slot new = map (fun w => (p_id p, w)) ws.
Proof.
  revert d t. induction ws as [|w ws IH]; intros d t; cbn [reserve_windows].
  - intros [= <- <-]. exists []. split; [apply reserves_nil|done].
  - intros ([d1 t1] & (n1 & R1 & S1)%reserve_spec & (n2 & R2 & S2)%IH)%rbind_Ok. exists (n1 ++ n2).
    split; [by eapply reserves_app|]. by rewrite map_app, S1, S2.
Qed.
Lemma reserve_policies_spec r now ids l d t d' t' : reserve_policies r now ids l (d, t) = Ok (d', t') ->
  exists new, reserves r now new d t d' t' /\ map slot new = slots r ids l.
Proof.
  revert d t. induction l as [|p l IH]; intros d t; cbn [reserve_policies].
  - intros [= <- <-]. exists []. split; [apply reserves_nil|done].
  - intros ([d1 t1] & Hp & (n2 & R2 & S2)%IH)%rbind_Ok.
    assert (exists n1, reserves r now n1 d t d1 t1 /\ map slot n1 = if reservable r ids p then slots_of p else []) as (n1 & R1 & S1).
    { assert (reservable r ids p = negb ((p_mode p == Off) || negb (containsId ids (p_id p))
        || (normalizePriceBudgetCurrency (e_currency (estimate r)) !== normalizePriceBudgetCurrency (p_currency p)))) as ->.
      { unfold reservable. by rewrite !negb_orb, !negb_involutive. }
      case_if_in Hp; cbn [negb]; [|by apply reserve_windows_spec in Hp]. injection Hp as <- <-. exists []. split; [apply reserves_nil|done]. }
    exists (n1 ++ n2). split; [by eapply reserves_app|]. rewrite map_app, S1, S2. done.
Qed.

(** ** What a preflight that does not block has checked *)
Definition clear d : Prop := stalled d = false /\ blocking_checks d = [].
Definition overridden r p : bool := containsId (override_policy_ids r) (p_id p).
(** The estimate fits the policy's limit for the window. *)
Definition fits r t now p (cost : Z) w : Prop := exists c, window_check t now p cost w = Ok c /\ c_exceeded c = false.

Lemma finalize_clear d : stalled (finalizeBlockingDecision d) = false -> clear d.
Proof. unfold finalizeBlockingDecision, clear. by destruct (blocking_checks d). Qed.

Lemma check_window_clear r t now p cost w d d' : check_window r t now p cost w d = Ok d' -> clear d' ->
  clear d /\ (p_mode p = Enforce -> overridden r p = false -> fits r t now p cost w).
Proof.
  unfold check_window, clear. intros (c & Hc & Hd)%rbind_Ok [Hs Hb]. case_if_in Hd.
  - injection Hd as <-. cbn in Hs, Hb. rewrite app_nil_r in Hb. bsimpl. split; [done|]. intros _ _. by exists c.
  - destruct (p_mode p); [injection Hd as <-; cbn in *; rewrite app_nil_r in Hb; split; [done|discriminate]..|].
    unfold overridden. case_if_in Hd; injection Hd as <-; cbn in *; [rewrite app_nil_r in Hb; split; [done|congruence]|].
    by destruct (blocking_checks d).
Qed.
Lemma check_windows_clear r t now p cost ws d d' : check_windows r t now p cost ws d = Ok d' -> clear d' ->
  clear d /\ (p_mode p = Enforce -> overridden r p = false -> Forall (fits r t now p cost) ws).
Proof.
  revert d. induction ws as [|w ws IH]; intros d; cbn [check_windows].
  - intros [= <-] Hc. split; [done|]. intros; constructor.
  - intros (d1 & H1 & H2)%rbind_Ok Hc. destruct (IH _ H2 Hc) as [Hc1 F]. destruct (check_window_clear _ _ _ _ _ _ _ _ H1 Hc1) as [Hc0 F0].
    split; [done|]. intros He Ho. constructor; auto.
Qed.
Lemma unevaluated_clear d p why : clear (unevaluated d p why) -> clear d /\ p_mode p <> Enforce.
Proof.
  unfold unevaluated, setBlocked, clear. case_if; bsimpl; [|intros [Hs Hb]; by split].
  destruct (stalled d) eqn:Es; cbn; [rewrite Es|]; by intros [].
Qed.
Lemma check_policy_clear r t now p d d' ok : check_policy r t now p d = Ok (d', ok) -> clear d' ->
  clear d /\ (p_mode p = Enforce -> overridden r p = false -> exists cost,
    budgetDecimalFromString (estimated_cost (estimate r)) = Ok cost /\ Forall (fits r t now p cost) (configuredWindows p)).
Proof.
  unfold check_policy. case_if; bsimpl.
  { intros [= <- <-] Hc. split; [done|]. intros He. congruence. }
  destruct (policyIssue r p) as [why|]; [|case_if].
  1,2: intros [= <- <-] [Hc Hm]%unevaluated_clear; by split.
  intros (cost & Hcost & (d1 & Hd & [= <- <-])%rbind_Ok)%rbind_Ok Hc.
  destruct (check_windows_clear _ _ _ _ _ _ _ _ Hd Hc) as [Hc0 F]. split; [done|]. intros He Ho. exists cost. auto.
Qed.
Lemma check_policies_clear r t now l d ids d' ids' : check_policies r t now l d ids = Ok (d', ids') -> clear d' ->
  clear d /\ forall p, p ∈ l -> p_mode p = Enforce -> overridden r p = false -> exists cost,
    budgetDecimalFromString (estimated_cost (estimate r)) = Ok cost /\ Forall (fits r t now p cost) (configuredWindows p).
Proof.
  revert d ids. induction l as [|p l IH]; intros d ids; cbn [check_policies].
  - intros [= <- <-] Hc. split; [done|]. intros p Hp. by apply not_elem_of_nil in Hp.
  - intros ([d1 ok] & H1 & H2)%rbind_Ok Hc. destruct (IH _ _ H2 Hc) as [Hc1 F]. destruct (check_policy_clear _ _ _ _ _ _ _ H1 Hc1) as [Hc0 F0].
    split; [done|]. intros p' [->|Hp]%elem_of_cons; auto.
Qed.

(** An enforced policy that does not block is evaluated. *)
Lemma issue_currency r p : policyIssue r p = None ->
  normalizePriceBudgetCurrency (e_currency (estimate r)) = normalizePriceBudgetCurrency (p_currency p).
Proof. unfold policyIssue. repeat (case_if; [done|]). intros _. by bsimpl. Qed.
Lemma check_policy_evaluated r t now p d d' ok : check_policy r t now p d = Ok (d', ok) -> clear d' -> p_mode p = Enforce ->
  ok = true /\ policyIssue r p = None /\ estimateCanBeReserved (estimate r) = true.
Proof.
  unfold check_policy. intros H1 Hc He. assert (p_mode p == Off = false) as Em by (by rewrite He). rewrite Em in H1.
  destruct (policyIssue r p) as [why|]; [|case_if_in H1].
  1,2: injection H1 as <- <-; by apply unevaluated_clear in Hc as [].
  apply rbind_Ok in H1 as (cost & _ & (d1 & _ & [= _ <-])%rbind_Ok). by bsimpl.
Qed.
Lemma containsId_true l id : containsId l id = true <-> id ∈ l.
Proof.
  unfold containsId. rewrite existsb_exists. split.
  - intros (x & Hx & E). bsimpl. subst. by apply list_elem_of_In.
  - intros Hx. exists id. split; [by apply list_elem_of_In|apply Z.eqb_refl].
Qed.
Lemma check_policies_evaluated r t now l d ids d' ids' : check_policies r t now l d ids = Ok (d', ids') -> clear d' ->
  ids ⊆ ids' /\ forall p, p ∈ l -> p_mode p = Enforce -> reservable r ids' p = true /\ estimateCanBeReserved (estimate r) = true.
Proof.
  revert d ids. induction l as [|p l IH]; intros d ids; cbn [check_policies].
  - intros [= <- <-] Hc. split; [done|]. intros p Hp. by apply not_elem_of_nil in Hp.
  - intros ([d1 ok] & H1 & H2)%rbind_Ok Hc. destruct (IH _ _ H2 Hc) as [Hi F].
    assert (clear d1) as Hc1 by (by eapply check_policies_clear).
    split; [destruct ok; set_solver|]. intros p' [->|Hp]%elem_of_cons He; [|auto].
    destruct (check_policy_evaluated _ _ _ _ _ _ _ H1 Hc1 He) as (-> & Hn & Hr). split; [|done].
    unfold reservable. rewrite He, (issue_currency _ _ Hn), eqb_refl, andb_true_r. apply andb_true_iff. split; [done|].
    apply containsId_true. set_solver.
Qed.

(** ** What is used of a budget *)
Lemma used_app a b id w start : used (a ++ b) id w start = used a id w start + used b id w start.
Proof. unfold used. induction a as [|e a IH]; cbn [foldr app]; [lia|]. rewrite IH. lia. Qed.
Definition contribution id w start e : Z := if counts id w start e then activeLedgerCost e else 0.
Lemma used_map_le f l id w start : (forall e, e ∈ l -> contribution id w start (f e) <= contribution id w start e) ->
  used (map f l) id w start <= used l id w start.
Proof.
  intros Hf. unfold used. induction l as [|e l IH]; [done|]. cbn [map foldr].
  fold (contribution id w start (f e)) (contribution id w start e). pose proof (Hf e ltac:(left)).
  apply Z.add_le_mono; [done|]. apply IH. intros x Hx. apply Hf. by right.
Qed.

Definition sound_entry e : Prop :=
  0 <= l_reserved_cost e /\ (forall c, l_committed_cost e = Some c -> 0 <= c) /\ (l_status e = Reserved -> l_committed_cost e = None).
Lemma contribution_nonneg id w start e : sound_entry e -> 0 <= contribution id w start e.
Proof.
  intros (Hr & Hc & _). unfold contribution, activeLedgerCost. case_if; [|done]. destruct (l_committed_cost e) as [c|]; cbn; auto.
Qed.

Lemma configuredWindows_NoDup p : NoDup (configuredWindows p).
Proof.
  unfold configuredWindows. destruct (has_limit (max_run_cost p)), (has_limit (max_daily_cost p)), (has_limit (max_monthly_cost p)); cbn;
    repeat constructor; set_solver.
Qed.
Lemma slots_in r ids l id w : (id, w) ∈ slots r ids l -> exists p, p ∈ l /\ p_id p = id /\ w ∈ configuredWindows p.
Proof.
  unfold slots. rewrite list_elem_of_In, in_flat_map. intros (p & Hp & Hin). case_if_in Hin; [|done]. apply list_elem_of_In in Hp, Hin.
  unfold slots_of in Hin. change (map ?f ?x) with (f <$> x) in Hin. apply list_elem_of_fmap in Hin as (w' & [= -> ->] & Hw). by exists p.
Qed.
Lemma slots_NoDup r ids l : NoDup (map p_id l) -> NoDup (slots r ids l).
Proof.
  induction l as [|p l IH]; intros Hn; [constructor|]. apply NoDup_cons in Hn as [Hp Hn]. cbn [slots flat_map]. apply NoDup_app. split_and!.
  - case_if; [|constructor]. unfold slots_of. apply (NoDup_fmap_2 (pair (p_id p))), configuredWindows_NoDup.
  - intros [id w] H1 H2%slots_in. destruct H2 as (p' & Hp' & Hid & _). case_if_in H1; [|by apply not_elem_of_nil in H1].
    unfold slots_of in H1. change (map ?f ?x) with (f <$> x) in *. apply list_elem_of_fmap in H1 as (w' & [= -> ->] & _). apply Hp.
    rewrite <- Hid. by apply list_elem_of_fmap_2.
  - by apply IH.
Qed.

(** The rows of one preflight, counted for one policy and window. *)
Lemma used_fresh r now new id w start cost : Forall (fresh r now) new -> NoDup (map slot new) ->
  budgetDecimalFromString (estimated_cost (estimate r)) = Ok cost ->
  used new id w start = if bool_decide ((id, w) ∈ map slot new /\ windowStart w now = start) then cost else 0.
Proof.
  intros Hf Hn Hc. induction new as [|e new IH].
  - rewrite bool_decide_false; [done|]. intros [Hx _]. by apply not_elem_of_nil in Hx.
  - apply Forall_cons in Hf as [(E1 & E2 & _ & E3 & _ & _ & E4) Hf].
    rewrite map_cons, NoDup_cons in Hn. destruct Hn as [Hs Hn]. specialize (IH Hf Hn).
    cbn [used foldr]. fold (used new id w start). rewrite IH. assert (l_reserved_cost e = cost) as Ec by congruence.
    unfold activeLedgerCost, counts. rewrite E1, E2, Ec, orb_true_l, andb_true_r. cbn [default].
    destruct (decide (slot e = (id, w))) as [Es|Es].
    + unfold slot in Es. injection Es as <- <-. rewrite Z.eqb_refl, eqb_refl, E3. cbn [andb].
      rewrite (bool_decide_false (_ ∈ map slot new /\ _)) by (by intros [? _]).
      destruct (Z.eqb_spec (windowStart (l_window e) now) start) as [<-|Hne].
      * rewrite bool_decide_true; [lia|]. split; [left|done].
      * rewrite bool_decide_false; [lia|]. by intros [_ ?].
    + assert ((l_policy_id e =? id) && (l_window e == w) = false) as ->.
      { apply not_true_is_false. intros E. bsimpl. apply Es. unfold slot. by f_equal. }
      cbn [andb]. rewrite Z.add_0_l, map_cons, (bool_decide_ext (_ ∈ slot e :: _ /\ _) ((id, w) ∈ map slot new /\ windowStart w now = start)); [done|].
      rewrite elem_of_cons. naive_solver.
Qed.

Lemma fits_used r t now p cost w text L : fits r t now p cost w -> w <> PerRun -> limitForWindow p w = Some text ->
  budgetDecimalFromString text = Ok L -> used (ledger t) (p_id p) w (windowStart w now) + cost <= L.
Proof.
  intros (c & Hc & Hx) Hw Ht HL. unfold window_check, usedForWindow in Hc. rewrite (proj2 (eqb_neq w PerRun) Hw), Ht in Hc.
  set (u := used _ _ _ _) in *. unfold numeric in Hc. destruct (Z.abs u <? 10 ^ 20) eqn:Eu; [|done]. cbn [rbind] in Hc.
  rewrite HL in Hc. cbn [rbind] in Hc. rewrite format_parse in Hc by (bsimpl; lia). cbn [rbind] in Hc. injection Hc as <-. cbn in Hx. bsimpl. lia.
Qed.

(** ** Outcomes of a preflight *)
Definition shape d d' : Prop :=
  reservations d' = reservations d /\ policies d' = policies d /\ (allowed d = negb (stalled d) -> allowed d' = negb (stalled d')).
#[local] Instance shape_preorder : PreOrder shape.
Proof. split; [by intros d|]. intros d1 d2 d3 (A1 & A2 & A3) (B1 & B2 & B3). split_and!; [congruence..|auto]. Qed.
Lemma check_windows_shape r t now p cost ws d d' : check_windows r t now p cost ws d = Ok d' -> shape d d'.
Proof.
  revert d. induction ws as [|w ws IH]; intros d; cbn [check_windows]; [by intros [= <-]|].
  intros (d1 & H1 & H2%IH)%rbind_Ok. transitivity d1; [|done]. unfold check_window in H1. apply rbind_Ok in H1 as (c & _ & H1).
  case_if_in H1; [by injection H1 as <-|]. destruct (p_mode p); [by injection H1 as <-..|]. case_if_in H1; by injection H1 as <-.
Qed.
Lemma check_policies_shape r t now l d ids d' ids' : check_policies r t now l d ids = Ok (d', ids') -> shape d d'.
Proof.
  revert d ids. induction l as [|p l IH]; intros d ids; cbn [check_policies]; [by intros [= <- _]|].
  intros ([d1 ok] & H1 & H2%IH)%rbind_Ok. transitivity d1; [|done]. unfold check_policy in H1. case_if_in H1; [by injection H1 as <- _|].
  assert (forall why, shape d (unevaluated d p why)) as Hu.
  { intros why. unfold unevaluated, setBlocked. case_if; [|done]. case_if; [done|]. by split_and!. }
  destruct (policyIssue r p); [by injection H1 as <- _|]. case_if_in H1; [by injection H1 as <- _|].
  apply rbind_Ok in H1 as (cost & _ & H1). apply rbind_Ok in H1 as (d2 & H1%check_windows_shape & [= -> _]). done.
Qed.
Lemma finalize_shape d : shape d (finalizeBlockingDecision d).
Proof. unfold finalizeBlockingDecision. destruct (blocking_checks d); [done|]. by split_and!. Qed.

(** Either nothing is reserved, or the run may go ahead and the rows of [slots] are. *)
Lemma preflight_cases r now t d t' : preflight r now t = Ok (d, t') ->
  policies d = found_policies r t /\ allowed d = negb (stalled d) /\
  exists new ids, reservations d = map reservation_of new /\ Forall (fresh r now) new /\
    t' = with_ledger (ledger (expire_reservations now t) ++ new) (next_entry t + Z.of_nat (length new)) t /\
    (stalled d = true \/ dry_run r = true -> new = []) /\
    (stalled d = false -> exists d0 d1, check_policies r (expire_reservations now t) now (found_policies r t) d0 [] = Ok (d1, ids) /\ clear d1) /\
    (stalled d = false -> dry_run r = false -> estimateCanBeReserved (estimate r) = true -> map slot new = slots r ids (found_policies r t)) /\
    (map slot new = [] \/ map slot new = slots r ids (found_policies r t)).
Proof.
  unfold preflight. change (found_policies r (expire_reservations now t)) with (found_policies r t).
  set (t1 := expire_reservations now t).
  assert (t1 = with_ledger (ledger t1 ++ []) (next_entry t + Z.of_nat 0) t) as Et by (rewrite app_nil_r, Z.add_0_r; done).
  destruct (is_empty (found_policies r t)) eqn:Ef.
  { apply is_empty_true in Ef. rewrite Ef. intros [= <- <-]. split_and!; try done. exists [], []. split_and!; auto.
    intros _. exists new_decision, new_decision. by split. }
  intros ([d1 ids] & Hc & Hr)%rbind_Ok. pose proof (check_policies_shape _ _ _ _ _ _ _ _ Hc) as Hs.
  destruct (finalize_shape d1) as (F1 & F2 & F3). destruct Hs as (S1 & S2 & S3). cbn in S1, S2, S3.
  assert (allowed (finalizeBlockingDecision d1) = negb (stalled (finalizeBlockingDecision d1))) as Ha by auto.
  case_if_in Hr.
  - injection Hr as <- <-. split_and!; [congruence|done|]. exists [], ids. split_and!; auto; [cbn; congruence| |].
    + intros Hst. exists (with_found_policies (found_policies r t) new_decision), d1. split; [done|by apply finalize_clear].
    + intros H1 H2 H3. by rewrite H1, H2, H3 in E.
  - apply reserve_policies_spec in Hr as (new & (Et' & Ed & Fr & _) & Sl). bsimpl. assert (clear d1) as Hcl by (by apply finalize_clear).
    rewrite Ed. cbn. split_and!; [congruence|done|]. exists new, ids. rewrite F1, S1.
    split_and!; [done|done|by rewrite Et'|intros [Hx|Hx]; congruence| |done|by right].
    intros _. exists (with_found_policies (found_policies r t) new_decision), d1. by split.
Qed.

(** C35. What a preflight does to the ledger: one that blocks and a dry run reserve nothing;
    any other adds, after expiring stale reservations, exactly the rows of its decision's
    reservations, each with the run's estimated cost, reserved, in the current window of a
    policy that applies; and a run goes ahead only with a row in every window of every enforced
    policy that applies, none of which can be skipped for a missing price or a foreign currency. *)
Theorem preflight_reserves_exactly r now t d t' : preflight r now t = Ok (d, t') ->
  allowed d = negb (stalled d) /\ policies d = found_policies r t /\ policy_rows t' = policy_rows t /\
  exists new, ledger t' = ledger (expire_reservations now t) ++ new /\ reservations d = map reservation_of new /\ Forall (fresh r now) new /\
    (stalled d = true \/ dry_run r = true -> new = []) /\
    (forall e, e ∈ new -> exists p, p ∈ found_policies r t /\ l_policy_id e = p_id p /\ l_window e ∈ configuredWindows p) /\
    (allowed d = true -> dry_run r = false -> forall p w, p ∈ found_policies r t -> p_mode p = Enforce -> w ∈ configuredWindows p ->
       (p_id p, w) ∈ map slot new).
Proof.
  intros (Hp & Ha & new & ids & Hr & Hf & Et & Hn & Hcl & Hs & Hsl)%preflight_cases. subst t'. split_and!; try done. exists new.
  split_and!; try done.
  { intros e He. destruct Hsl as [Hsl|Hsl]; [destruct new; [by apply elem_of_nil in He|done]|].
    apply (list_elem_of_fmap_2 slot) in He. change (slot <$> new) with (map slot new) in He. rewrite Hsl in He.
    unfold slots in He. apply list_elem_of_In, in_flat_map in He as (p & Hp'%list_elem_of_In & He%list_elem_of_In). exists p.
    case_if_in He; [|by apply elem_of_nil in He]. unfold slots_of in He. change (map ?f ?x) with (f <$> x) in He.
    by apply list_elem_of_fmap in He as (w & [= -> ->] & Hw). }
  intros Hal Hdry p w Hin He Hw. rewrite Ha in Hal. bsimpl.
  destruct (Hcl Hal) as (d0 & d1 & Hc & Hc1). destruct (check_policies_evaluated _ _ _ _ _ _ _ _ Hc Hc1) as [_ Hev].
  destruct (Hev p Hin He) as [Hres Hcan]. rewrite (Hs Hal Hdry Hcan). unfold slots. apply list_elem_of_In, in_flat_map.
  exists p. split; [by apply list_elem_of_In|]. rewrite Hres. apply list_elem_of_In. unfold slots_of. change (map ?f ?x) with (f <$> x).
  apply list_elem_of_fmap. by exists w.
Qed.

(** ** An enforced budget holds *)
Lemma contribution_status id w start st c e : (st = Released \/ st = Expired) -> sound_entry e ->
  contribution id w start (set_status st c e) <= contribution id w start e.
Proof.
  intros Hst He. transitivity 0; [|by apply contribution_nonneg]. unfold contribution.
  assert (counts id w start (set_status st c e) = false) as ->; [|done].
  unfold counts. cbn [l_status set_status]. apply andb_false_iff. right. by destruct Hst as [->| ->].
Qed.
Lemma contribution_commit id w start c e : c <= activeLedgerCost e -> l_status e = Reserved ->
  contribution id w start (set_status Committed (Some c) e) <= contribution id w start e.
Proof.
  intros Hc Hs. unfold contribution, counts. cbn [l_status l_policy_id l_window l_window_start set_status].
  rewrite Hs, !eqb_refl, orb_true_r, orb_true_l. case_if; [exact Hc|done].
Qed.

Lemma expire_used now t id w start : Forall sound_entry (ledger t) ->
  used (ledger (expire_reservations now t)) id w start <= used (ledger t) id w start.
Proof.
  intros Hs. apply used_map_le. intros e He. rewrite Forall_forall in Hs. case_if; [|done]. apply contribution_status; auto.
Qed.
Lemma settle_used f ids t id w start :
  (forall e, e ∈ ledger t -> l_id e ∈ ids -> l_status e = Reserved -> contribution id w start (f e) <= contribution id w start e) ->
  used (ledger (settle f ids t)) id w start <= used (ledger t) id w start.
Proof. intros Hf. apply used_map_le. intros e He. case_if; [|done]. bsimpl. apply Hf; try done. by apply containsId_true. Qed.

(** The steps that spend: preflights without an override of the policy, for estimates
    that are not negative; commits of what was reserved, or less; releases, expirations. *)
Inductive spends (id : Z) t : Tables -> Prop :=
| spend_preflight r now d t' : containsId (override_policy_ids r) id = false ->
    (forall z, budgetDecimalFromString (estimated_cost (estimate r)) = Ok z -> 0 <= z) ->
    preflight r now t = Ok (d, t') -> spends id t t'
| spend_commit rs cost t' :
    (forall text z e, cost = Some text -> budgetDecimalFromString (trim text) = Ok z -> e ∈ ledger t -> l_id e ∈ reservationIds rs ->
       z <= activeLedgerCost e) ->
    commit rs cost t = Ok t' -> spends id t t'
| spend_release rs : spends id t (release rs t)
| spend_expire now : spends id t (expireStaleReservations now t).

Definition budget_ok p w L start t : Prop :=
  p ∈ policy_rows t /\ NoDup (map p_id (policy_rows t)) /\ Forall sound_entry (ledger t) /\ used (ledger t) (p_id p) w start <= L.

Lemma Forall_map_keep {A} (P : A -> Prop) (f : A -> A) l : Forall P l -> (forall x, P x -> P (f x)) -> Forall P (map f l).
Proof. intros Hl Hf. change (map f l) with (f <$> l). rewrite Forall_fmap. eapply Forall_impl; [exact Hl|]. exact Hf. Qed.
Lemma sound_expire now t : Forall sound_entry (ledger t) -> Forall sound_entry (ledger (expire_reservations now t)).
Proof. intros Hs. apply Forall_map_keep; [done|]. intros e (H1 & H2 & H3). case_if; [by split_and!|done]. Qed.
Lemma valid_nonneg text z : isValidPriceBudgetDecimal text = true -> budgetDecimalFromString (trim text) = Ok z -> 0 <= z.
Proof.
  unfold isValidPriceBudgetDecimal. intros Hv Hz. rewrite Hz in Hv. repeat (case_if_in Hv; [done|]).
  destruct (decimal_scan _ _ _ _) as [[]|]; [|done]. case_if_in Hv; [done|]. by apply Z.leb_le.
Qed.
Lemma found_in r t p : p ∈ found_policies r t -> p ∈ policy_rows t.
Proof. unfold found_policies. by intros [_ ?]%list_elem_of_filter. Qed.
Lemma found_NoDup r t : NoDup (map p_id (policy_rows t)) -> NoDup (map p_id (found_policies r t)).
Proof. intros Hn. eapply sublist_NoDup; [exact Hn|]. apply (fmap_sublist p_id), sublist_filter. Qed.
Lemma policy_by_id (l : list PriceBudgetPolicy) p p' : NoDup (map p_id l) -> p ∈ l -> p' ∈ l -> p_id p' = p_id p -> p' = p.
Proof.
  induction l as [|x l IH]; intros Hn Hp Hp' E; [by apply not_elem_of_nil in Hp|]. rewrite map_cons, NoDup_cons in Hn. destruct Hn as [Hx Hn].
  assert (forall y, y ∈ l -> p_id y <> p_id x) as Hy.
  { intros y Hy Ey. apply Hx. rewrite <- Ey. by apply (list_elem_of_fmap_2 p_id). }
  apply elem_of_cons in Hp as [->|Hp], Hp' as [->|Hp']; [done| | |by apply IH]; exfalso; [by apply (Hy p')|by apply (Hy p)].
Qed.

Lemma preflight_budget p w text L start r now t d t' : p_mode p = Enforce -> w <> PerRun -> limitForWindow p w = Some text ->
  budgetDecimalFromString text = Ok L -> containsId (override_policy_ids r) (p_id p) = false ->
  (forall z, budgetDecimalFromString (estimated_cost (estimate r)) = Ok z -> 0 <= z) ->
  preflight r now t = Ok (d, t') -> budget_ok p w L start t -> budget_ok p w L start t'.
Proof.
  intros He Hw Ht HL Ho Hpos (_ & _ & new & ids & _ & Hf & -> & Hstop & Hcl & _ & Hsl)%preflight_cases (Hin & Hn & Hs & Hu).
  pose proof (expire_used now t (p_id p) w start Hs) as Hx. split_and!; try done; cbn [ledger with_ledger].
  - apply Forall_app. split; [by apply sound_expire|]. eapply Forall_impl; [exact Hf|]. intros e (_ & E2 & _ & _ & _ & _ & E7).
    unfold sound_entry. rewrite E2. split_and!; [by apply Hpos|done|done].
  - rewrite used_app. destruct new as [|e0 new']; [cbn [used foldr]; lia|]. set (new := e0 :: new') in *.
    destruct Hsl as [|Hsl]; [done|]. assert (stalled d = false) as Hst by (destruct (stalled d); [by discriminate Hstop; left|done]).
    destruct (Hcl Hst) as (d0 & d1 & Hc & Hc1).
    assert (exists cost, budgetDecimalFromString (estimated_cost (estimate r)) = Ok cost) as (cost & Hcost).
    { apply Forall_cons in Hf as [(_ & _ & _ & _ & _ & _ & E7) _]. eauto. }
    rewrite (used_fresh r now new _ _ _ cost) by (done || rewrite Hsl; by apply slots_NoDup, found_NoDup).
    case_bool_decide as Hb; [|lia]. destruct Hb as [Hslot <-]. rewrite Hsl in Hslot. apply slots_in in Hslot as (p' & Hp' & Eid & Hw').
    assert (p' = p) as ->. { eapply policy_by_id; [exact Hn|done| |done]. by eapply found_in. }
    destruct (proj2 (check_policies_clear _ _ _ _ _ _ _ _ Hc Hc1) p Hp' He Ho) as (cost' & Ec & Hfits).
    assert (cost' = cost) as -> by congruence. rewrite Forall_forall in Hfits. by eapply fits_used; eauto.
Qed.

Lemma spends_budget p w text L start t t' : p_mode p = Enforce -> w <> PerRun -> limitForWindow p w = Some text ->
  budgetDecimalFromString text = Ok L -> spends (p_id p) t t' -> budget_ok p w L start t -> budget_ok p w L start t'.
Proof.
  intros He Hw Ht HL Hsp Hok. destruct Hsp as [r now d t' Ho Hpos Hp|rs cost t' Hle Hc|rs|now].
  - by eapply preflight_budget.
  - destruct Hok as (Hin & Hn & Hs & Hu). unfold commit in Hc. case_if_in Hc; [by injection Hc as <-|].
    assert (forall final, (forall z, final = Some z -> 0 <= z /\ forall e, e ∈ ledger t -> l_id e ∈ reservationIds rs -> z <= activeLedgerCost e) ->
      budget_ok p w L start (commit_rows final (reservationIds rs) t)) as Hrows.
    { intros final Hfin. split_and!; try done.
      - apply Forall_map_keep; [done|]. intros e (E1 & E2 & E3). case_if; [|by split_and!]. split_and!; try done. intros c [= <-].
        destruct final as [z|]; cbn; [by apply Hfin|done].
      - etransitivity; [|exact Hu]. apply settle_used. intros e Hein Hid Hst. apply contribution_commit; [|done].
        destruct final as [z|]; cbn; [by apply (Hfin z)|]. rewrite Forall_forall in Hs. destruct (Hs e Hein) as (_ & _ & E3).
        unfold activeLedgerCost. by rewrite (E3 Hst). }
    destruct cost as [ct|]; [|injection Hc as <-; by apply Hrows].
    case_if_in Hc; [done|]. apply rbind_Ok in Hc as (z & Hz & (z' & Hz' & [= <-])%rbind_Ok). unfold numeric in Hz'.
    case_if_in Hz'; [|done]. injection Hz' as <-. apply Hrows. intros z' [= <-]. bsimpl. split; [by eapply valid_nonneg|].
    intros e Hein Hid. by eapply Hle.
  - destruct Hok as (Hin & Hn & Hs & Hu). unfold release. case_if; [by split_and!|]. split_and!; try done.
    + apply Forall_map_keep; [done|]. intros e (E1 & E2 & E3). case_if; by split_and!.
    + etransitivity; [|exact Hu]. apply settle_used. intros e Hein _ _. apply contribution_status; [by left|]. rewrite Forall_forall in Hs. auto.
  - destruct Hok as (Hin & Hn & Hs & Hu). split_and!; try done; [by apply sound_expire|]. etransitivity; [by apply expire_used|done].
Qed.

(** C22. An enforced limit holds: from tables in which the policy's window is within its
    limit, no sequence of preflights, commits, releases and expirations, at any times and
    for any runs, lets the reserved and committed cost of that day or month exceed it, as
    long as no run brings an override of the policy, estimates are not negative and a run
    commits no more than it reserved. *)
Theorem enforced_budget_holds p w text L start t t' :
  p ∈ policy_rows t -> NoDup (map p_id (policy_rows t)) -> Forall sound_entry (ledger t) -> p_mode p = Enforce -> w <> PerRun ->
  limitForWindow p w = Some text -> budgetDecimalFromString text = Ok L ->
  used (ledger t) (p_id p) w start <= L -> rtc (spends (p_id p)) t t' -> used (ledger t') (p_id p) w start <= L.
Proof.
  intros Hin Hn Hs He Hw Ht HL Hu Hr. assert (budget_ok p w L start t') as (_ & _ & _ & H'); [|done].
  assert (budget_ok p w L start t) as H0 by (by split_and!). clear Hin Hn Hs Hu.
  induction Hr as [|x y z H1 _ IH]; [done|]. apply IH. by eapply spends_budget.
Qed.
End Reserving.

(** ** The first of the smallest *)
Lemma min_element_ext {A} (less less' : A -> A -> bool) x l : (forall a b, a ∈ x :: l -> b ∈ x :: l -> less' a b = less a b) -> min_element less' x l = min_element less x l.
Proof.
  unfold min_element. assert (forall l m (S : list A), m ∈ S -> l ⊆ S -> (forall a b, a ∈ S -> b ∈ S -> less' a b = less a b) ->
    fold_left (fun m y => if less' y m then y else m) l m = fold_left (fun m y => if less y m then y else m) l m) as Hg.
  { clear x l. induction l as [|z l IH]; intros m S Hm Hl He; [done|]. cbn [fold_left]. rewrite He by set_solver.
    apply (IH _ S); [case_if; set_solver|set_solver|done]. }
  intros He. apply (Hg l x (x :: l)); [left|set_solver|done].
Qed.
Section MinElement.
Context {A : Type} (less : A -> A -> bool).
Hypothesis less_irrefl : forall a, less a a = false.
Hypothesis less_trans : forall a b c, less a b = true -> less b c = true -> less a c = true.

Lemma min_element_spec x l : min_element less x l ∈ x :: l /\ forall y, y ∈ x :: l -> less y (min_element less x l) = false.
Proof.
  unfold min_element. assert (forall l seen m, m ∈ seen -> (forall y, y ∈ seen -> less y m = false) ->
    fold_left (fun m y => if less y m then y else m) l m ∈ seen ++ l /\
    forall y, y ∈ seen ++ l -> less y (fold_left (fun m y => if less y m then y else m) l m) = false) as Hg.
  { clear x l. induction l as [|z l IH]; intros seen m Hm Hs; [by rewrite app_nil_r|]. cbn [fold_left].
    replace (seen ++ z :: l) with ((seen ++ [z]) ++ l) by (by rewrite <- app_assoc). apply IH; [case_if; set_solver|].
    intros y [Hy|Hy]%elem_of_app; case_if.
    - destruct (less y z) eqn:Ey; [|done]. pose proof (less_trans _ _ _ Ey E). rewrite (Hs y Hy) in *. done.
    - by apply Hs.
    - apply list_elem_of_singleton in Hy as ->. apply less_irrefl.
    - by apply list_elem_of_singleton in Hy as ->. }
  apply (Hg l [x] x); [left|]. intros y ->%list_elem_of_singleton. apply less_irrefl.
Qed.
End MinElement.

(** ** The check a blocked decision names *)
Definition blocking_before (a b : PriceBudgetWindowCheck) : Prop :=
  windowPriority (c_window a) < windowPriority (c_window b) \/
  (windowPriority (c_window a) = windowPriority (c_window b) /\
   (remainingForSort a < remainingForSort b \/ (remainingForSort a = remainingForSort b /\ c_policy_id a < c_policy_id b))).
Lemma primaryBlockingLess_order a b : primaryBlockingLess a b false = true <-> blocking_before a b.
Proof.
  unfold primaryBlockingLess, blocking_before. cbn [andb].
  repeat (case_if; bsimpl); rewrite ?Z.ltb_lt, ?negb_true_iff, ?negb_false_iff, ?Z.eqb_eq, ?Z.eqb_neq in *; lia.
Qed.
Lemma blocking_less_irrefl a : primaryBlockingLess a a false = false.
Proof. apply not_true_is_false. rewrite primaryBlockingLess_order. unfold blocking_before. lia. Qed.
Lemma blocking_less_trans a b c : primaryBlockingLess a b false = true -> primaryBlockingLess b c false = true -> primaryBlockingLess a c false = true.
Proof. rewrite !primaryBlockingLess_order. unfold blocking_before. lia. Qed.

(** The preference for the narrower credential scope is only asked for where there is
    nothing to prefer it to. *)
Lemma preference_unused l a b : a ∈ l -> b ∈ l -> primaryBlockingLess a b (preferVault l) = primaryBlockingLess a b false.
Proof.
  intros Ha Hb. destruct (preferVault l) eqn:Ep; [|done]. unfold preferVault in Ep. bsimpl.
  assert (forall c, c ∈ l -> isGatewaySpecificScope (c_scope c) = true -> c_scope c = GatewayCredentialVault) as Hg.
  { intros c Hc Hs. unfold isGatewaySpecificScope, isGatewayCredentialScope in Hs. bsimpl. destruct Hs as [Hs|Hs]; bsimpl; [|done].
    exfalso. assert (existsb (fun c => c_scope c == GatewayCredential) l = true); [|congruence]. apply existsb_exists.
    exists c. split; [by apply list_elem_of_In|by apply eqb_eq]. }
  unfold primaryBlockingLess. cbn [andb]. case_if; [done|]. case_if; [|done]. exfalso. bsimpl.
  match goal with E : c_scope a <> c_scope b |- _ => apply E end. by rewrite (Hg a), (Hg b).
Qed.

(** A decision over a limit names the worst of the exceeded limits: of the checks that
    block, the one of the longest window, then with the least left, then of the oldest
    policy; the rule that would put a credential's budget for one vault before the
    credential's own never applies, because the code asks for it only when no check is of
    the credential's own budget. *)
Theorem primary_check_is_worst d : blocking_checks d <> [] ->
  exists c, primary_blocking_check (finalizeBlockingDecision d) = Some c /\ c ∈ blocking_checks d /\
    (forall x, x ∈ blocking_checks d -> ~ blocking_before x c) /\
    stalled (finalizeBlockingDecision d) = true /\ allowed (finalizeBlockingDecision d) = false /\
    exceeded_policy_id (finalizeBlockingDecision d) = Some (c_policy_id c) /\
    isLimitExceededReason (reason (finalizeBlockingDecision d)) = true /\
    forall a b, a ∈ blocking_checks d -> b ∈ blocking_checks d ->
      primaryBlockingLess a b (preferVault (blocking_checks d)) = primaryBlockingLess a b false.
Proof.
  unfold finalizeBlockingDecision. destruct (blocking_checks d) as [|c l] eqn:Eb; [done|]. intros _.
  rewrite (min_element_ext (fun a b => primaryBlockingLess a b false)) by (intros; by apply preference_unused).
  destruct (min_element_spec _ blocking_less_irrefl blocking_less_trans c l) as [Hin Hmin].
  eexists. split; [reflexivity|]. split; [exact Hin|]. split; [|split_and!; try reflexivity].
  - intros x Hx Hb. apply primaryBlockingLess_order in Hb. rewrite Hmin in Hb; done.
  - intros a b. apply preference_unused.
Qed.

(** ** A late commit *)
(** The cost of a run longer than a day is lost (a defect): once any preflight or the
    maintenance has expired its reservation, the commit at the end of the run changes
    nothing, so the row counts for no policy and no window. *)
Theorem late_commit_uncounted `{Calendar} rs cost now t t' e :
  e ∈ ledger t -> l_status e = Reserved -> l_created_at e < now - kStaleReservationAge ->
  commit rs cost (expireStaleReservations now t) = Ok t' ->
  set_status Expired (l_committed_cost e) e ∈ ledger t' /\
  forall id w start, contribution id w start (set_status Expired (l_committed_cost e) e) = 0.
Proof.
  intros He Hs Hold Hc. set (e' := set_status Expired (l_committed_cost e) e).
  assert (e' ∈ ledger (expireStaleReservations now t)) as Hin.
  { cbn. change (map ?f ?l) with (f <$> l). apply list_elem_of_fmap. exists e. split; [|done]. rewrite Hs, eqb_refl. cbn [andb].
    by rewrite (proj2 (Z.ltb_lt _ _) Hold). }
  assert (forall f ids, e' ∈ ledger (settle f ids (expireStaleReservations now t))) as Hsettle.
  { intros f ids. cbn. change (map ?f ?l) with (f <$> l). apply list_elem_of_fmap. exists e'. split; [|exact Hin].
    by rewrite andb_false_r. }
  split.
  - unfold commit in Hc. case_if_in Hc; [by injection Hc as <-|]. destruct cost as [ct|]; [|injection Hc as <-; apply Hsettle].
    case_if_in Hc; [done|]. apply rbind_Ok in Hc as (z & _ & (z' & _ & [= <-])%rbind_Ok). apply Hsettle.
  - intros id w start. unfold contribution. assert (counts id w start e' = false) as ->; [|done].
    unfold counts. apply andb_false_iff. by right.
Qed.

(** ** Overrides are used once *)
Inductive override_move : OverrideStatus -> OverrideStatus -> Prop :=
| move_approve : override_move ORequested OApproved
| move_deny : override_move ORequested ODenied
| move_expire_request : override_move ORequested OExpired
| move_expire_approval : override_move OApproved OExpired
| move_use : override_move OApproved OUsed.

Definition overrides_ok (t : Tables) : Prop := NoDup (map o_id (overrides t)) /\ Forall (fun o => o_id o < next_override t) (overrides t).
(** Every row of [t] is in [t'], moved along. *)
Definition rows_move (t t' : Tables) : Prop :=
  forall o, o ∈ overrides t -> exists o', o' ∈ overrides t' /\ o_id o' = o_id o /\ rtc override_move (o_status o) (o_status o').
Definition overrides_move (t t' : Tables) : Prop := overrides_ok t -> overrides_ok t' /\ rows_move t t'.
#[local] Instance overrides_move_preorder : PreOrder overrides_move.
Proof.
  split; [intros t Ht; split; [done|]; intros o Ho; by exists o|]. intros t1 t2 t3 H1 H2 Hok. destruct (H1 Hok) as [Hok2 M1].
  destruct (H2 Hok2) as [Hok3 M2]. split; [done|]. intros o Ho. destruct (M1 o Ho) as (o1 & Ho1 & E1 & R1).
  destruct (M2 o1 Ho1) as (o2 & Ho2 & E2 & R2). exists o2. split_and!; [done|congruence|by etransitivity].
Qed.

(** An update of rows in place. *)
Lemma map_overrides_move f t : (forall o, o ∈ overrides t -> o_id (f o) = o_id o /\ rtc override_move (o_status o) (o_status (f o))) ->
  overrides_move t (with_overrides (map f (overrides t)) (next_override t) t).
Proof.
  intros Hf [Hn Hl]. split; [split|]; cbn [overrides with_overrides next_override].
  - rewrite map_map. assert (map (fun o => o_id (f o)) (overrides t) = map o_id (overrides t)) as ->; [|done].
    apply map_ext_in. intros o Ho. by apply Hf, list_elem_of_In.
  - change (map f ?l) with (f <$> l). rewrite Forall_fmap, Forall_forall in *. intros o Ho. cbn. rewrite (proj1 (Hf o Ho)). auto.
  - intros o Ho. exists (f o). split; [by apply (list_elem_of_fmap_2 f)|by apply Hf].
Qed.
Lemma expire_overrides_move now t : overrides_move t (expire_overrides now t).
Proof.
  apply map_overrides_move. intros o _. case_if; [|done]. split; [done|]. cbn. bsimpl.
  match goal with E : _ \/ _ |- _ => destruct E as [E|E]; bsimpl; rewrite E end; apply rtc_once; constructor.
Qed.
Lemma row_by_id (l : list PriceBudgetOverride) o o' : NoDup (map o_id l) -> o ∈ l -> o' ∈ l -> o_id o = o_id o' -> o = o'.
Proof.
  induction l as [|x l IH]; intros Hn Hp Hp' E; [by apply not_elem_of_nil in Hp|]. rewrite map_cons, NoDup_cons in Hn. destruct Hn as [Hx Hn].
  assert (forall y, y ∈ l -> o_id y <> o_id x) as Hy.
  { intros y Hy Ey. apply Hx. rewrite <- Ey. by apply (list_elem_of_fmap_2 o_id). }
  apply elem_of_cons in Hp as [->|Hp], Hp' as [->|Hp']; [done| | |by apply IH]; exfalso; [by apply (Hy o')|by apply (Hy o)].
Qed.
Lemma update_override_move t o f : o ∈ overrides t -> (forall x, o_id (f x) = o_id x) -> rtc override_move (o_status o) (o_status (f o)) ->
  overrides_move t (update_override (o_id o) f t).
Proof.
  intros Ho Hid Hm Hok. apply map_overrides_move; [|done]. intros x Hx. case_if; [|done]. bsimpl. split; [done|].
  assert (x = o) as ->; [|done]. by eapply row_by_id; [exact (proj1 Hok)|..].
Qed.

Lemma sooner_spec a b : sooner a b = true <->
  o_expires_at a < o_expires_at b \/ (o_expires_at a = o_expires_at b /\ o_id a < o_id b).
Proof. unfold sooner. by rewrite orb_true_iff, andb_true_iff, !Z.ltb_lt, Z.eqb_eq. Qed.
Lemma consume_spec vaultId policyIds runUuid now t o t' : consume_row vaultId policyIds runUuid now t = Ok (o, t') ->
  (o = None /\ t' = t) \/
  exists old, old ∈ overrides t /\ consumable vaultId policyIds runUuid now old = true /\ o = Some (use now runUuid old) /\
    t' = update_override (o_id old) (use now runUuid) t.
Proof.
  unfold consume_row. destruct (filter _ _) as [|x l] eqn:E; [intros [= <- <-]; by left|]. intros [= <- <-]. right.
  set (old := min_element sooner x l). assert (old ∈ x :: l) as Hold.
  { apply min_element_spec.
    - intros a. apply not_true_is_false. rewrite sooner_spec. lia.
    - intros a b c. rewrite !sooner_spec. lia. }
  rewrite <- E in Hold. apply list_elem_of_filter in Hold as [Hc Hin]. by exists old.
Qed.
Lemma consume_move vaultId policyIds runUuid now t o t' : consume_row vaultId policyIds runUuid now t = Ok (o, t') -> overrides_move t t'.
Proof.
  intros [[_ ->]|(old & Hin & Hc & _ & ->)]%consume_spec; [done|]. apply update_override_move; [done|done|]. cbn.
  unfold consumable in Hc. bsimpl. match goal with E : o_status old = _ |- _ => rewrite E end. apply rtc_once. constructor.
Qed.
Lemma decide_move id pending f conflict t o t' : decide_row id pending f conflict t = Ok (o, t') ->
  (forall x, o_id (f x) = o_id x) -> (forall x, pending x = true -> rtc override_move (o_status x) (o_status (f x))) -> overrides_move t t'.
Proof.
  unfold decide_row. destruct (find _ _) as [x|] eqn:E; [|done]. intros [= _ <-] Hid Hm. apply find_some in E as [Hin E]. bsimpl. subst id.
  apply update_override_move; auto. by apply list_elem_of_In.
Qed.
Lemma request_move r c now t o t' : request_row r c now t = Ok (o, t') -> overrides_move t t'.
Proof.
  unfold request_row. intros (cost & _ & [= _ <-])%rbind_Ok. intros [Hn Hl]. split; [split|]; cbn [overrides with_overrides next_override].
  - rewrite map_app. apply NoDup_app. split_and!; [done| |repeat constructor; set_solver].
    intros id Hid%list_elem_of_In [E|[]]%list_elem_of_In. cbn in E. subst id. apply list_elem_of_In in Hid.
    change (map ?f ?l) with (f <$> l) in Hid. apply list_elem_of_fmap in Hid as (y & Ey & Hy). rewrite Forall_forall in Hl. specialize (Hl y Hy). lia.
  - apply Forall_app. split; [|repeat constructor; cbn; lia]. eapply Forall_impl; [exact Hl|]. cbn. lia.
  - intros x Hx. exists x. split; [set_solver|done].
Qed.

Inductive OverrideOp :=
| OpRequest (r : PriceBudgetOverrideRequest) | OpApprove (id by_ : Z) | OpDeny (id by_ : Z) (reason : option str)
| OpConsume (vaultId : Z) (policyIds : list Z) (runUuid : option str) | OpExpire.

Section Overrides.
Context {W : Type} `{Server W}.
Implicit Types (w u : World W).

Definition run_override w (o : OverrideOp) : World W :=
  match o with
  | OpRequest r => (requestOverride r w).2
  | OpApprove id by_ => (approveOverride id by_ w).2
  | OpDeny id by_ reason => (denyOverride id by_ reason w).2
  | OpConsume v ids run => (consumeApprovedOverride v ids run w).2
  | OpExpire => (expireOverrides w).2
  end.

Definition moves w u : Prop := overrides_move (tables w) (tables u).
#[local] Instance moves_preorder : PreOrder moves.
Proof. split; [intros w; unfold moves; reflexivity|intros x y z H1 H2; unfold moves in *; by etrans]. Qed.

Lemma exec_moves {A} (f : Z -> Tables -> result str (A * Tables)) :
  (forall now t a t', f now t = Ok (a, t') -> overrides_move t t') -> ensures moves (exec (W := W) f).
Proof.
  intros Hf w. unfold exec, moves. destruct (transaction_fails (server w)) as [[m|] s]; cbn [snd tables]; [reflexivity|].
  destruct (f _ _) as [[a t]|m] eqn:E; cbn [snd tables]; [by eapply Hf|reflexivity].
Qed.
Lemma notify_moves n : ensures moves (notify (W := W) n).
Proof.
  unfold notify, createNotification. apply ensures_bind; [exact _| |intros; apply ensures_ret; exact _].
  apply ensures_bind; [exact _| |].
  - apply exec_moves. intros now t a t' [= _ <-]. intros Hok. split; [done|]. intros o Ho. by exists o.
  - intros saved. apply ensures_bind; [exact _| |intros; apply ensures_ret; exact _]. case_if; [|apply ensures_ret; exact _].
    intros w. unfold moves. cbn. reflexivity.
Qed.
Lemma expire_moves : ensures moves (expireOverrides (W := W)).
Proof. apply exec_moves. intros now t a t' [= _ <-]. apply expire_overrides_move. Qed.

Lemma lift_moves {A} (x : result str A) : ensures moves (lift (W := W) x).
Proof. apply ensures_reads. exact _. Qed.
Lemma op_moves w o : moves w (run_override w o).
Proof.
  destruct o as [r|id by_|id by_ reason|v ids run|]; cbn [run_override].
  - revert w. apply ensures_bind; [exact _|apply lift_moves|]. intros c. apply ensures_bind; [exact _| |].
    + apply exec_moves. intros now t a t'. apply request_move.
    + intros o. apply ensures_bind; [exact _|apply notify_moves|intros; apply ensures_ret; exact _].
  - revert w. apply ensures_bind; [exact _|apply expire_moves|]. intros _. apply ensures_bind; [exact _| |].
    + apply exec_moves. intros now t a t' Hd. eapply decide_move; [exact Hd|done|]. intros x Hx. rewrite andb_true_iff, eqb_eq in Hx. destruct Hx as [Hx _]. cbn. rewrite Hx. apply rtc_once. constructor.
    + intros o. apply ensures_bind; [exact _|apply notify_moves|intros; apply ensures_ret; exact _].
  - revert w. apply ensures_bind; [exact _|apply expire_moves|]. intros _. apply ensures_bind; [exact _| |].
    + apply exec_moves. intros now t a t' Hd. eapply decide_move; [exact Hd|done|]. intros x Hx. rewrite eqb_eq in Hx. cbn. rewrite Hx. apply rtc_once. constructor.
    + intros o. apply ensures_bind; [exact _|apply notify_moves|intros; apply ensures_ret; exact _].
  - revert w. unfold consumeApprovedOverride. case_if; [apply ensures_ret; exact _|].
    apply ensures_bind; [exact _|apply expire_moves|]. intros _. apply ensures_bind; [exact _| |].
    + apply exec_moves. intros now t a t'. apply consume_move.
    + intros c. apply ensures_bind; [exact _| |intros; apply ensures_ret; exact _]. destruct c; [apply notify_moves|apply ensures_ret; exact _].
  - apply expire_moves.
Qed.
Lemma ops_move w ops : moves w (foldl run_override w ops).
Proof.
  revert w. induction ops as [|o ops IH]; intros w; [reflexivity|]. cbn [foldl]. transitivity (run_override w o); [apply op_moves|apply IH].
Qed.

Lemma used_stays st : rtc override_move OUsed st -> st = OUsed.
Proof. intros Hr. remember OUsed as x eqn:Ex. induction Hr as [|x y z Hm _ IH]; [done|]. subst. inversion Hm. Qed.

(** The server as the next transaction finds it. *)
Definition next_transaction (s : W) : W := (transaction_fails s).2.
Lemma exec_ok {A} (f : Z -> Tables -> result str (A * Tables)) w a u : exec f w = (Ok a, u) ->
  f (db_now (next_transaction (server w))) (tables w) = Ok (a, tables u) /\ server u = next_transaction (server w).
Proof.
  unfold exec, next_transaction. destruct (transaction_fails (server w)) as [[m|] s]; [done|]. cbn [tables snd].
  destruct (f (db_now s) (tables w)) as [[x t]|m] eqn:E; [|done]. by intros [= <- <-].
Qed.
Lemma same_ids_spec a b : same_ids a b = true <-> forall i, i ∈ a <-> i ∈ b.
Proof.
  unfold same_ids. rewrite andb_true_iff, !forallb_forall. setoid_rewrite <- list_elem_of_In. unfold containsId.
  setoid_rewrite existsb_exists. setoid_rewrite <- list_elem_of_In. setoid_rewrite Z.eqb_eq. split.
  - intros [H1 H2] i. split; intros Hi; [destruct (H2 i Hi) as (j & ? & ?)|destruct (H1 i Hi) as (j & ? & ?)]; congruence.
  - intros Hi. split; intros i Hx; exists i; (split; [by apply Hi|done]).
Qed.
Lemma notify_overrides n w : overrides (tables (notify n w).2) = overrides (tables w).
Proof.
  assert (ensures (fun w u : World W => overrides (tables u) = overrides (tables w)) (notify n)) as Hn; [|apply Hn].
  assert (PreOrder (fun w u : World W => overrides (tables u) = overrides (tables w))) as HR by (split; [by intros x|intros x y z; congruence]).
  unfold notify, createNotification. apply ensures_bind; [exact HR| |intros; apply ensures_ret; exact HR].
  apply ensures_bind; [exact HR| |intros saved; apply ensures_bind; [exact HR| |intros; apply ensures_ret; exact HR]].
  - intros x. unfold exec. by destruct (transaction_fails (server x)) as [[m|] s].
  - case_if; [|apply ensures_ret; exact HR]. by intros x.
Qed.

(** An override that may be used: approved for the vault, for the run or for no run in particular
    where one is named, for exactly the policies, and not expired. *)
Definition approved_for (v : Z) (ids : list Z) (runUuid : option str) (now : Z) (o : PriceBudgetOverride) : Prop :=
  o_vault_id o = v /\ o_status o = OApproved /\ now < o_expires_at o /\ (forall i, i ∈ o_policy_ids o <-> i ∈ ids) /\
  (forall run, runUuid = Some run -> run <> [] -> o_run_uuid o = None \/ o_run_uuid o = Some run).
Lemma consumable_approved v ids runUuid now o : consumable v ids runUuid now o = true -> approved_for v ids runUuid now o.
Proof.
  unfold consumable, approved_for. intros Hc. bsimpl. split_and!; [done..|by apply same_ids_spec|].
  intros run -> Hrun. destruct run as [|c run]; [done|]. cbn in *. destruct (o_run_uuid o); [right|by left]. bsimpl. by f_equal.
Qed.
Lemma use_keeps now runUuid o : o_id (use now runUuid o) = o_id o /\ o_vault_id (use now runUuid o) = o_vault_id o /\
  o_policy_ids (use now runUuid o) = o_policy_ids o /\ o_used_at (use now runUuid o) = Some now /\ o_status (use now runUuid o) = OUsed /\
  (forall run, runUuid = Some run -> run <> [] -> o_run_uuid (use now runUuid o) = Some (default run (o_run_uuid o))).
Proof. split_and!; try done. intros [|c run] -> Hr; done. Qed.

(** C23. An approval is used once: an override that is consumed was, on the server's clock at the
    consuming transaction, approved for that vault, for that run (or for no run in particular), for
    exactly the policies asked for, and not expired; the same transaction marks it used at that
    time, for the run that is named, and whatever requests, decisions, expirations and further
    consumptions follow, its row stays used. *)
Theorem approved_override_single_use w v ids runUuid o u ops : overrides_ok (tables w) ->
  consumeApprovedOverride v ids runUuid w = (Ok (Some o), u) ->
  let now := db_now (next_transaction (next_transaction (server w))) in
  (exists old, old ∈ overrides (tables w) /\ approved_for v ids runUuid now old /\ o_id o = o_id old) /\
  o ∈ overrides (tables u) /\ o_status o = OUsed /\ o_vault_id o = v /\ (forall i, i ∈ o_policy_ids o <-> i ∈ ids) /\ o_used_at o = Some now /\
  (forall run, runUuid = Some run -> run <> [] -> o_run_uuid o = Some run) /\
  forall row, row ∈ overrides (tables (foldl run_override u ops)) -> o_id row = o_id o -> o_status row = OUsed.
Proof.
  intros Hok Hc now. assert (overrides_ok (tables u)) as Hoku.
  { pose proof (op_moves w (OpConsume v ids runUuid) Hok) as [H1 _]. cbn in H1. by rewrite Hc in H1. }
  unfold consumeApprovedOverride in Hc. case_if_in Hc; [done|]. apply bind_ok in Hc as ([] & w1 & He & Hc).
  unfold expireOverrides, exec_unit in He. apply exec_ok in He as [[= He] Hs1].
  apply bind_ok in Hc as (c & w2 & Hx & Hc). apply exec_ok in Hx as [Hx _]. rewrite Hs1 in Hx. fold now in Hx.
  apply bind_ok in Hc as ([] & w3 & Hn & [= -> <-]).
  assert (overrides (tables w3) = overrides (tables w2)) as E3.
  { pose proof (notify_overrides (note $"budget.override_used" $"info" $"Approved S3 price budget override was consumed by a sync run."
      (Some $"single_run") (Some (o_vault_id o)) None (head ids) runUuid) w2) as En. by rewrite Hn in En. }
  apply consume_spec in Hx as [[? _]|(old & Hin & Hcon%consumable_approved & [= ->] & Et)]; [done|].
  destruct (use_keeps now runUuid old) as (Ei & Ev & Ep & Eu & Es & Er). pose proof Hcon as (Hv & Hst & _ & Hids & Hrun).
  assert (use now runUuid old ∈ overrides (tables w3)) as Huse.
  { rewrite E3, Et. cbn. change (map ?f ?l) with (f <$> l). apply list_elem_of_fmap. exists old. split; [by rewrite Z.eqb_refl|done]. }
  split_and!; [|done|done|congruence|by rewrite Ep|done| |].
  - exists old. split_and!; try done. rewrite <- He in Hin. cbn in Hin. change (map ?f ?l) with (f <$> l) in Hin.
    apply list_elem_of_fmap in Hin as (x & Ex & Hx). case_if_in Ex; [|congruence]. by subst old.
  - intros run Hr Hne. rewrite (Er run Hr Hne). by destruct (Hrun run Hr Hne) as [->| ->].
  - intros row Hrow Eid. destruct (ops_move w3 ops Hoku) as [[Hnd _] Hm]. destruct (Hm _ Huse) as (o' & Ho' & Ei' & Hr).
    assert (row = o') as -> by (eapply row_by_id; [exact Hnd|done|done|congruence]). cbn in Hr. by apply used_stays.
Qed.
End Overrides.

(** ** Summaries *)
Definition rank_of (n : PriceBudgetNotification) : Z := priceBudgetNotificationSeverityRank (n_severity n).
Lemma worse_spec a b : worse a b = true <->
  rank_of b < rank_of a \/ (rank_of a = rank_of b /\ (n_created_at b < n_created_at a \/ (n_created_at a = n_created_at b /\ n_id b < n_id a))).
Proof. unfold worse, rank_of. by rewrite orb_true_iff, andb_true_iff, orb_true_iff, andb_true_iff, !Z.ltb_lt, !Z.eqb_eq. Qed.

(** The worst severity of a list, by rank. *)
Lemma summary_worst l s : worst_severity (summary_of l) = Some s ->
  (exists n, n ∈ l /\ n_severity n = s) /\ forall n, n ∈ l -> rank_of n <= priceBudgetNotificationSeverityRank s.
Proof.
  destruct l as [|n l]; [done|]. cbn. intros [= <-]. destruct (min_element_spec worse) with (x := n) (l := l) as [Hin Hmin].
  - intros a. apply not_true_is_false. rewrite worse_spec. lia.
  - intros a b c. rewrite !worse_spec. lia.
  - split; [by eexists|]. intros x Hx. specialize (Hmin x Hx). apply not_true_iff_false in Hmin. rewrite worse_spec in Hmin.
    unfold rank_of in *. lia.
Qed.
Lemma rank_inj s s' : 1 <= priceBudgetNotificationSeverityRank s -> priceBudgetNotificationSeverityRank s = priceBudgetNotificationSeverityRank s' -> s = s'.
Proof.
  unfold priceBudgetNotificationSeverityRank, kNotificationSeverityRanks. cbn [find fst snd].
  repeat (case_if; bsimpl; subst); cbn [snd]; intros; (done || lia).
Qed.

(** Merging summaries is summarising the rows together: for notifications of the
    severities the table accepts, fewer than 2^32 of them, the counts add up and the worse
    severity wins, whichever way the rows are split. *)
Theorem notification_summaries_merge a b :
  Forall (fun n => 1 <= rank_of n) (a ++ b) -> Z.of_nat (length (a ++ b)) < 2 ^ 32 ->
  mergePriceBudgetNotificationSummary (summary_of a) (summary_of b) = summary_of (a ++ b).
Proof.
  intros Hr Hl. assert (open_count (mergePriceBudgetNotificationSummary (summary_of a) (summary_of b)) = open_count (summary_of (a ++ b))) as Ec.
  { cbn. rewrite length_app in *. rewrite Z.mod_small; lia. }
  assert (worst_severity (mergePriceBudgetNotificationSummary (summary_of a) (summary_of b)) = worst_severity (summary_of (a ++ b))) as Ew.
  { unfold mergePriceBudgetNotificationSummary. cbn [worst_severity].
    destruct (worst_severity (summary_of b)) as [sb|] eqn:Eb; [|destruct b; [by rewrite app_nil_r|done]].
    destruct (worst_severity (summary_of a)) as [sa|] eqn:Ea; [|destruct a; [by rewrite <- Eb|done]].
    destruct (worst_severity (summary_of (a ++ b))) as [s|] eqn:Es; [|by destruct a].
    apply summary_worst in Ea as [(na & Ha & <-) Ma], Eb as [(nb & Hb & <-) Mb], Es as [(n & Hn & <-) M].
    rewrite Forall_forall in Hr. fold (rank_of na) (rank_of nb) (rank_of n) in *.
    pose proof (M na ltac:(set_solver)). pose proof (M nb ltac:(set_solver)).
    assert (rank_of n = Z.max (rank_of na) (rank_of nb)) as Emax.
    { apply elem_of_app in Hn as [Hn|Hn]; [pose proof (Ma n Hn)|pose proof (Mb n Hn)]; lia. }
    pose proof (Hr n Hn). case_if; bsimpl; f_equal; symmetry; apply rank_inj; unfold rank_of in *; lia. }
  destruct (mergePriceBudgetNotificationSummary _ _), (summary_of (a ++ b)). cbn in *. by subst.
Qed.

(** ** Concrete budgets *)
#[export] Instance demo_calendar : Calendar := {
  day_of t := t / (86400 * second) * (86400 * second); month_of t := t / (30 * 86400 * second) * (30 * 86400 * second);
  next_day t := t + 86400 * second; next_month t := t + 30 * 86400 * second }.
#[export] Instance demo_server : Server Z := { transaction_fails s := (None, s + second); db_now s := s }.

Definition demo_policy : PriceBudgetPolicy :=
  mkPolicy 1 Global None None None Enforce $"USD" None (Some $"10.00000000") (Some $"15.00000000") true false (Some 43200) true.
Definition demo_tables : Tables := mkTables [demo_policy] 2 [] 1 [] 1 [] 1.
Definition demo_estimate (cost : str) : PriceEstimateReport :=
  mkEstimate true true false cost $"usd" true None kBudgetMode kBudgetFreeTierPolicy [].
Definition demo_request (cost : str) (over : list Z) : PriceBudgetPreflightRequest :=
  mkRequest 5 $"run" $"aws-s3" true (demo_estimate cost) false over None [] $"sync" None false false None.

Definition after (r : result str (PriceBudgetDecision * Tables)) : Tables := match r with Ok (_, t) => t | Err _ => demo_tables end.
Definition decision (r : result str (PriceBudgetDecision * Tables)) : PriceBudgetDecision := match r with Ok (d, _) => d | Err _ => new_decision end.
Definition six : result str (PriceBudgetDecision * Tables) := preflight (demo_request $"6.00000000" []) 1000 demo_tables.

Example preflight_examples :
  allowed (decision six) = true /\ length (reservations (decision six)) = 2%nat /\
  used (ledger (after six)) 1 Daily 0 = 600000000 /\
  (let again := preflight (demo_request $"6.00000000" []) 2000 (after six) in
   allowed (decision again) = false /\ reason (decision again) = $"S3 price budget exceeded for daily global policy 1" /\
   remaining_before (decision again) = $"4.00000000" /\ ledger (after again) = ledger (after six)) /\
  allowed (decision (preflight (demo_request $"6.00000000" [1]) 2000 (after six))) = true /\
  allowed (decision (preflight (demo_request $"6.00000000" []) (2000 + 86400 * second) (after six))) = true /\
  used (ledger (match commit (reservations (decision six)) (Some $"2.5") (after six) with Ok t => t | Err _ => demo_tables end)) 1 Monthly 0 = 250000000.
Proof. vm_compute. split_and!; reflexivity. Qed.

Lemma price_decimal_roundtrip_witness : budgetDecimalFromString (budgetFormatDecimal (-123456789012)) = Ok (-123456789012) /\
  isValidPriceBudgetDecimal (budgetFormatDecimal 5) = true.
Proof.
  split; [apply (price_decimal_roundtrip (-123456789012)); lia|]. destruct (price_decimal_roundtrip 5) as [_ Hv]; [lia|]. apply Hv. lia.
Defined.

Lemma six_ok : preflight (demo_request $"6.00000000" []) 1000 demo_tables = Ok (decision six, after six).
Proof. vm_compute. reflexivity. Qed.
Lemma preflight_reserves_exactly_witness : exists new, ledger (after six) = [] ++ new /\ (1, Daily) ∈ map slot new.
Proof.
  destruct (preflight_reserves_exactly (demo_request $"6.00000000" []) 1000 demo_tables (decision six) (after six) six_ok) as (_ & _ & _ & new & El & _ & _ & _ & _ & Hs). exists new. split; [exact El|].
  assert (allowed (decision six) = true) as Ha by (vm_compute; reflexivity).
  apply (Hs Ha eq_refl demo_policy Daily); [|done|]; [|cbn; set_solver].
  unfold found_policies. apply list_elem_of_filter. split; [reflexivity|left].
Defined.

Lemma demo_spends : rtc (spends 1) demo_tables (release (reservations (decision six)) (after six)).
Proof.
  eapply rtc_l; [|eapply rtc_l; [apply spend_release|apply rtc_refl]].
  apply (spend_preflight 1 _ (demo_request $"6.00000000" []) 1000 (decision six)); [done| |exact six_ok].
  intros z. vm_compute. intros [= <-]. done.
Qed.
Lemma enforced_budget_holds_witness :
  used (ledger (release (reservations (decision six)) (after six))) 1 Daily 0 <= 1000000000.
Proof.
  refine (enforced_budget_holds demo_policy Daily $"10.00000000" 1000000000 0 demo_tables _ _ _ _ eq_refl _ eq_refl _ _ demo_spends).
  - left.
  - repeat constructor. apply not_elem_of_nil.
  - constructor.
  - discriminate.
  - vm_compute. reflexivity.
  - vm_compute. discriminate.
Defined.

Definition demo_check scope w remaining id : PriceBudgetWindowCheck := mkCheck id scope Enforce w $"USD" (Some $"1.00000000") $"0.00000000" remaining $"2.00000000" true.
Definition demo_blocked : PriceBudgetDecision :=
  add_check (demo_check Vault Monthly $"-0.50000000" 4) [demo_check Vault Monthly $"-0.50000000" 4]
    (add_check (demo_check Global Daily $"-3.00000000" 1) [demo_check Global Daily $"-3.00000000" 1] new_decision).
Lemma primary_check_is_worst_witness : exists c, primary_blocking_check (finalizeBlockingDecision demo_blocked) = Some c /\ c ∈ blocking_checks demo_blocked.
Proof.
  destruct (primary_check_is_worst demo_blocked) as (c & Hc & Hin & _); [done|]. by exists c.
Defined.

Definition late : Z := 2000 + 86401 * second.
Lemma late_commit_uncounted_witness : exists e t', e ∈ ledger (after six) /\
  commit (reservations (decision six)) None (expireStaleReservations late (after six)) = Ok t' /\
  set_status Expired (l_committed_cost e) e ∈ ledger t'.
Proof.
  destruct (ledger (after six)) as [|e l] eqn:El; [by vm_compute in El|].
  exists e, (commit_rows None (reservationIds (reservations (decision six))) (expireStaleReservations late (after six))).
  assert (e = default e (head (ledger (after six)))) as Ee by (by rewrite El).
  assert (commit (reservations (decision six)) None (expireStaleReservations late (after six)) =
    Ok (commit_rows None (reservationIds (reservations (decision six))) (expireStaleReservations late (after six)))) as Hc by (vm_compute; reflexivity).
  split_and!; [left|exact Hc|].
  refine (proj1 (late_commit_uncounted (reservations (decision six)) None late (after six) _ e _ _ _ Hc)).
  - rewrite El. left.
  - assert (l_status (default e (head (ledger (after six)))) = Reserved) as Hs by (vm_compute; reflexivity). by rewrite <- Ee in Hs.
  - assert ((l_created_at (default e (head (ledger (after six)))) <? late - kStaleReservationAge) = true) as Hs by (vm_compute; reflexivity).
    rewrite <- Ee in Hs. by apply Z.ltb_lt.
Defined.

Definition demo_override : PriceBudgetOverride := mkOverride 3 None 5 (Some 7) (Some 8) OApproved None [2; 1] None $"USD" (60 * second) 0 (Some 0) None.
Definition demo_world : World Z := mkWorld (with_overrides [demo_override] 4 demo_tables) 0 [].
Lemma approved_override_single_use_witness : exists o u, consumeApprovedOverride 5 [1; 2] None demo_world = (Ok (Some o), u) /\
  o_status o = OUsed /\
  forall row, row ∈ overrides (tables (foldl run_override u [OpApprove 3 8; OpConsume 5 [1; 2] None])) -> o_id row = o_id o -> o_status row = OUsed.
Proof.
  assert (overrides_ok (tables demo_world)) as Hok by (split; [repeat constructor; apply not_elem_of_nil|repeat constructor]).
  destruct (consumeApprovedOverride 5 [1; 2] None demo_world) as [[[o|]|m] u] eqn:E; [|by vm_compute in E..].
  exists o, u. split; [done|].
  destruct (approved_override_single_use demo_world 5 [1; 2] None o u [OpApprove 3 8; OpConsume 5 [1; 2] None] Hok E)
    as (_ & _ & Hs & _ & _ & _ & _ & Hr).
  by split.
Defined.

Definition demo_note id severity : PriceBudgetNotification := mkNotification id $"budget.warn_threshold" severity [] [] None (Some 5) None None None None None 0 None.
Lemma notification_summaries_merge_witness :
  mergePriceBudgetNotificationSummary (summary_of [demo_note 1 $"info"; demo_note 2 $"critical"]) (summary_of [demo_note 3 $"error"])
  = summary_of [demo_note 1 $"info"; demo_note 2 $"critical"; demo_note 3 $"error"].
Proof.
  apply (notification_summaries_merge [demo_note 1 $"info"; demo_note 2 $"critical"] [demo_note 3 $"error"]); [|by vm_compute].
  repeat constructor; by vm_compute.
Defined.
