(* ===== verification/WsLimits.v ===== *)
(** * Limits of the websocket server

    [protocols/ws/ConnectionLimit.cpp] (the connection slots, as a step relation
    over the atomic operations of the threads), [protocols/ws/RefusalLogThrottle.cpp]
    (the bounded log of refusals) and [protocols/ws/ShareRateLimit.cpp] (which
    request counts against which limit), on top of the limiter of ShareTokens.
    Times are nanoseconds of the steady clock, windows are seconds. *)
From S2P Require Import Prelude Paths ShareScope ShareTokens.
Local Open Scope Z_scope.

(** ** ConnectionLimit.cpp *)
Module Connections.
Inductive Pool := WebSocket | Device.
#[export] Instance Pool_eq : EqDecision Pool. Proof. solve_decision. Defined.

Record Counters := mkCounters { active : Z; refused : Z }.

(** Where a thread is: in the compare-exchange loop of [tryAcquire] with the value
    it last read, or holding a slot. *)
Inductive Thread :=
| Trying (pool : Pool) (cap current : Z)
| Holding (pool : Pool).
#[export] Instance Thread_eq : EqDecision Thread. Proof. solve_decision. Defined.

Record State := mkState { counters : Pool -> Counters; threads : gmap nat Thread }.

Definition set_counters (p : Pool) (c : Counters) (f : Pool -> Counters) : Pool -> Counters :=
  fun q => if q == p then c else f q.

(** Both counters wrap at their width. *)
Definition u32 (n : Z) : Z := n mod 2 ^ 32.
Definition u64 (n : Z) : Z := n mod 2 ^ 64.

(** One atomic operation of one thread.  [compare_exchange_weak] may fail although
    the values agree; a failure reloads the counter. *)
Inductive step : State -> State -> Prop :=
| step_load s t p limit :
    threads s !! t = None -> 0 <= limit < 2 ^ 32 ->
    step s (mkState (counters s) (<[t := Trying p (Z.max 1 limit) (active (counters s p))]> (threads s)))
| step_refuse s t p cap current :
    threads s !! t = Some (Trying p cap current) -> cap <= current ->
    step s (mkState
      (set_counters p (mkCounters (active (counters s p)) (u64 (refused (counters s p) + 1))) (counters s))
      (delete t (threads s)))
| step_exchange s t p cap current :
    threads s !! t = Some (Trying p cap current) -> current < cap ->
    active (counters s p) = current ->
    step s (mkState
      (set_counters p (mkCounters (u32 (current + 1)) (refused (counters s p))) (counters s))
      (<[t := Holding p]> (threads s)))
| step_exchange_fails s t p cap current :
    threads s !! t = Some (Trying p cap current) -> current < cap ->
    step s (mkState (counters s) (<[t := Trying p cap (active (counters s p))]> (threads s)))
| step_release s t p :
    threads s !! t = Some (Holding p) ->
    step s (mkState
      (set_counters p (mkCounters (u32 (active (counters s p) - 1)) (refused (counters s p))) (counters s))
      (delete t (threads s))).

Definition init : State := mkState (fun _ => mkCounters 0 0) ∅.

(** The calls in the run used at most [limit] as their limit for pool [p]. *)
Definition caps_within (limit : Pool -> Z) (s : State) : Prop :=
  forall t p cap cur, threads s !! t = Some (Trying p cap cur) -> cap <= Z.max 1 (limit p).

Inductive reachable (limit : Pool -> Z) : State -> Prop :=
| reachable_init : reachable limit init
| reachable_step s s' : reachable limit s -> step s s' -> caps_within limit s' -> reachable limit s'.

Definition holders (p : Pool) (m : gmap nat Thread) : nat :=
  size (base.filter (fun kt => snd kt = Holding p) m).

(** One uninterrupted call of [tryAcquire], and the destructor of a slot. *)
Definition tryAcquire (limit : Z) (c : Counters) : Counters * bool :=
  if Z.max 1 limit <=? active c then (mkCounters (active c) (u64 (refused c + 1)), false)
  else (mkCounters (u32 (active c + 1)) (refused c), true).
Definition release (c : Counters) : Counters := mkCounters (u32 (active c - 1)) (refused c).

Lemma holders_insert_other p m t x : x <> Holding p -> m !! t <> Some (Holding p) ->
  holders p (<[t := x]> m) = holders p m.
Proof.
  intros Hx Ht. unfold holders.
  rewrite map_filter_insert_False by done. rewrite map_filter_delete_not; [done|].
  intros y Hy Hs. cbn in Hs. by subst.
Qed.

Lemma holders_insert p m t : m !! t <> Some (Holding p) -> holders p (<[t := Holding p]> m) = S (holders p m).
Proof.
  intros Ht. unfold holders. rewrite map_filter_insert_True by done.
  rewrite map_size_insert_None; [done|]. apply map_lookup_filter_None. right. intros y Hy Hs. cbn in Hs. by subst.
Qed.

Lemma holders_delete p m t : m !! t = Some (Holding p) -> S (holders p (delete t m)) = holders p m.
Proof.
  intros Ht. rewrite <- (holders_insert p (delete t m) t) by (by rewrite lookup_delete_eq).
  by rewrite insert_delete_id.
Qed.

Lemma holders_delete_other p m t : m !! t <> Some (Holding p) -> holders p (delete t m) = holders p m.
Proof.
  intros Ht. unfold holders. rewrite map_filter_delete, delete_id; [done|].
  apply map_lookup_filter_None. right. intros y Hy Hs. cbn in Hs. by subst.
Qed.

Lemma holders_le_size p m : (holders p m <= size m)%nat.
Proof. apply map_size_filter. Qed.

(** In every reachable state the counter is the number of slots held, within the
    largest limit used. *)
Definition counted (limit : Pool -> Z) (s : State) : Prop :=
  forall p, active (counters s p) = Z.of_nat (holders p (threads s)) /\
            active (counters s p) <= Z.max 1 (limit p).

Lemma set_counters_eq p c f : set_counters p c f p = c.
Proof. unfold set_counters. by rewrite eqb_refl. Qed.
Lemma set_counters_ne p q c f : q <> p -> set_counters p c f q = f q.
Proof. unfold set_counters. intros. by rewrite (proj2 (eqb_neq q p)). Qed.

Lemma step_counted limit s s' :
  (forall p, limit p < 2 ^ 32) -> caps_within limit s -> counted limit s -> step s s' -> counted limit s'.
Proof.
  intros Hlim Hcaps Hs Hstep q. specialize (Hs q) as [Ha Hb]. specialize (Hlim q).
  destruct Hstep as [s t p l Ht Hl|s t p cap cur Ht Hc|s t p cap cur Ht Hc He|s t p cap cur Ht Hc|s t p Ht];
    cbn [counters threads] in *.
  - rewrite holders_insert_other by (done || by rewrite Ht). done.
  - rewrite holders_delete_other by (by rewrite Ht).
    destruct (decide (q = p)) as [->|]; [by rewrite set_counters_eq|by rewrite set_counters_ne].
  - specialize (Hcaps _ _ _ _ Ht). destruct (decide (q = p)) as [->|].
    + rewrite set_counters_eq, holders_insert by (by rewrite Ht). cbn [active].
      unfold u32. rewrite Z.mod_small by lia. lia.
    + rewrite set_counters_ne, holders_insert_other by (congruence || by rewrite Ht). done.
  - rewrite holders_insert_other by (done || by rewrite Ht). done.
  - destruct (decide (q = p)) as [->|].
    + pose proof (holders_delete p _ _ Ht) as Hd. rewrite set_counters_eq. cbn [active].
      unfold u32. rewrite Z.mod_small by lia. lia.
    + rewrite set_counters_ne, holders_delete_other by congruence. done.
Qed.

Lemma reachable_counted limit s :
  (forall p, limit p < 2 ^ 32) -> reachable limit s -> counted limit s /\ caps_within limit s.
Proof.
  intros Hlim. induction 1 as [|s s' Hr [IHc IHw] Hstep Hw].
  - split; [|intros t p cap cur Ht; cbn in Ht; by rewrite lookup_empty in Ht].
    intros p. cbn. unfold holders. rewrite map_filter_empty, map_size_empty. lia.
  - split; [|done]. by eapply step_counted.
Qed.

(** An uninterrupted [tryAcquire] of a thread is two of these steps. *)
Lemma tryAcquire_steps s t p limit :
  threads s !! t = None -> 0 <= limit < 2 ^ 32 ->
  let '(c, got) := tryAcquire limit (counters s p) in
  rtc step s (mkState (set_counters p c (counters s))
                (if got then <[t := Holding p]> (threads s) else threads s)).
Proof.
  intros Ht Hl. unfold tryAcquire. destruct (Z.leb_spec (Z.max 1 limit) (active (counters s p))) as [Hge|Hlt];
    (eapply rtc_l; [by apply (step_load s t p limit)|]); apply rtc_once.
  - set (s1 := mkState _ _). pose proof (step_refuse s1 t p (Z.max 1 limit) (active (counters s p))) as H.
    cbn [s1 threads counters] in H. rewrite delete_insert_id in H by done. apply H; [apply lookup_insert_eq|done].
  - set (s1 := mkState _ _).
    pose proof (step_exchange s1 t p (Z.max 1 limit) (active (counters s p))) as H.
    cbn [s1 threads counters] in H. rewrite insert_insert_eq in H. apply H; [apply lookup_insert_eq|done|done].
Qed.

(** Connection slots under any interleaving of the threads' atomic operations:
    the counter of each pool equals the number of slots held and never exceeds the
    largest limit in use (a limit of 0 counts as 1); and a [tryAcquire] that runs
    alone gets a slot exactly when fewer than its limit are held. *)
Theorem connection_cap (limit : Pool -> Z) s :
  (forall p, limit p < 2 ^ 32) -> reachable limit s ->
  (forall p, active (counters s p) = Z.of_nat (holders p (threads s)) /\
             active (counters s p) <= Z.max 1 (limit p)) /\
  (forall t p l, threads s !! t = None -> 0 <= l < 2 ^ 32 ->
     let '(c, got) := tryAcquire l (counters s p) in
     (got = true <-> Z.of_nat (holders p (threads s)) < Z.max 1 l) /\
     rtc step s (mkState (set_counters p c (counters s))
                  (if got then <[t := Holding p]> (threads s) else threads s))).
Proof.
  intros Hlim Hr. destruct (reachable_counted limit s Hlim Hr) as [Hc _]. split; [done|].
  intros t p l Ht Hl. pose proof (tryAcquire_steps s t p l Ht Hl) as Hs.
  destruct (tryAcquire l (counters s p)) as [c got] eqn:E. split; [|done].
  destruct (Hc p) as [Ha _]. rewrite <- Ha. unfold tryAcquire in E.
  destruct (Z.leb_spec (Z.max 1 l) (active (counters s p))); simplify_eq; split; (done || lia).
Qed.

(** One client connected out of at most 100. *)
Definition one_client : State :=
  mkState (set_counters WebSocket (mkCounters 1 0) (counters init)) {[ 0%nat := Holding WebSocket ]}.

Lemma one_client_reachable : reachable (fun _ => 100) one_client.
Proof.
  apply (reachable_step _ (mkState (counters init) {[ 0%nat := Trying WebSocket 100 0 ]})).
  - eapply reachable_step; [apply reachable_init|exact (step_load init 0 WebSocket 100 eq_refl ltac:(lia))|].
    intros t p cap cur Ht. cbn in Ht. apply lookup_singleton_Some in Ht as [_ Ht]. simplify_eq. lia.
  - pose proof (step_exchange (mkState (counters init) {[ 0%nat := Trying WebSocket 100 0 ]}) 0 WebSocket 100 0) as H.
    cbn [counters threads] in H. unfold one_client.
    replace {[ 0%nat := Holding WebSocket ]} with (<[0%nat := Holding WebSocket]> ({[ 0%nat := Trying WebSocket 100 0 ]} : gmap nat Thread))
      by apply insert_singleton_eq.
    apply H; [apply lookup_singleton_eq|lia|reflexivity].
  - intros t p cap cur Ht. cbn in Ht. apply lookup_singleton_Some in Ht as [_ ?]. done.
Qed.

Lemma connection_cap_witness :
  active (counters one_client WebSocket) = 1 /\
  active (counters one_client WebSocket) = Z.of_nat (holders WebSocket (threads one_client)).
Proof.
  split; [reflexivity|].
  apply (connection_cap (fun _ => 100) one_client); [intros p; reflexivity|apply one_client_reachable].
Defined.
End Connections.

(** ** RefusalLogThrottle.cpp *)
Module Throttle.
Record Entry := mkEntry { e_window_start : Z; e_last_seen : Z; suppressed : Z }.
Record Summary := mkSummary { s_label : str; s_suppressed : Z; span : Z }.
Record Decision := mkDecision { warn : bool; summaries : list Summary }.
Record State := mkState {
  entries : gmap str Entry; last_sweep : Z; overflow_active : bool; overflow : Entry }.

Definition Entry0 : Entry := mkEntry 0 0 0.
Definition kDefaultWindow : Z := 60.
Definition kDefaultMaxEntries : nat := 512.
Definition kOverflowLabel : str := $"Refusals for further clients/commands (log throttle full)".

Section Config.
(** The constructor's arguments: the window in seconds and the largest number of
    labels. *)
Variables (window_ : Z) (max_entries_ : nat).

Definition closed (now : Z) (e : Entry) : bool := window_ * second <=? now - e_window_start e.

(** [ceil] to seconds, clamped to [1, window]. *)
Definition summaryOf (label : str) (e : Entry) : Summary :=
  let elapsed := e_last_seen e - e_window_start e in
  let s := - ((- elapsed) / second) in
  mkSummary label (suppressed e) (if s <? 1 then 1 else if window_ <? s then window_ else s).

Definition summary_if (label : str) (e : Entry) : list Summary :=
  if 0 <? suppressed e then [summaryOf label e] else [].

(** [sweepClosed]: the closed windows leave the map (in its iteration order) and
    report their counts, then the overflow bucket. *)
Definition sweepClosed (now : Z) (s : State) (acc : list Summary) : State * list Summary :=
  let out := base.filter (fun le => closed now (snd le) = true) (entries s) in
  let acc := acc ++ concat (map (fun '(l, e) => summary_if l e) (map_to_list out)) in
  let kept := base.filter (fun le => closed now (snd le) = false) (entries s) in
  if overflow_active s && closed now (overflow s) then
    (mkState kept now false Entry0, acc ++ summary_if kOverflowLabel (overflow s))
  else (mkState kept now (overflow_active s) (overflow s), acc).

Definition record (s : State) (label : str) (now : Z) : State * Decision :=
  let '(s, acc) := if window_ * second <=? now - last_sweep s then sweepClosed now s [] else (s, []) in
  match entries s !! label with
  | Some e =>
      if closed now e then
        (mkState (<[label := mkEntry now now 0]> (entries s)) (last_sweep s) (overflow_active s) (overflow s),
         mkDecision true (acc ++ summary_if label e))
      else
        (mkState (<[label := mkEntry (e_window_start e) now (suppressed e + 1)]> (entries s))
           (last_sweep s) (overflow_active s) (overflow s), mkDecision false acc)
  | None =>
      let '(s, acc) :=
        if (max_entries_ <=? size (entries s))%nat && negb (overflow_active s) then sweepClosed now s acc
        else (s, acc) in
      if (size (entries s) <? max_entries_)%nat then
        (mkState (<[label := mkEntry now now 0]> (entries s)) (last_sweep s) (overflow_active s) (overflow s),
         mkDecision true acc)
      else if negb (overflow_active s) then
        (mkState (entries s) (last_sweep s) true (mkEntry now now 0), mkDecision true acc)
      else
        (mkState (entries s) (last_sweep s) true
           (mkEntry (e_window_start (overflow s)) now (suppressed (overflow s) + 1)), mkDecision false acc)
  end.

(** The constructor's checks, and the empty table. *)
Definition make : result str State :=
  check negb (window_ <=? 0) else $"Refusal log window is required" in
  check negb (max_entries_ =? 0)%nat else $"Refusal log throttle needs at least one entry" in
  Ok (mkState ∅ 0 false Entry0).

Definition size_of (s : State) : nat := size (entries s).
Definition reset_ (s : State) : State := mkState ∅ 0 false Entry0.

(** A run of refusals: the final state and the decisions in order. *)
Fixpoint records (s : State) (refusals : list (str * Z)) : State * list Decision :=
  match refusals with
  | [] => (s, [])
  | (l, now) :: rest =>
      let '(s', d) := record s l now in
      let '(s'', ds) := records s' rest in (s'', d :: ds)
  end.

Definition warnings (ds : list Decision) : Z := Z.of_nat (length (List.filter warn ds)).
Definition reported_in (l : list Summary) : Z := foldr (fun x acc => s_suppressed x + acc) 0 l.
Definition reported (ds : list Decision) : Z := foldr (fun d acc => reported_in (summaries d) + acc) 0 ds.

(** Refusals counted but not yet reported. *)
Definition total (m : gmap str Entry) : Z := map_fold (fun _ e acc => suppressed e + acc) 0 m.
Definition pending (s : State) : Z :=
  total (entries s) +
  (if overflow_active s then suppressed (overflow s) else 0).

(** Windows opened at [t0] or later. *)
Definition fresh (t0 : Z) (s : State) : Z :=
  Z.of_nat (size (base.filter (fun le => t0 <= e_window_start (snd le)) (entries s))) +
  (if overflow_active s && (t0 <=? e_window_start (overflow s)) then 1 else 0).

Definition wf (s : State) : Prop :=
  (size (entries s) <= max_entries_)%nat /\ map_Forall (fun _ e => 0 <= suppressed e) (entries s) /\
  0 <= suppressed (overflow s).

(** *** Sums over the entries *)
Lemma total_insert (l : str) (e : Entry) (m : gmap str Entry) : m !! l = None -> total (<[l := e]> m) = suppressed e + total m.
Proof. intros Hl. unfold total. apply (map_fold_insert_L (fun (_ : str) (e : Entry) (acc : Z) => suppressed e + acc)); [intros; lia|done]. Qed.

Lemma total_delete (l : str) (e : Entry) (m : gmap str Entry) : m !! l = Some e -> total m = suppressed e + total (delete l m).
Proof. intros Hl. rewrite <- (total_insert l) by apply lookup_delete_eq. by rewrite insert_delete_id. Qed.

Lemma total_replace (l : str) (e e' : Entry) (m : gmap str Entry) :
  m !! l = Some e -> total (<[l := e']> m) = total m - suppressed e + suppressed e'.
Proof.
  intros Hl. rewrite (total_delete l e m Hl), <- (insert_delete_eq m l e'), total_insert by apply lookup_delete_eq.
  lia.
Qed.

Lemma total_split (f : Entry -> bool) (m : gmap str Entry) :
  total m = total (base.filter (fun le => f (snd le) = true) m) +
            total (base.filter (fun le => f (snd le) = false) m).
Proof.
  induction m as [|l e m Hl IH] using map_ind; [by rewrite !map_filter_empty|].
  rewrite total_insert by done. destruct (f e) eqn:E.
  - rewrite map_filter_insert_True by done. rewrite total_insert by (apply map_lookup_filter_None; auto).
    rewrite map_filter_insert_False by (cbn; congruence). rewrite delete_id by done. lia.
  - rewrite map_filter_insert_False by (cbn; congruence). rewrite delete_id by done.
    rewrite map_filter_insert_True by done. rewrite total_insert by (apply map_lookup_filter_None; auto). lia.
Qed.

Lemma reported_in_app a b : reported_in (a ++ b) = reported_in a + reported_in b.
Proof. unfold reported_in. induction a as [|x a IH]; cbn [app foldr]; [done|]. rewrite IH. lia. Qed.

Lemma reported_summary_if l e : 0 <= suppressed e -> reported_in (summary_if l e) = suppressed e.
Proof. intros. unfold summary_if. destruct (Z.ltb_spec 0 (suppressed e)); unfold reported_in; cbn; lia. Qed.

Lemma reported_all (m : gmap str Entry) : map_Forall (fun _ e => 0 <= suppressed e) m ->
  reported_in (concat (map (fun '(l, e) => summary_if l e) (map_to_list m))) = total m.
Proof.
  intros Hm. unfold total. rewrite map_fold_foldr. apply map_Forall_to_list in Hm.
  induction (map_to_list m) as [|[l e] xs IH]; [done|]. apply Forall_cons in Hm as [He Hm].
  cbn [map concat foldr uncurry]. rewrite reported_in_app, reported_summary_if by done. by rewrite IH.
Qed.

(** *** The sweep *)
Lemma sweep_spec now s acc : wf s ->
  let '(s', acc') := sweepClosed now s acc in
  wf s' /\ pending s' + reported_in acc' = pending s + reported_in acc /\
  (forall t0, t0 <= now < t0 + window_ * second -> fresh t0 s' = fresh t0 s).
Proof.
  intros (Hsz & Hnn & Ho). unfold sweepClosed.
  pose proof (total_split (closed now) (entries s)) as Ht.
  set (out := base.filter (fun le => closed now (snd le) = true) (entries s)) in *.
  set (kept := base.filter (fun le => closed now (snd le) = false) (entries s)) in *.
  assert (Hout : map_Forall (fun _ e => 0 <= suppressed e) out) by (intros l e [He _]%map_lookup_filter_Some; by apply (Hnn l e)).
  assert (Hkept : map_Forall (fun _ e => 0 <= suppressed e) kept) by (intros l e [He _]%map_lookup_filter_Some; by apply (Hnn l e)).
  assert (Hks : (size kept <= size (entries s))%nat) by apply map_size_filter.
  assert (Hfr : forall t0, t0 <= now < t0 + window_ * second ->
    size (base.filter (fun le => t0 <= e_window_start (snd le)) kept) =
    size (base.filter (fun le => t0 <= e_window_start (snd le)) (entries s))).
  { intros t0 H0. f_equal. unfold kept. rewrite map_filter_filter. apply map_filter_ext.
    intros l e _. cbn. split; [by intros [? _]|]. intros He. split; [done|].
    unfold closed. apply Z.leb_gt. lia. }
  unfold pending, fresh, wf. destruct (overflow_active s) eqn:Eo; cbn [andb].
  1: destruct (closed now (overflow s)) eqn:Ec.
  all: cbn [entries overflow_active overflow andb]; rewrite ?reported_in_app, ?reported_all by done.
  - rewrite reported_summary_if by done. cbn [Entry0 suppressed]. split_and!; try done; try lia.
    intros t0 H0. rewrite Hfr by done. unfold closed in Ec. bsimpl.
    by rewrite (proj2 (Z.leb_gt _ _)) by lia.
  - split_and!; try done; try lia. intros t0 H0. by rewrite Hfr.
  - split_and!; try done; try lia. intros t0 H0. by rewrite Hfr.
Qed.

(** *** One refusal *)
Definition accounts (now : Z) (s s' : State) (d : Decision) (acc : list Summary) : Prop :=
  wf s' /\
  pending s' + reported_in (summaries d) + (if warn d then 1 else 0) = pending s + reported_in acc + 1 /\
  (forall t0, t0 <= now < t0 + window_ * second -> fresh t0 s' = fresh t0 s + (if warn d then 1 else 0)).

Definition freshness (t0 : Z) (m : gmap str Entry) : nat :=
  size (base.filter (fun le => t0 <= e_window_start (snd le)) m).

Lemma freshness_insert (t0 : Z) (l : str) (e : Entry) (m : gmap str Entry) :
  t0 <= e_window_start e -> (forall e0, m !! l = Some e0 -> e_window_start e0 < t0) ->
  freshness t0 (<[l := e]> m) = S (freshness t0 m).
Proof.
  intros He Hm. unfold freshness. rewrite map_filter_insert_True by done.
  apply map_size_insert_None, map_lookup_filter_None. right. intros e0 Hl%Hm. cbn. lia.
Qed.

Lemma freshness_update (t0 : Z) (l : str) (e e0 : Entry) (m : gmap str Entry) :
  m !! l = Some e0 -> e_window_start e = e_window_start e0 -> freshness t0 (<[l := e]> m) = freshness t0 m.
Proof.
  intros Hl He. unfold freshness. destruct (decide (t0 <= e_window_start e)).
  - rewrite map_filter_insert_True by done. apply map_size_insert_Some. exists e0.
    apply map_lookup_filter_Some. cbn. split; [done|lia].
  - rewrite map_filter_insert_False by done. rewrite map_filter_delete_not; [done|].
    intros y Hy. cbn. rewrite Hl in Hy. simplify_eq. lia.
Qed.

(** A label with an entry: a closed window reports and restarts, an open one counts. *)
Lemma known_label_accounts now s l e acc : wf s -> entries s !! l = Some e ->
  let '(s', d) :=
    if closed now e then
      (mkState (<[l := mkEntry now now 0]> (entries s)) (last_sweep s) (overflow_active s) (overflow s),
       mkDecision true (acc ++ summary_if l e))
    else
      (mkState (<[l := mkEntry (e_window_start e) now (suppressed e + 1)]> (entries s))
         (last_sweep s) (overflow_active s) (overflow s), mkDecision false acc) in
  accounts now s s' d acc.
Proof.
  intros (Hsz & Hnn & Ho) Hl. pose proof (Hnn l e Hl) as He. cbn in He.
  assert (Hsize : forall e', size (<[l := e']> (entries s)) = size (entries s)).
  { intros e'. apply map_size_insert_Some. by exists e. }
  unfold accounts, wf, pending, fresh. fold freshness. unfold closed.
  destruct (Z.leb_spec (window_ * second) (now - e_window_start e));
    cbn [entries overflow_active overflow warn summaries];
    rewrite Hsize, (total_replace l e) by done; cbn [suppressed];
    rewrite ?reported_in_app, ?reported_summary_if by done;
    (split; [split_and!; [done| |done]; apply map_Forall_insert_2; cbn; (lia || done)|]);
    (split; [lia|]); intros t0 H0; fold (freshness t0 (entries s)).
  - fold (freshness t0 (<[l:=mkEntry now now 0]> (entries s))).
    rewrite freshness_insert; [lia|cbn; lia|]. intros e0 He0. simplify_eq. lia.
  - fold (freshness t0 (<[l:=mkEntry (e_window_start e) now (suppressed e + 1)]> (entries s))).
    rewrite (freshness_update t0 l _ e) by done. lia.
Qed.

(** A label without one: it takes a free slot, opens the overflow window or counts there. *)
Lemma new_label_accounts now s l acc : wf s -> entries s !! l = None ->
  let '(s', d) :=
    if (size (entries s) <? max_entries_)%nat then
      (mkState (<[l := mkEntry now now 0]> (entries s)) (last_sweep s) (overflow_active s) (overflow s),
       mkDecision true acc)
    else if negb (overflow_active s) then
      (mkState (entries s) (last_sweep s) true (mkEntry now now 0), mkDecision true acc)
    else
      (mkState (entries s) (last_sweep s) true
         (mkEntry (e_window_start (overflow s)) now (suppressed (overflow s) + 1)), mkDecision false acc) in
  accounts now s s' d acc.
Proof.
  intros (Hsz & Hnn & Ho) Hl. unfold accounts, wf, pending, fresh.
  destruct (Nat.ltb_spec (size (entries s)) max_entries_) as [Hlt|Hge].
  - cbn [entries overflow_active overflow warn summaries].
    rewrite map_size_insert_None, total_insert by done. cbn [suppressed].
    split; [split_and!; [lia| |done]; apply map_Forall_insert_2; cbn; (lia || done)|]. split; [lia|].
    intros t0 H0. fold (freshness t0 (entries s)). fold (freshness t0 (<[l:=mkEntry now now 0]> (entries s))).
    rewrite freshness_insert; [lia|cbn; lia|]. intros e0 He0. simplify_eq.
  - destruct (overflow_active s) eqn:Eo; cbn [negb entries overflow_active overflow warn summaries suppressed e_window_start];
      (split; [split_and!; [done|done|lia]|]); (split; [lia|]); intros t0 H0; cbn [andb]; [lia|].
    rewrite (proj2 (Z.leb_le _ _)) by lia. lia.
Qed.

Lemma accounts_trans now s s1 s' d acc acc1 :
  pending s1 + reported_in acc1 = pending s + reported_in acc ->
  (forall t0, t0 <= now < t0 + window_ * second -> fresh t0 s1 = fresh t0 s) ->
  accounts now s1 s' d acc1 -> accounts now s s' d acc.
Proof.
  intros Hp Hf (Hw & Hp' & Hf'). split; [done|]. split; [lia|]. intros t0 H0. by rewrite Hf', Hf.
Qed.

Lemma sweep_lookup now s acc l :
  entries s !! l = None -> entries (fst (sweepClosed now s acc)) !! l = None.
Proof.
  intros Hl. unfold sweepClosed. destruct (_ && _); cbn [fst entries];
    apply map_lookup_filter_None; auto.
Qed.

Lemma record_accounts now s l : wf s ->
  let '(s', d) := record s l now in accounts now s s' d [].
Proof.
  intros Hw. unfold record.
  set (first := if _ <=? _ then _ else _).
  assert (Hfirst : wf (fst first) /\ pending (fst first) + reported_in (snd first) = pending s + reported_in [] /\
    forall t0, t0 <= now < t0 + window_ * second -> fresh t0 (fst first) = fresh t0 s).
  { unfold first. destruct (_ <=? _); [|by split_and!]. pose proof (sweep_spec now s [] Hw) as Hs.
    by destruct (sweepClosed now s []). }
  destruct first as [s1 acc1]. cbn [fst snd] in Hfirst. destruct Hfirst as (Hw1 & Hp1 & Hf1).
  destruct (entries s1 !! l) as [e|] eqn:El.
  - pose proof (known_label_accounts now s1 l e acc1 Hw1 El) as Hk.
    destruct (closed now e); by eapply accounts_trans.
  - set (second_ := if (_ <=? _)%nat && _ then _ else _).
    assert (Hsec : wf (fst second_) /\
      pending (fst second_) + reported_in (snd second_) = pending s1 + reported_in acc1 /\
      (forall t0, t0 <= now < t0 + window_ * second -> fresh t0 (fst second_) = fresh t0 s1) /\
      entries (fst second_) !! l = None).
    { unfold second_. destruct (_ && _); [|by split_and!]. pose proof (sweep_spec now s1 acc1 Hw1) as Hs.
      pose proof (sweep_lookup now s1 acc1 l El) as Hn. destruct (sweepClosed now s1 acc1). naive_solver. }
    destruct second_ as [s2 acc2]. cbn [fst snd] in Hsec. destruct Hsec as (Hw2 & Hp2 & Hf2 & El2).
    pose proof (new_label_accounts now s2 l acc2 Hw2 El2) as Hk.
    destruct (size (entries s2) <? max_entries_)%nat; [|destruct (negb (overflow_active s2))];
      (eapply (accounts_trans now s s2 _ _ [] acc2); [lia| |exact Hk]; intros t0 H0; by rewrite Hf2, Hf1).
Qed.

Lemma records_accounts s refusals : wf s ->
  let '(s', ds) := records s refusals in
  wf s' /\ pending s' + reported ds + warnings ds = pending s + Z.of_nat (length refusals) /\
  (forall t0, Forall (fun r => t0 <= snd r < t0 + window_ * second) refusals ->
     fresh t0 s' = fresh t0 s + warnings ds).
Proof.
  revert s; induction refusals as [|[l now] rs IH]; intros s Hw; cbn [records].
  { unfold reported, warnings. cbn. split_and!; [done|lia|]. intros. lia. }
  pose proof (record_accounts now s l Hw) as Hr. destruct (record s l now) as [s1 d].
  destruct Hr as (Hw1 & Hp1 & Hf1). specialize (IH s1 Hw1). destruct (records s1 rs) as [s2 ds].
  destruct IH as (Hw2 & Hp2 & Hf2).
  assert (Hwarn : warnings (d :: ds) = (if warn d then 1 else 0) + warnings ds).
  { unfold warnings. cbn [List.filter]. destruct (warn d); cbn [length]; lia. }
  rewrite Hwarn. cbn [length]. unfold reported in *. cbn [foldr]. fold (reported ds) in *.
  change (reported_in []) with 0 in Hp1.
  split_and!; [done|lia|]. intros t0 [H0 Ht]%Forall_cons. cbn in H0. rewrite Hf2, Hf1 by done. lia.
Qed.

Lemma fresh_bounds (t0 : Z) s : wf s -> 0 <= fresh t0 s <= Z.of_nat max_entries_ + 1.
Proof.
  intros (Hs & _). unfold fresh.
  pose proof (map_size_filter (fun le : str * Entry => t0 <= e_window_start (snd le)) (entries s)).
  destruct (_ && _); lia.
Qed.

(** The refusal log is bounded and loses nothing: over any sequence of refusals
    the table keeps at most [max_entries] labels; every refusal is warned about,
    reported in a summary, or still pending; and refusals that all fall within
    one window's length draw at most [max_entries + 1] warnings, however many
    labels they use. *)
Theorem refusal_log_bounded s refusals :
  wf s ->
  let '(s', ds) := records s refusals in
  wf s' /\ (size_of s' <= max_entries_)%nat /\
  pending s' + reported ds + warnings ds = pending s + Z.of_nat (length refusals) /\
  (forall t0, Forall (fun r => t0 <= snd r < t0 + window_ * second) refusals ->
     warnings ds <= Z.of_nat max_entries_ + 1).
Proof.
  intros Hw. pose proof (records_accounts s refusals Hw) as Hr. destruct (records s refusals) as [s' ds].
  destruct Hr as (Hw' & Hp & Hf). split_and!; [done|apply Hw'|done|].
  intros t0 Ht. pose proof (fresh_bounds t0 s Hw). pose proof (fresh_bounds t0 s' Hw').
  specialize (Hf t0 Ht). lia.
Qed.
End Config.

Definition demo_table : State := mkState ∅ 0 false Entry0.

(** Three labels against two slots, all within one second. *)
Definition demo : list (str * Z) := [($"a", 1); ($"b", 2); ($"c", 3); ($"c", 4); ($"a", 5)].

Lemma refusal_log_bounded_witness :
  make 60 2 = Ok demo_table /\ warnings (snd (records 60 2 demo_table demo)) = 3 /\
  let '(s', ds) := records 60 2 demo_table demo in
  pending s' + reported ds + warnings ds = 5.
Proof.
  split; [reflexivity|]. split; [vm_compute; reflexivity|].
  assert (wf 2 demo_table) as Hw.
  { split_and!; [apply Nat.leb_le; vm_compute; reflexivity|apply map_Forall_empty|cbn; lia]. }
  pose proof (refusal_log_bounded 60 2 _ demo Hw) as H.
  destruct (records 60 2 _ demo) as [s' ds]. destruct H as (_ & _ & Hp & _). exact Hp.
Defined.
End Throttle.

(** ** ShareRateLimit.cpp *)
Module Commands.
(** The part of a JSON message the limiter reads; an object has unique keys. *)
Inductive Json :=
| JNull
| JString (s : str)
| JObject (members : list (str * Json))
| JOther.

Fixpoint member (name : str) (members : list (str * Json)) : option Json :=
  match members with
  | [] => None
  | (k, v) :: rest => if k == name then Some v else member name rest
  end.

Definition payloadOf (message : Json) : list (str * Json) :=
  match message with
  | JObject ms => match member $"payload" ms with Some (JObject p) => p | _ => [] end
  | _ => []
  end.

Definition optionalString (payload : list (str * Json)) (field : str) : str :=
  match member field payload with Some (JString s) => s | _ => [] end.

(** What the limiter reads of a session: the resolved client address, the peer
    address, the share session id, the share principal's share id, the mode. *)
Record Session := mkWsSession {
  clientAddress : str; ipAddress : str; shareSessionId : str;
  sharePrincipal : option str; isShareMode : bool }.

Definition kLoginSustainedPolicy : RateLimitPolicy := mkPolicy 30 (15 * 60).

Definition one_of (command : str) (names : list string) : bool :=
  existsb (fun n => command == lit n) names.

Definition policyFor (command : str) : option RateLimitPolicy :=
  if command == $"auth.login" then Some (mkPolicy 10 60)
  else if command == $"share.session.open" then Some (mkPolicy 12 (5 * 60))
  else if command == $"share.email.challenge.start" then Some (mkPolicy 5 (15 * 60))
  else if command == $"share.email.challenge.confirm" then Some (mkPolicy 8 (15 * 60))
  else if one_of command ["share.fs.metadata"; "share.fs.list"; "fs.metadata"; "fs.list"]%string then
    Some (mkPolicy 120 60)
  else if command == $"share.preview.get" then Some (mkPolicy 60 60)
  else if one_of command ["share.download.start"; "fs.download.start"]%string then Some (mkPolicy 30 60)
  else if one_of command ["share.download.chunk"; "fs.download.chunk"]%string then Some (mkPolicy 1200 60)
  else if one_of command ["share.upload.start"; "fs.upload.start"]%string then Some (mkPolicy 20 60)
  else None.

Definition isLimitedCommand (command : str) : bool := bool_decide (is_Some (policyFor command)).

Definition tokenLookupKey (payload : list (str * Json)) (field : str) (expectedKind : TokenKind) : str :=
  let raw := optionalString payload field in
  if is_empty raw then $"token:none"
  else match parse raw with
       | Ok p => if kind p == expectedKind then $"lookup:" ++ lookup_id p else $"token:wrong-kind"
       | Err _ => $"token:malformed"
       end.

Definition clientIp (s : Session) : str :=
  if negb (is_empty (clientAddress s)) then clientAddress s
  else if is_empty (ipAddress s) then $"unknown" else ipAddress s.

Definition or_text (s fallback : str) : str := if is_empty s then fallback else s.

Definition shareSessionComponent (s : Session) (payload : list (str * Json)) : str :=
  if negb (is_empty (shareSessionId s)) then $"session:" ++ shareSessionId s
  else
    let sessionId := optionalString payload $"session_id" in
    if negb (is_empty sessionId) then $"session:" ++ sessionId
    else
      let lookup := tokenLookupKey payload $"session_token" ShareSession in
      if lookup !== $"token:none" then lookup
      else tokenLookupKey payload $"public_token" PublicShare.

Definition keyFor (command : str) (message : Json) (s : Session) : str :=
  let payload := payloadOf message in
  let prefix := command ++ $"|ip:" ++ clientIp s in
  if command == $"auth.login" then prefix ++ $"|user:" ++ optionalString payload $"name"
  else if command == $"share.session.open" then
    prefix ++ $"|" ++ tokenLookupKey payload $"public_token" PublicShare
  else if command == $"share.email.challenge.start" then prefix ++ $"|" ++ shareSessionComponent s payload
  else if command == $"share.email.challenge.confirm" then
    prefix ++ $"|" ++ shareSessionComponent s payload ++ $"|challenge:" ++
    or_text (optionalString payload $"challenge_id") $"none"
  else if one_of command ["share.download.chunk"; "fs.download.chunk"]%string then
    prefix ++ $"|session:" ++ or_text (shareSessionId s) $"unknown"
  else if one_of command ["share.fs.metadata"; "share.fs.list"; "fs.metadata"; "fs.list"; "share.preview.get";
                          "share.download.start"; "fs.download.start"; "share.upload.start"; "fs.upload.start"]%string then
    prefix ++ $"|share:" ++ or_text (default [] (sharePrincipal s)) $"unknown" ++
    $"|session:" ++ or_text (shareSessionId s) $"unknown"
  else prefix.

Definition sustainedKey (ip name : str) : str := $"auth.login.sustained|ip:" ++ ip ++ $"|user:" ++ name.
Definition unlimited : RateLimitDecision := mkLimit true 0 0.

Definition check_command (m : gmap str Bucket) (command : str) (message : Json) (s : Session) (now : Z) :
  result LimitError (gmap str Bucket * RateLimitDecision) :=
  if one_of command ["fs.metadata"; "fs.list"; "fs.download.start"; "fs.download.chunk"; "fs.upload.start"]%string
     && negb (isShareMode s) then Ok (m, unlimited)
  else match policyFor command with
  | None => Ok (m, unlimited)
  | Some policy =>
      if command == $"auth.login" then
        let? sustained := peek m (sustainedKey (clientIp s) (optionalString (payloadOf message) $"name"))
                            kLoginSustainedPolicy now in
        if negb (allowed sustained) then Ok (m, sustained)
        else let? d := peek m (keyFor command message s) policy now in Ok (m, d)
      else check_limit m (keyFor command message s) policy now
  end.

Definition recordLoginFailure (m : gmap str Bucket) (accountName : str) (s : Session) (now : Z) :
  result LimitError (gmap str Bucket) :=
  let ip := clientIp s in
  let? '(m, _) := check_limit m (sustainedKey ip accountName) kLoginSustainedPolicy now in
  match policyFor $"auth.login" with
  | Some policy =>
      let? '(m, _) := check_limit m ($"auth.login|ip:" ++ ip ++ $"|user:" ++ accountName) policy now in Ok m
  | None => Ok m
  end.

(** A login attempt for [name] as the dispatcher sees it. *)
Definition login_message (name : str) : Json :=
  JObject [($"command", JString $"auth.login"); ($"payload", JObject [($"name", JString name)])].

Fixpoint failures (m : gmap str Bucket) (name : str) (s : Session) (times : list Z) : result LimitError (gmap str Bucket) :=
  match times with
  | [] => Ok m
  | t :: ts => let? m' := recordLoginFailure m name s t in failures m' name s ts
  end.

Definition loginKey (ip name : str) : str := $"auth.login|ip:" ++ ip ++ $"|user:" ++ name.
Definition kLoginPolicy : RateLimitPolicy := mkPolicy 10 60.

(** *** One check on a table with room *)
Lemma check_limit_total m key policy now :
  key <> [] -> valid_policy policy -> (size m < kMaxBuckets)%nat ->
  exists b d, check_limit m key policy now = Ok (<[key := b]> m, d).
Proof.
  intros Hk Hp Hs. rewrite check_limit_unfold by done. cbv zeta. rewrite make_room_id by done.
  case_if; eauto.
Qed.

Lemma check_limit_open m key policy t0 ls c now :
  key <> [] -> valid_policy policy -> (size m < kMaxBuckets)%nat ->
  m !! key = Some (mkBucket t0 ls c) -> 0 < c <= p_max_attempts policy -> now - t0 < window policy * second ->
  exists d, check_limit m key policy now =
    Ok (<[key := mkBucket t0 now (Z.min (c + 1) (p_max_attempts policy))]> m, d).
Proof.
  intros Hk Hp Hs Hm Hc Ht. rewrite check_limit_unfold by done. cbv zeta. rewrite make_room_id, Hm by done.
  assert (touch policy now (Some (mkBucket t0 ls c)) = mkBucket t0 now c) as ->.
  { unfold touch. cbn [default count window_start last_seen from_option id].
    rewrite (proj2 (Z.eqb_neq c 0)), (proj2 (Z.leb_gt _ _)) by lia. done. }
  cbn [count window_start last_seen].
  destruct (Z.leb_spec (p_max_attempts policy) c); eexists; repeat f_equal; lia.
Qed.

Lemma check_limit_new m key policy now :
  key <> [] -> valid_policy policy -> (size m < kMaxBuckets)%nat -> m !! key = None ->
  exists d, check_limit m key policy now = Ok (<[key := mkBucket now now 1]> m, d).
Proof.
  intros Hk Hp Hs Hm. rewrite check_limit_unfold by done. cbv zeta. rewrite make_room_id, Hm by done.
  change (touch policy now None) with (mkBucket now now 0). cbn [count window_start last_seen].
  destruct Hp. rewrite (proj2 (Z.leb_gt _ _)) by lia. by eexists.
Qed.

Lemma login_policies : valid_policy kLoginSustainedPolicy /\ valid_policy kLoginPolicy.
Proof. split; split; reflexivity. Qed.

Lemma login_keys ip name : sustainedKey ip name <> [] /\ loginKey ip name <> [] /\
  sustainedKey ip name <> loginKey ip name.
Proof. split_and!; done. Qed.

Lemma recordLoginFailure_unfold m name s now :
  recordLoginFailure m name s now =
  (let? '(m, _) := check_limit m (sustainedKey (clientIp s) name) kLoginSustainedPolicy now in
   let? '(m, _) := check_limit m (loginKey (clientIp s) name) kLoginPolicy now in Ok m).
Proof. reflexivity. Qed.

Lemma failures_counted name s t0 times m ls1 c1 b2 :
  let k1 := sustainedKey (clientIp s) name in
  let k2 := loginKey (clientIp s) name in
  (size m < kMaxBuckets)%nat -> m !! k1 = Some (mkBucket t0 ls1 c1) -> m !! k2 = Some b2 -> 0 < c1 <= 30 ->
  Forall (fun t => t - t0 < 15 * 60 * second) times ->
  exists m' ls1' b2', failures m name s times = Ok m' /\
    m' !! k1 = Some (mkBucket t0 ls1' (Z.min (c1 + Z.of_nat (length times)) 30)) /\ m' !! k2 = Some b2' /\
    (Forall (fun t => t - t0 < 60 * second) times -> window_start b2 = t0 -> 0 < count b2 <= 10 ->
     window_start b2' = t0 /\ count b2' = Z.min (count b2 + Z.of_nat (length times)) 10).
Proof.
  cbv zeta. destruct (login_keys (clientIp s) name) as (Hn1 & Hn2 & Hne). destruct login_policies as [Hp1 Hp2].
  set (k1 := sustainedKey _ _) in *. set (k2 := loginKey _ _) in *.
  revert m ls1 c1 b2. induction times as [|t times IH]; intros m ls1 c1 b2 Hs H1 H2 Hc Ht; cbn [failures length].
  { exists m, ls1, b2. rewrite Z.add_0_r, Z.min_l by lia. split_and!; try done. intros. split; [done|lia]. }
  apply Forall_cons in Ht as [Ht0 Ht]. rewrite recordLoginFailure_unfold. fold k1 k2.
  destruct (check_limit_open m k1 kLoginSustainedPolicy t0 ls1 c1 t) as [d1 ->]; try done.
  cbn [rbind p_max_attempts kLoginSustainedPolicy].
  set (m1 := <[k1:=_]> m).
  assert (Hs1 : size m1 = size m) by (apply map_size_insert_Some; eauto).
  assert (H12 : m1 !! k2 = Some b2) by (unfold m1; by rewrite lookup_insert_ne).
  assert (exists b d, check_limit m1 k2 kLoginPolicy t = Ok (<[k2 := b]> m1, d) /\
    (t - t0 < 60 * second -> window_start b2 = t0 -> 0 < count b2 <= 10 ->
     window_start b = t0 /\ count b = Z.min (count b2 + 1) 10)) as (b & d & -> & Hb).
  { destruct (decide (t - t0 < 60 * second /\ window_start b2 = t0 /\ 0 < count b2 <= 10)) as [(Hw & Hws & Hcb)|Hno].
    - destruct b2 as [ws ls c2]. cbn [window_start count] in *. subst ws.
      destruct (check_limit_open m1 k2 kLoginPolicy t0 ls c2 t) as [d ->]; try done; [by rewrite Hs1|].
      eexists _, _. split; [done|]. done.
    - destruct (check_limit_total m1 k2 kLoginPolicy t) as (b & d & ->); [done|done|by rewrite Hs1|].
      exists b, d. split; [done|]. intros. exfalso. naive_solver. }
  cbn [rbind].
  destruct (IH (<[k2:=b]> m1) t (Z.min (c1 + 1) 30) b) as (m' & ls' & b' & Hf & Hk1 & Hk2 & Hmin); try done.
  - rewrite map_size_insert_Some by eauto. by rewrite Hs1.
  - rewrite lookup_insert_ne by done. unfold m1. apply lookup_insert_eq.
  - apply lookup_insert_eq.
  - lia.
  - exists m', ls', b'. rewrite Hf, Hk1. split_and!; [done| |done|].
    + do 2 f_equal. lia.
    + intros [Hw Hws]%Forall_cons Hst Hcb. destruct (Hb Hw Hst Hcb) as [Hb1 Hb2].
      destruct (Hmin Hws Hb1 ltac:(lia)) as [? ->]. split; [done|]. lia.
Qed.

(** What a login attempt is told, from the two buckets. *)
Lemma check_login m name s now ws1 ls1 c1 ws2 ls2 c2 :
  m !! sustainedKey (clientIp s) name = Some (mkBucket ws1 ls1 c1) ->
  m !! loginKey (clientIp s) name = Some (mkBucket ws2 ls2 c2) ->
  now - ws1 < 15 * 60 * second ->
  exists d, check_command m $"auth.login" (login_message name) s now = Ok (m, d) /\
    (30 <= c1 -> allowed d = false) /\
    (c1 < 30 -> now - ws2 < 60 * second -> allowed d = (c2 <? 10)).
Proof.
  intros H1 H2 Ht. unfold check_command.
  change (one_of $"auth.login" _ && _) with false. cbv iota.
  change (policyFor $"auth.login") with (Some kLoginPolicy). cbv iota.
  change ($"auth.login" == $"auth.login") with true. cbv iota.
  change (optionalString (payloadOf (login_message name)) $"name") with name.
  change (keyFor $"auth.login" (login_message name) s) with (loginKey (clientIp s) name).
  unfold peek at 1. change (is_empty (sustainedKey (clientIp s) name)) with false. cbn [negb].
  rewrite H1. cbn [window_start count]. change (window kLoginSustainedPolicy) with (15 * 60).
  change (p_max_attempts kLoginSustainedPolicy) with 30. change (negb (30 =? 0)) with true. cbv iota.
  rewrite (proj2 (Z.leb_gt (15 * 60 * second) (now - ws1))) by lia.
  destruct (Z.leb_spec 30 c1); cbn [rbind allowed negb].
  { eexists. split; [done|]. split; [done|lia]. }
  unfold peek. change (is_empty (loginKey (clientIp s) name)) with false. cbn [negb].
  rewrite H2. cbn [window_start count]. change (window kLoginPolicy) with 60.
  change (p_max_attempts kLoginPolicy) with 10. change (negb (10 =? 0)) with true. cbv iota.
  destruct (Z.leb_spec (60 * second) (now - ws2)); cbn [rbind]; [eexists; split; [done|split; lia]|].
  destruct (Z.leb_spec 10 c2); cbn [rbind]; (eexists; split; [done|]); (split; [lia|]); intros _ _; cbn [allowed];
    symmetry; [apply Z.ltb_ge|apply Z.ltb_lt]; lia.
Qed.

(** C40. Password guessing is locked out: for a client address and account without
    recorded failures, in a table with room, a first failed login at [t0] and
    further ones within a minute leave logins open exactly while fewer than ten
    failed, for the rest of that minute; thirty failures within a quarter of an
    hour shut logins for the rest of that quarter hour.  Asking records nothing. *)
Theorem login_lockout m name s t0 times :
  (S (S (size m)) < kMaxBuckets)%nat ->
  m !! sustainedKey (clientIp s) name = None -> m !! loginKey (clientIp s) name = None ->
  Forall (fun t => t - t0 < 15 * 60 * second) times ->
  exists m', failures m name s (t0 :: times) = Ok m' /\
    (Forall (fun t => t - t0 < 60 * second) times -> forall now, now - t0 < 60 * second ->
       exists d, check_command m' $"auth.login" (login_message name) s now = Ok (m', d) /\
         allowed d = (S (length times) <? 10)%nat) /\
    ((30 <= S (length times))%nat -> forall now, now - t0 < 15 * 60 * second ->
       exists d, check_command m' $"auth.login" (login_message name) s now = Ok (m', d) /\ allowed d = false).
Proof.
  intros Hs H1 H2 Ht. destruct (login_keys (clientIp s) name) as (Hn1 & Hn2 & Hne).
  destruct login_policies as [Hp1 Hp2]. cbn [failures]. rewrite recordLoginFailure_unfold.
  destruct (check_limit_new m (sustainedKey (clientIp s) name) kLoginSustainedPolicy t0) as [d1 ->];
    [done|done|lia|done|]. cbn [rbind].
  set (m1 := <[sustainedKey _ _ := _]> m).
  assert (Hs1 : size m1 = S (size m)) by by apply map_size_insert_None.
  assert (H12 : m1 !! loginKey (clientIp s) name = None) by (unfold m1; by rewrite lookup_insert_ne).
  destruct (check_limit_new m1 (loginKey (clientIp s) name) kLoginPolicy t0) as [d2 ->];
    [done|done|lia|done|]. cbn [rbind].
  destruct (failures_counted name s t0 times (<[loginKey (clientIp s) name:=mkBucket t0 t0 1]> m1)
              t0 1 (mkBucket t0 t0 1)) as (m' & ls' & [ws2 ls2 c2] & Hf & Hk1 & Hk2 & Hmin); try done.
  - rewrite map_size_insert_None by done. lia.
  - rewrite lookup_insert_ne by done. unfold m1. apply lookup_insert_eq.
  - apply lookup_insert_eq.
  - exists m'. split; [done|]. cbn [window_start count] in Hmin. split.
    + intros Hw now Hnow. destruct (Hmin Hw eq_refl ltac:(lia)) as [-> ->].
      destruct (check_login _ name s now _ _ _ _ _ _ Hk1 Hk2) as (d & Hd & Hhi & Hlo); [unfold second in *; lia|].
      exists d. split; [done|]. destruct (Nat.ltb_spec (S (length times)) 10).
      * rewrite Hlo by lia. apply Z.ltb_lt. lia.
      * destruct (decide (1 + Z.of_nat (length times) < 30)); [|apply Hhi; lia].
        rewrite Hlo by lia. apply Z.ltb_ge. lia.
    + intros Hlen now Hnow.
      destruct (check_login _ name s now _ _ _ _ _ _ Hk1 Hk2) as (d & Hd & Hhi & _); [lia|].
      exists d. split; [done|]. apply Hhi. lia.
Qed.

Definition guesser : Session := mkWsSession $"203.0.113.9" $"127.0.0.1" [] None false.

Lemma login_lockout_witness :
  exists m', failures ∅ $"root" guesser (0 :: repeat second 9) = Ok m' /\
    exists d, check_command m' $"auth.login" (login_message $"root") guesser (2 * second) = Ok (m', d) /\
      allowed d = false.
Proof.
  destruct (login_lockout ∅ $"root" guesser 0 (repeat second 9)) as (m' & Hf & Hb & _).
  - rewrite map_size_empty. apply Nat.ltb_lt. vm_compute. reflexivity.
  - reflexivity.
  - reflexivity.
  - repeat constructor.
  - exists m'. split; [exact Hf|]. apply (Hb ltac:(repeat constructor) (2 * second)). reflexivity.
Defined.

(** The limits are per address and account: an address locked out of one account
    still guesses another. *)
Definition login_allowed (m : gmap str Bucket) (name : str) (now : Z) : option bool :=
  match check_command m $"auth.login" (login_message name) guesser now with
  | Ok (_, d) => Some (allowed d)
  | Err _ => None
  end.

Remark other_account_still_open :
  match failures ∅ $"root" guesser (repeat 0 30) with
  | Ok m => (login_allowed m $"root" 1, login_allowed m $"admin" 1)
  | Err _ => (None, None)
  end = (Some false, Some true).
Proof. vm_compute. reflexivity. Qed.
End Commands.
